(* ===== verification/_CoqProject ===== *)
-Q . S2P
Prelude.v
Errors.v
Time.v
Utf8.v
Text.v
Paths.v
Model.v
Broker.v
Grants.v
Cbor.v
CborReference.v
Codec.v
Crypto.v
Vault.v
Store.v
Capture.v
Redact.v
Json.v
Protocol.v
ProtocolReference.v
Runner.v
Approval.v
ApprovalInvariant.v
ApprovalProperties.v
Runs.v
UnlockRequests.v
UiLocks.v
Editor.v
SessionAuth.v
Controller.v
Calls.v
Os.v
ProcessTree.v
RunFiles.v
Supervisor.v
SupervisorProperties.v
Workers.v
AgentBroker.v
BrokerThreads.v
BrokerLock.v
BrokerRuns.v
BrokerHandle.v
Endpoint.v
EndpointProperties.v
Commands.v
CommandsProperties.v
Integrate.v
IntegrateProperties.v
McpTools.v
Mcp.v
McpProperties.v
Cli.v
CliProperties.v
Detection.v
DetectionProperties.v
Scan.v
ScanProperties.v
ScanBounds.v
Lifetime.v
Gui.v
Desktop.v
DesktopViews.v
DesktopInvariant.v
DesktopDialogs.v
ClipboardProperties.v
DesktopProperties.v
DesktopLocks.v
BrokerShutdown.v
Startup.v
TouchId.v
