(* ===== verification/Prelude.v ===== *)
(** * Ladon: a verification library for the secret vault and process runner

    Ladon keeps secrets in an encrypted vault and lets coding agents run commands
    with them, without ever showing them a value: the agent names secrets, the
    user approves, and the app launches the command with the values in its
    environment, its standard input or a private file, and returns its output
    with every form of the values removed.  This library models the Rust crates
    [ladon-core], [ladon-app] and [ladon-cli] under [src/crates/] and proves what
    makes them correct.

    ** The parts and their files

    The names of the definitions are those of the source, prefixed where two
    modules use the same name.  A file opens with the source file it models.

    - Foundations.  [Prelude] (lists, options, [result], machine integers,
      tactics), [Errors] ([error.rs]), [Time] (durations and the clocks of
      [broker.rs]), [Utf8], [Text] and [Paths] (what the source uses of the
      standard library's UTF-8 validation, of [str] and of [std::path]), [Calls]
      (programs that talk to the world outside).
    - The vault.  [Model] ([model.rs]: names, references, fields, records),
      [Codec] ([codec.rs]: the payload and its deterministic CBOR form), [Crypto]
      ([crypto.rs]: the encrypted file), [Vault] ([vault.rs]: the operations on
      records), [Store] ([store.rs]: two copies replaced one after the other on a
      disk that may crash).  [Cbor] is the interface of the [minicbor] crate and
      [CborReference] an implementation that satisfies its laws.
    - Output.  [Capture] and [Redact] ([redact.rs]: streaming redaction into a
      bounded, printable text).
    - The agent protocol.  [Json] and [Protocol] ([protocol.rs]: documents, frames,
      checks), [ProtocolReference] (instances of its parameters), [Runner]
      ([runner.rs]: requests to run a command and their resolution), [Endpoint] and
      [EndpointProperties] ([ipc.rs]: the socket, its clients and the life of a
      session).
    - Access.  [Broker] ([broker.rs]: the unlock and lock automaton), [Grants]
      ([grants.rs]: which client may use which secret, until when), [Approval],
      [ApprovalInvariant] and [ApprovalProperties] ([approval.rs]: the coordinator
      of requests, decisions and grants).
    - The app.  [Runs], [UnlockRequests], [UiLocks] (three coordinators of
      [agent_broker.rs] and [unlock_request.rs]), [Editor] ([secret_editor.rs] and
      the views of [ui.rs]), [SessionAuth] ([session_auth.rs]: the PIN),
      [Controller] ([VaultController] of [ui.rs]).
    - Running a command.  [Os] (the calls of a run), [ProcessTree], [RunFiles],
      [Supervisor] and [SupervisorProperties] ([supervisor.rs]).
    - The broker.  [AgentBroker] ([agent_broker.rs]: requests and locks, composed
      of the parts above), [BrokerThreads] (what other threads may do in between),
      [BrokerLock], [BrokerRuns] and [BrokerHandle] (its properties and the methods
      of [LocalBrokerHandle]), [BrokerShutdown] (its start, its accept loop and its
      drop).
    - The command line ([ladon-cli]).  [Commands] and [CommandsProperties] (how
      arguments become a request to run a command), [Cli] and [CliProperties]
      ([execute_cli]), [McpTools], [Mcp] and [McpProperties] ([mcp.rs]: the server
      a coding agent talks to), [Integrate] and [IntegrateProperties]
      ([integrate.rs]: the edit of the agent's configuration).
    - The exposure scan.  [Detection] and [DetectionProperties] ([detection.rs]:
      what looks like a secret), [Scan], [ScanProperties] and [ScanBounds]
      ([exposure_scan.rs]: the walk over the user's files and its seven limits).
    - The window ([desktop.rs]).  [Lifetime] ([approval_lifetime.rs]), [Gui] (the
      monad of its programs), [Desktop] (its state and operations), [DesktopViews]
      (what a frame draws and does with the user's input), [DesktopInvariant] (the
      evidence that its operations leave), [DesktopDialogs] (what each dialog shows
      before it is answered), [DesktopProperties], [DesktopLocks] and
      [ClipboardProperties]; [TouchId] (the worker of
      [touch_id.rs]) and [Startup] (the lock of the process).

    ** How state and effects correspond

    A method of an object that runs under a mutex is a function on a record with
    the fields of the source.  Errors are values of [LResult], [Ok] or [Err] of a
    [LadonError]; where the source keeps changes made before an error, the monad
    keeps the state ([Approval]).  A program that talks to the operating system is
    in the monad of [Calls]: every call is logged with its answer, nothing is
    assumed of the answers, and safety is stated on the log; a call that may block for
    ever, such as the join of a thread or the read of a pipe to its end, may have no
    answer, and then neither has the program.  The handler of a server is such a call
    too, so that the log shows when it was called and with what.  The disk of [Store]
    is a state machine that may crash in any call.  Threads of the broker are in
    [Workers]: a worker is a sequence of critical sections on the shared state,
    between which the other threads take any steps [BrokerThreads] allows; the
    properties hold for every interleaving.  The window is in the monad of [Gui]:
    drawing a widget is a call that answers what the user did with it, and so are
    the broker, the controller and Touch ID, whose answers may be anything.  Machine
    integers are [Z] with the
    checked, saturating or wrapping operation of the source written out; bytes
    are lists of [ascii] and strings are [string] with the predicate [valid_utf8].

    Code that is not in the repository is a parameter: a class of operations and
    one of the laws the source relies on ([TextCrates], [Cbor], [CryptoCrates],
    [RedactCrates], [SerdeJson], [Messages]).  Every class has an instance in the
    library, with which the theorems are applied to concrete inputs.

    ** Bounds and fuel

    Loops that are structural are structural.  Loops that are not run on fuel
    derived from their input, with a theorem that it is enough: the scan of a
    buffer consumes a byte in every round ([Redact.process_loop]), shortening two
    texts removes a character in every round ([Supervisor.combine_loop]), the
    CBOR decoder consumes input ([Codec]), a wait ends because the clock advances
    while the worker sleeps ([ProcessTree], [TouchId]), the accept loop ends because
    the flag is set ([BrokerShutdown]).  A run and the accept thread end unless a join
    never returns ([SupervisorProperties], [BrokerShutdown]), which no bound of the
    source excludes: a process that left its group can hold the pipe of a run open.  Frames of the window, lines of the MCP
    server and connections have no bound in the source and none here: the theorems
    hold after any number of them.

    ** What the theorems show

    A child is launched only with values the user authorised for its client
    ([BrokerRuns]); a hard lock leaves no run and no grant behind ([BrokerLock]);
    revocation stops what it revokes ([Runs], [BrokerHandle]); dropping the broker
    ends its sessions, grants, runs and threads ([BrokerShutdown]); the coordinator
    grants only what was approved and answers everyone who waits
    ([ApprovalProperties]).  The output of a run contains no form of a secret
    ([Redact], [SupervisorProperties]); secrets reach the child and nothing else.
    The vault file determines its contents and survives crashes ([Codec],
    [Crypto], [Vault], [Store]).  Text that arrives from outside is accepted
    exactly when it is well formed ([Protocol], [Runner]), and the command line and
    the MCP server ask the app only such things, once, under a live lease
    ([CommandsProperties], [McpProperties], [CliProperties]).  The scan stays within
    its limits, follows no link and leaves nothing out without saying so
    ([ScanBounds], [ScanProperties], [DetectionProperties]).  The window asks for an
    approval, an unattended grant or an unlock only after the user chose Touch ID or
    the PIN in the dialog that showed this request with this lifetime, or this consent
    with this deadline, and was confirmed, and for a secret only after its selection was
    confirmed ([DesktopInvariant], [DesktopDialogs], [DesktopProperties]); it draws its
    manager only while it is unlocked, and locking it clears what it holds of the vault
    ([DesktopLocks]); a secret that is copied from its field does not pass
    through the widget ([ClipboardProperties]).  Touch ID confirms only what the
    user was asked ([TouchId]), and only one process uses the vault ([Startup]).  Two
    theorems show defects: [Vault.add_to_full_vault_unreadable] and
    [DesktopLocks.early_lock_refuses_touch_id].

    ** Not modelled

    Windows (named pipes, job objects, [MoveFileEx]); the platform's side of the
    window: styling, layout and constant texts of [egui], the tray, the
    framework of Touch ID and the clipboard, which are calls into platform
    libraries; [run_desktop], which hands the window to [eframe]; poisoned mutexes,
    since no critical section panics; zeroization of memory. *)

From stdpp Require Export base tactics list gmap strings sets sorting.
From Stdlib Require Export ZArith Lia Ascii.
From Stdlib Require Strings.String.

#[export] Set Default Goal Selector "!".

(** ** Fallible computations

    Rust's [Result<A, E>], with the [?] operator as monadic bind. *)
Inductive result (E A : Type) : Type :=
| Ok (a : A)
| Err (e : E).
Arguments Ok {E A} a.
Arguments Err {E A} e.

#[export] Instance result_ret {E} : MRet (result E) := fun A a => Ok a.
#[export] Instance result_bind {E} : MBind (result E) :=
  fun A B f m => match m with Ok a => f a | Err e => Err e end.
#[export] Instance result_fmap {E} : FMap (result E) :=
  fun A B f m => match m with Ok a => Ok (f a) | Err e => Err e end.

#[export] Instance result_eq_dec {E A} `{EqDecision E, EqDecision A} :
  EqDecision (result E A).
Proof. solve_decision. Defined.

(** [Option::ok_or]. *)
Definition ok_or {E A} (o : option A) (e : E) : result E A :=
  match o with Some a => Ok a | None => Err e end.

(** [Result::map_err] with a constant error. *)
Definition map_err {E F A} (f : F) (m : result E A) : result F A :=
  match m with Ok a => Ok a | Err _ => Err f end.

(** [Result::ok]. *)
Definition ok {E A} (m : result E A) : option A :=
  match m with Ok a => Some a | Err _ => None end.

(** An early return [if bad { return Err(e) }]. *)
Definition reject_if {E} (bad : bool) (e : E) : result E unit :=
  if bad then Err e else Ok tt.

Definition is_ok {E A} (m : result E A) : bool :=
  match m with Ok _ => true | Err _ => false end.

Section result_laws.
Context {E F A B : Type}.
Implicit Types (m : result E A).

Lemma bind_Ok m (k : A -> result E B) b :
  m ≫= k = Ok b <-> exists a, m = Ok a /\ k a = Ok b.
Proof. destruct m; cbn; naive_solver. Qed.

Lemma fmap_Ok m (f : A -> B) b :
  f <$> m = Ok b <-> exists a, m = Ok a /\ f a = b.
Proof. destruct m; cbn; naive_solver. Qed.

Lemma ok_or_Ok (o : option A) (e : E) a : ok_or o e = Ok a <-> o = Some a.
Proof. destruct o; cbn; naive_solver. Qed.

Lemma map_err_Ok m (f : F) a : map_err f m = Ok a <-> m = Ok a.
Proof. destruct m; cbn; naive_solver. Qed.

Lemma ok_Some m a : ok m = Some a <-> m = Ok a.
Proof. destruct m; cbn; naive_solver. Qed.
End result_laws.

Lemma reject_if_Ok {E} (bad : bool) (e : E) u :
  reject_if bad e = Ok u <-> bad = false.
Proof. destruct bad, u; cbn; naive_solver. Qed.

(** Splits every successful computation in the context into its steps. *)
Ltac inv_ok :=
  repeat match goal with
  | H : (_ ≫= _) = Ok _ |- _ => apply bind_Ok in H as (? & ? & ?)
  | H : (_ <$> _) = Ok _ |- _ => apply fmap_Ok in H as (? & ? & ?)
  | H : ok_or _ _ = Ok _ |- _ => apply ok_or_Ok in H
  | H : map_err _ _ = Ok _ |- _ => apply map_err_Ok in H
  | H : reject_if _ _ = Ok _ |- _ => apply reject_if_Ok in H
  | H : Ok _ = Ok _ |- _ => injection H as H
  | H : Err _ = Ok _ |- _ => discriminate H
  | H : Ok _ = Err _ |- _ => discriminate H
  | H : (if ?c then Err _ else _) = Ok _ |- _ => destruct c eqn:?; [discriminate H|]
  | H : (if ?c then _ else Err _) = Ok _ |- _ => destruct c eqn:?; [|discriminate H]
  end; simplify_eq.

(** Case analysis on the boolean guards of the goal and the hypotheses. *)
Ltac bool_hyps :=
  repeat match goal with
  | H : _ && _ = true |- _ => apply andb_true_iff in H as [? ?]
  | H : _ || _ = false |- _ => apply orb_false_iff in H as [? ?]
  | H : negb _ = true |- _ => apply negb_true_iff in H
  | H : negb _ = false |- _ => apply negb_false_iff in H
  | H : bool_decide _ = true |- _ => apply bool_decide_eq_true in H
  | H : bool_decide _ = false |- _ => apply bool_decide_eq_false in H
  | H : Z.leb _ _ = true |- _ => apply Z.leb_le in H
  | H : Z.leb _ _ = false |- _ => apply Z.leb_gt in H
  | H : Z.ltb _ _ = true |- _ => apply Z.ltb_lt in H
  | H : Z.ltb _ _ = false |- _ => apply Z.ltb_ge in H
  | H : Z.eqb _ _ = true |- _ => apply Z.eqb_eq in H
  | H : Z.eqb _ _ = false |- _ => apply Z.eqb_neq in H
  end.

(** ** Machine integers

    [usize] and [u64] have 64 bits, [u32] and [u16] their own width.
    Values are [Z]; the operations that can overflow are written out. *)
Definition u64_max : Z := 2 ^ 64 - 1.
Definition u32_max : Z := 2 ^ 32 - 1.
Definition usize_max : Z := u64_max.

Definition checked_add (limit a b : Z) : option Z :=
  if Z.leb (a + b) limit then Some (a + b)%Z else None.
Definition saturating_add (limit a b : Z) : Z := Z.min limit (a + b).
Definition saturating_sub (a b : Z) : Z := Z.max 0 (a - b).
Definition wrapping_add_u64 (a b : Z) : Z := (a + b) mod 2 ^ 64.

Lemma checked_add_Some limit a b c :
  checked_add limit a b = Some c <-> c = (a + b)%Z /\ (c <= limit)%Z.
Proof. unfold checked_add. destruct (Z.leb_spec (a + b) limit); naive_solver lia. Qed.

Lemma checked_add_None limit a b :
  checked_add limit a b = None <-> (limit < a + b)%Z.
Proof. unfold checked_add. destruct (Z.leb_spec (a + b) limit); naive_solver lia. Qed.

(** ** Bytes and strings

    [Vec<u8>] is [list ascii]; [String] is [string], the bytes of its
    UTF-8 encoding, so that [String.length] is Rust's [str::len]. *)
Abbreviation byte := ascii (only parsing).
Abbreviation bytes := (list ascii) (only parsing).

Definition bz (b : byte) : Z := Z.of_N (N_of_ascii b).
Definition zb (z : Z) : byte := ascii_of_N (Z.to_N (z mod 256)).

Definition zlen {A} (l : list A) : Z := Z.of_nat (length l).
Definition bytes_of (s : string) : bytes := String.list_ascii_of_string s.
Definition string_of (b : bytes) : string := String.string_of_list_ascii b.
Definition slen (s : string) : Z := zlen (bytes_of s).

Lemma bz_range b : (0 <= bz b < 256)%Z.
Proof. unfold bz. pose proof (N_ascii_bounded b). lia. Qed.

Lemma bz_zb z : bz (zb z) = (z mod 256)%Z.
Proof.
  unfold bz, zb. pose proof (Z.mod_pos_bound z 256).
  rewrite N_ascii_embedding; lia.
Qed.

Lemma bz_zb_small z : (0 <= z < 256)%Z -> bz (zb z) = z.
Proof. intros ?. rewrite bz_zb. by apply Z.mod_small. Qed.

Lemma zb_bz b : zb (bz b) = b.
Proof.
  unfold zb. rewrite Z.mod_small by apply bz_range.
  unfold bz. rewrite N2Z.id. apply ascii_N_embedding.
Qed.

#[export] Instance bz_inj : Inj (=) (=) bz.
Proof. intros a b H. by rewrite <- (zb_bz a), H, zb_bz. Qed.

Lemma bytes_of_string_of b : bytes_of (string_of b) = b.
Proof. apply String.list_ascii_of_string_of_list_ascii. Qed.
Lemma string_of_bytes_of s : string_of (bytes_of s) = s.
Proof. apply String.string_of_list_ascii_of_string. Qed.

Lemma bytes_of_append s t : bytes_of (String.append s t) = bytes_of s ++ bytes_of t.
Proof.
  induction s as [|c s IH]; [done|].
  change (c :: bytes_of (String.append s t) = c :: bytes_of s ++ bytes_of t). by rewrite IH.
Qed.

#[export] Instance bytes_of_inj : Inj (=) (=) bytes_of.
Proof. intros a b H. by rewrite <- (string_of_bytes_of a), H, string_of_bytes_of. Qed.

Lemma zlen_nonneg {A} (l : list A) : (0 <= zlen l)%Z.
Proof. unfold zlen. lia. Qed.
Lemma zlen_nil {A} : zlen (@nil A) = 0%Z.
Proof. reflexivity. Qed.
Lemma zlen_cons {A} (x : A) l : zlen (x :: l) = (1 + zlen l)%Z.
Proof. unfold zlen. cbn. lia. Qed.
Lemma zlen_app {A} (l k : list A) : zlen (l ++ k) = (zlen l + zlen k)%Z.
Proof. unfold zlen. rewrite length_app. lia. Qed.
Lemma zlen_map {A B} (f : A -> B) l : zlen (map f l) = zlen l.
Proof. unfold zlen. by rewrite length_map. Qed.
Lemma zlen_fmap {A B} (f : A -> B) (l : list A) : zlen (f <$> l) = zlen l.
Proof. apply zlen_map. Qed.

Lemma slen_nonneg s : (0 <= slen s)%Z.
Proof. apply zlen_nonneg. Qed.

(** ** The automation of the library *)
Create HintDb ladon.
#[export] Hint Resolve bz_range zlen_nonneg : ladon.
#[export] Hint Rewrite @zlen_nil @zlen_cons @zlen_app @zlen_map @zlen_fmap
  bytes_of_string_of string_of_bytes_of zb_bz : ladon.

(** ** Search in byte strings

    [contains]: does [needle] occur in [hay] ([str::contains], and the
    comparison of every window of [needle]'s length). *)
Fixpoint contains (hay needle : bytes) : bool :=
  bool_decide (needle `prefix_of` hay)
  || match hay with [] => false | _ :: r => contains r needle end.

Definition starts_with (hay needle : bytes) : bool := bool_decide (needle `prefix_of` hay).

(** [str::strip_prefix]. *)
Definition strip_prefix (needle hay : bytes) : option bytes :=
  if starts_with hay needle then Some (drop (length needle) hay) else None.

Lemma contains_spec hay needle :
  contains hay needle = true <-> exists l r, hay = l ++ needle ++ r.
Proof.
  induction hay as [|x hay IH]; cbn; rewrite ?orb_false_r, ?orb_true_iff, bool_decide_eq_true.
  - split.
    + intros [r Hr]. by exists [], r.
    + intros (l & r & H). exists r. by destruct l.
  - rewrite IH. split.
    + intros [[r ->]|(l & r & ->)]; [by exists [], r|by exists (x :: l), r].
    + intros ([|y l] & r & H); simplify_eq/=; [left; by exists r|right; eauto].
Qed.

Lemma contains_app_l hay l needle : contains hay needle = true -> contains (l ++ hay) needle = true.
Proof. rewrite !contains_spec. intros (a & b & ->). exists (l ++ a), b. by rewrite <- app_assoc. Qed.

Lemma strip_prefix_Some needle hay r : strip_prefix needle hay = Some r <-> hay = needle ++ r.
Proof.
  unfold strip_prefix, starts_with. case_bool_decide as Hp; split; intros H; simplify_eq.
  - destruct Hp as [k ->]. by rewrite drop_app_length.
  - by rewrite drop_app_length.
  - destruct Hp. by exists r.
Qed.

(** ** Hash-set membership tests in a traversal

    [iter.any(|x| !set.insert(x))] from an empty set: is an element repeated? *)
Section duplicates.
Context `{Countable A}.

Fixpoint any_repeated (seen : gset A) (l : list A) : bool :=
  match l with
  | [] => false
  | x :: r => bool_decide (x ∈ seen) || any_repeated ({[x]} ∪ seen) r
  end.

(** [iter.filter(|x| set.insert(x))] from an empty set: first occurrences only. *)
Fixpoint first_occurrences (seen : gset A) (l : list A) : list A :=
  match l with
  | [] => []
  | x :: r =>
    if bool_decide (x ∈ seen) then first_occurrences seen r
    else x :: first_occurrences ({[x]} ∪ seen) r
  end.

Lemma any_repeated_false seen l :
  any_repeated seen l = false <-> NoDup l /\ forall x, x ∈ l -> x ∉ seen.
Proof.
  revert seen. induction l as [|x l IH]; intros seen; cbn.
  - split; [|done]. intros _. split; [constructor|]. by intros ? ?%not_elem_of_nil.
  - rewrite orb_false_iff, bool_decide_eq_false, IH, NoDup_cons. set_solver.
Qed.

Lemma any_repeated_NoDup l : any_repeated ∅ l = false <-> NoDup l.
Proof. rewrite any_repeated_false. set_solver. Qed.

Lemma elem_of_first_occurrences seen l x :
  x ∈ first_occurrences seen l <-> x ∈ l /\ x ∉ seen.
Proof.
  revert seen. induction l as [|y l IH]; intros seen; cbn.
  - set_solver.
  - case_bool_decide; rewrite ?elem_of_cons, IH; [|destruct (decide (x = y))]; set_solver.
Qed.

Lemma NoDup_first_occurrences seen l : NoDup (first_occurrences seen l).
Proof.
  revert seen. induction l as [|y l IH]; intros seen; cbn; [constructor|].
  case_bool_decide; [done|]. constructor; [|done].
  rewrite elem_of_first_occurrences. set_solver.
Qed.
End duplicates.

(** ** Lists *)

(** [Iterator::position] and [Iterator::find]. *)
Fixpoint position {A} (p : A -> bool) (l : list A) : option nat :=
  match l with
  | [] => None
  | x :: r => if p x then Some O else S <$> position p r
  end.

Lemma position_Some {A} (p : A -> bool) l i :
  position p l = Some i <->
  exists x, l !! i = Some x /\ p x = true /\ forall j y, (j < i)%nat -> l !! j = Some y -> p y = false.
Proof.
  revert i. induction l as [|x l IH]; intros i; cbn.
  - naive_solver.
  - destruct (p x) eqn:Hp.
    + split.
      * intros [= <-]. exists x. split_and!; [done..|lia].
      * intros (y & Hy & Hpy & Hlt). destruct i; [done|].
        specialize (Hlt O x ltac:(lia) eq_refl). congruence.
    + rewrite fmap_Some. split.
      * intros (k & (y & Hy & Hpy & Hlt)%IH & ->). exists y. split_and!; [done..|].
        intros [|j] z Hj Hz; simplify_eq/=; [done|]. apply (Hlt j); [lia|done].
      * intros (y & Hy & Hpy & Hlt). destruct i as [|i]; simplify_eq/=; [congruence|].
        exists i. split; [|done]. apply IH. exists y. split_and!; [done..|].
        intros j z Hj Hz. apply (Hlt (S j)); [lia|done].
Qed.

Lemma position_None {A} (p : A -> bool) l :
  position p l = None <-> forall x, x ∈ l -> p x = false.
Proof.
  induction l as [|x l IH]; cbn.
  - split; [|done]. by intros _ ? ?%not_elem_of_nil.
  - destruct (p x) eqn:Hp.
    + split; [done|]. intros H. specialize (H x). rewrite H in Hp by set_solver. done.
    + rewrite fmap_None, IH. setoid_rewrite elem_of_cons. naive_solver.
Qed.

(** [Iterator::all] and [Iterator::any]. *)
Lemma forallb_true_Forall {A} (f : A -> bool) l : forallb f l = true <-> Forall (fun x => f x = true) l.
Proof. induction l as [|x l IH]; cbn; [by split|]. by rewrite andb_true_iff, IH, Forall_cons. Qed.

Lemma existsb_false_Forall {A} (f : A -> bool) l : existsb f l = false <-> Forall (fun x => f x = false) l.
Proof. induction l as [|x l IH]; cbn; [by split|]. by rewrite orb_false_iff, IH, Forall_cons. Qed.

(** ** Big-endian integers: [to_be_bytes] and [from_be_bytes] *)
Fixpoint be_bytes (n : nat) (z : Z) : bytes :=
  match n with
  | O => []
  | S n => zb (z / 256 ^ Z.of_nat n) :: be_bytes n z
  end.
Fixpoint be_value (b : bytes) : Z :=
  match b with
  | [] => 0%Z
  | x :: r => (bz x * 256 ^ zlen r + be_value r)%Z
  end.

Lemma length_be_bytes n z : length (be_bytes n z) = n.
Proof. induction n; cbn; auto. Qed.

Lemma be_value_bound b : (0 <= be_value b < 256 ^ zlen b)%Z.
Proof.
  induction b as [|x b IH]; cbn [be_value]; [by cbn|].
  rewrite zlen_cons, Z.pow_add_r by (pose proof (zlen_nonneg b); lia).
  pose proof (bz_range x). nia.
Qed.

Lemma be_value_bytes n z : be_value (be_bytes n z) = (z mod 256 ^ Z.of_nat n)%Z.
Proof.
  induction n as [|n IH]; cbn [be_value be_bytes]; [by rewrite Z.mod_1_r|].
  rewrite IH, bz_zb. unfold zlen. rewrite length_be_bytes.
  rewrite Nat2Z.inj_succ, Z.pow_succ_r by lia.
  rewrite (Z.mul_comm 256 (256 ^ Z.of_nat n)), Z.rem_mul_r by lia. lia.
Qed.

Lemma be_value_bytes_small n z : (0 <= z < 256 ^ Z.of_nat n)%Z -> be_value (be_bytes n z) = z.
Proof. intros. rewrite be_value_bytes. by apply Z.mod_small. Qed.

Lemma be_bytes_mod n z k :
  (n <= k)%nat -> be_bytes n (z mod 256 ^ Z.of_nat k) = be_bytes n z.
Proof.
  induction n as [|n IH]; intros Hk; cbn; [done|]. rewrite IH by lia. f_equal.
  unfold zb. do 2 f_equal.
  replace (Z.of_nat k) with (Z.of_nat n + (1 + (Z.of_nat k - Z.of_nat n - 1)))%Z by lia.
  rewrite !Z.pow_add_r by lia. change (256 ^ 1)%Z with 256%Z.
  rewrite Z.rem_mul_r by (try apply Z.mul_pos_pos; try lia).
  rewrite Z.mul_comm, Z.div_add by lia.
  rewrite Z.div_small by (apply Z.mod_pos_bound; lia). rewrite Z.add_0_l.
  rewrite Z.rem_mul_r by lia.
  rewrite (Z.mul_comm 256), Z.mod_add by lia. apply Z.mod_mod. lia.
Qed.

Lemma be_bytes_value b : be_bytes (length b) (be_value b) = b.
Proof.
  induction b as [|x b IH]; cbn [be_value be_bytes length]; [done|].
  pose proof (be_value_bound b). unfold zlen in *. f_equal.
  - rewrite Z.div_add_l, Z.div_small, Z.add_0_r by lia. apply zb_bz.
  - rewrite <- (be_bytes_mod _ _ (length b)) by lia.
    rewrite Z.add_comm, Z.mod_add by lia. rewrite be_bytes_mod by lia. done.
Qed.

#[export] Hint Rewrite length_be_bytes : ladon.

(** ** Slices

    [l[a..b]] and [l.get(a..b)]. *)
Definition slice {A} (a b : Z) (l : list A) : list A := take (Z.to_nat (b - a)) (drop (Z.to_nat a) l).
Definition get_slice {A} (a b : Z) (l : list A) : option (list A) :=
  if Z.leb a b && Z.leb b (zlen l) then Some (slice a b l) else None.

Lemma slice_app {A} (a b c : list A) i j :
  i = zlen a -> j = (zlen a + zlen b)%Z -> slice i j (a ++ b ++ c) = b.
Proof.
  intros -> ->. unfold slice, zlen. rewrite Nat2Z.id, drop_app_length.
  replace (Z.to_nat _) with (length b) by lia. apply take_app_length.
Qed.

Lemma get_slice_app {A} (a b c : list A) i j :
  i = zlen a -> j = (zlen a + zlen b)%Z -> get_slice i j (a ++ b ++ c) = Some b.
Proof.
  intros Hi Hj. unfold get_slice. rewrite slice_app by done. rewrite !zlen_app.
  pose proof (zlen_nonneg b). pose proof (zlen_nonneg c).
  by rewrite (proj2 (Z.leb_le i j)), (proj2 (Z.leb_le j _)) by lia.
Qed.

Lemma slice_eq {A} (l a b c : list A) i j :
  l = a ++ b ++ c -> i = zlen a -> j = (zlen a + zlen b)%Z -> slice i j l = b.
Proof. intros ->. apply slice_app. Qed.

Lemma get_slice_eq {A} (l a b c : list A) i j :
  l = a ++ b ++ c -> i = zlen a -> j = (zlen a + zlen b)%Z -> get_slice i j l = Some b.
Proof. intros ->. apply get_slice_app. Qed.

Lemma slice_length {A} a b (l : list A) :
  (0 <= a <= b)%Z -> (b <= zlen l)%Z -> zlen (slice a b l) = (b - a)%Z.
Proof. intros. unfold slice, zlen in *. rewrite length_take, length_drop. lia. Qed.

Lemma slice_split {A} a b c (l : list A) :
  (0 <= a <= b)%Z -> (b <= c)%Z -> slice a c l = slice a b l ++ slice b c l.
Proof.
  intros. unfold slice. replace (Z.to_nat (c - a)) with (Z.to_nat (b - a) + Z.to_nat (c - b))%nat by lia.
  rewrite <- take_take_drop, drop_drop. do 3 f_equal. lia.
Qed.

Lemma slice_all {A} (l : list A) : slice 0 (zlen l) l = l.
Proof. unfold slice, zlen. rewrite Z.sub_0_r, Nat2Z.id. apply firstn_all. Qed.

Lemma get_slice_Some {A} a b (l s : list A) :
  get_slice a b l = Some s <-> (a <= b <= zlen l)%Z /\ s = slice a b l.
Proof.
  unfold get_slice. destruct (Z.leb_spec a b), (Z.leb_spec b (zlen l)); cbn; naive_solver lia.
Qed.

(** ** Formatting of unsigned integers

    [{n}] of a [u64], which has at most twenty digits, and [{byte:02x}]. *)
Fixpoint decimal_loop (fuel : nat) (n : Z) (acc : bytes) : bytes :=
  match fuel with
  | O => acc
  | S fuel =>
    let acc := zb (48 + n mod 10) :: acc in
    if Z.ltb n 10 then acc else decimal_loop fuel (n / 10) acc
  end.
Definition decimal (n : Z) : bytes := decimal_loop 20 n [].

Definition hex_digit (uppercase : bool) (n : Z) : byte :=
  zb (if Z.ltb n 10 then 48 + n else (if uppercase then 65 else 97) + (n - 10))%Z.
Definition hex_byte (uppercase : bool) (b : byte) : bytes :=
  [hex_digit uppercase (Z.shiftr (bz b) 4); hex_digit uppercase (Z.land (bz b) 0x0F)].

Lemma decimal_loop_length fuel n acc : (zlen (decimal_loop fuel n acc) <= Z.of_nat fuel + zlen acc)%Z.
Proof.
  revert n acc. induction fuel as [|fuel IH]; intros n acc; cbn [decimal_loop]; [lia|].
  destruct (Z.ltb n 10); [|etrans; [apply IH|]]; rewrite zlen_cons; lia.
Qed.

Lemma decimal_length n : (zlen (decimal n) <= 20)%Z.
Proof. etrans; [apply decimal_loop_length|]. rewrite zlen_nil. lia. Qed.

Lemma decimal_loop_ascii fuel n acc :
  Forall (fun x => (bz x < 128)%Z) acc -> Forall (fun x => (bz x < 128)%Z) (decimal_loop fuel n acc).
Proof.
  revert n acc. induction fuel as [|fuel IH]; intros n acc Ha; cbn [decimal_loop]; [done|].
  assert (Forall (fun x => (bz x < 128)%Z) (zb (48 + n mod 10) :: acc)).
  { constructor; [|done]. pose proof (Z.mod_pos_bound n 10). rewrite bz_zb_small; lia. }
  destruct (Z.ltb n 10); auto.
Qed.

Lemma decimal_ascii n : Forall (fun x => (bz x < 128)%Z) (decimal n).
Proof. apply decimal_loop_ascii. constructor. Qed.

Lemma hex_digit_ascii u n : (0 <= n < 16)%Z -> (bz (hex_digit u n) < 128)%Z.
Proof.
  intros. unfold hex_digit. destruct (Z.ltb_spec n 10), u; rewrite bz_zb_small; lia.
Qed.

Lemma hex_byte_ascii u b : Forall (fun x => (bz x < 128)%Z) (hex_byte u b).
Proof.
  pose proof (bz_range b). unfold hex_byte. repeat constructor; apply hex_digit_ascii.
  - rewrite Z.shiftr_div_pow2 by lia. change (2 ^ 4)%Z with 16%Z.
    split; [apply Z.div_pos|apply Z.div_lt_upper_bound]; lia.
  - change 15%Z with (Z.ones 4). rewrite Z.land_ones by lia. by apply Z.mod_pos_bound.
Qed.

(** ** Maps from threads to what they hold *)

(** Looks up a key in an updated map: it is the key of the update, or another one. *)
Ltac map_cases :=
  repeat match goal with
  | H : <[?i := _]> _ !! ?j = Some _ |- _ => apply lookup_insert_Some in H as [[? ?]|[? H]]
  | H : delete ?i _ !! ?j = Some _ |- _ => apply lookup_delete_Some in H as [? H]
  end; simplify_eq.
