(* ===== verification/Errors.v ===== *)
(** * Errors: [crates/ladon-core/src/error.rs]

    The error enum every fallible operation of the program returns, its wire
    codes ([LadonError::code], [LadonError::from_code]), its display text
    ([thiserror]'s attributes) and the fixed messages sent to clients
    ([LadonError::safe_message]). *)

From S2P Require Import Prelude.

(** [enum LadonError]. *)
Inductive LadonError : Set :=
| InvalidSecretRef
| InvalidFieldName
| FieldTooLarge
| DuplicateField
| EmptyRecord
| TooManyFields
| VaultPayloadTooLarge
| InvalidVaultPayload
| InvalidVaultFile
| UnsupportedVaultVersion
| VaultAuthenticationFailed
| CryptoUnavailable
| DuplicateSecretName
| SecretNotFound
| FieldNotFound
| RevisionOverflow
| StorageFailure
| VaultUnavailable
| VaultLocked
| InvalidFrame
| IpcDisconnected
| IpcTimeout
| InvalidResponse
| FrameTooLarge
| InvalidRequest
| UnsupportedProtocolVersion
| InvalidOutputLimit
| InvalidExecutablePath
| InvalidWorkingDirectory
| InvalidBinding
| TooManyBindings
| InvalidTimeout
| InjectedDataTooLarge
| SecretInCommand
| Busy
| ProcessFailure
| AlreadyRunning
| UnsafeEndpoint
| EndpointUnavailable
| InvalidPeer
| InvalidPassphrase
| InvalidPin
| ApprovalAuthenticationFailed
| ApprovalDenied
| ApprovalTimeout
| ApprovalCancelled
| TouchIdUnavailable
| IntegrationFailure.

#[export] Instance LadonError_eq_dec : EqDecision LadonError.
Proof. solve_decision. Defined.

(** What the core's operations return. *)
Abbreviation LResult := (result LadonError).

(** The [#[error("...")]] attributes: [Display] for [LadonError]. *)
Definition display (e : LadonError) : string :=
  match e with
  | InvalidSecretRef => "invalid secret reference"
  | InvalidFieldName => "invalid field name"
  | FieldTooLarge => "field value exceeds the size limit"
  | DuplicateField => "record contains duplicate field names"
  | EmptyRecord => "record must contain at least one field"
  | TooManyFields => "record contains too many fields"
  | VaultPayloadTooLarge => "vault payload exceeds the size limit"
  | InvalidVaultPayload => "invalid vault payload"
  | InvalidVaultFile => "invalid vault file"
  | UnsupportedVaultVersion => "unsupported vault version"
  | VaultAuthenticationFailed => "vault authentication failed"
  | CryptoUnavailable => "cryptographic randomness is unavailable"
  | DuplicateSecretName => "a secret with that name already exists"
  | SecretNotFound => "secret not found"
  | FieldNotFound => "secret field not found"
  | RevisionOverflow => "vault revision cannot be incremented"
  | StorageFailure => "vault storage operation failed"
  | VaultUnavailable => "neither managed vault copy can be opened"
  | VaultLocked => "vault is locked"
  | InvalidFrame => "IPC frame is invalid"
  | IpcDisconnected => "local Ladon connection closed before a complete IPC message was received"
  | IpcTimeout => "local Ladon IPC read timed out"
  | InvalidResponse => "local Ladon response is malformed or belongs to another request"
  | FrameTooLarge => "IPC frame exceeds the size limit"
  | InvalidRequest => "IPC request is invalid"
  | UnsupportedProtocolVersion => "unsupported protocol version"
  | InvalidOutputLimit => "output limit is outside the supported range"
  | InvalidExecutablePath => "executable path is invalid"
  | InvalidWorkingDirectory => "working directory is invalid"
  | InvalidBinding => "secret binding is invalid"
  | TooManyBindings => "run contains too many secret bindings"
  | InvalidTimeout => "run timeout is outside the supported range"
  | InjectedDataTooLarge => "injected secret data exceeds the size limit"
  | SecretInCommand => "managed secret data appears in command metadata"
  | Busy => "another secret-bearing process is already running"
  | ProcessFailure => "process execution failed"
  | AlreadyRunning => "another Ladon instance already owns the local endpoint"
  | UnsafeEndpoint => "local endpoint failed its ownership or type checks"
  | EndpointUnavailable => "local Ladon endpoint is unavailable"
  | InvalidPeer => "local IPC peer is not the current operating-system user"
  | InvalidPassphrase => "passphrase does not meet the local vault requirements"
  | InvalidPin => "PIN does not meet the session requirements"
  | ApprovalAuthenticationFailed => "approval authentication failed"
  | ApprovalDenied => "approval request was denied"
  | ApprovalTimeout => "approval request timed out"
  | ApprovalCancelled => "approval request was cancelled"
  | TouchIdUnavailable => "Touch ID is unavailable"
  | IntegrationFailure => "coding-agent integration configuration failed"
  end.

(** [LadonError::code]. *)
Definition code (e : LadonError) : string :=
  match e with
  | InvalidSecretRef => "invalid_secret_ref"
  | InvalidFieldName => "invalid_field_name"
  | FieldTooLarge => "field_too_large"
  | DuplicateField => "duplicate_field"
  | EmptyRecord => "empty_record"
  | TooManyFields => "too_many_fields"
  | VaultPayloadTooLarge => "vault_payload_too_large"
  | InvalidVaultPayload => "invalid_vault_payload"
  | InvalidVaultFile => "invalid_vault_file"
  | UnsupportedVaultVersion => "unsupported_vault_version"
  | VaultAuthenticationFailed => "vault_authentication_failed"
  | CryptoUnavailable => "crypto_unavailable"
  | DuplicateSecretName => "duplicate_secret_name"
  | SecretNotFound => "secret_not_found"
  | FieldNotFound => "field_not_found"
  | RevisionOverflow => "revision_overflow"
  | StorageFailure => "storage_failure"
  | VaultUnavailable => "vault_unavailable"
  | VaultLocked => "vault_locked"
  | InvalidFrame => "invalid_frame"
  | IpcDisconnected => "ipc_disconnected"
  | IpcTimeout => "ipc_timeout"
  | InvalidResponse => "invalid_response"
  | FrameTooLarge => "frame_too_large"
  | InvalidRequest => "invalid_request"
  | UnsupportedProtocolVersion => "unsupported_protocol_version"
  | InvalidOutputLimit => "invalid_output_limit"
  | InvalidExecutablePath => "invalid_executable_path"
  | InvalidWorkingDirectory => "invalid_working_directory"
  | InvalidBinding => "invalid_binding"
  | TooManyBindings => "too_many_bindings"
  | InvalidTimeout => "invalid_timeout"
  | InjectedDataTooLarge => "injected_data_too_large"
  | SecretInCommand => "secret_in_command"
  | Busy => "busy"
  | ProcessFailure => "process_failure"
  | AlreadyRunning => "already_running"
  | UnsafeEndpoint => "unsafe_endpoint"
  | EndpointUnavailable => "endpoint_unavailable"
  | InvalidPeer => "invalid_peer"
  | InvalidPassphrase => "invalid_passphrase"
  | InvalidPin => "invalid_pin"
  | ApprovalAuthenticationFailed => "approval_authentication_failed"
  | ApprovalDenied => "approval_denied"
  | ApprovalTimeout => "approval_timeout"
  | ApprovalCancelled => "approval_cancelled"
  | TouchIdUnavailable => "touch_id_unavailable"
  | IntegrationFailure => "integration_failure"
  end.

(** The arms of [LadonError::from_code], in the order they are tried. *)
Definition code_arms : list (string * LadonError) :=
  [
    ("invalid_secret_ref", InvalidSecretRef);
    ("invalid_field_name", InvalidFieldName);
    ("field_too_large", FieldTooLarge);
    ("duplicate_field", DuplicateField);
    ("empty_record", EmptyRecord);
    ("too_many_fields", TooManyFields);
    ("vault_payload_too_large", VaultPayloadTooLarge);
    ("invalid_vault_payload", InvalidVaultPayload);
    ("invalid_vault_file", InvalidVaultFile);
    ("unsupported_vault_version", UnsupportedVaultVersion);
    ("vault_authentication_failed", VaultAuthenticationFailed);
    ("crypto_unavailable", CryptoUnavailable);
    ("duplicate_secret_name", DuplicateSecretName);
    ("secret_not_found", SecretNotFound);
    ("field_not_found", FieldNotFound);
    ("revision_overflow", RevisionOverflow);
    ("storage_failure", StorageFailure);
    ("vault_unavailable", VaultUnavailable);
    ("vault_locked", VaultLocked);
    ("invalid_frame", InvalidFrame);
    ("ipc_disconnected", IpcDisconnected);
    ("ipc_timeout", IpcTimeout);
    ("invalid_response", InvalidResponse);
    ("frame_too_large", FrameTooLarge);
    ("invalid_request", InvalidRequest);
    ("unsupported_protocol_version", UnsupportedProtocolVersion);
    ("invalid_output_limit", InvalidOutputLimit);
    ("invalid_executable_path", InvalidExecutablePath);
    ("invalid_working_directory", InvalidWorkingDirectory);
    ("invalid_binding", InvalidBinding);
    ("too_many_bindings", TooManyBindings);
    ("invalid_timeout", InvalidTimeout);
    ("injected_data_too_large", InjectedDataTooLarge);
    ("secret_in_command", SecretInCommand);
    ("busy", Busy);
    ("process_failure", ProcessFailure);
    ("already_running", AlreadyRunning);
    ("unsafe_endpoint", UnsafeEndpoint);
    ("endpoint_unavailable", EndpointUnavailable);
    ("invalid_peer", InvalidPeer);
    ("invalid_passphrase", InvalidPassphrase);
    ("invalid_pin", InvalidPin);
    ("approval_authentication_failed", ApprovalAuthenticationFailed);
    ("approval_denied", ApprovalDenied);
    ("approval_timeout", ApprovalTimeout);
    ("approval_cancelled", ApprovalCancelled);
    ("touch_id_unavailable", TouchIdUnavailable);
    ("integration_failure", IntegrationFailure)
  ].

(** [LadonError::from_code]. *)
Definition from_code (c : string) : option LadonError :=
  snd <$> List.find (fun arm => bool_decide (fst arm = c)) code_arms.

(** [LadonError::safe_message]. *)
Definition safe_message (e : LadonError) : string :=
  match e with
  | InvalidSecretRef => "invalid secret reference"
  | InvalidFieldName => "invalid field name"
  | FieldTooLarge => "field value exceeds the size limit"
  | DuplicateField => "record contains duplicate field names"
  | EmptyRecord => "record must contain at least one field"
  | TooManyFields => "record contains too many fields"
  | VaultPayloadTooLarge => "vault payload exceeds the size limit"
  | InvalidVaultPayload => "invalid vault payload"
  | InvalidVaultFile => "invalid vault file"
  | UnsupportedVaultVersion => "unsupported vault version"
  | VaultAuthenticationFailed => "vault authentication failed"
  | CryptoUnavailable => "cryptographic randomness is unavailable"
  | DuplicateSecretName => "a secret with that name already exists"
  | SecretNotFound => "secret not found"
  | FieldNotFound => "secret field not found"
  | RevisionOverflow => "vault revision cannot be incremented"
  | StorageFailure => "vault storage operation failed"
  | VaultUnavailable => "neither managed vault copy can be opened"
  | VaultLocked => "vault is locked"
  | InvalidFrame => "IPC frame is invalid"
  | IpcDisconnected => "local Ladon connection closed before a complete IPC message was received"
  | IpcTimeout => "local Ladon IPC read timed out"
  | InvalidResponse => "local Ladon response is malformed or belongs to another request"
  | FrameTooLarge => "IPC frame exceeds the size limit"
  | InvalidRequest => "IPC request is invalid"
  | UnsupportedProtocolVersion => "unsupported protocol version"
  | InvalidOutputLimit => "output limit is outside the supported range"
  | InvalidExecutablePath => "executable path must be absolute"
  | InvalidWorkingDirectory => "working directory must be absolute"
  | InvalidBinding => "secret binding is invalid"
  | TooManyBindings => "run contains too many secret bindings"
  | InvalidTimeout => "run timeout is outside the supported range"
  | InjectedDataTooLarge => "injected secret data exceeds the size limit"
  | SecretInCommand => "managed secret data appears in command metadata"
  | Busy => "another secret-bearing process is already running"
  | ProcessFailure => "process execution failed"
  | AlreadyRunning => "another Ladon instance is already running"
  | UnsafeEndpoint => "local endpoint failed security checks"
  | EndpointUnavailable => "local Ladon endpoint is unavailable"
  | InvalidPeer => "local IPC peer is not the current user"
  | InvalidPassphrase => "passphrase must match, contain at least 12 Unicode characters, and use at most 1024 UTF-8 bytes"
  | InvalidPin => "PIN must match and contain 4 to 12 ASCII digits"
  | ApprovalAuthenticationFailed => "approval authentication failed"
  | ApprovalDenied => "agent request was denied"
  | ApprovalTimeout => "approval request timed out"
  | ApprovalCancelled => "approval request was cancelled"
  | TouchIdUnavailable => "Touch ID is unavailable; use a session PIN"
  | IntegrationFailure => "coding-agent integration configuration failed"
  end.

Lemma code_arms_sound : Forall (fun arm => code (snd arm) = fst arm) code_arms.
Proof. repeat constructor. Qed.

(** [from_code] inverts [code] on every error, and accepts no other string:
    a client that decodes a code recovers exactly the error that was sent. *)
Theorem from_code_iff (c : string) (e : LadonError) :
  from_code c = Some e <-> c = code e.
Proof.
  split.
  - unfold from_code. destruct (List.find _ _) as [arm|] eqn:Hf; [|done].
    apply List.find_some in Hf as [Hin Heq]. bool_hyps. intros [= <-].
    pose proof (proj1 (List.Forall_forall _ _) code_arms_sound _ Hin). congruence.
  - intros ->. destruct e; vm_compute; reflexivity.
Qed.

Lemma code_inj e1 e2 : code e1 = code e2 -> e1 = e2.
Proof.
  intros H. assert (Some e1 = Some e2) as [=]; [|done].
  transitivity (from_code (code e1)).
  - destruct e1; vm_compute; reflexivity.
  - rewrite H. destruct e2; vm_compute; reflexivity.
Qed.
