(* ===== verification/Time.v ===== *)
(** * Time: durations, wall-clock times and the clock the stores read

    [std::time::Duration] and [SystemTime] as integers of nanoseconds with
    their bounds written out, and the [MonotonicClock] trait of
    [crates/ladon-core/src/broker.rs] as a type class.  A reading may differ
    each time it is taken, so a reading returns the clock as it is afterwards. *)

From S2P Require Import Prelude.
Local Open Scope Z_scope.

(** ** Durations *)
Abbreviation Duration := Z (only parsing).
Abbreviation SystemTime := Z (only parsing).

Definition duration_max : Duration := u64_max * 10 ^ 9 + 999999999.
Definition from_millis (ms : Z) : Duration := ms * 10 ^ 6.
Definition from_secs (s : Z) : Duration := s * 10 ^ 9.
Definition as_millis (d : Duration) : Z := d / 10 ^ 6.

(** [duration_millis] of [grants.rs] and [broker.rs]:
    [u64::try_from(duration.as_millis()).unwrap_or(u64::MAX)]. *)
Definition duration_millis (d : Duration) : Z :=
  if as_millis d <=? u64_max then as_millis d else u64_max.

(** [SystemTime::duration_since]: an error when [earlier] is later. *)
Definition duration_since (t earlier : SystemTime) : option Duration :=
  if earlier <=? t then Some (t - earlier) else None.

(** [SystemTime::checked_add]: Unix keeps the seconds in an [i64]. *)
Definition time_checked_add (t : SystemTime) (d : Duration) : option SystemTime :=
  if (t + d) / 10 ^ 9 <=? 2 ^ 63 - 1 then Some (t + d) else None.

Definition unwrap_or_zero (d : option Duration) : Duration := default 0 d.

Lemma duration_millis_le d : duration_millis d <= as_millis d.
Proof. unfold duration_millis. destruct (Z.leb_spec (as_millis d) u64_max); lia. Qed.

Lemma duration_millis_nonneg d : 0 <= d -> 0 <= duration_millis d <= u64_max.
Proof.
  intros. unfold duration_millis, as_millis, u64_max.
  pose proof (Z.div_pos d (10 ^ 6)). destruct (Z.leb_spec (d / 10 ^ 6) (2 ^ 64 - 1)); lia.
Qed.

Lemma duration_millis_from_millis ms :
  0 <= ms <= u64_max -> duration_millis (from_millis ms) = ms.
Proof.
  intros. unfold duration_millis, as_millis, from_millis.
  rewrite Z.div_mul by lia. destruct (Z.leb_spec ms u64_max); lia.
Qed.

Lemma from_millis_as_millis_le d : from_millis (as_millis d) <= d.
Proof. unfold from_millis, as_millis. pose proof (Z.mul_div_le d (10 ^ 6)). lia. Qed.

Lemma duration_since_zero t e :
  unwrap_or_zero (duration_since t e) = Z.max 0 (t - e).
Proof. unfold duration_since. destruct (Z.leb_spec e t); cbn; lia. Qed.

(** ** Clocks *)

(** [trait MonotonicClock]. *)
Class MonotonicClock (C : Type) := {
  read_millis : C -> Z * C;
  read_wall : C -> SystemTime * C;
}.

Definition now_millis `{MonotonicClock C} (c : C) : Z := fst (read_millis c).
Definition after_millis `{MonotonicClock C} (c : C) : C := snd (read_millis c).
Definition wall_time `{MonotonicClock C} (c : C) : SystemTime := fst (read_wall c).
Definition after_wall `{MonotonicClock C} (c : C) : C := snd (read_wall c).

(** What the trait's name promises: the millisecond reading never goes
    backwards.  Nothing is promised of the wall clock. *)
Class MonotonicClockLaws (C : Type) `{MonotonicClock C} := {
  elapsed : C -> Z;
  elapsed_nonneg c : 0 <= elapsed c;
  now_millis_lower c : elapsed c <= now_millis c;
  now_millis_upper c : now_millis c <= elapsed (after_millis c);
  elapsed_wall c : elapsed c <= elapsed (after_wall c);
}.

Section clock_lemmas.
Context `{MonotonicClockLaws C}.

Lemma elapsed_millis c : elapsed c <= elapsed (after_millis c).
Proof. pose proof (now_millis_lower c). pose proof (now_millis_upper c). lia. Qed.
End clock_lemmas.

(** A clock standing still, as in the program's tests. *)
Record ManualClock := { manual_millis : N; manual_wall : SystemTime }.
#[export] Instance manual_clock : MonotonicClock ManualClock := {|
  read_millis c := (Z.of_N (manual_millis c), c);
  read_wall c := (manual_wall c, c);
|}.
#[export] Instance manual_clock_laws : MonotonicClockLaws ManualClock.
Proof.
  exists (fun c => Z.of_N (manual_millis c)); unfold now_millis, after_millis, after_wall; cbn;
    intros; lia.
Defined.

(** [SystemMonotonicClock]: the milliseconds elapsed since it was created.
    [os_instant] and [os_wall] are the operating system's successive answers. *)
Record SystemMonotonicClock := {
  started : Z;
  os_instant : nat -> Z;
  os_wall : nat -> SystemTime;
  reads : nat;
}.
Definition next_read (c : SystemMonotonicClock) : SystemMonotonicClock :=
  {| started := started c; os_instant := os_instant c; os_wall := os_wall c;
     reads := S (reads c) |}.
#[export] Instance system_clock : MonotonicClock SystemMonotonicClock := {|
  read_millis c :=
    (duration_millis (saturating_sub (os_instant c (reads c)) (started c)), next_read c);
  read_wall c := (os_wall c (reads c), next_read c);
|}.
