(* ===== verification/Utf8.v ===== *)
(** * UTF-8: the standard library's string validation

    [core::str::from_utf8] with the [valid_up_to] and [error_len] of its
    error, [str::chars], [str::is_char_boundary] and
    [String::from_utf8_lossy].  A [char] is represented by its encoding, and
    [code_point] gives [char as u32]. *)

From S2P Require Import Prelude.
Local Open Scope Z_scope.

Definition in_range (lo hi : Z) (b : byte) : bool := (lo <=? bz b) && (bz b <=? hi).
Definition is_continuation (b : byte) : bool := in_range 0x80 0xBF b.

(** The second byte allowed after the first byte of a 3- or 4-byte character. *)
Definition second_of_three (b0 b1 : byte) : bool :=
  (in_range 0xE0 0xE0 b0 && in_range 0xA0 0xBF b1)
  || (in_range 0xE1 0xEC b0 && in_range 0x80 0xBF b1)
  || (in_range 0xED 0xED b0 && in_range 0x80 0x9F b1)
  || (in_range 0xEE 0xEF b0 && in_range 0x80 0xBF b1).
Definition second_of_four (b0 b1 : byte) : bool :=
  (in_range 0xF0 0xF0 b0 && in_range 0x90 0xBF b1)
  || (in_range 0xF1 0xF3 b0 && in_range 0x80 0xBF b1)
  || (in_range 0xF4 0xF4 b0 && in_range 0x80 0x8F b1).

(** What stands at the front of a buffer: nothing, a whole character of [n]
    bytes, an invalid sequence of [n] bytes, or a character cut short. *)
Inductive front : Set :=
| FEnd
| FChar (n : nat)
| FInvalid (n : nat)
| FCut.

Definition utf8_front (b : bytes) : front :=
  match b with
  | [] => FEnd
  | b0 :: r =>
    if bz b0 <? 0x80 then FChar 1
    else if in_range 0xC2 0xDF b0 then
      match r with
      | [] => FCut
      | b1 :: _ => if is_continuation b1 then FChar 2 else FInvalid 1
      end
    else if in_range 0xE0 0xEF b0 then
      match r with
      | [] => FCut
      | b1 :: r =>
        if second_of_three b0 b1 then
          match r with
          | [] => FCut
          | b2 :: _ => if is_continuation b2 then FChar 3 else FInvalid 2
          end
        else FInvalid 1
      end
    else if in_range 0xF0 0xF4 b0 then
      match r with
      | [] => FCut
      | b1 :: r =>
        if second_of_four b0 b1 then
          match r with
          | [] => FCut
          | b2 :: r =>
            if is_continuation b2 then
              match r with
              | [] => FCut
              | b3 :: _ => if is_continuation b3 then FChar 4 else FInvalid 3
              end
            else FInvalid 2
          end
        else FInvalid 1
      end
    else FInvalid 1
  end.

(** [Ok] or [Utf8Error { valid_up_to, error_len }]. *)
Inductive utf8_result : Set :=
| Utf8Ok
| Utf8Error (valid_up_to : nat) (error_len : option nat).

(** [from_utf8], with [fuel] at least the length of the buffer. *)
Fixpoint from_utf8_loop (fuel pos : nat) (b : bytes) : utf8_result :=
  match fuel with
  | O => Utf8Ok
  | S fuel =>
    match utf8_front b with
    | FEnd => Utf8Ok
    | FChar n => from_utf8_loop fuel (pos + n) (drop n b)
    | FInvalid n => Utf8Error pos (Some n)
    | FCut => Utf8Error pos None
    end
  end.
Definition from_utf8 (b : bytes) : utf8_result := from_utf8_loop (length b) 0 b.

(** [str::chars], as encodings; it stops at the first invalid sequence,
    which a [str] does not have. *)
Fixpoint chars_loop (fuel : nat) (b : bytes) : list bytes :=
  match fuel with
  | O => []
  | S fuel =>
    match utf8_front b with
    | FChar n => take n b :: chars_loop fuel (drop n b)
    | _ => []
    end
  end.
Definition chars (b : bytes) : list bytes := chars_loop (length b) b.

(** [char as u32] of an encoded character. *)
Definition code_point (c : bytes) : Z :=
  match bz <$> c with
  | [a] => a
  | [a; b] => Z.land a 0x1F * 64 + Z.land b 0x3F
  | [a; b; c] => (Z.land a 0x0F * 64 + Z.land b 0x3F) * 64 + Z.land c 0x3F
  | [a; b; c; d] =>
    ((Z.land a 0x07 * 64 + Z.land b 0x3F) * 64 + Z.land c 0x3F) * 64 + Z.land d 0x3F
  | _ => 0
  end.

(** [str::is_char_boundary]. *)
Definition is_char_boundary (b : bytes) (i : nat) : bool :=
  match i with
  | O => true
  | _ => if bool_decide (i = length b) then true
         else match b !! i with Some c => negb (is_continuation c) | None => false end
  end.

(** [String::from_utf8_lossy]: each invalid sequence becomes U+FFFD. *)
Definition replacement : bytes := [zb 0xEF; zb 0xBF; zb 0xBD].
Fixpoint lossy_loop (fuel : nat) (b : bytes) : bytes :=
  match fuel with
  | O => []
  | S fuel =>
    match utf8_front b with
    | FEnd => []
    | FChar n => take n b ++ lossy_loop fuel (drop n b)
    | FInvalid n => replacement ++ lossy_loop fuel (drop n b)
    | FCut => replacement
    end
  end.
Definition from_utf8_lossy (b : bytes) : bytes := lossy_loop (length b) b.

#[global] Arguments from_utf8 : simpl never.
#[global] Arguments chars : simpl never.
#[global] Arguments from_utf8_lossy : simpl never.

(** A [str] is a sequence of characters. *)
Definition is_char (c : bytes) : Prop := utf8_front c = FChar (length c).
Definition valid_utf8 (b : bytes) : Prop := exists cs, b = concat cs /\ Forall is_char cs.

(** ** The front of a buffer depends only on the bytes it covers *)
Ltac front_cases b :=
  unfold utf8_front in *;
  destruct b as [|? [|? [|? [|? ?]]]]; cbn in *;
  repeat (case_match; try discriminate); simplify_eq/=.

Lemma front_char_bounds b n :
  utf8_front b = FChar n -> (1 <= n <= 4)%nat /\ (n <= length b)%nat.
Proof. intros. front_cases b; lia. Qed.

Lemma front_invalid_bounds b n :
  utf8_front b = FInvalid n -> (1 <= n <= 3)%nat /\ (n <= length b)%nat.
Proof. intros. front_cases b; lia. Qed.

Lemma front_cut_bounds b : utf8_front b = FCut -> (1 <= length b <= 3)%nat.
Proof. intros. front_cases b; lia. Qed.

Lemma front_end b : utf8_front b = FEnd <-> b = [].
Proof. split; intros; subst; [front_cases b|]; done. Qed.

Lemma front_char_app b r n : utf8_front b = FChar n -> utf8_front (b ++ r) = FChar n.
Proof. intros. front_cases b; done. Qed.

Lemma front_invalid_app b r n : utf8_front b = FInvalid n -> utf8_front (b ++ r) = FInvalid n.
Proof. intros. front_cases b; done. Qed.

Lemma front_char_take b n : utf8_front b = FChar n -> is_char (take n b).
Proof.
  unfold is_char. intros.
  destruct (utf8_front b) eqn:Hf; simplify_eq. front_cases b; rewrite ?take_0; cbn in *;
    rewrite ?length_nil; congruence.
Qed.

Lemma is_char_app c r : is_char c -> utf8_front (c ++ r) = FChar (length c).
Proof. intros. by apply front_char_app. Qed.

Lemma is_char_length c : is_char c -> (1 <= length c <= 4)%nat.
Proof. intros ?%front_char_bounds. lia. Qed.

Lemma in_range_spec lo hi b : in_range lo hi b = true <-> lo <= bz b <= hi.
Proof. unfold in_range. rewrite andb_true_iff, !Z.leb_le. lia. Qed.

Lemma second_of_three_continuation b0 b1 : second_of_three b0 b1 = true -> is_continuation b1 = true.
Proof.
  unfold second_of_three, is_continuation.
  rewrite !orb_true_iff, !andb_true_iff, !in_range_spec. lia.
Qed.
Lemma second_of_four_continuation b0 b1 : second_of_four b0 b1 = true -> is_continuation b1 = true.
Proof.
  unfold second_of_four, is_continuation.
  rewrite !orb_true_iff, !andb_true_iff, !in_range_spec. lia.
Qed.

Lemma not_continuation b : bz b < 0x80 \/ 0xC0 <= bz b -> is_continuation b = false.
Proof.
  intros H. apply not_true_iff_false. unfold is_continuation. rewrite in_range_spec. lia.
Qed.

(** The continuation bytes of a character are exactly those after its first. *)
Lemma is_char_continuation c i x :
  is_char c -> c !! i = Some x -> is_continuation x = bool_decide (i <> O).
Proof.
  unfold is_char. intros Hc Hi.
  assert (i = O /\ is_continuation x = false \/ i <> O /\ is_continuation x = true) as Hx.
  { front_cases c; try destruct l; simplify_eq/=; destruct i as [|[|[|[|]]]]; simplify_eq/=;
      eauto using second_of_three_continuation, second_of_four_continuation;
      left; split; try done; apply not_continuation; bool_hyps; rewrite ?in_range_spec in *; lia. }
  destruct Hx as [[-> ->]|[? ->]]; by case_bool_decide.
Qed.

(** ** Validation accepts exactly the sequences of characters *)

(** Every scan consumes at least one byte per step, so the length is fuel
    enough; the equations below hide the fuel. *)
Lemma from_utf8_loop_fuel f g pos b :
  (length b <= f)%nat -> (length b <= g)%nat ->
  from_utf8_loop f pos b = from_utf8_loop g pos b.
Proof.
  revert g pos b. induction f as [|f IH]; intros [|g] pos b Hf Hg; cbn.
  - done.
  - by destruct b; cbn in *; [|lia].
  - by destruct b; cbn in *; [|lia].
  - destruct (utf8_front b) as [| |n|] eqn:Hb; try done.
    apply front_char_bounds in Hb. apply IH; rewrite length_drop; lia.
Qed.

Lemma chars_loop_fuel f g b :
  (length b <= f)%nat -> (length b <= g)%nat -> chars_loop f b = chars_loop g b.
Proof.
  revert g b. induction f as [|f IH]; intros [|g] b Hf Hg; cbn.
  - done.
  - by destruct b; cbn in *; [|lia].
  - by destruct b; cbn in *; [|lia].
  - destruct (utf8_front b) as [| |n|] eqn:Hb; try done.
    apply front_char_bounds in Hb. f_equal. apply IH; rewrite length_drop; lia.
Qed.

Lemma lossy_loop_fuel f g b :
  (length b <= f)%nat -> (length b <= g)%nat -> lossy_loop f b = lossy_loop g b.
Proof.
  revert g b. induction f as [|f IH]; intros [|g] b Hf Hg; cbn.
  - done.
  - by destruct b; cbn in *; [|lia].
  - by destruct b; cbn in *; [|lia].
  - destruct (utf8_front b) as [|n|n|] eqn:Hb; try done.
    + apply front_char_bounds in Hb. f_equal. apply IH; rewrite length_drop; lia.
    + apply front_invalid_bounds in Hb. do 3 f_equal. apply IH; rewrite length_drop; lia.
Qed.

Lemma from_utf8_loop_step pos b f :
  (length b <= f)%nat ->
  from_utf8_loop f pos b =
    match utf8_front b with
    | FEnd => Utf8Ok
    | FChar n => from_utf8_loop (length (drop n b)) (pos + n) (drop n b)
    | FInvalid n => Utf8Error pos (Some n)
    | FCut => Utf8Error pos None
    end.
Proof.
  intros Hf. destruct f as [|f]; [by destruct b; cbn in *; [|lia]|]. cbn.
  destruct (utf8_front b) eqn:Hb; try done. apply front_char_bounds in Hb.
  apply from_utf8_loop_fuel; rewrite ?length_drop; lia.
Qed.

Lemma chars_app_char c r : is_char c -> chars (c ++ r) = c :: chars r.
Proof.
  intros Hc. pose proof (is_char_length _ Hc). unfold chars.
  destruct (length (c ++ r)) eqn:Hl; [rewrite length_app in Hl; lia|]. cbn.
  rewrite is_char_app, take_app_length, drop_app_length by done.
  f_equal. apply chars_loop_fuel; rewrite length_app in *; lia.
Qed.

(** The characters of a string, concatenated, are the string. *)
Lemma chars_are_chars b : Forall is_char (chars b).
Proof.
  unfold chars. generalize (length b) at 1. intros fuel. revert b.
  induction fuel as [|fuel IH]; intros b; cbn; [constructor|].
  destruct (utf8_front b) eqn:Hf; try constructor; [by eapply front_char_take|apply IH].
Qed.

Lemma chars_concat cs : Forall is_char cs -> chars (concat cs) = cs.
Proof.
  induction 1 as [|c cs Hc _ IH]; [done|]. cbn. by rewrite chars_app_char, IH.
Qed.

Lemma lossy_app_char c r : is_char c -> from_utf8_lossy (c ++ r) = c ++ from_utf8_lossy r.
Proof.
  intros Hc. pose proof (is_char_length _ Hc). unfold from_utf8_lossy.
  destruct (length (c ++ r)) eqn:Hl; [rewrite length_app in Hl; lia|]. cbn.
  rewrite is_char_app, take_app_length, drop_app_length by done.
  f_equal. apply lossy_loop_fuel; rewrite length_app in *; lia.
Qed.

(** The lossy conversion leaves a string as it is. *)
Lemma lossy_valid b : valid_utf8 b -> from_utf8_lossy b = b.
Proof.
  intros (cs & -> & Hcs). induction Hcs as [|c cs Hc _ IH]; [done|].
  cbn. by rewrite lossy_app_char, IH.
Qed.

Lemma valid_nil : valid_utf8 [].
Proof. by exists []. Qed.
Lemma valid_char c : is_char c -> valid_utf8 c.
Proof. intros. exists [c]. cbn. rewrite app_nil_r. auto. Qed.
Lemma valid_app a b : valid_utf8 a -> valid_utf8 b -> valid_utf8 (a ++ b).
Proof.
  intros (cs & -> & ?) (ds & -> & ?). exists (cs ++ ds).
  rewrite concat_app, Forall_app. auto.
Qed.
Lemma ascii_valid b : Forall (fun x => bz x < 128) b -> valid_utf8 b.
Proof.
  intros Hb. exists ((fun x => [x]) <$> b). split.
  - induction Hb; cbn; [done|]. by f_equal.
  - apply Forall_fmap. eapply Forall_impl; [done|]. intros x Hx. unfold is_char, utf8_front. cbn.
    by rewrite (proj2 (Z.ltb_lt _ _)) by done.
Qed.

Lemma valid_concat cs : Forall is_char cs -> valid_utf8 (concat cs).
Proof. intros. by exists cs. Qed.
#[export] Hint Resolve valid_nil valid_char valid_app valid_concat : ladon.

Lemma from_utf8_loop_valid cs r pos :
  Forall is_char cs ->
  from_utf8_loop (length (concat cs ++ r)) pos (concat cs ++ r) =
  from_utf8_loop (length r) (pos + length (concat cs)) r.
Proof.
  intros Hcs. revert pos. induction Hcs as [|c cs Hc _ IH]; intros pos; cbn.
  - by rewrite Nat.add_0_r.
  - rewrite <- app_assoc, from_utf8_loop_step, is_char_app by done.
    rewrite drop_app_length, IH, length_app. f_equal. lia.
Qed.

Lemma from_utf8_loop_spec fuel pos b :
  (length b <= fuel)%nat ->
  match from_utf8_loop fuel pos b with
  | Utf8Ok => valid_utf8 b
  | Utf8Error p e =>
    exists n, p = (pos + n)%nat /\ (n < length b)%nat /\ valid_utf8 (take n b) /\
      utf8_front (drop n b) = match e with Some k => FInvalid k | None => FCut end
  end.
Proof.
  revert pos b. induction fuel as [|fuel IH]; intros pos b Hf.
  { destruct b; cbn in *; [auto with ladon|lia]. }
  cbn. destruct (utf8_front b) as [|n|n|] eqn:Hb.
  - apply front_end in Hb as ->. auto with ladon.
  - pose proof (front_char_bounds _ _ Hb). pose proof (front_char_take _ _ Hb) as Hc.
    specialize (IH (pos + n)%nat (drop n b)). rewrite length_drop in IH.
    destruct (from_utf8_loop fuel _ _) as [|p e].
    + rewrite <- (take_drop n b). apply valid_app; [auto with ladon|apply IH; lia].
    + destruct IH as (k & -> & ? & Hv & Hd); [lia|].
      exists (n + k)%nat. rewrite drop_drop in Hd. split_and!; [lia|lia| |done].
      rewrite <- (take_drop n b), take_app_add' by (rewrite length_take; lia).
      auto with ladon.
  - exists O. rewrite drop_0. apply front_invalid_bounds in Hb as ?.
    split_and!; [lia|lia|apply valid_nil|done].
  - exists O. rewrite drop_0. apply front_cut_bounds in Hb as ?.
    split_and!; [lia|lia|apply valid_nil|done].
Qed.

Lemma from_utf8_Ok b : from_utf8 b = Utf8Ok <-> valid_utf8 b.
Proof.
  split.
  - intros H. pose proof (from_utf8_loop_spec (length b) 0 b). unfold from_utf8 in H.
    rewrite H in *. auto.
  - intros (cs & -> & Hcs). unfold from_utf8. rewrite <- (app_nil_r (concat cs)).
    by rewrite from_utf8_loop_valid.
Qed.

Lemma from_utf8_Error b p e :
  from_utf8 b = Utf8Error p e ->
  (p < length b)%nat /\ valid_utf8 (take p b) /\
  utf8_front (drop p b) = match e with Some k => FInvalid k | None => FCut end.
Proof.
  intros H. pose proof (from_utf8_loop_spec (length b) 0 b) as Hs. unfold from_utf8 in H.
  rewrite H in Hs. destruct Hs as (n & -> & ? & ? & ?); [lia|]. by rewrite Nat.add_0_l.
Qed.

#[export] Instance valid_utf8_dec b : Decision (valid_utf8 b).
Proof.
  refine (match from_utf8 b as r return from_utf8 b = r -> _ with
          | Utf8Ok => fun H => left _ | Utf8Error _ _ => fun H => right _ end eq_refl).
  - by apply from_utf8_Ok.
  - rewrite <- from_utf8_Ok. congruence.
Defined.

(** ** Character boundaries *)
Lemma boundary_spec b i :
  is_char_boundary b i = true <->
  i = O \/ i = length b \/ exists x, b !! i = Some x /\ is_continuation x = false.
Proof.
  unfold is_char_boundary. destruct i as [|i]; [naive_solver|].
  case_bool_decide; [naive_solver|].
  destruct (b !! S i) as [x|] eqn:Hx; rewrite ?negb_true_iff; naive_solver.
Qed.

Lemma boundary_concat cs i :
  Forall is_char cs -> is_char_boundary (concat cs) i = true ->
  exists k, i = length (concat (take k cs)).
Proof.
  revert i. induction cs as [|c cs IH]; intros i Hcs Hb.
  - exists O. destruct i; [done|]. cbn in Hb. by case_bool_decide.
  - apply Forall_cons in Hcs as [Hc Hcs]. pose proof (is_char_length _ Hc).
    destruct (decide (i = O)) as [->|Hi]; [by exists O|].
    destruct (decide (i < length c)%nat) as [Hlt|Hge].
    + exfalso. destruct (lookup_lt_is_Some_2 c i Hlt) as [x Hx].
      apply boundary_spec in Hb as [?|[Hb|(y & Hy & Hcont)]]; [done| |].
      * cbn in Hb. rewrite length_app in Hb. lia.
      * cbn in Hy. rewrite lookup_app_l, Hx in Hy by lia. simplify_eq.
        rewrite (is_char_continuation c i y) in Hcont by done. by case_bool_decide.
    + destruct (IH (i - length c)%nat) as [k Hk]; [done| |].
      * apply boundary_spec in Hb as [?|[Hb|(y & Hy & Hcont)]]; [done| |];
          apply boundary_spec; cbn in *.
        -- rewrite length_app in Hb. right; left; lia.
        -- rewrite lookup_app_r in Hy by lia. eauto.
      * exists (S k). cbn. rewrite length_app. lia.
Qed.

(** Cutting a string at a character boundary gives strings. *)
Lemma valid_take_boundary b i :
  valid_utf8 b -> is_char_boundary b i = true -> valid_utf8 (take i b).
Proof.
  intros (cs & -> & Hcs) [k ->]%boundary_concat; [|done].
  rewrite <- (take_drop k cs) at 2. rewrite concat_app, take_app_length.
  apply valid_concat. by apply Forall_take.
Qed.

Lemma valid_drop_boundary b i :
  valid_utf8 b -> is_char_boundary b i = true -> valid_utf8 (drop i b).
Proof.
  intros (cs & -> & Hcs) [k ->]%boundary_concat; [|done].
  rewrite <- (take_drop k cs) at 2. rewrite concat_app, drop_app_length.
  apply valid_concat. by apply Forall_drop.
Qed.

(** Among four consecutive positions of a string one is a boundary. *)
Lemma boundary_cons c cs j :
  is_char c -> Forall is_char cs -> is_char_boundary (concat cs) j = true ->
  is_char_boundary (c ++ concat cs) (length c + j) = true.
Proof.
  intros Hc Hcs [->|[->|(x & Hx & Hcont)]]%boundary_spec; apply boundary_spec.
  - rewrite Nat.add_0_r. destruct Hcs as [|d cs Hd _]; [cbn; rewrite app_nil_r; auto|].
    pose proof (is_char_length _ Hd). destruct d as [|x d]; cbn in *; [lia|].
    right; right. exists x. rewrite lookup_app_r, Nat.sub_diag by lia. split; [done|].
    by rewrite (is_char_continuation _ 0 x Hd).
  - rewrite length_app. auto.
  - right; right. exists x. rewrite lookup_app_r by lia. split; [|done].
    by replace (length c + j - length c)%nat with j by lia.
Qed.

Lemma boundary_within_three b i :
  valid_utf8 b -> (i <= length b)%nat ->
  exists j, (j <= i)%nat /\ (i <= j + 3)%nat /\ is_char_boundary b j = true.
Proof.
  intros (cs & -> & Hcs). revert i. induction Hcs as [|c cs Hc Hcs IH]; intros i Hi.
  - exists O. cbn in *. split_and!; lia || done.
  - pose proof (is_char_length _ Hc). cbn [concat] in *. rewrite length_app in Hi.
    destruct (decide (i < length c)%nat); [exists O; split_and!; lia || done|].
    destruct (IH (i - length c)%nat) as (j & ? & ? & Hj); [lia|].
    exists (length c + j)%nat. split_and!; [lia..|]. by apply boundary_cons.
Qed.

(** [from_utf8(b).is_ok()]. *)
Definition is_utf8 (b : bytes) : bool := match from_utf8 b with Utf8Ok => true | _ => false end.
Lemma is_utf8_true b : is_utf8 b = true <-> valid_utf8 b.
Proof. unfold is_utf8. rewrite <- from_utf8_Ok. by destruct (from_utf8 b). Qed.
