(* ===== verification/Text.v ===== *)
(** * Text: methods of [str]

    The standard library's methods on strings and characters that the program
    uses, a character being its UTF-8 encoding. *)

From S2P Require Import Prelude Utf8.
Local Open Scope Z_scope.

(** [char::is_control] and [char::is_whitespace]. *)
Definition is_control (character : bytes) : bool :=
  let c := code_point character in
  ((0 <=? c) && (c <=? 0x1F)) || ((0x7F <=? c) && (c <=? 0x9F)).
Definition is_whitespace (character : bytes) : bool :=
  let c := code_point character in
  ((9 <=? c) && (c <=? 13)) || (c =? 0x20) || (c =? 0x85) || (c =? 0xA0) || (c =? 0x1680)
  || ((0x2000 <=? c) && (c <=? 0x200A)) || (c =? 0x2028) || (c =? 0x2029) || (c =? 0x202F)
  || (c =? 0x205F) || (c =? 0x3000).

(** The ASCII classes of [u8]. *)
Definition in_set (set : string) (x : byte) : bool := bool_decide (x ∈ bytes_of set).
Definition is_ascii_lowercase (x : byte) : bool := in_range 0x61 0x7a x.
Definition is_ascii_uppercase (x : byte) : bool := in_range 0x41 0x5a x.
Definition is_ascii_digit (x : byte) : bool := in_range 0x30 0x39 x.
Definition is_ascii_alphabetic (x : byte) : bool := is_ascii_lowercase x || is_ascii_uppercase x.
Definition is_ascii_alphanumeric (x : byte) : bool := is_ascii_alphabetic x || is_ascii_digit x.
Definition is_ascii_whitespace (x : byte) : bool := in_set " " x || in_range 9 10 x || in_range 12 13 x.
Definition to_ascii_lowercase (b : bytes) : bytes :=
  map (fun x => if is_ascii_uppercase x then zb (bz x + 32) else x) b.

(** [str::trim]. *)
Fixpoint drop_while {A} (p : A -> bool) (l : list A) : list A :=
  match l with [] => [] | x :: r => if p x then drop_while p r else l end.
Definition trim (s : string) : string :=
  string_of (concat (reverse (drop_while is_whitespace (reverse
    (drop_while is_whitespace (chars (bytes_of s))))))).

(** [str::split_once] and [str::rsplit_once], for a separator of any length. *)
Fixpoint split_at_first (sep text : bytes) : option (bytes * bytes) :=
  match strip_prefix sep text with
  | Some rest => Some ([], rest)
  | None =>
    match text with
    | [] => None
    | x :: text => '(before, rest) ← split_at_first sep text; Some (x :: before, rest)
    end
  end.
Fixpoint split_at_last (sep text : bytes) : option (bytes * bytes) :=
  match text with
  | [] => if bool_decide (sep = []) then Some ([], []) else None
  | x :: r =>
    match split_at_last sep r with
    | Some (before, rest) => Some (x :: before, rest)
    | None => (fun rest => ([], rest)) <$> strip_prefix sep text
    end
  end.
Definition split_once (text sep : string) : option (string * string) :=
  '(before, rest) ← split_at_first (bytes_of sep) (bytes_of text); Some (string_of before, string_of rest).
Definition rsplit_once (text sep : string) : option (string * string) :=
  '(before, rest) ← split_at_last (bytes_of sep) (bytes_of text); Some (string_of before, string_of rest).

(** [str::parse] of an unsigned integer of at most [limit]: digits, after an optional
    plus sign. *)
Definition digit_value (b : byte) : option Z := if in_range 0x30 0x39 b then Some (bz b - 0x30) else None.
Fixpoint parse_digits (limit acc : Z) (text : bytes) : option Z :=
  match text with
  | [] => Some acc
  | b :: text =>
    d ← digit_value b;
    if acc * 10 + d <=? limit then parse_digits limit (acc * 10 + d) text else None
  end.
Definition parse_unsigned (limit : Z) (text : string) : option Z :=
  let digits := match bytes_of text with "+"%char :: rest => rest | all => all end in
  if bool_decide (digits = []) then None else parse_digits limit 0 digits.
