(* ===== verification/Paths.v ===== *)
(** * Paths: [std::path] on Unix

    The parts of the standard library's [Path] that the program uses. *)

From S2P Require Import Prelude.
Local Open Scope Z_scope.

(** [Path::parent] of an absolute path, on the reversed path: trailing separators and
    [.] components do not count. *)
Fixpoint trim_back (r : bytes) : bytes :=
  match r with
  | [] => []
  | x :: rest =>
    if bool_decide (x = "/"%char) then match rest with [] => r | _ => trim_back rest end
    else if bool_decide (x = "."%char) then
      match rest with y :: _ => if bool_decide (y = "/"%char) then trim_back rest else r | [] => r end
    else r
  end.
Fixpoint drop_component (r : bytes) : bytes :=
  match r with [] => [] | x :: rest => if bool_decide (x = "/"%char) then r else drop_component rest end.
Definition path_parent (path : string) : option string :=
  let r := trim_back (reverse (bytes_of path)) in
  if bool_decide (path = "") || bool_decide (r = ["/"%char]) then None
  else Some (string_of (reverse (trim_back (drop_component r)))).

(** [Path::join] with a relative path. *)
Definition join (directory name : string) : string :=
  if bool_decide (directory = "") then name
  else if bool_decide (last (bytes_of directory) = Some "/"%char) then String.append directory name
  else String.append directory (String.append "/" name).

(** [Path::file_name] and [Path::with_file_name]: the last component, unless the path
    ends in [..] or is a root. *)
Fixpoint last_component (r : bytes) : bytes :=
  match r with [] => [] | x :: rest => if bool_decide (x = "/"%char) then [] else x :: last_component rest end.
Definition file_name (path : string) : option string :=
  let name := reverse (last_component (trim_back (reverse (bytes_of path)))) in
  if bool_decide (name = []) || bool_decide (name = bytes_of ".") || bool_decide (name = bytes_of "..") then None
  else Some (string_of name).
Definition with_file_name (path name : string) : string :=
  match file_name path with Some _ => join (default "" (path_parent path)) name | None => join path name end.
