(* ===== verification/Model.v ===== *)
(** * Model: [crates/ladon-core/src/model.rs]

    Identifiers, names, references, fields and records, with the validation
    their constructors perform.  A newtype over a string is the string; what
    its private constructor guarantees is the [_wf] predicate beside it. *)

From S2P Require Import Prelude Errors Utf8 Text.
Local Open Scope Z_scope.

Definition MAX_FIELD_BYTES : Z := 1024 * 1024.
Definition MAX_FIELDS_PER_RECORD : Z := 64.

(** ** Third-party text processing

    The [unicode_normalization] and [uuid] crates.  A UUID is its 128-bit value. *)
Abbreviation Uuid := Z (only parsing).
Abbreviation SecretId := Z (only parsing).

Class TextCrates := {
  nfc : string -> string;
  uuid_parse_str : string -> option Uuid;
  uuid_display : Uuid -> string;
}.

(** Their documentation: NFC of a string is a string and NFC is idempotent, and a
    UUID's text is text that parses to it. *)
Class TextCratesLaws `{TextCrates} := {
  nfc_idempotent s : nfc (nfc s) = nfc s;
  nfc_valid s : valid_utf8 (bytes_of s) -> valid_utf8 (bytes_of (nfc s));
  uuid_parse_display u : 0 <= u < 2 ^ 128 -> uuid_parse_str (uuid_display u) = Some u;
  uuid_display_valid u : valid_utf8 (bytes_of (uuid_display u));
}.

Definition uuid_wf (u : Uuid) : Prop := 0 <= u < 2 ^ 128.

(** [SecretId::from_bytes] and [SecretId::as_bytes]. *)
Definition id_from_bytes (b : bytes) : SecretId := be_value b.
Definition id_as_bytes (id : SecretId) : bytes := be_bytes 16 id.

Lemma id_bytes_roundtrip id : uuid_wf id -> id_from_bytes (id_as_bytes id) = id.
Proof. intros. by apply be_value_bytes_small. Qed.

(** ** Names and references *)

Definition is_ascii_control (cp : Z) : bool := ((0 <=? cp) && (cp <=? 0x1f)) || (cp =? 0x7f).

(** [is_forbidden_name_character]. *)
Definition is_forbidden_name_character (character : bytes) : bool :=
  let codepoint := code_point character in
  is_ascii_control codepoint
  || (codepoint =? 0x061c) || (codepoint =? 0x200e) || (codepoint =? 0x200f)
  || ((0x202a <=? codepoint) && (codepoint <=? 0x202e))
  || ((0x2066 <=? codepoint) && (codepoint <=? 0x2069)).

Definition one_of (allowed : string) (b : byte) : bool := bool_decide (b ∈ bytes_of allowed).

Section parsing.
Context `{TextCrates}.

(** [SecretId::parse]. *)
Definition SecretId_parse (input : string) : LResult SecretId :=
  ok_or (uuid_parse_str input) InvalidSecretRef.

(** The two conditions of [SecretName::parse] on the normalized name. *)
Definition name_valid_length (normalized : string) : bool :=
  negb (bool_decide (bytes_of normalized = [])) && (slen normalized <=? 128).
Definition name_valid_content (normalized : string) : bool :=
  negb (contains (bytes_of normalized) (bytes_of "::"))
  && negb (starts_with (bytes_of normalized) (bytes_of "id:"))
  && negb (existsb is_forbidden_name_character (chars (bytes_of normalized))).

(** [SecretName::parse]. *)
Definition SecretName_parse (input : string) : LResult string :=
  let normalized := nfc input in
  if name_valid_length normalized && name_valid_content normalized
  then Ok normalized else Err InvalidSecretRef.

(** [enum SecretRef]. *)
Inductive SecretRef :=
| RefName (name : string)
| RefId (id : SecretId).

(** [SecretRef::parse]. *)
Definition SecretRef_parse (input : string) : LResult SecretRef :=
  match strip_prefix (bytes_of "id:") (bytes_of input) with
  | Some uuid => RefId <$> SecretId_parse (string_of uuid)
  | None => RefName <$> SecretName_parse input
  end.

(** [impl Display for SecretRef]. *)
Definition SecretRef_display (r : SecretRef) : string :=
  match r with
  | RefName name => name
  | RefId id => String.append "id:" (uuid_display id)
  end.

(** What a [SecretName] and a [SecretRef] can hold. *)
Definition name_wf (name : string) : Prop := SecretName_parse name = Ok name.
Definition ref_wf (r : SecretRef) : Prop :=
  match r with RefName name => name_wf name | RefId id => uuid_wf id end.

Lemma SecretName_parse_Ok input name :
  SecretName_parse input = Ok name ->
  name = nfc input /\ name_valid_length name = true /\ name_valid_content name = true.
Proof. unfold SecretName_parse. intros. inv_ok. bool_hyps. done. Qed.
End parsing.

#[export] Instance SecretRef_eq_dec : EqDecision SecretRef.
Proof. solve_decision. Defined.

(** [FieldName::parse]. *)
Definition FieldName_parse (input : string) : LResult string :=
  let b := bytes_of input in
  let valid :=
    (zlen b <=? 64)
    && match b with [] => false | first :: rest =>
         is_ascii_alphabetic first
         && forallb (fun x => is_ascii_alphanumeric x || one_of "_-" x) rest
       end in
  if valid then Ok input else Err InvalidFieldName.

Definition field_name_wf (name : string) : Prop := FieldName_parse name = Ok name.

Lemma FieldName_parse_Ok input name :
  FieldName_parse input = Ok name -> name = input /\ field_name_wf name.
Proof.
  intros Hp. assert (name = input) as -> by (unfold FieldName_parse in Hp; by inv_ok). done.
Qed.

(** A field name is ASCII, of at most 64 bytes. *)
Lemma field_name_valid name :
  field_name_wf name -> valid_utf8 (bytes_of name) /\ slen name <= 64.
Proof.
  unfold field_name_wf, FieldName_parse. intros Hp. inv_ok. bool_hyps. split; [|done].
  apply ascii_valid. destruct (bytes_of name) as [|x b]; [done|]. bool_hyps.
  match goal with Hf : forallb _ _ = true |- _ => rewrite forallb_forall in Hf; rename Hf into Hall end.
  assert (Hname : forall y, is_ascii_alphabetic y = true \/
      is_ascii_alphanumeric y || one_of "_-" y = true -> bz y < 128).
  { intros [[] [] [] [] [] [] [] []]; vm_compute; naive_solver. }
  constructor; [eauto|]. apply Forall_forall. intros y Hy%list_elem_of_In. eauto.
Qed.

(** ** Fields and records *)

(** [enum TextHint]. *)
Inductive TextHint : Set := Binary | Text.

#[export] Instance TextHint_eq_dec : EqDecision TextHint.
Proof. solve_decision. Defined.

(** [struct SecretField]. *)
Record SecretField := {
  field_name : string;
  field_value : bytes;
  field_hint : TextHint;
}.

#[export] Instance SecretField_eq_dec : EqDecision SecretField.
Proof. solve_decision. Defined.

(** [SecretField::new]. *)
Definition SecretField_new (name : string) (value : bytes) (text_hint : TextHint) :
  LResult SecretField :=
  if MAX_FIELD_BYTES <? zlen value then Err FieldTooLarge
  else Ok {| field_name := name; field_value := value; field_hint := text_hint |}.

(** [struct SecretRecord]. *)
Record SecretRecord := {
  record_id : SecretId;
  record_name : string;
  record_fields : list SecretField;
}.

#[export] Instance SecretRecord_eq_dec : EqDecision SecretRecord.
Proof. solve_decision. Defined.

Section records.
Context `{TextCrates}.

(** [SecretRecord::from_parts]. *)
Definition from_parts (id : SecretId) (name : string) (fields : list SecretField) :
  LResult SecretRecord :=
  _ ← reject_if (bool_decide (fields = [])) EmptyRecord;
  _ ← reject_if (MAX_FIELDS_PER_RECORD <? zlen fields) TooManyFields;
  _ ← reject_if (any_repeated ∅ (field_name <$> fields)) DuplicateField;
  parsed ← SecretName_parse name;
  Ok {| record_id := id; record_name := parsed; record_fields := fields |}.

(** [SecretRecord::new]; [fresh] is what [Uuid::new_v4] returned. *)
Definition SecretRecord_new (fresh : SecretId) (name : string) (fields : list SecretField) :
  LResult SecretRecord :=
  from_parts fresh name fields.

(** [SecretRecord::rename] and [SecretRecord::set_name]. *)
Definition set_name (r : SecretRecord) (name : string) : SecretRecord :=
  {| record_id := record_id r; record_name := name; record_fields := record_fields r |}.
Definition record_rename (r : SecretRecord) (name : string) : LResult SecretRecord :=
  parsed ← SecretName_parse name; Ok (set_name r parsed).

(** The type invariants the constructors establish. *)
Definition field_wf (f : SecretField) : Prop :=
  field_name_wf (field_name f) /\ zlen (field_value f) <= MAX_FIELD_BYTES.

Record record_wf (r : SecretRecord) : Prop := {
  wf_id : uuid_wf (record_id r);
  wf_name : name_wf (record_name r);
  wf_nonempty : record_fields r <> [];
  wf_count : zlen (record_fields r) <= MAX_FIELDS_PER_RECORD;
  wf_distinct : NoDup (field_name <$> record_fields r);
  wf_fields : Forall field_wf (record_fields r);
}.

Lemma from_parts_Ok id name fields r :
  from_parts id name fields = Ok r <->
  fields <> [] /\ zlen fields <= MAX_FIELDS_PER_RECORD /\
  NoDup (field_name <$> fields) /\ SecretName_parse name = Ok (record_name r) /\
  r = {| record_id := id; record_name := record_name r; record_fields := fields |}.
Proof.
  unfold from_parts. split.
  - intros. inv_ok. bool_hyps. rewrite any_repeated_NoDup in *. by split_and!.
  - intros (? & ? & Hd%any_repeated_NoDup & Hn & Hr). rewrite Hr.
    rewrite bool_decide_eq_false_2 by done. rewrite (proj2 (Z.ltb_ge _ _)) by done.
    by rewrite Hd, Hn.
Qed.
End records.

Section record_laws.
Context `{TextCratesLaws}.

(** A parsed name is a name: parsing it again changes nothing. *)
Lemma SecretName_parse_wf input name : SecretName_parse input = Ok name -> name_wf name.
Proof.
  intros Hp. pose proof (SecretName_parse_Ok _ _ Hp) as (Hn & Hl & Hc).
  unfold name_wf, SecretName_parse. by rewrite Hn, nfc_idempotent, <- Hn, Hl, Hc.
Qed.

Lemma from_parts_wf id name fields r :
  uuid_wf id -> Forall field_wf fields -> from_parts id name fields = Ok r -> record_wf r.
Proof.
  intros ? ? (? & ? & ? & ?%SecretName_parse_wf & Hr)%from_parts_Ok.
  by constructor; rewrite Hr.
Qed.

Lemma from_parts_id r : record_wf r -> from_parts (record_id r) (record_name r) (record_fields r) = Ok r.
Proof. intros []. apply from_parts_Ok. split_and!; try done. by destruct r. Qed.

(** A reference survives printing: the text shown for a valid reference
    ([id:<uuid>], or the name) parses back to the same reference. *)
Theorem SecretRef_display_parse (r : SecretRef) :
  ref_wf r -> SecretRef_parse (SecretRef_display r) = Ok r.
Proof.
  destruct r as [name|id]; cbn [ref_wf SecretRef_display]; unfold SecretRef_parse; intros Hwf.
  - destruct (strip_prefix _ _) as [rest|] eqn:Hs; [|by rewrite Hwf].
    apply strip_prefix_Some in Hs. pose proof (SecretName_parse_Ok _ _ Hwf) as (_ & _ & Hc).
    unfold name_valid_content in Hc. bool_hyps. unfold starts_with in *. bool_hyps.
    exfalso. match goal with H : ~ (_ `prefix_of` _) |- _ => apply H end. by exists rest.
  - replace (bytes_of (String.append "id:" (uuid_display id)))
      with (bytes_of "id:" ++ bytes_of (uuid_display id)) by done.
    rewrite (proj2 (strip_prefix_Some _ _ _)) by done.
    rewrite string_of_bytes_of. unfold SecretId_parse. by rewrite uuid_parse_display.
Qed.

(** Parsing a reference gives a well-formed one, whatever the input. *)
Theorem SecretRef_parse_wf input r :
  (forall s u, uuid_parse_str s = Some u -> uuid_wf u) ->
  SecretRef_parse input = Ok r -> ref_wf r.
Proof.
  unfold SecretRef_parse, SecretId_parse. intros Hu.
  destruct (strip_prefix _ _); intros; inv_ok; cbn; eauto using SecretName_parse_wf.
Qed.
End record_laws.

(** ** A reference implementation of the text crates

    Normalization of text that is already normal, and the canonical hyphenated
    form of a UUID. *)
Definition hex_digit (n : Z) : byte := if n <? 10 then zb (48 + n) else zb (87 + n).
Definition hex_value (b : byte) : option Z :=
  if in_range 0x30 0x39 b then Some (bz b - 48)
  else if in_range 0x61 0x66 b then Some (bz b - 87) else None.
Definition hex_bytes (b : bytes) : bytes :=
  flat_map (fun x => [hex_digit (bz x / 16); hex_digit (bz x mod 16)]) b.
Definition hex_fold (acc : Z) (b : bytes) : Z :=
  fold_left (fun acc x => match hex_value x with Some v => acc * 16 + v | None => acc end) b acc.

Definition uuid_text (u : Uuid) : string :=
  let b := be_bytes 16 u in
  let part i n := hex_bytes (take n (drop i b)) in
  string_of (part 0%nat 4%nat ++ "-"%char :: part 4%nat 2%nat ++ "-"%char :: part 6%nat 2%nat
    ++ "-"%char :: part 8%nat 2%nat ++ "-"%char :: part 10%nat 6%nat).
Definition uuid_of_text (s : string) : option Uuid :=
  let u := hex_fold 0 (bytes_of s) in if bool_decide (uuid_text u = s) then Some u else None.

#[export] Instance reference_text : TextCrates :=
  {| nfc s := s; uuid_parse_str := uuid_of_text; uuid_display := uuid_text |}.

Lemma hex_value_digit n : 0 <= n < 16 -> hex_value (hex_digit n) = Some n.
Proof.
  intros Hn. replace n with (Z.of_nat (Z.to_nat n)) by lia.
  assert (Hk : (Z.to_nat n < 16)%nat) by lia. generalize dependent (Z.to_nat n). intros k Hk.
  do 16 (destruct k as [|k]; [vm_compute; reflexivity|]). lia.
Qed.

Lemma hex_fold_app acc a b : hex_fold acc (a ++ b) = hex_fold (hex_fold acc a) b.
Proof. apply fold_left_app. Qed.

Lemma hex_fold_bytes acc b : hex_fold acc (hex_bytes b) = acc * 256 ^ zlen b + be_value b.
Proof.
  revert acc. induction b as [|x b IH]; intros acc; cbn [hex_bytes flat_map be_value]; [unfold hex_fold, zlen; cbn; lia|].
  change (_ :: _ ++ _) with ([hex_digit (bz x / 16); hex_digit (bz x mod 16)] ++ hex_bytes b).
  pose proof (bz_range x). rewrite hex_fold_app, IH. unfold hex_fold at 1. cbn [fold_left].
  pose proof (Z.mod_pos_bound (bz x) 16 ltac:(lia)).
  assert (0 <= bz x / 16 < 16) by (split; [apply Z.div_pos|apply Z.div_lt_upper_bound]; lia).
  rewrite !hex_value_digit by lia.
  rewrite zlen_cons, Z.pow_add_r by (pose proof (zlen_nonneg b); lia).
  pose proof (Z.div_mod (bz x) 16). change (256 ^ 1) with 256. nia.
Qed.

Lemma hex_fold_hyphen acc b : hex_fold acc ("-"%char :: b) = hex_fold acc b.
Proof. reflexivity. Qed.

Lemma uuid_text_value u : hex_fold 0 (bytes_of (uuid_text u)) = be_value (be_bytes 16 u).
Proof.
  unfold uuid_text. rewrite bytes_of_string_of.
  transitivity (hex_fold 0 (hex_bytes (be_bytes 16 u))).
  - rewrite hex_fold_app, hex_fold_hyphen, hex_fold_app, hex_fold_hyphen, hex_fold_app,
      hex_fold_hyphen, hex_fold_app, hex_fold_hyphen, <- !hex_fold_app. reflexivity.
  - rewrite hex_fold_bytes. lia.
Qed.

Lemma hex_digit_low n : 0 <= n < 16 -> bz (hex_digit n) < 128.
Proof. intros. unfold hex_digit. destruct (Z.ltb_spec n 10); rewrite bz_zb_small; lia. Qed.

Lemma hex_bytes_low b : Forall (fun x => bz x < 128) (hex_bytes b).
Proof.
  induction b as [|x b IH]; cbn; [constructor|]. pose proof (bz_range x).
  pose proof (Z.mod_pos_bound (bz x) 16 ltac:(lia)).
  assert (0 <= bz x / 16 < 16) by (split; [apply Z.div_pos|apply Z.div_lt_upper_bound]; lia).
  repeat constructor; auto using hex_digit_low.
Qed.

Lemma uuid_text_low u : Forall (fun x => bz x < 128) (bytes_of (uuid_text u)).
Proof.
  unfold uuid_text. rewrite bytes_of_string_of.
  repeat (rewrite Forall_app || rewrite Forall_cons); split_and!; apply hex_bytes_low || reflexivity.
Qed.

#[export] Instance reference_text_laws : TextCratesLaws.
Proof.
  split; [done|done| |intros u; apply ascii_valid, uuid_text_low]. intros u Hu. change (uuid_of_text (uuid_text u) = Some u).
  unfold uuid_of_text. by rewrite uuid_text_value, be_value_bytes_small, bool_decide_eq_true_2.
Qed.

Lemma uuid_of_text_wf s u : uuid_of_text s = Some u -> uuid_wf u.
Proof.
  unfold uuid_of_text. case_bool_decide as Ht; intros [= <-].
  apply (f_equal (fun t => hex_fold 0 (bytes_of t))) in Ht. rewrite uuid_text_value in Ht.
  rewrite <- Ht. apply (be_value_bound (be_bytes 16 _)).
Qed.

Example SecretRef_display_parse_witness :
  ref_wf (RefId 0x123e4567e89b42d3a456426614174000) /\
  SecretRef_parse (SecretRef_display (RefId 0x123e4567e89b42d3a456426614174000)) =
    Ok (RefId 0x123e4567e89b42d3a456426614174000).
Proof.
  split; [split; vm_compute; congruence|].
  apply (SecretRef_display_parse (RefId 0x123e4567e89b42d3a456426614174000)).
  split; vm_compute; congruence.
Defined.

Example SecretRef_parse_wf_witness : ref_wf (RefName "database").
Proof. apply (SecretRef_parse_wf "database"); [exact uuid_of_text_wf|reflexivity]. Defined.
