(* ===== verification/Broker.v ===== *)
(** * Broker: [crates/ladon-core/src/broker.rs]

    The unlock/run/lock session automaton [BrokerState] and its bounded
    activity log. *)

From S2P Require Import Prelude Errors Time Utf8 Model.
Local Open Scope Z_scope.

Definition MAX_ACTIVITY_ENTRIES : nat := 100.
Definition MAX_ACTIVITY_REFERENCES : nat := 16.

(** [enum SessionStatus]. *)
Inductive SessionStatus : Set :=
| SLocked | SUnlockPending | SUnlocked | SRunning | SLocking.

(** [enum BrokerDecision]. *)
Inductive BrokerDecision : Set :=
| NoChange | PromptUnlock | Authorized | DBusy | Denied | UnlockTimedOut
| CancelRunBeforeLock | DLocked.

(** [enum LockReason]. *)
Inductive LockReason : Set := Manual | Mcp | ScreenLock | Suspend | Shutdown.

(** [enum ActivityOutcome]. *)
Inductive ActivityOutcome : Set := Succeeded | Failed | ODenied | TimedOut | Cancelled.

#[export] Instance SessionStatus_eq_dec : EqDecision SessionStatus.
Proof. solve_decision. Defined.
#[export] Instance BrokerDecision_eq_dec : EqDecision BrokerDecision.
Proof. solve_decision. Defined.

(** [struct ReferencedField]. *)
Record ReferencedField := { ref_secret_id : SecretId; ref_field : string }.

(** [struct ActivityEntry]. *)
Record ActivityEntry := {
  client_label : string;
  executable : option string;
  referenced_fields : list ReferencedField;
  timestamp_millis : Z;
  outcome : ActivityOutcome;
  redaction_count : Z;
}.

(** [enum State]. *)
Inductive State : Set :=
| Locked
| UnlockPending (deadline_millis : Z)
| Unlocked (last_activity_millis : Z)
| Running
| Locking.

(** [struct BrokerState]; the log's front is its oldest entry. *)
Record BrokerState (C : Type) := {
  clock : C;
  idle_timeout_millis : Z;
  state : State;
  activities : list ActivityEntry;
}.
Arguments clock {C}.
Arguments idle_timeout_millis {C}.
Arguments state {C}.
Arguments activities {C}.

(** [truncate_utf8]: the loop steps back from [maximum_bytes] to a boundary. *)
Fixpoint floor_boundary (value : bytes) (boundary : nat) : nat :=
  if is_char_boundary value boundary then boundary
  else match boundary with O => O | S b => floor_boundary value b end.
Definition truncate_utf8 (value : string) (maximum_bytes : Z) : string :=
  if slen value <=? maximum_bytes then value
  else string_of (take (floor_boundary (bytes_of value) (Z.to_nat maximum_bytes)) (bytes_of value)).

(** The entry as [record_activity] stores it. *)
Definition bound_entry (e : ActivityEntry) : ActivityEntry := {|
  client_label := truncate_utf8 (client_label e) 64;
  executable := (fun x => truncate_utf8 x (32 * 1024)) <$> executable e;
  referenced_fields := take MAX_ACTIVITY_REFERENCES (referenced_fields e);
  timestamp_millis := timestamp_millis e;
  outcome := outcome e;
  redaction_count := redaction_count e;
|}.

Section broker.
Context {C : Type} `{MonotonicClock C}.
Implicit Types b : BrokerState C.

Definition with_state b (c : C) (s : State) : BrokerState C :=
  {| clock := c; idle_timeout_millis := idle_timeout_millis b; state := s;
     activities := activities b |}.

(** [BrokerState::new]. *)
Definition broker_new (c : C) (idle_timeout : Duration) : BrokerState C := {|
  clock := c; idle_timeout_millis := duration_millis idle_timeout;
  state := Locked; activities := [];
|}.

(** [BrokerState::status]. *)
Definition status b : SessionStatus :=
  match state b with
  | Locked => SLocked
  | UnlockPending _ => SUnlockPending
  | Unlocked _ => SUnlocked
  | Running => SRunning
  | Locking => SLocking
  end.

(** [BrokerState::request_secret_access]. *)
Definition request_secret_access b : BrokerDecision * BrokerState C :=
  match state b with
  | Locked =>
    let deadline_millis := saturating_add u64_max (now_millis (clock b)) 120000 in
    (PromptUnlock, with_state b (after_millis (clock b)) (UnlockPending deadline_millis))
  | Unlocked _ => (Authorized, b)
  | UnlockPending _ | Running | Locking => (DBusy, b)
  end.

(** [BrokerState::complete_unlock]: the clock is read once for the deadline
    and once more for the start of the idle interval. *)
Definition complete_unlock (approved : bool) b : BrokerDecision * BrokerState C :=
  match state b with
  | UnlockPending deadline_millis =>
    let c := after_millis (clock b) in
    if deadline_millis <=? now_millis (clock b) then (UnlockTimedOut, with_state b c Locked)
    else if approved then (Authorized, with_state b (after_millis c) (Unlocked (now_millis c)))
    else (Denied, with_state b c Locked)
  | _ => (Denied, b)
  end.

(** [BrokerState::secret_activity]. *)
Definition secret_activity b : BrokerState C :=
  match state b with
  | Unlocked _ => with_state b (after_millis (clock b)) (Unlocked (now_millis (clock b)))
  | _ => b
  end.

(** [BrokerState::start_run]. *)
Definition start_run b : BrokerDecision * BrokerState C :=
  match state b with
  | Unlocked _ => (Authorized, with_state b (clock b) Running)
  | _ => (DBusy, b)
  end.

(** [BrokerState::finish_run]. *)
Definition finish_run b : BrokerDecision * BrokerState C :=
  match state b with
  | Running =>
    (NoChange, with_state b (after_millis (clock b)) (Unlocked (now_millis (clock b))))
  | Locking => (DLocked, with_state b (clock b) Locked)
  | _ => (NoChange, b)
  end.

(** [BrokerState::request_lock]; the reason is not looked at. *)
Definition request_lock (_reason : LockReason) b : BrokerDecision * BrokerState C :=
  match state b with
  | Running => (CancelRunBeforeLock, with_state b (clock b) Locking)
  | _ => (DLocked, with_state b (clock b) Locked)
  end.

(** [BrokerState::tick]. *)
Definition tick b : BrokerDecision * BrokerState C :=
  let now := now_millis (clock b) in
  let c := after_millis (clock b) in
  match state b with
  | UnlockPending deadline_millis =>
    if deadline_millis <=? now then (UnlockTimedOut, with_state b c Locked)
    else (NoChange, with_state b c (state b))
  | Unlocked last_activity_millis =>
    if idle_timeout_millis b <=? saturating_sub now last_activity_millis
    then (DLocked, with_state b c Locked)
    else (NoChange, with_state b c (state b))
  | _ => (NoChange, with_state b c (state b))
  end.

(** [BrokerState::record_activity]. *)
Definition record_activity (entry : ActivityEntry) b : BrokerState C :=
  let entry := bound_entry entry in
  let log :=
    if bool_decide (length (activities b) = MAX_ACTIVITY_ENTRIES)
    then drop 1 (activities b) else activities b in
  {| clock := clock b; idle_timeout_millis := idle_timeout_millis b;
     state := state b; activities := log ++ [entry] |}.

(** ** Executions *)
Inductive event :=
| ERequestAccess
| ECompleteUnlock (approved : bool)
| ESecretActivity
| EStartRun
| EFinishRun
| ERequestLock (reason : LockReason)
| ETick
| ERecordActivity (entry : ActivityEntry).

Definition step (e : event) b : BrokerDecision * BrokerState C :=
  match e with
  | ERequestAccess => request_secret_access b
  | ECompleteUnlock approved => complete_unlock approved b
  | ESecretActivity => (NoChange, secret_activity b)
  | EStartRun => start_run b
  | EFinishRun => finish_run b
  | ERequestLock reason => request_lock reason b
  | ETick => tick b
  | ERecordActivity entry => (NoChange, record_activity entry b)
  end.

Fixpoint run (es : list event) b : list BrokerDecision * BrokerState C :=
  match es with
  | [] => ([], b)
  | e :: es =>
    let '(d, b) := step e b in
    let '(ds, b) := run es b in (d :: ds, b)
  end.

Lemma run_app es fs b :
  run (es ++ fs) b =
  ((run es b).1 ++ (run fs (run es b).2).1, (run fs (run es b).2).2).
Proof.
  revert b. induction es as [|e es IH]; intros b; cbn; [by destruct (run fs b)|].
  destruct (step e b) as [d b']. rewrite IH. by destruct (run es b'), (run fs _).
Qed.

Lemma run_length es b : length (run es b).1 = length es.
Proof.
  revert b. induction es as [|e es IH]; intros b; cbn; [done|].
  destruct (step e b) as [d b']. specialize (IH b'). by destruct (run es b'); cbn in *; rewrite IH.
Qed.
End broker.

(** ** The session automaton it implements

    [allowed s d s']: in status [s] an operation may answer [d] and leave [s']. *)
Inductive allowed : SessionStatus -> BrokerDecision -> SessionStatus -> Prop :=
| allow_stay s : allowed s NoChange s
| allow_busy s : s <> SUnlocked -> allowed s DBusy s
| allow_denied s : s <> SUnlockPending -> allowed s Denied s
| allow_prompt : allowed SLocked PromptUnlock SUnlockPending
| allow_unlock : allowed SUnlockPending Authorized SUnlocked
| allow_refuse : allowed SUnlockPending Denied SLocked
| allow_expire : allowed SUnlockPending UnlockTimedOut SLocked
| allow_access : allowed SUnlocked Authorized SUnlocked
| allow_start : allowed SUnlocked Authorized SRunning
| allow_finish : allowed SRunning NoChange SUnlocked
| allow_cancel : allowed SRunning CancelRunBeforeLock SLocking
| allow_lock s : s <> SRunning -> allowed s DLocked SLocked.

Section automaton.
Context {C : Type} `{MonotonicClock C}.
Implicit Types b : BrokerState C.

(** Is the vault open to secrets in this status? *)
Definition opened (s : SessionStatus) : bool :=
  match s with SUnlocked | SRunning | SLocking => true | _ => false end.

(** Every operation of [BrokerState] moves along the session automaton:
    in particular only [Running] leads to [Locking], an unlock passes through
    [UnlockPending], and a running process is never skipped by a lock. *)
Theorem step_allowed (e : event) b :
  allowed (status b) (step e b).1 (status (step e b).2).
Proof.
  destruct e; cbn;
    unfold request_secret_access, complete_unlock, secret_activity, start_run, finish_run,
      request_lock, tick, record_activity, status;
    destruct (state b) eqn:Hs; cbn; rewrite ?Hs;
    repeat (case_match; cbn; rewrite ?Hs); try (constructor; done).
Qed.

Lemma opened_step e b :
  opened (status (step e b).2) = true ->
  (opened (status b) = true /\ (step e b).1 <> DLocked /\ (step e b).1 <> UnlockTimedOut) \/
  (e = ECompleteUnlock true /\ (step e b).1 = Authorized /\
   exists deadline, state b = UnlockPending deadline /\ now_millis (clock b) < deadline).
Proof.
  destruct e; cbn;
    unfold request_secret_access, complete_unlock, secret_activity, start_run, finish_run,
      request_lock, tick, record_activity, status;
    destruct (state b) eqn:Hs; cbn; rewrite ?Hs;
    repeat (case_match; cbn; rewrite ?Hs); try done; try (left; split_and!; done).
  intros _. right. bool_hyps. eauto.
Qed.

(** Secrets are reachable only through an approved unlock: in any history
    of operations from a new broker, if the session is unlocked, running or
    locking now, some [complete_unlock(true)] was answered [Authorized] before
    its deadline and no lock or unlock timeout has been answered since. *)
Theorem opened_after_approval (c : C) idle (es : list event) :
  let '(ds, b) := run es (broker_new c idle) in
  opened (status b) = true ->
  exists pre post dpre dpost,
    es = pre ++ [ECompleteUnlock true] ++ post /\
    ds = dpre ++ [Authorized] ++ dpost /\ length dpre = length pre /\
    (exists deadline, state (run pre (broker_new c idle)).2 = UnlockPending deadline /\
       now_millis (clock (run pre (broker_new c idle)).2) < deadline) /\
    (DLocked ∉ dpost) /\ (UnlockTimedOut ∉ dpost).
Proof.
  induction es as [|e es IH] using rev_ind; [done|].
  rewrite run_app. cbn.
  destruct (run es (broker_new c idle)) as [ds b] eqn:Hrun. cbn.
  destruct (step e b) as [d b'] eqn:Hstep. cbn. intros Hopen.
  pose proof (opened_step e b) as Hs. rewrite Hstep in Hs. cbn in Hs.
  destruct (Hs Hopen) as [(Hb & Hd1 & Hd2)|(-> & -> & Hdl)].
  - destruct (IH Hb) as (pre & post & dpre & dpost & -> & -> & ? & ? & ? & ?).
    exists pre, (post ++ [e]), dpre, (dpost ++ [d]).
    rewrite <- !app_assoc. cbn. split_and!; try done; set_solver.
  - exists es, [], ds, []. rewrite Hrun. split_and!; try done; [|set_solver..].
    pose proof (run_length es (broker_new c idle)) as Hl. by rewrite Hrun in Hl.
Qed.

(** [tick] locks an unlocked session exactly when it has been idle for the
    timeout, and never while a process runs. *)
Theorem tick_idle b :
  (forall last, state b = Unlocked last ->
     ((tick b).1 = DLocked <-> idle_timeout_millis b <= Z.max 0 (now_millis (clock b) - last)) /\
     (status (tick b).2 = SLocked <-> (tick b).1 = DLocked)) /\
  (state b = Running -> (tick b).1 = NoChange /\ state (tick b).2 = Running).
Proof.
  unfold tick, status, saturating_sub. split.
  - intros last ->. case_match; bool_hyps; cbn; naive_solver lia.
  - by intros ->.
Qed.
End automaton.

(** ** The activity log *)
Lemma floor_boundary_spec v m :
  (floor_boundary v m <= m)%nat /\ is_char_boundary v (floor_boundary v m) = true /\
  forall j, (j <= m)%nat -> is_char_boundary v j = true -> (j <= floor_boundary v m)%nat.
Proof.
  induction m as [|m (IH1 & IH2 & IH3)]; cbn [floor_boundary]; [by split_and!|].
  case_match eqn:Hb; [split_and!; [done..|lia]|].
  split_and!; [lia|done|]. intros j Hj Hjb.
  destruct (decide (j = S m)) as [->|]; [congruence|]. apply IH3; [lia|done].
Qed.

Lemma truncate_utf8_bounds (value : string) (maximum : Z) :
  0 <= maximum ->
  let t := bytes_of (truncate_utf8 value maximum) in
  t `prefix_of` bytes_of value /\
  zlen t <= maximum /\
  (slen value <= maximum -> truncate_utf8 value maximum = value) /\
  (valid_utf8 (bytes_of value) -> valid_utf8 t /\ Z.min (slen value) (maximum - 3) <= zlen t).
Proof.
  intros Hm. unfold truncate_utf8. destruct (Z.leb_spec (slen value) maximum) as [Hle|Hgt]; cbn.
  - unfold slen in *. split_and!; [done..|]. intros. split; [done|lia].
  - rewrite bytes_of_string_of. unfold slen, zlen in *.
    destruct (floor_boundary_spec (bytes_of value) (Z.to_nat maximum)) as (Hf & Hb & Hmax).
    split_and!.
    + by eexists; rewrite take_drop.
    + rewrite length_take. lia.
    + lia.
    + intros Hv. split; [by apply valid_take_boundary|].
      destruct (boundary_within_three (bytes_of value) (Z.to_nat maximum)) as (j & ? & ? & Hj);
        [done|lia|].
      specialize (Hmax j). rewrite length_take. destruct (Hmax); lia || done.
Qed.

(** Truncation never splits a character and never cuts more than it must:
    the result is a prefix of the text, a valid string when the text is one,
    within the limit, and at most three bytes short of the limit when it cut. *)
Theorem truncate_utf8_spec (value : string) (maximum : Z) :
  0 <= maximum ->
  let t := bytes_of (truncate_utf8 value maximum) in
  t `prefix_of` bytes_of value /\
  zlen t <= maximum /\
  (slen value <= maximum -> truncate_utf8 value maximum = value) /\
  (valid_utf8 (bytes_of value) -> valid_utf8 t /\ Z.min (slen value) (maximum - 3) <= zlen t).
Proof. apply truncate_utf8_bounds. Qed.

(** What the log may hold. *)
Definition entry_bounded (e : ActivityEntry) : Prop :=
  slen (client_label e) <= 64 /\
  (forall x, executable e = Some x -> slen x <= 32 * 1024) /\
  (length (referenced_fields e) <= MAX_ACTIVITY_REFERENCES)%nat.

Lemma bound_entry_bounded e : entry_bounded (bound_entry e).
Proof.
  unfold entry_bounded, bound_entry, slen. cbn. split_and!.
  - by apply truncate_utf8_bounds.
  - intros x Hx. apply fmap_Some in Hx as (y & _ & ->). by apply truncate_utf8_bounds.
  - rewrite length_take. apply Nat.le_min_l.
Qed.

(** The entries a history records, in order. *)
Definition recorded (es : list event) : list ActivityEntry :=
  omap (fun e => match e with ERecordActivity x => Some x | _ => None end) es.

(** The last [n] elements of a list. *)
Definition last_n {A} (n : nat) (l : list A) : list A := drop (length l - n) l.

Lemma last_n_snoc {A} n (l : list A) x :
  (0 < n)%nat ->
  last_n n (l ++ [x]) =
  (if bool_decide (length (last_n n l) = n) then drop 1 (last_n n l) else last_n n l) ++ [x].
Proof.
  intros Hn. unfold last_n. rewrite length_app, length_drop. cbn.
  rewrite drop_app_le by lia. f_equal. case_bool_decide.
  - rewrite drop_drop. f_equal. lia.
  - f_equal. lia.
Qed.

Section log.
Context {C : Type} `{MonotonicClock C}.
Implicit Types b : BrokerState C.

Lemma step_activities e b :
  activities (step e b).2 =
  match e with ERecordActivity x => activities (record_activity x b) | _ => activities b end.
Proof.
  destruct e; cbn; try done;
    unfold request_secret_access, complete_unlock, secret_activity, start_run, finish_run,
      request_lock, tick; destruct (state b); repeat (case_match; cbn); done.
Qed.

(** The activity log holds exactly the last hundred entries recorded, in
    order and cut to their limits, whatever else the session did meanwhile. *)
Theorem activities_last_hundred (c : C) idle (es : list event) :
  let log := activities (run es (broker_new c idle)).2 in
  log = last_n MAX_ACTIVITY_ENTRIES (bound_entry <$> recorded es) /\
  (length log <= MAX_ACTIVITY_ENTRIES)%nat /\ Forall entry_bounded log.
Proof.
  cbn zeta.
  assert (activities (run es (broker_new c idle)).2 =
          last_n MAX_ACTIVITY_ENTRIES (bound_entry <$> recorded es)) as Hl.
  { induction es as [|e es IH] using rev_ind; [done|].
    rewrite run_app. cbn. destruct (step e _) as [d b'] eqn:Hs. cbn.
    pose proof (step_activities e (run es (broker_new c idle)).2) as Ha.
    rewrite Hs in Ha. cbn in Ha. rewrite Ha. unfold recorded in *.
    rewrite omap_app, fmap_app. destruct e; cbn; rewrite ?app_nil_r; try done.
    rewrite last_n_snoc, IH by (unfold MAX_ACTIVITY_ENTRIES; lia). done. }
  rewrite Hl. split_and!; [done| |].
  - unfold last_n. rewrite length_drop. lia.
  - unfold last_n. apply Forall_drop, Forall_fmap, Forall_true. intros. apply bound_entry_bounded.
Qed.
End log.

Example truncate_utf8_spec_witness :
  truncate_utf8 "ab" 64 = "ab"%string /\
  (slen "ab" <= 64 -> truncate_utf8 "ab" 64 = "ab"%string).
Proof. split; [reflexivity|]. apply (truncate_utf8_spec "ab" 64). lia. Defined.
