(* ===== verification/Grants.v ===== *)
(** * Grants: [crates/ladon-core/src/grants.rs]

    [GrantStore]: which client session may use which secret, and until when.
    Every operation that consults the store first drops the entries that have
    expired at the clock readings it takes. *)

From S2P Require Import Prelude Errors Time Model.
Local Open Scope Z_scope.

(** [enum GrantDeadline]. *)
Inductive GrantDeadline : Set :=
| Elapsed (deadline : Z)
| WallClock (deadline : SystemTime)
| Unattended (wall : SystemTime) (elapsed : Z)
| Session.

#[export] Instance GrantDeadline_eq_dec : EqDecision GrantDeadline.
Proof. solve_decision. Defined.

(** [GrantDeadline::remaining]. *)
Definition deadline_remaining (d : GrantDeadline) (elapsed : Z) (wall : SystemTime) : Duration :=
  match d with
  | Elapsed deadline => from_millis (saturating_sub deadline elapsed)
  | WallClock deadline => unwrap_or_zero (duration_since deadline wall)
  | Unattended deadline bound =>
    Z.min (unwrap_or_zero (duration_since deadline wall))
          (from_millis (saturating_sub bound elapsed))
  | Session => duration_max
  end.

(** [matches!(deadline, GrantDeadline::Unattended { .. })]. *)
Definition is_unattended (d : GrantDeadline) : bool :=
  match d with Unattended _ _ => true | _ => false end.

(** [struct GrantEntry]. *)
Record GrantEntry := {
  entry_client : Uuid;
  entry_secret : SecretId;
  entry_remaining : Duration;
  entry_expires_with_session : bool;
  entry_unattended : bool;
  entry_expires_at : option SystemTime;
}.

(** [struct GrantStore]. *)
Record GrantStore (C : Type) := {
  clock : C;
  lifetime_millis : Z;
  deadlines : gmap (Uuid * SecretId) GrantDeadline;
}.
Arguments clock {C}.
Arguments lifetime_millis {C}.
Arguments deadlines {C}.

Section grants.
Context {C : Type} `{MonotonicClock C}.
Implicit Types g : GrantStore C.

Definition with_deadlines g (c : C) (m : gmap (Uuid * SecretId) GrantDeadline) : GrantStore C :=
  {| clock := c; lifetime_millis := lifetime_millis g; deadlines := m |}.

(** Does a deadline still lie ahead at the readings [purge_expired] takes? *)
Definition live g (d : GrantDeadline) : Prop :=
  deadline_remaining d (now_millis (clock g)) (wall_time (after_millis (clock g))) <> 0.

(** [GrantStore::new]. *)
Definition grants_new (c : C) (lifetime : Duration) : GrantStore C :=
  {| clock := c; lifetime_millis := duration_millis lifetime; deadlines := ∅ |}.

(** [GrantStore::purge_expired]. *)
Definition purge_expired g : GrantStore C :=
  let now := now_millis (clock g) in
  let c := after_millis (clock g) in
  let wall := wall_time c in
  with_deadlines g (after_wall c)
    (filter (fun kd => deadline_remaining kd.2 now wall <> 0) (deadlines g)).

(** The loop [for secret_id in secret_ids { self.deadlines.insert(..) }]. *)
Fixpoint insert_all (client : Uuid) (secret_ids : list SecretId) (d : GrantDeadline)
  (m : gmap (Uuid * SecretId) GrantDeadline) : gmap (Uuid * SecretId) GrantDeadline :=
  match secret_ids with
  | [] => m
  | secret_id :: rest => insert_all client rest d (<[(client, secret_id) := d]> m)
  end.

(** [GrantStore::grant_for]. *)
Definition grant_for (client : Uuid) (secret_ids : list SecretId) (lifetime : Duration) g :
  GrantStore C :=
  let g := purge_expired g in
  let deadline := saturating_add u64_max (now_millis (clock g)) (duration_millis lifetime) in
  with_deadlines g (after_millis (clock g))
    (insert_all client secret_ids (Elapsed deadline) (deadlines g)).

(** [GrantStore::grant]. *)
Definition grant (client : Uuid) (secret_ids : list SecretId) g : GrantStore C :=
  grant_for client secret_ids (from_millis (lifetime_millis g)) g.

(** [GrantStore::grant_until]. *)
Definition grant_until (client : Uuid) (secret_ids : list SecretId) (deadline : SystemTime) g :
  GrantStore C :=
  let g := purge_expired g in
  with_deadlines g (clock g) (insert_all client secret_ids (WallClock deadline) (deadlines g)).

(** [GrantStore::grant_session]. *)
Definition grant_session (client : Uuid) (secret_ids : list SecretId) g : GrantStore C :=
  let g := purge_expired g in
  with_deadlines g (clock g) (insert_all client secret_ids Session (deadlines g)).

(** [GrantStore::wall_time]. *)
Definition store_wall_time g : SystemTime * GrantStore C :=
  (wall_time (clock g), with_deadlines g (after_wall (clock g)) (deadlines g)).

(** [GrantStore::grant_unattended_until]. *)
Definition grant_unattended_until (client : Uuid) (secrets : list SecretId)
  (deadline : SystemTime) g : GrantStore C :=
  let g := purge_expired g in
  let now := now_millis (clock g) in
  let c := after_millis (clock g) in
  let elapsed :=
    saturating_add u64_max now
      (duration_millis (unwrap_or_zero (duration_since deadline (wall_time c)))) in
  with_deadlines g (after_wall c)
    (insert_all client secrets (Unattended deadline elapsed) (deadlines g)).

(** [GrantStore::retain_unattended]. *)
Definition retain_unattended g : GrantStore C :=
  let g := purge_expired g in
  with_deadlines g (clock g) (filter (fun kd => is_unattended kd.2 = true) (deadlines g)).

(** [GrantStore::has_unattended]. *)
Definition has_unattended (client : Uuid) g : bool * GrantStore C :=
  let g := purge_expired g in
  (existsb (fun kd => bool_decide (kd.1.1 = client) && is_unattended kd.2)
     (map_to_list (deadlines g)), g).

(** [GrantStore::missing_unattended]. *)
Definition missing_unattended (client : Uuid) (secrets : list SecretId) g :
  list SecretId * GrantStore C :=
  let g := purge_expired g in
  (List.filter (fun secret =>
     negb (match deadlines g !! (client, secret) with
           | Some d => is_unattended d | None => false end)) secrets, g).

(** [GrantStore::revoke_client]. *)
Definition revoke_client (client : Uuid) g : GrantStore C :=
  with_deadlines g (clock g) (filter (fun kd => kd.1.1 <> client) (deadlines g)).

(** [GrantStore::missing]. *)
Definition missing (client : Uuid) (secret_ids : list SecretId) g :
  list SecretId * GrantStore C :=
  let g := purge_expired g in
  (List.filter (fun secret_id => negb (bool_decide (is_Some (deadlines g !! (client, secret_id)))))
     (first_occurrences ∅ secret_ids), g).

(** [GrantStore::remaining]. *)
Definition remaining (client : Uuid) (secret_id : SecretId) g :
  option Duration * GrantStore C :=
  let g := purge_expired g in
  match deadlines g !! (client, secret_id) with
  | None => (None, g)
  | Some d =>
    let now := now_millis (clock g) in
    let c := after_millis (clock g) in
    (Some (deadline_remaining d now (wall_time c)), with_deadlines g (after_wall c) (deadlines g))
  end.

(** [GrantStore::revoke_all]. *)
Definition revoke_all g : GrantStore C := with_deadlines g (clock g) ∅.

(** [GrantStore::revoke_secret]. *)
Definition revoke_secret (secret_id : SecretId) g : GrantStore C :=
  with_deadlines g (clock g) (filter (fun kd => kd.1.2 <> secret_id) (deadlines g)).

(** The closure of [GrantStore::active]: one entry, its readings in order. *)
Definition active_entry (now : Z) (c : C) (k : Uuid * SecretId) (d : GrantDeadline) :
  GrantEntry * C :=
  let remaining := deadline_remaining d now (wall_time c) in
  let c := after_wall c in
  let '(expires_at, c) :=
    match d with
    | Session => (None, c)
    | WallClock time => (Some time, c)
    | Unattended time _ => (Some time, c)
    | Elapsed _ =>
      let c' := after_wall c in
      (time_checked_add (wall_time c) (deadline_remaining d now (wall_time c')), after_wall c')
    end in
  ({| entry_client := k.1; entry_secret := k.2; entry_remaining := remaining;
      entry_expires_with_session := bool_decide (d = Session);
      entry_unattended := is_unattended d; entry_expires_at := expires_at |}, c).

Fixpoint active_entries (now : Z) (c : C) (l : list ((Uuid * SecretId) * GrantDeadline)) :
  list GrantEntry * C :=
  match l with
  | [] => ([], c)
  | (k, d) :: rest =>
    let '(e, c) := active_entry now c k d in
    let '(es, c) := active_entries now c rest in (e :: es, c)
  end.

(** [GrantStore::active]; a hash map is traversed in no particular order. *)
Definition active g : list GrantEntry * GrantStore C :=
  let g := purge_expired g in
  let now := now_millis (clock g) in
  let '(es, c) := active_entries now (after_millis (clock g)) (map_to_list (deadlines g)) in
  (es, with_deadlines g c (deadlines g)).

(** [GrantStore::revoke_pair]. *)
Definition revoke_pair (client : Uuid) (secret_id : SecretId) g : bool * GrantStore C :=
  let g := purge_expired g in
  (bool_decide (is_Some (deadlines g !! (client, secret_id))),
   with_deadlines g (clock g) (delete (client, secret_id) (deadlines g))).

(** [GrantStore::len] and [GrantStore::is_empty]. *)
Definition store_len g : Z * GrantStore C :=
  let g := purge_expired g in (Z.of_nat (size (deadlines g)), g).
Definition store_is_empty g : bool * GrantStore C :=
  let '(n, g) := store_len g in (n =? 0, g).

(** ** What each operation leaves in the store *)
Lemma purge_lookup g k d :
  deadlines (purge_expired g) !! k = Some d <-> deadlines g !! k = Some d /\ live g d.
Proof. unfold purge_expired. cbn. by rewrite map_lookup_filter_Some. Qed.

Lemma insert_all_lookup client ids d m client' s :
  insert_all client ids d m !! (client', s) =
  if bool_decide (client' = client /\ s ∈ ids) then Some d else m !! (client', s).
Proof.
  revert m. induction ids as [|x ids IH]; intros m; cbn.
  - rewrite bool_decide_eq_false_2; [done|]. set_solver.
  - rewrite IH, lookup_insert. repeat (case_bool_decide || case_decide); rewrite ?elem_of_cons in *; naive_solver.
Qed.

Lemma purge_lookup_None g k :
  deadlines (purge_expired g) !! k = None <->
  forall d, deadlines g !! k = Some d -> ~ live g d.
Proof.
  rewrite eq_None_not_Some. unfold is_Some. split.
  - intros Hn d Hd Hl. apply Hn. exists d. by apply purge_lookup.
  - intros Hn [d [Hd Hl]%purge_lookup]. by eapply Hn.
Qed.

Lemma missing_elem client ids g s :
  s ∈ (missing client ids g).1 <->
  s ∈ ids /\ forall d, deadlines g !! (client, s) = Some d -> ~ live g d.
Proof.
  unfold missing. cbn [fst].
  rewrite list_elem_of_In, filter_In, <- list_elem_of_In, elem_of_first_occurrences.
  rewrite negb_true_iff, bool_decide_eq_false, <- eq_None_not_Some, purge_lookup_None.
  pose proof (not_elem_of_empty (C := gset SecretId) s). tauto.
Qed.

Lemma missing_nil client ids g :
  (missing client ids g).1 = [] <->
  forall s, s ∈ ids -> exists d, deadlines g !! (client, s) = Some d /\ live g d.
Proof.
  split.
  - intros Hn s Hs. destruct (deadlines (purge_expired g) !! (client, s)) as [d|] eqn:Hd.
    + exists d. by apply purge_lookup.
    + exfalso. apply (not_elem_of_nil s). rewrite <- Hn, missing_elem. split; [done|].
      intros d ? ?. assert (deadlines (purge_expired g) !! (client, s) = Some d)
        by by apply purge_lookup. congruence.
  - intros Hall. destruct (missing client ids g).1 as [|s l] eqn:Hm; [done|]. exfalso.
    assert (s ∈ (missing client ids g).1) as (Hs & Hd)%missing_elem by (rewrite Hm; set_solver).
    destruct (Hall s Hs) as (d & ? & ?). by eapply Hd.
Qed.

Lemma has_unattended_true client g :
  (has_unattended client g).1 = true <->
  exists s wall bound, deadlines g !! (client, s) = Some (Unattended wall bound) /\
    live g (Unattended wall bound).
Proof.
  cbn. rewrite existsb_exists. split.
  - intros ([[cl s] d] & Hin & Hc). apply list_elem_of_In, elem_of_map_to_list in Hin.
    apply purge_lookup in Hin as [? ?]. cbn in *. bool_hyps. subst. destruct d; naive_solver.
  - intros (s & w & b & ? & ?). exists ((client, s), Unattended w b). split.
    + apply list_elem_of_In, elem_of_map_to_list, purge_lookup. done.
    + cbn. by rewrite bool_decide_eq_true_2.
Qed.

Lemma missing_unattended_nil client ids g :
  (missing_unattended client ids g).1 = [] <->
  forall s, s ∈ ids -> exists wall bound,
    deadlines g !! (client, s) = Some (Unattended wall bound) /\ live g (Unattended wall bound).
Proof.
  assert (Hcase : forall s, (exists wall bound,
      deadlines g !! (client, s) = Some (Unattended wall bound) /\ live g (Unattended wall bound)) <->
    match deadlines (purge_expired g) !! (client, s) with
    | Some d => is_unattended d | None => false end = true).
  { intros s. split.
    - intros (w & b & Hd%purge_lookup). by rewrite Hd.
    - destruct (deadlines (purge_expired g) !! (client, s)) as [[]|] eqn:Hd; try done.
      intros _. apply purge_lookup in Hd. eauto. }
  setoid_rewrite Hcase. unfold missing_unattended. cbn [fst].
  generalize (deadlines (purge_expired g)) as m. intros m.
  induction ids as [|x ids IH]; cbn [List.filter].
  - split; [|done]. intros _ s []%not_elem_of_nil.
  - setoid_rewrite elem_of_cons.
    destruct (match m !! (client, x) with Some d => _ | None => _ end) eqn:Hx; cbn [negb].
    + rewrite IH. naive_solver.
    + split; [done|]. intros Hall. rewrite Hall in Hx by auto. done.
Qed.
End grants.

(** ** Histories of a store *)
Inductive grant_op : Type :=
| OpGrant (client : Uuid) (ids : list SecretId)
| OpGrantFor (client : Uuid) (ids : list SecretId) (lifetime : Duration)
| OpGrantUntil (client : Uuid) (ids : list SecretId) (deadline : SystemTime)
| OpGrantSession (client : Uuid) (ids : list SecretId)
| OpGrantUnattended (client : Uuid) (ids : list SecretId) (deadline : SystemTime)
| OpRetainUnattended
| OpRevokeClient (client : Uuid)
| OpRevokeSecret (secret_id : SecretId)
| OpRevokePair (client : Uuid) (secret_id : SecretId)
| OpRevokeAll
| OpMissing (client : Uuid) (ids : list SecretId)
| OpMissingUnattended (client : Uuid) (ids : list SecretId)
| OpHasUnattended (client : Uuid)
| OpRemaining (client : Uuid) (secret_id : SecretId)
| OpActive
| OpLen
| OpWallTime.

Section histories.
Context {C : Type} `{MonotonicClock C}.
Implicit Types g : GrantStore C.

Definition apply_op (op : grant_op) g : GrantStore C :=
  match op with
  | OpGrant client ids => grant client ids g
  | OpGrantFor client ids lifetime => grant_for client ids lifetime g
  | OpGrantUntil client ids deadline => grant_until client ids deadline g
  | OpGrantSession client ids => grant_session client ids g
  | OpGrantUnattended client ids deadline => grant_unattended_until client ids deadline g
  | OpRetainUnattended => retain_unattended g
  | OpRevokeClient client => revoke_client client g
  | OpRevokeSecret secret_id => revoke_secret secret_id g
  | OpRevokePair client secret_id => (revoke_pair client secret_id g).2
  | OpRevokeAll => revoke_all g
  | OpMissing client ids => (missing client ids g).2
  | OpMissingUnattended client ids => (missing_unattended client ids g).2
  | OpHasUnattended client => (has_unattended client g).2
  | OpRemaining client secret_id => (remaining client secret_id g).2
  | OpActive => (active g).2
  | OpLen => (store_len g).2
  | OpWallTime => (store_wall_time g).2
  end.

Definition apply_ops (ops : list grant_op) g : GrantStore C := foldl (flip apply_op) g ops.

(** The pairs an operation grants. *)
Definition granted_ids (op : grant_op) (client : Uuid) : list SecretId :=
  match op with
  | OpGrant cl ids | OpGrantFor cl ids _ | OpGrantUntil cl ids _ | OpGrantSession cl ids
  | OpGrantUnattended cl ids _ => if bool_decide (cl = client) then ids else []
  | _ => []
  end.

(** The pairs an operation takes away. *)
Definition revokes (op : grant_op) (client : Uuid) (s : SecretId) : bool :=
  match op with
  | OpRevokeClient cl => bool_decide (cl = client)
  | OpRevokeSecret s' => bool_decide (s' = s)
  | OpRevokePair cl s' => bool_decide (cl = client /\ s' = s)
  | OpRevokeAll => true
  | _ => false
  end.

Lemma active_deadlines g : deadlines (active g).2 = deadlines (purge_expired g).
Proof. unfold active. by destruct (active_entries _ _ _). Qed.

Lemma remaining_deadlines client s g :
  deadlines (remaining client s g).2 = deadlines (purge_expired g).
Proof. unfold remaining. by destruct (deadlines (purge_expired g) !! _). Qed.

Lemma purge_sub g k d : deadlines (purge_expired g) !! k = Some d -> deadlines g !! k = Some d.
Proof. intros Hd%purge_lookup. tauto. Qed.

(** An entry an operation leaves is one it granted or one it kept. *)
Lemma apply_op_lookup op g client s d :
  deadlines (apply_op op g) !! (client, s) = Some d ->
  s ∈ granted_ids op client \/
  (deadlines g !! (client, s) = Some d /\ revokes op client s = false /\
   (op = OpRetainUnattended -> is_unattended d = true)).
Proof.
  destruct op; cbn [apply_op granted_ids revokes];
    rewrite ?active_deadlines, ?remaining_deadlines;
    unfold grant, grant_for, grant_until, grant_session, grant_unattended_until, retain_unattended,
      revoke_client, revoke_secret, revoke_pair, revoke_all, missing, missing_unattended,
      has_unattended, store_len, store_wall_time;
    cbn [deadlines with_deadlines snd];
    rewrite ?insert_all_lookup, ?map_lookup_filter_Some, ?lookup_delete_Some, ?lookup_empty;
    repeat case_bool_decide; cbn [fst snd]; intros Hd;
    repeat match goal with
    | H : _ /\ _ |- _ => destruct H
    | H : deadlines (purge_expired _) !! _ = Some _ |- _ => apply purge_sub in H
    end; subst; naive_solver.
Qed.

(** A secret is accessible only on a grant: an entry found in the store was
    put there by an operation that granted this very secret to this very client,
    and no later operation revoked the pair, the client, the secret or everything;
    an entry that outlived a lock ([retain_unattended]) is an unattended one. *)
Theorem grant_provenance (c : C) (lifetime : Duration) (ops : list grant_op) client s d :
  deadlines (apply_ops ops (grants_new c lifetime)) !! (client, s) = Some d ->
  exists before op after,
    ops = before ++ op :: after /\
    s ∈ granted_ids op client /\
    Forall (fun o => revokes o client s = false /\
                     (o = OpRetainUnattended -> is_unattended d = true)) after.
Proof.
  induction ops as [|o ops IH] using rev_ind; [by cbn; rewrite lookup_empty|].
  unfold apply_ops in *. rewrite foldl_app. cbn. unfold flip at 1.
  intros [Hg|(Hd & Hr & Hu)]%apply_op_lookup.
  - exists ops, o, []. eauto.
  - destruct (IH Hd) as (before & op & after & -> & Hop & Hafter).
    exists before, op, (after ++ [o]). rewrite <- app_assoc. split_and!; [done..|].
    apply Forall_app. auto.
Qed.

(** [missing] reports exactly the requested secrets that no live grant of the
    client covers, each once, so that access is complete when it reports none. *)
Theorem missing_spec client ids g :
  let uncovered := (missing client ids g).1 in
  NoDup uncovered /\
  (forall s, s ∈ uncovered <->
     s ∈ ids /\ forall d, deadlines g !! (client, s) = Some d -> ~ live g d) /\
  (uncovered = [] <->
     forall s, s ∈ ids -> exists d, deadlines g !! (client, s) = Some d /\ live g d).
Proof.
  split_and!.
  - unfold missing. cbn [fst]. apply NoDup_ListNoDup, List.NoDup_filter.
    apply NoDup_ListNoDup, NoDup_first_occurrences.
  - apply missing_elem.
  - apply missing_nil.
Qed.
End histories.

(** ** Expiry under a clock that does not go backwards *)
Section expiry.
Context {C : Type} `{MonotonicClockLaws C}.
Implicit Types g : GrantStore C.

Lemma elapsed_purge g : elapsed (clock g) <= elapsed (clock (purge_expired g)).
Proof.
  cbn. pose proof (elapsed_millis (clock g)). pose proof (elapsed_wall (after_millis (clock g))). lia.
Qed.

Lemma elapsed_active_entry now c k d : elapsed c <= elapsed (active_entry now c k d).2.
Proof.
  unfold active_entry. pose proof (elapsed_wall c). pose proof (elapsed_wall (after_wall c)).
  pose proof (elapsed_wall (after_wall (after_wall c))). destruct d; cbn; lia.
Qed.

Lemma elapsed_active_entries now l c : elapsed c <= elapsed (active_entries now c l).2.
Proof.
  revert c. induction l as [|[k d] l IH]; intros c; cbn; [lia|].
  pose proof (elapsed_active_entry now c k d) as He.
  destruct (active_entry now c k d) as [e c1]. cbn in He.
  specialize (IH c1). destruct (active_entries now c1 l) as [es c2]. cbn in *. lia.
Qed.

Lemma elapsed_active g : elapsed (clock g) <= elapsed (clock (active g).2).
Proof.
  unfold active. set (p := purge_expired g).
  pose proof (elapsed_purge g) as Hp. pose proof (elapsed_millis (clock p)).
  pose proof (elapsed_active_entries (now_millis (clock p)) (map_to_list (deadlines p))
    (after_millis (clock p))) as He.
  destruct (active_entries _ _ _) as [es c]. fold p in Hp. cbn in *. lia.
Qed.

(** No operation turns the clock back. *)
Lemma elapsed_apply_op op g : elapsed (clock g) <= elapsed (clock (apply_op op g)).
Proof.
  pose proof (elapsed_purge g) as Hp.
  pose proof (elapsed_millis (clock (purge_expired g))) as Hm.
  pose proof (elapsed_wall (after_millis (clock (purge_expired g)))) as Hw.
  pose proof (elapsed_wall (clock g)) as Hs. pose proof (elapsed_active g) as Ha.
  destruct op; cbn [apply_op];
    unfold grant, grant_for, grant_until, grant_session, grant_unattended_until, retain_unattended,
      revoke_client, revoke_secret, revoke_pair, revoke_all, missing, missing_unattended,
      has_unattended, store_len, store_wall_time, remaining in *;
    repeat case_match; cbn [clock with_deadlines snd] in *; lia.
Qed.

Lemma elapsed_apply_ops ops g : elapsed (clock g) <= elapsed (clock (apply_ops ops g)).
Proof.
  revert g. induction ops as [|o ops IH]; intros g; cbn; [lia|].
  pose proof (elapsed_apply_op o g). specialize (IH (apply_op o g)). unfold apply_ops, flip in *. lia.
Qed.

(** Without a new grant, an entry can only disappear. *)
Lemma apply_ops_lookup ops g client s d :
  Forall (fun o => s ∉ granted_ids o client) ops ->
  deadlines (apply_ops ops g) !! (client, s) = Some d -> deadlines g !! (client, s) = Some d.
Proof.
  revert g. induction ops as [|o ops IH]; intros g Hf Hd; [done|].
  apply Forall_cons in Hf as [Ho Hf]. apply (IH (apply_op o g)) in Hd; [|done].
  apply apply_op_lookup in Hd. naive_solver.
Qed.

Lemma grant_for_lookup client ids lifetime g s :
  s ∈ ids ->
  exists deadline,
    deadlines (grant_for client ids lifetime g) !! (client, s) = Some (Elapsed deadline) /\
    deadline <= elapsed (clock (grant_for client ids lifetime g)) + duration_millis lifetime.
Proof.
  intros Hs. eexists. split.
  - unfold grant_for. cbn [deadlines with_deadlines].
    by rewrite insert_all_lookup, bool_decide_eq_true_2 by done.
  - unfold grant_for, saturating_add. cbn [clock with_deadlines].
    pose proof (now_millis_upper (clock (purge_expired g))). lia.
Qed.

(** A timed grant dies on time: once the lifetime has elapsed on the
    monotonic clock since the grant was made, the secret is missing again, whatever
    operations other than a new grant of it were applied in between. *)
Theorem grant_for_expires client ids lifetime g ops s :
  s ∈ ids ->
  Forall (fun o => s ∉ granted_ids o client) ops ->
  let granted := grant_for client ids lifetime g in
  let later := apply_ops ops granted in
  elapsed (clock granted) + duration_millis lifetime <= now_millis (clock later) ->
  (missing client [s] later).1 = [s].
Proof.
  intros Hs Hops granted later Htime.
  destruct (deadlines (purge_expired later) !! (client, s)) as [d|] eqn:Hd.
  - apply purge_lookup in Hd as [Hd Hlive]. apply apply_ops_lookup in Hd; [|done].
    destruct (grant_for_lookup client ids lifetime g s Hs) as (deadline & Hg & Hle).
    fold granted in Hg, Hle. rewrite Hg in Hd. injection Hd as <-. exfalso. apply Hlive. cbn.
    unfold saturating_sub, from_millis. lia.
  - unfold missing. cbn [fst first_occurrences]. rewrite bool_decide_eq_false_2 by set_solver.
    cbn [List.filter]. by rewrite Hd.
Qed.

Lemma grant_unattended_lookup client ids deadline g s :
  s ∈ ids ->
  let wall := wall_time (after_millis (clock (purge_expired g))) in
  let granted := grant_unattended_until client ids deadline g in
  exists bound,
    deadlines granted !! (client, s) = Some (Unattended deadline bound) /\
    bound <= elapsed (clock granted) + duration_millis (Z.max 0 (deadline - wall)).
Proof.
  intros Hs. eexists. split.
  - unfold grant_unattended_until. cbn [deadlines with_deadlines].
    by rewrite insert_all_lookup, bool_decide_eq_true_2 by done.
  - unfold grant_unattended_until, saturating_add. cbn [clock with_deadlines].
    rewrite duration_since_zero.
    set (p := clock (purge_expired g)). pose proof (now_millis_upper p).
    pose proof (elapsed_wall (after_millis p)). lia.
Qed.

(** An unattended grant is bounded by both clocks: it ends when the wall clock
    reaches its deadline, and also when the time that was left at the grant has
    elapsed on the monotonic clock, so that setting the wall clock back afterwards
    does not prolong it. *)
Theorem grant_unattended_expires client ids deadline g ops s :
  s ∈ ids ->
  Forall (fun o => s ∉ granted_ids o client) ops ->
  let wall := wall_time (after_millis (clock (purge_expired g))) in
  let granted := grant_unattended_until client ids deadline g in
  let later := apply_ops ops granted in
  deadline <= wall_time (after_millis (clock later)) \/
  elapsed (clock granted) + duration_millis (Z.max 0 (deadline - wall)) <= now_millis (clock later) ->
  (missing client [s] later).1 = [s].
Proof.
  intros Hs Hops wall granted later Htime.
  destruct (deadlines (purge_expired later) !! (client, s)) as [d|] eqn:Hd.
  - apply purge_lookup in Hd as [Hd Hlive]. apply apply_ops_lookup in Hd; [|done].
    destruct (grant_unattended_lookup client ids deadline g s Hs) as (bound & Hg & Hle).
    fold wall granted in Hg, Hle. rewrite Hg in Hd. injection Hd as <-. exfalso. apply Hlive. cbn.
    rewrite duration_since_zero. unfold saturating_sub, from_millis. lia.
  - unfold missing. cbn [fst first_occurrences]. rewrite bool_decide_eq_false_2 by set_solver.
    cbn [List.filter]. by rewrite Hd.
Qed.
End expiry.

(** A store of a manual clock, in which time passes between two operations. *)
Definition example_clock (ms : N) (wall : SystemTime) : ManualClock :=
  {| manual_millis := ms; manual_wall := wall |}.

Example grant_provenance_witness :
  let ops := [OpGrantFor 7 [1; 2] (from_secs 60); OpRevokeSecret 1] in
  deadlines (apply_ops ops (grants_new (example_clock 5 0) (from_secs 60))) !! (7, 2) =
    Some (Elapsed 60005) /\
  exists before op after,
    ops = before ++ op :: after /\ 2 ∈ granted_ids op 7 /\
    Forall (fun o => revokes o 7 2 = false /\
                     (o = OpRetainUnattended -> is_unattended (Elapsed 60005) = true)) after.
Proof.
  intros ops. split; [vm_compute; reflexivity|].
  apply (grant_provenance (example_clock 5 0) (from_secs 60) ops 7 2 (Elapsed 60005)).
  vm_compute. reflexivity.
Defined.

(** A clock that advances by a second each time it is read. *)
Record TickingClock := { ticks : N }.
#[export] Instance ticking_clock : MonotonicClock TickingClock := {|
  read_millis c := (Z.of_N (ticks c) * 1000, {| ticks := ticks c + 1 |});
  read_wall c := (Z.of_N (ticks c) * 10 ^ 9, {| ticks := ticks c + 1 |});
|}.
#[export] Instance ticking_clock_laws : MonotonicClockLaws TickingClock.
Proof.
  exists (fun c => Z.of_N (ticks c) * 1000); unfold now_millis, after_millis, after_wall; cbn;
    intros; lia.
Defined.

Example grant_for_expires_witness :
  let granted := grant_for 7 [1] (from_secs 3) (grants_new {| ticks := 0 |} (from_secs 3)) in
  let later := apply_ops [OpWallTime; OpLen; OpWallTime] granted in
  (elapsed (clock granted) + duration_millis (from_secs 3) <= now_millis (clock later)) /\
  (missing 7 [1] later).1 = [1].
Proof.
  intros granted later. split; [vm_compute; discriminate|].
  apply (grant_for_expires 7 [1] (from_secs 3) (grants_new {| ticks := 0 |} (from_secs 3))
    [OpWallTime; OpLen; OpWallTime] 1).
  - apply list_elem_of_here.
  - repeat constructor; apply not_elem_of_nil.
  - vm_compute; discriminate.
Defined.

Example grant_unattended_expires_witness :
  let g := grants_new {| ticks := 0 |} (from_secs 3) in
  let granted := grant_unattended_until 7 [1] (from_secs 6) g in
  let later := apply_ops [OpWallTime; OpLen] granted in
  from_secs 6 <= wall_time (after_millis (clock later)) /\ (missing 7 [1] later).1 = [1].
Proof.
  intros g granted later. split; [vm_compute; discriminate|].
  apply (grant_unattended_expires 7 [1] (from_secs 6) g [OpWallTime; OpLen] 1).
  - apply list_elem_of_here.
  - repeat constructor; apply not_elem_of_nil.
  - left. vm_compute. discriminate.
Defined.
