(* ===== verification/Cbor.v ===== *)
(** * Cbor: the interface of the [minicbor] crate

    [minicbor] is a dependency, not part of the repository, so its decoder and
    encoder are parameters: a class of operations, and a class of the laws the
    vault codec relies on.  A decoder method looks at the unread input and
    answers the value and the number of bytes it consumed; an encoder method
    writing into a vector is the bytes it appends. *)

From S2P Require Import Prelude Errors Utf8.
Local Open Scope Z_scope.

(** [minicbor::data::Type]. *)
Inductive CborType : Set :=
| TBool | TNull | TUndefined | TU8 | TU16 | TU32 | TU64 | TI8 | TI16 | TI32 | TI64 | TInt
| TF16 | TF32 | TF64 | TSimple | TBytes | TBytesIndef | TString | TStringIndef
| TArray | TArrayIndef | TMap | TMapIndef | TTag | TBreak | TUnknown (b : byte).

Abbreviation reader A := (bytes -> option (A * nat)) (only parsing).

Class Cbor := {
  d_datatype : bytes -> option CborType;
  d_bool : reader bool;
  d_null : reader unit;
  d_undefined : reader unit;
  d_u8 : reader Z; d_u16 : reader Z; d_u32 : reader Z; d_u64 : reader Z;
  d_i8 : reader Z; d_i16 : reader Z; d_i32 : reader Z; d_i64 : reader Z;
  d_int : reader Z;
  d_simple : reader Z;
  d_bytes : reader bytes;
  d_str : reader string;
  d_tag : reader Z;
  d_array : reader (option Z);
  d_map : reader (option Z);
  d_skip : reader unit;
  e_bool : bool -> bytes;
  e_null : bytes;
  e_undefined : bytes;
  e_u8 : Z -> bytes; e_u16 : Z -> bytes; e_u32 : Z -> bytes; e_u64 : Z -> bytes;
  e_i8 : Z -> bytes; e_i16 : Z -> bytes; e_i32 : Z -> bytes; e_i64 : Z -> bytes;
  e_int : Z -> bytes;
  e_simple : Z -> option bytes;
  e_bytes : bytes -> bytes;
  e_str : string -> bytes;
  e_tag : Z -> bytes;
  e_array : Z -> bytes;
  e_map : Z -> bytes;
}.

(** [d] reads back what was written as [e], whatever follows it. *)
Definition reads {A} (d : reader A) (e : bytes) (v : A) : Prop :=
  forall rest, d (e ++ rest) = Some (v, length e).

(** What the documentation of [minicbor] promises and the codec relies on. *)
Class CborLaws `{Cbor} := {
  u8_u8 n : 0 <= n < 2 ^ 8 -> reads d_u8 (e_u8 n) n;
  u64_u8 n : 0 <= n < 2 ^ 8 -> reads d_u64 (e_u8 n) n;
  u32_u32 n : 0 <= n < 2 ^ 32 -> reads d_u32 (e_u32 n) n;
  u64_u64 n : 0 <= n < 2 ^ 64 -> reads d_u64 (e_u64 n) n;
  bytes_bytes b : zlen b < 2 ^ 64 -> reads d_bytes (e_bytes b) b;
  str_str s : slen s < 2 ^ 64 -> valid_utf8 (bytes_of s) -> reads d_str (e_str s) s;
  array_array n : 0 <= n < 2 ^ 64 -> reads d_array (e_array n) (Some n);
  map_map n : 0 <= n < 2 ^ 64 -> reads d_map (e_map n) (Some n);
  u64_range b n k : d_u64 b = Some (n, k) -> 0 <= n < 2 ^ 64;
  u32_range b n k : d_u32 b = Some (n, k) -> 0 <= n < 2 ^ 32;
  array_range b n k : d_array b = Some (Some n, k) -> 0 <= n < 2 ^ 64;
  map_range b n k : d_map b = Some (Some n, k) -> 0 <= n < 2 ^ 64;
  str_valid b s k : d_str b = Some (s, k) -> valid_utf8 (bytes_of s);
  skip_local b rest : d_skip (b ++ rest) = Some (tt, length b) <-> d_skip b = Some (tt, length b);
  skip_bounded b k : d_skip b = Some (tt, k) -> (k <= length b)%nat;
}.

(** ** Decoding programs

    A program reads from the unread input; every failure is answered with the
    same error.  [Decoder::position] is the input's length less what is unread. *)
Definition Decode (A : Type) : Type := bytes -> LResult (A * bytes).

#[export] Instance decode_ret : MRet Decode := fun A a b => Ok (a, b).
#[export] Instance decode_bind : MBind Decode := fun A B f m b =>
  match m b with Ok (a, rest) => f a rest | Err e => Err e end.

(** [decoder.method().map_err(|_| LadonError::InvalidVaultPayload)?]. *)
Definition read {A} (d : reader A) : Decode A := fun b =>
  match d b with
  | Some (v, n) => Ok (v, drop n b)
  | None => Err InvalidVaultPayload
  end.

(** A computation that does not read. *)
Definition lift {A} (m : LResult A) : Decode A := fun b =>
  match m with Ok a => Ok (a, b) | Err e => Err e end.

(** [for _ in 0..n { items.push(m(decoder)?) }]. *)
Fixpoint times {A} (n : nat) (m : Decode A) : Decode (list A) :=
  match n with
  | O => mret []
  | S n => x ← m; xs ← times n m; mret (x :: xs)
  end.

Lemma decode_bind_Ok {A B} (m : Decode A) (f : A -> Decode B) b c rest :
  (m ≫= f) b = Ok (c, rest) <-> exists a mid, m b = Ok (a, mid) /\ f a mid = Ok (c, rest).
Proof.
  unfold mbind, decode_bind. destruct (m b) as [[a mid]|e].
  - split; [eauto|]. by intros (? & ? & [= <- <-] & ?).
  - split; [done|]. by intros (? & ? & ? & ?).
Qed.

Lemma decode_bind_Err_l {A B} (m : Decode A) (f : A -> Decode B) b e :
  m b = Err e -> (m ≫= f) b = Err e.
Proof. unfold mbind, decode_bind. by intros ->. Qed.

Lemma decode_bind_Err_r {A B} (m : Decode A) (f : A -> Decode B) b a mid e :
  m b = Ok (a, mid) -> f a mid = Err e -> (m ≫= f) b = Err e.
Proof. unfold mbind, decode_bind. by intros ->. Qed.

Lemma read_Ok {A} (d : reader A) b v rest :
  read d b = Ok (v, rest) <-> exists n, d b = Some (v, n) /\ rest = drop n b.
Proof. unfold read. destruct (d b) as [[v' n]|]; naive_solver. Qed.

Lemma lift_Ok {A} (m : LResult A) b v rest :
  lift m b = Ok (v, rest) <-> m = Ok v /\ rest = b.
Proof. unfold lift. destruct m; naive_solver. Qed.

Lemma read_reads {A} (d : reader A) e v rest : reads d e v -> read d (e ++ rest) = Ok (v, rest).
Proof. intros Hr. unfold read. by rewrite Hr, drop_app_length. Qed.

(** Splits a successful decoding program into its steps. *)
Ltac inv_decode :=
  repeat match goal with
  | H : (_ ≫= _) _ = Ok (_, _) |- _ => apply decode_bind_Ok in H as (? & ? & ? & ?)
  | H : read _ _ = Ok (_, _) |- _ => apply read_Ok in H as (? & ? & ?)
  | H : lift _ _ = Ok (_, _) |- _ => apply lift_Ok in H as [? ?]
  | H : mret _ _ = Ok (_, _) |- _ => injection H as H
  end; inv_ok; simplify_eq.

(** The programs run here consume a written prefix. *)
Definition parses {A} (m : Decode A) (e : bytes) (v : A) : Prop :=
  forall rest, m (e ++ rest) = Ok (v, rest).

Lemma parses_read {A} (d : reader A) e v : reads d e v -> parses (read d) e v.
Proof. intros Hr rest. by apply read_reads. Qed.

Lemma parses_bind {A B} (m : Decode A) (f : A -> Decode B) e1 e2 a v :
  parses m e1 a -> parses (f a) e2 v -> parses (m ≫= f) (e1 ++ e2) v.
Proof. intros Hm Hf rest. rewrite <- app_assoc. apply decode_bind_Ok. eauto. Qed.

Lemma parses_ret {A} (v : A) : parses (mret v) [] v.
Proof. by intros rest. Qed.

Lemma parses_lift {A B} (m : LResult A) (f : A -> Decode B) a e v :
  m = Ok a -> parses (f a) e v -> parses (lift m ≫= f) e v.
Proof. intros -> Hf rest. apply decode_bind_Ok. eexists _, _. split; [done|]. apply Hf. Qed.

(** [m] with every failure reported as [e]. *)
Definition relabel {A} (e : LadonError) (m : Decode A) : Decode A := fun b => map_err e (m b).

Lemma parses_relabel {A} err (m : Decode A) e v : parses m e v -> parses (relabel err m) e v.
Proof. intros Hm rest. unfold relabel. by rewrite Hm. Qed.

Lemma relabel_Ok {A} err (m : Decode A) b x : relabel err m b = Ok x <-> m b = Ok x.
Proof. apply map_err_Ok. Qed.

Lemma parses_end {A} (m : Decode A) e v : parses m (e ++ []) v -> parses m e v.
Proof. by rewrite app_nil_r. Qed.

Lemma parses_times {A} (m : Decode A) (e : A -> bytes) l :
  Forall (fun x => parses m (e x) x) l -> parses (times (length l) m) (flat_map e l) l.
Proof.
  induction 1 as [|x l Hx _ IH]; cbn; [apply parses_ret|].
  apply parses_bind with x; [done|]. apply parses_end, parses_bind with l; [done|apply parses_ret].
Qed.

Lemma times_length {A} (m : Decode A) n b l rest : times n m b = Ok (l, rest) -> length l = n.
Proof.
  revert b l rest. induction n as [|n IH]; intros b l rest Ht; cbn in Ht; inv_decode; [done|].
  cbn. f_equal. eauto.
Qed.

Lemma times_Forall {A} (P : A -> Prop) (m : Decode A) n b l rest :
  (forall b x rest, m b = Ok (x, rest) -> P x) -> times n m b = Ok (l, rest) -> Forall P l.
Proof.
  intros Hm. revert b l rest. induction n as [|n IH]; intros b l rest Ht; cbn in Ht; inv_decode;
    eauto.
Qed.
