(* ===== verification/CborReference.v ===== *)
(** * CborReference: a concrete implementation of the CBOR interface

    RFC 8949 heads and items, which satisfies the laws of [Cbor].  The theorems of
    the codec are instantiated with it. *)

From S2P Require Import Prelude Errors Utf8 Cbor.
Local Open Scope Z_scope.

(** ** Heads: a major type and an argument *)
Definition head_width (n : Z) : nat :=
  if n <? 2 ^ 8 then 1 else if n <? 2 ^ 16 then 2 else if n <? 2 ^ 32 then 4 else 8.
Definition head_info (n : Z) : Z :=
  if n <? 24 then n
  else if n <? 2 ^ 8 then 24 else if n <? 2 ^ 16 then 25 else if n <? 2 ^ 32 then 26 else 27.
Definition enc_head (major n : Z) : bytes :=
  zb (major * 32 + head_info n) :: (if n <? 24 then [] else be_bytes (head_width n) n).

Definition info_width (info : Z) : nat :=
  if info <? 24 then 0 else if info =? 24 then 1 else if info =? 25 then 2
  else if info =? 26 then 4 else 8.

(** The major type, the additional information, the argument and the length. *)
Record head := { h_major : Z; h_info : Z; h_arg : Z; h_len : nat }.
Definition dec_head (b : bytes) : option head :=
  match b with
  | [] => None
  | x :: r =>
    let major := bz x / 32 in
    let info := bz x mod 32 in
    if (28 <=? info) && (info <? 31) then None
    else if info =? 31 then Some {| h_major := major; h_info := info; h_arg := 0; h_len := 1 |}
    else if (length r <? info_width info)%nat then None
    else Some {| h_major := major; h_info := info;
                 h_arg := if info <? 24 then info else be_value (take (info_width info) r);
                 h_len := 1 + info_width info |}
  end.

(** The argument of a definite head of the given major type. *)
Definition definite (major : Z) (b : bytes) : option (Z * nat) :=
  match dec_head b with
  | Some h => if (h_major h =? major) && negb (h_info h =? 31) then Some (h_arg h, h_len h) else None
  | None => None
  end.

Lemma head_info_width n : 0 <= n -> info_width (head_info n) = if n <? 24 then 0%nat else head_width n.
Proof.
  intros Hn. unfold head_info, head_width, info_width.
  destruct (Z.ltb_spec n 24); [by rewrite (proj2 (Z.ltb_lt _ _))|].
  destruct (n <? 2 ^ 8), (n <? 2 ^ 16), (n <? 2 ^ 32); reflexivity.
Qed.

Lemma head_info_range n : 0 <= n -> 0 <= head_info n < 28.
Proof.
  intros Hn. unfold head_info. destruct (Z.ltb_spec n 24); [lia|].
  destruct (n <? 2 ^ 8), (n <? 2 ^ 16), (n <? 2 ^ 32); lia.
Qed.

Lemma head_width_bound n : 0 <= n < 2 ^ 64 -> n < 256 ^ Z.of_nat (head_width n).
Proof.
  intros Hn. unfold head_width. destruct (Z.ltb_spec n (2 ^ 8)); [exact H|].
  destruct (Z.ltb_spec n (2 ^ 16)); [exact H0|]. destruct (Z.ltb_spec n (2 ^ 32)); [exact H1|].
  apply Hn.
Qed.

Lemma dec_enc_head major n rest :
  0 <= major < 8 -> 0 <= n < 2 ^ 64 ->
  dec_head (enc_head major n ++ rest) =
  Some {| h_major := major; h_info := head_info n; h_arg := n; h_len := length (enc_head major n) |}.
Proof.
  intros Hm Hn. pose proof (head_info_range n ltac:(lia)) as Hi.
  unfold enc_head, dec_head. cbn [app]. rewrite bz_zb_small by lia.
  replace ((major * 32 + head_info n) / 32) with major by (rewrite Z.div_add_l, Z.div_small; lia).
  replace ((major * 32 + head_info n) mod 32) with (head_info n)
    by (rewrite Z.add_comm, Z.mod_add, Z.mod_small; lia).
  rewrite (proj2 (Z.leb_gt 28 _)), (proj2 (Z.eqb_neq _ 31)) by lia. cbn [andb].
  rewrite head_info_width by lia. cbn [length].
  destruct (Z.ltb_spec n 24) as [Hs|Hs]; cbn [app length].
  - cbn. unfold head_info. by rewrite !(proj2 (Z.ltb_lt n 24)) by lia.
  - rewrite length_app, length_be_bytes.
    rewrite (proj2 (Nat.ltb_ge _ _)), (proj2 (Z.ltb_ge (head_info n) 24)).
    + rewrite take_app_length' by by rewrite length_be_bytes.
      rewrite be_value_bytes_small by (pose proof (head_width_bound n Hn); lia). done.
    + unfold head_info. rewrite (proj2 (Z.ltb_ge n 24)) by lia.
      destruct (n <? 2 ^ 8), (n <? 2 ^ 16), (n <? 2 ^ 32); lia.
    + lia.
Qed.

Lemma definite_enc_head major n rest :
  0 <= major < 8 -> 0 <= n < 2 ^ 64 ->
  definite major (enc_head major n ++ rest) = Some (n, length (enc_head major n)).
Proof.
  intros. unfold definite. rewrite dec_enc_head by done. cbn [h_major h_info h_arg h_len].
  pose proof (head_info_range n). rewrite Z.eqb_refl, (proj2 (Z.eqb_neq _ 31)) by lia. done.
Qed.

Lemma dec_head_range b h : dec_head b = Some h -> 0 <= h_arg h < 2 ^ 64 /\ (1 <= h_len h <= length b)%nat.
Proof.
  destruct b as [|x r]; [done|]. unfold dec_head. pose proof (Z.mod_pos_bound (bz x) 32 ltac:(lia)).
  destruct (_ && _); [done|]. destruct (Z.eqb_spec (bz x mod 32) 31); [intros [= <-]; cbn; lia|].
  destruct (Nat.ltb_spec (length r) (info_width (bz x mod 32))); [done|]. intros [= <-]. cbn.
  split; [|lia]. destruct (Z.ltb_spec (bz x mod 32) 24); [lia|].
  pose proof (be_value_bound (take (info_width (bz x mod 32)) r)) as Hb. unfold zlen in Hb.
  rewrite length_take, Nat.min_l in Hb by lia. split; [lia|].
  eapply Z.lt_le_trans; [apply Hb|]. change (2 ^ 64) with (256 ^ 8).
  apply Z.pow_le_mono_r; [lia|]. unfold info_width.
  repeat match goal with |- context [if ?c then _ else _] => destruct c end; lia.
Qed.

Lemma dec_head_app b r h : dec_head b = Some h -> dec_head (b ++ r) = Some h.
Proof.
  destruct b as [|x b]; [done|]. unfold dec_head. cbn [app]. destruct (_ && _); [done|]. destruct (_ =? 31); [done|].
  destruct (Nat.ltb_spec (length b) (info_width (bz x mod 32))); [done|]. intros [= <-].
  rewrite length_app, (proj2 (Nat.ltb_ge _ _)) by lia. by rewrite take_app_le by lia.
Qed.

Lemma dec_head_cut b r h : dec_head (b ++ r) = Some h -> (h_len h <= length b)%nat -> dec_head b = Some h.
Proof.
  destruct b as [|x b]; cbn [app length].
  - intros Hh%dec_head_range. lia.
  - unfold dec_head. destruct (_ && _); [done|]. destruct (_ =? 31); [done|].
    destruct (Nat.ltb_spec (length (b ++ r)) (info_width (bz x mod 32))); [done|]. intros [= <-].
    cbn [h_len]. intros Hl. rewrite (proj2 (Nat.ltb_ge _ _)) by lia. by rewrite take_app_le by lia.
Qed.

(** ** Items *)
Definition ref_uint (limit : Z) : reader Z := fun b =>
  match definite 0 b with Some (n, k) => if n <? limit then Some (n, k) else None | None => None end.

(** A signed integer between [-limit] and [limit - 1]. *)
Definition ref_sint (limit : Z) : reader Z := fun b =>
  match definite 0 b, definite 1 b with
  | Some (n, k), _ => if n <? limit then Some (n, k) else None
  | None, Some (n, k) => if n <? limit then Some (-1 - n, k) else None
  | None, None => None
  end.
Definition enc_sint (n : Z) : bytes := if 0 <=? n then enc_head 0 n else enc_head 1 (-1 - n).

(** The contents of a byte or text string. *)
Definition ref_chunk (major : Z) : reader bytes := fun b =>
  match definite major b with
  | Some (n, k) =>
    if zlen b - Z.of_nat k <? n then None
    else Some (take (Z.to_nat n) (drop k b), (k + Z.to_nat n)%nat)
  | None => None
  end.

Definition ref_str : reader string := fun b =>
  match ref_chunk 3 b with
  | Some (c, k) => if bool_decide (valid_utf8 c) then Some (string_of c, k) else None
  | None => None
  end.

(** An array or map length; the head of an indefinite one answers [None]. *)
Definition ref_length (major : Z) : reader (option Z) := fun b =>
  match dec_head b with
  | Some h =>
    if h_major h =? major
    then Some (if h_info h =? 31 then None else Some (h_arg h), h_len h) else None
  | None => None
  end.

Definition ref_simple (info : Z) : reader unit := fun b =>
  match dec_head b with
  | Some h => if (h_major h =? 7) && (h_info h =? info) then Some (tt, h_len h) else None
  | None => None
  end.

Definition ref_type (h : head) : CborType :=
  let uint n := if n <? 2 ^ 8 then TU8 else if n <? 2 ^ 16 then TU16
                else if n <? 2 ^ 32 then TU32 else TU64 in
  let sint n := if n <? 2 ^ 7 then TI8 else if n <? 2 ^ 15 then TI16
                else if n <? 2 ^ 31 then TI32 else if n <? 2 ^ 63 then TI64 else TInt in
  let indefinite := h_info h =? 31 in
  if h_major h =? 0 then uint (h_arg h)
  else if h_major h =? 1 then sint (h_arg h)
  else if h_major h =? 2 then if indefinite then TBytesIndef else TBytes
  else if h_major h =? 3 then if indefinite then TStringIndef else TString
  else if h_major h =? 4 then if indefinite then TArrayIndef else TArray
  else if h_major h =? 5 then if indefinite then TMapIndef else TMap
  else if h_major h =? 6 then TTag
  else if (h_info h =? 20) || (h_info h =? 21) then TBool
  else if h_info h =? 22 then TNull else if h_info h =? 23 then TUndefined
  else if h_info h =? 25 then TF16 else if h_info h =? 26 then TF32
  else if h_info h =? 27 then TF64 else if indefinite then TBreak else TSimple.

(** The bytes an item's head and contents take, and how many items follow in it. *)
Definition item_size (b : bytes) : option (nat * Z) :=
  match dec_head b with
  | None => None
  | Some h =>
    if h_info h =? 31 then None
    else if (h_major h =? 2) || (h_major h =? 3) then
      if zlen b - Z.of_nat (h_len h) <? h_arg h then None
      else Some ((h_len h + Z.to_nat (h_arg h))%nat, 0)
    else if h_major h =? 4 then Some (h_len h, h_arg h)
    else if h_major h =? 5 then Some (h_len h, 2 * h_arg h)
    else if h_major h =? 6 then Some (h_len h, 1)
    else Some (h_len h, 0)
  end.

(** Skips [pending] items; each takes a byte at least, which bounds the fuel. *)
Fixpoint skip_items (fuel : nat) (pending : Z) (b : bytes) : option nat :=
  if pending =? 0 then Some O
  else
    match fuel, item_size b with
    | S fuel, Some (k, children) =>
      Nat.add k <$> skip_items fuel (children + (pending - 1)) (drop k b)
    | _, _ => None
    end.
Definition ref_skip : reader unit := fun b => (pair tt) <$> skip_items (length b) 1 b.

#[export] Instance reference_cbor : Cbor := {|
  d_datatype b := ref_type <$> dec_head b;
  d_bool b := match dec_head b with
              | Some h => if (h_major h =? 7) && ((h_info h =? 20) || (h_info h =? 21))
                          then Some (h_info h =? 21, h_len h) else None
              | None => None end;
  d_null := ref_simple 22; d_undefined := ref_simple 23;
  d_u8 := ref_uint (2 ^ 8); d_u16 := ref_uint (2 ^ 16);
  d_u32 := ref_uint (2 ^ 32); d_u64 := ref_uint (2 ^ 64);
  d_i8 := ref_sint (2 ^ 7); d_i16 := ref_sint (2 ^ 15);
  d_i32 := ref_sint (2 ^ 31); d_i64 := ref_sint (2 ^ 63);
  d_int := ref_sint (2 ^ 64);
  d_simple b := definite 7 b;
  d_bytes := ref_chunk 2; d_str := ref_str;
  d_tag b := definite 6 b;
  d_array := ref_length 4; d_map := ref_length 5;
  d_skip := ref_skip;
  e_bool x := [zb (if x then 0xf5 else 0xf4)];
  e_null := [zb 0xf6]; e_undefined := [zb 0xf7];
  e_u8 := enc_head 0; e_u16 := enc_head 0; e_u32 := enc_head 0; e_u64 := enc_head 0;
  e_i8 := enc_sint; e_i16 := enc_sint; e_i32 := enc_sint; e_i64 := enc_sint; e_int := enc_sint;
  e_simple n := Some (enc_head 7 n);
  e_bytes x := enc_head 2 (zlen x) ++ x;
  e_str s := enc_head 3 (slen s) ++ bytes_of s;
  e_tag := enc_head 6; e_array := enc_head 4; e_map := enc_head 5;
|}.

(** ** Its laws *)
Lemma ref_uint_head limit n rest :
  limit <= 2 ^ 64 -> 0 <= n < limit ->
  ref_uint limit (enc_head 0 n ++ rest) = Some (n, length (enc_head 0 n)).
Proof.
  intros. unfold ref_uint. rewrite definite_enc_head by lia. by rewrite (proj2 (Z.ltb_lt _ _)) by lia.
Qed.

Lemma ref_chunk_head major c rest :
  0 <= major < 8 -> zlen c < 2 ^ 64 ->
  ref_chunk major ((enc_head major (zlen c) ++ c) ++ rest) =
  Some (c, length (enc_head major (zlen c) ++ c)).
Proof.
  intros Hm Hc. pose proof (zlen_nonneg c). unfold ref_chunk.
  rewrite <- app_assoc, definite_enc_head by lia. rewrite !zlen_app.
  rewrite (proj2 (Z.ltb_ge _ _)) by (pose proof (zlen_nonneg rest); unfold zlen in *; lia).
  rewrite drop_app_length. replace (Z.to_nat (zlen c)) with (length c) by (unfold zlen; lia).
  by rewrite take_app_length, length_app.
Qed.

Lemma ref_length_head major n rest :
  0 <= major < 8 -> 0 <= n < 2 ^ 64 ->
  ref_length major (enc_head major n ++ rest) = Some (Some n, length (enc_head major n)).
Proof.
  intros. unfold ref_length. rewrite dec_enc_head by done. cbn [h_major h_info h_arg h_len].
  pose proof (head_info_range n). by rewrite Z.eqb_refl, (proj2 (Z.eqb_neq _ 31)) by lia.
Qed.

Lemma ref_length_range major b n k : ref_length major b = Some (Some n, k) -> 0 <= n < 2 ^ 64.
Proof.
  unfold ref_length. destruct (dec_head b) as [h|] eqn:Hh; [|done]. apply dec_head_range in Hh.
  destruct (_ =? major); [|done]. destruct (_ =? 31); [done|]. intros [= <- <-]. apply Hh.
Qed.

Lemma ref_uint_range limit b n k : ref_uint limit b = Some (n, k) -> 0 <= n < limit.
Proof.
  unfold ref_uint, definite. destruct (dec_head b) as [h|] eqn:Hh; [|done]. apply dec_head_range in Hh.
  destruct (_ && _); [|done]. destruct (Z.ltb_spec (h_arg h) limit); [|done]. intros [= <- <-]. lia.
Qed.

Lemma enc_head_length major n : (1 <= length (enc_head major n))%nat.
Proof. unfold enc_head. cbn. lia. Qed.

Lemma item_size_bounds b k c : item_size b = Some (k, c) -> (1 <= k <= length b)%nat /\ 0 <= c.
Proof.
  unfold item_size. destruct (dec_head b) as [h|] eqn:Hh; [|done]. apply dec_head_range in Hh.
  destruct (_ =? 31); [done|]. destruct (_ || _).
  - destruct (Z.ltb_spec (zlen b - Z.of_nat (h_len h)) (h_arg h)); [done|]. intros [= <- <-].
    unfold zlen in *. lia.
  - repeat match goal with |- context [if ?c then _ else _] => destruct c end;
      intros; simplify_eq; lia.
Qed.

Lemma item_size_app b r k c : item_size b = Some (k, c) -> item_size (b ++ r) = Some (k, c).
Proof.
  unfold item_size. destruct (dec_head b) as [h|] eqn:Hh; [|done]. rewrite (dec_head_app _ _ _ Hh).
  destruct (_ =? 31); [done|]. destruct (_ || _); [|done]. rewrite zlen_app.
  pose proof (zlen_nonneg r). destruct (Z.ltb_spec (zlen b - Z.of_nat (h_len h)) (h_arg h)); [done|].
  by rewrite (proj2 (Z.ltb_ge _ _)) by lia.
Qed.

Lemma item_size_cut b r k c :
  item_size (b ++ r) = Some (k, c) -> (k <= length b)%nat -> item_size b = Some (k, c).
Proof.
  unfold item_size. destruct (dec_head (b ++ r)) as [h|] eqn:Hh; [|done].
  intros Hs Hk. assert (Hl : (h_len h <= length b)%nat).
  { pose proof (dec_head_range _ _ Hh). destruct (_ =? 31); [done|].
    repeat match type of Hs with context [if ?c then _ else _] => destruct c end;
      simplify_eq; lia. }
  rewrite (dec_head_cut _ _ _ Hh Hl). destruct (_ =? 31); [done|]. destruct (_ || _); [|done].
  destruct (Z.ltb_spec (zlen (b ++ r) - Z.of_nat (h_len h)) (h_arg h)); [done|].
  injection Hs as <- <-. pose proof (dec_head_range _ _ Hh).
  by rewrite (proj2 (Z.ltb_ge _ _)) by (unfold zlen; lia).
Qed.

Lemma skip_items_bounded fuel p b n : skip_items fuel p b = Some n -> (n <= length b)%nat.
Proof.
  revert p b n. induction fuel as [|fuel IH]; intros p b n; cbn; (destruct (p =? 0); [intros [= <-]; lia|]);
    [done|].
  destruct (item_size b) as [[k c]|] eqn:Hk; [|done]. apply item_size_bounds in Hk.
  intros (m & Hm & ->)%fmap_Some. apply IH in Hm. rewrite length_drop in Hm. lia.
Qed.

(** Skipping looks only at what it skips, and needs a unit of fuel per byte. *)
Lemma skip_items_app fuel fuel' p b r n :
  skip_items fuel p b = Some n -> (n <= fuel')%nat -> skip_items fuel' p (b ++ r) = Some n.
Proof.
  revert fuel' p b n. induction fuel as [|fuel IH]; intros fuel' p b n; cbn.
  - destruct (p =? 0) eqn:Hp; [|done]. intros [= <-] _. destruct fuel'; cbn; by rewrite Hp.
  - destruct (p =? 0) eqn:Hp; [intros [= <-] _; destruct fuel'; cbn; by rewrite Hp|].
    destruct (item_size b) as [[k c]|] eqn:Hk; [|done].
    intros (m & Hm & ->)%fmap_Some Hf. pose proof (item_size_bounds _ _ _ Hk).
    destruct fuel' as [|fuel']; [lia|]. cbn. rewrite Hp, (item_size_app _ _ _ _ Hk).
    rewrite drop_app_le by lia. rewrite (IH fuel' _ _ m Hm) by lia. done.
Qed.

Lemma skip_items_cut fuel p b r n :
  skip_items fuel p (b ++ r) = Some n -> (n <= length b)%nat -> skip_items fuel p b = Some n.
Proof.
  revert p b n. induction fuel as [|fuel IH]; intros p b n; cbn; destruct (p =? 0); try done.
  destruct (item_size (b ++ r)) as [[k c]|] eqn:Hk; [|done].
  intros (m & Hm & ->)%fmap_Some Hl. pose proof (item_size_bounds _ _ _ Hk).
  rewrite (item_size_cut _ _ _ _ Hk) by lia. rewrite drop_app_le in Hm by lia.
  rewrite (IH _ _ m Hm) by (rewrite length_drop; lia). done.
Qed.

Lemma ref_skip_local b r : ref_skip (b ++ r) = Some (tt, length b) <-> ref_skip b = Some (tt, length b).
Proof.
  assert (Hiff : forall o k, (pair tt <$> o : option (unit * nat)) = Some (tt, k) <-> o = Some k).
  { intros [o|] k; cbn; naive_solver. }
  unfold ref_skip. rewrite !Hiff. split; intros Hn.
  - apply skip_items_cut in Hn; [|lia].
    pose proof (skip_items_app _ (length b) _ _ [] _ Hn ltac:(lia)) as Hs.
    by rewrite app_nil_r in Hs.
  - eapply skip_items_app; [exact Hn|]. rewrite length_app. lia.
Qed.

#[export] Instance reference_cbor_laws : CborLaws.
Proof.
  split; unfold reads; cbn [d_u8 d_u32 d_u64 d_bytes d_str d_array d_map d_skip e_u8 e_u32 e_u64
    e_bytes e_str e_array e_map reference_cbor]; intros.
  - by apply ref_uint_head.
  - apply ref_uint_head; lia.
  - by apply ref_uint_head.
  - by apply ref_uint_head.
  - by apply ref_chunk_head.
  - unfold ref_str, slen in *. rewrite ref_chunk_head by lia. rewrite bool_decide_eq_true_2 by done.
    by rewrite string_of_bytes_of.
  - by apply ref_length_head.
  - by apply ref_length_head.
  - by eapply ref_uint_range.
  - by eapply ref_uint_range.
  - by eapply ref_length_range.
  - by eapply ref_length_range.
  - unfold ref_str in *. destruct (ref_chunk 3 b) as [[c j]|]; [|done]. case_bool_decide; [|done].
    simplify_eq. by rewrite bytes_of_string_of.
  - apply ref_skip_local.
  - unfold ref_skip in *. apply fmap_Some in H as (n & Hn & [= ->]). by eapply skip_items_bounded.
Qed.
