(* ===== verification/Codec.v ===== *)
(** * Codec: [crates/ladon-core/src/codec.rs]

    The vault payload and its deterministic CBOR form.  The decoder accepts
    exactly the encodings of well-formed payloads, [decode_payload_iff]. *)

From S2P Require Import Prelude Errors Utf8 Model Cbor CborReference.
Local Open Scope Z_scope.

Definition MAX_VAULT_PAYLOAD_BYTES : Z := 64 * 1024 * 1024.
Definition MAX_RECORDS : Z := 10000.
Definition DEFAULT_IDLE_TIMEOUT_SECONDS : Z := 30 * 60.

(** [struct VaultPayload]; a [BTreeMap] is its entries in the order of their keys. *)
Record VaultPayload := {
  vault_id : SecretId;
  revision : Z;
  records : list SecretRecord;
  idle_timeout_seconds : Z;
  unknown : list (Z * bytes);
}.

#[export] Instance VaultPayload_eq_dec : EqDecision VaultPayload.
Proof. solve_decision. Defined.

(** The traversal of [VaultPayload::new]:
    [any(|record| !ids.insert(record.id()) || !names.insert(record.name()))]. *)
Fixpoint any_collision (ids : gset SecretId) (names : gset string) (l : list SecretRecord) : bool :=
  match l with
  | [] => false
  | r :: l =>
    bool_decide (record_id r ∈ ids) || bool_decide (record_name r ∈ names)
    || any_collision ({[record_id r]} ∪ ids) ({[record_name r]} ∪ names) l
  end.

(** [VaultPayload::new]. *)
Definition VaultPayload_new (id : SecretId) (rev : Z) (l : list SecretRecord) :
  LResult VaultPayload :=
  if MAX_RECORDS <? zlen l then Err InvalidVaultPayload
  else if any_collision ∅ ∅ l then Err InvalidVaultPayload
  else Ok {| vault_id := id; revision := rev; records := l;
             idle_timeout_seconds := DEFAULT_IDLE_TIMEOUT_SECONDS; unknown := [] |}.

Definition with_records (p : VaultPayload) (l : list SecretRecord) : VaultPayload :=
  {| vault_id := vault_id p; revision := revision p; records := l;
     idle_timeout_seconds := idle_timeout_seconds p; unknown := unknown p |}.

(** [VaultPayload::increment_revision]. *)
Definition increment_revision (p : VaultPayload) : LResult VaultPayload :=
  next ← ok_or (checked_add u64_max (revision p) 1) RevisionOverflow;
  Ok {| vault_id := vault_id p; revision := next; records := records p;
        idle_timeout_seconds := idle_timeout_seconds p; unknown := unknown p |}.

(** [BTreeMap::insert]. *)
Fixpoint btree_insert (k : Z) (v : bytes) (l : list (Z * bytes)) : list (Z * bytes) :=
  match l with
  | [] => [(k, v)]
  | (k', v') :: l' =>
    if k <? k' then (k, v) :: l
    else if k =? k' then (k, v) :: l'
    else (k', v') :: btree_insert k v l'
  end.

(** [canonical_key_order]: shorter first, then byte by byte. *)
Fixpoint bytes_cmp (l r : bytes) : comparison :=
  match l, r with
  | [], [] => Eq
  | [], _ => Lt
  | _, [] => Gt
  | x :: l, y :: r => match bz x ?= bz y with Eq => bytes_cmp l r | c => c end
  end.
Definition canonical_key_order (left right : bytes) : comparison :=
  match zlen left ?= zlen right with Eq => bytes_cmp left right | c => c end.

Section codec.
Context `{TextCrates, Cbor}.

(** ** Encoding *)

(** The body of the loop over the fields in [encode_record]. *)
Definition encode_field (f : SecretField) : bytes :=
  e_map 3 ++ e_u8 0 ++ e_str (field_name f) ++ e_u8 1 ++ e_bytes (field_value f) ++ e_u8 2 ++
  e_u8 (match field_hint f with Binary => 0 | Text => 1 end).

(** [encode_record]. *)
Definition encode_record (r : SecretRecord) : bytes :=
  e_map 3 ++ e_u8 0 ++ e_bytes (id_as_bytes (record_id r)) ++ e_u8 1 ++ e_str (record_name r) ++
  e_u8 2 ++ e_array (zlen (record_fields r)) ++ flat_map encode_field (record_fields r).

(** The bytes [encode_payload] writes before it looks at their number. *)
Definition payload_bytes (p : VaultPayload) : bytes :=
  e_map (4 + zlen (unknown p)) ++ e_u8 0 ++ e_bytes (id_as_bytes (vault_id p)) ++
  e_u8 1 ++ e_u64 (revision p) ++ e_u8 2 ++ e_array (zlen (records p)) ++
  flat_map encode_record (records p) ++
  e_u8 3 ++ e_map 1 ++ e_u8 0 ++ e_u32 (idle_timeout_seconds p) ++
  flat_map (fun kv => e_u64 kv.1 ++ kv.2) (unknown p).

(** [encode_payload]. *)
Definition encode_payload (p : VaultPayload) : LResult bytes :=
  let encoded := payload_bytes p in
  if MAX_VAULT_PAYLOAD_BYTES <? zlen encoded then Err VaultPayloadTooLarge else Ok encoded.

(** ** Canonical form of the values under unknown keys

    The state is the unread input and the output so far. *)
Definition Canon : Type := bytes -> bytes -> LResult (bytes * bytes).

(** A decoder method followed by the encoder method of the same type. *)
Definition recode {A} (d : reader A) (e : A -> option bytes) : Canon := fun b out =>
  '(v, rest) ← read d b;
  s ← ok_or (e v) InvalidVaultPayload;
  Ok (rest, out ++ s).

(** [for _ in 0..length { canonicalize_item(..)? }]. *)
Fixpoint canon_array (item : Canon) (n : nat) : Canon := fun b out =>
  match n with
  | O => Ok (b, out)
  | S n => '(b, out) ← item b out; canon_array item n b out
  end.

(** The loop over the entries of a map, with [previous_key]. *)
Fixpoint canon_map (item : Canon) (n : nat) (previous_key : option bytes) : Canon := fun b out =>
  match n with
  | O => Ok (b, out)
  | S n =>
    '(b, out') ← item b out;
    let current_key := drop (length out) out' in
    if match previous_key with
       | Some previous =>
         match canonical_key_order previous current_key with Lt => false | _ => true end
       | None => false end
    then Err InvalidVaultPayload
    else '(b, out'') ← item b out'; canon_map item n (Some current_key) b out''
  end.

(** [canonicalize_item]; [deeper] is sixteen less the depth. *)
Fixpoint canonicalize_item (levels : nat) : Canon := fun b out =>
  match levels with
  | O => Err InvalidVaultPayload
  | S deeper =>
    data_type ← ok_or (d_datatype b) InvalidVaultPayload;
    match data_type with
    | TBool => recode d_bool (Some ∘ e_bool) b out
    | TNull => recode d_null (fun _ => Some e_null) b out
    | TUndefined => recode d_undefined (fun _ => Some e_undefined) b out
    | TU8 => recode d_u8 (Some ∘ e_u8) b out
    | TU16 => recode d_u16 (Some ∘ e_u16) b out
    | TU32 => recode d_u32 (Some ∘ e_u32) b out
    | TU64 => recode d_u64 (Some ∘ e_u64) b out
    | TI8 => recode d_i8 (Some ∘ e_i8) b out
    | TI16 => recode d_i16 (Some ∘ e_i16) b out
    | TI32 => recode d_i32 (Some ∘ e_i32) b out
    | TI64 => recode d_i64 (Some ∘ e_i64) b out
    | TInt => recode d_int (Some ∘ e_int) b out
    | TSimple => recode d_simple e_simple b out
    | TBytes => recode d_bytes (Some ∘ e_bytes) b out
    | TString => recode d_str (Some ∘ e_str) b out
    | TTag =>
      '(b, out) ← recode d_tag (Some ∘ e_tag) b out;
      canonicalize_item deeper b out
    | TArray =>
      '(length, b) ← read d_array b;
      length ← ok_or length InvalidVaultPayload;
      if zlen b <? length then Err InvalidVaultPayload
      else canon_array (canonicalize_item deeper) (Z.to_nat length) b (out ++ e_array length)
    | TMap =>
      '(length, b) ← read d_map b;
      length ← ok_or length InvalidVaultPayload;
      if zlen b / 2 <? length then Err InvalidVaultPayload
      else canon_map (canonicalize_item deeper) (Z.to_nat length) None b (out ++ e_map length)
    | TF16 | TF32 | TF64 | TBytesIndef | TStringIndef | TArrayIndef | TMapIndef | TBreak
    | TUnknown _ => Err InvalidVaultPayload
    end
  end.

(** [is_canonical_unknown_value]. *)
Definition is_canonical_unknown_value (input : bytes) : bool :=
  match canonicalize_item 16 input [] with
  | Ok (rest, canonical) => bool_decide (rest = []) && bool_decide (canonical = input)
  | Err _ => false
  end.

(** ** Decoding *)

(** [definite_len]: a [u64] always fits a [usize]. *)
Definition definite_len (d : reader (option Z)) (maximum : Z) : Decode Z :=
  length ← read d;
  length ← lift (ok_or length InvalidVaultPayload);
  if maximum <? length then lift (Err InvalidVaultPayload) else mret length.

(** [if decoder.u8().ok() != Some(key) { return Err(..) }]. *)
Definition expect_u8 (key : Z) : Decode unit :=
  k ← read d_u8; if k =? key then mret tt else lift (Err InvalidVaultPayload).

(** [definite_len(decoder.map(), n)? != n]. *)
Definition expect_map (n : Z) : Decode unit :=
  k ← definite_len d_map n; if k =? n then mret tt else lift (Err InvalidVaultPayload).

(** [decode_id]. *)
Definition decode_id : Decode SecretId :=
  b ← read d_bytes;
  if bool_decide (length b = 16%nat) then mret (id_from_bytes b) else lift (Err InvalidVaultPayload).

(** [decode_settings]. *)
Definition decode_settings : Decode Z :=
  _ ← expect_map 1; _ ← expect_u8 0; read d_u32.

(** [decode_field]. *)
Definition decode_field : Decode SecretField :=
  _ ← expect_map 3;
  _ ← expect_u8 0;
  name ← read d_str;
  name ← lift (map_err InvalidVaultPayload (FieldName_parse name));
  _ ← expect_u8 1;
  value ← read d_bytes;
  _ ← expect_u8 2;
  hint ← read d_u8;
  text_hint ← lift (if hint =? 0 then Ok Binary else if hint =? 1 then Ok Text
                    else Err InvalidVaultPayload);
  lift (map_err InvalidVaultPayload (SecretField_new name value text_hint)).

(** [decode_record]. *)
Definition decode_record : Decode SecretRecord :=
  _ ← expect_map 3;
  _ ← expect_u8 0;
  id ← decode_id;
  _ ← expect_u8 1;
  name ← read d_str;
  _ ← expect_u8 2;
  field_count ← definite_len d_array MAX_FIELDS_PER_RECORD;
  _ ← lift (reject_if (field_count =? 0) InvalidVaultPayload);
  fields ← times (Z.to_nat field_count) decode_field;
  lift (map_err InvalidVaultPayload (from_parts id name fields)).

(** [decode_records]. *)
Definition decode_records : Decode (list SecretRecord) :=
  count ← definite_len d_array MAX_RECORDS;
  times (Z.to_nat count) decode_record.

(** [let start = decoder.position(); decoder.skip()?; &input[start..decoder.position()]]. *)
Definition decode_raw : Decode bytes := fun b =>
  '(_, rest) ← read d_skip b;
  Ok (take (length b - length rest) b, rest).

(** The local variables of [decode_payload]. *)
Record slots := {
  slot_id : option SecretId;
  slot_revision : option Z;
  slot_records : option (list SecretRecord);
  slot_idle : option Z;
  slot_unknown : list (Z * bytes);
  previous_key : option Z;
}.
Definition no_slots : slots :=
  {| slot_id := None; slot_revision := None; slot_records := None; slot_idle := None;
     slot_unknown := []; previous_key := None |}.

(** One entry of the payload's map. *)
Definition decode_entry (s : slots) : Decode slots :=
  key ← read d_u64;
  _ ← lift (reject_if (match previous_key s with Some p => key <=? p | None => false end)
              InvalidVaultPayload);
  let 'Build_slots i r l t u _ := s in
  if (key =? 0) && bool_decide (i = None) then
    id ← decode_id; mret (Build_slots (Some id) r l t u (Some key))
  else if (key =? 1) && bool_decide (r = None) then
    rev ← read d_u64; mret (Build_slots i (Some rev) l t u (Some key))
  else if (key =? 2) && bool_decide (l = None) then
    rs ← decode_records; mret (Build_slots i r (Some rs) t u (Some key))
  else if (key =? 3) && bool_decide (t = None) then
    idle ← decode_settings; mret (Build_slots i r l (Some idle) u (Some key))
  else if key <=? 3 then lift (Err InvalidVaultPayload)
  else
    raw ← decode_raw;
    _ ← lift (reject_if (negb (is_canonical_unknown_value raw)) InvalidVaultPayload);
    mret (Build_slots i r l t (btree_insert key raw u) (Some key)).

Fixpoint decode_entries (n : nat) (s : slots) : Decode slots :=
  match n with
  | O => mret s
  | S n => s ← decode_entry s; decode_entries n s
  end.

(** What [decode_payload] builds from its local variables. *)
Definition payload_of_slots (s : slots) : LResult VaultPayload :=
  id ← ok_or (slot_id s) InvalidVaultPayload;
  rev ← ok_or (slot_revision s) InvalidVaultPayload;
  rs ← ok_or (slot_records s) InvalidVaultPayload;
  p ← VaultPayload_new id rev rs;
  idle ← ok_or (slot_idle s) InvalidVaultPayload;
  Ok {| vault_id := vault_id p; revision := revision p; records := records p;
        idle_timeout_seconds := idle; unknown := slot_unknown s |}.

(** [decode_payload]. *)
Definition decode_payload (input : bytes) : LResult VaultPayload :=
  if MAX_VAULT_PAYLOAD_BYTES <? zlen input then Err VaultPayloadTooLarge
  else
    '(entries, rest) ← definite_len d_map (4 + MAX_RECORDS) input;
    '(s, rest) ← decode_entries (Z.to_nat entries) no_slots rest;
    _ ← reject_if (negb (bool_decide (rest = []))) InvalidVaultPayload;
    payload ← payload_of_slots s;
    encoded ← encode_payload payload;
    if bool_decide (encoded = input) then Ok payload else Err InvalidVaultPayload.
End codec.

(** ** Well-formed payloads *)
Lemma any_collision_repeated ids names l :
  any_collision ids names l =
  any_repeated ids (record_id <$> l) || any_repeated names (record_name <$> l).
Proof.
  revert ids names. induction l as [|r l IH]; intros ids names; [done|].
  cbn [any_collision fmap list_fmap any_repeated]. rewrite IH.
  destruct (bool_decide (record_id r ∈ ids)), (bool_decide (record_name r ∈ names));
    cbn; rewrite ?orb_true_r; done.
Qed.

Lemma any_collision_NoDup l :
  any_collision ∅ ∅ l = false <-> NoDup (record_id <$> l) /\ NoDup (record_name <$> l).
Proof. by rewrite any_collision_repeated, orb_false_iff, !any_repeated_NoDup. Qed.

Section well_formed.
Context `{TextCrates, Cbor}.

Definition key_le (a b : Z * bytes) : Prop := a.1 < b.1.

(** A record as a Rust value can hold it: its name is a string. *)
Definition stored_record_wf (r : SecretRecord) : Prop :=
  record_wf r /\ valid_utf8 (bytes_of (record_name r)).

(** A value kept for an unknown key: one canonical item. *)
Definition unknown_wf (kv : Z * bytes) : Prop :=
  4 <= kv.1 < 2 ^ 64 /\ d_skip kv.2 = Some (tt, length kv.2) /\
  is_canonical_unknown_value kv.2 = true.

(** What every payload in memory satisfies. *)
Record payload_wf (p : VaultPayload) : Prop := {
  pwf_id : uuid_wf (vault_id p);
  pwf_revision : 0 <= revision p < 2 ^ 64;
  pwf_count : zlen (records p) <= MAX_RECORDS;
  pwf_ids : NoDup (record_id <$> records p);
  pwf_names : NoDup (record_name <$> records p);
  pwf_records : Forall stored_record_wf (records p);
  pwf_idle : 0 <= idle_timeout_seconds p < 2 ^ 32;
  pwf_unknown : Forall unknown_wf (unknown p);
  pwf_sorted : StronglySorted key_le (unknown p);
  pwf_unknown_count : zlen (unknown p) <= MAX_RECORDS;
}.

Lemma VaultPayload_new_Ok id rev l p :
  VaultPayload_new id rev l = Ok p <->
  zlen l <= MAX_RECORDS /\ NoDup (record_id <$> l) /\ NoDup (record_name <$> l) /\
  p = {| vault_id := id; revision := rev; records := l;
         idle_timeout_seconds := DEFAULT_IDLE_TIMEOUT_SECONDS; unknown := [] |}.
Proof.
  unfold VaultPayload_new. destruct (Z.ltb_spec MAX_RECORDS (zlen l)); [split; [done|lia]|].
  destruct (any_collision ∅ ∅ l) eqn:Hc.
  - split; [done|]. intros (_ & Hi & Hn & _).
    rewrite (proj2 (any_collision_NoDup l)) in Hc by done. done.
  - apply any_collision_NoDup in Hc. naive_solver.
Qed.

Lemma VaultPayload_new_wf id rev l p :
  uuid_wf id -> 0 <= rev < 2 ^ 64 -> Forall stored_record_wf l ->
  VaultPayload_new id rev l = Ok p -> payload_wf p.
Proof.
  intros ? ? ? (? & ? & ? & ->)%VaultPayload_new_Ok.
  constructor; cbn; try done; try constructor; done.
Qed.

Lemma increment_revision_Ok p q :
  increment_revision p = Ok q <->
  revision p < u64_max /\
  q = {| vault_id := vault_id p; revision := revision p + 1; records := records p;
         idle_timeout_seconds := idle_timeout_seconds p; unknown := unknown p |}.
Proof.
  unfold increment_revision. destruct (checked_add u64_max (revision p) 1) as [n|] eqn:Hc; cbn.
  - apply checked_add_Some in Hc as [-> ?]. split; [intros [= <-]; split; [lia|done]|].
    by intros [_ ->].
  - apply checked_add_None in Hc. split; [done|]. lia.
Qed.

Lemma increment_revision_wf p q : payload_wf p -> increment_revision p = Ok q -> payload_wf q.
Proof.
  intros [] [? ->]%increment_revision_Ok. unfold u64_max in *. constructor; cbn; try done. lia.
Qed.

(** ** Encoding and decoding the parts *)
Context `{!TextCratesLaws, !CborLaws}.

Lemma parses_definite_len (d : reader (option Z)) e n maximum :
  reads d e (Some n) -> n <= maximum -> parses (definite_len d maximum) e n.
Proof.
  intros Hr Hn. apply parses_end, parses_bind with (Some n); [by apply parses_read|].
  apply parses_lift with n; [done|]. rewrite (proj2 (Z.ltb_ge _ _)) by lia. apply parses_ret.
Qed.

Lemma parses_expect_u8 k : 0 <= k < 2 ^ 8 -> parses (expect_u8 k) (e_u8 k) tt.
Proof.
  intros Hk. apply parses_end, parses_bind with k; [by apply parses_read, u8_u8|].
  rewrite Z.eqb_refl. apply parses_ret.
Qed.

Lemma parses_expect_map n : 0 <= n < 2 ^ 64 -> parses (expect_map n) (e_map n) tt.
Proof.
  intros Hn. apply parses_end, parses_bind with n.
  - apply parses_definite_len; [by apply map_map|lia].
  - rewrite Z.eqb_refl. apply parses_ret.
Qed.

Lemma parses_decode_id id : uuid_wf id -> parses decode_id (e_bytes (id_as_bytes id)) id.
Proof.
  intros Hid. apply parses_end, parses_bind with (id_as_bytes id).
  - apply parses_read, bytes_bytes. unfold id_as_bytes, zlen. rewrite length_be_bytes. lia.
  - rewrite bool_decide_eq_true_2 by apply length_be_bytes.
    rewrite id_bytes_roundtrip by done. apply parses_ret.
Qed.

Lemma parses_decode_field f :
  field_wf f -> parses decode_field (encode_field f) f.
Proof.
  intros [Hn Hv]. unfold decode_field, encode_field, MAX_FIELD_BYTES in *.
  pose proof (field_name_valid _ Hn) as [Hutf Hlen].
  apply parses_bind with tt; [by apply parses_expect_map|].
  apply parses_bind with tt; [by apply parses_expect_u8|].
  apply parses_bind with (field_name f); [apply parses_read, str_str; [lia|done]|].
  apply parses_lift with (field_name f); [by rewrite Hn|].
  apply parses_bind with tt; [by apply parses_expect_u8|].
  apply parses_bind with (field_value f); [apply parses_read, bytes_bytes; lia|].
  apply parses_bind with tt; [by apply parses_expect_u8|].
  apply parses_end, parses_bind with (match field_hint f with Binary => 0 | Text => 1 end).
  { apply parses_read, u8_u8. destruct (field_hint f); lia. }
  apply parses_lift with (field_hint f); [by destruct (field_hint f)|].
  intros rest. apply lift_Ok. split; [|done]. unfold SecretField_new, MAX_FIELD_BYTES.
  rewrite (proj2 (Z.ltb_ge _ _)) by lia. by destruct f.
Qed.

Lemma parses_decode_record r :
  stored_record_wf r -> parses decode_record (encode_record r) r.
Proof.
  intros [Hr Hutf]. pose proof (from_parts_id r Hr) as Hid. destruct Hr as [Hu Hn Hne Hc Hd Hf].
  assert (slen (record_name r) <= 128).
  { apply SecretName_parse_Ok in Hn as (_ & Hl & _). unfold name_valid_length in Hl. by bool_hyps. }
  assert (0 < zlen (record_fields r)).
  { destruct (record_fields r); [done|]. rewrite zlen_cons. pose proof (zlen_nonneg l). lia. }
  unfold decode_record, encode_record, MAX_FIELDS_PER_RECORD in *.
  apply parses_bind with tt; [by apply parses_expect_map|].
  apply parses_bind with tt; [by apply parses_expect_u8|].
  apply parses_bind with (record_id r); [by apply parses_decode_id|].
  apply parses_bind with tt; [by apply parses_expect_u8|].
  apply parses_bind with (record_name r); [apply parses_read, str_str; [lia|done]|].
  apply parses_bind with tt; [by apply parses_expect_u8|].
  apply parses_bind with (zlen (record_fields r)).
  { apply parses_definite_len; [apply array_array|]; unfold MAX_FIELDS_PER_RECORD; lia. }
  apply parses_lift with tt; [by rewrite (proj2 (Z.eqb_neq _ _)) by lia|].
  apply parses_end, parses_bind with (record_fields r).
  { unfold zlen. rewrite Nat2Z.id. apply parses_times.
    eapply Forall_impl; [done|]. apply parses_decode_field. }
  intros rest. apply lift_Ok. by rewrite Hid.
Qed.

Lemma parses_decode_records l :
  zlen l <= MAX_RECORDS -> Forall stored_record_wf l ->
  parses decode_records (e_array (zlen l) ++ flat_map encode_record l) l.
Proof.
  intros Hl Hf. pose proof (zlen_nonneg l). unfold decode_records, MAX_RECORDS in *.
  apply parses_bind with (zlen l).
  { apply parses_definite_len; [apply array_array|]; lia. }
  unfold zlen. rewrite Nat2Z.id. apply parses_times.
  eapply Forall_impl; [done|]. apply parses_decode_record.
Qed.

Lemma parses_decode_settings idle :
  0 <= idle < 2 ^ 32 -> parses decode_settings (e_map 1 ++ e_u8 0 ++ e_u32 idle) idle.
Proof.
  intros Hi. apply parses_bind with tt; [by apply parses_expect_map|].
  apply parses_bind with tt; [by apply parses_expect_u8|]. by apply parses_read, u32_u32.
Qed.

Lemma parses_decode_raw v : d_skip v = Some (tt, length v) -> parses decode_raw v v.
Proof.
  intros Hv rest. unfold decode_raw. rewrite (read_reads _ _ tt).
  - cbn. rewrite length_app, Nat.add_sub. by rewrite take_app_length.
  - intros r. by apply skip_local.
Qed.

Lemma btree_insert_last k v u :
  Forall (fun kv => kv.1 < k) u -> btree_insert k v u = u ++ [(k, v)].
Proof.
  induction 1 as [|[k' v'] u Hk _ IH]; [done|]. cbn in *.
  rewrite (proj2 (Z.ltb_ge k k')), (proj2 (Z.eqb_neq k k')) by lia. by rewrite IH.
Qed.

(** The guards of an entry whose key follows those before it. *)
Lemma parses_entry_key (key : Z) e s (f : Z -> Decode slots) e' s' :
  reads d_u64 e key ->
  match previous_key s with Some p => p < key | None => True end ->
  parses (f key) e' s' ->
  parses (key ← read d_u64;
          _ ← lift (reject_if (match previous_key s with Some p => key <=? p | None => false end)
                      InvalidVaultPayload);
          f key) (e ++ e') s'.
Proof.
  intros Hr Hp Hf. apply parses_bind with key; [by apply parses_read|].
  apply parses_lift with tt; [|done].
  destruct (previous_key s); [by rewrite (proj2 (Z.leb_gt _ _)) by lia|done].
Qed.

Lemma parses_unknown_entry key v i r l t u p :
  unknown_wf (key, v) -> p < key -> Forall (fun kv => kv.1 < key) u ->
  parses (decode_entry (Build_slots i r l t u (Some p))) (e_u64 key ++ v)
    (Build_slots i r l t (u ++ [(key, v)]) (Some key)).
Proof.
  intros (Hk & Hs & Hc) Hp Hu. cbn [fst snd] in *.
  unfold decode_entry. apply (parses_entry_key key); [apply u64_u64; lia|done|].
  rewrite !(proj2 (Z.eqb_neq key _)) by lia. cbn [andb]. rewrite (proj2 (Z.leb_gt _ _)) by lia.
  apply parses_end, parses_bind with v; [by apply parses_decode_raw|].
  apply parses_lift with tt; [by rewrite Hc|]. rewrite btree_insert_last by done. apply parses_ret.
Qed.

Lemma parses_unknown_entries l : forall i r rs t u p,
  Forall unknown_wf l -> StronglySorted key_le (u ++ l) ->
  Forall (fun kv => p < kv.1) l ->
  exists p', parses (decode_entries (length l) (Build_slots i r rs t u (Some p)))
    (flat_map (fun kv => e_u64 kv.1 ++ kv.2) l) (Build_slots i r rs t (u ++ l) p').
Proof.
  induction l as [|[k v] l IH]; intros i r rs t u p Hwf Hs Hp; cbn.
  - rewrite app_nil_r. eexists. apply parses_ret.
  - apply Forall_cons in Hwf as [Hkv Hwf]. apply Forall_cons in Hp as [Hpk Hp]. cbn in Hpk.
    pose proof (proj1 (StronglySorted_app _ _ _) Hs) as (Hord & _ & [_ Hk]%StronglySorted_inv).
    assert (Hu : Forall (fun kv => kv.1 < k) u).
    { apply Forall_forall. intros x Hx. apply (Hord x (k, v)); [done|]. apply list_elem_of_here. }
    destruct (IH i r rs t (u ++ [(k, v)]) k) as [p' Hp']; [done| | |].
    + by rewrite <- app_assoc.
    + exact Hk.
    + exists p'. rewrite <- app_assoc in Hp'. apply parses_bind with (Build_slots i r rs t (u ++ [(k, v)]) (Some k)).
      * by apply parses_unknown_entry.
      * exact Hp'.
Qed.

(** The four entries every payload has. *)
Lemma parses_entry_id id r l t u : 
  uuid_wf id ->
  parses (decode_entry (Build_slots None r l t u None)) (e_u8 0 ++ e_bytes (id_as_bytes id))
    (Build_slots (Some id) r l t u (Some 0)).
Proof.
  intros. unfold decode_entry. apply (parses_entry_key 0); [by apply u64_u8|done|].
  apply parses_end, parses_bind with id; [by apply parses_decode_id|apply parses_ret].
Qed.

Lemma parses_entry_revision rev i l t u :
  0 <= rev < 2 ^ 64 ->
  parses (decode_entry (Build_slots i None l t u (Some 0))) (e_u8 1 ++ e_u64 rev)
    (Build_slots i (Some rev) l t u (Some 1)).
Proof.
  intros. unfold decode_entry. apply (parses_entry_key 1); [by apply u64_u8|done|].
  apply parses_end, parses_bind with rev; [by apply parses_read, u64_u64|apply parses_ret].
Qed.

Lemma parses_entry_records rs i r t u :
  zlen rs <= MAX_RECORDS -> Forall stored_record_wf rs ->
  parses (decode_entry (Build_slots i r None t u (Some 1)))
    (e_u8 2 ++ (e_array (zlen rs) ++ flat_map encode_record rs))
    (Build_slots i r (Some rs) t u (Some 2)).
Proof.
  intros. unfold decode_entry. apply (parses_entry_key 2); [by apply u64_u8|done|].
  apply parses_end, parses_bind with rs; [by apply parses_decode_records|apply parses_ret].
Qed.

Lemma parses_entry_settings idle i r l u :
  0 <= idle < 2 ^ 32 ->
  parses (decode_entry (Build_slots i r l None u (Some 2)))
    (e_u8 3 ++ (e_map 1 ++ e_u8 0 ++ e_u32 idle))
    (Build_slots i r l (Some idle) u (Some 3)).
Proof.
  intros. unfold decode_entry. apply (parses_entry_key 3); [by apply u64_u8|done|].
  apply parses_end, parses_bind with idle; [by apply parses_decode_settings|apply parses_ret].
Qed.

(** The bytes of a payload, entry by entry. *)
Lemma payload_bytes_entries p :
  payload_bytes p =
  e_map (4 + zlen (unknown p)) ++
  (e_u8 0 ++ e_bytes (id_as_bytes (vault_id p))) ++ (e_u8 1 ++ e_u64 (revision p)) ++
  (e_u8 2 ++ (e_array (zlen (records p)) ++ flat_map encode_record (records p))) ++
  (e_u8 3 ++ (e_map 1 ++ e_u8 0 ++ e_u32 (idle_timeout_seconds p))) ++
  flat_map (fun kv => e_u64 kv.1 ++ kv.2) (unknown p).
Proof. unfold payload_bytes. by rewrite <- !app_assoc. Qed.

Lemma parses_payload_entries p :
  payload_wf p ->
  exists k, forall rest,
    ('(entries, rest) ← definite_len d_map (4 + MAX_RECORDS) (payload_bytes p ++ rest);
     decode_entries (Z.to_nat entries) no_slots rest) =
    Ok (Build_slots (Some (vault_id p)) (Some (revision p)) (Some (records p))
          (Some (idle_timeout_seconds p)) (unknown p) k, rest).
Proof.
  intros []. pose proof (zlen_nonneg (unknown p)).
  destruct (parses_unknown_entries (unknown p) (Some (vault_id p)) (Some (revision p))
    (Some (records p)) (Some (idle_timeout_seconds p)) [] 3) as [k Hk]; [done|done| |].
  { eapply Forall_impl; [done|]. intros kv [? _]. lia. }
  exists k. intros rest. rewrite payload_bytes_entries, <- app_assoc.
  rewrite (parses_definite_len d_map _ (4 + zlen (unknown p)));
    [|apply map_map; unfold MAX_RECORDS in *; lia|unfold MAX_RECORDS in *; lia].
  cbn [mbind result_bind]. replace (Z.to_nat _) with (4 + length (unknown p))%nat
    by (unfold zlen; lia).
  cbn [Nat.add decode_entries].
  refine (parses_bind _ _ _ _ _ _ (parses_entry_id _ _ _ _ _ _) _ rest); [done|].
  apply parses_bind with (1 := parses_entry_revision _ _ _ _ _ pwf_revision0).
  apply parses_bind with (1 := parses_entry_records _ _ _ _ _ pwf_count0 pwf_records0).
  apply parses_bind with (1 := parses_entry_settings _ _ _ _ _ pwf_idle0).
  exact Hk.
Qed.

(** Decoding inverts encoding. *)
Lemma decode_encode p bs : payload_wf p -> encode_payload p = Ok bs -> decode_payload bs = Ok p.
Proof.
  intros Hwf He. assert (Hb : bs = payload_bytes p /\ zlen bs <= MAX_VAULT_PAYLOAD_BYTES).
  { unfold encode_payload in He. inv_ok. bool_hyps. done. }
  destruct Hb as [Hb Hlen]. unfold decode_payload. rewrite (proj2 (Z.ltb_ge _ _)) by done.
  destruct (parses_payload_entries p Hwf) as [k Hk]. specialize (Hk []).
  rewrite app_nil_r, <- Hb in Hk.
  destruct (definite_len d_map (4 + MAX_RECORDS) bs) as [[entries rest]|]; [|done].
  cbn [mbind result_bind] in *. rewrite Hk. cbn [mbind result_bind].
  rewrite bool_decide_eq_true_2 by done. cbn [negb reject_if mbind result_bind].
  unfold payload_of_slots. cbn [slot_id slot_revision slot_records slot_idle slot_unknown ok_or mbind result_bind].
  rewrite (proj2 (VaultPayload_new_Ok _ _ _ _)) by (destruct Hwf; done).
  cbn [mbind result_bind vault_id revision records idle_timeout_seconds unknown].
  replace (Build_VaultPayload _ _ _ _ _) with p by by destruct p.
  rewrite He. cbn [mbind result_bind]. by rewrite bool_decide_eq_true_2.
Qed.

(** ** What the decoder lets through *)
Lemma decode_id_wf b id rest : decode_id b = Ok (id, rest) -> uuid_wf id.
Proof.
  unfold decode_id. intros. inv_decode. case_bool_decide as Hl; inv_decode.
  match goal with |- uuid_wf (id_from_bytes ?x) => pose proof (be_value_bound x) as Hv;
    unfold zlen in Hv; rewrite Hl in Hv end. exact Hv.
Qed.

Lemma decode_field_wf b f rest : decode_field b = Ok (f, rest) -> field_wf f.
Proof.
  unfold decode_field, SecretField_new. intros. inv_decode. bool_hyps.
  match goal with Hn : FieldName_parse _ = Ok _ |- _ => apply FieldName_parse_Ok in Hn as [-> ?] end.
  done.
Qed.

Lemma decode_record_wf b r rest :
  decode_record b = Ok (r, rest) -> stored_record_wf r.
Proof.
  unfold decode_record. intros Hd. inv_decode. split.
  - eapply from_parts_wf; [by eapply decode_id_wf| |done].
    eapply times_Forall; [|done]. apply decode_field_wf.
  - match goal with Hp : from_parts _ _ _ = Ok _ |- _ =>
      apply from_parts_Ok in Hp as (_ & _ & _ & (-> & _)%SecretName_parse_Ok & _) end.
    apply nfc_valid. by eapply str_valid.
Qed.

Lemma definite_len_Ok d maximum b n rest :
  definite_len d maximum b = Ok (n, rest) -> n <= maximum.
Proof. unfold definite_len. intros. inv_decode. case_match; inv_decode. bool_hyps. done. Qed.

Lemma decode_raw_Ok b v rest :
  decode_raw b = Ok (v, rest) -> d_skip v = Some (tt, length v).
Proof.
  unfold decode_raw. intros Hd. destruct (read d_skip b) as [[[] r]|] eqn:Hr; inv_ok.
  apply read_Ok in Hr as (n & Hn & ->). pose proof (skip_bounded _ _ Hn).
  rewrite length_drop. replace (length b - (length b - n))%nat with n by lia.
  apply (skip_local _ (drop n b)). rewrite take_drop, length_take, Nat.min_l by done. done.
Qed.

(** How many of the four known slots are filled. *)
Definition present {A} (o : option A) : Z := match o with Some _ => 1 | None => 0 end.
Definition filled (s : slots) : Z :=
  present (slot_id s) + present (slot_revision s) + present (slot_records s) +
  present (slot_idle s).

(** The loop invariant of [decode_payload] after [n] entries. *)
Record slots_wf (n : Z) (s : slots) : Prop := {
  swf_id id : slot_id s = Some id -> uuid_wf id;
  swf_revision rev : slot_revision s = Some rev -> 0 <= rev < 2 ^ 64;
  swf_records l : slot_records s = Some l -> Forall stored_record_wf l;
  swf_idle t : slot_idle s = Some t -> 0 <= t < 2 ^ 32;
  swf_unknown : Forall unknown_wf (slot_unknown s);
  swf_sorted : StronglySorted key_le (slot_unknown s);
  swf_previous kv : kv ∈ slot_unknown s -> exists p, previous_key s = Some p /\ kv.1 <= p;
  swf_filled : filled s + zlen (slot_unknown s) = n;
}.

Lemma decode_records_wf b l rest :
  decode_records b = Ok (l, rest) -> Forall stored_record_wf l.
Proof.
  unfold decode_records. intros. inv_decode. eapply times_Forall; [|done].
  intros. by eapply decode_record_wf.
Qed.

Lemma decode_settings_wf b t rest : decode_settings b = Ok (t, rest) -> 0 <= t < 2 ^ 32.
Proof. unfold decode_settings. intros. inv_decode. by eapply u32_range. Qed.

Lemma slots_wf_unknown n i r l t u p key b raw rest :
  slots_wf n (Build_slots i r l t u p) ->
  (forall kv, kv ∈ u -> kv.1 < key) -> 3 < key < 2 ^ 64 ->
  decode_raw b = Ok (raw, rest) -> is_canonical_unknown_value raw = true ->
  slots_wf (n + 1) (Build_slots i r l t (btree_insert key raw u) (Some key)).
Proof.
  intros [] Hlt Hkey Hraw Hc. cbn in *.
  assert (Hb : btree_insert key raw u = u ++ [(key, raw)]).
  { apply btree_insert_last, Forall_forall. exact Hlt. }
  rewrite Hb. constructor; cbn; try done.
  - apply Forall_app. split; [done|]. apply Forall_singleton. split_and!; cbn; [lia..| |done].
    by eapply decode_raw_Ok.
  - apply StronglySorted_app. split_and!; [|done|by repeat constructor].
    intros x y Hx ->%list_elem_of_singleton. by apply Hlt.
  - intros kv Hin. exists key. split; [done|].
    apply elem_of_app in Hin as [Hin| ->%list_elem_of_singleton]; cbn; [|lia].
    specialize (Hlt kv Hin). lia.
  - unfold filled in *. cbn in *. rewrite zlen_app, zlen_cons, zlen_nil. lia.
Qed.

Lemma decode_entry_wf n s b s' rest :
  slots_wf n s -> decode_entry s b = Ok (s', rest) -> slots_wf (n + 1) s'.
Proof.
  intros Hwf Hd. destruct s as [i r l t u p]. pose proof Hwf as []. unfold filled in *. cbn in *.
  unfold decode_entry in Hd. apply decode_bind_Ok in Hd as (key & mid & Hkey & Hd).
  apply read_Ok in Hkey as (k & Hkey & _). apply u64_range in Hkey.
  apply decode_bind_Ok in Hd as ([] & mid' & Hlift & Hd). cbn in Hlift.
  apply lift_Ok in Hlift as [Hp%reject_if_Ok ->].
  assert (Hlt : forall kv, kv ∈ u -> kv.1 < key).
  { intros kv Hin. destruct (swf_previous0 kv Hin) as (q & -> & ?). bool_hyps. lia. }
  assert (Hstep : forall kv, kv ∈ u -> exists q, Some key = Some q /\ kv.1 <= q).
  { intros kv Hin. exists key. split; [done|]. specialize (Hlt kv Hin). lia. }
  clear swf_previous0 Hp.
  destruct ((key =? 0) && _) eqn:E0; [|destruct ((key =? 1) && _) eqn:E1;
    [|destruct ((key =? 2) && _) eqn:E2; [|destruct ((key =? 3) && _) eqn:E3;
      [|destruct (key <=? 3) eqn:E4]]]]; bool_hyps; subst; inv_decode;
    [| | | |bool_hyps; eapply slots_wf_unknown; [exact Hwf|exact Hlt|lia|done|done]]; constructor; unfold filled; cbn; try done; try lia.
  - intros ? [= <-]. by eapply decode_id_wf.
  - intros ? [= <-]. by eapply u64_range.
  - intros ? [= <-]. by eapply decode_records_wf.
  - intros ? [= <-]. by eapply decode_settings_wf.
Qed.

Lemma decode_entries_wf k n s b s' rest :
  slots_wf n s -> decode_entries k s b = Ok (s', rest) -> slots_wf (n + Z.of_nat k) s'.
Proof.
  revert n s b. induction k as [|k IH]; intros n s b Hs Hd; cbn [decode_entries] in Hd.
  - inv_decode. by rewrite Z.add_0_r.
  - apply decode_bind_Ok in Hd as (s1 & mid & Hone & Hd). apply decode_entry_wf with (1 := Hs) in Hone.
    replace (n + Z.of_nat (S k)) with (n + 1 + Z.of_nat k) by lia. eauto.
Qed.

Lemma no_slots_wf : slots_wf 0 no_slots.
Proof. constructor; cbn; try done; try constructor. by intros kv ?%not_elem_of_nil. Qed.

Lemma decode_payload_wf bs p :
  decode_payload bs = Ok p -> payload_wf p /\ encode_payload p = Ok bs.
Proof.
  unfold decode_payload, payload_of_slots. intros Hd. inv_ok.
  destruct (definite_len d_map _ bs) as [[entries rest]|] eqn:Hlen; inv_ok.
  apply definite_len_Ok in Hlen.
  destruct (decode_entries _ no_slots rest) as [[s rest']|] eqn:He; inv_ok.
  apply decode_entries_wf with (1 := no_slots_wf) in He as [].
  inv_ok. bool_hyps. subst.
  match goal with Hn : VaultPayload_new _ _ _ = Ok _ |- _ =>
    apply VaultPayload_new_Ok in Hn as (? & ? & ? & ->) end.
  split; [|done]. unfold filled in *. destruct s; cbn in *; subst; cbn in *.
  constructor; cbn; eauto. unfold MAX_RECORDS in *. lia.
Qed.

(** C36. The decoder is exact: it accepts a byte string and answers a payload
    precisely when the payload is well formed and the string is its encoding.  So
    decoding inverts encoding, no other byte string stands for the same payload,
    and whatever is decoded has unique identifiers and names, valid records and
    canonical unknown entries. *)
Theorem decode_payload_iff bs p :
  decode_payload bs = Ok p <-> payload_wf p /\ encode_payload p = Ok bs.
Proof. split; [apply decode_payload_wf|]. intros [? ?]. by apply decode_encode. Qed.

Lemma decode_entry_too_many rs s tail :
  MAX_RECORDS < zlen rs < 2 ^ 64 -> previous_key s = Some 1 -> slot_records s = None ->
  decode_entry s ((e_u8 2 ++ (e_array (zlen rs) ++ flat_map encode_record rs)) ++ tail) =
  Err InvalidVaultPayload.
Proof.
  intros Hn Hp Hl. destruct s as [i r l t u p]. cbn in *. subst.
  unfold decode_entry, decode_records, definite_len. rewrite <- !app_assoc.
  eapply decode_bind_Err_r; [by apply parses_read, u64_u8|].
  eapply decode_bind_Err_r; [done|]. cbn [Z.eqb Pos.eqb andb bool_decide].
  apply decode_bind_Err_l, decode_bind_Err_l.
  eapply decode_bind_Err_r; [apply parses_read, array_array; unfold MAX_RECORDS in *; lia|].
  eapply decode_bind_Err_r; [done|]. by rewrite (proj2 (Z.ltb_lt _ _)) by lia.
Qed.

Lemma decode_too_many p bs :
  uuid_wf (vault_id p) -> 0 <= revision p < 2 ^ 64 -> zlen (unknown p) <= MAX_RECORDS ->
  MAX_RECORDS < zlen (records p) < 2 ^ 64 ->
  encode_payload p = Ok bs -> decode_payload bs = Err InvalidVaultPayload.
Proof.
  intros Hid Hrev Hu Hn He. assert (Hb : bs = payload_bytes p /\ zlen bs <= MAX_VAULT_PAYLOAD_BYTES).
  { unfold encode_payload in He. inv_ok. bool_hyps. done. }
  destruct Hb as [-> Hlen]. unfold decode_payload. rewrite (proj2 (Z.ltb_ge _ _)) by done.
  pose proof (zlen_nonneg (unknown p)). rewrite payload_bytes_entries.
  rewrite (parses_definite_len d_map _ (4 + zlen (unknown p)));
    [|apply map_map; unfold MAX_RECORDS in *; lia|unfold MAX_RECORDS in *; lia].
  cbn [mbind result_bind]. replace (Z.to_nat _) with (3 + S (length (unknown p)))%nat
    by (unfold zlen; lia).
  set (tail := (e_u8 0 ++ _) ++ _).
  assert (decode_entries (3 + S (length (unknown p))) no_slots tail = Err InvalidVaultPayload) as ->;
    [|done].
  unfold tail. cbn [Nat.add decode_entries].
  eapply decode_bind_Err_r; [by apply parses_entry_id|].
  eapply decode_bind_Err_r; [by apply parses_entry_revision|].
  apply decode_bind_Err_l. by apply decode_entry_too_many.
Qed.

(** The limit on the number of records is only checked when a payload is
    read: one with more records than [MAX_RECORDS] is encoded without complaint,
    and no decoder of this program can read it back. *)
Theorem encode_too_many_records p bs :
  uuid_wf (vault_id p) -> 0 <= revision p < 2 ^ 64 -> zlen (unknown p) <= MAX_RECORDS ->
  MAX_RECORDS < zlen (records p) < 2 ^ 64 ->
  encode_payload p = Ok bs -> decode_payload bs = Err InvalidVaultPayload.
Proof. apply decode_too_many. Qed.
End well_formed.

(** ** Canonical values *)
Section canonical.
Context `{Cbor}.

(** One scalar item, as the encoder writes it. *)
Inductive scalar_encoding : bytes -> Prop :=
| enc_bool b : scalar_encoding (e_bool b)
| enc_null : scalar_encoding e_null
| enc_undefined : scalar_encoding e_undefined
| enc_u8 n : scalar_encoding (e_u8 n)
| enc_u16 n : scalar_encoding (e_u16 n)
| enc_u32 n : scalar_encoding (e_u32 n)
| enc_u64 n : scalar_encoding (e_u64 n)
| enc_i8 n : scalar_encoding (e_i8 n)
| enc_i16 n : scalar_encoding (e_i16 n)
| enc_i32 n : scalar_encoding (e_i32 n)
| enc_i64 n : scalar_encoding (e_i64 n)
| enc_int n : scalar_encoding (e_int n)
| enc_simple n s : e_simple n = Some s -> scalar_encoding s
| enc_bytes b : scalar_encoding (e_bytes b)
| enc_str s : scalar_encoding (e_str s).

Definition key_lt (l r : bytes) : Prop := canonical_key_order l r = Lt.

(** Items of at most [levels] levels: scalars, tagged items, arrays of definite
    length, and maps of definite length with keys in strictly increasing order. *)
Inductive canonical_item : nat -> bytes -> Prop :=
| item_scalar levels s : scalar_encoding s -> canonical_item (S levels) s
| item_tag levels t v : canonical_item levels v -> canonical_item (S levels) (e_tag t ++ v)
| item_array levels n vs :
    n = zlen vs -> Forall (canonical_item levels) vs ->
    canonical_item (S levels) (e_array n ++ concat vs)
| item_map levels n kvs :
    n = zlen kvs -> Forall (canonical_item levels) kvs.*1 -> Forall (canonical_item levels) kvs.*2 ->
    StronglySorted key_lt kvs.*1 ->
    canonical_item (S levels) (e_map n ++ flat_map (fun kv => kv.1 ++ kv.2) kvs).

Lemma recode_Ok {A} (d : reader A) e b out rest out' :
  recode d e b out = Ok (rest, out') -> exists v s, e v = Some s /\ out' = out ++ s.
Proof. unfold recode. intros. inv_ok. destruct x as [v r]. inv_ok. eauto. Qed.

Lemma canon_array_sound (item : Canon) (P : bytes -> Prop) n : forall b out rest out',
  (forall b out rest out', item b out = Ok (rest, out') -> exists v, out' = out ++ v /\ P v) ->
  canon_array item n b out = Ok (rest, out') ->
  exists vs, length vs = n /\ out' = out ++ concat vs /\ Forall P vs.
Proof.
  induction n as [|n IH]; intros b out rest out' Hitem Hc; cbn in Hc.
  - inv_ok. exists []. cbn. by rewrite app_nil_r.
  - destruct (item b out) as [[b1 out1]|] eqn:Hi; [|done]. apply Hitem in Hi as (v & -> & Hv).
    apply IH in Hc as (vs & <- & -> & Hvs); [|done]. exists (v :: vs). cbn.
    rewrite <- app_assoc. auto.
Qed.

Lemma canon_map_sound (item : Canon) (P : bytes -> Prop) n : forall prev b out rest out',
  (forall b out rest out', item b out = Ok (rest, out') -> exists v, out' = out ++ v /\ P v) ->
  canon_map item n prev b out = Ok (rest, out') ->
  exists kvs, length kvs = n /\ out' = out ++ flat_map (fun kv => kv.1 ++ kv.2) kvs /\
    Forall P kvs.*1 /\ Forall P kvs.*2 /\ Sorted key_lt kvs.*1 /\
    (forall p, prev = Some p -> HdRel key_lt p kvs.*1).
Proof.
  induction n as [|n IH]; intros prev b out rest out' Hitem Hc; cbn in Hc.
  - inv_ok. exists []. cbn. rewrite app_nil_r. split_and!; try done; constructor.
  - destruct (item b out) as [[b1 out1]|] eqn:Hi; [|done]. apply Hitem in Hi as (k & -> & Hk).
    cbn [mbind result_bind] in Hc.
    destruct (match prev with Some _ => _ | None => _ end) eqn:Hprev; [done|].
    destruct (item b1 _) as [[b2 out2]|] eqn:Hj; [|done]. cbn [mbind result_bind] in Hc. apply Hitem in Hj as (v & -> & Hv).
    rewrite drop_app_length in *. apply IH in Hc as (kvs & <- & -> & ? & ? & ? & Hhd); [|done].
    exists ((k, v) :: kvs). cbn. rewrite <- !app_assoc. split_and!; auto.
    intros p ->. constructor. unfold key_lt. by destruct (canonical_key_order p k).
Qed.

Lemma key_lt_trans : Transitive key_lt.
Proof.
  assert (Hcmp : forall l m r, bytes_cmp l m = Lt -> bytes_cmp m r = Lt -> bytes_cmp l r = Lt).
  { induction l as [|x l IH]; intros [|y m] [|z r]; cbn; try done.
    destruct (Z.compare_spec (bz x) (bz y)), (Z.compare_spec (bz y) (bz z)); try done; intros.
    - replace (bz x ?= bz z) with Eq by (symmetry; apply Z.compare_eq_iff; lia). eauto.
    - replace (bz x ?= bz z) with Lt by (symmetry; apply Z.compare_lt_iff; lia). done.
    - replace (bz x ?= bz z) with Lt by (symmetry; apply Z.compare_lt_iff; lia). done.
    - replace (bz x ?= bz z) with Lt by (symmetry; apply Z.compare_lt_iff; lia). done. }
  intros l m r. unfold key_lt, canonical_key_order.
  destruct (Z.compare_spec (zlen l) (zlen m)), (Z.compare_spec (zlen m) (zlen r)); try done; intros.
  - replace (zlen l ?= zlen r) with Eq by (symmetry; apply Z.compare_eq_iff; lia). eauto.
  - replace (zlen l ?= zlen r) with Lt by (symmetry; apply Z.compare_lt_iff; lia). done.
  - replace (zlen l ?= zlen r) with Lt by (symmetry; apply Z.compare_lt_iff; lia). done.
  - replace (zlen l ?= zlen r) with Lt by (symmetry; apply Z.compare_lt_iff; lia). done.
Qed.

Context `{!CborLaws}.

Lemma canonicalize_item_sound levels : forall b out rest out',
  canonicalize_item levels b out = Ok (rest, out') ->
  exists v, out' = out ++ v /\ canonical_item levels v.
Proof.
  induction levels as [|levels IH]; intros b out rest out' Hc; [done|]. cbn in Hc.
  apply bind_Ok in Hc as (t & _ & Hc).
  destruct t; try done;
    try (apply recode_Ok in Hc as (v & s & Hs & ->); exists s; split; [done|];
         try (injection Hs as <-); apply item_scalar; econstructor; done).
  - apply bind_Ok in Hc as ([n b1] & (k & Hn & ->)%read_Ok & Hc).
    apply bind_Ok in Hc as (len & ->%ok_or_Ok & Hc). apply array_range in Hn.
    destruct (_ <? len); [done|]. apply canon_array_sound with (1 := IH) in Hc as (vs & Hl & -> & Hvs).
    eexists. rewrite <- app_assoc. split; [done|]. apply item_array; [unfold zlen; lia|done].
  - apply bind_Ok in Hc as ([n b1] & (k & Hn & ->)%read_Ok & Hc).
    apply bind_Ok in Hc as (len & ->%ok_or_Ok & Hc). apply map_range in Hn.
    destruct (_ <? len); [done|].
    apply canon_map_sound with (1 := IH) in Hc as (kvs & Hl & -> & Hk & Hv & Hs & _).
    eexists. rewrite <- app_assoc. split; [done|].
    apply item_map; [unfold zlen; lia|done|done|]. apply Sorted_StronglySorted; [|done].
    exact key_lt_trans.
  - apply bind_Ok in Hc as ([b1 out1] & (t & s & [= <-] & ->)%recode_Ok & Hc).
    apply IH in Hc as (v & -> & Hv). eexists. rewrite <- app_assoc. split; [done|]. by apply item_tag.
Qed.

(** What is kept under an unknown key is one item in canonical form, at most
    sixteen levels deep: of definite length throughout, and with the keys of every
    map in strictly increasing order (shorter first, then byte by byte). *)
Theorem canonical_unknown_value v :
  is_canonical_unknown_value v = true -> canonical_item 16 v.
Proof.
  unfold is_canonical_unknown_value.
  destruct (canonicalize_item 16 v []) as [[rest out]|] eqn:Hc; [|done]. intros. bool_hyps. subst.
  by apply canonicalize_item_sound in Hc as (w & -> & Hw).
Qed.
End canonical.

(** ** Instances *)
Definition example_record : SecretRecord := {|
  record_id := 7; record_name := "database";
  record_fields := [{| field_name := "password"; field_value := bytes_of "hunter2";
                       field_hint := Text |}];
|}.

(** A record and, under the key 9, the array [[1, 2]] of some later version. *)
Definition example_payload : VaultPayload := {|
  vault_id := 42; revision := 3; records := [example_record]; idle_timeout_seconds := 600;
  unknown := [(9, [zb 0x82; zb 1; zb 2])];
|}.

Lemma example_record_wf : stored_record_wf example_record.
Proof.
  split; [|apply (bool_decide_unpack _); vm_compute; reflexivity].
  split.
  - split; vm_compute; congruence.
  - vm_compute; reflexivity.
  - done.
  - vm_compute; congruence.
  - apply NoDup_singleton.
  - apply Forall_singleton. split; vm_compute; congruence.
Qed.

Lemma example_payload_wf : payload_wf example_payload.
Proof.
  split.
  - split; vm_compute; congruence.
  - split; vm_compute; congruence.
  - vm_compute; congruence.
  - apply NoDup_singleton.
  - apply NoDup_singleton.
  - apply Forall_singleton, example_record_wf.
  - split; vm_compute; congruence.
  - apply Forall_singleton. split_and!; vm_compute; congruence.
  - repeat constructor.
  - vm_compute; congruence.
Qed.

Example decode_payload_iff_witness :
  encode_payload example_payload = Ok (payload_bytes example_payload) /\
  decode_payload (payload_bytes example_payload) = Ok example_payload.
Proof.
  split; [vm_compute; reflexivity|].
  apply (decode_payload_iff (payload_bytes example_payload) example_payload).
  split; [apply example_payload_wf|vm_compute; reflexivity].
Defined.

Example canonical_unknown_value_witness : canonical_item 16 [zb 0x82; zb 1; zb 2].
Proof. apply (canonical_unknown_value [zb 0x82; zb 1; zb 2]). vm_compute. reflexivity. Defined.

Lemma zlen_flat_map_replicate {A} (f : A -> bytes) n x :
  zlen (flat_map f (replicate n x)) = Z.of_nat n * zlen (f x).
Proof. induction n as [|n IH]; cbn [replicate flat_map]; [done|]. rewrite zlen_app, IH. lia. Qed.

(** A payload of [n] equal records and a few more. *)
Definition crowded_payload (rev : Z) (n : nat) (more : list SecretRecord) : VaultPayload := {|
  vault_id := 42; revision := rev; records := replicate n example_record ++ more;
  idle_timeout_seconds := 600; unknown := [];
|}.

Lemma crowded_payload_count rev n more :
  zlen (records (crowded_payload rev n more)) = Z.of_nat n + zlen more.
Proof. cbn. rewrite zlen_app. unfold zlen. by rewrite length_replicate. Qed.

Lemma enc_head_short major n : zlen (enc_head major n) <= 9.
Proof.
  unfold enc_head, head_width, zlen. cbn [length]. destruct (n <? 24); [cbn; lia|].
  rewrite length_be_bytes. destruct (n <? 2 ^ 8), (n <? 2 ^ 16), (n <? 2 ^ 32); lia.
Qed.

Lemma encode_crowded rev n more :
  Z.of_nat n <= 100000 -> zlen (flat_map encode_record more) <= 1000 ->
  encode_payload (crowded_payload rev n more) = Ok (payload_bytes (crowded_payload rev n more)).
Proof.
  intros Hn Hm. unfold encode_payload. rewrite (proj2 (Z.ltb_ge _ _)); [done|].
  unfold payload_bytes. rewrite crowded_payload_count, !zlen_app.
  cbn [records unknown crowded_payload vault_id revision idle_timeout_seconds].
  rewrite flat_map_app, zlen_app, zlen_flat_map_replicate.
  pose proof (enc_head_short 4 (Z.of_nat n + zlen more)) as Ha. pose proof (enc_head_short 0 rev) as Hr.
  change (e_array (Z.of_nat n + zlen more)) with (enc_head 4 (Z.of_nat n + zlen more)).
  change (e_u64 rev) with (enc_head 0 rev).
  assert (zlen (encode_record example_record) <= 100) by (vm_compute; congruence).
  change (flat_map _ []) with (@nil byte). rewrite zlen_nil.
  repeat match goal with |- context [zlen ?e] =>
    lazymatch e with
    | encode_record _ => fail | flat_map _ _ => fail | enc_head 4 _ => fail | enc_head 0 rev => fail
    | more => fail | _ =>
      let v := eval vm_compute in (zlen e) in change (zlen e) with v end end.
  unfold MAX_VAULT_PAYLOAD_BYTES. nia.
Qed.

Example encode_too_many_records_witness :
  decode_payload (payload_bytes (crowded_payload 3 (Z.to_nat 10001) [])) = Err InvalidVaultPayload.
Proof.
  apply (encode_too_many_records (crowded_payload 3 (Z.to_nat 10001) [])).
  - split; vm_compute; congruence.
  - split; vm_compute; congruence.
  - vm_compute; congruence.
  - rewrite crowded_payload_count, Z2Nat.id, zlen_nil by lia. unfold MAX_RECORDS. lia.
  - apply encode_crowded; [lia|vm_compute; congruence].
Defined.
