(* ===== verification/Crypto.v ===== *)
(** * Crypto: [crates/ladon-core/src/crypto.rs]

    The encrypted vault file: its header, the wrapped data key, the sealed
    payload, and the operations that create, unlock, seal and re-key it. *)

From S2P Require Import Prelude Errors Utf8 Model Cbor CborReference Codec.
Local Open Scope Z_scope.

Definition MAGIC : bytes := bytes_of "LADONV1" ++ [zb 0].
Definition VERSION : Z := 1.
Definition FIXED_PREFIX_BYTES : Z := 14.
Definition MAX_HEADER_BYTES : Z := 4 * 1024.
Definition NONCE_BYTES : Z := 24.
Definition KEY_BYTES : Z := 32.
Definition TAG_BYTES : Z := 16.
Definition WRAPPED_DEK_BYTES : Z := KEY_BYTES + TAG_BYTES.
Definition WRAPPER_BYTES : Z := NONCE_BYTES + WRAPPED_DEK_BYTES.
Definition PAYLOAD_FIXED_BYTES : Z := 8 + NONCE_BYTES + TAG_BYTES.
Definition MAX_VAULT_FILE_BYTES : Z :=
  FIXED_PREFIX_BYTES + MAX_HEADER_BYTES + WRAPPER_BYTES + PAYLOAD_FIXED_BYTES
  + MAX_VAULT_PAYLOAD_BYTES.
Definition DEK_DOMAIN : bytes := bytes_of "ladon/dek/v1".
Definition PAYLOAD_DOMAIN : bytes := bytes_of "ladon/payload/v1".
Definition DEFAULT_MEMORY_KIB : Z := 64 * 1024.
Definition DEFAULT_PASSES : Z := 3.
Definition DEFAULT_PARALLELISM : Z := 4.
Definition DEFAULT_SALT_BYTES : Z := 16.
Definition MIN_MEMORY_KIB : Z := 32 * 1024.
Definition MAX_MEMORY_KIB : Z := 256 * 1024.
Definition MIN_PASSES : Z := 1.
Definition MAX_PASSES : Z := 10.
Definition MIN_PARALLELISM : Z := 1.
Definition MAX_PARALLELISM : Z := 16.
Definition MIN_SALT_BYTES : Z := 16.
Definition MAX_SALT_BYTES : Z := 64.

(** ** Dependencies

    The [argon2] and [chacha20poly1305] crates: [None] is their error. *)
Class CryptoCrates := {
  argon2id (memory_kib passes parallelism output_len : Z) (password salt : bytes) : option bytes;
  aead_encrypt (key nonce plaintext aad : bytes) : option bytes;
  aead_decrypt (key nonce ciphertext aad : bytes) : option bytes;
}.

(** Their documentation: the derived key has the length asked for; decryption
    inverts encryption and accepts nothing but what encryption made with the same
    key, nonce and associated data; the ciphertext carries a 16-byte tag. *)
Class CryptoLaws `{CryptoCrates} := {
  argon2id_length m p l n pw salt k : argon2id m p l n pw salt = Some k -> zlen k = n;
  aead_inverse k n p a c : aead_encrypt k n p a = Some c <-> aead_decrypt k n c a = Some p;
  aead_length k n p a c : aead_encrypt k n p a = Some c -> zlen c = zlen p + TAG_BYTES;
}.

(** [trait RandomSource]; the state of the source after a failure is not used. *)
Class RandomSource (R : Type) := fill : Z -> R -> LResult (bytes * R).
Class RandomSourceLaws (R : Type) `{RandomSource R} :=
  fill_length : forall n r b r', fill n r = Ok (b, r') -> zlen b = n.

(** [OsRandom]: [getrandom]'s successive answers. *)
Record OsRandom := { getrandom : nat -> Z -> option bytes; calls : nat }.
#[export] Instance os_random : RandomSource OsRandom := fun n r =>
  match getrandom r (calls r) n with
  | Some b => Ok (b, {| getrandom := getrandom r; calls := S (calls r) |})
  | None => Err CryptoUnavailable
  end.

(** [struct KdfHeader]. *)
Record KdfHeader := {
  memory_kib : Z;
  passes : Z;
  parallelism : Z;
  salt : bytes;
}.

(** [struct KeyMaterial]. *)
Record KeyMaterial := {
  prefix_through_dek_tag : bytes;
  dek : bytes;
}.

(** [struct UnlockedVault]. *)
Record UnlockedVault := {
  payload : VaultPayload;
  key_material : KeyMaterial;
}.

Definition with_payload (u : UnlockedVault) (p : VaultPayload) : UnlockedVault :=
  {| payload := p; key_material := key_material u |}.

(** [struct ParsedFile]. *)
Record ParsedFile := {
  header : KdfHeader;
  prefix_before_dek : bytes;
  dek_nonce : bytes;
  wrapped_dek : bytes;
  parsed_prefix_through_dek_tag : bytes;
  prefix_through_payload_len : bytes;
  payload_nonce : bytes;
  encrypted_payload : bytes;
}.

(** [associated_data]. *)
Definition associated_data (domain b : bytes) : bytes := domain ++ b.

(** [read_u16], [read_u32] and [read_u64]. *)
Definition read_u16 (input : bytes) (offset : Z) : LResult Z :=
  be_value <$> ok_or (get_slice offset (offset + 2) input) InvalidVaultFile.
Definition read_u32 (input : bytes) (offset : Z) : LResult Z :=
  be_value <$> ok_or (get_slice offset (offset + 4) input) InvalidVaultFile.
Definition read_u64 (input : bytes) (offset : Z) : LResult Z :=
  be_value <$> ok_or (get_slice offset (offset + 8) input) InvalidVaultFile.

(** [usize::checked_add(..).ok_or(LadonError::InvalidVaultFile)?]. *)
Definition add_or_invalid (a b : Z) : LResult Z := ok_or (checked_add usize_max a b) InvalidVaultFile.

(** [(min..=max).contains(&n)]. *)
Definition between (min max n : Z) : bool := (min <=? n) && (n <=? max).

Section crypto.
Context `{TextCrates, Cbor, CryptoCrates}.
Implicit Types passphrase : bytes.

(** ** The header *)

(** [encode_header]: the bytes written, and the check of their number. *)
Definition header_bytes (h : KdfHeader) : bytes :=
  e_map 5 ++ e_str "kdf" ++ e_str "argon2id" ++ e_str "salt" ++ e_bytes (salt h) ++
  e_str "passes" ++ e_u32 (passes h) ++ e_str "memory_kib" ++ e_u32 (memory_kib h) ++
  e_str "parallelism" ++ e_u32 (parallelism h).
Definition encode_header (h : KdfHeader) : LResult bytes :=
  let encoded := header_bytes h in
  if MAX_HEADER_BYTES <? zlen encoded then Err InvalidVaultFile else Ok encoded.

(** [expect_key]. *)
Definition expect_key (expected : string) : Decode unit :=
  s ← relabel InvalidVaultFile (read d_str);
  if bool_decide (s = expected) then mret tt else lift (Err InvalidVaultFile).

(** The reads of [decode_header]. *)
Definition read_header : Decode KdfHeader :=
  n ← relabel InvalidVaultFile (read d_map);
  _ ← lift (reject_if (negb (bool_decide (n = Some 5))) InvalidVaultFile);
  _ ← expect_key "kdf";
  _ ← expect_key "argon2id";
  _ ← expect_key "salt";
  salt ← relabel InvalidVaultFile (read d_bytes);
  _ ← expect_key "passes";
  passes ← relabel InvalidVaultFile (read d_u32);
  _ ← expect_key "memory_kib";
  memory_kib ← relabel InvalidVaultFile (read d_u32);
  _ ← expect_key "parallelism";
  parallelism ← relabel InvalidVaultFile (read d_u32);
  mret {| memory_kib := memory_kib; passes := passes; parallelism := parallelism; salt := salt |}.

Definition valid_bounds (h : KdfHeader) : bool :=
  between MIN_MEMORY_KIB MAX_MEMORY_KIB (memory_kib h)
  && between MIN_PASSES MAX_PASSES (passes h)
  && between MIN_PARALLELISM MAX_PARALLELISM (parallelism h)
  && between MIN_SALT_BYTES MAX_SALT_BYTES (zlen (salt h)).

(** [decode_header]. *)
Definition decode_header (input : bytes) : LResult KdfHeader :=
  if MAX_HEADER_BYTES <? zlen input then Err InvalidVaultFile
  else
    '(h, rest) ← read_header input;
    _ ← reject_if (negb (valid_bounds h) || negb (bool_decide (rest = []))) InvalidVaultFile;
    encoded ← encode_header h;
    if bool_decide (encoded = input) then Ok h else Err InvalidVaultFile.

(** ** Keys and ciphers *)

(** [derive_kek]. *)
Definition derive_kek passphrase (h : KdfHeader) : LResult bytes :=
  ok_or (argon2id (memory_kib h) (passes h) (parallelism h) KEY_BYTES passphrase (salt h))
    InvalidVaultFile.

(** [encrypt] and [decrypt]. *)
Definition encrypt (key nonce plaintext aad : bytes) : LResult bytes :=
  ok_or (aead_encrypt key nonce plaintext aad) InvalidVaultFile.
Definition decrypt (key nonce ciphertext_and_tag aad : bytes) : LResult bytes :=
  ok_or (aead_decrypt key nonce ciphertext_and_tag aad) VaultAuthenticationFailed.

(** ** The file *)

(** [parse_file]. *)
Definition parse_file (file : bytes) : LResult ParsedFile :=
  if zlen file <? FIXED_PREFIX_BYTES + WRAPPER_BYTES + PAYLOAD_FIXED_BYTES
  then Err InvalidVaultFile
  else if negb (bool_decide (get_slice 0 (zlen MAGIC) file = Some MAGIC)) then Err InvalidVaultFile
  else
    version ← read_u16 file 8;
    if negb (version =? VERSION) then Err UnsupportedVaultVersion
    else
      header_len ← read_u32 file 10;
      if MAX_HEADER_BYTES <? header_len then Err InvalidVaultFile
      else
        header_end ← add_or_invalid FIXED_PREFIX_BYTES header_len;
        prefix_end ← add_or_invalid header_end WRAPPER_BYTES;
        payload_len_end ← add_or_invalid prefix_end 8;
        if zlen file <? payload_len_end then Err InvalidVaultFile
        else
          header ← decode_header (slice FIXED_PREFIX_BYTES header_end file);
          payload_len ← read_u64 file prefix_end;
          if MAX_VAULT_PAYLOAD_BYTES <? payload_len then Err InvalidVaultFile
          else
            n ← add_or_invalid payload_len_end NONCE_BYTES;
            n ← add_or_invalid n payload_len;
            expected_len ← add_or_invalid n TAG_BYTES;
            if negb (expected_len =? zlen file) then Err InvalidVaultFile
            else Ok {|
              header := header;
              prefix_before_dek := slice 0 header_end file;
              dek_nonce := slice header_end (header_end + NONCE_BYTES) file;
              wrapped_dek := slice (header_end + NONCE_BYTES) prefix_end file;
              parsed_prefix_through_dek_tag := slice 0 prefix_end file;
              prefix_through_payload_len := slice 0 payload_len_end file;
              payload_nonce := slice payload_len_end (payload_len_end + NONCE_BYTES) file;
              encrypted_payload := slice (payload_len_end + NONCE_BYTES) (zlen file) file;
            |}.

(** [unlock_vault]. *)
Definition unlock_vault (file passphrase : bytes) : LResult UnlockedVault :=
  parsed ← parse_file file;
  kek ← derive_kek passphrase (header parsed);
  dek ← map_err VaultAuthenticationFailed
          (decrypt kek (dek_nonce parsed) (wrapped_dek parsed)
             (associated_data DEK_DOMAIN (prefix_before_dek parsed)));
  _ ← reject_if (negb (zlen dek =? KEY_BYTES)) VaultAuthenticationFailed;
  plaintext ← map_err VaultAuthenticationFailed
                (decrypt dek (payload_nonce parsed) (encrypted_payload parsed)
                   (associated_data PAYLOAD_DOMAIN (prefix_through_payload_len parsed)));
  payload ← map_err VaultAuthenticationFailed (decode_payload plaintext);
  Ok {| payload := payload;
        key_material := {| prefix_through_dek_tag := parsed_prefix_through_dek_tag parsed;
                           dek := dek |} |}.

Section randomized.
Context {R : Type} `{RandomSource R}.

(** [new_key_material]. *)
Definition new_key_material passphrase (random : R) : LResult (KeyMaterial * R) :=
  '(salt, random) ← fill DEFAULT_SALT_BYTES random;
  let h := {| memory_kib := DEFAULT_MEMORY_KIB; passes := DEFAULT_PASSES;
              parallelism := DEFAULT_PARALLELISM; salt := salt |} in
  encoded_header ← encode_header h;
  header_len ← (if zlen encoded_header <=? u32_max then Ok (zlen encoded_header)
                else Err InvalidVaultFile);
  let prefix_before_dek := MAGIC ++ be_bytes 2 VERSION ++ be_bytes 4 header_len ++ encoded_header in
  '(dek, random) ← fill KEY_BYTES random;
  kek ← derive_kek passphrase h;
  '(nonce, random) ← fill NONCE_BYTES random;
  wrapped_dek ← encrypt kek nonce dek (associated_data DEK_DOMAIN prefix_before_dek);
  Ok ({| prefix_through_dek_tag := prefix_before_dek ++ nonce ++ wrapped_dek; dek := dek |},
      random).

(** [seal_payload]. *)
Definition seal_payload (p : VaultPayload) (k : KeyMaterial) (random : R) : LResult (bytes * R) :=
  plaintext ← encode_payload p;
  let output := prefix_through_dek_tag k ++ be_bytes 8 (zlen plaintext) in
  '(nonce, random) ← fill NONCE_BYTES random;
  encrypted ← encrypt (dek k) nonce plaintext (associated_data PAYLOAD_DOMAIN output);
  Ok (output ++ nonce ++ encrypted, random).

(** [create_vault_with_random]. *)
Definition create_vault_with_random (p : VaultPayload) passphrase (random : R) :
  LResult ((UnlockedVault * bytes) * R) :=
  '(k, random) ← new_key_material passphrase random;
  let unlocked := {| payload := p; key_material := k |} in
  '(encrypted, random) ← seal_payload (payload unlocked) (key_material unlocked) random;
  Ok ((unlocked, encrypted), random).

(** [verify_current_passphrase]. *)
Definition verify_current_passphrase (k : KeyMaterial) passphrase : LResult unit :=
  let prefix := prefix_through_dek_tag k in
  header_len ← read_u32 prefix 10;
  header_end ← add_or_invalid FIXED_PREFIX_BYTES header_len;
  if negb (zlen prefix =? header_end + WRAPPER_BYTES) then Err InvalidVaultFile
  else
    h ← decode_header (slice FIXED_PREFIX_BYTES header_end prefix);
    let nonce := slice header_end (header_end + NONCE_BYTES) prefix in
    let wrapped := slice (header_end + NONCE_BYTES) (zlen prefix) prefix in
    kek ← derive_kek passphrase h;
    candidate ← map_err VaultAuthenticationFailed
                  (decrypt kek nonce wrapped (associated_data DEK_DOMAIN (slice 0 header_end prefix)));
    reject_if (negb (zlen candidate =? KEY_BYTES)) VaultAuthenticationFailed.

(** [UnlockedVault::seal]. *)
Definition seal (u : UnlockedVault) (random : R) : LResult (bytes * R) :=
  seal_payload (payload u) (key_material u) random.

(** [UnlockedVault::rotate_passphrase]: the answer, and the vault afterwards. *)
Definition rotate_passphrase (current new : bytes) (random : R) (u : UnlockedVault) :
  LResult bytes * UnlockedVault :=
  match
    _ ← verify_current_passphrase (key_material u) current;
    '(new_material, random) ← new_key_material new random;
    '(encrypted, _) ← seal_payload (payload u) new_material random;
    Ok (encrypted, new_material)
  with
  | Ok (encrypted, new_material) =>
    (Ok encrypted, {| payload := payload u; key_material := new_material |})
  | Err e => (Err e, u)
  end.
End randomized.

(** [create_vault]: the random source is the operating system's. *)
Definition create_vault (p : VaultPayload) (passphrase : bytes) (random : OsRandom) :
  LResult (UnlockedVault * bytes) :=
  fst <$> create_vault_with_random p passphrase random.
End crypto.

(** ** The header is decoded exactly *)
Section header_laws.
Context `{TextCrates, CborLaws, CryptoCrates}.

Lemma parses_expect_key (s : string) :
  valid_utf8 (bytes_of s) -> slen s < 2 ^ 64 -> parses (expect_key s) (e_str s) tt.
Proof.
  intros Hv Hs. apply parses_end, parses_bind with s.
  - by apply parses_relabel, parses_read, str_str.
  - rewrite bool_decide_eq_true_2 by done. apply parses_ret.
Qed.

Lemma encode_header_Ok h bs :
  encode_header h = Ok bs <-> bs = header_bytes h /\ zlen bs <= MAX_HEADER_BYTES.
Proof.
  unfold encode_header. destruct (Z.ltb_spec MAX_HEADER_BYTES (zlen (header_bytes h))).
  - split; [done|]. intros [-> ?]. lia.
  - split; [by intros [= <-]|]. by intros [-> _].
Qed.

(** The keys of the header are short text. *)
Local Ltac header_key :=
  apply parses_bind with tt;
    [apply parses_expect_key; [apply (bool_decide_unpack _); vm_compute; reflexivity
                              |vm_compute; reflexivity]|].

Lemma parses_read_header h :
  valid_bounds h = true ->
  parses read_header (header_bytes h) h.
Proof.
  unfold valid_bounds, between, MIN_MEMORY_KIB, MAX_MEMORY_KIB, MIN_PASSES, MAX_PASSES,
    MIN_PARALLELISM, MAX_PARALLELISM, MIN_SALT_BYTES, MAX_SALT_BYTES. intros Hb. bool_hyps.
  unfold read_header, header_bytes.
  apply parses_bind with (Some 5); [by apply parses_relabel, parses_read, map_map|].
  apply parses_lift with tt; [done|]. do 3 header_key.
  apply parses_bind with (salt h); [apply parses_relabel, parses_read, bytes_bytes; lia|].
  header_key.
  apply parses_bind with (passes h); [apply parses_relabel, parses_read, u32_u32; lia|].
  header_key.
  apply parses_bind with (memory_kib h); [apply parses_relabel, parses_read, u32_u32; lia|].
  header_key.
  apply parses_end, parses_bind with (parallelism h);
    [apply parses_relabel, parses_read, u32_u32; lia|].
  intros rest. by destruct h.
Qed.

Lemma decode_header_Ok bs h :
  decode_header bs = Ok h <-> valid_bounds h = true /\ encode_header h = Ok bs.
Proof.
  split.
  - unfold decode_header. intros Hd. inv_ok.
    destruct (read_header bs) as [[h' rest]|]; inv_ok. inv_ok. bool_hyps. by subst.
  - intros [Hb He]. pose proof (parses_read_header h Hb []) as Hp. rewrite app_nil_r in Hp.
    apply encode_header_Ok in He as He'. destruct He' as [Hbs Hl]. unfold decode_header.
    rewrite (proj2 (Z.ltb_ge _ _)) by done. rewrite <- Hbs in Hp. rewrite Hp. cbn [mbind result_bind].
    rewrite Hb, bool_decide_eq_true_2 by done. cbn [negb orb reject_if mbind result_bind].
    rewrite He. cbn [mbind result_bind]. by rewrite bool_decide_eq_true_2.
Qed.

(** The header is decoded exactly: [decode_header] accepts a byte string
    precisely when it is the encoding of a header whose memory, passes,
    parallelism and salt length are within their bounds. *)
Theorem decode_header_iff bs h :
  decode_header bs = Ok h <-> valid_bounds h = true /\ encode_header h = Ok bs.
Proof. apply decode_header_Ok. Qed.
End header_laws.

(** ** The layout of the file *)

(** The sizes of the format, in numbers. *)
Ltac unfold_sizes :=
  unfold MAX_VAULT_PAYLOAD_BYTES, PAYLOAD_FIXED_BYTES, WRAPPER_BYTES, WRAPPED_DEK_BYTES,
    FIXED_PREFIX_BYTES, MAX_HEADER_BYTES, NONCE_BYTES, KEY_BYTES, TAG_BYTES, usize_max, u64_max in *.

Section file_laws.
Context `{TextCrates, CborLaws, CryptoLaws}.

(** What precedes the wrapped key: the magic, the version and the header. *)
Definition preamble (encoded_header : bytes) : bytes :=
  MAGIC ++ be_bytes 2 VERSION ++ be_bytes 4 (zlen encoded_header) ++ encoded_header.

Lemma zlen_be_bytes n z : zlen (be_bytes n z) = Z.of_nat n.
Proof. unfold zlen. by rewrite length_be_bytes. Qed.

Lemma zlen_preamble eh : zlen (preamble eh) = FIXED_PREFIX_BYTES + zlen eh.
Proof.
  unfold preamble, FIXED_PREFIX_BYTES. rewrite !zlen_app, !zlen_be_bytes.
  change (zlen MAGIC) with 8. lia.
Qed.

Lemma read_u16_eq l a n b o :
  l = a ++ be_bytes 2 n ++ b -> 0 <= n < 2 ^ 16 -> o = zlen a -> read_u16 l o = Ok n.
Proof.
  intros Hl Hn ->. unfold read_u16.
  rewrite (get_slice_eq _ _ _ _ _ _ Hl) by (rewrite ?zlen_be_bytes; done). cbn.
  f_equal. by apply (be_value_bytes_small 2).
Qed.

Lemma read_u32_eq l a n b o :
  l = a ++ be_bytes 4 n ++ b -> 0 <= n < 2 ^ 32 -> o = zlen a -> read_u32 l o = Ok n.
Proof.
  intros Hl Hn ->. unfold read_u32.
  rewrite (get_slice_eq _ _ _ _ _ _ Hl) by (rewrite ?zlen_be_bytes; done). cbn -[be_bytes].
  f_equal. by apply (be_value_bytes_small 4).
Qed.

Lemma read_u64_eq l a n b o :
  l = a ++ be_bytes 8 n ++ b -> 0 <= n < 2 ^ 64 -> o = zlen a -> read_u64 l o = Ok n.
Proof.
  intros Hl Hn ->. unfold read_u64.
  rewrite (get_slice_eq _ _ _ _ _ _ Hl) by (rewrite ?zlen_be_bytes; done). cbn -[be_bytes].
  f_equal. by apply (be_value_bytes_small 8).
Qed.

Lemma add_or_invalid_Ok a b : a + b <= usize_max -> add_or_invalid a b = Ok (a + b).
Proof. intros. unfold add_or_invalid, checked_add. by rewrite (proj2 (Z.leb_le _ _)). Qed.

(** The parts of a file, with their sizes. *)
Record file_parts := {
  fp_header : KdfHeader;
  fp_encoded : bytes;
  fp_dek_nonce : bytes;
  fp_wrapped : bytes;
  fp_length : Z;
  fp_nonce : bytes;
  fp_sealed : bytes;
}.

Record parts_wf (f : file_parts) : Prop := {
  fw_bounds : valid_bounds (fp_header f) = true;
  fw_encoded : encode_header (fp_header f) = Ok (fp_encoded f);
  fw_dek_nonce : zlen (fp_dek_nonce f) = NONCE_BYTES;
  fw_wrapped : zlen (fp_wrapped f) = WRAPPED_DEK_BYTES;
  fw_length : 0 <= fp_length f <= MAX_VAULT_PAYLOAD_BYTES;
  fw_nonce : zlen (fp_nonce f) = NONCE_BYTES;
  fw_sealed : zlen (fp_sealed f) = fp_length f + TAG_BYTES;
}.

Definition prefix_of_parts (f : file_parts) : bytes :=
  preamble (fp_encoded f) ++ fp_dek_nonce f ++ fp_wrapped f.
Definition assemble (f : file_parts) : bytes :=
  prefix_of_parts f ++ be_bytes 8 (fp_length f) ++ fp_nonce f ++ fp_sealed f.

Definition parsed_parts (f : file_parts) : ParsedFile := {|
  header := fp_header f;
  prefix_before_dek := preamble (fp_encoded f);
  dek_nonce := fp_dek_nonce f;
  wrapped_dek := fp_wrapped f;
  parsed_prefix_through_dek_tag := prefix_of_parts f;
  prefix_through_payload_len := prefix_of_parts f ++ be_bytes 8 (fp_length f);
  payload_nonce := fp_nonce f;
  encrypted_payload := fp_sealed f;
|}.

Lemma encoded_length f : parts_wf f -> 0 <= zlen (fp_encoded f) <= MAX_HEADER_BYTES.
Proof. intros []. apply encode_header_Ok in fw_encoded0 as [_ ?]. auto using zlen_nonneg. Qed.

Lemma zlen_prefix f :
  parts_wf f -> zlen (prefix_of_parts f) = FIXED_PREFIX_BYTES + zlen (fp_encoded f) + WRAPPER_BYTES.
Proof.
  intros []. unfold prefix_of_parts. rewrite !zlen_app, zlen_preamble, fw_dek_nonce0, fw_wrapped0.
  unfold WRAPPER_BYTES. lia.
Qed.

Lemma zlen_assemble f :
  parts_wf f ->
  zlen (assemble f) =
  FIXED_PREFIX_BYTES + zlen (fp_encoded f) + WRAPPER_BYTES + PAYLOAD_FIXED_BYTES + fp_length f.
Proof.
  intros Hf. unfold assemble. rewrite !zlen_app, zlen_prefix, zlen_be_bytes by done.
  destruct Hf. rewrite fw_nonce0, fw_sealed0. unfold PAYLOAD_FIXED_BYTES. lia.
Qed.

Lemma add_then {A} a b (k : Z -> LResult A) :
  a + b <= usize_max -> (add_or_invalid a b ≫= k) = k (a + b).
Proof. intros. by rewrite add_or_invalid_Ok. Qed.

(** The file as the concatenation of its pieces. *)
Lemma assemble_pieces f :
  assemble f = preamble (fp_encoded f) ++ fp_dek_nonce f ++ fp_wrapped f ++
    be_bytes 8 (fp_length f) ++ fp_nonce f ++ fp_sealed f.
Proof. unfold assemble, prefix_of_parts. by rewrite <- !app_assoc. Qed.

Lemma assemble_head f :
  exists rest, assemble f = MAGIC ++ be_bytes 2 VERSION ++ be_bytes 4 (zlen (fp_encoded f)) ++
    fp_encoded f ++ rest.
Proof. eexists. rewrite assemble_pieces. unfold preamble. rewrite <- !app_assoc. reflexivity. Qed.

(** Where the pieces lie. *)
Lemma assemble_slices f :
  parts_wf f ->
  let file := assemble f in
  let header_end := FIXED_PREFIX_BYTES + zlen (fp_encoded f) in
  let prefix_end := header_end + WRAPPER_BYTES in
  let length_end := prefix_end + 8 in
  slice FIXED_PREFIX_BYTES header_end file = fp_encoded f /\
  slice 0 header_end file = preamble (fp_encoded f) /\
  slice header_end (header_end + NONCE_BYTES) file = fp_dek_nonce f /\
  slice (header_end + NONCE_BYTES) prefix_end file = fp_wrapped f /\
  slice 0 prefix_end file = prefix_of_parts f /\
  slice 0 length_end file = prefix_of_parts f ++ be_bytes 8 (fp_length f) /\
  slice length_end (length_end + NONCE_BYTES) file = fp_nonce f /\
  slice (length_end + NONCE_BYTES) (zlen file) file = fp_sealed f.
Proof.
  intros Hf file header_end prefix_end length_end. subst length_end prefix_end header_end.
  pose proof (zlen_assemble f Hf) as Hlen. pose proof (zlen_prefix f Hf) as Hpre.
  pose proof (zlen_preamble (fp_encoded f)) as Hp. pose proof (assemble_pieces f) as Hfile.
  destruct (assemble_head f) as [rest Hhead]. destruct Hf. fold file in Hlen, Hfile, Hhead.
  split_and!.
  - apply (slice_eq file (MAGIC ++ be_bytes 2 VERSION ++ be_bytes 4 (zlen (fp_encoded f))) _ rest);
      [rewrite Hhead, <- !app_assoc; reflexivity|..]; rewrite !zlen_app, !zlen_be_bytes;
      change (zlen MAGIC) with 8; unfold_sizes; lia.
  - by apply (slice_eq file [] (preamble (fp_encoded f)) _ _ _ Hfile).
  - eapply slice_eq; [exact Hfile|lia..].
  - eapply slice_eq; [rewrite Hfile, app_assoc; reflexivity|..]; rewrite zlen_app;
      unfold_sizes; lia.
  - apply (slice_eq file [] (prefix_of_parts f) _ _ _ eq_refl); [done|].
    rewrite zlen_nil. lia.
  - apply (slice_eq file [] (prefix_of_parts f ++ be_bytes 8 (fp_length f)) (fp_nonce f ++ fp_sealed f));
      [cbn [app]; rewrite <- app_assoc; reflexivity|done|].
    rewrite zlen_nil, zlen_app, zlen_be_bytes. lia.
  - apply (slice_eq file (prefix_of_parts f ++ be_bytes 8 (fp_length f)) _ (fp_sealed f));
      [rewrite <- app_assoc; reflexivity| |];
      rewrite zlen_app, zlen_be_bytes; unfold_sizes; lia.
  - apply (slice_eq file ((prefix_of_parts f ++ be_bytes 8 (fp_length f)) ++ fp_nonce f) _ []);
      [rewrite app_nil_r, <- !app_assoc; reflexivity| |];
      rewrite !zlen_app, zlen_be_bytes; unfold_sizes; lia.
Qed.

(** A file put together from its parts parses into them. *)
Lemma parse_assemble f : parts_wf f -> parse_file (assemble f) = Ok (parsed_parts f).
Proof.
  intros Hf. pose proof (encoded_length f Hf) as He. pose proof (zlen_assemble f Hf) as Hlen.
  pose proof (assemble_slices f Hf) as (S1 & S2 & S3 & S4 & S5 & S6 & S7 & S8).
  destruct (assemble_head f) as [rest Hhead]. pose proof (zlen_prefix f Hf) as Hpre.
  pose proof Hf as [Hb Henc _ _ Hn _ _].
  unfold parse_file. rewrite (proj2 (Z.ltb_ge _ _)) by (unfold_sizes; lia).
  rewrite (get_slice_eq _ [] MAGIC _ _ _ Hhead) by done.
  rewrite bool_decide_eq_true_2 by done. cbn [negb].
  rewrite (read_u16_eq _ _ VERSION _ 8 Hhead) by done. cbn [mbind result_bind negb Z.eqb VERSION].
  rewrite (read_u32_eq _ (MAGIC ++ be_bytes 2 VERSION) (zlen (fp_encoded f)) (fp_encoded f ++ rest) 10)
    by (first [rewrite Hhead, <- !app_assoc; reflexivity|unfold_sizes; done|unfold_sizes; lia]).
  cbn [mbind result_bind Pos.eqb negb]. rewrite (proj2 (Z.ltb_ge MAX_HEADER_BYTES _)) by lia.
  rewrite !add_then by (unfold_sizes; lia). cbv beta.
  rewrite (proj2 (Z.ltb_ge (zlen (assemble f)) _)) by (unfold_sizes; lia).
  rewrite S1, (proj2 (decode_header_Ok _ _) (conj Hb Henc)). cbn [mbind result_bind].
  rewrite (read_u64_eq _ (prefix_of_parts f) (fp_length f) (fp_nonce f ++ fp_sealed f))
    by (done || (unfold_sizes; lia)).
  cbn [mbind result_bind]. rewrite (proj2 (Z.ltb_ge MAX_VAULT_PAYLOAD_BYTES _)) by lia.
  rewrite !add_then by (unfold_sizes; lia). cbv beta.
  rewrite (proj2 (Z.eqb_eq _ (zlen (assemble f)))) by (unfold_sizes; lia). cbn [negb].
  by rewrite S2, S3, S4, S5, S6, S7, S8.
Qed.

(** ** What a parsed file is *)
Lemma add_or_invalid_inv a b c : add_or_invalid a b = Ok c -> c = a + b.
Proof. intros Ha. apply ok_or_Ok, checked_add_Some in Ha. tauto. Qed.

Lemma be_slice_inv {A} (l : bytes) a n (k : Z -> LResult A) x :
  0 <= a -> (be_value <$> ok_or (get_slice a (a + Z.of_nat n) l) InvalidVaultFile) ≫= k = Ok x ->
  exists v, 0 <= v < 256 ^ Z.of_nat n /\ slice a (a + Z.of_nat n) l = be_bytes n v /\
            a + Z.of_nat n <= zlen l /\ k v = Ok x.
Proof.
  intros Ha Hk. inv_ok. match goal with Hs : get_slice _ _ _ = Some ?b |- _ =>
    apply get_slice_Some in Hs as [Hr ->] end.
  set (b := slice a (a + Z.of_nat n) l) in *.
  assert (Hn : length b = n).
  { pose proof (slice_length a (a + Z.of_nat n) l) as Hl. fold b in Hl. unfold zlen in *. lia. }
  pose proof (be_value_bound b) as Hb. unfold zlen in Hb. rewrite Hn in Hb.
  exists (be_value b). split_and!; [lia|lia| |lia|done]. by rewrite <- Hn, be_bytes_value.
Qed.

(** The parts of a file with a header of [hl] bytes and a payload of [n]. *)
Definition parts_of (file : bytes) (h : KdfHeader) (hl n : Z) : file_parts :=
  let header_end := FIXED_PREFIX_BYTES + hl in
  let prefix_end := header_end + WRAPPER_BYTES in
  let length_end := prefix_end + 8 in
  {| fp_header := h;
     fp_encoded := slice FIXED_PREFIX_BYTES header_end file;
     fp_dek_nonce := slice header_end (header_end + NONCE_BYTES) file;
     fp_wrapped := slice (header_end + NONCE_BYTES) prefix_end file;
     fp_length := n;
     fp_nonce := slice length_end (length_end + NONCE_BYTES) file;
     fp_sealed := slice (length_end + NONCE_BYTES) (zlen file) file |}.

Lemma parts_of_file file h hl n :
  let f := parts_of file h hl n in
  zlen file = FIXED_PREFIX_BYTES + hl + WRAPPER_BYTES + PAYLOAD_FIXED_BYTES + n ->
  0 <= hl <= MAX_HEADER_BYTES -> 0 <= n <= MAX_VAULT_PAYLOAD_BYTES ->
  valid_bounds h = true -> encode_header h = Ok (fp_encoded f) ->
  slice 0 8 file = MAGIC -> slice 8 10 file = be_bytes 2 VERSION ->
  slice 10 14 file = be_bytes 4 hl ->
  slice (FIXED_PREFIX_BYTES + hl + WRAPPER_BYTES) (FIXED_PREFIX_BYTES + hl + WRAPPER_BYTES + 8) file =
    be_bytes 8 n ->
  parts_wf f /\ file = assemble f.
Proof.
  intros f Hlen Hhl Hn Hb He Hm Hv Hs Hl. subst f.
  assert (Henc : zlen (fp_encoded (parts_of file h hl n)) = hl).
  { cbn. rewrite slice_length; unfold_sizes; lia. }
  split.
  - constructor; try done; cbn; rewrite slice_length; unfold_sizes; lia.
  - rewrite assemble_pieces. unfold preamble. rewrite Henc, <- Hm, <- Hv, <- Hs.
    cbn [parts_of fp_encoded fp_dek_nonce fp_wrapped fp_length fp_nonce fp_sealed]. rewrite <- Hl.
    rewrite <- (slice_all file) at 1.
    change FIXED_PREFIX_BYTES with 14 in *.
    rewrite !app_assoc, <- !slice_split by (unfold_sizes; lia). done.
Qed.

Lemma parse_file_inv file p :
  parse_file file = Ok p -> exists f, parts_wf f /\ file = assemble f /\ p = parsed_parts f.
Proof.
  intros Hparse. pose proof Hparse as Hp. unfold parse_file in Hp.
  destruct (zlen file <? _) eqn:Hsz; [done|]. destruct (negb (bool_decide _)) eqn:Hmagic; [done|].
  apply (be_slice_inv file 8 2) in Hp as (v & _ & Hv & _ & Hp); [|lia].
  destruct (Z.eqb_spec v VERSION) as [->|]; [|done]. cbn [negb] in Hp.
  apply (be_slice_inv file 10 4) in Hp as (hl & Hhl & Hhs & _ & Hp); [|lia].
  destruct (MAX_HEADER_BYTES <? hl) eqn:Hcap; [done|].
  apply bind_Ok in Hp as (header_end & ->%add_or_invalid_inv & Hp).
  apply bind_Ok in Hp as (prefix_end & ->%add_or_invalid_inv & Hp).
  apply bind_Ok in Hp as (len_end & ->%add_or_invalid_inv & Hp).
  destruct (zlen file <? FIXED_PREFIX_BYTES + hl + WRAPPER_BYTES + 8) eqn:Hlong; [done|].
  apply bind_Ok in Hp as (h & [Hb Henc]%decode_header_Ok & Hp).
  apply (be_slice_inv file _ 8) in Hp as (n & Hn & Hns & _ & Hp); [|unfold_sizes; lia].
  destruct (MAX_VAULT_PAYLOAD_BYTES <? n) eqn:Hbig; [done|].
  apply bind_Ok in Hp as (e1 & ->%add_or_invalid_inv & Hp).
  apply bind_Ok in Hp as (e2 & ->%add_or_invalid_inv & Hp).
  apply bind_Ok in Hp as (e3 & ->%add_or_invalid_inv & Hp).
  destruct (Z.eqb_spec (FIXED_PREFIX_BYTES + hl + WRAPPER_BYTES + 8 + NONCE_BYTES + n + TAG_BYTES)
    (zlen file)) as [Hlen|]; [|done]. cbn [negb] in Hp. injection Hp as <-. bool_hyps.
  apply get_slice_Some in Hmagic as [_ Hmagic].
  change (zlen MAGIC) with 8 in Hmagic.
  assert (Hrange : zlen file = FIXED_PREFIX_BYTES + hl + WRAPPER_BYTES + PAYLOAD_FIXED_BYTES + n)
    by (unfold_sizes; lia).
  pose proof (parts_of_file file h hl n) as Hf.
  destruct Hf as (Hwf & Hfile); [done|lia|lia|done..|].
  exists (parts_of file h hl n). split_and!; [done|done|].
  rewrite Hfile, parse_assemble in Hparse by done. congruence.
Qed.

(** Parsing is exact: [parse_file] accepts a file precisely when it is the
    magic, the version, the encoded header (of bounded cost), a nonce, the wrapped
    key, the payload's length within the limit, a nonce and that many bytes with
    their tag, and it answers these very pieces, nothing before, between or after. *)
Theorem parse_file_iff file p :
  parse_file file = Ok p <->
  exists f, parts_wf f /\ file = assemble f /\ p = parsed_parts f.
Proof.
  split; [apply parse_file_inv|]. intros (f & Hf & -> & ->). by apply parse_assemble.
Qed.

End file_laws.

(** ** Keys *)
Section vault_laws.
Context `{TextCratesLaws, CborLaws, CryptoLaws}.

(** The passphrase opens the key material: it unwraps the data key. *)
Record km_opens (passphrase : bytes) (k : KeyMaterial) (h : KdfHeader)
  (encoded nonce wrapped kek : bytes) : Prop := {
  ko_bounds : valid_bounds h = true;
  ko_encoded : encode_header h = Ok encoded;
  ko_nonce : zlen nonce = NONCE_BYTES;
  ko_prefix : prefix_through_dek_tag k = preamble encoded ++ nonce ++ wrapped;
  ko_kek : derive_kek passphrase h = Ok kek;
  ko_unwrap : aead_decrypt kek nonce wrapped (associated_data DEK_DOMAIN (preamble encoded)) =
              Some (dek k);
  ko_dek : zlen (dek k) = KEY_BYTES;
}.
Definition opens (passphrase : bytes) (k : KeyMaterial) : Prop :=
  exists h encoded nonce wrapped kek, km_opens passphrase k h encoded nonce wrapped kek.

(** A sealed file: the payload encrypted under the data key, after the prefix. *)
Record sealed (p : VaultPayload) (k : KeyMaterial) (file plaintext nonce ct : bytes) : Prop := {
  sl_plaintext : encode_payload p = Ok plaintext;
  sl_nonce : zlen nonce = NONCE_BYTES;
  sl_encrypt : aead_encrypt (dek k) nonce plaintext
    (associated_data PAYLOAD_DOMAIN (prefix_through_dek_tag k ++ be_bytes 8 (zlen plaintext))) =
    Some ct;
  sl_file : file = prefix_through_dek_tag k ++ be_bytes 8 (zlen plaintext) ++ nonce ++ ct;
}.

Lemma unlock_of_encrypted p k pass file plaintext nonce ct :
  opens pass k -> sealed p k file plaintext nonce ct ->
  unlock_vault file pass =
  (payload ← map_err VaultAuthenticationFailed (decode_payload plaintext);
   Ok {| payload := payload; key_material := k |}).
Proof.
  intros (h & eh & n & w & kek & []) [].
  assert (Hw : zlen w = WRAPPED_DEK_BYTES).
  { apply aead_inverse, aead_length in ko_unwrap0. unfold WRAPPED_DEK_BYTES. lia. }
  assert (Hpl : zlen plaintext <= MAX_VAULT_PAYLOAD_BYTES).
  { unfold encode_payload in sl_plaintext0. inv_ok. by bool_hyps. }
  set (f := {| fp_header := h; fp_encoded := eh; fp_dek_nonce := n; fp_wrapped := w;
               fp_length := zlen plaintext; fp_nonce := nonce; fp_sealed := ct |}).
  assert (Hf : parts_wf f).
  { constructor; cbn; auto using zlen_nonneg. by apply aead_length in sl_encrypt0. }
  assert (Hpre : prefix_of_parts f = prefix_through_dek_tag k) by (by rewrite ko_prefix0).
  assert (Hfile : file = assemble f) by (unfold assemble; by rewrite Hpre).
  unfold unlock_vault. rewrite Hfile, parse_assemble by done. cbn [mbind result_bind].
  cbn [parsed_parts header dek_nonce wrapped_dek prefix_before_dek payload_nonce encrypted_payload
    prefix_through_payload_len parsed_prefix_through_dek_tag].
  cbn [f fp_header fp_encoded fp_dek_nonce fp_wrapped fp_length fp_nonce fp_sealed].
  rewrite ko_kek0. cbn [mbind result_bind]. unfold decrypt. rewrite ko_unwrap0. cbn [ok_or map_err mbind result_bind].
  rewrite (proj2 (Z.eqb_eq _ _) ko_dek0). cbn [negb reject_if mbind result_bind].
  rewrite Hpre. apply aead_inverse in sl_encrypt0. rewrite sl_encrypt0. cbn [ok_or map_err mbind result_bind].
  by destruct k.
Qed.

Lemma unlock_of_sealed p k pass file plaintext nonce ct :
  opens pass k -> payload_wf p -> sealed p k file plaintext nonce ct ->
  unlock_vault file pass = Ok {| payload := p; key_material := k |}.
Proof.
  intros Ho Hp Hs. rewrite (unlock_of_encrypted _ _ _ _ _ _ _ Ho Hs).
  by rewrite (decode_encode _ _ Hp (sl_plaintext _ _ _ _ _ _ Hs)).
Qed.

(** The reads of [verify_current_passphrase] on a prefix of the right shape. *)
Lemma verify_unfold k pass h eh n w :
  valid_bounds h = true -> encode_header h = Ok eh -> zlen n = NONCE_BYTES ->
  zlen w = WRAPPED_DEK_BYTES -> prefix_through_dek_tag k = preamble eh ++ n ++ w ->
  verify_current_passphrase k pass =
  kek ← derive_kek pass h;
  candidate ← map_err VaultAuthenticationFailed
    (decrypt kek n w (associated_data DEK_DOMAIN (preamble eh)));
  reject_if (negb (zlen candidate =? KEY_BYTES)) VaultAuthenticationFailed.
Proof.
  intros Hb He Hn Hw Hpre. pose proof (zlen_preamble eh) as Hp.
  assert (Hl : zlen eh <= MAX_HEADER_BYTES) by (apply encode_header_Ok in He; tauto).
  pose proof (zlen_nonneg eh).
  assert (Hlen : zlen (prefix_through_dek_tag k) = FIXED_PREFIX_BYTES + zlen eh + WRAPPER_BYTES).
  { rewrite Hpre, !zlen_app, Hp, Hn, Hw. unfold WRAPPER_BYTES. lia. }
  unfold verify_current_passphrase. set (prefix := prefix_through_dek_tag k) in *.
  rewrite (read_u32_eq prefix (MAGIC ++ be_bytes 2 VERSION) (zlen eh) (eh ++ n ++ w) 10)
    by (first [rewrite Hpre; unfold preamble; rewrite <- !app_assoc; reflexivity
              |unfold_sizes; done|unfold_sizes; lia]).
  cbn [mbind result_bind]. rewrite add_then by (unfold_sizes; lia).
  rewrite Hlen, Z.eqb_refl. cbn [negb].
  rewrite (slice_eq prefix (MAGIC ++ be_bytes 2 VERSION ++ be_bytes 4 (zlen eh)) eh (n ++ w)
    FIXED_PREFIX_BYTES (FIXED_PREFIX_BYTES + zlen eh)).
  2: { rewrite Hpre. unfold preamble. rewrite <- !app_assoc. reflexivity. }
  2, 3: rewrite !zlen_app, !zlen_be_bytes; change (zlen MAGIC) with 8; unfold_sizes; lia.
  rewrite (proj2 (decode_header_Ok _ _) (conj Hb He)). cbn [mbind result_bind].
  rewrite (slice_eq prefix (preamble eh) n w _ _ Hpre) by (rewrite ?Hp, ?Hn; done).
  rewrite (slice_eq prefix (preamble eh ++ n) w []
    (FIXED_PREFIX_BYTES + zlen eh + NONCE_BYTES) (FIXED_PREFIX_BYTES + zlen eh + WRAPPER_BYTES)); cycle 1.
  { rewrite Hpre, app_nil_r, <- app_assoc. reflexivity. }
  { rewrite zlen_app. lia. }
  { rewrite zlen_app. unfold_sizes. lia. }
  by rewrite (slice_eq prefix [] (preamble eh) (n ++ w)) by (rewrite ?Hp; done).
Qed.

(** A prefix says where its header ends. *)
Lemma preamble_inj eh n w eh' n' w' :
  preamble eh ++ n ++ w = preamble eh' ++ n' ++ w' ->
  zlen eh <= MAX_HEADER_BYTES -> zlen eh' <= MAX_HEADER_BYTES -> zlen n = zlen n' ->
  eh = eh' /\ n = n' /\ w = w'.
Proof.
  unfold preamble, MAX_HEADER_BYTES. rewrite <- !app_assoc. intros Heq Hl Hl' Hn.
  pose proof (zlen_nonneg eh). pose proof (zlen_nonneg eh').
  apply app_inv_head in Heq. apply app_inv_head in Heq.
  apply app_inj_1 in Heq as [Hlen Heq]; [|by rewrite !length_be_bytes].
  assert (zlen eh = zlen eh') as Hz.
  { apply (f_equal be_value) in Hlen.
    by rewrite !be_value_bytes_small in Hlen by (change (256 ^ Z.of_nat 4) with 4294967296; lia). }
  apply app_inj_1 in Heq as [-> Heq]; [|unfold zlen in Hz; lia].
  apply app_inj_1 in Heq as [-> ->]; [done|unfold zlen in Hn; lia].
Qed.

Lemma unlock_inv file pass u :
  unlock_vault file pass = Ok u ->
  opens pass (key_material u) /\ payload_wf (payload u) /\
  exists plaintext nonce ct, sealed (payload u) (key_material u) file plaintext nonce ct.
Proof.
  unfold unlock_vault, decrypt. intros Hu. inv_ok. bool_hyps.
  match goal with Hp : parse_file _ = Ok _ |- _ => apply parse_file_inv in Hp as (f & Hf & -> & ->) end.
  match goal with Hd : decode_payload _ = Ok _ |- _ => apply decode_payload_wf in Hd as [? Henc] end.
  cbn [parsed_parts header dek_nonce wrapped_dek prefix_before_dek payload_nonce encrypted_payload
    prefix_through_payload_len parsed_prefix_through_dek_tag key_material payload] in *.
  destruct Hf. split_and!; [|done|].
  - exists (fp_header f), (fp_encoded f), (fp_dek_nonce f), (fp_wrapped f). eexists. by constructor.
  - match goal with Hd : aead_decrypt _ (fp_nonce f) _ _ = Some ?p |- _ =>
      apply aead_inverse in Hd; exists p, (fp_nonce f), (fp_sealed f);
      pose proof (aead_length _ _ _ _ _ Hd) as Hl; rewrite fw_sealed0 in Hl;
      assert (Heq : fp_length f = zlen p) by lia; rewrite Heq in Hd end.
    constructor; cbn [key_material payload prefix_through_dek_tag dek]; try done.
    unfold assemble. by rewrite Heq.
Qed.

Lemma unlock_vault_Ok file pass u :
  unlock_vault file pass = Ok u <->
  opens pass (key_material u) /\ payload_wf (payload u) /\
  exists plaintext nonce ct, sealed (payload u) (key_material u) file plaintext nonce ct.
Proof.
  split; [apply unlock_inv|]. intros (Ho & Hp & plaintext & nonce & ct & Hs).
  destruct u as [p k]. by eapply unlock_of_sealed.
Qed.

(** A file that unlocks is within the limit [open_copy] sets. *)
Lemma unlock_vault_size file pass u : unlock_vault file pass = Ok u -> zlen file <= MAX_VAULT_FILE_BYTES.
Proof.
  unfold unlock_vault. intros (parsed & (f & Hf & -> & _)%parse_file_inv & _)%bind_Ok.
  rewrite zlen_assemble by done. pose proof (encoded_length f Hf). destruct Hf.
  unfold MAX_VAULT_FILE_BYTES. lia.
Qed.

(** C35. What unlocking accepts, exactly: [unlock_vault] opens a file with a
    passphrase precisely when the passphrase unwraps the data key in the file's
    prefix and the rest is that prefix, the length, a nonce, and the authenticated
    encryption under the data key of the encoding of a well-formed payload; the
    vault it answers is that payload with that key. *)
Theorem unlock_vault_iff file pass u :
  unlock_vault file pass = Ok u <->
  opens pass (key_material u) /\ payload_wf (payload u) /\
  exists plaintext nonce ct, sealed (payload u) (key_material u) file plaintext nonce ct.
Proof. apply unlock_vault_Ok. Qed.

(** Re-entering the passphrase is checked against the vault in memory: for
    key material some passphrase opens, [verify_current_passphrase] succeeds exactly
    for the passphrases that unwrap a key from the same prefix. *)
Theorem verify_current_passphrase_iff owner pass k :
  opens owner k ->
  (verify_current_passphrase k pass = Ok tt <->
   exists key, opens pass {| prefix_through_dek_tag := prefix_through_dek_tag k; dek := key |}).
Proof.
  intros (h & eh & n & w & kek0 & [Hb He Hn Hpre _ Hu Hd]).
  assert (Hw : zlen w = WRAPPED_DEK_BYTES).
  { apply aead_inverse, aead_length in Hu. unfold WRAPPED_DEK_BYTES. lia. }
  assert (Hver : verify_current_passphrase k pass =
    kek ← derive_kek pass h;
    candidate ← map_err VaultAuthenticationFailed
      (decrypt kek n w (associated_data DEK_DOMAIN (preamble eh)));
    reject_if (negb (zlen candidate =? KEY_BYTES)) VaultAuthenticationFailed)
    by (by apply verify_unfold).
  rewrite Hver. unfold decrypt. split.
  - intros Hv. inv_ok. bool_hyps. eexists _, h, eh, n, w, _. by constructor.
  - intros (key & h' & eh' & n' & w' & kek & []). cbn [prefix_through_dek_tag dek] in *.
    rewrite Hpre in ko_prefix0.
    apply preamble_inj in ko_prefix0 as (-> & -> & ->);
      [|apply encode_header_Ok in He; tauto|apply encode_header_Ok in ko_encoded0; tauto|congruence].
    assert (h' = h) as ->.
    { assert (Ok (E := LadonError) h' = Ok h) as [=]; [|done].
      transitivity (decode_header eh'); [symmetry|]; by apply decode_header_Ok. }
    rewrite ko_kek0. cbn [mbind result_bind]. rewrite ko_unwrap0. cbn [ok_or map_err mbind result_bind].
    by rewrite ko_dek0.
Qed.

Context {R : Type} `{RandomSourceLaws R}.

Lemma seal_payload_sealed p k (r r' : R) file :
  seal_payload p k r = Ok (file, r') ->
  exists plaintext nonce ct, sealed p k file plaintext nonce ct.
Proof.
  unfold seal_payload, encrypt. intros Hs. apply bind_Ok in Hs as (plaintext & Hp & Hs).
  apply bind_Ok in Hs as ([nonce r1] & Hn & Hs). apply bind_Ok in Hs as (ct & Hc%ok_or_Ok & Hs).
  injection Hs as <- <-. exists plaintext, nonce, ct. constructor; [done|by eapply fill_length|done|].
  by rewrite <- app_assoc.
Qed.

Lemma new_key_material_opens pass (r r' : R) k : new_key_material pass r = Ok (k, r') -> opens pass k.
Proof.
  unfold new_key_material, encrypt. intros Hn.
  apply bind_Ok in Hn as ([salt r1] & Hsalt%fill_length & Hn).
  apply bind_Ok in Hn as (eh & He & Hn). apply bind_Ok in Hn as (hl & Hhl & Hn).
  apply bind_Ok in Hn as ([key r2] & Hkey%fill_length & Hn). apply bind_Ok in Hn as (kek & Hkek & Hn).
  apply bind_Ok in Hn as ([nonce r3] & Hnonce%fill_length & Hn).
  apply bind_Ok in Hn as (wrapped & Hw%ok_or_Ok & Hn). injection Hn as <- <-.
  assert (hl = zlen eh) as -> by (destruct (zlen eh <=? u32_max); congruence).
  eexists _, eh, nonce, wrapped, kek. constructor; [|exact He|done| |exact Hkek| |done].
  - unfold valid_bounds. cbn [memory_kib passes parallelism Crypto.salt]. by rewrite Hsalt.
  - done.
  - cbn [dek]. by apply aead_inverse.
Qed.

(** A vault created with a passphrase is unlocked by it: unlocking the file
    gives back the payload, and the very key material that is held in memory. *)
Theorem create_then_unlock p pass (r r' : R) u file :
  payload_wf p -> create_vault_with_random p pass r = Ok ((u, file), r') ->
  payload u = p /\ unlock_vault file pass = Ok u.
Proof.
  intros Hp Hc. unfold create_vault_with_random in Hc.
  apply bind_Ok in Hc as ([k r1] & Hk%new_key_material_opens & Hc).
  apply bind_Ok in Hc as ([enc r2] & Hs%seal_payload_sealed & Hc). injection Hc as <- <- <-.
  split; [done|]. by apply unlock_vault_Ok.
Qed.

(** Whatever is done to the records of an unlocked vault, sealing it gives a
    file that the same passphrase unlocks to the same state. *)
Theorem seal_then_unlock file pass u p (r r' : R) file' :
  unlock_vault file pass = Ok u -> payload_wf p ->
  seal (with_payload u p) r = Ok (file', r') ->
  unlock_vault file' pass = Ok (with_payload u p).
Proof.
  intros (Ho & _ & _)%unlock_vault_Ok Hp Hs%seal_payload_sealed. by apply unlock_vault_Ok.
Qed.

(** Changing the passphrase: on success the file answered is unlocked by the
    new passphrase to the vault as it now is, with the same payload; on any failure
    the vault is as it was. *)
Theorem rotate_passphrase_spec current new (r : R) u :
  payload_wf (payload u) ->
  match rotate_passphrase current new r u with
  | (Ok file, u') =>
    verify_current_passphrase (key_material u) current = Ok tt /\
    payload u' = payload u /\ unlock_vault file new = Ok u'
  | (Err _, u') => u' = u
  end.
Proof.
  intros Hp. unfold rotate_passphrase.
  destruct (verify_current_passphrase (key_material u) current) as [[]|e]; cbn [mbind result_bind]; [|done].
  destruct (new_key_material new r) as [[k r1]|e] eqn:Hk; cbn [mbind result_bind]; [|done].
  destruct (seal_payload (payload u) k r1) as [[enc r2]|e] eqn:Hs; cbn [mbind result_bind]; [|done].
  split_and!; [done..|]. apply unlock_vault_Ok. cbn.
  split_and!; [by eapply new_key_material_opens|done|by eapply seal_payload_sealed].
Qed.
End vault_laws.

(** ** A reference instance

    Ciphers that authenticate nothing but satisfy the functional laws, and the
    counting random source of the program's own test vectors. *)
Definition reference_tag (key : bytes) : bytes := be_bytes 16 (be_value key).

#[export] Instance reference_crypto : CryptoCrates := {|
  argon2id m p l n pw s :=
    if n <? 0 then None else Some (take (Z.to_nat n) (pw ++ s ++ replicate (Z.to_nat n) (zb 0)));
  aead_encrypt key nonce p a := Some (p ++ reference_tag key);
  aead_decrypt key nonce c a :=
    let p := take (length c - 16) c in
    if bool_decide (c = p ++ reference_tag key) then Some p else None;
|}.

#[export] Instance reference_crypto_laws : CryptoLaws.
Proof.
  split; cbn [argon2id aead_encrypt aead_decrypt reference_crypto].
  - intros m p l n pw s k. destruct (Z.ltb_spec n 0); [done|]. intros [= <-].
    unfold zlen. rewrite length_take, !length_app, length_replicate. lia.
  - intros k n p a c. split.
    + intros [= <-]. rewrite length_app. unfold reference_tag. rewrite length_be_bytes, Nat.add_sub.
      by rewrite take_app_length, bool_decide_eq_true_2.
    + case_bool_decide as Hc; [|done]. intros [= <-]. by rewrite <- Hc.
  - intros k n p a c [= <-]. rewrite zlen_app. unfold reference_tag. by rewrite zlen_be_bytes.
Qed.

Record CounterRandom := { counter : Z }.
#[export] Instance counter_random : RandomSource CounterRandom := fun n r =>
  Ok ((fun i => zb (counter r + Z.of_nat i)) <$> seq 0 (Z.to_nat n), {| counter := counter r + n |}).
Definition start_random : CounterRandom := {| counter := 0 |}.

(** The source asked for a non-negative number of bytes, as it is here. *)
Record BoundedRandom := { bounded : CounterRandom }.
#[export] Instance bounded_random : RandomSource BoundedRandom := fun n r =>
  if n <? 0 then Err CryptoUnavailable
  else '(b, c) ← fill n (bounded r); Ok (b, {| bounded := c |}).
#[export] Instance bounded_random_laws : RandomSourceLaws BoundedRandom.
Proof.
  intros n r b r'. unfold fill, bounded_random. destruct (Z.ltb_spec n 0); [done|]. cbn.
  intros [= <- <-]. unfold zlen. rewrite length_fmap, length_seq. lia.
Qed.
Definition start : BoundedRandom := {| bounded := start_random |}.
Definition example_passphrase : bytes := bytes_of "correct horse battery staple".

Definition created : LResult ((UnlockedVault * bytes) * BoundedRandom) :=
  create_vault_with_random example_payload example_passphrase start.
Definition example_file : bytes := match created with Ok ((_, file), _) => file | Err _ => [] end.
Definition example_vault : UnlockedVault :=
  match created with
  | Ok ((u, _), _) => u
  | Err _ => {| payload := example_payload;
                key_material := {| prefix_through_dek_tag := []; dek := [] |} |}
  end.
Definition example_random : BoundedRandom :=
  match created with Ok (_, r) => r | Err _ => start end.

Lemma created_Ok : created = Ok ((example_vault, example_file), example_random).
Proof. vm_compute. reflexivity. Qed.

Example create_then_unlock_witness :
  payload example_vault = example_payload /\
  unlock_vault example_file example_passphrase = Ok example_vault.
Proof.
  apply (create_then_unlock example_payload example_passphrase start example_random).
  - exact example_payload_wf.
  - exact created_Ok.
Defined.

Lemma example_opened : unlock_vault example_file example_passphrase = Ok example_vault.
Proof. vm_compute. reflexivity. Qed.

Example unlock_vault_iff_witness :
  opens example_passphrase (key_material example_vault) /\ payload_wf (payload example_vault).
Proof.
  destruct (proj1 (unlock_vault_iff example_file example_passphrase example_vault) example_opened)
    as (Ho & Hp & _).
  split; assumption.
Defined.

Lemma example_opens : opens example_passphrase (key_material example_vault).
Proof. exact (proj1 (unlock_inv _ _ _ example_opened)). Qed.

Example verify_current_passphrase_iff_witness :
  verify_current_passphrase (key_material example_vault) example_passphrase = Ok tt.
Proof.
  apply (verify_current_passphrase_iff example_passphrase example_passphrase
           (key_material example_vault) example_opens).
  exists (dek (key_material example_vault)).
  destruct (key_material example_vault) eqn:Hk. rewrite <- Hk. exact example_opens.
Defined.

(** The vault after a record was renamed, sealed again. *)
Definition renamed_payload : VaultPayload :=
  with_records example_payload [set_name example_record "archive"].

Lemma renamed_payload_wf : payload_wf renamed_payload.
Proof.
  destruct example_payload_wf. split; [done|done|done|done|apply NoDup_singleton| |done..].
  apply Forall_singleton. split; [|apply (bool_decide_unpack _); vm_compute; reflexivity].
  destruct example_record_wf as [[] _]. split; [done|vm_compute; reflexivity|done..].
Qed.

Definition resealed : bytes :=
  match seal (with_payload example_vault renamed_payload) start with
  | Ok (file, _) => file | Err _ => [] end.
Definition resealed_random : BoundedRandom :=
  match seal (with_payload example_vault renamed_payload) start with
  | Ok (_, r) => r | Err _ => start end.

Example seal_then_unlock_witness :
  unlock_vault resealed example_passphrase = Ok (with_payload example_vault renamed_payload).
Proof.
  apply (seal_then_unlock example_file example_passphrase example_vault renamed_payload
           start resealed_random).
  - exact example_opened.
  - exact renamed_payload_wf.
  - vm_compute. reflexivity.
Defined.

Example rotate_passphrase_spec_witness :
  match rotate_passphrase example_passphrase (bytes_of "a new passphrase") start example_vault with
  | (Ok file, u') => unlock_vault file (bytes_of "a new passphrase") = Ok u'
  | (Err _, _) => False
  end.
Proof.
  pose proof (rotate_passphrase_spec example_passphrase (bytes_of "a new passphrase") start
    example_vault example_payload_wf) as Hr.
  assert (Hok : is_ok (rotate_passphrase example_passphrase (bytes_of "a new passphrase") start
    example_vault).1 = true) by (vm_compute; reflexivity).
  destruct (rotate_passphrase _ _ _ _) as [[file|e] u']; [apply Hr|discriminate Hok].
Defined.

Definition example_header : KdfHeader := {|
  memory_kib := DEFAULT_MEMORY_KIB; passes := DEFAULT_PASSES; parallelism := DEFAULT_PARALLELISM;
  salt := replicate 16 (zb 7);
|}.

Example decode_header_iff_witness :
  decode_header (header_bytes example_header) = Ok example_header.
Proof.
  apply (decode_header_iff (header_bytes example_header) example_header).
  split; vm_compute; reflexivity.
Defined.

Example parse_file_iff_witness :
  exists f, parts_wf f /\ example_file = assemble f.
Proof.
  destruct (parse_file example_file) as [p|e] eqn:Hp; [|vm_compute in Hp; discriminate Hp].
  destruct (proj1 (parse_file_iff example_file p) Hp) as (f & Hf & Hfile & _).
  exists f. split; assumption.
Defined.
