(* ===== verification/Vault.v ===== *)
(** * Vault: [crates/ladon-core/src/vault.rs]

    [VaultSession]: the operations on the records of an unlocked vault.  They
    implement a finite map from identifiers to records, [refines]. *)

From S2P Require Import Prelude Errors Utf8 Model Cbor CborReference Codec Crypto.
Local Open Scope Z_scope.

(** [trait ActivitySink]. *)
Class ActivitySink (A : Type) := secret_activity : A -> A.

(** [struct SecretMetadata]. *)
Record SecretMetadata := { meta_id : SecretId; meta_name : string; field_names : list string }.

(** [struct VaultSession]. *)
Record VaultSession (A : Type) := { vault : UnlockedVault; activity : A }.
Arguments vault {A}.
Arguments activity {A}.

(** [struct PreparedRecordReplacement]. *)
Record PreparedRecordReplacement := {
  expected_revision : Z;
  target_id : SecretId;
  replacement : SecretRecord;
}.

(** Which record a reference designates. *)
Definition matches_ref (reference : SecretRef) (record : SecretRecord) : bool :=
  match reference with
  | RefName name => bool_decide (record_name record = name)
  | RefId id => bool_decide (record_id record = id)
  end.

(** [find_record_index]. *)
Definition find_record_index (records : list SecretRecord) (reference : SecretRef) : LResult nat :=
  ok_or (position (matches_ref reference) records) SecretNotFound.

(** [records().iter().enumerate().any(|(index, record)| index != target && ..)]. *)
Definition name_used_elsewhere (records : list SecretRecord) (target : nat) (name : string) : bool :=
  existsb (fun ir => negb (Nat.eqb ir.1 target) && bool_decide (record_name ir.2 = name))
    (imap pair records).

Section session.
Context {A : Type} `{TextCrates, ActivitySink A}.
Implicit Types s : VaultSession A.

Definition session_records s : list SecretRecord := records (payload (vault s)).
Definition session_revision s : Z := revision (payload (vault s)).

(** The session once the payload is [p] and the activity has been noted. *)
Definition committed s (p : VaultPayload) : VaultSession A :=
  {| vault := with_payload (vault s) p; activity := secret_activity (activity s) |}.

(** [VaultSession::new]. *)
Definition session_new (v : UnlockedVault) (a : A) : VaultSession A :=
  {| vault := v; activity := a |}.

(** [VaultSession::record_activity]. *)
Definition record_activity s : VaultSession A :=
  {| vault := vault s; activity := secret_activity (activity s) |}.

(** [VaultSession::with_record]. *)
Definition with_record {R} (reference : SecretRef) (operation : SecretRecord -> R) s :
  LResult (R * VaultSession A) :=
  target ← find_record_index (session_records s) reference;
  record ← ok_or (session_records s !! target) SecretNotFound;
  Ok (operation record, record_activity s).

(** [VaultSession::prepare_record_replacement]. *)
Definition prepare_record_replacement (reference : SecretRef) (new_name : string)
  (fields : list SecretField) s : LResult PreparedRecordReplacement :=
  target ← find_record_index (session_records s) reference;
  current ← ok_or (session_records s !! target) SecretNotFound;
  replacement ← from_parts (record_id current) new_name fields;
  if name_used_elsewhere (session_records s) target (record_name replacement)
  then Err DuplicateSecretName
  else Ok {| expected_revision := session_revision s; target_id := record_id current;
             replacement := replacement |}.

(** [VaultSession::apply_record_replacement]. *)
Definition apply_record_replacement (prepared : PreparedRecordReplacement) s :
  LResult (VaultSession A) :=
  if negb (session_revision s =? expected_revision prepared) then Err InvalidRequest
  else
    target ← find_record_index (session_records s) (RefId (target_id prepared));
    p ← increment_revision (payload (vault s));
    Ok (committed s (with_records p (<[target := replacement prepared]> (records p)))).

(** [VaultSession::list]. *)
Definition list_metadata s : list SecretMetadata :=
  (fun record => {| meta_id := record_id record; meta_name := record_name record;
                    field_names := field_name <$> record_fields record |}) <$> session_records s.

(** [VaultSession::add]; [fresh] is the identifier drawn by [SecretRecord::new]. *)
Definition add (fresh : SecretId) (name : string) (fields : list SecretField) s :
  LResult (SecretId * VaultSession A) :=
  record ← SecretRecord_new fresh name fields;
  if existsb (fun existing => bool_decide (record_name existing = record_name record))
       (session_records s)
  then Err DuplicateSecretName
  else
    p ← increment_revision (payload (vault s));
    Ok (record_id record, committed s (with_records p (records p ++ [record]))).

(** [VaultSession::rename]. *)
Definition rename (reference : SecretRef) (new_name : string) s : LResult (VaultSession A) :=
  normalized ← (parsed ← SecretRef_parse new_name;
                match parsed with RefName name => Ok name | RefId _ => Err InvalidSecretRef end);
  target ← find_record_index (session_records s) reference;
  if name_used_elsewhere (session_records s) target normalized then Err DuplicateSecretName
  else
    p ← increment_revision (payload (vault s));
    Ok (committed s (with_records p (alter (fun r => set_name r normalized) target (records p)))).

(** [VaultSession::replace_fields]. *)
Definition replace_fields (reference : SecretRef) (fields : list SecretField) s :
  LResult (VaultSession A) :=
  target ← find_record_index (session_records s) reference;
  current ← ok_or (session_records s !! target) SecretNotFound;
  replacement ← from_parts (record_id current) (record_name current) fields;
  p ← increment_revision (payload (vault s));
  Ok (committed s (with_records p (<[target := replacement]> (records p)))).

(** [VaultSession::delete]. *)
Definition delete_record (reference : SecretRef) s : LResult (VaultSession A) :=
  target ← find_record_index (session_records s) reference;
  p ← increment_revision (payload (vault s));
  Ok (committed s (with_records p (delete target (records p)))).

(** [VaultSession::with_field]. *)
Definition with_field {R} (reference : SecretRef) (name : string) (operation : bytes -> R) s :
  LResult (R * VaultSession A) :=
  target ← find_record_index (session_records s) reference;
  record ← ok_or (session_records s !! target) SecretNotFound;
  field ← ok_or (List.find (fun f => bool_decide (field_name f = name)) (record_fields record))
            FieldNotFound;
  Ok (operation (field_value field), record_activity s).

(** [VaultSession::seal]. *)
Definition session_seal `{Cbor, CryptoCrates} {R} `{RandomSource R} s (random : R) :
  LResult (bytes * R) :=
  Crypto.seal (vault s) random.

(** ** Histories

    The operations that may change the records; an error leaves the session. *)
Inductive vault_op : Type :=
| VAdd (fresh : SecretId) (name : string) (fields : list SecretField)
| VRename (reference : SecretRef) (new_name : string)
| VReplaceFields (reference : SecretRef) (fields : list SecretField)
| VReplaceRecord (reference : SecretRef) (new_name : string) (fields : list SecretField)
| VDelete (reference : SecretRef).

Definition exec (op : vault_op) s : LResult (VaultSession A) :=
  match op with
  | VAdd fresh name fields => snd <$> add fresh name fields s
  | VRename reference new_name => rename reference new_name s
  | VReplaceFields reference fields => replace_fields reference fields s
  | VReplaceRecord reference new_name fields =>
    prepared ← prepare_record_replacement reference new_name fields s;
    apply_record_replacement prepared s
  | VDelete reference => delete_record reference s
  end.

Fixpoint exec_all (ops : list vault_op) s : VaultSession A :=
  match ops with
  | [] => s
  | op :: ops => exec_all ops (match exec op s with Ok s' => s' | Err _ => s end)
  end.
End session.

(** ** The finite map behind the list *)
Definition records_map (l : list SecretRecord) : gmap SecretId SecretRecord :=
  list_to_map ((fun r => (record_id r, r)) <$> l).

Lemma records_map_keys l : ((fun r => (record_id r, r)) <$> l).*1 = record_id <$> l.
Proof. by rewrite <- list_fmap_compose. Qed.

Lemma records_map_lookup l id r :
  NoDup (record_id <$> l) -> records_map l !! id = Some r <-> r ∈ l /\ record_id r = id.
Proof.
  intros Hnd. unfold records_map.
  rewrite <- elem_of_list_to_map by (by rewrite records_map_keys).
  rewrite list_elem_of_fmap. naive_solver.
Qed.

Lemma records_map_lookup_None l id : records_map l !! id = None <-> id ∉ record_id <$> l.
Proof. unfold records_map. by rewrite <- not_elem_of_list_to_map, records_map_keys. Qed.

Lemma records_map_middle l1 r l2 :
  NoDup (record_id <$> l1 ++ r :: l2) ->
  records_map (l1 ++ r :: l2) = <[record_id r := r]> (records_map (l1 ++ l2)).
Proof.
  intros Hnd. unfold records_map.
  rewrite <- (list_to_map_cons (M := gmap SecretId)).
  apply list_to_map_proper; [by rewrite records_map_keys|].
  rewrite !fmap_app, fmap_cons. by rewrite Permutation_middle.
Qed.

(** Splitting a list at the index of one of its elements. *)
Lemma split_at {A} (l : list A) i x :
  l !! i = Some x -> exists l1 l2, l = l1 ++ x :: l2 /\ length l1 = i.
Proof.
  intros Hl. exists (take i l), (drop (S i) l). rewrite take_drop_middle by done.
  split; [done|]. apply length_take_le. apply lookup_lt_Some in Hl. lia.
Qed.

Lemma insert_at {A} (l1 l2 : list A) x y : <[length l1 := y]> (l1 ++ x :: l2) = l1 ++ y :: l2.
Proof. by rewrite <- (Nat.add_0_r (length l1)), insert_app_r. Qed.

Lemma alter_at {A} (f : A -> A) (l1 l2 : list A) x :
  alter f (length l1) (l1 ++ x :: l2) = l1 ++ f x :: l2.
Proof. by rewrite <- (Nat.add_0_r (length l1)), alter_app_r. Qed.

Lemma list_alter_insert_lookup {A} (f : A -> A) (l : list A) (i : nat) x :
  l !! i = Some x -> alter f i l = <[i := f x]> l.
Proof. intros (l1 & l2 & -> & <-)%split_at. by rewrite alter_at, insert_at. Qed.

Lemma delete_at {A} (l1 l2 : list A) x : delete (length l1) (l1 ++ x :: l2) = l1 ++ l2.
Proof. by rewrite delete_middle. Qed.

Section lists.
Implicit Types l : list SecretRecord.

Lemma records_map_replace l1 l2 r r' :
  NoDup (record_id <$> l1 ++ r :: l2) -> record_id r' = record_id r ->
  records_map (l1 ++ r' :: l2) = <[record_id r := r']> (records_map (l1 ++ r :: l2)).
Proof.
  intros Hnd Hid. rewrite (records_map_middle _ r) by done. rewrite insert_insert_eq, <- Hid.
  apply records_map_middle. revert Hnd. by rewrite !fmap_app, !fmap_cons, Hid.
Qed.

Lemma records_map_remove l1 l2 r :
  NoDup (record_id <$> l1 ++ r :: l2) ->
  records_map (l1 ++ l2) = delete (record_id r) (records_map (l1 ++ r :: l2)).
Proof.
  intros Hnd. rewrite records_map_middle by done. symmetry. apply delete_insert_id.
  apply records_map_lookup_None. revert Hnd. rewrite !fmap_app, fmap_cons.
  intros (_ & Hd & Hc)%NoDup_app. apply NoDup_cons in Hc as [Hc _].
  rewrite elem_of_app. intros [Hin|Hin]; [|done]. apply (Hd _ Hin). by apply list_elem_of_here.
Qed.

Lemma find_record_index_Ok l reference i :
  find_record_index l reference = Ok i ->
  exists r l1 l2, l = l1 ++ r :: l2 /\ length l1 = i /\ matches_ref reference r = true /\ l !! i = Some r.
Proof.
  unfold find_record_index. intros (r & Hl & Hm & _)%ok_or_Ok%position_Some.
  destruct (split_at _ _ _ Hl) as (l1 & l2 & ? & ?). eauto 10.
Qed.

Lemma name_used_elsewhere_false l1 r l2 name :
  name_used_elsewhere (l1 ++ r :: l2) (length l1) name = false <->
  name ∉ record_name <$> (l1 ++ l2).
Proof.
  unfold name_used_elsewhere. rewrite <- not_true_iff_false, existsb_exists. apply not_iff_compat.
  rewrite list_elem_of_fmap. setoid_rewrite elem_of_app. split.
  - intros ([j x] & Hin & Hc). apply list_elem_of_In, list_elem_of_lookup in Hin as [k Hk].
    rewrite list_lookup_imap in Hk. apply fmap_Some in Hk as (y & Hy & [= -> ->]). bool_hyps.
    apply Nat.eqb_neq in H. cbn in *. exists y. split; [done|].
    apply lookup_app_Some in Hy as [?|[? Hy]]; [left; by eapply list_elem_of_lookup_2|right].
    destruct (k - length l1)%nat eqn:Hd; [lia|]. by eapply list_elem_of_lookup_2.
  - intros (y & -> & Hy). assert (exists k, (l1 ++ r :: l2) !! k = Some y /\ k <> length l1) as (k & Hk & Hne).
    { destruct Hy as [[k Hk]%list_elem_of_lookup|[k Hk]%list_elem_of_lookup].
      - exists k. pose proof (lookup_lt_Some _ _ _ Hk). rewrite lookup_app_l by done. split; [done|lia].
      - exists (S (length l1 + k)). rewrite lookup_app_r by lia. split; [|lia].
        by replace (S (length l1 + k) - length l1)%nat with (S k) by lia. }
    exists (k, y). split.
    + apply list_elem_of_In, list_elem_of_lookup. exists k. by rewrite list_lookup_imap, Hk.
    + cbn. rewrite (proj2 (Nat.eqb_neq _ _)) by done. by rewrite bool_decide_eq_true_2.
Qed.
End lists.

(** ** What a session promises: a finite map with unique names *)

(** [reference] designates the record [r], kept under [id]. *)
Definition target (m : gmap SecretId SecretRecord) (reference : SecretRef) (id : SecretId)
  (r : SecretRecord) : Prop :=
  m !! id = Some r /\ matches_ref reference r = true.

(** No record but the one under [except] has this name. *)
Definition name_free (m : gmap SecretId SecretRecord) (except : option SecretId) (name : string) : Prop :=
  forall id r, m !! id = Some r -> except <> Some id -> record_name r <> name.

Inductive spec_step `{TextCrates} (m : gmap SecretId SecretRecord) :
  vault_op -> gmap SecretId SecretRecord -> Prop :=
| spec_add fresh name fields r :
    from_parts fresh name fields = Ok r -> name_free m None (record_name r) ->
    spec_step m (VAdd fresh name fields) (<[fresh := r]> m)
| spec_rename reference new_name id r name :
    SecretRef_parse new_name = Ok (RefName name) -> target m reference id r ->
    name_free m (Some id) name ->
    spec_step m (VRename reference new_name) (<[id := set_name r name]> m)
| spec_replace_fields reference fields id r r' :
    target m reference id r -> from_parts id (record_name r) fields = Ok r' ->
    spec_step m (VReplaceFields reference fields) (<[id := r']> m)
| spec_replace_record reference new_name fields id r r' :
    target m reference id r -> from_parts id new_name fields = Ok r' ->
    name_free m (Some id) (record_name r') ->
    spec_step m (VReplaceRecord reference new_name fields) (<[id := r']> m)
| spec_delete reference id r :
    target m reference id r -> spec_step m (VDelete reference) (delete id m).

(** Uniqueness of identifiers and names, which the payload guarantees. *)
Record distinct (l : list SecretRecord) : Prop := {
  distinct_ids : NoDup (record_id <$> l);
  distinct_names : NoDup (record_name <$> l);
}.

Section unique.
Implicit Types l : list SecretRecord.

Lemma NoDup_fmap_index {B} (f : SecretRecord -> B) l i j x y :
  NoDup (f <$> l) -> l !! i = Some x -> l !! j = Some y -> f x = f y -> i = j.
Proof.
  intros Hnd Hi Hj Heq. eapply NoDup_lookup; [exact Hnd| |].
  - by rewrite list_lookup_fmap, Hi.
  - by rewrite list_lookup_fmap, Hj, Heq.
Qed.

Lemma find_record_index_iff l reference i :
  distinct l ->
  find_record_index l reference = Ok i <->
  exists r, l !! i = Some r /\ matches_ref reference r = true.
Proof.
  intros []. split.
  - intros (r & _ & _ & _ & _ & ? & ?)%find_record_index_Ok. eauto.
  - intros (r & Hi & Hm). unfold find_record_index. apply ok_or_Ok.
    destruct (position (matches_ref reference) l) as [j|] eqn:Hp.
    + f_equal. apply position_Some in Hp as (x & Hj & Hx & _).
      destruct reference; cbn in *; bool_hyps; subst.
      * eapply (NoDup_fmap_index record_name); [done..|congruence].
      * eapply (NoDup_fmap_index record_id); [done..|congruence].
    + apply list_elem_of_lookup_2 in Hi. rewrite position_None in Hp. rewrite Hp in Hm; done.
Qed.

Lemma target_iff l reference id r :
  distinct l ->
  target (records_map l) reference id r <->
  record_id r = id /\ exists i, l !! i = Some r /\ matches_ref reference r = true.
Proof.
  intros []. unfold target. rewrite records_map_lookup, list_elem_of_lookup by done. naive_solver.
Qed.

Lemma name_free_all l name :
  distinct l ->
  existsb (fun r => bool_decide (record_name r = name)) l = false <-> name_free (records_map l) None name.
Proof.
  intros []. unfold name_free. rewrite <- not_true_iff_false, existsb_exists.
  setoid_rewrite records_map_lookup; [|done]. split.
  - intros Hn id r [Hin _] _ Heq. apply Hn. exists r. rewrite bool_decide_eq_true_2 by done.
    split; [by apply list_elem_of_In|done].
  - intros Hf (r & Hin%list_elem_of_In & Hr). bool_hyps. by eapply Hf.
Qed.

Lemma name_free_except l i r name :
  distinct l -> l !! i = Some r ->
  name_used_elsewhere l i name = false <-> name_free (records_map l) (Some (record_id r)) name.
Proof.
  intros Hd Hi. destruct (split_at _ _ _ Hi) as (l1 & l2 & -> & <-).
  rewrite name_used_elsewhere_false. unfold name_free. destruct Hd as [Hids _].
  setoid_rewrite records_map_lookup; [|done]. rewrite list_elem_of_fmap. split.
  - intros Hn id x [Hx <-] Hne Heq. apply Hn. exists x. split; [done|].
    apply elem_of_app in Hx as [?|[->|?]%elem_of_cons]; [|done|]; apply elem_of_app; auto.
  - intros Hf (x & -> & Hx). eapply (Hf (record_id x) x); [|intros [= Heq]|done].
    + split; [|done]. apply elem_of_app in Hx as [?|?]; apply elem_of_app; [auto|right; by right].
    + revert Hids. rewrite fmap_app, fmap_cons. intros (_ & Hdis & Hc)%NoDup_app.
      apply NoDup_cons in Hc as [Hc _]. apply elem_of_app in Hx as [Hx|Hx].
      * apply (Hdis (record_id x)); [by apply list_elem_of_fmap_2|]. rewrite <- Heq. left.
      * apply Hc. rewrite Heq. by apply list_elem_of_fmap_2.
Qed.
End unique.


Section refinement.
Context {A : Type} `{TextCrates, ActivitySink A}.
Implicit Types s : VaultSession A.

Definition session_map s : gmap SecretId SecretRecord := records_map (session_records s).

(** A drawn identifier is new: [Uuid::new_v4] does not repeat itself. *)
Definition op_fresh (op : vault_op) s : Prop :=
  match op with VAdd fresh _ _ => fresh ∉ record_id <$> session_records s | _ => True end.

(** What every successful operation does besides changing the records. *)
Definition advanced s s' : Prop :=
  session_revision s' = session_revision s + 1 /\ session_revision s < u64_max /\
  activity s' = secret_activity (activity s) /\ key_material (vault s') = key_material (vault s) /\
  vault_id (payload (vault s')) = vault_id (payload (vault s)) /\
  idle_timeout_seconds (payload (vault s')) = idle_timeout_seconds (payload (vault s)) /\
  unknown (payload (vault s')) = unknown (payload (vault s)).

Lemma committed_advanced s p l :
  increment_revision (payload (vault s)) = Ok p -> advanced s (committed s (with_records p l)).
Proof. intros [? ->]%increment_revision_Ok. by split_and!. Qed.

Lemma committed_records s p l : session_records (committed s (with_records p l)) = l.
Proof. done. Qed.

Lemma increment_records p q : increment_revision p = Ok q -> records q = records p.
Proof. by intros [_ ->]%increment_revision_Ok. Qed.

(** The successful outcomes of the operations, with the lists they leave. *)
Lemma exec_Ok op s s' :
  exec op s = Ok s' ->
  advanced s s' /\
  match op with
  | VAdd fresh name fields => exists r,
      from_parts fresh name fields = Ok r /\
      existsb (fun x => bool_decide (record_name x = record_name r)) (session_records s) = false /\
      session_records s' = session_records s ++ [r]
  | VRename reference new_name => exists i r name,
      SecretRef_parse new_name = Ok (RefName name) /\
      find_record_index (session_records s) reference = Ok i /\ session_records s !! i = Some r /\
      name_used_elsewhere (session_records s) i name = false /\
      session_records s' = <[i := set_name r name]> (session_records s)
  | VReplaceFields reference fields => exists i r r',
      find_record_index (session_records s) reference = Ok i /\ session_records s !! i = Some r /\
      from_parts (record_id r) (record_name r) fields = Ok r' /\
      session_records s' = <[i := r']> (session_records s)
  | VReplaceRecord reference new_name fields => exists i j r r',
      find_record_index (session_records s) reference = Ok i /\ session_records s !! i = Some r /\
      from_parts (record_id r) new_name fields = Ok r' /\
      name_used_elsewhere (session_records s) i (record_name r') = false /\
      find_record_index (session_records s) (RefId (record_id r)) = Ok j /\
      session_records s' = <[j := r']> (session_records s)
  | VDelete reference => exists i r,
      find_record_index (session_records s) reference = Ok i /\ session_records s !! i = Some r /\
      session_records s' = delete i (session_records s)
  end.
Proof.
  destruct op as [fresh name fields|reference new|reference fields|reference new fields|reference];
    cbn [exec].
  - unfold add, SecretRecord_new. intros ([id x] & (r & Hr & Hx)%bind_Ok & <-)%fmap_Ok.
    destruct (existsb _ _) eqn:He; [done|]. apply bind_Ok in Hx as (p & Hp & [= <- <-]).
    split; [by apply committed_advanced|]. exists r. rewrite (increment_records _ _ Hp) in *. done.
  - unfold rename. intros (n & Hn & (i & Hi & Hx)%bind_Ok)%bind_Ok.
    apply bind_Ok in Hn as ([nm|?] & Hn & [= ->]). 
    destruct (name_used_elsewhere _ _ _) eqn:He; [done|]. apply bind_Ok in Hx as (p & Hp & [= <-]).
    split; [by apply committed_advanced|].
    pose proof Hi as (r & _ & _ & _ & _ & _ & Hl)%find_record_index_Ok.
    exists i, r, n. split_and!; try done. rewrite committed_records, (increment_records _ _ Hp).
    by apply (list_alter_insert_lookup (fun x => set_name x n)).
  - unfold replace_fields. intros (i & Hi & (r & Hl%ok_or_Ok & (r' & Hr & Hx)%bind_Ok)%bind_Ok)%bind_Ok.
    apply bind_Ok in Hx as (p & Hp & [= <-]). split; [by apply committed_advanced|].
    exists i, r, r'. by rewrite committed_records, (increment_records _ _ Hp).
  - unfold prepare_record_replacement, apply_record_replacement.
    intros (prep & (i & Hi & (r & Hl%ok_or_Ok & (r' & Hr & Hx)%bind_Ok)%bind_Ok)%bind_Ok & Ha)%bind_Ok.
    destruct (name_used_elsewhere _ _ _) eqn:He; [done|]. injection Hx as <-.
    destruct (negb _); [done|]. cbn [target_id replacement] in Ha.
    apply bind_Ok in Ha as (j & Hj & (p & Hp & [= <-])%bind_Ok).
    split; [by apply committed_advanced|].
    exists i, j, r, r'. by rewrite committed_records, (increment_records _ _ Hp).
  - unfold delete_record. intros (i & Hi & (p & Hp & [= <-])%bind_Ok)%bind_Ok.
    split; [by apply committed_advanced|].
    pose proof Hi as (r & _ & _ & _ & _ & _ & Hl)%find_record_index_Ok.
    exists i, r. by rewrite committed_records, (increment_records _ _ Hp).
Qed.

(** Every success is a step of the map. *)
Lemma exec_sound op s s' :
  distinct (session_records s) -> op_fresh op s -> exec op s = Ok s' ->
  spec_step (session_map s) op (session_map s').
Proof.
  intros Hd Hfresh [_ Hcase]%exec_Ok. unfold session_map.
  assert (Ht : forall reference i, find_record_index (session_records s) reference = Ok i ->
    exists r, session_records s !! i = Some r /\
      target (records_map (session_records s)) reference (record_id r) r).
  { intros reference i (r & Hl & Hm)%find_record_index_iff; [|done]. exists r. split; [done|].
    apply target_iff; eauto. }
  assert (Hset : forall i r r', session_records s !! i = Some r -> record_id r' = record_id r ->
    records_map (<[i := r']> (session_records s)) =
    <[record_id r := r']> (records_map (session_records s))).
  { intros i r r' (l1 & l2 & Hl & <-)%split_at Hid. destruct Hd as [Hids _]. rewrite Hl in *.
    rewrite insert_at. by apply records_map_replace. }
  destruct op as [fresh name fields|reference new|reference fields|reference new fields|reference].
  - destruct Hcase as (r & Hr & He & ->). pose proof Hr as (_ & _ & _ & _ & Hid)%from_parts_Ok.
    rewrite records_map_middle, app_nil_r by (rewrite fmap_app; apply NoDup_app;
      rewrite Hid; cbn; split_and!; [apply Hd|set_solver|apply NoDup_singleton]).
    replace (record_id r) with fresh by by rewrite Hid.
    apply spec_add; [done|]. by apply name_free_all.
  - destruct Hcase as (i & r & n & Hn & (r0 & Hl0 & Htg)%Ht & Hl & He & ->).
    assert (r0 = r) as -> by congruence. rewrite (Hset _ _ _ Hl) by done. apply (spec_rename _ _ _ _ r); [done|done|].
    by apply (name_free_except _ i).
  - destruct Hcase as (i & r & r' & (r0 & Hl0 & Htg)%Ht & Hl & Hr & ->). assert (r0 = r) as -> by congruence.
    pose proof Hr as (_ & _ & _ & _ & Hid)%from_parts_Ok.
    rewrite (Hset _ _ _ Hl) by by rewrite Hid. by apply (spec_replace_fields _ _ _ _ r).
  - destruct Hcase as (i & j & r & r' & (r0 & Hl0 & Htg)%Ht & Hl & Hr & He & Hj & ->). assert (r0 = r) as -> by congruence.
    pose proof Hr as (_ & _ & _ & _ & Hid)%from_parts_Ok.
    assert (j = i) as ->.
    { assert (Ok (E := LadonError) j = Ok i) as [=]; [|done]. rewrite <- Hj.
      apply find_record_index_iff; [done|]. exists r. cbn. by rewrite bool_decide_eq_true_2. }
    rewrite (Hset _ _ _ Hl) by by rewrite Hid. apply (spec_replace_record _ _ _ _ _ r); [done..|].
    by apply (name_free_except _ i).
  - destruct Hcase as (i & r & (r0 & Hl0 & Htg)%Ht & Hl & ->). assert (r0 = r) as -> by congruence.
    apply split_at in Hl as (l1 & l2 & Hl & <-). destruct Hd as [Hids _]. rewrite Hl in *.
    rewrite delete_at, (records_map_remove _ _ _ Hids). by apply (spec_delete _ _ _ r).
Qed.

Lemma increment_revision_cases p :
  (exists q, increment_revision p = Ok q) \/
  (increment_revision p = Err RevisionOverflow /\ u64_max <= revision p).
Proof.
  unfold increment_revision. destruct (checked_add u64_max (revision p) 1) as [n|] eqn:Hc; cbn; [eauto|].
  apply checked_add_None in Hc. right. split; [done|lia].
Qed.

(** Every step of the map is taken, unless the revision is exhausted. *)
Lemma exec_complete op s m :
  distinct (session_records s) -> spec_step (session_map s) op m ->
  (exists s', exec op s = Ok s') \/
  (exec op s = Err RevisionOverflow /\ u64_max <= session_revision s).
Proof.
  intros Hd Hstep. unfold session_map in Hstep.
  assert (Ht : forall reference id r, target (records_map (session_records s)) reference id r ->
    record_id r = id /\ exists i, find_record_index (session_records s) reference = Ok i /\
                                 session_records s !! i = Some r).
  { intros reference id r (<- & i & Hl & Hm)%target_iff; [|done]. split; [done|].
    exists i. split; [|done]. apply find_record_index_iff; eauto. }
  assert (Hfin : forall f : VaultPayload -> VaultSession A,
    (exists s', (p ← increment_revision (payload (vault s)); Ok (f p)) = Ok s') \/
    ((p ← increment_revision (payload (vault s)); Ok (f p)) = Err RevisionOverflow /\
     u64_max <= session_revision s)).
  { intros f. unfold session_revision.
    destruct (increment_revision_cases (payload (vault s))) as [[q ->]|[-> ?]]; cbn; eauto. }
  destruct Hstep as [fresh name fields r Hr Hfree|reference new id r n Hn Htg Hfree
    |reference fields id r r' Htg Hr|reference new fields id r r' Htg Hr Hfree|reference id r Htg];
    cbn [exec]; try (destruct (Ht _ _ _ Htg) as (<- & i & Hi & Hl)).
  - unfold add, SecretRecord_new. rewrite Hr. cbn [mbind result_bind].
    rewrite (proj2 (name_free_all _ _ Hd)) by done.
    destruct (increment_revision_cases (payload (vault s))) as [[q ->]|[-> ?]]; cbn; eauto.
  - unfold rename. rewrite Hn. cbn [mbind result_bind]. rewrite Hi. cbn [mbind result_bind].
    rewrite (proj2 (name_free_except _ _ _ _ Hd Hl)) by done. apply Hfin.
  - unfold replace_fields. rewrite Hi. cbn [mbind result_bind]. rewrite Hl.
    cbn [ok_or mbind result_bind]. rewrite Hr. apply Hfin.
  - unfold prepare_record_replacement, apply_record_replacement. rewrite Hi.
    cbn [mbind result_bind]. rewrite Hl. cbn [ok_or mbind result_bind]. rewrite Hr.
    cbn [mbind result_bind]. rewrite (proj2 (name_free_except _ _ _ _ Hd Hl)) by done.
    cbn [mbind result_bind expected_revision target_id replacement]. rewrite Z.eqb_refl. cbn [negb].
    rewrite (proj2 (find_record_index_iff _ (RefId (record_id r)) i Hd)); [apply Hfin|].
    exists r. split; [done|]. cbn. by rewrite bool_decide_eq_true_2.
  - unfold delete_record. rewrite Hi. apply Hfin.
Qed.

(** C26. The session implements a finite map from identifiers to records in which
    names are unique.  An operation that succeeds takes the step of the map that it
    announces, adds one to the revision, notes the activity and changes nothing
    else; one that fails does so because the map has no such step, or because the
    revision has reached its maximum. *)
Theorem exec_refines op s :
  distinct (session_records s) -> op_fresh op s ->
  match exec op s with
  | Ok s' => spec_step (session_map s) op (session_map s') /\ advanced s s'
  | Err e => (e = RevisionOverflow /\ u64_max <= session_revision s) \/
             forall m, ~ spec_step (session_map s) op m
  end.
Proof.
  intros Hd Hf. destruct (exec op s) as [s'|e] eqn:He.
  - split; [by eapply exec_sound|by apply exec_Ok in He as [? _]].
  - destruct (decide (e = RevisionOverflow /\ u64_max <= session_revision s)) as [?|Hn]; [by left|].
    right. intros m [[s' ?]|[? ?]]%exec_complete; [congruence| |done].
    apply Hn. split; [congruence|done].
Qed.
End refinement.

(** ** The invariant of the payload *)
Section invariant.
Context {A : Type} `{TextCratesLaws, Cbor, ActivitySink A}.
Implicit Types s : VaultSession A.

Definition session_wf s : Prop := payload_wf (payload (vault s)).

Definition text_wf (s : string) : Prop := valid_utf8 (bytes_of s).

(** What the arguments of an operation satisfy by their types. *)
Definition op_wf (op : vault_op) : Prop :=
  match op with
  | VAdd fresh name fields => uuid_wf fresh /\ text_wf name /\ Forall field_wf fields
  | VRename _ name => text_wf name
  | VReplaceFields _ fields => Forall field_wf fields
  | VReplaceRecord _ name fields => text_wf name /\ Forall field_wf fields
  | VDelete _ => True
  end.

Lemma from_parts_stored id name fields r :
  uuid_wf id -> text_wf name -> Forall field_wf fields -> from_parts id name fields = Ok r ->
  stored_record_wf r.
Proof.
  intros Hid Hn Hf Hr. split; [by eapply from_parts_wf|].
  apply from_parts_Ok in Hr as (_ & _ & _ & (-> & _)%SecretName_parse_Ok & _). by apply nfc_valid.
Qed.

Lemma payload_wf_distinct p : payload_wf p -> distinct (records p).
Proof. by intros []. Qed.

Lemma NoDup_fmap_middle {B} (f : SecretRecord -> B) l1 x l2 :
  NoDup (f <$> (l1 ++ x :: l2)) <-> (f x ∉ f <$> (l1 ++ l2)) /\ NoDup (f <$> (l1 ++ l2)).
Proof. rewrite <- NoDup_cons, <- fmap_cons. by rewrite Permutation_middle. Qed.

Lemma Forall_middle {B} (P : B -> Prop) (l1 l2 : list B) x :
  Forall P (l1 ++ x :: l2) <-> P x /\ Forall P (l1 ++ l2).
Proof. rewrite !Forall_app, Forall_cons. tauto. Qed.

(** The invariant in terms of the record list alone. *)
Record list_wf (l : list SecretRecord) : Prop := {
  lw_count : zlen l <= MAX_RECORDS;
  lw_ids : NoDup (record_id <$> l);
  lw_names : NoDup (record_name <$> l);
  lw_records : Forall stored_record_wf l;
}.

Lemma session_wf_advanced s s' :
  session_wf s -> advanced s s' -> list_wf (session_records s') -> session_wf s'.
Proof.
  unfold session_wf, advanced, session_revision, u64_max.
  intros [] (Hr & ? & _ & _ & Hi & Ht & Hu) []. constructor; rewrite ?Hr, ?Hi, ?Ht, ?Hu; try done. lia.
Qed.

Lemma list_wf_set l i r r' :
  list_wf l -> l !! i = Some r -> record_id r' = record_id r ->
  record_name r' = record_name r \/ name_used_elsewhere l i (record_name r') = false ->
  stored_record_wf r' -> list_wf (<[i := r']> l).
Proof.
  intros [Hc Hi Hn Hw] (l1 & l2 & -> & <-)%split_at Hid Hname Hr'. rewrite insert_at.
  rewrite name_used_elsewhere_false in Hname.
  rewrite NoDup_fmap_middle in Hi. rewrite NoDup_fmap_middle in Hn.
  rewrite Forall_middle in Hw. constructor.
  - revert Hc. by rewrite !zlen_app, !zlen_cons.
  - by rewrite NoDup_fmap_middle, Hid.
  - rewrite NoDup_fmap_middle. split; [|tauto].
    destruct Hname as [->|?]; [tauto|done].
  - rewrite Forall_middle. tauto.
Qed.

Lemma list_wf_lookup l i r : list_wf l -> l !! i = Some r -> stored_record_wf r.
Proof. intros [] Hl. by eapply Forall_lookup_1. Qed.

Lemma list_wf_snoc l r :
  list_wf l -> zlen l < MAX_RECORDS -> record_id r ∉ record_id <$> l ->
  record_name r ∉ record_name <$> l -> stored_record_wf r -> list_wf (l ++ [r]).
Proof.
  intros [] Hl Hi Hn Hr. constructor.
  - rewrite zlen_app, zlen_cons, zlen_nil. lia.
  - by rewrite NoDup_fmap_middle, app_nil_r.
  - by rewrite NoDup_fmap_middle, app_nil_r.
  - apply Forall_app. split; [done|]. by apply Forall_singleton.
Qed.

Lemma list_wf_delete l i r : list_wf l -> l !! i = Some r -> list_wf (delete i l).
Proof.
  intros [Hc Hi Hn Hw] (l1 & l2 & -> & <-)%split_at. rewrite delete_at.
  rewrite NoDup_fmap_middle in Hi. rewrite NoDup_fmap_middle in Hn. rewrite Forall_middle in Hw.
  constructor; [|tauto..]. revert Hc. rewrite !zlen_app, zlen_cons. lia.
Qed.

Lemma exec_keeps_wf op s s' :
  session_wf s -> op_wf op -> op_fresh op s ->
  (forall fresh name fields, op = VAdd fresh name fields -> zlen (session_records s) < MAX_RECORDS) ->
  exec op s = Ok s' -> session_wf s'.
Proof.
  intros Hs Hop Hfresh Hroom [Hadv Hcase]%exec_Ok. apply (session_wf_advanced s); [done..|].
  assert (Hl : list_wf (session_records s)) by by destruct Hs.
  destruct op as [fresh name fields|reference new|reference fields|reference new fields|reference].
  - destruct Hcase as (r & Hr & He & ->). destruct Hop as (? & ? & ?).
    pose proof Hr as (_ & _ & _ & _ & Hid)%from_parts_Ok.
    apply list_wf_snoc; [done|by eapply Hroom|by rewrite Hid| |by eapply from_parts_stored].
    intros (x & Hx & Hin)%list_elem_of_fmap. rewrite <- not_true_iff_false, existsb_exists in He.
    apply He. exists x. rewrite bool_decide_eq_true_2 by done. by split; [apply list_elem_of_In|].
  - destruct Hcase as (i & r & n & Hn & _ & Hr & He & ->).
    apply list_wf_set with r; [done|done|done|by right|].
    assert (name_wf n /\ text_wf n) as [Hnw Ht].
    { unfold SecretRef_parse in Hn. destruct (strip_prefix _ _); [apply fmap_Ok in Hn as (x & _ & Hx); discriminate Hx|].
      apply fmap_Ok in Hn as (m & Hm & [= ->]). split; [by eapply SecretName_parse_wf|].
      apply SecretName_parse_Ok in Hm as (-> & _). by apply nfc_valid. }
    pose proof (list_wf_lookup _ _ _ Hl Hr) as [[] _]. by split.
  - destruct Hcase as (i & r & r' & _ & Hr & Hp & ->).
    pose proof (list_wf_lookup _ _ _ Hl Hr) as [Hrw Hrt].
    pose proof Hp as (_ & _ & _ & Hname & Hid)%from_parts_Ok.
    apply list_wf_set with r; [done|done|by rewrite Hid| |].
    + left. pose proof (wf_name _ Hrw) as Hnm. unfold name_wf in Hnm. congruence.
    + apply from_parts_stored in Hp; [done|apply Hrw|done|done].
  - destruct Hcase as (i & j & r & r' & Hi & Hr & Hp & He & Hj & ->). destruct Hop as [? ?].
    assert (Hd : distinct (session_records s)) by by destruct Hs.
    assert (j = i) as ->.
    { assert (Ok (E := LadonError) j = Ok i) as [=]; [|done]. rewrite <- Hj.
      apply find_record_index_iff; [done|]. exists r. cbn. by rewrite bool_decide_eq_true_2. }
    pose proof Hp as (_ & _ & _ & _ & Hid)%from_parts_Ok.
    pose proof (list_wf_lookup _ _ _ Hl Hr) as [[] _].
    apply list_wf_set with r; [done|done|by rewrite Hid|by right|].
    by apply from_parts_stored in Hp.
  - destruct Hcase as (i & r & _ & Hr & ->). by eapply list_wf_delete.
Qed.
End invariant.

(** ** Whole sessions *)
Section sessions.
Context {A : Type} `{TextCratesLaws, CborLaws, CryptoLaws, ActivitySink A}.
Context {R : Type} `{RandomSourceLaws R}.
Implicit Types s : VaultSession A.

(** Is there room for what the operation adds? *)
Definition room (op : vault_op) s : Prop :=
  match op with VAdd _ _ _ => zlen (session_records s) < MAX_RECORDS | _ => True end.

Definition after (op : vault_op) s : VaultSession A :=
  match exec op s with Ok s' => s' | Err _ => s end.

(** A history of operations on values of their types, with new identifiers and
    never more records than a vault may hold. *)
Fixpoint history_ok (ops : list vault_op) s : Prop :=
  match ops with
  | [] => True
  | op :: ops => op_wf op /\ op_fresh op s /\ room op s /\ history_ok ops (after op s)
  end.

Lemma history_keeps_wf ops s : session_wf s -> history_ok ops s -> session_wf (exec_all ops s).
Proof.
  revert s. induction ops as [|op ops IH]; intros s Hs Hh; [done|].
  destruct Hh as (Hop & Hf & Hr & Hh). cbn [exec_all]. apply IH; [|exact Hh].
  destruct (exec op s) as [s'|e] eqn:He; [|done].
  eapply exec_keeps_wf; [done|exact Hop|exact Hf| |exact He]. by intros ? ? ? ->.
Qed.

Lemma exec_all_keys ops s : key_material (vault (exec_all ops s)) = key_material (vault s).
Proof.
  revert s. induction ops as [|op ops IH]; intros s; [done|]. cbn [exec_all]. rewrite IH.
  destruct (exec op s) as [s'|e] eqn:He; [|done].
  apply exec_Ok in He as [(_ & _ & _ & Hk & _) _]. done.
Qed.

Lemma exec_all_revision ops s :
  session_revision s <= session_revision (exec_all ops s) /\
  (session_revision (exec_all ops s) = session_revision s -> exec_all ops s = s).
Proof.
  revert s. induction ops as [|op ops IH]; intros s; [split; [cbn; lia|done]|]. cbn [exec_all].
  destruct (exec op s) as [s'|e] eqn:He; [|apply IH].
  apply exec_Ok in He as [(Hr & _) _]. destruct (IH s') as [Hle _]. split; [lia|intros; exfalso; lia].
Qed.

(** C8. Nothing a session does to the records is lost: after any history of
    operations on an unlocked vault that keeps to the limit on records, the payload
    is still well formed, and the file the session seals is unlocked by the same
    passphrase to exactly the vault the session holds. *)
Theorem history_survives_sealing file pass u (a : A) ops (r r' : R) file' :
  let s := exec_all ops (session_new u a) in
  unlock_vault file pass = Ok u -> history_ok ops (session_new u a) ->
  session_seal s r = Ok (file', r') ->
  session_wf s /\ unlock_vault file' pass = Ok (vault s).
Proof.
  intros s Hu Hh Hs. pose proof Hu as (Ho & Hp & _)%unlock_vault_Ok.
  assert (Hw : session_wf s) by by apply history_keeps_wf.
  split; [done|]. apply seal_payload_sealed in Hs. apply unlock_vault_Ok. split_and!; [|done|done].
  unfold s. by rewrite exec_all_keys.
Qed.

(** A prepared replacement is applied only to the state it was prepared for:
    if any operation succeeded in between, it is refused as [InvalidRequest] and
    nothing changes, so no update is lost. *)
Theorem prepared_replacement_is_current reference name fields s prepared ops :
  prepare_record_replacement reference name fields s = Ok prepared ->
  let s1 := exec_all ops s in
  (s1 = s /\ apply_record_replacement prepared s1 = exec (VReplaceRecord reference name fields) s) \/
  (session_revision s < session_revision s1 /\
   apply_record_replacement prepared s1 = Err InvalidRequest).
Proof.
  intros Hp s1. destruct (exec_all_revision ops s) as [Hle Heq]. fold s1 in Hle, Heq.
  destruct (decide (session_revision s1 = session_revision s)) as [He|Hne].
  - left. split; [auto|]. rewrite (Heq He). cbn [exec]. by rewrite Hp.
  - right. split; [lia|]. unfold apply_record_replacement.
    assert (expected_revision prepared = session_revision s) as ->.
    { unfold prepare_record_replacement in Hp. inv_ok. done. }
    by rewrite (proj2 (Z.eqb_neq _ _)).
Qed.

(** The payload with one more record, at the next revision. *)
Definition grown (p : VaultPayload) (record : SecretRecord) : VaultPayload := {|
  vault_id := vault_id p; revision := revision p + 1; records := records p ++ [record];
  idle_timeout_seconds := idle_timeout_seconds p; unknown := unknown p;
|}.

(** [add] looks at the name and at the revision, and at nothing else. *)
Lemma add_grows s fresh name fields record :
  0 <= session_revision s < u64_max -> from_parts fresh name fields = Ok record ->
  record_name record ∉ record_name <$> session_records s ->
  add fresh name fields s = Ok (fresh, committed s (grown (payload (vault s)) record)).
Proof.
  intros Hrev Hp Hn. unfold add, SecretRecord_new. rewrite Hp. cbn [mbind result_bind].
  destruct (existsb _ _) eqn:He.
  { apply existsb_exists in He as (x & Hx%list_elem_of_In & Heq%bool_decide_eq_true).
    destruct Hn. apply list_elem_of_fmap. by exists x. }
  unfold increment_revision, session_revision, u64_max in *.
  rewrite (proj2 (checked_add_Some _ _ _ _)) by (split; [reflexivity|lia]).
  cbn [ok_or mbind result_bind].
  apply from_parts_Ok in Hp as (_ & _ & _ & _ & ->). reflexivity.
Qed.

(** C40. Adding a record to a full vault destroys it: a record with a name of its own
    is added without an error to a vault that holds MAX_RECORDS already, the session
    seals the result without an error (if it fits the limit on bytes and the source
    of randomness and the cipher answer), and the file cannot be unlocked any more,
    not even with the right passphrase. *)
Theorem add_to_full_vault_unreadable pass s fresh name fields record nonce (r r' : R) :
  opens pass (key_material (vault s)) -> uuid_wf (vault_id (payload (vault s))) ->
  0 <= session_revision s < u64_max -> zlen (unknown (payload (vault s))) <= MAX_RECORDS ->
  zlen (session_records s) = MAX_RECORDS ->
  from_parts fresh name fields = Ok record ->
  record_name record ∉ record_name <$> session_records s ->
  zlen (payload_bytes (grown (payload (vault s)) record)) <= MAX_VAULT_PAYLOAD_BYTES ->
  fill NONCE_BYTES r = Ok (nonce, r') ->
  (forall k n p a, zlen p <= MAX_VAULT_PAYLOAD_BYTES -> is_Some (aead_encrypt k n p a)) ->
  exists s' file,
    add fresh name fields s = Ok (fresh, s') /\
    session_seal s' r = Ok (file, r') /\
    unlock_vault file pass = Err VaultAuthenticationFailed.
Proof.
  intros Ho Hid Hrev Hunk Hfull Hp Hn Hbytes Hfill Haead.
  set (p' := grown (payload (vault s)) record) in *.
  destruct (Haead (dek (key_material (vault s))) nonce (payload_bytes p')
    (associated_data PAYLOAD_DOMAIN (prefix_through_dek_tag (key_material (vault s)) ++
      be_bytes 8 (zlen (payload_bytes p')))) Hbytes) as [ct Hct].
  assert (Hseal : exists file, session_seal (committed s p') r = Ok (file, r')).
  { unfold session_seal, Crypto.seal. change (payload (vault (committed s p'))) with p'.
    change (key_material (vault (committed s p'))) with (key_material (vault s)).
    unfold seal_payload, encode_payload, encrypt.
    rewrite (proj2 (Z.ltb_ge _ _)) by done. cbn [mbind result_bind]. rewrite Hfill.
    cbn [mbind result_bind]. rewrite Hct. by eexists. }
  destruct Hseal as [file Hseal]. exists (committed s p'), file.
  split; [by apply add_grows|]. split; [done|].
  apply seal_payload_sealed in Hseal as (plaintext & nonce' & ct' & Hs).
  rewrite (unlock_of_encrypted _ _ _ _ _ _ _ Ho Hs), (decode_too_many p' plaintext); [done|done|..].
  - unfold p', session_revision, u64_max in *. cbn [revision grown]. lia.
  - done.
  - unfold p'. cbn [records grown]. rewrite zlen_app, zlen_cons, zlen_nil.
    unfold session_records, MAX_RECORDS in *. lia.
  - apply Hs.
Qed.
End sessions.

(** ** Instances *)
#[export] Instance count_activity : ActivitySink nat := S.

Definition example_session : VaultSession nat := session_new example_vault 0%nat.

Lemma example_session_wf : session_wf example_session.
Proof. exact (proj1 (proj2 (unlock_inv _ _ _ example_opened))). Qed.

Definition example_field : SecretField :=
  {| field_name := "token"; field_value := bytes_of "abc"; field_hint := Binary |}.

Example exec_refines_witness :
  match exec (VAdd 8 "archive" [example_field]) example_session with
  | Ok s' => spec_step (session_map example_session) (VAdd 8 "archive" [example_field]) (session_map s')
  | Err _ => False
  end.
Proof.
  assert (Hf : op_fresh (VAdd 8 "archive" [example_field]) example_session)
    by (apply (bool_decide_unpack _); vm_compute; reflexivity).
  pose proof (exec_refines (VAdd 8 "archive" [example_field]) example_session
    (payload_wf_distinct _ example_session_wf) Hf) as Hr.
  assert (Hok : is_ok (exec (VAdd 8 "archive" [example_field]) example_session) = true)
    by (vm_compute; reflexivity).
  destruct (exec _ _) as [s'|e]; [apply Hr|discriminate Hok].
Defined.

Definition example_history : list vault_op :=
  [VAdd 8 "archive" [example_field]; VRename (RefName "database") "primary"; VDelete (RefId 8)].

Lemma example_history_ok : history_ok example_history (session_new example_vault 0%nat).
Proof.
  cbn [history_ok example_history]. split_and!; try done.
  all: apply (bool_decide_unpack _); vm_compute; reflexivity.
Qed.

Definition history_sealed : bytes :=
  match session_seal (exec_all example_history example_session) start with
  | Ok (file, _) => file | Err _ => [] end.
Definition history_random : BoundedRandom :=
  match session_seal (exec_all example_history example_session) start with
  | Ok (_, r) => r | Err _ => start end.

Example history_survives_sealing_witness :
  unlock_vault history_sealed example_passphrase =
  Ok (vault (exec_all example_history example_session)).
Proof.
  apply (history_survives_sealing example_file example_passphrase example_vault 0%nat
           example_history start history_random history_sealed).
  - exact example_opened.
  - exact example_history_ok.
  - vm_compute. reflexivity.
Defined.

Definition example_prepared : PreparedRecordReplacement := {|
  expected_revision := 3; target_id := 7;
  replacement := {| record_id := 7; record_name := "other"; record_fields := [example_field] |};
|}.

Lemma example_prepare :
  prepare_record_replacement (RefId 7) "other" [example_field] example_session = Ok example_prepared.
Proof. vm_compute. reflexivity. Qed.

Example prepared_replacement_is_current_witness :
  exec_all example_history example_session = example_session \/
  apply_record_replacement example_prepared (exec_all example_history example_session) =
    Err InvalidRequest.
Proof.
  pose proof (prepared_replacement_is_current (RefId 7) "other" [example_field] example_session
    example_prepared example_history example_prepare) as Hp.
  destruct Hp as [[He _]|[_ He]]; [left; exact He|right; exact He].
Defined.

(** A full vault, and the record too many. *)
Definition late_record : SecretRecord :=
  {| record_id := 8; record_name := "archive"; record_fields := [example_field] |}.
Definition full_session (u : UnlockedVault) (n : nat) : VaultSession nat :=
  session_new (with_payload u (crowded_payload 3 n [])) 0%nat.

Lemma full_session_names u n : "archive"%string ∉ record_name <$> session_records (full_session u n).
Proof.
  unfold session_records, full_session. cbn [vault session_new with_payload payload records crowded_payload].
  rewrite app_nil_r, fmap_replicate. intros [Hn _]%elem_of_replicate. discriminate Hn.
Qed.

Lemma grown_crowded n :
  grown (crowded_payload 3 n []) late_record = crowded_payload 4 n [late_record].
Proof. unfold grown, crowded_payload. cbn [vault_id revision records idle_timeout_seconds unknown].
  by rewrite app_nil_r. Qed.

Example add_to_full_vault_unreadable_witness :
  exists s' file r',
    add 8 "archive" [example_field] (full_session example_vault (Z.to_nat 10000)) = Ok (8, s') /\
    session_seal s' start = Ok (file, r') /\
    unlock_vault file example_passphrase = Err VaultAuthenticationFailed.
Proof.
  generalize example_opens. generalize example_vault as u.
  assert (Hn : Z.of_nat (Z.to_nat 10000) = 10000) by lia. revert Hn.
  generalize (Z.to_nat 10000) as n. intros n Hn u Hu.
  destruct (fill NONCE_BYTES start) as [[nonce r']|e] eqn:Hf; [|discriminate Hf].
  destruct (add_to_full_vault_unreadable example_passphrase (full_session u n) 8 "archive"
    [example_field] late_record nonce start r') as (s' & file & Hok).
  - exact Hu.
  - split; vm_compute; congruence.
  - split; vm_compute; congruence.
  - vm_compute; congruence.
  - unfold session_records, full_session. cbn [vault session_new with_payload payload].
    rewrite crowded_payload_count, zlen_nil, Hn. reflexivity.
  - vm_compute. reflexivity.
  - apply full_session_names.
  - unfold full_session. cbn [vault session_new with_payload payload]. rewrite grown_crowded.
    assert (He : encode_payload (crowded_payload 4 n [late_record]) =
                 Ok (payload_bytes (crowded_payload 4 n [late_record])))
      by (apply encode_crowded; [lia|vm_compute; congruence]).
    unfold encode_payload in He. destruct (_ <? _) eqn:Hlt in He; [discriminate He|].
    apply Z.ltb_ge. exact Hlt.
  - exact Hf.
  - intros k nc p a _. eexists. reflexivity.
  - exists s', file, r'. exact Hok.
Defined.
