(* ===== verification/Store.v ===== *)
(** * Store: [crates/ladon-core/src/store.rs]

    [VaultStore]: two copies of the encrypted vault, replaced one after the other
    through verified candidates.  The file system is modelled down to what a crash
    may leave: directory updates that were not flushed by [sync_parent] may each be
    lost, data that was not flushed by [sync_all] may be anything. *)

From S2P Require Import Prelude Errors Utf8 Model Cbor CborReference Codec Crypto.
Local Open Scope Z_scope.

(** ** A Unix file system

    A path is a directory and a file name.  [dir] is what programs see, [durable]
    what the medium holds, [pending] the directory updates in between, oldest first. *)
Abbreviation Path := (string * string)%type (only parsing).

Record Inode := { content : bytes; synced : bool }.
Abbreviation dir_update := (list (Path * option nat)) (only parsing).

(** What happens to an operation: it succeeds, it fails, or the machine stops,
    the latter two after some progress. *)
Inductive event : Set := Fine | Fault (progress : nat) | Crash (progress : nat).

Record Disk := {
  dir : gmap Path nat;
  durable : gmap Path nat;
  pending : list dir_update;
  inodes : gmap nat Inode;
  next_inode : nat;
  events : nat -> event;
  time : nat;
}.

Definition apply_update (d : gmap Path nat) (u : dir_update) : gmap Path nat :=
  foldl (fun d pi => match pi.2 with Some i => <[pi.1 := i]> d | None => delete pi.1 d end) d u.
Definition apply_updates (d : gmap Path nat) (us : list dir_update) : gmap Path nat :=
  foldl apply_update d us.

Definition file_at (w : Disk) (p : Path) : option bytes :=
  i ← dir w !! p; content <$> inodes w !! i.

(** The disk found after a crash of [w]: some of the pending updates made it. *)
Record reboot (w w' : Disk) : Prop := {
  rb_dir : exists sub, sub `sublist_of` pending w /\ dir w' = apply_updates (durable w) sub;
  rb_durable : durable w' = dir w';
  rb_pending : pending w' = [];
  rb_inodes i n : inodes w !! i = Some n -> synced n = true -> inodes w' !! i = Some n;
}.

(** ** Programs with input and output *)
Inductive outcome (A : Type) : Type := Done (r : LResult A) | Crashed.
Arguments Done {A} r.
Arguments Crashed {A}.

Definition IO (A : Type) : Type := Disk -> outcome A * Disk.

#[export] Instance io_ret : MRet IO := fun A a w => (Done (Ok a), w).
#[export] Instance io_bind : MBind IO := fun A B f m w =>
  match m w with
  | (Done (Ok a), w) => f a w
  | (Done (Err e), w) => (Done (Err e), w)
  | (Crashed, w) => (Crashed, w)
  end.

Definition io_result {A} (r : LResult A) : IO A := fun w => (Done r, w).

Definition next_event (w : Disk) : Disk :=
  {| dir := dir w; durable := durable w; pending := pending w; inodes := inodes w;
     next_inode := next_inode w; events := events w; time := S (time w) |}.

(** One system call: [act] is its effect, [partial] what a failure leaves. *)
Definition perform {A} (act : Disk -> option (A * Disk)) (partial : nat -> Disk -> Disk) : IO A :=
  fun w =>
  let ev := events w (time w) in
  let w := next_event w in
  match ev with
  | Fine => match act w with
            | Some (a, w') => (Done (Ok a), w')
            | None => (Done (Err StorageFailure), w)
            end
  | Fault k => (Done (Err StorageFailure), partial k w)
  | Crash k => (Crashed, partial k w)
  end.

Definition untouched (_ : nat) (w : Disk) : Disk := w.

Definition set_dir (w : Disk) (u : dir_update) : Disk :=
  {| dir := apply_update (dir w) u; durable := durable w; pending := pending w ++ [u];
     inodes := inodes w; next_inode := next_inode w; events := events w; time := time w |}.
Definition set_inode (w : Disk) (i : nat) (n : Inode) : Disk :=
  {| dir := dir w; durable := durable w; pending := pending w; inodes := <[i := n]> (inodes w);
     next_inode := Nat.max (next_inode w) (S i); events := events w; time := time w |}.
Definition flush_dir (w : Disk) : Disk :=
  {| dir := dir w; durable := dir w; pending := []; inodes := inodes w;
     next_inode := next_inode w; events := events w; time := time w |}.

(** [OpenOptions::new().write(true).create_new(true).mode(0o600).open(path)]. *)
Definition create_new (p : Path) : IO nat :=
  perform (fun w =>
    match dir w !! p with
    | Some _ => None
    | None =>
      let i := next_inode w in
      Some (i, set_dir (set_inode w i {| content := []; synced := false |}) [(p, Some i)])
    end) untouched.

(** [File::write_all] to a file just created. *)
Definition write_all (i : nat) (data : bytes) : IO unit :=
  perform (fun w => Some (tt, set_inode w i {| content := data; synced := false |}))
    (fun k w => set_inode w i {| content := take k data; synced := false |}).

(** [File::sync_all]. *)
Definition sync_all (i : nat) : IO unit :=
  perform (fun w =>
    n ← inodes w !! i; Some (tt, set_inode w i {| content := content n; synced := true |})) untouched.

(** [fs::read], and the reads of [open_copy]. *)
Definition read_file (p : Path) : IO bytes :=
  perform (fun w => c ← file_at w p; Some (c, w)) untouched.

(** [fs::rename]. *)
Definition rename_file (src dst : Path) : IO unit :=
  perform (fun w => i ← dir w !! src; Some (tt, set_dir w [(src, None); (dst, Some i)])) untouched.

(** [fs::remove_file]. *)
Definition remove_file (p : Path) : IO unit :=
  perform (fun w => _ ← dir w !! p; Some (tt, set_dir w [(p, None)])) untouched.

(** [File::open(parent).and_then(|directory| directory.sync_all())]. *)
Definition sync_dir : IO unit := perform (fun w => Some (tt, flush_dir w)) untouched.

(** ** The store *)

(** [struct VaultStore]. *)
Record VaultStore := { primary : Path; backup : Path }.

(** [VaultStore::new]. *)
Definition store_new (p : Path) : VaultStore :=
  {| primary := p; backup := (p.1, String.append p.2 ".bak") |}.

(** [enum VaultOpen]. *)
Inductive VaultOpen : Type :=
| Primary (vault : UnlockedVault) (newer_backup : option UnlockedVault)
| RestoreRequired (backup : UnlockedVault).

(** [write_candidate], [verify_candidate], [atomic_replace] and [sync_parent]. *)
Definition write_candidate (p : Path) (encrypted : bytes) : IO unit :=
  file ← create_new p; _ ← write_all file encrypted; sync_all file.
Definition verify_candidate (p : Path) (expected : bytes) : IO unit :=
  actual ← read_file p;
  io_result (if bool_decide (actual = expected) then Ok tt else Err StorageFailure).
Definition atomic_replace (candidate destination : Path) : IO unit :=
  rename_file candidate destination.
Definition sync_parent (p : Path) : IO unit := sync_dir.

(** [VaultStore::candidate_path]; [unique] is the drawn identifier's text. *)
Definition candidate_path (store : VaultStore) (unique : string) : Path :=
  let filename := string_of (from_utf8_lossy (bytes_of (primary store).2)) in
  ((primary store).1,
   String.append "." (String.append filename (String.append "." (String.append unique ".candidate")))).

(** The closure of [commit_encrypted]. *)
Definition replace_both (store : VaultStore) (first second : Path) (encrypted : bytes) : IO unit :=
  _ ← write_candidate first encrypted;
  _ ← write_candidate second encrypted;
  _ ← verify_candidate first encrypted;
  _ ← verify_candidate second encrypted;
  _ ← atomic_replace first (backup store);
  _ ← sync_parent (primary store);
  _ ← atomic_replace second (primary store);
  sync_parent (primary store).

(** [let _ = fs::remove_file(p)]: only a crash is not ignored. *)
Definition try_remove (p : Path) : IO unit := fun w =>
  match remove_file p w with
  | (Done _, w) => (Done (Ok tt), w)
  | (Crashed, w) => (Crashed, w)
  end.

(** [if result.is_err() { .. }]. *)
Definition clean_up (first second : Path) (e : LadonError) : IO unit :=
  _ ← try_remove first; _ ← try_remove second; io_result (Err e).

(** [VaultStore::commit_encrypted]. *)
Definition commit_encrypted (store : VaultStore) (unique1 unique2 : string) (encrypted : bytes) :
  IO unit := fun w =>
  let first := candidate_path store unique1 in
  let second := candidate_path store unique2 in
  match replace_both store first second encrypted w with
  | (Done (Err e), w) => clean_up first second e w
  | done => done
  end.

Section opening.
Context `{TextCrates, Cbor, CryptoCrates}.

(** [open_copy]: every failure, of the file system or of the file, is [None]. *)
Definition open_copy (p : Path) (passphrase : bytes) : IO (option UnlockedVault) := fun w =>
  match read_file p w with
  | (Done (Ok b), w) =>
    (Done (Ok (if MAX_VAULT_FILE_BYTES <? zlen b then None else ok (unlock_vault b passphrase))), w)
  | (Done (Err _), w) => (Done (Ok None), w)
  | (Crashed, w) => (Crashed, w)
  end.

(** The decision of [VaultStore::open] on the two copies. *)
Definition choose (primary backup : option UnlockedVault) : LResult VaultOpen :=
  match primary, backup with
  | Some vault, Some backup =>
    Ok (Primary vault
      (if bool_decide (vault_id (payload backup) = vault_id (payload vault))
          && (revision (payload vault) <? revision (payload backup))
       then Some backup else None))
  | Some vault, None => Ok (Primary vault None)
  | None, Some backup => Ok (RestoreRequired backup)
  | None, None => Err VaultUnavailable
  end.

(** [VaultStore::open]. *)
Definition store_open (store : VaultStore) (passphrase : bytes) : IO VaultOpen :=
  p ← open_copy (primary store) passphrase;
  b ← open_copy (backup store) passphrase;
  io_result (choose p b).

(** [VaultStore::commit] and [VaultSession::commit_to]. *)
Definition commit {R} `{RandomSource R} (store : VaultStore) (unique1 unique2 : string)
  (u : UnlockedVault) (random : R) : IO R :=
  '(encrypted, random) ← io_result (seal u random);
  _ ← commit_encrypted store unique1 unique2 encrypted;
  mret random.
End opening.

(** ** What a crash may leave at a path *)

(** The file at [p] if exactly the updates [sub] reached the medium. *)
Definition at_sub (w : Disk) (sub : list dir_update) (p : Path) (c : option bytes) : Prop :=
  match apply_updates (durable w) sub !! p with
  | None => c = None
  | Some i => exists b, inodes w !! i = Some {| content := b; synced := true |} /\ c = Some b
  end.

(** The updates leave [p] alone. *)
Definition spares (u : dir_update) (p : Path) : Prop := Forall (fun pi => pi.1 <> p) u.

Lemma apply_updates_app d us vs :
  apply_updates d (us ++ vs) = apply_updates (apply_updates d us) vs.
Proof. apply foldl_app. Qed.

Lemma apply_update_spares d u p : spares u p -> apply_update d u !! p = d !! p.
Proof.
  unfold apply_update. revert d. induction u as [|[q o] u IH]; intros d Hs; [done|].
  apply Forall_cons in Hs as [Hq Hs]. cbn in *. rewrite IH by done.
  destruct o; [by rewrite lookup_insert_ne|by rewrite lookup_delete_ne].
Qed.

Lemma apply_update_lookup d u p i :
  apply_update d u !! p = Some i -> d !! p = Some i \/ (p, Some i) ∈ u.
Proof.
  unfold apply_update. revert d. induction u as [|[q o] u IH]; intros d Hd; [by left|].
  cbn in Hd. apply IH in Hd as [Hd|Hd]; [|right; by right].
  destruct o as [j|].
  - apply lookup_insert_Some in Hd as [[-> ->]|[_ Hd]]; [right; left|by left].
  - apply lookup_delete_Some in Hd as [_ Hd]. by left.
Qed.

Lemma sublist_snoc_inv {A} (sub l : list A) x :
  sub `sublist_of` l ++ [x] ->
  exists sub1, sub1 `sublist_of` l /\ (sub = sub1 \/ sub = sub1 ++ [x]).
Proof.
  intros (s1 & s2 & -> & H1 & H2)%sublist_app_r. exists s1. split; [done|].
  apply sublist_cons_r in H2 as [H2|(s3 & -> & H3)].
  - apply sublist_nil_r in H2 as ->. left. by rewrite app_nil_r.
  - apply sublist_nil_r in H3 as ->. by right.
Qed.

Section crash.
Context (store : VaultStore).
Let P := primary store.
Let B := backup store.

(** The disk is consistent: the visible directory is the durable one with all the
    pending updates, and identifiers of inodes are not reused. *)
Record consistent (w : Disk) : Prop := {
  cs_dir : dir w = apply_updates (durable w) (pending w);
  cs_bound sub p i : sub `sublist_of` pending w ->
    apply_updates (durable w) sub !! p = Some i -> (i < next_inode w)%nat;
}.

(** After a crash the two copies are one of the pairs of [S]. *)
Definition safe (S : list (option bytes * option bytes)) (w : Disk) : Prop :=
  forall sub, sub `sublist_of` pending w ->
  exists ab, ab ∈ S /\ at_sub w sub P ab.1 /\ at_sub w sub B ab.2.

(** What programs see is the pair [a], [b]. *)
Definition visible (a b : option bytes) (w : Disk) : Prop :=
  at_sub w (pending w) P a /\ at_sub w (pending w) B b.

Record stage (S : list (option bytes * option bytes)) (a b : option bytes) (w : Disk) : Prop := {
  sg_consistent : consistent w;
  sg_safe : safe S w;
  sg_visible : visible a b w;
}.

(** A synced file with the given contents, at a path. *)
Definition has (p : Path) (data : bytes) (w : Disk) : Prop :=
  exists i, dir w !! p = Some i /\ inodes w !! i = Some {| content := data; synced := true |}.

(** An inode that no crash exposes as one of the copies. *)
Definition detached (i : nat) (w : Disk) : Prop :=
  (i < next_inode w)%nat /\
  forall sub, sub `sublist_of` pending w ->
    apply_updates (durable w) sub !! P <> Some i /\ apply_updates (durable w) sub !! B <> Some i.

Lemma at_sub_set_inode w sub p c i n :
  apply_updates (durable w) sub !! p <> Some i -> at_sub w sub p c -> at_sub (set_inode w i n) sub p c.
Proof.
  unfold at_sub. cbn. destruct (apply_updates (durable w) sub !! p) as [j|]; [|done].
  intros Hne (b & Hb & ->). exists b. by rewrite lookup_insert_ne by congruence.
Qed.

Lemma stage_set_inode S a b w i n :
  stage S a b w -> detached i w -> stage S a b (set_inode w i n).
Proof.
  intros [[Hd Hb] Hs [Ha Hbk]] [Hi Hdet]. split; [split| |].
  - exact Hd.
  - intros sub p j Hsub Hj. cbn in *. specialize (Hb sub p j Hsub Hj). lia.
  - intros sub Hsub. destruct (Hs sub Hsub) as (ab & ? & ? & ?). destruct (Hdet sub Hsub).
    exists ab. split_and!; [done|by apply at_sub_set_inode..].
  - destruct (Hdet (pending w) ltac:(reflexivity)). split; by apply at_sub_set_inode.
Qed.

Lemma detached_set_inode i j n w : detached i w -> detached i (set_inode w j n).
Proof. intros [Hi Hd]. split; [cbn; lia|exact Hd]. Qed.

Lemma has_set_inode p data w i n :
  dir w !! p <> Some i -> has p data w -> has p data (set_inode w i n).
Proof.
  intros Hne (j & Hj & Hn). exists j. split; [done|]. cbn. rewrite lookup_insert_ne by congruence. done.
Qed.

Lemma at_sub_spares w sub u p c :
  spares u p -> at_sub (set_dir w u) (sub ++ [u]) p c <-> at_sub w sub p c.
Proof.
  intros Hs. unfold at_sub. cbn [durable set_dir inodes].
  rewrite apply_updates_app. cbn. by rewrite apply_update_spares.
Qed.

Lemma consistent_set_dir w u :
  consistent w -> (forall p i, (p, Some i) ∈ u -> (i < next_inode w)%nat) -> consistent (set_dir w u).
Proof.
  intros [Hd Hb] Hu. split; cbn.
  - rewrite apply_updates_app, Hd. done.
  - intros sub p i (sub1 & Hsub & [->| ->])%sublist_snoc_inv Hi; [by eapply Hb|].
    rewrite apply_updates_app in Hi. cbn in Hi.
    apply apply_update_lookup in Hi as [Hi|Hi]; [by eapply Hb|by eapply Hu].
Qed.

(** An update that leaves both copies alone changes nothing of what a crash shows. *)
Lemma safe_set_dir S w u : safe S w -> spares u P -> spares u B -> safe S (set_dir w u).
Proof.
  intros Hs Hp Hb sub (sub1 & Hsub & [->| ->])%sublist_snoc_inv; [by apply Hs|].
  destruct (Hs sub1 Hsub) as (ab & ? & ? & ?). exists ab.
  split_and!; [done|by apply at_sub_spares..].
Qed.

Lemma stage_set_dir S a b w u :
  stage S a b w -> spares u P -> spares u B ->
  (forall p i, (p, Some i) ∈ u -> (i < next_inode w)%nat) -> stage S a b (set_dir w u).
Proof.
  intros [Hc Hs [Ha Hb]] Hp Hbk Hu. split; [by apply consistent_set_dir|by apply safe_set_dir|].
  split; cbn; by apply at_sub_spares.
Qed.

Lemma stage_tick S a b w : stage S a b w -> stage S a b (next_event w).
Proof. intros [[Hd Hb] Hs Hv]. by split; [split| |]. Qed.

Lemma stage_flush S a b w : stage S a b w -> stage [(a, b)] a b (flush_dir w).
Proof.
  intros [[Hd Hb] _ [Ha Hbk]].
  assert (Hat : forall p c, at_sub w (pending w) p c -> at_sub (flush_dir w) [] p c).
  { intros p c. unfold at_sub. cbn. by rewrite Hd. }
  split; [split| |].
  - done.
  - intros sub p i ->%sublist_nil_r Hi. cbn in Hi. rewrite Hd in Hi. by eapply Hb.
  - intros sub ->%sublist_nil_r. exists (a, b). split_and!; [left|by apply Hat..].
  - split; by apply Hat.
Qed.

(** ** Reasoning about programs

    [triple Pre m Post X]: from [Pre], [m] ends in [Post] if it succeeds and in [X]
    if it fails or the machine stops. *)
Definition triple {A} (Pre : Disk -> Prop) (m : IO A) (Post : A -> Disk -> Prop) (X : Disk -> Prop) :
  Prop :=
  forall w, Pre w -> match m w with (Done (Ok a), w') => Post a w' | (_, w') => X w' end.

Lemma io_triple_bind {A C} Pre (m : IO A) (f : A -> IO C) Mid Post X :
  triple Pre m Mid X -> (forall a, triple (Mid a) (f a) Post X) -> triple Pre (m ≫= f) Post X.
Proof.
  intros Hm Hf w Hw. specialize (Hm w Hw). unfold mbind, io_bind.
  destruct (m w) as [[[a|e]|] w']; [by apply Hf|done..].
Qed.

Lemma triple_perform {A} Pre act partial (Post : A -> Disk -> Prop) X :
  (forall w, Pre w -> Pre (next_event w)) ->
  (forall w k, Pre w -> X (partial k w)) -> (forall w, Pre w -> X w) ->
  (forall w a w', Pre w -> act w = Some (a, w') -> Post a w') ->
  triple Pre (perform act partial) Post X.
Proof.
  intros Ht Hk Hx Ha w Hw%Ht. unfold perform. destruct (events w (time w)).
  - destruct (act (next_event w)) as [[a w']|] eqn:He; [by eapply Ha|by apply Hx].
  - by apply Hk.
  - by apply Hk.
Qed.

Lemma triple_weaken {A} Pre Pre' (m : IO A) Post X :
  triple Pre' m Post X -> (forall w, Pre w -> Pre' w) -> triple Pre m Post X.
Proof. intros Hm Hp w Hw. by apply Hm, Hp. Qed.

(** The stage, with candidates already written. *)
Definition ready (S : list (option bytes * option bytes)) (a b : option bytes)
  (candidates : list Path) (data : bytes) (w : Disk) : Prop :=
  stage S a b w /\ Forall (fun p => has p data w) candidates.

Lemma ready_tick S a b cs data w : ready S a b cs data w -> ready S a b cs data (next_event w).
Proof. intros [Hs Hh]. split; [by apply stage_tick|exact Hh]. Qed.

Context (distinct_copies : P <> B).

Lemma spares_one p i q : p <> q -> spares [(p, i)] q.
Proof. intros. by apply Forall_singleton. Qed.

(** The file being written: its handle is detached, and not one of the others. *)
Definition writing S a b candidates data (p : Path) (i : nat) (w : Disk) : Prop :=
  ready S a b candidates data w /\ detached i w /\ dir w !! p = Some i /\
  Forall (fun q => dir w !! q <> Some i) candidates.

Lemma writing_set_inode S a b cs data p i n w :
  writing S a b cs data p i w -> writing S a b cs data p i (set_inode w i n).
Proof.
  intros ([Hs Hh] & Hd & Hp & Hq). split_and!; [split|by apply detached_set_inode|done|done].
  - by apply stage_set_inode.
  - rewrite Forall_forall in *. intros q Hin. apply has_set_inode; auto.
Qed.

Lemma writing_tick S a b cs data p i w :
  writing S a b cs data p i w -> writing S a b cs data p i (next_event w).
Proof. intros (Hr & ? & ? & ?). split_and!; [by apply ready_tick|done..]. Qed.

Lemma create_new_spec S a b cs data p :
  p <> P -> p <> B -> p ∉ cs ->
  triple (ready S a b cs data) (create_new p)
    (fun i => writing S a b cs data p i) (stage S a b).
Proof.
  intros HP HB Hcs. apply triple_perform; [by apply ready_tick|by intros w k []|by intros w []|].
  intros w i w' [Hst Hh] Hact. destruct (dir w !! p) eqn:Hp; [done|]. injection Hact as <- <-.
  set (i := next_inode w).
  assert (Hfresh : forall sub q, sub `sublist_of` pending w -> apply_updates (durable w) sub !! q <> Some i).
  { intros sub q Hsub Hq. destruct Hst as [[_ Hb] _ _]. specialize (Hb sub q i Hsub Hq). unfold i in Hb. lia. }
  assert (Hdir : forall q, dir w !! q <> Some i).
  { intros q. destruct Hst as [[Hd _] _ _]. rewrite Hd. apply Hfresh. reflexivity. }
  set (w1 := set_inode w i {| content := []; synced := false |}).
  assert (Hw1 : stage S a b w1).
  { destruct Hst as [[Hd Hb] Hs [Ha Hbk]]. split; [split| |].
    - exact Hd.
    - intros sub q j Hsub Hj. cbn. specialize (Hb sub q j Hsub Hj). lia.
    - intros sub Hsub. destruct (Hs sub Hsub) as (ab & ? & ? & ?). exists ab.
      split_and!; [done|apply at_sub_set_inode; auto..].
    - split; apply at_sub_set_inode; [apply Hfresh; reflexivity|done|apply Hfresh; reflexivity|done]. }
  assert (Hu : forall q j, (q, Some j) ∈ [(p, Some i)] -> (j < next_inode w1)%nat).
  { intros q j [= -> ->]%list_elem_of_singleton. cbn. lia. }
  split_and!; [split| | |].
  - by apply stage_set_dir; [|apply spares_one..|].
  - rewrite Forall_forall in *. intros q Hq. destruct (Hh q Hq) as (j & Hj & Hn). exists j.
    assert (q <> p) by congruence. cbn. rewrite lookup_insert_ne by done.
    rewrite lookup_insert_ne by (intros <-; by eapply Hdir). done.
  - split; [cbn; lia|]. intros sub (sub1 & Hsub & [->| ->])%sublist_snoc_inv.
    + split; by apply Hfresh.
    + rewrite apply_updates_app. cbn. rewrite !lookup_insert_ne by done. split; by apply Hfresh.
  - cbn. by rewrite lookup_insert_eq.
  - rewrite Forall_forall. intros q Hq. cbn. rewrite lookup_insert_ne by congruence. apply Hdir.
Qed.

Lemma write_all_spec S a b cs data p i d :
  triple (writing S a b cs data p i) (write_all i d)
    (fun _ w => writing S a b cs data p i w /\ exists n, inodes w !! i = Some n /\ content n = d)
    (stage S a b).
Proof.
  apply triple_perform; [by apply writing_tick| | |].
  - intros w k Hw. apply (writing_set_inode _ _ _ _ data p i _ _ Hw).
  - by intros w [[] _].
  - intros w [] w' Hw [= <-]. split; [by apply writing_set_inode|].
    cbn. rewrite lookup_insert_eq. eauto.
Qed.

Lemma sync_all_spec S a b cs data p i :
  triple (fun w => writing S a b cs data p i w /\ exists n, inodes w !! i = Some n /\ content n = data)
    (sync_all i) (fun _ => ready S a b (p :: cs) data) (stage S a b).
Proof.
  apply triple_perform; [|by intros w k [[[] _] _]|by intros w [[[] _] _]|].
  { intros w [Hw Hn]. split; [by apply writing_tick|exact Hn]. }
  intros w [] w' [Hw (n & Hn & Hc)] Hact. rewrite Hn in Hact. injection Hact as <-.
  pose proof (writing_set_inode _ _ _ _ _ _ _ {| content := content n; synced := true |} _ Hw)
    as ([Hs Hh] & _ & Hp & _).
  split; [done|]. constructor; [|done]. exists i. split; [done|]. cbn. by rewrite lookup_insert_eq, Hc.
Qed.

Lemma write_candidate_spec S a b cs data p :
  p <> P -> p <> B -> p ∉ cs ->
  triple (ready S a b cs data) (write_candidate p data)
    (fun _ => ready S a b (p :: cs) data) (stage S a b).
Proof.
  intros. eapply io_triple_bind; [by apply create_new_spec|]. intros i.
  eapply io_triple_bind; [apply write_all_spec|]. intros []. apply sync_all_spec.
Qed.

Lemma verify_candidate_spec S a b cs data p expected :
  triple (ready S a b cs data) (verify_candidate p expected)
    (fun _ => ready S a b cs data) (stage S a b).
Proof.
  eapply io_triple_bind with (Mid := fun _ => ready S a b cs data).
  - apply triple_perform; [by apply ready_tick|by intros w k []|by intros w []|].
    intros w c w' Hw Hact. destruct (file_at w p); [|done]. by injection Hact as <- <-.
  - intros c w Hw. unfold io_result. case_bool_decide; [done|apply Hw].
Qed.

Lemma sync_parent_spec S a b cs data q :
  triple (ready S a b cs data) (sync_parent q) (fun _ => ready [(a, b)] a b cs data) (stage S a b).
Proof.
  apply triple_perform; [by apply ready_tick|by intros w k []|by intros w []|].
  intros w [] w' [Hs Hh] [= <-]. split; [by eapply stage_flush|exact Hh].
Qed.

(** Renaming a candidate over one of the copies: a crash may or may not show it. *)
Definition over_backup (data : bytes) (S : list (option bytes * option bytes)) :=
  S ++ ((fun ab => (ab.1, Some data)) <$> S).
Definition over_primary (data : bytes) (S : list (option bytes * option bytes)) :=
  S ++ ((fun ab => (Some data, ab.2)) <$> S).

Lemma at_sub_renamed w sub src dst i data :
  src <> dst -> inodes w !! i = Some {| content := data; synced := true |} ->
  at_sub (set_dir w [(src, None); (dst, Some i)]) (sub ++ [[(src, None); (dst, Some i)]]) dst (Some data).
Proof.
  intros Hne Hi. unfold at_sub. cbn [durable set_dir inodes]. rewrite apply_updates_app. cbn.
  rewrite lookup_insert_eq. eauto.
Qed.

Lemma at_sub_other w sub src dst i q c :
  src <> q -> dst <> q -> at_sub w sub q c ->
  at_sub (set_dir w [(src, None); (dst, Some i)]) (sub ++ [[(src, None); (dst, Some i)]]) q c.
Proof. intros. apply at_sub_spares; [|done]. by repeat constructor. Qed.

Lemma rename_bound w src dst i :
  consistent w -> dir w !! src = Some i ->
  forall p j, (p, Some j) ∈ [(src, None); (dst, Some i)] -> (j < next_inode w)%nat.
Proof.
  intros [Hd Hb] Hi p j Hin. apply elem_of_cons in Hin as [[=]|[= -> ->]%list_elem_of_singleton].
  rewrite Hd in Hi. eapply Hb; [|exact Hi]. reflexivity.
Qed.

Lemma has_renamed w src dst i q data :
  q <> src -> q <> dst -> has q data w -> has q data (set_dir w [(src, None); (dst, Some i)]).
Proof.
  intros ? ? (j & Hj & Hn). exists j. split; [|done]. cbn.
  by rewrite lookup_insert_ne, lookup_delete_ne.
Qed.

Lemma rename_backup_spec S a b src cs data :
  src <> P -> src <> B -> src ∉ cs -> B ∉ cs ->
  triple (ready S a b (src :: cs) data) (atomic_replace src B)
    (fun _ => ready (over_backup data S) a (Some data) cs data) (stage S a b).
Proof.
  intros HP HB Hsrc HBcs. apply triple_perform; [by apply ready_tick|by intros w k []|by intros w []|].
  intros w [] w' [[Hc Hs [Ha Hb]] [Hh Hcs]%Forall_cons] Hact.
  destruct Hh as (i & Hi & Hn). rewrite Hi in Hact. injection Hact as <-.
  split; [split| ].
  - by eapply consistent_set_dir, rename_bound.
  - intros sub (sub1 & Hsub & [->| ->])%sublist_snoc_inv; destruct (Hs sub1 Hsub) as (ab & Hin & Hpa & Hpb).
    + exists ab. split; [by apply elem_of_app; left|done].
    + exists (ab.1, Some data). split_and!; [|by apply at_sub_other|by apply at_sub_renamed].
      apply elem_of_app. right. by apply (list_elem_of_fmap_2 (fun ab => (ab.1, Some data))).
  - split; [by apply at_sub_other|by apply at_sub_renamed].
  - rewrite Forall_forall in *. intros q Hq. apply has_renamed; [congruence|congruence|by apply Hcs].
Qed.

Lemma rename_primary_spec S a b src cs data :
  src <> P -> src <> B -> src ∉ cs -> P ∉ cs ->
  triple (ready S a b (src :: cs) data) (atomic_replace src P)
    (fun _ => ready (over_primary data S) (Some data) b cs data) (stage S a b).
Proof.
  intros HP HB Hsrc HPcs. apply triple_perform; [by apply ready_tick|by intros w k []|by intros w []|].
  intros w [] w' [[Hc Hs [Ha Hb]] [Hh Hcs]%Forall_cons] Hact.
  destruct Hh as (i & Hi & Hn). rewrite Hi in Hact. injection Hact as <-.
  split; [split| ].
  - by eapply consistent_set_dir, rename_bound.
  - intros sub (sub1 & Hsub & [->| ->])%sublist_snoc_inv; destruct (Hs sub1 Hsub) as (ab & Hin & Hpa & Hpb).
    + exists ab. split; [by apply elem_of_app; left|done].
    + exists (Some data, ab.2). split_and!; [|by apply at_sub_renamed|by apply at_sub_other].
      apply elem_of_app. right. by apply (list_elem_of_fmap_2 (fun ab => (Some data, ab.2))).
  - split; [by apply at_sub_renamed|by apply at_sub_other].
  - rewrite Forall_forall in *. intros q Hq. apply has_renamed; [congruence|congruence|by apply Hcs].
Qed.

Lemma safe_weaken S S' w : S ⊆ S' -> safe S w -> safe S' w.
Proof. intros Hsub Hs sub Hin. destruct (Hs sub Hin) as (ab & ? & ?). eauto. Qed.

Lemma triple_fail {A} Pre (m : IO A) Post (X X' : Disk -> Prop) :
  (forall w, X w -> X' w) -> triple Pre m Post X -> triple Pre m Post X'.
Proof.
  intros Hx Hm w Hw. specialize (Hm w Hw). destruct (m w) as [[[]|] w']; auto.
Qed.

(** The pairs of copies a commit of [data] over [old] may leave. *)
Definition outcomes (old : option bytes * option bytes) (data : bytes) :
  list (option bytes * option bytes) :=
  [old; (old.1, Some data); (Some data, Some data)].

Lemma ready_swap S a b p q data w : ready S a b [q; p] data w -> ready S a b [p; q] data w.
Proof. intros [Hs Hh]. split; [done|]. by rewrite !Forall_cons in *; naive_solver. Qed.

Lemma triple_post {A} Pre (m : IO A) Post Post' X :
  triple Pre m Post X -> (forall a w, Post a w -> Post' a w) -> triple Pre m Post' X.
Proof. intros Hm Hp w Hw. specialize (Hm w Hw). destruct (m w) as [[[]|] w']; auto. Qed.

Lemma replace_both_spec a b first second data :
  first <> P -> first <> B -> second <> P -> second <> B -> first <> second ->
  triple (stage [(a, b)] a b) (replace_both store first second data)
    (fun _ => stage [(Some data, Some data)] (Some data) (Some data))
    (safe (outcomes (a, b) data)).
Proof.
  intros HfP HfB HsP HsB Hne.
  assert (Hweak : forall S x y, S ⊆ outcomes (a, b) data ->
    forall w, stage S x y w -> safe (outcomes (a, b) data) w).
  { intros S x y HS w []. by eapply safe_weaken. }
  apply triple_weaken with (Pre' := ready [(a, b)] a b [] data).
  2: { intros w Hw. split; [exact Hw|constructor]. }
  assert (Hin : forall x, x ∈ [(a, b); (a, Some data); (Some data, Some data)] ->
    [x] ⊆ outcomes (a, b) data).
  { intros x Hx y ->%list_elem_of_singleton. exact Hx. }
  unfold replace_both.
  eapply io_triple_bind.
  { eapply triple_fail; [|apply write_candidate_spec; [done|done|apply not_elem_of_nil]].
    apply Hweak, Hin. left. }
  intros []. eapply io_triple_bind.
  { eapply triple_fail; [|apply write_candidate_spec; [done|done|]].
    - apply Hweak, Hin. left.
    - by intros ->%list_elem_of_singleton. }
  intros []. eapply io_triple_bind.
  { eapply triple_fail; [|apply verify_candidate_spec]. apply Hweak, Hin. left. }
  intros []. eapply io_triple_bind.
  { eapply triple_fail; [|apply verify_candidate_spec]. apply Hweak, Hin. left. }
  intros []. eapply io_triple_bind.
  { eapply triple_fail; [|eapply triple_weaken; [apply rename_backup_spec|apply ready_swap]];
      [apply Hweak, Hin; left|done|done| |]; intros ->%list_elem_of_singleton; done. }
  intros []. eapply io_triple_bind.
  { eapply triple_fail; [|apply sync_parent_spec]. apply Hweak.
    intros x [->|Hx]%elem_of_cons; [left|]. apply list_elem_of_singleton in Hx as ->. right. left. }
  intros []. eapply io_triple_bind.
  { eapply triple_fail; [|apply rename_primary_spec]; [|done|done|apply not_elem_of_nil..].
    apply Hweak, Hin. right. left. }
  intros []. eapply triple_fail; [|eapply triple_post; [apply sync_parent_spec|by intros [] w []]].
  apply Hweak. intros x [->|Hx]%elem_of_cons; [right; left|].
  apply list_elem_of_singleton in Hx as ->. right. right. left.
Qed.

(** Removing a candidate does not matter to the copies. *)
Lemma try_remove_spec S p :
  p <> P -> p <> B -> triple (safe S) (try_remove p) (fun _ => safe S) (safe S).
Proof.
  intros HP HB w Hw. unfold try_remove.
  assert (Hr : safe S (remove_file p w).2).
  { unfold remove_file, perform. destruct (events w (time w)); [|exact Hw..].
    destruct (dir (next_event w) !! p); cbn; [|exact Hw].
    apply (safe_set_dir S (next_event w)); [exact Hw|by apply spares_one..]. }
  by destruct (remove_file p w) as [[[]|] w'].
Qed.

(** What [commit_encrypted] does after an error. *)
Lemma clean_up_spec S p q e :
  p <> P -> p <> B -> q <> P -> q <> B ->
  triple (safe S) (clean_up p q e) (fun _ _ => False) (safe S).
Proof.
  intros. eapply io_triple_bind; [by apply try_remove_spec|]. intros [].
  eapply io_triple_bind; [by apply try_remove_spec|]. intros [] w Hw. exact Hw.
Qed.

Lemma safe_reboot S w w' :
  safe S w -> reboot w w' -> (file_at w' P, file_at w' B) ∈ S.
Proof.
  intros Hs [(sub & Hsub & Hd) _ _ Hn]. destruct (Hs sub Hsub) as ([a b] & Hin & Ha & Hb).
  assert (Hat : forall p c, at_sub w sub p c -> file_at w' p = c).
  { intros p c. unfold at_sub, file_at. rewrite Hd.
    destruct (apply_updates (durable w) sub !! p) as [i|]; [|by intros ->].
    intros (x & Hx & ->). cbn. by rewrite (Hn i _ Hx). }
  by rewrite (Hat P a), (Hat B b).
Qed.

(** A disk at rest, with both copies, if they exist, on the medium. *)
Record settled (w : Disk) : Prop := {
  st_durable : durable w = dir w;
  st_pending : pending w = [];
  st_bound p i : dir w !! p = Some i -> (i < next_inode w)%nat;
  st_copies p i : p = P \/ p = B -> dir w !! p = Some i ->
    exists b, inodes w !! i = Some {| content := b; synced := true |};
}.

Lemma settled_stage w :
  settled w -> stage [(file_at w P, file_at w B)] (file_at w P) (file_at w B) w.
Proof.
  intros [Hd Hp Hb Hc].
  assert (Hat : forall p, p = P \/ p = B -> at_sub w [] p (file_at w p)).
  { intros p Hpb. unfold at_sub, file_at. cbn. rewrite Hd. destruct (dir w !! p) as [i|] eqn:Hi; [|done].
    destruct (Hc p i Hpb Hi) as [b Hn]. exists b. cbn. by rewrite Hn. }
  split; [split| |].
  - by rewrite Hp, Hd.
  - intros sub p i. rewrite Hp. intros ->%sublist_nil_r Hi. cbn in Hi. rewrite Hd in Hi. by eapply Hb.
  - intros sub. rewrite Hp. intros ->%sublist_nil_r. eexists. split; [left|]. split; apply Hat; auto.
  - unfold visible. rewrite Hp. split; apply Hat; auto.
Qed.
End crash.

(** ** Committing *)
Section committing.
Context (path : Path).
Context (text_name : valid_utf8 (bytes_of path.2)).
Let store := store_new path.

Lemma candidate_bytes unique :
  bytes_of (candidate_path store unique).2 =
  bytes_of "." ++ bytes_of path.2 ++ bytes_of "." ++ bytes_of unique ++ bytes_of ".candidate".
Proof.
  unfold candidate_path. cbn [snd store store_new primary]. rewrite !bytes_of_append.
  by rewrite bytes_of_string_of, lossy_valid.
Qed.

Lemma candidate_not_copy unique :
  candidate_path store unique <> primary store /\ candidate_path store unique <> backup store.
Proof.
  pose proof (candidate_bytes unique) as Hc.
  split; intros Heq; rewrite Heq in Hc; apply (f_equal length) in Hc;
    cbn [store store_new primary backup snd] in Hc; rewrite ?bytes_of_append in Hc;
    rewrite !length_app in Hc; cbn in Hc; lia.
Qed.

Lemma candidate_inj u v : candidate_path store u = candidate_path store v -> u = v.
Proof.
  intros Heq. apply (f_equal (fun p => bytes_of p.2)) in Heq. rewrite !candidate_bytes in Heq.
  do 3 apply app_inv_head in Heq. apply app_inv_tail in Heq. by apply bytes_of_inj.
Qed.

Lemma copies_distinct : primary store <> backup store.
Proof.
  intros Heq. apply (f_equal (fun p => length (bytes_of p.2))) in Heq. cbn in Heq.
  rewrite bytes_of_append, length_app in Heq. cbn in Heq. lia.
Qed.

Lemma commit_outcomes unique1 unique2 data w w' :
  settled store w -> unique1 <> unique2 ->
  let '(result, after) := commit_encrypted store unique1 unique2 data w in
  reboot after w' ->
  (file_at w' (primary store), file_at w' (backup store)) ∈
    outcomes (file_at w (primary store), file_at w (backup store)) data /\
  (result = Done (Ok tt) ->
   file_at w' (primary store) = Some data /\ file_at w' (backup store) = Some data).
Proof.
  intros Hw Hu. unfold commit_encrypted.
  destruct (candidate_not_copy unique1) as [H1P H1B]. destruct (candidate_not_copy unique2) as [H2P H2B].
  assert (H12 : candidate_path store unique1 <> candidate_path store unique2)
    by (intros Heq%candidate_inj; done).
  pose proof (replace_both_spec store copies_distinct _ _ _ _ data H1P H1B H2P H2B H12 w
    (settled_stage store w Hw)) as Hspec.
  destruct (replace_both _ _ _ _ _) as [[[[]|e]|] w1].
  - intros Hr. assert (Heq : (file_at w' (primary store), file_at w' (backup store)) = (Some data, Some data)).
    { apply list_elem_of_singleton. by eapply safe_reboot; [apply Hspec|]. }
    rewrite Heq. split; [right; right; left|]. intros _. split; congruence.
  - set (S := outcomes _ data) in *.
    pose proof (clean_up_spec store S _ _ e H1P H1B H2P H2B w1 Hspec) as Hc.
    destruct (clean_up _ _ e w1) as [[[[]|e']|] w2]; [done|..]; (intros Hr; split; [by eapply safe_reboot|done]).
  - intros Hr. split; [by eapply safe_reboot|done].
Qed.

(** C7. Committing is safe against failures and crashes at any point: whatever
    operations fail and wherever the machine stops, even in the middle of a write,
    the two copies found afterwards are both as before, or the backup is new and the
    primary as before, or both are new, and never torn; once the commit has been
    answered with success both are the new vault, also after a crash. *)
Theorem commit_crash_safe unique1 unique2 data w w' :
  settled store w -> unique1 <> unique2 ->
  let '(result, after) := commit_encrypted store unique1 unique2 data w in
  reboot after w' ->
  (file_at w' (primary store), file_at w' (backup store)) ∈
    outcomes (file_at w (primary store), file_at w (backup store)) data /\
  (result = Done (Ok tt) ->
   file_at w' (primary store) = Some data /\ file_at w' (backup store) = Some data).
Proof. apply commit_outcomes. Qed.

(** ** Opening what a crash left *)
Context `{TextCratesLaws, CborLaws, CryptoLaws}.

Definition undisturbed (w : Disk) : Prop := forall n, events w n = Fine.

Lemma open_copy_undisturbed p pass w :
  undisturbed w ->
  open_copy p pass w =
  (Done (Ok (b ← file_at w p;
             if MAX_VAULT_FILE_BYTES <? zlen b then None else ok (unlock_vault b pass))), next_event w).
Proof.
  intros Hf. unfold open_copy, read_file, perform. rewrite Hf.
  change (file_at (next_event w) p) with (file_at w p). by destruct (file_at w p).
Qed.

Lemma open_copy_vault p pass w b u :
  undisturbed w -> file_at w p = Some b -> unlock_vault b pass = Ok u ->
  open_copy p pass w = (Done (Ok (Some u)), next_event w).
Proof.
  intros Hf Hb Hu. rewrite open_copy_undisturbed, Hb by done. cbn.
  rewrite (proj2 (Z.ltb_ge _ _)) by by eapply unlock_vault_size. by rewrite Hu.
Qed.

Lemma store_open_undisturbed pass w :
  undisturbed w ->
  (store_open store pass w).1 =
  Done (choose (b ← file_at w (primary store);
                if MAX_VAULT_FILE_BYTES <? zlen b then None else ok (unlock_vault b pass))
               (b ← file_at w (backup store);
                if MAX_VAULT_FILE_BYTES <? zlen b then None else ok (unlock_vault b pass))).
Proof.
  intros Hf. unfold store_open. unfold mbind at 1, io_bind at 1.
  rewrite open_copy_undisturbed by done. unfold mbind at 1, io_bind at 1.
  rewrite open_copy_undisturbed by done. reflexivity.
Qed.

(** The backup [VaultStore::open] offers beside the vault [u]: one that opens with the
    passphrase, of the same vault and of a later revision. *)
Definition newer_backup (pass : bytes) (w : Disk) (u v : UnlockedVault) : Prop :=
  exists b, file_at w (backup store) = Some b /\ unlock_vault b pass = Ok v /\
    vault_id (payload v) = vault_id (payload u) /\ revision (payload u) < revision (payload v).

Lemma unlock_bounded b pass u :
  (if MAX_VAULT_FILE_BYTES <? zlen b then None else ok (unlock_vault b pass)) = Some u <->
  unlock_vault b pass = Ok u.
Proof.
  split.
  - case_match; [done|]. by destruct (unlock_vault b pass) as [?|?]; intros [= ->].
  - intros Hb. rewrite (proj2 (Z.ltb_ge _ _)) by by eapply unlock_vault_size. by rewrite Hb.
Qed.

(** Opening a primary copy that unlocks gives its vault, and a backup exactly if it
    is newer. *)
Lemma store_open_primary pass w b u :
  undisturbed w -> file_at w (primary store) = Some b -> unlock_vault b pass = Ok u ->
  exists newer, (store_open store pass w).1 = Done (Ok (Primary u newer)) /\
    forall v, newer = Some v <-> newer_backup pass w u v.
Proof.
  intros Hf Hp Hu. rewrite store_open_undisturbed, Hp by done. cbn [mbind option_bind].
  rewrite (proj2 (unlock_bounded _ _ _) Hu). unfold newer_backup.
  destruct (file_at w (backup store)) as [c|]; cbn [mbind option_bind].
  2:{ eexists. split; [reflexivity|]. intros v. split; [done|]. by intros (? & ? & _). }
  destruct (if MAX_VAULT_FILE_BYTES <? zlen c then _ else _) as [x|] eqn:Hx; cbn [choose];
    eexists; (split; [reflexivity|]); intros v.
  - apply unlock_bounded in Hx. split.
    + case_match eqn:Hc; [|done]. intros [= <-].
      apply andb_true_iff in Hc as [Hid%bool_decide_eq_true Hr%Z.ltb_lt]. by exists c.
    + intros (? & [= <-] & Hv & Hid & Hr). assert (v = x) as -> by congruence.
      by rewrite bool_decide_eq_true_2, (proj2 (Z.ltb_lt _ _)) by done.
  - split; [done|]. intros (? & [= <-] & Hv%unlock_bounded & _). congruence.
Qed.

(** C12. The vault survives a crash: if the primary held a vault and a new one was
    being committed when anything failed or the machine stopped, then after the
    restart opening the store with the passphrase gives the old vault, or the new one
    with both copies new; beside it a backup is offered if and only if the backup file
    opens with the passphrase, is of the same vault and of a later revision. *)
Theorem crash_then_open unique1 unique2 pass old data u0 u1 w w' :
  settled store w -> unique1 <> unique2 ->
  file_at w (primary store) = Some old ->
  unlock_vault old pass = Ok u0 -> unlock_vault data pass = Ok u1 ->
  reboot (commit_encrypted store unique1 unique2 data w).2 w' -> undisturbed w' ->
  exists u newer,
    (store_open store pass w').1 = Done (Ok (Primary u newer)) /\
    (forall v, newer = Some v <-> newer_backup pass w' u v) /\
    (u = u0 /\ file_at w' (primary store) = Some old /\
       (file_at w' (backup store) = file_at w (backup store) \/
        file_at w' (backup store) = Some data) \/
     u = u1 /\ newer = None /\
       file_at w' (primary store) = Some data /\ file_at w' (backup store) = Some data).
Proof.
  intros Hw Hu Hold Hu0 Hu1 Hr Hf.
  pose proof (commit_outcomes unique1 unique2 data w w' Hw Hu) as Hc.
  destruct (commit_encrypted _ _ _ _ w) as [res after]. destruct (Hc Hr) as [Hout _].
  rewrite Hold in Hout. unfold outcomes in Hout. cbn [fst snd] in Hout.
  rewrite !elem_of_cons in Hout.
  destruct Hout as [Ho|[Ho|[Ho|Ho%not_elem_of_nil]]]; [| | |done];
    pose proof (f_equal fst Ho) as Hp; pose proof (f_equal snd Ho) as Hb; cbn [fst snd] in Hp, Hb.
  1,2: destruct (store_open_primary pass w' old u0 Hf Hp Hu0) as (newer & Hop & Hn);
    exists u0, newer; (split; [done|split; [done|left; by eauto]]).
  destruct (store_open_primary pass w' data u1 Hf Hp Hu1) as (newer & Hop & Hn).
  exists u1, newer. split; [done|]. split; [done|]. right. split; [done|]. split; [|done].
  destruct newer as [v|]; [|done]. destruct (proj1 (Hn v) eq_refl) as (c & Hc' & Hv & _ & ?).
  rewrite Hb in Hc'. injection Hc' as <-. rewrite Hu1 in Hv. injection Hv as <-. lia.
Qed.
End committing.

(** ** Instances *)
Definition example_path : Path := ("/home/user/.ladon", "vault.ladon").
Definition quiet_disk (faults : nat -> event) : Disk := {|
  dir := {[ example_path := 0%nat ]}; durable := {[ example_path := 0%nat ]}; pending := [];
  inodes := {[ 0%nat := {| content := example_file; synced := true |} ]};
  next_inode := 1; events := faults; time := 0;
|}.

Lemma quiet_disk_settled faults : settled (store_new example_path) (quiet_disk faults).
Proof.
  split; [done|done| |].
  - intros p i Hi. change (({[ example_path := 0%nat ]} : gmap Path nat) !! p = Some i) in Hi.
    apply lookup_singleton_Some in Hi as [_ <-]. cbn. lia.
  - intros p i _ Hi. change (({[ example_path := 0%nat ]} : gmap Path nat) !! p = Some i) in Hi.
    apply lookup_singleton_Some in Hi as [_ <-]. exists example_file. reflexivity.
Qed.

Lemma example_path_text : valid_utf8 (bytes_of example_path.2).
Proof. apply (bool_decide_unpack _). vm_compute. reflexivity. Qed.

(** The disk after a crash that lost every update not yet flushed. *)
Definition rebooted (w : Disk) : Disk := {|
  dir := durable w; durable := durable w; pending := []; inodes := inodes w;
  next_inode := next_inode w; events := fun _ => Fine; time := 0;
|}.

Lemma rebooted_reboot w : reboot w (rebooted w).
Proof. split; [|done..]. exists []. split; [apply sublist_nil_l|done]. Qed.

Example commit_crash_safe_witness :
  let '(result, after) :=
    commit_encrypted (store_new example_path) "a" "b" resealed (quiet_disk (fun _ => Fine)) in
  result = Done (Ok tt) /\
  file_at (rebooted after) example_path = Some resealed.
Proof.
  pose proof (commit_crash_safe example_path example_path_text "a" "b" resealed
    (quiet_disk (fun _ => Fine))) as Hc.
  assert (Hr : (commit_encrypted (store_new example_path) "a" "b" resealed
    (quiet_disk (fun _ => Fine))).1 = Done (Ok tt)) by (vm_compute; reflexivity).
  destruct (commit_encrypted _ _ _ _ _) as [result after]. cbn [fst] in Hr.
  destruct (Hc (rebooted after) (quiet_disk_settled _) ltac:(discriminate) (rebooted_reboot after))
    as [_ Hok].
  split; [exact Hr|]. apply (Hok Hr).
Defined.

Example crash_then_open_witness :
  let after := (commit_encrypted (store_new example_path) "a" "b" resealed
    (quiet_disk (fun n => if Nat.eqb n 10 then Crash 0 else Fine))).2 in
  exists u newer,
    (store_open (store_new example_path) example_passphrase (rebooted after)).1 =
      Done (Ok (Primary u newer)) /\
    (u = example_vault \/ u = with_payload example_vault renamed_payload) /\
    forall v, newer = Some v <->
      newer_backup example_path example_passphrase (rebooted after) u v.
Proof.
  intros after.
  destruct (crash_then_open example_path example_path_text "a" "b" example_passphrase example_file
    resealed example_vault (with_payload example_vault renamed_payload)
    (quiet_disk (fun n => if Nat.eqb n 10 then Crash 0 else Fine)) (rebooted after))
    as (u & newer & Ho & Hn & Hu).
  - apply quiet_disk_settled.
  - discriminate.
  - reflexivity.
  - exact example_opened.
  - vm_compute. reflexivity.
  - apply rebooted_reboot.
  - intros n. reflexivity.
  - exists u, newer. split; [exact Ho|]. split; [|exact Hn].
    destruct Hu as [[Hu _]|[Hu _]]; [by left|by right].
Defined.
