(* ===== verification/Capture.v ===== *)
(** * Bounded text capture: the lower half of [crates/ladon-core/src/redact.rs]

    [Utf8Escaper] turns a byte stream into characters, writing an invalid byte
    as [\xHH]; [BoundedCapture] keeps the first and the last characters of a
    text within a limit.  The escaper is refined by the one-shot [escape], the
    capture by [kept_head] and [kept_tail]. *)

From S2P Require Import Prelude Utf8.
Local Open Scope Z_scope.

(** ** [struct BoundedCapture] *)
Record BoundedCapture := {
  limit : Z;
  head_capacity : Z;
  tail_capacity : Z;
  head : bytes;
  tail : bytes;
  tail_started : bool;
  total_bytes : Z;
}.

(** [BoundedCapture::new]. *)
Definition capture_new (limit : Z) : BoundedCapture := {|
  limit := limit; head_capacity := limit / 2; tail_capacity := limit - limit / 2;
  head := []; tail := []; tail_started := false; total_bytes := 0;
|}.

Definition with_head_tail (c : BoundedCapture) (head tail : bytes) (tail_started : bool)
    (total_bytes : Z) : BoundedCapture := {|
  limit := limit c; head_capacity := head_capacity c; tail_capacity := tail_capacity c;
  head := head; tail := tail; tail_started := tail_started; total_bytes := total_bytes;
|}.

(** [fn pop_front_character]. *)
Definition front_width (first : byte) : nat :=
  if in_range 0x00 0x7F first then 1
  else if in_range 0xC0 0xDF first then 2
  else if in_range 0xE0 0xEF first then 3
  else 4.
Definition pop_front_character (b : bytes) : bytes :=
  match b with [] => [] | first :: _ => drop (front_width first) b end.

(** [while self.tail.len() > self.tail_capacity { pop_front_character(..) }]; every
    pop shortens a non-empty buffer, so its length is fuel enough. *)
Fixpoint pop_while_over (fuel : nat) (capacity : Z) (b : bytes) : bytes :=
  match fuel with
  | O => b
  | S fuel =>
    if capacity <? zlen b then pop_while_over fuel capacity (pop_front_character b) else b
  end.

(** The body of [BoundedCapture::push_str] for one encoded character. *)
Definition push_char (c : BoundedCapture) (ch : bytes) : BoundedCapture :=
  let total := saturating_add u64_max (total_bytes c) (zlen ch) in
  if negb (tail_started c) && (zlen (head c) + zlen ch <=? head_capacity c) then
    with_head_tail c (head c ++ ch) (tail c) (tail_started c) total
  else
    let tail := tail c ++ ch in
    with_head_tail c (head c) (pop_while_over (length tail) (tail_capacity c) tail) true total.

(** [BoundedCapture::push_str]. *)
Definition push_str (c : BoundedCapture) (value : bytes) : BoundedCapture :=
  fold_left push_char (chars value) c.

(** [format!("\n...[{omitted} bytes omitted]...\n")]. *)
Definition newline : byte := zb 10.
Definition omission (omitted : Z) : bytes :=
  newline :: bytes_of "...[" ++ decimal omitted ++ bytes_of " bytes omitted]..." ++ [newline].

(** The loop of [BoundedCapture::finish]. *)
Fixpoint finish_loop (fuel : nat) (c : BoundedCapture) (tail : bytes) : option (bytes * bool * Z) :=
  match fuel with
  | O => None
  | S fuel =>
    let omitted := saturating_sub (total_bytes c) (zlen (head c) + zlen tail) in
    let marker := omission omitted in
    if zlen (head c) + zlen marker + zlen tail <=? limit c then
      Some (from_utf8_lossy (head c ++ marker ++ tail), true, omitted)
    else finish_loop fuel c (pop_front_character tail)
  end.

(** [BoundedCapture::finish]: the text, whether it was truncated, the bytes left
    out.  [None] stands for a loop that did not end within one more round than the
    tail has bytes. *)
Definition capture_finish (c : BoundedCapture) : option (bytes * bool * Z) :=
  if (total_bytes c <=? limit c) && (zlen (head c) + zlen (tail c) =? total_bytes c) then
    Some (from_utf8_lossy (head c ++ tail c), false, 0)
  else finish_loop (S (length (tail c))) c (tail c).

(** ** [struct Utf8Escaper]

    The escaper is its pending bytes: the beginning of a character cut by the end
    of the last chunk. *)
Definition Utf8Escaper : Type := bytes.

(** [format!("\\x{byte:02x}")]. *)
Definition escape_byte (b : byte) : bytes := zb 92 :: zb 120 :: hex_byte false b.

(** The loop of [Utf8Escaper::push] from [position] on; a round consumes at least
    one byte. *)
Fixpoint escape_loop (fuel : nat) (buffer : bytes) (c : BoundedCapture) : Utf8Escaper * BoundedCapture :=
  match fuel with
  | O => ([], c)
  | S fuel =>
    match buffer with
    | [] => ([], c)
    | _ =>
      match from_utf8 buffer with
      | Utf8Ok => ([], push_str c buffer)
      | Utf8Error valid_up_to error_len =>
        let valid := take valid_up_to buffer in
        let c := match from_utf8 valid with Utf8Ok => push_str c valid | Utf8Error _ _ => c end in
        let rest := drop valid_up_to buffer in
        match error_len with
        | None => (rest, c)
        | Some invalid_bytes =>
          escape_loop fuel (drop invalid_bytes rest)
            (fold_left (fun c b => push_str c (escape_byte b)) (take invalid_bytes rest) c)
        end
      end
    end
  end.

(** [Utf8Escaper::push] and [Utf8Escaper::finish]. *)
Definition escaper_push (pending : Utf8Escaper) (b : bytes) (c : BoundedCapture) :
    Utf8Escaper * BoundedCapture :=
  escape_loop (S (length (pending ++ b))) (pending ++ b) c.
Definition escaper_finish (pending : Utf8Escaper) (c : BoundedCapture) : BoundedCapture :=
  fold_left (fun c b => push_str c (escape_byte b)) pending c.

(** ** The escaper is a function of the whole stream *)
Definition escaped_chars (b : bytes) : list bytes := (fun x => [x]) <$> concat (escape_byte <$> b).

(** The characters a buffer settles, and the character it leaves unfinished. *)
Fixpoint settle_loop (fuel : nat) (b : bytes) : list bytes * bytes :=
  match fuel with
  | O => ([], [])
  | S fuel =>
    match utf8_front b with
    | FEnd => ([], [])
    | FChar n => let '(cs, r) := settle_loop fuel (drop n b) in (take n b :: cs, r)
    | FInvalid n => let '(cs, r) := settle_loop fuel (drop n b) in (escaped_chars (take n b) ++ cs, r)
    | FCut => ([], b)
    end
  end.
Definition settle (b : bytes) : list bytes * bytes := settle_loop (length b) b.
#[global] Arguments settle : simpl never.

(** The characters of a whole stream. *)
Definition escape (b : bytes) : list bytes := (settle b).1 ++ escaped_chars (settle b).2.

Lemma settle_loop_fuel f g b :
  (length b <= f)%nat -> (length b <= g)%nat -> settle_loop f b = settle_loop g b.
Proof.
  revert g b. induction f as [|f IH]; intros [|g] b Hf Hg; cbn.
  - done.
  - by destruct b; cbn in *; [|lia].
  - by destruct b; cbn in *; [|lia].
  - destruct (utf8_front b) as [|n|n|] eqn:Hb; try done;
      [apply front_char_bounds in Hb|apply front_invalid_bounds in Hb];
      rewrite (IH g) by (rewrite length_drop; lia); done.
Qed.

Lemma settle_step b :
  settle b =
    match utf8_front b with
    | FEnd => ([], [])
    | FChar n => let '(cs, r) := settle (drop n b) in (take n b :: cs, r)
    | FInvalid n => let '(cs, r) := settle (drop n b) in (escaped_chars (take n b) ++ cs, r)
    | FCut => ([], b)
    end.
Proof.
  unfold settle at 1. rewrite (settle_loop_fuel _ (S (length b))) by lia. cbn [settle_loop].
  destruct (utf8_front b) as [|n|n|] eqn:Hb; try done; unfold settle;
    by rewrite (settle_loop_fuel (length b) (length (drop n b))) by (rewrite length_drop; lia).
Qed.

Lemma settle_nil : settle [] = ([], []).
Proof. reflexivity. Qed.

Lemma settle_char c r : is_char c -> settle (c ++ r) = (c :: (settle r).1, (settle r).2).
Proof.
  intros Hc. rewrite settle_step, is_char_app, take_app_length, drop_app_length by done.
  by destruct (settle r).
Qed.

Lemma settle_concat cs r :
  Forall is_char cs -> settle (concat cs ++ r) = (cs ++ (settle r).1, (settle r).2).
Proof.
  induction 1 as [|c cs Hc _ IH]; cbn; [by destruct (settle r)|].
  by rewrite <- app_assoc, settle_char, IH.
Qed.

(** Settling in two chunks, the unfinished character carried over, is settling at once. *)
Lemma settle_app a b :
  settle (a ++ b) =
  ((settle a).1 ++ (settle ((settle a).2 ++ b)).1, (settle ((settle a).2 ++ b)).2).
Proof.
  remember (length a) as n eqn:Hn. assert (Hle : (length a <= n)%nat) by lia. clear Hn.
  revert a Hle. induction n as [|n IH]; intros a Ha.
  { destruct a; [|cbn in *; lia]. rewrite settle_nil. cbn. by destruct (settle b). }
  rewrite (settle_step a). destruct (utf8_front a) as [|m|m|] eqn:Hf.
  - apply front_end in Hf as ->. cbn. by destruct (settle b).
  - pose proof (front_char_bounds _ _ Hf). rewrite settle_step, (front_char_app _ _ _ Hf).
    rewrite drop_app_le, take_app_le by lia. rewrite IH by (rewrite length_drop; lia).
    by destruct (settle (drop m a)).
  - pose proof (front_invalid_bounds _ _ Hf). rewrite settle_step, (front_invalid_app _ _ _ Hf).
    rewrite drop_app_le, take_app_le by lia. rewrite IH by (rewrite length_drop; lia).
    destruct (settle (drop m a)); cbn. by rewrite <- app_assoc.
  - cbn. by destruct (settle (a ++ b)).
Qed.

Lemma escape_byte_ascii b : Forall (fun x => bz x < 128) (escape_byte b).
Proof.
  unfold escape_byte. rewrite !Forall_cons. split_and!; [reflexivity|reflexivity|].
  apply hex_byte_ascii.
Qed.

Lemma chars_ascii b : Forall (fun x => bz x < 128) b -> chars b = (fun x => [x]) <$> b.
Proof.
  intros Hb. rewrite <- (chars_concat ((fun x => [x]) <$> b)).
  - f_equal. clear. induction b; cbn; congruence.
  - apply Forall_fmap. eapply Forall_impl; [done|]. intros x Hx. unfold is_char, utf8_front. cbn.
    by rewrite (proj2 (Z.ltb_lt _ _)) by done.
Qed.

Lemma push_str_escaped b c :
  fold_left (fun c b => push_str c (escape_byte b)) b c = fold_left push_char (escaped_chars b) c.
Proof.
  revert c. induction b as [|x b IH]; intros c; [done|]. cbn [fold_left]. rewrite IH.
  unfold push_str at 1. rewrite chars_ascii by apply escape_byte_ascii.
  unfold escaped_chars. rewrite fmap_cons. cbn [concat].
  by rewrite fmap_app, fold_left_app.
Qed.

Lemma escape_loop_settle fuel b c :
  (length b < fuel)%nat ->
  escape_loop fuel b c = ((settle b).2, fold_left push_char (settle b).1 c).
Proof.
  revert b c. induction fuel as [|fuel IH]; intros b c Hf; [lia|]. cbn [escape_loop].
  destruct b as [|x b]; [done|]. remember (x :: b) as buffer.
  destruct (from_utf8 buffer) as [|p e] eqn:Hu.
  - apply from_utf8_Ok in Hu as (cs & -> & Hcs). rewrite <- (app_nil_r (concat cs)).
    rewrite settle_concat, app_nil_r by done. cbn. unfold push_str.
    by rewrite chars_concat, app_nil_r.
  - apply from_utf8_Error in Hu as (Hp & Hv & Hfront).
    rewrite (proj2 (from_utf8_Ok _) Hv). destruct Hv as (cs & Hcs & Hchars).
    unfold push_str at 2. unfold push_str at 2. rewrite Hcs, chars_concat by done.
    assert (Hs : settle buffer = (cs ++ (settle (drop p buffer)).1, (settle (drop p buffer)).2)).
    { by rewrite <- settle_concat, <- Hcs, take_drop. }
    rewrite Hs. cbn [fst snd].
    rewrite settle_step, Hfront. destruct e as [k|]; cbn [fst snd].
    + apply front_invalid_bounds in Hfront. rewrite length_drop in Hfront.
      rewrite push_str_escaped, IH by (rewrite !length_drop; lia).
      destruct (settle (drop k _)). cbn. by rewrite !fold_left_app.
    + by rewrite app_nil_r.
Qed.

(** The escaper and the capture after a stream has been pushed. *)
Definition sink (limit : Z) (stream : bytes) : Utf8Escaper * BoundedCapture :=
  ((settle stream).2, fold_left push_char (settle stream).1 (capture_new limit)).

Lemma escaper_push_sink limit stream b :
  escaper_push (sink limit stream).1 b (sink limit stream).2 = sink limit (stream ++ b).
Proof.
  unfold escaper_push, sink. rewrite escape_loop_settle by lia. cbn [fst snd].
  rewrite (settle_app stream b). cbn [fst snd].
  by rewrite fold_left_app.
Qed.

Lemma escaper_finish_sink limit stream :
  escaper_finish (sink limit stream).1 (sink limit stream).2 =
  fold_left push_char (escape stream) (capture_new limit).
Proof.
  unfold escaper_finish, sink, escape. cbn [fst snd]. by rewrite push_str_escaped, fold_left_app.
Qed.

Lemma escaped_chars_char b : Forall is_char (escaped_chars b).
Proof.
  apply Forall_fmap, Forall_concat, Forall_fmap, Forall_true. intros x.
  eapply Forall_impl; [apply escape_byte_ascii|]. intros y Hy. unfold is_char, utf8_front. cbn.
  by rewrite (proj2 (Z.ltb_lt _ _)) by done.
Qed.

Lemma settle_chars b : Forall is_char (settle b).1.
Proof.
  unfold settle. generalize (length b). intros fuel. revert b.
  induction fuel as [|fuel IH]; intros b; cbn; [constructor|].
  destruct (utf8_front b) as [|n|n|] eqn:Hf; try constructor;
    specialize (IH (drop n b)); destruct (settle_loop fuel _); cbn in *.
  - constructor; [by apply front_char_take|done].
  - apply Forall_app. split; [apply escaped_chars_char|done].
Qed.

Lemma escape_chars b : Forall is_char (escape b).
Proof. apply Forall_app. split; [apply settle_chars|apply escaped_chars_char]. Qed.

(** Text is left as it is. *)
Lemma escape_valid cs : Forall is_char cs -> escape (concat cs) = cs.
Proof.
  intros Hcs. unfold escape. rewrite <- (app_nil_r (concat cs)), settle_concat by done. cbn.
  by rewrite !app_nil_r.
Qed.

(** ** What the capture keeps *)
Lemma front_width_char x c : is_char (x :: c) -> front_width x = length (x :: c).
Proof.
  unfold is_char, front_width. intros Hc. unfold utf8_front in Hc.
  assert (Hx : forall lo hi, in_range lo hi x = bool_decide (lo <= bz x <= hi)).
  { intros lo hi. case_bool_decide as Hd; [by apply in_range_spec|].
    apply not_true_is_false. by rewrite in_range_spec. }
  rewrite !Hx in *. destruct (Z.ltb_spec (bz x) 128) as [Hlt|Hge].
  - injection Hc as Hc. rewrite bool_decide_eq_true_2 by (pose proof (bz_range x); lia).
    cbn. congruence.
  - rewrite (bool_decide_eq_false_2 (0 <= bz x <= 127)) by lia.
    repeat (case_bool_decide; try lia); repeat (case_match; try discriminate);
      simplify_eq/=; congruence || lia.
Qed.

Lemma pop_front_char c r : is_char c -> pop_front_character (c ++ r) = r.
Proof.
  intros Hc. pose proof (is_char_length _ Hc) as Hl. destruct c as [|x c]; [cbn in Hl; lia|].
  unfold pop_front_character. cbn [app]. rewrite (front_width_char _ _ Hc).
  rewrite app_comm_cons. apply drop_app_length.
Qed.

Lemma concat_length_ge cs : Forall is_char cs -> Z.of_nat (length cs) <= zlen (concat cs).
Proof.
  induction 1 as [|c cs Hc _ IH]; cbn; [done|]. apply is_char_length in Hc.
  rewrite zlen_app. unfold zlen in *. lia.
Qed.

Lemma pop_while_over_spec fuel capacity ts :
  Forall is_char ts -> (length ts <= fuel)%nat -> 0 <= capacity ->
  exists ds ts', ts = ds ++ ts' /\ pop_while_over fuel capacity (concat ts) = concat ts' /\
    zlen (concat ts') <= capacity /\ (ds <> [] -> capacity < zlen (concat ts)).
Proof.
  intros Hts Hf Hcap. revert fuel Hf. induction Hts as [|c ts Hc Hts IH]; intros fuel Hf.
  - exists [], []. split_and!; [done| |done|done].
    destruct fuel; cbn [pop_while_over concat]; [done|]. by rewrite (proj2 (Z.ltb_ge _ _)).
  - destruct fuel as [|fuel]; cbn [length] in Hf; [lia|]. cbn [pop_while_over concat].
    destruct (Z.ltb_spec capacity (zlen (c ++ concat ts))) as [Hlt|Hge].
    + rewrite pop_front_char by done.
      destruct (IH fuel) as (ds & ts' & -> & Hp & Hle & _); [lia|].
      by exists (c :: ds), ts'.
    + by exists [], (c :: ts).
Qed.

(** The text split into what the head keeps, what is left out and what the tail keeps. *)
Record captured (limit_bytes : Z) (cs : list bytes) (c : BoundedCapture) (hs ms ts : list bytes) : Prop := {
  captured_limit : limit c = limit_bytes;
  captured_head_capacity : head_capacity c = limit_bytes / 2;
  captured_tail_capacity : tail_capacity c = limit_bytes - limit_bytes / 2;
  captured_split : cs = hs ++ ms ++ ts;
  captured_head : head c = concat hs;
  captured_tail : tail c = concat ts;
  captured_total : total_bytes c = Z.min u64_max (zlen (concat cs));
  captured_head_room : zlen (head c) <= limit_bytes / 2;
  captured_tail_room : zlen (tail c) <= limit_bytes - limit_bytes / 2;
  captured_all : tail_started c = false -> ms = [] /\ ts = [];
  captured_full : tail_started c = true -> limit_bytes / 2 - 3 <= zlen (head c);
  captured_dropped : ms <> [] -> tail_started c = true /\
    limit_bytes - limit_bytes / 2 < zlen (concat (ms ++ ts));
}.

Lemma captured_new limit_bytes : 0 <= limit_bytes -> captured limit_bytes [] (capture_new limit_bytes) [] [] [].
Proof.
  intros. pose proof (Z.div_pos limit_bytes 2). pose proof (Z.div_le_upper_bound limit_bytes 2 limit_bytes).
  by split; cbn; rewrite ?zlen_nil; try done; lia.
Qed.

Lemma captured_push limit_bytes cs c hs ms ts ch :
  0 <= limit_bytes -> Forall is_char cs -> is_char ch -> captured limit_bytes cs c hs ms ts ->
  exists hs' ms' ts', captured limit_bytes (cs ++ [ch]) (push_char c ch) hs' ms' ts'.
Proof.
  intros Hlim Hcs Hch [Hl Hhc Htc Hsplit Hhead Htail Htotal Hhr Htr Hall Hfull Hdrop].
  pose proof (is_char_length _ Hch) as Hlen. pose proof (zlen_nonneg ch).
  assert (Hlen' : 1 <= zlen ch <= 4) by (unfold zlen; lia).
  assert (Htot : saturating_add u64_max (total_bytes c) (zlen ch) =
                 Z.min u64_max (zlen (concat (cs ++ [ch])))).
  { unfold saturating_add. rewrite Htotal, concat_app, zlen_app. cbn [concat]. rewrite app_nil_r. lia. }
  unfold push_char. rewrite Hhc.
  destruct (negb (tail_started c) && (zlen (head c) + zlen ch <=? limit_bytes / 2)) eqn:Hfits.
  - bool_hyps. destruct Hall as [-> ->]; [done|]. cbn in Hsplit. rewrite app_nil_r in Hsplit. subst hs.
    exists (cs ++ [ch]), [], []. split; cbn; rewrite ?app_nil_r; try done; try congruence.
    + rewrite Hhead, concat_app. cbn. by rewrite app_nil_r.
    + rewrite zlen_app. lia.
  - rewrite Htc, Htail.
    assert (Hsnoc : concat ts ++ ch = concat (ts ++ [ch])).
    { rewrite concat_app. cbn. by rewrite app_nil_r. }
    rewrite Hsnoc. subst cs. rewrite !Forall_app in Hcs. destruct Hcs as (_ & _ & Hts).
    destruct (pop_while_over_spec (length (concat (ts ++ [ch]))) (limit_bytes - limit_bytes / 2) (ts ++ [ch]))
      as (ds & ts' & Hds & Hpop & Hle & Hover).
    { rewrite Forall_app, Forall_singleton. done. }
    { assert (Hts' : Forall is_char (ts ++ [ch])) by (rewrite Forall_app, Forall_singleton; done).
      apply concat_length_ge in Hts'. unfold zlen in Hts'. lia. }
    { pose proof (Z.div_le_upper_bound limit_bytes 2 limit_bytes). lia. }
    exists hs, (ms ++ ds), ts'.
    assert (Hfull' : limit_bytes / 2 - 3 <= zlen (head c)).
    { apply andb_false_iff in Hfits as [Hs|Hs]; bool_hyps; [by apply Hfull|lia]. }
    split; cbn; rewrite ?Hpop; try done.
    + by rewrite <- !app_assoc, <- Hds.
    + intros Hms. split; [done|]. rewrite <- app_assoc, <- Hds, concat_app, zlen_app.
      pose proof (zlen_nonneg (concat ms)).
      destruct ds as [|d ds]; [|specialize (Hover ltac:(done)); lia]. rewrite app_nil_r in Hms.
      specialize (Hdrop Hms) as [_ Hdrop]. rewrite concat_app, zlen_app in Hdrop.
      rewrite concat_app, zlen_app. pose proof (zlen_nonneg (concat [ch])). lia.
Qed.

Lemma captured_text limit_bytes cs :
  0 <= limit_bytes -> Forall is_char cs ->
  exists hs ms ts, captured limit_bytes cs (fold_left push_char cs (capture_new limit_bytes)) hs ms ts.
Proof.
  intros Hlim. induction cs as [|ch cs IH] using rev_ind; intros Hcs.
  - exists [], [], []. by apply captured_new.
  - apply Forall_app in Hcs as [Hcs Hch]. apply Forall_inv in Hch.
    destruct (IH Hcs) as (hs & ms & ts & Hc). rewrite fold_left_app. cbn.
    by eapply captured_push.
Qed.

Lemma omission_length omitted : zlen (omission omitted) <= 44.
Proof.
  unfold omission. rewrite zlen_cons, !zlen_app. pose proof (decimal_length omitted).
  change (zlen (bytes_of "...[")) with 4. change (zlen (bytes_of " bytes omitted]...")) with 18.
  change (zlen [newline]) with 1. lia.
Qed.

Lemma omission_valid omitted : valid_utf8 (omission omitted).
Proof.
  apply ascii_valid. unfold omission. rewrite Forall_cons, !Forall_app.
  split_and!; try apply decimal_ascii; repeat constructor.
Qed.

(** Once the head leaves room for the marker the loop ends, at the latest with an
    empty tail. *)
Lemma finish_loop_spec fuel c ts :
  Forall is_char ts -> (length ts < fuel)%nat -> zlen (head c) + 44 <= limit c ->
  exists ds ts' omitted, ts = ds ++ ts' /\
    omitted = saturating_sub (total_bytes c) (zlen (head c) + zlen (concat ts')) /\
    zlen (head c ++ omission omitted ++ concat ts') <= limit c /\
    finish_loop fuel c (concat ts) =
      Some (from_utf8_lossy (head c ++ omission omitted ++ concat ts'), true, omitted).
Proof.
  intros Hts. revert fuel. induction Hts as [|ch ts Hch Hts IH]; intros [|fuel] Hf Hroom;
    cbn [length] in Hf; try lia; cbn [finish_loop].
  - exists [], [], (saturating_sub (total_bytes c) (zlen (head c) + zlen (concat (@nil bytes)))).
    pose proof (omission_length (saturating_sub (total_bytes c) (zlen (head c) + zlen (concat (@nil bytes))))).
    rewrite !zlen_app. cbn [concat] in *. change (zlen (@nil ascii)) with 0 in *.
    split_and!; [done..|lia|]. by rewrite (proj2 (Z.leb_le _ _)) by lia.
  - destruct (Z.leb_spec
      (zlen (head c) + zlen (omission (saturating_sub (total_bytes c)
         (zlen (head c) + zlen (concat (ch :: ts))))) + zlen (concat (ch :: ts))) (limit c)) as [Hle|Hgt].
    + exists [], (ch :: ts). eexists. rewrite !zlen_app. split_and!; [done..|lia|done].
    + cbn [concat]. rewrite pop_front_char by done.
      destruct (IH fuel ltac:(lia) Hroom) as (ds & ts' & om & -> & ? & ? & ?).
      by exists (ch :: ds), ts', om.
Qed.

(** What [BoundedCapture::finish] gives for a text. *)
Record bounded_text (limit_bytes : Z) (full : bytes) (text : bytes) (truncated : bool) (omitted : Z) : Prop := {
  bounded_length : zlen text <= limit_bytes;
  bounded_valid : valid_utf8 text;
  bounded_short : zlen full + 3 <= limit_bytes -> truncated = false;
  bounded_whole : truncated = false -> text = full /\ omitted = 0;
  bounded_cut : truncated = true -> exists h m t, full = h ++ m ++ t /\ m <> [] /\
    text = h ++ omission omitted ++ t /\
    omitted = saturating_sub (Z.min u64_max (zlen full)) (zlen h + zlen t) /\
    (zlen full <= u64_max -> omitted = zlen m);
}.

Lemma concat_nonempty ms : Forall is_char ms -> ms <> [] -> concat ms <> [].
Proof.
  intros Hms Hne Hc. apply concat_length_ge in Hms. rewrite Hc in Hms. change (zlen (@nil ascii)) with 0 in Hms.
  destruct ms; cbn in *; [done|lia].
Qed.

(** Nothing was left out iff the whole text was kept. *)
Lemma captured_fits limit_bytes cs c hs ms ts :
  limit_bytes < u64_max -> Forall is_char cs -> captured limit_bytes cs c hs ms ts ->
  (total_bytes c <=? limit_bytes) && (zlen (head c) + zlen (tail c) =? total_bytes c) = true <->
  ms = [] /\ zlen (concat cs) <= limit_bytes.
Proof.
  intros Hlim Hcs [_ _ _ Hsplit Hhead Htail Htotal _ _ _ _ _].
  assert (Hbytes : zlen (concat cs) = zlen (head c) + zlen (concat ms) + zlen (tail c)).
  { rewrite Hsplit, !concat_app, !zlen_app, Hhead, Htail. lia. }
  pose proof (zlen_nonneg (concat ms)). rewrite andb_true_iff, Z.leb_le, Z.eqb_eq. split.
  - intros [Hle Heq]. split; [|lia]. destruct (decide (ms = [])) as [|Hne]; [done|].
    rewrite Hsplit, !Forall_app in Hcs. destruct Hcs as (_ & Hms & _).
    destruct (concat_nonempty ms Hms Hne). apply length_zero_iff_nil. unfold zlen in *. lia.
  - intros [-> Hle]. change (zlen (concat (@nil bytes))) with 0 in Hbytes. lia.
Qed.

Lemma capture_finish_spec limit_bytes cs :
  128 <= limit_bytes < u64_max -> Forall is_char cs ->
  exists text truncated omitted,
    capture_finish (fold_left push_char cs (capture_new limit_bytes)) = Some (text, truncated, omitted) /\
    bounded_text limit_bytes (concat cs) text truncated omitted.
Proof.
  intros Hlim Hcs. destruct (captured_text limit_bytes cs) as (hs & ms & ts & Hc); [lia|done|].
  revert Hc. generalize (fold_left push_char cs (capture_new limit_bytes)). intros c Hc.
  pose proof (captured_fits _ _ _ _ _ _ (proj2 Hlim) Hcs Hc) as Hfits.
  pose proof Hc as [Hl _ _ Hsplit Hhead Htail Htotal Hhr Htr Hall Hfull Hdrop].
  assert (Hparts : Forall is_char hs /\ Forall is_char ms /\ Forall is_char ts).
  { subst cs. by rewrite !Forall_app in Hcs. } destruct Hparts as (Hhs & Hms & Hts).
  pose proof (zlen_nonneg (tail c)). unfold capture_finish. rewrite Hl.
  destruct ((total_bytes c <=? limit_bytes) && (zlen (head c) + zlen (tail c) =? total_bytes c)).
  - destruct Hfits as [[-> Hle] _]; [done|].
    assert (Hwhole : head c ++ tail c = concat cs).
    { by rewrite Hsplit, Hhead, Htail, concat_app. }
    exists (concat cs), false, 0. rewrite Hwhole, lossy_valid by auto with ladon. split; [done|].
    by split; auto with ladon.
  - pose proof (Z.div_le_upper_bound limit_bytes 2 (limit_bytes - 64)).
    rewrite Htail. destruct (finish_loop_spec (S (length (concat ts))) c ts)
      as (ds & ts' & om & -> & Hom & Hle & ->); [done| |lia|].
    { pose proof (concat_length_ge _ Hts). unfold zlen in *. lia. }
    apply Forall_app in Hts as [Hds Hts']. rewrite Hhead in *.
    do 3 eexists. split; [done|].
    assert (Hv : valid_utf8 (concat hs ++ omission om ++ concat ts')).
    { auto using omission_valid with ladon. }
    rewrite lossy_valid by done. rewrite Hl in Hle.
    assert (Hne : ms ++ ds <> []).
    { intros [-> ->]%app_nil. destruct Hfits as [_ Hfits]. discriminate Hfits. split; [done|].
      rewrite Hsplit, concat_app, zlen_app. rewrite !zlen_app in Hle. cbn in *.
      pose proof (zlen_nonneg (omission om)). lia. }
    split; try done.
    + intros Hshort. destruct (decide (ms = [])) as [->|Hne'].
      { destruct Hfits as [_ Hfits]. discriminate Hfits. split; [done|lia]. }
      exfalso. destruct (Hdrop Hne') as [Hst Hover]. specialize (Hfull Hst).
      rewrite Hsplit, concat_app, zlen_app in Hshort. lia.
    + intros _. exists (concat hs), (concat (ms ++ ds)), (concat ts').
      assert (Hcat : concat cs = concat hs ++ concat (ms ++ ds) ++ concat ts').
      { by rewrite Hsplit, !concat_app, <- !app_assoc. }
      split_and!; try done.
      * apply concat_nonempty; [by apply Forall_app|done].
      * by rewrite Hom, Htotal.
      * intros Hsmall. rewrite Hom, Htotal. rewrite Hcat, !zlen_app in *. unfold saturating_sub.
        pose proof (zlen_nonneg (concat (ms ++ ds))). lia.
Qed.
