(* ===== verification/Redact.v ===== *)
(** * Output redaction: [crates/ladon-core/src/redact.rs]

    [StreamingRedactor] replaces every secret value, and every encoded form of
    it, in a stream that arrives in chunks, and keeps a bounded, printable text.
    The substring search, the base64 engines and the JSON writer are parameters.
    Buffer positions are [nat]; sizes that are compared to limits are [Z]. *)

From S2P Require Import Prelude Errors Utf8 Text Model Capture.
Local Open Scope Z_scope.

Definition DEFAULT_OUTPUT_LIMIT_BYTES : Z := 512 * 1024.
Definition MAX_OUTPUT_LIMIT_BYTES : Z := 2 * 1024 * 1024.
Definition MIN_OUTPUT_LIMIT_BYTES : Z := 128.
Definition REDACTION_MARKER : bytes := bytes_of "[REDACTED]".

(** Third-party code: [memchr::memmem::find], four engines of the [base64] crate
    and [serde_json::to_string] on text. *)
Class RedactCrates := {
  memmem_find : bytes -> bytes -> option nat;
  base64_standard : bytes -> bytes;
  base64_standard_no_pad : bytes -> bytes;
  base64_url_safe : bytes -> bytes;
  base64_url_safe_no_pad : bytes -> bytes;
  json_to_string : bytes -> option bytes;
}.

(** [find] gives the first place where a non-empty needle occurs. *)
Class RedactCratesLaws `{RedactCrates} := {
  memmem_find_Some hay needle i :
    memmem_find hay needle = Some i ->
    starts_with (drop i hay) needle = true /\
    forall j, (j < i)%nat -> starts_with (drop j hay) needle = false;
  memmem_find_None hay needle :
    memmem_find hay needle = None -> forall j, (j <= length hay)%nat -> starts_with (drop j hay) needle = false;
}.

(** [struct RedactionSecret] and [RedactionSecret::new], which keeps the value only. *)
Definition RedactionSecret : Type := bytes.
Definition RedactionSecret_new (_ : SecretId) (_ : string) (value : bytes) : RedactionSecret := value.

(** [struct RedactedOutput]. *)
Record RedactedOutput := {
  text : bytes;
  output_redaction_count : Z;
  truncated : bool;
  omitted_bytes : Z;
  output_suppressed : bool;
}.

(** [struct StreamingRedactor]. *)
Record StreamingRedactor := {
  patterns : list bytes;
  maximum_pattern_bytes : nat;
  pending : bytes;
  marker : bytes;
  utf8 : Utf8Escaper;
  capture : BoundedCapture;
  redaction_count : Z;
  suppressed : bool;
}.

(** ** The patterns of a secret *)

(** [fn encode_hex] and [fn percent_encode]. *)
Definition encode_hex (value : bytes) (uppercase : bool) : bytes :=
  concat (hex_byte uppercase <$> value).

Definition is_unreserved (b : byte) : bool :=
  is_ascii_alphanumeric b || bool_decide (b = "-"%char) || bool_decide (b = "."%char)
  || bool_decide (b = "_"%char) || bool_decide (b = "~"%char).
Definition percent_encode (value : bytes) (lowercase : bool) : bytes :=
  concat ((fun b => if is_unreserved b then [b] else "%"%char :: hex_byte (negb lowercase) b) <$> value).

(** [fn add_pattern]. *)
Definition add_pattern (patterns : list bytes) (needle : bytes) : list bytes :=
  if bool_decide (needle = []) || existsb (fun existing => bool_decide (existing = needle)) patterns
  then patterns else patterns ++ [needle].

(** [sort_by_key(|pattern| Reverse(pattern.needle.len()))]: a stable sort. *)
Fixpoint insert_pattern (p : bytes) (l : list bytes) : list bytes :=
  match l with
  | [] => [p]
  | q :: r => if (length q <=? length p)%nat then p :: l else q :: insert_pattern p r
  end.
Definition sort_by_length (l : list bytes) : list bytes := foldr insert_pattern [] l.

Section redact.
Context `{RedactCrates}.

(** The forms that [StreamingRedactor::new] adds for a value, in its order. *)
Definition pattern_forms (value : bytes) : list bytes :=
  [value; encode_hex value false; encode_hex value true;
   base64_standard value; base64_standard_no_pad value;
   base64_url_safe value; base64_url_safe_no_pad value] ++
  match from_utf8 value with
  | Utf8Ok =>
    match json_to_string value with Some json => [slice 1 (zlen json - 1) json] | None => [] end ++
    [percent_encode value false; percent_encode value true]
  | Utf8Error _ _ => []
  end.

(** One round of the loop over the secrets: [patterns] and [suppressed]. *)
Definition add_secret (acc : list bytes * bool) (value : RedactionSecret) : list bytes * bool :=
  let '(patterns, suppressed) := acc in
  match value with
  | [] => acc
  | _ =>
    (fold_left add_pattern (pattern_forms value) patterns,
     suppressed || (length value <? 4)%nat)
  end.

(** [fn contains_pattern]. *)
Definition contains_pattern (haystack : bytes) (patterns : list bytes) : bool :=
  existsb (fun needle => match memmem_find haystack needle with Some _ => true | None => false end) patterns.

(** [StreamingRedactor::new]. *)
Definition redactor_new (secrets : list RedactionSecret) (output_limit_bytes : Z) : LResult StreamingRedactor :=
  reject_if (negb ((MIN_OUTPUT_LIMIT_BYTES <=? output_limit_bytes)
                   && (output_limit_bytes <=? MAX_OUTPUT_LIMIT_BYTES))) InvalidOutputLimit ;;
  let '(added, suppressed) := fold_left add_secret secrets ([], false) in
  let patterns := sort_by_length added in
  Ok {| patterns := patterns;
        maximum_pattern_bytes :=
          match patterns with [] => 1%nat | _ => foldr Nat.max 0%nat (length <$> patterns) end;
        pending := [];
        marker := if contains_pattern REDACTION_MARKER patterns then [] else REDACTION_MARKER;
        utf8 := [];
        capture := capture_new output_limit_bytes;
        redaction_count := 0;
        suppressed := suppressed |}.

(** ** Searching *)

(** The body of the loop of [find_next] for the pattern at [index]. *)
Definition find_step (all : list bytes) (buffer : bytes) (position safe_end index : nat)
    (needle : bytes) (best : option (nat * nat)) : option (nat * nat) :=
  match memmem_find (drop position buffer) needle with
  | None => best
  | Some found =>
    let start := (position + found)%nat in
    if (safe_end <=? start)%nat then best
    else match best with
    | None => Some (start, index)
    | Some (best_start, best_index) =>
      if (start <? best_start)%nat
         || (start =? best_start)%nat
            && (length (default [] (all !! best_index)) <? length needle)%nat
      then Some (start, index) else best
    end
  end.
Fixpoint find_loop (all : list bytes) (buffer : bytes) (position safe_end index : nat)
    (rest : list bytes) (best : option (nat * nat)) : option (nat * nat) :=
  match rest with
  | [] => best
  | needle :: rest =>
    find_loop all buffer position safe_end (S index) rest
      (find_step all buffer position safe_end index needle best)
  end.

(** [fn find_next]: where the next pattern starts, and its index. *)
Definition find_next (buffer : bytes) (position safe_end : nat) (patterns : list bytes) :
    option (nat * nat) :=
  find_loop patterns buffer position safe_end 0 patterns None.

(** ** Streaming *)

(** [self.utf8.push(bytes, &mut self.capture)]. *)
Definition emit (r : StreamingRedactor) (b : bytes) : StreamingRedactor :=
  let '(utf8', capture') := escaper_push (utf8 r) b (capture r) in
  {| patterns := patterns r; maximum_pattern_bytes := maximum_pattern_bytes r;
     pending := pending r; marker := marker r; utf8 := utf8'; capture := capture';
     redaction_count := redaction_count r; suppressed := suppressed r |}.
Definition count_redaction (r : StreamingRedactor) : StreamingRedactor :=
  {| patterns := patterns r; maximum_pattern_bytes := maximum_pattern_bytes r;
     pending := pending r; marker := marker r; utf8 := utf8 r; capture := capture r;
     redaction_count := saturating_add u64_max (redaction_count r) 1;
     suppressed := suppressed r |}.
Definition with_pending (r : StreamingRedactor) (b : bytes) : StreamingRedactor :=
  {| patterns := patterns r; maximum_pattern_bytes := maximum_pattern_bytes r;
     pending := b; marker := marker r; utf8 := utf8 r; capture := capture r;
     redaction_count := redaction_count r; suppressed := suppressed r |}.

(** [while position < safe_end]: the final position.  Every round moves on by at
    least one byte, so the length of the buffer is fuel enough. *)
Fixpoint process_loop (fuel : nat) (buffer : bytes) (safe_end position : nat)
    (r : StreamingRedactor) : nat * StreamingRedactor :=
  match fuel with
  | O => (position, r)
  | S fuel =>
    if (position <? safe_end)%nat then
      match find_next buffer position safe_end (patterns r) with
      | None => (safe_end, emit r (take (safe_end - position) (drop position buffer)))
      | Some (start, pattern_index) =>
        let r := emit r (take (start - position) (drop position buffer)) in
        let r := emit r (marker r) in
        let needle := default [] (patterns r !! pattern_index) in
        process_loop fuel buffer safe_end (start + length needle) (count_redaction r)
      end
    else (position, r)
  end.

(** [StreamingRedactor::process]. *)
Definition process (r : StreamingRedactor) (finishing : bool) : StreamingRedactor :=
  let buffer := pending r in
  let safe_end := if finishing then length buffer
                  else (length buffer - (maximum_pattern_bytes r - 1))%nat in
  let '(position, r) := process_loop (length buffer) buffer safe_end 0 (with_pending r []) in
  with_pending r (pending r ++ drop position buffer).

(** [StreamingRedactor::push]. *)
Definition push (r : StreamingRedactor) (b : bytes) : StreamingRedactor :=
  if suppressed r then r else process (with_pending r (pending r ++ b)) false.

(** [StreamingRedactor::finish]; [None] would be a capture that never ends. *)
Definition suppressed_output (count : Z) (truncated : bool) (omitted : Z) : RedactedOutput :=
  {| text := []; output_redaction_count := count; truncated := truncated;
     omitted_bytes := omitted; output_suppressed := true |}.
Definition redactor_finish (r : StreamingRedactor) : option RedactedOutput :=
  if suppressed r then Some (suppressed_output 0 false 0)
  else
    let r := process r true in
    '(text, truncated, omitted_bytes) ← capture_finish (escaper_finish (utf8 r) (capture r));
    Some (if contains_pattern text (patterns r) then
            suppressed_output (redaction_count r) truncated omitted_bytes
          else {| text := text; output_redaction_count := redaction_count r;
                  truncated := truncated; omitted_bytes := omitted_bytes;
                  output_suppressed := false |}).
End redact.

(** ** The reference: one scan over the whole stream

    At every position the longest pattern that starts there is replaced. *)
Definition match_length (patterns : list bytes) (b : bytes) : nat :=
  foldr (fun p n => if starts_with b p then Nat.max (length p) n else n) 0%nat patterns.

Fixpoint scan_loop (patterns : list bytes) (marker : bytes) (fuel : nat) (b : bytes) : bytes * Z :=
  match fuel, b with
  | S fuel, x :: r =>
    match match_length patterns b with
    | O => let '(o, n) := scan_loop patterns marker fuel r in (x :: o, n)
    | l => let '(o, n) := scan_loop patterns marker fuel (drop l b) in (marker ++ o, n + 1)
    end
  | _, _ => ([], 0)
  end.
Definition scan (patterns : list bytes) (marker b : bytes) : bytes * Z :=
  scan_loop patterns marker (length b) b.
#[global] Arguments scan : simpl never.

Section scanning.
Context (patterns : list bytes) (marker : bytes).

Lemma scan_loop_fuel f g b :
  (length b <= f)%nat -> (length b <= g)%nat ->
  scan_loop patterns marker f b = scan_loop patterns marker g b.
Proof.
  revert g b. induction f as [|f IH]; intros [|g] [|x b] Hf Hg; cbn [length] in *;
    try lia; try done. cbn [scan_loop].
  destruct (match_length patterns (x :: b)) as [|l].
  - by rewrite (IH g) by lia.
  - rewrite (IH g) by (rewrite length_drop; cbn; lia). done.
Qed.

Lemma scan_cons x b :
  match_length patterns (x :: b) = 0%nat ->
  scan patterns marker (x :: b) = (x :: (scan patterns marker b).1, (scan patterns marker b).2).
Proof.
  intros Hm. unfold scan at 1. cbn [length scan_loop]. rewrite Hm.
  change (scan_loop patterns marker (length b) b) with (scan patterns marker b).
  by destruct (scan patterns marker b).
Qed.

Lemma scan_match b l :
  match_length patterns b = S l -> b <> [] ->
  scan patterns marker b =
  (marker ++ (scan patterns marker (drop (S l) b)).1, (scan patterns marker (drop (S l) b)).2 + 1).
Proof.
  intros Hm Hb. destruct b as [|x b]; [done|]. unfold scan at 1. cbn [length scan_loop]. rewrite Hm.
  rewrite (scan_loop_fuel (length b) (length (drop (S l) (x :: b)))) by (cbn; rewrite length_drop; lia).
  change (scan_loop patterns marker (length (drop (S l) (x :: b))) (drop (S l) (x :: b)))
    with (scan patterns marker (drop (S l) (x :: b))).
  by destruct (scan patterns marker (drop (S l) (x :: b))).
Qed.

(** A stretch in which no pattern starts is copied. *)
Lemma scan_skip a b :
  (forall q, (q < length a)%nat -> match_length patterns (drop q (a ++ b)) = 0%nat) ->
  scan patterns marker (a ++ b) = (a ++ (scan patterns marker b).1, (scan patterns marker b).2).
Proof.
  induction a as [|x a IH]; intros Ha; [cbn [app]; by destruct (scan patterns marker b)|].
  cbn [app]. rewrite scan_cons by (apply (Ha 0%nat); cbn; lia).
  rewrite IH; [done|]. intros q Hq. apply (Ha (S q)). cbn. lia.
Qed.

Lemma match_length_cons p l b :
  match_length (p :: l) b =
  if starts_with b p then Nat.max (length p) (match_length l b) else match_length l b.
Proof. reflexivity. Qed.

Lemma match_length_spec b n :
  match_length patterns b = S n -> exists p, p ∈ patterns /\ starts_with b p = true /\ length p = S n.
Proof.
  revert n. induction patterns as [|p l IH]; [done|]. intros n. rewrite match_length_cons.
  destruct (starts_with b p) eqn:Hp.
  - intros Hmax. destruct (Nat.max_spec (length p) (match_length l b)) as [[? Hm]|[? Hm]];
      rewrite Hm in Hmax.
    + destruct (IH _ Hmax) as (q & ? & ? & ?). exists q. set_solver.
    + exists p. set_solver.
  - intros Hl. destruct (IH _ Hl) as (q & ? & ? & ?). exists q. set_solver.
Qed.

Lemma match_length_bound b : (match_length patterns b <= foldr Nat.max 0 (length <$> patterns))%nat.
Proof.
  induction patterns as [|p l IH]; [done|]. rewrite match_length_cons. cbn [fmap list_fmap foldr].
  destruct (starts_with b p); lia.
Qed.
End scanning.

Lemma match_length_app l k b : match_length (l ++ k) b = Nat.max (match_length l b) (match_length k b).
Proof.
  induction l as [|p l IH]; [done|]. cbn [app]. rewrite !match_length_cons, IH.
  destruct (starts_with b p); lia.
Qed.

(** What lies beyond the longest pattern does not matter. *)
Lemma starts_with_app b f p : (length p <= length b)%nat -> starts_with (b ++ f) p = starts_with b p.
Proof.
  intros Hl. unfold starts_with. apply bool_decide_ext. split.
  - intros [k Hk]. apply (f_equal (take (length p))) in Hk.
    rewrite take_app_length, take_app_le in Hk by done. exists (drop (length p) b).
    by rewrite <- Hk at 1; rewrite take_drop.
  - intros [k ->]. exists (k ++ f). by rewrite <- app_assoc.
Qed.

Lemma match_length_local patterns b f :
  (foldr Nat.max 0 (length <$> patterns) <= length b)%nat ->
  match_length patterns (b ++ f) = match_length patterns b.
Proof.
  induction patterns as [|p l IH]; [done|]. cbn [fmap list_fmap foldr]. intros Hm.
  by rewrite !match_length_cons, starts_with_app, IH by lia.
Qed.

Lemma match_length_snoc l p b :
  match_length (l ++ [p]) b =
  if starts_with b p then Nat.max (match_length l b) (length p) else match_length l b.
Proof.
  rewrite match_length_app, match_length_cons. cbn. destruct (starts_with b p); lia.
Qed.

(** ** [find_next] finds the first, longest match *)
Section finding.
Context `{RedactCratesLaws} (all : list bytes) (buffer : bytes) (from safe_end : nat).
Hypothesis within : (safe_end <= length buffer)%nat.
Hypothesis nonempty : Forall (fun p => 0 < length p)%nat all.

Definition best_of (seen : list bytes) (best : option (nat * nat)) : Prop :=
  match best with
  | None => forall q, (from <= q < safe_end)%nat -> match_length seen (drop q buffer) = 0%nat
  | Some (start, index) =>
    (from <= start < safe_end)%nat /\
    match_length seen (drop start buffer) = length (default [] (all !! index)) /\
    (0 < length (default [] (all !! index)))%nat /\
    forall q, (from <= q < start)%nat -> match_length seen (drop q buffer) = 0%nat
  end.

(** A pattern that does not start before [upto] changes nothing there. *)
Lemma match_length_unmatched seen needle upto q :
  (forall j, (from <= j < upto)%nat -> starts_with (drop j buffer) needle = false) ->
  (from <= q < upto)%nat ->
  match_length (seen ++ [needle]) (drop q buffer) = match_length seen (drop q buffer).
Proof. intros Hno Hq. by rewrite match_length_snoc, (Hno q). Qed.

Lemma best_of_unmatched seen needle best :
  (forall j, (from <= j < safe_end)%nat -> starts_with (drop j buffer) needle = false) ->
  best_of seen best -> best_of (seen ++ [needle]) best.
Proof.
  intros Hno. destruct best as [[start index]|]; cbn.
  - intros (Hs & Hm & Hpos & Hq). rewrite (match_length_unmatched _ _ safe_end) by done.
    split_and!; [lia..|done|done|]. intros q Hq'.
    rewrite (match_length_unmatched _ _ safe_end) by (done || lia).
    by apply Hq.
  - intros Hq q Hq'. rewrite (match_length_unmatched _ _ safe_end) by done. by apply Hq.
Qed.

Lemma find_step_spec seen needle rest best :
  all = seen ++ needle :: rest -> best_of seen best ->
  best_of (seen ++ [needle]) (find_step all buffer from safe_end (length seen) needle best).
Proof.
  intros Hall Hbest. unfold find_step.
  assert (Hneedle : all !! length seen = Some needle).
  { rewrite Hall, lookup_app_r, Nat.sub_diag by lia. done. }
  assert (Hpos : (0 < length needle)%nat) by (by eapply (Forall_lookup_1 _ _ _ _ nonempty)).
  destruct (memmem_find (drop from buffer) needle) as [found|] eqn:Hfind.
  2: { apply best_of_unmatched; [|done]. intros j Hj.
       pose proof (memmem_find_None _ _ Hfind (j - from)%nat) as Hn. rewrite length_drop, drop_drop in Hn.
       replace (from + (j - from))%nat with j in Hn by lia. apply Hn. lia. }
  apply memmem_find_Some in Hfind as [Hocc Hfirst]. rewrite drop_drop in Hocc.
  assert (Hbefore : forall j, (from <= j < from + found)%nat -> starts_with (drop j buffer) needle = false).
  { intros j Hj. specialize (Hfirst (j - from)%nat). rewrite drop_drop in Hfirst.
    replace (from + (j - from))%nat with j in Hfirst by lia. apply Hfirst. lia. }
  assert (Hge : (from <= from + found)%nat) by lia.
  revert Hge Hocc Hbefore. generalize (from + found)%nat. clear Hfirst found. intros start Hge Hocc Hbefore.
  destruct (Nat.leb_spec safe_end start) as [Hlate|Hearly].
  { apply best_of_unmatched; [|done]. intros j Hj. apply Hbefore. lia. }
  assert (Htake : (forall q, (from <= q < start)%nat -> match_length seen (drop q buffer) = 0%nat) ->
    (match_length seen (drop start buffer) <= length needle)%nat ->
    best_of (seen ++ [needle]) (Some (start, length seen))).
  { intros Hq Hm. cbn. rewrite Hneedle, match_length_snoc, Hocc. cbn. split_and!; [lia..|].
    intros q Hq'. rewrite (match_length_unmatched _ _ start) by done. by apply Hq. }
  destruct best as [[best_start best_index]|]; cbn in Hbest.
  2: { apply Htake; [intros; apply Hbest; lia|]. rewrite Hbest by lia. lia. }
  destruct Hbest as (Hbs & Hm & Hbpos & Hq).
  destruct (Nat.ltb_spec start best_start) as [Hlt|Hnlt]; cbn [orb].
  { apply Htake; [intros; apply Hq; lia|]. rewrite Hq by lia. lia. }
  destruct (Nat.eqb_spec start best_start) as [->|Hne]; cbn [andb].
  - destruct (Nat.ltb_spec (length (default [] (all !! best_index))) (length needle)) as [Hl|Hl].
    + apply Htake; [done|]. lia.
    + cbn. rewrite match_length_snoc, Hocc, Hm. split_and!; [lia..|].
      intros q Hq'. rewrite (match_length_unmatched _ _ best_start) by done. by apply Hq.
  - cbn. rewrite (match_length_unmatched _ _ start) by (done || lia). split_and!; [lia..|done|done|].
    intros q Hq'. rewrite (match_length_unmatched _ _ start) by (done || lia). by apply Hq.
Qed.

Lemma find_loop_spec seen rest best :
  all = seen ++ rest -> best_of seen best ->
  best_of all (find_loop all buffer from safe_end (length seen) rest best).
Proof.
  revert seen best. induction rest as [|needle rest IH]; intros seen best Hall Hbest; cbn [find_loop].
  - rewrite app_nil_r in Hall. by subst.
  - replace (S (length seen)) with (length (seen ++ [needle])) by (rewrite length_app; cbn; lia).
    apply IH; [by rewrite <- app_assoc|]. by eapply find_step_spec.
Qed.

Lemma find_next_spec : best_of all (find_next buffer from safe_end all).
Proof. apply (find_loop_spec []); [done|]. done. Qed.
End finding.

(** ** Streaming computes the scan *)
Section streaming.
Context `{RedactCratesLaws} (pats : list bytes) (mark : bytes) (limit_bytes : Z).
Hypothesis nonempty : Forall (fun p => 0 < length p)%nat pats.

Definition longest : nat :=
  match pats with [] => 1%nat | _ => foldr Nat.max 0%nat (length <$> pats) end.

(** The redactor that holds back [held] after it has emitted [out] with [n] redactions. *)
Definition streamed (held out : bytes) (n : Z) : StreamingRedactor := {|
  patterns := pats; maximum_pattern_bytes := longest; pending := held; marker := mark;
  utf8 := (sink limit_bytes out).1; capture := (sink limit_bytes out).2;
  redaction_count := Z.min u64_max n; suppressed := false;
|}.

Lemma emit_streamed held out n b : emit (streamed held out n) b = streamed held (out ++ b) n.
Proof.
  unfold emit, streamed. cbn [utf8 capture]. rewrite escaper_push_sink.
  by destruct (sink limit_bytes (out ++ b)).
Qed.

Lemma count_streamed held out n :
  0 <= n -> count_redaction (streamed held out n) = streamed held out (n + 1).
Proof. intros. unfold count_redaction, streamed. cbn. f_equal. unfold saturating_add. lia. Qed.

(** The matches below [safe_end] are the same whatever follows the buffer. *)
Definition settled (buffer : bytes) (safe_end : nat) (future : bytes) : Prop :=
  forall q, (q < safe_end)%nat -> match_length pats (drop q (buffer ++ future)) = match_length pats (drop q buffer).

Lemma scan_skip_at buffer position upto :
  (position <= upto <= length buffer)%nat ->
  (forall q, (position <= q < upto)%nat -> match_length pats (drop q buffer) = 0%nat) ->
  scan pats mark (drop position buffer) =
  (take (upto - position) (drop position buffer) ++ (scan pats mark (drop upto buffer)).1,
   (scan pats mark (drop upto buffer)).2).
Proof.
  intros Hle Hno. rewrite <- (take_drop (upto - position) (drop position buffer)) at 1.
  rewrite scan_skip.
  - rewrite drop_drop. by replace (position + (upto - position))%nat with upto by lia.
  - intros q. rewrite take_drop, length_take, length_drop, drop_drop. intros Hq. apply Hno. lia.
Qed.

Lemma take_drop_app (buffer future : bytes) position upto :
  (position <= upto <= length buffer)%nat ->
  take (upto - position) (drop position (buffer ++ future)) =
  take (upto - position) (drop position buffer).
Proof.
  intros. rewrite drop_app_le by lia. by rewrite take_app_le by (rewrite length_drop; lia).
Qed.

Lemma process_loop_spec fuel buffer safe_end position held out n :
  (safe_end <= length buffer)%nat -> (position <= length buffer)%nat ->
  (safe_end - position <= fuel)%nat -> 0 <= n ->
  exists p o k,
    process_loop fuel buffer safe_end position (streamed held out n) = (p, streamed held (out ++ o) (n + k)) /\
    (safe_end <= p <= length buffer)%nat /\ 0 <= k /\
    forall future, settled buffer safe_end future ->
      scan pats mark (drop position (buffer ++ future)) =
      (o ++ (scan pats mark (drop p (buffer ++ future))).1, k + (scan pats mark (drop p (buffer ++ future))).2).
Proof.
  intros Hsafe. revert position out n. induction fuel as [|fuel IH]; intros position out n Hpos Hfuel Hn;
    cbn [process_loop].
  { exists position, [], 0. rewrite app_nil_r, Z.add_0_r. split_and!; [done|lia..|].
    intros future _. by destruct (scan pats mark (drop position (buffer ++ future))). }
  destruct (Nat.ltb_spec position safe_end) as [Hlt|Hge].
  2: { exists position, [], 0. rewrite app_nil_r, Z.add_0_r. split_and!; [done|lia..|].
       intros future _. by destruct (scan pats mark (drop position (buffer ++ future))). }
  pose proof (find_next_spec pats buffer position safe_end Hsafe nonempty) as Hfind.
  change (patterns (streamed held out n)) with pats.
  destruct (find_next buffer position safe_end pats) as [[start index]|]; cbn in Hfind.
  - destruct Hfind as (Hstart & Hm & Hlen & Hno). rewrite !emit_streamed, count_streamed by done.
    change (patterns _) with pats. change (marker _) with mark.
    set (needle := default [] (pats !! index)) in *.
    assert (Hfit : (start + length needle <= length buffer)%nat).
    { destruct (length needle) as [|l] eqn:Hl; [lia|]. apply match_length_spec in Hm as (p & _ & Hp & Hpl).
      apply bool_decide_eq_true in Hp as [r Hr]. apply (f_equal length) in Hr.
      rewrite length_drop, length_app in Hr. lia. }
    destruct (IH (start + length needle)%nat
      ((out ++ take (start - position) (drop position buffer)) ++ mark) (n + 1))
      as (p & o & k & -> & Hp & Hk & Hscan); [lia..|].
    exists p, (take (start - position) (drop position buffer) ++ mark ++ o), (k + 1).
    rewrite <- !app_assoc. split_and!; [by replace (n + (k + 1)) with (n + 1 + k) by lia|lia..|].
    intros future Hset.
    rewrite (scan_skip_at _ position start);
      [|rewrite length_app; lia|intros; rewrite Hset by lia; by apply Hno].
    rewrite take_drop_app by lia. destruct (length needle) as [|l] eqn:Hl; [lia|].
    rewrite (scan_match _ _ _ l).
    + rewrite drop_drop, Hscan by done. cbn [fst snd]. by rewrite <- !app_assoc, Z.add_shuffle0.
    + by rewrite Hset by lia.
    + intros He%(f_equal length). rewrite length_drop, length_app in He. cbn in He. lia.
  - rewrite emit_streamed. exists safe_end, (take (safe_end - position) (drop position buffer)), 0.
    rewrite Z.add_0_r. split_and!; [done|lia..|]. intros future Hset.
    rewrite (scan_skip_at _ position safe_end);
      [|rewrite length_app; lia|intros; rewrite Hset by lia; by apply Hfind].
    by rewrite take_drop_app by lia.
Qed.

(** What is held back is what the scan still has to see. *)
Definition holding (stream held out : bytes) (n : Z) : Prop :=
  0 <= n /\ forall future,
    scan pats mark (stream ++ future) =
    (out ++ (scan pats mark (held ++ future)).1, n + (scan pats mark (held ++ future)).2).

Lemma settled_early buffer future : settled buffer (length buffer - (longest - 1)) future.
Proof.
  intros q Hq. rewrite drop_app_le by lia. apply match_length_local. rewrite length_drop.
  assert (foldr Nat.max 0 (length <$> pats) <= longest)%nat by (unfold longest; destruct pats; [cbn|]; lia).
  lia.
Qed.

Lemma process_holding stream held out n finishing :
  holding stream held out n ->
  exists held' out' n', process (streamed held out n) finishing = streamed held' out' n' /\
    (if finishing then held' = [] /\ scan pats mark stream = (out', n')
     else holding stream held' out' n').
Proof.
  intros [Hn Hscan]. unfold process. change (pending (streamed held out n)) with held.
  change (maximum_pattern_bytes (streamed held out n)) with longest.
  change (with_pending (streamed held out n) []) with (streamed [] out n).
  destruct (process_loop_spec (length held) held
    (if finishing then length held else length held - (longest - 1)) 0 [] out n)
    as (p & o & k & -> & Hp & Hk & Hnext); [destruct finishing; lia..|].
  change (pending (streamed [] (out ++ o) (n + k))) with (@nil ascii). cbn [app].
  exists (drop p held), (out ++ o), (n + k). split; [done|]. destruct finishing.
  - assert (p = length held) as -> by lia. rewrite drop_all. split; [done|].
    rewrite <- (app_nil_r stream), Hscan. specialize (Hnext []). rewrite drop_0 in Hnext.
    rewrite Hnext by (intros q _; by rewrite app_nil_r).
    rewrite app_nil_r, drop_all. cbn. by rewrite app_nil_r, Z.add_0_r.
  - split; [lia|]. intros future. rewrite Hscan. specialize (Hnext future). rewrite drop_0 in Hnext.
    rewrite Hnext by apply settled_early. rewrite drop_app_le by lia. cbn [fst snd].
    by rewrite <- app_assoc, Z.add_assoc.
Qed.

Lemma push_all chunks :
  exists held out n, fold_left push chunks (streamed [] [] 0) = streamed held out n /\
    holding (concat chunks) held out n.
Proof.
  induction chunks as [|b chunks IH] using rev_ind.
  - exists [], [], 0. split; [done|]. split; [lia|]. intros future. cbn [concat app].
    by destruct (scan pats mark future).
  - destruct IH as (held & out & n & Heq & Hn & Hold). rewrite fold_left_app, Heq. cbn [fold_left].
    unfold push. change (suppressed (streamed held out n)) with false. cbn [negb].
    change (with_pending (streamed held out n) (pending (streamed held out n) ++ b))
      with (streamed (held ++ b) out n).
    destruct (process_holding (concat chunks ++ b) (held ++ b) out n false)
      as (held' & out' & n' & -> & Hold').
    { split; [done|]. intros future. by rewrite <- !app_assoc, Hold. }
    exists held', out', n'. rewrite concat_app. cbn [concat]. by rewrite app_nil_r.
Qed.
End streaming.

(** The output computed from the whole stream at once. *)
Definition redact_once `{RedactCrates} (r : StreamingRedactor) (stream : bytes) : option RedactedOutput :=
  if suppressed r then Some (suppressed_output 0 false 0)
  else
    let '(redacted, count) := scan (patterns r) (marker r) stream in
    '(text, truncated, omitted) ←
      capture_finish (fold_left push_char (escape redacted) (capture_new (limit (capture r))));
    Some (if contains_pattern text (patterns r) then
            suppressed_output (Z.min u64_max count) truncated omitted
          else {| text := text; output_redaction_count := Z.min u64_max count;
                  truncated := truncated; omitted_bytes := omitted; output_suppressed := false |}).

(** ** What [StreamingRedactor::new] sets up *)
Lemma elem_of_add_pattern l needle p : p ∈ add_pattern l needle <-> p ∈ l \/ p = needle /\ needle <> [].
Proof.
  unfold add_pattern. case_bool_decide as He; cbn [orb]; [naive_solver|].
  destruct (existsb _ l) eqn:Hex.
  - apply existsb_exists in Hex as (q & Hq%list_elem_of_In & ->%bool_decide_eq_true). naive_solver.
  - rewrite elem_of_app, list_elem_of_singleton. naive_solver.
Qed.

Lemma elem_of_add_patterns forms l p :
  p ∈ fold_left add_pattern forms l <-> p ∈ l \/ p ∈ forms /\ p <> [].
Proof.
  revert l. induction forms as [|f forms IH]; intros l; cbn [fold_left]; [set_solver|].
  rewrite IH, elem_of_add_pattern, elem_of_cons. naive_solver.
Qed.

Lemma elem_of_insert_pattern q l p : p ∈ insert_pattern q l <-> p ∈ q :: l.
Proof.
  induction l as [|x l IH]; cbn [insert_pattern]; [done|].
  destruct (length x <=? length q)%nat; [done|]. rewrite !elem_of_cons, IH, elem_of_cons. tauto.
Qed.

Lemma elem_of_sort_by_length l p : p ∈ sort_by_length l <-> p ∈ l.
Proof.
  induction l as [|x l IH]; [done|]. cbn [sort_by_length foldr]. unfold sort_by_length in IH.
  by rewrite elem_of_insert_pattern, !elem_of_cons, IH.
Qed.

(** A value that switches the whole output off. *)
Definition too_short (value : bytes) : bool := (0 <? length value)%nat && (length value <? 4)%nat.

Section construction.
Context `{RedactCratesLaws}.

(** ** [contains_pattern] looks for occurrences *)
Lemma starts_with_contains hay needle i : starts_with (drop i hay) needle = true -> contains hay needle = true.
Proof.
  intros [k Hk]%bool_decide_eq_true. apply contains_spec. exists (take i hay), k.
  by rewrite <- Hk, take_drop.
Qed.

Lemma contains_starts_with hay needle :
  contains hay needle = true -> exists i, (i <= length hay)%nat /\ starts_with (drop i hay) needle = true.
Proof.
  intros (l & r & ->)%contains_spec. exists (length l). split; [rewrite !length_app; lia|].
  rewrite drop_app_length. apply bool_decide_eq_true. by exists r.
Qed.

Lemma contains_pattern_false hay l p : contains_pattern hay l = false -> p ∈ l -> contains hay p = false.
Proof.
  intros Hc Hp. apply not_true_is_false. intros (i & Hi & Hs)%contains_starts_with.
  apply not_true_iff_false in Hc. apply Hc, existsb_exists. exists p. split; [by apply list_elem_of_In|].
  destruct (memmem_find hay p) eqn:Hf; [done|]. by rewrite (memmem_find_None _ _ Hf) in Hs.
Qed.

Lemma contains_pattern_clean hay l :
  (forall p, p ∈ l -> contains hay p = false) -> contains_pattern hay l = false.
Proof.
  intros Hno. apply not_true_is_false. intros (p & Hp%list_elem_of_In & Hf)%existsb_exists.
  destruct (memmem_find hay p) eqn:Hfind; [|done]. apply memmem_find_Some in Hfind as [Hs _].
  apply starts_with_contains in Hs. by rewrite Hno in Hs.
Qed.

(** A stream in which no pattern occurs is its own scan. *)
Lemma scan_clean l m b : (forall p, p ∈ l -> contains b p = false) -> scan l m b = (b, 0).
Proof.
  intros Hno. rewrite <- (app_nil_r b) at 1. rewrite scan_skip; [cbn; by rewrite app_nil_r|].
  intros q _. rewrite app_nil_r. destruct (match_length l (drop q b)) eqn:Hm; [done|].
  apply match_length_spec in Hm as (p & Hp & Hs & _). apply starts_with_contains in Hs.
  by rewrite Hno in Hs.
Qed.

Lemma add_secrets secrets acc :
  (forall p, p ∈ (fold_left add_secret secrets acc).1 <->
    p ∈ acc.1 \/ exists v, v ∈ secrets /\ v <> [] /\ p ∈ pattern_forms v /\ p <> []) /\
  (fold_left add_secret secrets acc).2 = acc.2 || existsb too_short secrets.
Proof.
  revert acc. induction secrets as [|v secrets IH]; intros [l s]; cbn [fold_left existsb].
  { rewrite orb_false_r. set_solver. }
  destruct (IH (add_secret (l, s) v)) as [Hp Hs]. rewrite Hs. setoid_rewrite Hp. split.
  - intros p. destruct v as [|x v]; cbn [add_secret fst].
    + setoid_rewrite elem_of_cons. naive_solver.
    + rewrite elem_of_add_patterns. setoid_rewrite elem_of_cons. split.
      * intros [[?|[??]]|(w & ? & ?)]; [by left|right; by exists (x :: v); auto|right; exists w; auto].
      * intros [?|(w & [->|?] & ? & ? & ?)]; [by left; left|by left; right|right; by exists w].
  - destruct v as [|x v]; cbn [add_secret snd]; [done|]. by rewrite orb_assoc.
Qed.

Lemma redactor_new_Ok secrets output_limit r :
  redactor_new secrets output_limit = Ok r ->
  MIN_OUTPUT_LIMIT_BYTES <= output_limit <= MAX_OUTPUT_LIMIT_BYTES /\
  (forall p, p ∈ patterns r <-> exists v, v ∈ secrets /\ v <> [] /\ p ∈ pattern_forms v /\ p <> []) /\
  suppressed r = existsb too_short secrets /\
  limit (capture r) = output_limit /\
  (suppressed r = false -> r = streamed (patterns r) (marker r) output_limit [] [] 0).
Proof.
  unfold redactor_new. intros Hnew. inv_ok. bool_hyps.
  destruct (add_secrets secrets ([], false)) as [Hp Hs].
  destruct (fold_left add_secret secrets ([], false)) as [added supp]. inv_ok. cbn [fst snd] in *.
  cbn [patterns suppressed capture]. split_and!; [done..| |by rewrite Hs|done|].
  - intros p. rewrite elem_of_sort_by_length, Hp. split; [intros [?%not_elem_of_nil|?]|]; by auto.
  - intros ->. unfold streamed, sink. cbn [fst snd marker]. by rewrite settle_nil.
Qed.

Lemma patterns_nonempty secrets output_limit r :
  redactor_new secrets output_limit = Ok r -> Forall (fun p => 0 < length p)%nat (patterns r).
Proof.
  intros (_ & Hp & _)%redactor_new_Ok. apply Forall_forall. intros p Hin.
  apply Hp in Hin as (_ & _ & _ & _ & Hne). destruct p; [done|cbn; lia].
Qed.

Lemma push_suppressed chunks r : suppressed r = true -> fold_left push chunks r = r.
Proof.
  intros Hs. induction chunks as [|b chunks IH]; [done|]. cbn. unfold push at 2. by rewrite Hs.
Qed.

Lemma finish_after_pushes secrets output_limit r chunks :
  redactor_new secrets output_limit = Ok r ->
  redactor_finish (fold_left push chunks r) = redact_once r (concat chunks).
Proof.
  intros Hnew. pose proof (patterns_nonempty _ _ _ Hnew) as Hne.
  apply redactor_new_Ok in Hnew as (_ & _ & _ & Hlim & Hr). unfold redact_once.
  destruct (suppressed r) eqn:Hs.
  { rewrite push_suppressed by done. unfold redactor_finish. by rewrite Hs. }
  destruct (push_all (patterns r) (marker r) output_limit Hne chunks) as (held & out & n & Hpush & Hold).
  rewrite <- (Hr eq_refl) in Hpush. rewrite Hpush. unfold redactor_finish.
  change (suppressed (streamed _ _ _ held out n)) with false. cbn iota.
  destruct (process_holding _ _ output_limit Hne _ _ _ _ true Hold) as (held' & out' & n' & -> & -> & ->).
  cbn [utf8 capture streamed patterns redaction_count]. by rewrite escaper_finish_sink, Hlim.
Qed.

(** The whole redactor: it always produces an output, bounded by the limit. *)
Lemma redact_once_spec secrets output_limit r stream :
  redactor_new secrets output_limit = Ok r ->
  exists out, redact_once r stream = Some out /\
    contains_pattern (text out) (patterns r) = false /\
    (output_suppressed out = true -> text out = []) /\
    (output_suppressed out = false ->
     bounded_text output_limit (concat (escape (scan (patterns r) (marker r) stream).1))
       (text out) (truncated out) (omitted_bytes out)).
Proof.
  intros Hnew. pose proof (patterns_nonempty _ _ _ Hnew) as Hne.
  apply redactor_new_Ok in Hnew as ([Hmin Hmax] & _ & _ & Hlim & _). unfold redact_once.
  assert (Hempty : contains_pattern [] (patterns r) = false).
  { apply not_true_is_false. intros (p & Hp & Hf)%existsb_exists.
    rewrite Forall_forall in Hne. apply list_elem_of_In, Hne in Hp.
    destruct (memmem_find [] p) as [i|] eqn:Hfind; [|done].
    apply memmem_find_Some in Hfind as [Hs _]. rewrite drop_nil in Hs.
    apply bool_decide_eq_true in Hs as [k Hk]. destruct p; [cbn in Hp; lia|done]. }
  destruct (suppressed r). { eexists. split; [done|]. done. }
  destruct (scan (patterns r) (marker r) stream) as [o n] eqn:Ho. rewrite Hlim.
  destruct (capture_finish_spec output_limit (escape o)) as (t & tr & om & -> & Hb);
    [unfold MIN_OUTPUT_LIMIT_BYTES, MAX_OUTPUT_LIMIT_BYTES in *; unfold u64_max; lia|apply escape_chars|].
  cbn [mbind option_bind]. eexists. split; [done|].
  by destruct (contains_pattern t (patterns r)) eqn:Hc.
Qed.
End construction.

(** ** The properties of the redactor *)
Section properties.
Context `{RedactCratesLaws}.

(** C25. However the output of the child is cut into chunks, the redactor answers what
    one scan over the whole stream gives: at every position the longest pattern that
    starts there is replaced, invalid bytes are escaped, and the text is captured. *)
Theorem redaction_is_one_scan secrets output_limit r chunks :
  redactor_new secrets output_limit = Ok r ->
  redactor_finish (fold_left push chunks r) = redact_once r (concat chunks).
Proof. apply finish_after_pushes. Qed.

(** What the redactor answers after any chunks. *)
Lemma redactor_answers secrets output_limit r chunks :
  redactor_new secrets output_limit = Ok r ->
  exists out, redactor_finish (fold_left push chunks r) = Some out /\
    (forall value form, value ∈ secrets -> value <> [] -> form ∈ pattern_forms value -> form <> [] ->
       contains (text out) form = false) /\
    zlen (text out) <= output_limit /\ valid_utf8 (text out) /\
    (output_suppressed out = false ->
     bounded_text output_limit (concat (escape (scan (patterns r) (marker r) (concat chunks)).1))
       (text out) (truncated out) (omitted_bytes out)).
Proof.
  intros Hnew. rewrite (finish_after_pushes _ _ _ _ Hnew).
  destruct (redact_once_spec _ _ _ (concat chunks) Hnew) as (out & -> & Hclean & Hempty & Hb).
  apply redactor_new_Ok in Hnew as ([Hmin _] & Hp & _). unfold MIN_OUTPUT_LIMIT_BYTES in Hmin.
  exists out. split; [done|]. split.
  { intros value form Hv Hne Hf Hfne. apply (contains_pattern_false _ (patterns r)); [done|].
    apply Hp. by exists value. }
  destruct (output_suppressed out).
  - rewrite Hempty by done. split_and!; [rewrite zlen_nil; lia|apply valid_nil|done].
  - destruct (Hb eq_refl) as [Hl Hv _ _ _]. by split_and!.
Qed.

(** C6. The redactor always answers, and its text contains no secret value and no
    encoded form of one, however the stream was cut. *)
Theorem no_secret_in_output secrets output_limit r chunks :
  redactor_new secrets output_limit = Ok r ->
  exists out, redactor_finish (fold_left push chunks r) = Some out /\
    forall value form, value ∈ secrets -> value <> [] -> form ∈ pattern_forms value -> form <> [] ->
      contains (text out) form = false.
Proof. intros (out & ? & ? & _)%(redactor_answers _ _ _ chunks). by exists out. Qed.

(** The text is valid UTF-8 within the output limit.  It is the redacted, escaped
    stream itself if nothing was left out, which is so whenever it is three bytes below
    the limit; otherwise it is a beginning and an end of it with the exact number of
    omitted bytes between them. *)
Theorem output_is_bounded secrets output_limit r chunks :
  redactor_new secrets output_limit = Ok r ->
  exists out, redactor_finish (fold_left push chunks r) = Some out /\
    zlen (text out) <= output_limit /\ valid_utf8 (text out) /\
    (output_suppressed out = false ->
     bounded_text output_limit (concat (escape (scan (patterns r) (marker r) (concat chunks)).1))
       (text out) (truncated out) (omitted_bytes out)).
Proof. intros (out & ? & _ & ? & ? & ?)%(redactor_answers _ _ _ chunks). by exists out. Qed.

(** Output that has nothing to hide is not touched: text in which no form of a
    secret occurs and that is three bytes below the limit comes out as it went in, and a
    secret of one to three bytes switches the output off. *)
Theorem clean_output_unchanged secrets output_limit r chunks :
  redactor_new secrets output_limit = Ok r ->
  valid_utf8 (concat chunks) -> zlen (concat chunks) + 3 <= output_limit ->
  (forall value form, value ∈ secrets -> value <> [] -> form ∈ pattern_forms value -> form <> [] ->
     contains (concat chunks) form = false) ->
  redactor_finish (fold_left push chunks r) =
  Some (if existsb too_short secrets then suppressed_output 0 false 0
        else {| text := concat chunks; output_redaction_count := 0; truncated := false;
                omitted_bytes := 0; output_suppressed := false |}).
Proof.
  intros Hnew Hv Hl Hclean. rewrite (finish_after_pushes _ _ _ _ Hnew).
  pose proof Hnew as ([Hmin Hmax] & Hp & Hs & Hlim & _)%redactor_new_Ok. unfold redact_once.
  rewrite <- Hs. destruct (suppressed r); [done|].
  assert (Hno : forall p, p ∈ patterns r -> contains (concat chunks) p = false).
  { intros p (v & ? & ? & ? & ?)%Hp. eauto. }
  rewrite scan_clean by done. destruct Hv as (cs & Hcs & Hchars). rewrite Hcs, escape_valid, Hlim by done.
  destruct (capture_finish_spec output_limit cs) as (t & tr & om & -> & [_ _ Hshort Hwhole _]);
    [unfold MIN_OUTPUT_LIMIT_BYTES, MAX_OUTPUT_LIMIT_BYTES in *; unfold u64_max; lia|done|].
  rewrite <- Hcs in *. specialize (Hshort Hl) as ->. destruct (Hwhole eq_refl) as [-> ->].
  cbn [mbind option_bind]. by rewrite contains_pattern_clean.
Qed.
End properties.

(** ** The third-party functions on concrete bytes *)
Fixpoint first_occurrence (hay needle : bytes) : option nat :=
  if starts_with hay needle then Some O
  else match hay with [] => None | _ :: r => S <$> first_occurrence r needle end.

Definition base64_digit (url_safe : bool) (n : Z) : byte :=
  zb (if n <? 26 then 65 + n
      else if n <? 52 then 97 + (n - 26)
      else if n <? 62 then 48 + (n - 52)
      else if n =? 62 then (if url_safe then 45 else 43) else (if url_safe then 95 else 47)).
Fixpoint base64 (url_safe padded : bool) (b : bytes) : bytes :=
  let digit n := base64_digit url_safe (Z.land n 0x3F) in
  let padding n := if padded then replicate n "="%char else [] in
  match b with
  | x :: y :: z :: r =>
    let n := bz x * 65536 + bz y * 256 + bz z in
    digit (Z.shiftr n 18) :: digit (Z.shiftr n 12) :: digit (Z.shiftr n 6) :: digit n
      :: base64 url_safe padded r
  | [x; y] =>
    let n := bz x * 65536 + bz y * 256 in
    [digit (Z.shiftr n 18); digit (Z.shiftr n 12); digit (Z.shiftr n 6)] ++ padding 1%nat
  | [x] => let n := bz x * 65536 in [digit (Z.shiftr n 18); digit (Z.shiftr n 12)] ++ padding 2%nat
  | [] => []
  end.

Definition quote : byte := zb 34.
Definition backslash : byte := zb 92.
Definition json_escape (b : byte) : bytes :=
  if bool_decide (b = quote) || bool_decide (b = backslash) then [backslash; b]
  else if bz b =? 8 then [backslash; "b"%char]
  else if bz b =? 9 then [backslash; "t"%char]
  else if bz b =? 10 then [backslash; "n"%char]
  else if bz b =? 12 then [backslash; "f"%char]
  else if bz b =? 13 then [backslash; "r"%char]
  else if bz b <? 32 then backslash :: bytes_of "u00" ++ hex_byte false b
  else [b].

#[export] Instance reference_redact : RedactCrates := {
  memmem_find := first_occurrence;
  base64_standard := base64 false true;
  base64_standard_no_pad := base64 false false;
  base64_url_safe := base64 true true;
  base64_url_safe_no_pad := base64 true false;
  json_to_string := fun text => Some (quote :: concat (json_escape <$> text) ++ [quote]);
}.

Lemma first_occurrence_spec hay needle :
  match first_occurrence hay needle with
  | Some i => starts_with (drop i hay) needle = true /\
      forall j, (j < i)%nat -> starts_with (drop j hay) needle = false
  | None => forall j, (j <= length hay)%nat -> starts_with (drop j hay) needle = false
  end.
Proof.
  induction hay as [|x hay IH]; cbn [first_occurrence].
  - destruct (starts_with [] needle) eqn:Hs; [split; [done|lia]|]. intros j _. by rewrite drop_nil.
  - destruct (starts_with (x :: hay) needle) eqn:Hs; [split; [done|lia]|].
    destruct (first_occurrence hay needle) as [i|]; cbn.
    + destruct IH as [Hi Hj]. split; [done|]. intros [|j] Hlt; [done|]. apply Hj. lia.
    + intros [|j] Hlt; [done|]. apply IH. lia.
Qed.

#[export] Instance reference_redact_laws : RedactCratesLaws.
Proof.
  split; cbn; intros hay needle; pose proof (first_occurrence_spec hay needle) as Hf;
    [intros i|]; intros He; by rewrite He in Hf.
Qed.

Example base64_example : base64 false true (bytes_of "ladon") = bytes_of "bGFkb24=".
Proof. reflexivity. Qed.
Example percent_example : percent_encode (bytes_of "p&ss") false = bytes_of "p%26ss".
Proof. reflexivity. Qed.

(** A secret, and a child that writes it in hexadecimal across two chunks. *)
Definition example_secrets : list RedactionSecret := [bytes_of "hunter2/"].
Definition example_chunks : list bytes := [bytes_of "key=68756e"; bytes_of "746572322f done"].
Definition example_redactor : StreamingRedactor :=
  match redactor_new example_secrets 256 with
  | Ok r => r
  | Err _ => streamed [] [] 0 [] [] 0
  end.
Lemma example_redactor_new : redactor_new example_secrets 256 = Ok example_redactor.
Proof. vm_compute. reflexivity. Qed.
Example example_redaction :
  text <$> redactor_finish (fold_left push example_chunks example_redactor) =
  Some (bytes_of "key=[REDACTED] done").
Proof. vm_compute. reflexivity. Qed.

Lemma redaction_is_one_scan_witness :
  redactor_finish (fold_left push example_chunks example_redactor) =
  redact_once example_redactor (concat example_chunks).
Proof. apply (redaction_is_one_scan example_secrets 256), example_redactor_new. Defined.

Lemma no_secret_in_output_witness :
  exists out, redactor_finish (fold_left push example_chunks example_redactor) = Some out /\
    forall value form, value ∈ example_secrets -> value <> [] -> form ∈ pattern_forms value -> form <> [] ->
      contains (text out) form = false.
Proof. apply (no_secret_in_output example_secrets 256), example_redactor_new. Defined.

Lemma output_is_bounded_witness :
  exists out, redactor_finish (fold_left push example_chunks example_redactor) = Some out /\
    zlen (text out) <= 256 /\ valid_utf8 (text out) /\
    (output_suppressed out = false ->
     bounded_text 256 (concat (escape (scan (patterns example_redactor) (marker example_redactor)
       (concat example_chunks)).1)) (text out) (truncated out) (omitted_bytes out)).
Proof. apply (output_is_bounded example_secrets 256), example_redactor_new. Defined.

Definition quiet_chunks : list bytes := [bytes_of "all "; bytes_of "done"].
Lemma quiet_chunks_clean value form :
  value ∈ example_secrets -> value <> [] -> form ∈ pattern_forms value -> form <> [] ->
  contains (concat quiet_chunks) form = false.
Proof.
  unfold example_secrets. rewrite list_elem_of_singleton. intros -> _ Hf _.
  assert (Hall : forallb (fun f => negb (contains (concat quiet_chunks) f))
                   (pattern_forms (bytes_of "hunter2/")) = true) by (vm_compute; reflexivity).
  rewrite forallb_forall in Hall. apply negb_true_iff, Hall. by apply list_elem_of_In.
Qed.
Lemma quiet_chunks_text : valid_utf8 (concat quiet_chunks) /\ zlen (concat quiet_chunks) + 3 <= 256.
Proof. split; [|by vm_compute]. apply from_utf8_Ok. vm_compute. reflexivity. Qed.

Lemma clean_output_unchanged_witness :
  redactor_finish (fold_left push quiet_chunks example_redactor) =
  Some (if existsb too_short example_secrets then suppressed_output 0 false 0
        else {| text := concat quiet_chunks; output_redaction_count := 0; truncated := false;
                omitted_bytes := 0; output_suppressed := false |}).
Proof.
  apply (clean_output_unchanged example_secrets 256).
  - apply example_redactor_new.
  - apply quiet_chunks_text.
  - apply quiet_chunks_text.
  - intros value form. apply quiet_chunks_clean.
Defined.
