(* ===== verification/Json.v ===== *)
(** * JSON documents: the lower half of [crates/ladon-core/src/protocol.rs]

    The tree of a JSON document, in which an object keeps its members in order
    and may repeat a key, and [CheckedVisitor], which walks it with a limit on
    nesting and refuses repeated keys.  Parsing and printing text are
    [serde_json]'s: parameters with the law that printing is read back. *)

From S2P Require Import Prelude Errors Utf8.
Local Open Scope Z_scope.

Inductive Json : Type :=
| JNull
| JBool (b : bool)
| JNumber (n : Z)
| JFloat (text : string)
| JString (s : string)
| JArray (items : list Json)
| JObject (members : list (string * Json)).

(** Induction over a tree and the trees below it. *)
Fixpoint Json_tree_ind (P : Json -> Prop)
    (Hnull : P JNull) (Hbool : forall b, P (JBool b)) (Hnumber : forall n, P (JNumber n))
    (Hfloat : forall t, P (JFloat t)) (Hstring : forall s, P (JString s))
    (Harray : forall items, Forall P items -> P (JArray items))
    (Hobject : forall members, Forall (fun kv => P kv.2) members -> P (JObject members))
    (j : Json) : P j :=
  let rec := Json_tree_ind P Hnull Hbool Hnumber Hfloat Hstring Harray Hobject in
  match j with
  | JNull => Hnull
  | JBool b => Hbool b
  | JNumber n => Hnumber n
  | JFloat t => Hfloat t
  | JString s => Hstring s
  | JArray items => Harray items
      ((fix go l : Forall P l :=
          match l with [] => List.Forall_nil _ | x :: l => List.Forall_cons _ x l (rec x) (go l) end) items)
  | JObject members => Hobject members
      ((fix go l : Forall (fun kv => P kv.2) l :=
          match l with [] => List.Forall_nil _ | x :: l => List.Forall_cons _ x l (rec x.2) (go l) end) members)
  end.

(** ** [Value::get] and [Value::as_str] *)
Fixpoint lookup_member (key : string) (members : list (string * Json)) : option Json :=
  match members with
  | [] => None
  | (k, v) :: r => if bool_decide (k = key) then Some v else lookup_member key r
  end.
Definition member (j : Json) (key : string) : option Json :=
  match j with JObject members => lookup_member key members | _ => None end.
Definition as_string (j : Json) : option string := match j with JString s => Some s | _ => None end.

(** A [serde_json::Value] keeps the members of an object sorted by key. *)
Definition key_le (a b : string * Json) : Prop := Is_true (String.leb a.1 b.1).
#[export] Instance key_le_dec a b : Decision (key_le a b).
Proof. unfold key_le. apply _. Defined.
Definition jobject (members : list (string * Json)) : Json := JObject (merge_sort key_le members).
Fixpoint to_value (j : Json) : Json :=
  match j with
  | JArray items => JArray (map to_value items)
  | JObject members => jobject (map (fun kv => (kv.1, to_value kv.2)) members)
  | _ => j
  end.

(** ** [CheckedVisitor] *)
Definition MAX_JSON_DEPTH : Z := 16.

(** [CheckedSeed::deserialize] at a depth: [visit_seq] and [visit_map] check the
    depth first and [visit_map] each key before its value; every other visit method
    accepts. *)
Fixpoint checked (depth : Z) (j : Json) : bool :=
  match j with
  | JArray items =>
    if MAX_JSON_DEPTH <=? depth then false else forallb (checked (depth + 1)) items
  | JObject members =>
    if MAX_JSON_DEPTH <=? depth then false
    else
      (fix visit_members (keys : gset string) (members : list (string * Json)) : bool :=
         match members with
         | [] => true
         | (key, value) :: members =>
           if bool_decide (key ∈ keys) then false
           else checked (depth + 1) value && visit_members ({[key]} ∪ keys) members
         end) ∅ members
  | _ => true
  end.

(** ** What it accepts *)

(** The number of containers around the deepest place of a tree. *)
Fixpoint nesting (j : Json) : Z :=
  match j with
  | JArray items => 1 + foldr Z.max 0 (map nesting items)
  | JObject members => 1 + foldr Z.max 0 (map (fun kv => nesting kv.2) members)
  | _ => 0
  end.

(** No object of the tree repeats a key. *)
Inductive unique_keys : Json -> Prop :=
| unique_null : unique_keys JNull
| unique_bool b : unique_keys (JBool b)
| unique_number n : unique_keys (JNumber n)
| unique_float t : unique_keys (JFloat t)
| unique_string s : unique_keys (JString s)
| unique_array items : Forall unique_keys items -> unique_keys (JArray items)
| unique_object members :
    NoDup members.*1 -> Forall (fun kv => unique_keys kv.2) members -> unique_keys (JObject members).

(** The walk over the members of an object, as a definition of its own. *)
Fixpoint checked_members (depth : Z) (keys : gset string) (members : list (string * Json)) : bool :=
  match members with
  | [] => true
  | (key, value) :: members =>
    if bool_decide (key ∈ keys) then false
    else checked depth value && checked_members depth ({[key]} ∪ keys) members
  end.

Lemma checked_object depth members :
  checked depth (JObject members) =
  if MAX_JSON_DEPTH <=? depth then false else checked_members (depth + 1) ∅ members.
Proof.
  cbn [checked]. destruct (MAX_JSON_DEPTH <=? depth); [done|]. generalize (∅ : gset string).
  induction members as [|[k v] members IH]; intros keys; cbn; [done|].
  case_bool_decide; [done|]. by rewrite IH.
Qed.

Lemma checked_members_spec depth keys members :
  checked_members depth keys members = true <->
  Forall (fun kv => checked depth kv.2 = true) members /\ NoDup members.*1 /\
  (forall k, k ∈ members.*1 -> k ∉ keys).
Proof.
  revert keys. induction members as [|[k v] members IH]; intros keys; cbn [checked_members].
  - split; [|done]. intros _. split_and!; [constructor|constructor|].
    by intros k ?%not_elem_of_nil.
  - case_bool_decide as Hk; [split; [done|]|].
    { intros (_ & _ & Hno). by destruct (Hno k (list_elem_of_here _ _)). }
    rewrite andb_true_iff, IH, Forall_cons. cbn [fmap list_fmap fst snd]. rewrite NoDup_cons.
    setoid_rewrite elem_of_cons. set_solver.
Qed.

Lemma foldr_max_nonneg l : 0 <= foldr Z.max 0 l.
Proof. induction l; cbn; lia. Qed.

Lemma nesting_nonneg j : 0 <= nesting j.
Proof.
  destruct j as [| | | | |items|members]; cbn [nesting]; try lia.
  - pose proof (foldr_max_nonneg (map nesting items)). lia.
  - pose proof (foldr_max_nonneg (map (fun kv => nesting kv.2) members)). lia.
Qed.

Lemma max_bound l d : 0 <= d -> foldr Z.max 0 l <= d <-> Forall (fun n => n <= d) l.
Proof.
  intros Hd. induction l as [|n l IH]; cbn; [split; [constructor|lia]|].
  rewrite Forall_cons, <- IH. lia.
Qed.

Lemma checked_forall {A} (f : A -> Json) (l : list A) depth :
  0 <= depth < MAX_JSON_DEPTH ->
  Forall (fun x => forall depth, 0 <= depth <= MAX_JSON_DEPTH ->
    checked depth (f x) = true <-> depth + nesting (f x) <= MAX_JSON_DEPTH /\ unique_keys (f x)) l ->
  Forall (fun x => checked (depth + 1) (f x) = true) l <->
  depth + (1 + foldr Z.max 0 (map (fun x => nesting (f x)) l)) <= MAX_JSON_DEPTH /\
  Forall (fun x => unique_keys (f x)) l.
Proof.
  intros Hd Hall.
  assert (Hm : depth + (1 + foldr Z.max 0 (map (fun x => nesting (f x)) l)) <= MAX_JSON_DEPTH <->
               Forall (fun x => depth + 1 + nesting (f x) <= MAX_JSON_DEPTH) l).
  { transitivity (foldr Z.max 0 (map (fun x => nesting (f x)) l) <= MAX_JSON_DEPTH - depth - 1); [lia|].
    rewrite max_bound by lia. rewrite Forall_map. apply Forall_iff. intros x. lia. }
  rewrite Hm, <- Forall_and. clear Hm. rewrite !Forall_forall in *.
  split; intros Hf x Hx; specialize (Hall x Hx (depth + 1)); apply Hall; try lia; by apply Hf.
Qed.

Lemma unique_keys_array items : unique_keys (JArray items) <-> Forall unique_keys items.
Proof. split; [by inversion 1|by constructor]. Qed.
Lemma unique_keys_object members :
  unique_keys (JObject members) <-> NoDup members.*1 /\ Forall (fun kv => unique_keys kv.2) members.
Proof. split; [by inversion 1|intros []; by constructor]. Qed.

Lemma checked_spec j depth :
  0 <= depth <= MAX_JSON_DEPTH ->
  checked depth j = true <-> depth + nesting j <= MAX_JSON_DEPTH /\ unique_keys j.
Proof.
  revert depth. induction j as [| | | | |items IH|members IH] using Json_tree_ind; intros depth Hd;
    try (split; [intros _; split; [cbn; lia|constructor]|done]).
  - pose proof (foldr_max_nonneg (map nesting items)). rewrite unique_keys_array.
    cbn [checked nesting]. destruct (Z.leb_spec MAX_JSON_DEPTH depth) as [Hle|Hlt].
    + split; [done|lia].
    + rewrite forallb_true_Forall. apply (checked_forall (fun j => j)); [lia|done].
  - pose proof (foldr_max_nonneg (map (fun kv => nesting kv.2) members)).
    rewrite unique_keys_object, checked_object. cbn [nesting].
    destruct (Z.leb_spec MAX_JSON_DEPTH depth) as [Hle|Hlt].
    + split; [done|lia].
    + rewrite checked_members_spec, (checked_forall snd) by (done || lia). set_solver.
Qed.

(** ** [serde_json]

    [json_parse] is [Deserializer::from_slice] to the end of the input,
    [json_print] is [to_vec] of a value that serializes as the tree. *)
Class SerdeJson := {
  json_parse : bytes -> option Json;
  json_print : Json -> option bytes;
}.

(** What a Rust value can hold: strings are UTF-8 and integers have 64 bits. *)
Inductive representable : Json -> Prop :=
| representable_null : representable JNull
| representable_bool b : representable (JBool b)
| representable_number n : - 2 ^ 63 <= n < 2 ^ 64 -> representable (JNumber n)
| representable_string s : valid_utf8 (bytes_of s) -> representable (JString s)
| representable_array items : Forall representable items -> representable (JArray items)
| representable_object members :
    Forall (fun kv => valid_utf8 (bytes_of kv.1) /\ representable kv.2) members ->
    representable (JObject members).

(** A document that the checked visitor accepts is printed, and read back. *)
Class SerdeJsonLaws `{SerdeJson} := {
  json_print_parse j : representable j -> checked 0 j = true ->
    exists b, json_print j = Some b /\ b <> [] /\ json_parse b = Some j;
}.

(** [validate_json_document]. *)
Definition validate_json_document `{SerdeJson} (input : bytes) : LResult unit :=
  match json_parse input with
  | Some j => if checked 0 j then Ok tt else Err InvalidRequest
  | None => Err InvalidRequest
  end.
