(* ===== verification/Protocol.v ===== *)
(** * The agent protocol: the upper half of [crates/ladon-core/src/protocol.rs]

    Requests and responses, the JSON documents their derived serializers write
    (the [serde] attributes of the types), the length-prefixed frames that carry
    them and the checks of an accepted request.  [serde_json]'s text and the
    derived deserializers are parameters. *)

From S2P Require Import Prelude Errors Utf8 Model Json.
Local Open Scope Z_scope.

Definition MAX_FRAME_BYTES : Z := 4 * 1024 * 1024.
Definition PROTOCOL_VERSION : Z := 2.
Definition MAX_CLIENT_LABEL_BYTES : Z := 64.
Definition MAX_ARGUMENTS : Z := 256.
Definition MAX_ARGUMENT_BYTES : Z := 256 * 1024.
Definition MAX_PATH_BYTES : Z := 32 * 1024.

(** ** The messages *)

(** [enum BindingTarget] and [struct SecretBindingRequest]. *)
Inductive BindingTarget : Type :=
| Environment (name : string)
| StandardInput
| TemporaryFileEnvironment (name : string) (suggested_filename : option string).
Record SecretBindingRequest := {
  request_secret_ref : string;
  request_field : string;
  request_target : BindingTarget;
}.

(** [enum RpcMethod] and [struct RpcRequest]. *)
Inductive RpcMethod : Type :=
| SessionOpen
| Status
| ListSecrets
| Lock
| Run (executable : string) (arguments : list string) (working_directory : string)
      (bindings : list SecretBindingRequest) (timeout_ms output_limit_bytes : Z).
Record RpcRequest := {
  request_version : Z;
  request_id : Uuid;
  client_session_id : Uuid;
  client_label : string;
  method : RpcMethod;
}.

(** [struct SecretFieldSummary], [struct SecretSummary] and [enum RpcResult]. *)
Record SecretFieldSummary := { summary_field_name : string; summary_field_text : bool }.
Record SecretSummary := {
  summary_id : Uuid;
  summary_name : string;
  summary_fields : list SecretFieldSummary;
}.
Inductive RpcResult : Type :=
| SessionOpened
| StatusResult (state : string) (idle_remaining_ms : option Z)
| ListResult (secrets : list SecretSummary)
| Locked
| RunResult (exit_code : option Z) (termination stdout stderr : string)
    (duration_ms redaction_count : Z) (output_truncated temp_cleanup_warning : bool).

(** [struct RpcErrorBody], [enum RpcOutcome] and [struct RpcResponse]. *)
Record RpcErrorBody := { body_code : string; body_message : string }.
Inductive RpcOutcome : Type :=
| Success (result : RpcResult)
| Failure (error : RpcErrorBody).
Record RpcResponse := {
  response_version : Z;
  response_request_id : Uuid;
  outcome : RpcOutcome;
}.

(** [RpcResponse::success], [RpcResponse::error], [RpcResponse::result] and
    [RpcResponse::error_details]. *)
Definition response_success (request_id : Uuid) (result : RpcResult) : RpcResponse := {|
  response_version := PROTOCOL_VERSION;
  response_request_id := request_id;
  outcome := Success result;
|}.
Definition response_error (request_id : Uuid) (error : LadonError) : RpcResponse := {|
  response_version := PROTOCOL_VERSION;
  response_request_id := request_id;
  outcome := Failure {| body_code := code error; body_message := safe_message error |};
|}.
Definition response_result (r : RpcResponse) : option RpcResult :=
  match outcome r with Success result => Some result | Failure _ => None end.
Definition error_details (r : RpcResponse) : option (string * string) :=
  match outcome r with Success _ => None | Failure e => Some (body_code e, body_message e) end.

(** ** Their JSON documents *)
Section documents.
Context `{TextCrates}.

Definition uuid_json (u : Uuid) : Json := JString (uuid_display u).
Definition option_json {A} (f : A -> Json) (o : option A) : Json :=
  match o with Some a => f a | None => JNull end.

(** [#[serde(tag = "kind", rename_all = "snake_case")]]; an absent file name is skipped. *)
Definition target_json (t : BindingTarget) : Json :=
  JObject match t with
  | Environment name => [("kind", JString "environment"); ("name", JString name)]
  | StandardInput => [("kind", JString "standard_input")]
  | TemporaryFileEnvironment name suggested =>
    [("kind", JString "temporary_file_environment"); ("name", JString name)] ++
    match suggested with Some f => [("suggested_filename", JString f)] | None => [] end
  end.
Definition binding_json (b : SecretBindingRequest) : Json :=
  JObject [("secret_ref", JString (request_secret_ref b)); ("field", JString (request_field b));
           ("target", target_json (request_target b))].

(** [#[serde(tag = "method", content = "params", rename_all = "snake_case")]]. *)
Definition method_members (m : RpcMethod) : list (string * Json) :=
  match m with
  | SessionOpen => [("method", JString "session_open")]
  | Status => [("method", JString "status")]
  | ListSecrets => [("method", JString "list")]
  | Lock => [("method", JString "lock")]
  | Run executable arguments working_directory bindings timeout_ms output_limit_bytes =>
    [("method", JString "run");
     ("params", JObject
        [("executable", JString executable);
         ("arguments", JArray (JString <$> arguments));
         ("working_directory", JString working_directory);
         ("bindings", JArray (binding_json <$> bindings));
         ("timeout_ms", JNumber timeout_ms);
         ("output_limit_bytes", JNumber output_limit_bytes)])]
  end.
Definition request_json (r : RpcRequest) : Json :=
  JObject ([("version", JNumber (request_version r)); ("request_id", uuid_json (request_id r));
            ("client_session_id", uuid_json (client_session_id r));
            ("client_label", JString (client_label r))] ++ method_members (method r)).

Definition field_summary_json (f : SecretFieldSummary) : Json :=
  JObject [("name", JString (summary_field_name f)); ("text", JBool (summary_field_text f))].
Definition summary_json (s : SecretSummary) : Json :=
  JObject [("id", uuid_json (summary_id s)); ("name", JString (summary_name s));
           ("fields", JArray (field_summary_json <$> summary_fields s))].

(** [#[serde(tag = "type", rename_all = "snake_case")]]. *)
Definition result_json (r : RpcResult) : Json :=
  JObject match r with
  | SessionOpened => [("type", JString "session_opened")]
  | StatusResult state idle =>
    [("type", JString "status"); ("state", JString state);
     ("idle_remaining_ms", option_json JNumber idle)]
  | ListResult secrets => [("type", JString "list"); ("secrets", JArray (summary_json <$> secrets))]
  | Locked => [("type", JString "locked")]
  | RunResult exit_code termination stdout stderr duration_ms redaction_count truncated warning =>
    [("type", JString "run"); ("exit_code", option_json JNumber exit_code);
     ("termination", JString termination); ("stdout", JString stdout); ("stderr", JString stderr);
     ("duration_ms", JNumber duration_ms); ("redaction_count", JNumber redaction_count);
     ("output_truncated", JBool truncated); ("temp_cleanup_warning", JBool warning)]
  end.
Definition error_body_json (e : RpcErrorBody) : Json :=
  JObject [("code", JString (body_code e)); ("message", JString (body_message e))].

(** [#[serde(flatten)]] of an [#[serde(untagged)]] outcome. *)
Definition response_json (r : RpcResponse) : Json :=
  JObject [("version", JNumber (response_version r)); ("request_id", uuid_json (response_request_id r));
           match outcome r with
           | Success result => ("result", result_json result)
           | Failure error => ("error", error_body_json error)
           end].
End documents.

(** The derived deserializers, which the compiler generates from the attributes: they
    read back what the derived serializers write, and [Identity] reads the request
    identifier of any message. *)
Class Messages := {
  request_from : Json -> option RpcRequest;
  response_from : Json -> option RpcResponse;
  identity_from : Json -> option Uuid;
}.
Class MessagesLaws `{TextCrates, Messages} := {
  request_from_json r : uuid_wf (request_id r) -> uuid_wf (client_session_id r) ->
    request_from (request_json r) = Some r /\ identity_from (request_json r) = Some (request_id r);
  response_from_json r : uuid_wf (response_request_id r) ->
    match outcome r with Success (ListResult l) => Forall (fun s => uuid_wf (summary_id s)) l | _ => True end ->
    response_from (response_json r) = Some r;
}.

(** ** Frames and checks *)
Section protocol.
Context `{TextCrates, SerdeJson, Messages}.

(** [encode_frame] of a value that serializes as a document. *)
Definition encode_frame (value : Json) : LResult bytes :=
  json ← ok_or (json_print value) InvalidRequest;
  reject_if (bool_decide (json = [])) InvalidFrame;;
  reject_if (MAX_FRAME_BYTES <? zlen json) FrameTooLarge;;
  length ← ok_or (if zlen json <=? u32_max then Some (zlen json) else None) FrameTooLarge;
  Ok (be_bytes 4 length ++ json).
Definition encode_request_frame (r : RpcRequest) : LResult bytes := encode_frame (request_json r).
Definition encode_response_frame (r : RpcResponse) : LResult bytes := encode_frame (response_json r).

(** [checked_frame_payload]. *)
Definition checked_frame_payload (frame : bytes) : LResult bytes :=
  declared ← ok_or (be_value <$> get_slice 0 4 frame) InvalidFrame;
  reject_if (declared =? 0) InvalidFrame;;
  reject_if (MAX_FRAME_BYTES <? declared) FrameTooLarge;;
  reject_if (negb (zlen frame =? 4 + declared)) InvalidFrame;;
  Ok (drop 4 frame).

(** [value.contains('\0')]. *)
Definition has_nul (s : string) : bool := bool_decide (zb 0 ∈ bytes_of s).

(** [iter.try_fold(0_usize, |total, argument| total.checked_add(argument.len()))]. *)
Fixpoint checked_total (total : Z) (arguments : list string) : option Z :=
  match arguments with
  | [] => Some total
  | a :: r => total ← checked_add usize_max total (slen a); checked_total total r
  end.

(** [validate_request]. *)
Definition validate_request (r : RpcRequest) : LResult unit :=
  reject_if (negb (request_version r =? PROTOCOL_VERSION)) UnsupportedProtocolVersion;;
  reject_if ((slen (client_label r) =? 0) || (MAX_CLIENT_LABEL_BYTES <? slen (client_label r))
             || has_nul (client_label r)) InvalidRequest;;
  match method r with
  | Run executable arguments working_directory _ _ _ =>
    let argument_bytes := checked_total 0 arguments in
    let invalid :=
      (slen executable =? 0) || (MAX_PATH_BYTES <? slen executable) || has_nul executable
      || (slen working_directory =? 0) || (MAX_PATH_BYTES <? slen working_directory)
      || has_nul working_directory
      || (MAX_ARGUMENTS <? zlen arguments) || existsb has_nul arguments
      || match argument_bytes with Some b => MAX_ARGUMENT_BYTES <? b | None => true end in
    reject_if invalid InvalidRequest
  | _ => Ok tt
  end.

(** [serde_json::from_slice] of a type with a derived deserializer. *)
Definition from_slice {A} (from : Json -> option A) (json : bytes) : option A :=
  j ← json_parse json; from j.

(** [decode_request_frame], [decode_response_frame] and [request_error_response]. *)
Definition decode_request_frame (frame : bytes) : LResult RpcRequest :=
  json ← checked_frame_payload frame;
  validate_json_document json;;
  request ← ok_or (from_slice request_from json) InvalidRequest;
  validate_request request;;
  Ok request.
Definition decode_response_frame (frame : bytes) : LResult RpcResponse :=
  json ← checked_frame_payload frame;
  validate_json_document json;;
  response ← ok_or (from_slice response_from json) InvalidRequest;
  reject_if (negb (response_version response =? PROTOCOL_VERSION)) UnsupportedProtocolVersion;;
  Ok response.
Definition request_error_response (frame : bytes) (error : LadonError) : option RpcResponse :=
  json ← ok (checked_frame_payload frame);
  ok (validate_json_document json);;
  identity ← from_slice identity_from json;
  Some (response_error identity error).
End protocol.

(** ** Frames *)
Lemma checked_frame_payload_Ok frame json :
  checked_frame_payload frame = Ok json <->
  frame = be_bytes 4 (zlen json) ++ json /\ 1 <= zlen json <= MAX_FRAME_BYTES.
Proof.
  unfold checked_frame_payload. split.
  - intros Hc. inv_ok. bool_hyps. apply fmap_Some in H as (head & Hget & ->).
    apply get_slice_Some in Hget as [Hlen ->]. unfold slice in *. rewrite drop_0 in *.
    change (Z.to_nat (4 - 0)) with 4%nat in *.
    assert (Hl : length (take 4 frame) = 4%nat) by (rewrite length_take; unfold zlen in *; lia).
    pose proof (be_value_bound (take 4 frame)) as Hb.
    assert (Hj : zlen (drop 4 frame) = be_value (take 4 frame)) by (unfold zlen in *; rewrite length_drop; lia).
    rewrite Hj. split; [|lia]. rewrite <- Hl at 1. by rewrite be_bytes_value, take_drop.
  - intros [-> Hlen]. unfold MAX_FRAME_BYTES in *.
    rewrite (get_slice_eq _ [] (be_bytes 4 (zlen json)) json) by
      (rewrite ?app_nil_l; unfold zlen; rewrite ?length_be_bytes; done). cbn [fmap option_fmap option_map].
    rewrite be_value_bytes_small by lia. cbn [ok_or mbind result_bind].
    rewrite (proj2 (Z.eqb_neq (zlen json) 0)), (proj2 (Z.ltb_ge _ (zlen json))) by lia.
    cbn [reject_if mbind result_bind].
    rewrite zlen_app. change (zlen (be_bytes 4 (zlen json))) with 4. rewrite Z.eqb_refl. cbn.
    done.
Qed.

(** ** Accepted requests *)
Definition total_bytes (arguments : list string) : Z := foldr (fun a n => slen a + n) 0 arguments.

Lemma total_bytes_nonneg arguments : 0 <= total_bytes arguments.
Proof.
  unfold total_bytes. induction arguments as [|a l IH]; cbn [foldr]; [done|].
  pose proof (slen_nonneg a). lia.
Qed.

Lemma checked_total_spec total arguments bound :
  0 <= total -> bound <= usize_max ->
  match checked_total total arguments with Some b => bound <? b | None => true end = false <->
  total + total_bytes arguments <= bound.
Proof.
  intros Ht Hb. revert total Ht. induction arguments as [|a l IH]; intros total Ht; cbn [checked_total].
  - cbn. rewrite Z.ltb_ge. lia.
  - change (total_bytes (a :: l)) with (slen a + total_bytes l).
    pose proof (slen_nonneg a). pose proof (total_bytes_nonneg l).
    destruct (checked_add usize_max total (slen a)) as [t|] eqn:Hc; cbn [mbind option_bind].
    + apply checked_add_Some in Hc as [-> _]. rewrite IH by lia. lia.
    + apply checked_add_None in Hc. split; [done|lia].
Qed.

(** A path the protocol lets through. *)
Definition bounded_path (path : string) : Prop :=
  1 <= slen path <= MAX_PATH_BYTES /\ (zb 0 ∉ bytes_of path).

(** The bounds an accepted request keeps. *)
Record acceptable (r : RpcRequest) : Prop := {
  acceptable_version : request_version r = PROTOCOL_VERSION;
  acceptable_label : 1 <= slen (client_label r) <= MAX_CLIENT_LABEL_BYTES /\
    (zb 0 ∉ bytes_of (client_label r));
  acceptable_run : match method r with
    | Run executable arguments working_directory _ _ _ =>
      bounded_path executable /\ bounded_path working_directory /\
      zlen arguments <= MAX_ARGUMENTS /\ total_bytes arguments <= MAX_ARGUMENT_BYTES /\
      Forall (fun a => zb 0 ∉ bytes_of a) arguments
    | _ => True
    end;
}.

Lemma has_nul_false s : has_nul s = false <-> zb 0 ∉ bytes_of s.
Proof. apply bool_decide_eq_false. Qed.

Lemma existsb_nul_false l : existsb has_nul l = false <-> Forall (fun a => zb 0 ∉ bytes_of a) l.
Proof. rewrite existsb_false_Forall. apply Forall_iff, has_nul_false. Qed.

Lemma path_checks path :
  (slen path =? 0) = false /\ (MAX_PATH_BYTES <? slen path) = false /\ has_nul path = false <->
  bounded_path path.
Proof.
  unfold bounded_path. rewrite Z.eqb_neq, Z.ltb_ge, has_nul_false. pose proof (slen_nonneg path).
  split; [intros (? & ? & ?)|intros ((? & ?) & ?)]; split_and!; try done; lia.
Qed.

Lemma validate_request_Ok r : validate_request r = Ok tt <-> acceptable r.
Proof.
  pose proof (slen_nonneg (client_label r)) as Hl. unfold validate_request.
  destruct (Z.eqb_spec (request_version r) PROTOCOL_VERSION) as [Hv|Hv]; cbn [negb reject_if mbind result_bind];
    [|split; [done|by intros []]].
  assert (Hlabel : (slen (client_label r) =? 0) || (MAX_CLIENT_LABEL_BYTES <? slen (client_label r))
      || has_nul (client_label r) = false <->
    1 <= slen (client_label r) <= MAX_CLIENT_LABEL_BYTES /\ (zb 0 ∉ bytes_of (client_label r))).
  { rewrite !orb_false_iff, Z.eqb_neq, Z.ltb_ge, has_nul_false. split; [intros ((? & ?) & ?)|intros ((? & ?) & ?)];
      split_and!; try done; lia. }
  destruct ((slen (client_label r) =? 0) || (MAX_CLIENT_LABEL_BYTES <? slen (client_label r))
      || has_nul (client_label r)) eqn:Hlab; cbn [reject_if mbind result_bind].
  { split; [done|]. intros [_ Hok _]. apply Hlabel in Hok. congruence. }
  destruct (method r) as [| | | |e a w b t o] eqn:Hm;
    try (split; [intros _; split; [done|by apply Hlabel|by rewrite Hm]|done]).
  rewrite reject_if_Ok, !orb_false_iff, existsb_false_Forall, (checked_total_spec 0), Z.add_0_l, (Z.ltb_ge MAX_ARGUMENTS)
    by (done || unfold usize_max, u64_max, MAX_ARGUMENT_BYTES; lia).
  pose proof (path_checks e) as He. pose proof (path_checks w) as Hw. setoid_rewrite has_nul_false at 3.
  split.
  - intros ?. split; [done|by apply Hlabel|]. rewrite Hm. tauto.
  - intros [_ _ Hr]. rewrite Hm in Hr. tauto.
Qed.

(** ** Decoding accepts exactly the well-framed, well-formed and acceptable requests *)
Section decoding.
Context `{TextCrates, SerdeJson, Messages}.

Lemma validate_json_document_Ok json :
  validate_json_document json = Ok tt <->
  exists j, json_parse json = Some j /\ nesting j <= MAX_JSON_DEPTH /\ unique_keys j.
Proof.
  unfold validate_json_document. destruct (json_parse json) as [j|]; [|naive_solver].
  pose proof (checked_spec j 0 ltac:(by vm_compute)) as Hc. rewrite Z.add_0_l in Hc. split.
  - intros Hd. exists j. destruct (checked 0 j); [|done]. by destruct Hc as [Hc _]; destruct Hc.
  - intros (? & [= <-] & Hok). apply Hc in Hok. by rewrite Hok.
Qed.

(** The documents behind a frame that is let through to the deserializer. *)
Definition framed_document (frame : bytes) (j : Json) : Prop :=
  exists json, frame = be_bytes 4 (zlen json) ++ json /\ 1 <= zlen json <= MAX_FRAME_BYTES /\
    json_parse json = Some j /\ nesting j <= MAX_JSON_DEPTH /\ unique_keys j.

Lemma decode_request_frame_Ok frame r :
  decode_request_frame frame = Ok r <->
  exists j, framed_document frame j /\ request_from j = Some r /\ acceptable r.
Proof.
  unfold decode_request_frame, framed_document, from_slice. split.
  - intros Hd. inv_ok. destruct x0, x2.
    apply checked_frame_payload_Ok in H2 as [-> ?]. apply validate_json_document_Ok in H3 as (j & Hj & ? & ?).
    rewrite Hj in H4. apply validate_request_Ok in H5. naive_solver.
  - intros (j & (json & Hf & Hl & Hj & Hn & Hu) & Hr & Ha).
    rewrite (proj2 (checked_frame_payload_Ok frame json)) by done. cbn [mbind result_bind].
    rewrite (proj2 (validate_json_document_Ok json)) by eauto. cbn [mbind result_bind option_bind].
    rewrite Hj. cbn [mbind option_bind]. rewrite Hr. cbn [ok_or mbind result_bind].
    by rewrite (proj2 (validate_request_Ok r) Ha).
Qed.
End decoding.

(** ** Messages survive the wire *)
Definition utf8 (s : string) : Prop := valid_utf8 (bytes_of s).
Definition u64_range (n : Z) : Prop := 0 <= n < 2 ^ 64.

(** What the Rust types of a request guarantee. *)
Definition target_wf (t : BindingTarget) : Prop :=
  match t with
  | Environment name => utf8 name
  | StandardInput => True
  | TemporaryFileEnvironment name suggested => utf8 name /\ forall f, suggested = Some f -> utf8 f
  end.
Definition binding_wf (b : SecretBindingRequest) : Prop :=
  utf8 (request_secret_ref b) /\ utf8 (request_field b) /\ target_wf (request_target b).
Record request_wf (r : RpcRequest) : Prop := {
  request_wf_version : 0 <= request_version r < 2 ^ 16;
  request_wf_id : uuid_wf (request_id r);
  request_wf_client : uuid_wf (client_session_id r);
  request_wf_label : utf8 (client_label r);
  request_wf_method : match method r with
    | Run e a w b t o => utf8 e /\ Forall utf8 a /\ utf8 w /\ Forall binding_wf b /\ u64_range t /\ u64_range o
    | _ => True
    end;
}.

(** What the Rust types of a response guarantee. *)
Definition option_wf {A} (P : A -> Prop) (o : option A) : Prop := match o with Some a => P a | None => True end.
Definition summary_wf (s : SecretSummary) : Prop :=
  uuid_wf (summary_id s) /\ utf8 (summary_name s) /\ Forall (fun f => utf8 (summary_field_name f)) (summary_fields s).
Definition result_wf (r : RpcResult) : Prop :=
  match r with
  | SessionOpened | Locked => True
  | StatusResult state idle => utf8 state /\ option_wf u64_range idle
  | ListResult secrets => Forall summary_wf secrets
  | RunResult exit_code termination stdout stderr duration count _ _ =>
    option_wf (fun c => - 2 ^ 31 <= c < 2 ^ 31) exit_code /\ utf8 termination /\ utf8 stdout /\ utf8 stderr /\
    u64_range duration /\ u64_range count
  end.
Record response_wf (r : RpcResponse) : Prop := {
  response_wf_version : 0 <= response_version r < 2 ^ 16;
  response_wf_id : uuid_wf (response_request_id r);
  response_wf_outcome :
    match outcome r with
    | Success result => result_wf result
    | Failure e => utf8 (body_code e) /\ utf8 (body_message e)
    end;
}.

(** A document that may be printed and read back below [depth] more levels. *)
Definition document (depth : Z) (j : Json) : Prop :=
  representable j /\ nesting j <= depth /\ unique_keys j.

Lemma document_string s d : utf8 s -> 0 <= d -> document d (JString s).
Proof. intros. split_and!; [by constructor|done|constructor]. Qed.
Lemma document_bool b d : 0 <= d -> document d (JBool b).
Proof. intros. split_and!; [by constructor|done|constructor]. Qed.
Lemma document_number n d : - 2 ^ 63 <= n < 2 ^ 64 -> 0 <= d -> document d (JNumber n).
Proof. intros. split_and!; [by constructor|done|constructor]. Qed.
Lemma document_null d : 0 <= d -> document d JNull.
Proof. intros. split_and!; [by constructor|done|constructor]. Qed.

Lemma document_array {A} (f : A -> Json) l d :
  1 <= d -> Forall (fun x => document (d - 1) (f x)) l -> document d (JArray (f <$> l)).
Proof.
  intros Hd Hl. unfold document in *. rewrite !Forall_and in Hl. destruct Hl as (Hr & Hn & Hu). split_and!.
  - constructor. by apply Forall_fmap.
  - cbn [nesting]. assert (foldr Z.max 0 (map nesting (f <$> l)) <= d - 1); [|lia].
    apply max_bound; [lia|]. by apply Forall_map, Forall_fmap.
  - constructor. by apply Forall_fmap.
Qed.

Lemma document_object members d :
  1 <= d -> bool_decide (NoDup members.*1) = true ->
  Forall (fun kv => utf8 kv.1) members -> Forall (fun kv => document (d - 1) kv.2) members ->
  document d (JObject members).
Proof.
  intros Hd Hk Ht Hl. apply bool_decide_eq_true in Hk. unfold document in *.
  rewrite !Forall_and in Hl. destruct Hl as (Hr & Hn & Hu). split_and!.
  - constructor. apply Forall_and. by split.
  - cbn [nesting]. assert (foldr Z.max 0 (map (fun kv => nesting kv.2) members) <= d - 1); [|lia].
    apply max_bound; [lia|]. by apply Forall_map.
  - by constructor.
Qed.

(** A literal of the source is text. *)
Lemma literal_text s : forallb (fun x => bz x <? 128) (bytes_of s) = true -> utf8 s.
Proof.
  intros Hs. apply ascii_valid. apply forallb_true_Forall in Hs.
  eapply Forall_impl; [done|]. intros x Hx. by apply Z.ltb_lt.
Qed.

(** Builds the document of a record member by member. *)
Ltac document :=
  lazymatch goal with
  | |- document _ (JObject _) => apply document_object; [lia|vm_compute; reflexivity| |]
  | |- document _ (JArray (_ <$> _)) => apply document_array; [lia|]
  | |- document _ (JString _) => apply document_string; [|lia]
  | |- document _ (JNumber _) => apply document_number; [|lia]
  | |- document _ (JBool _) => apply document_bool; lia
  | |- document _ JNull => apply document_null; lia
  | |- Forall _ [] => constructor
  | |- Forall _ (_ :: _) => constructor; cbn [fst snd]
  | |- utf8 (String.String _ _) => apply literal_text; vm_compute; reflexivity
  end.

Section documents_ok.
Context `{TextCratesLaws}.

Lemma uuid_document u d : 0 <= d -> document d (uuid_json u).
Proof. intros. apply document_string; [apply uuid_display_valid|done]. Qed.

Lemma target_document t : target_wf t -> document 1 (target_json t).
Proof.
  unfold target_json. destruct t as [name| |name [f|]]; cbn [target_wf app]; intros Ht;
    repeat document.
  all: naive_solver.
Qed.

Lemma binding_document b : binding_wf b -> document 2 (binding_json b).
Proof. intros (? & ? & ?). unfold binding_json. repeat document. all: try done. by apply target_document. Qed.

Lemma request_document r : request_wf r -> document MAX_JSON_DEPTH (request_json r).
Proof.
  intros [Hv Hi Hc Hl Hm]. unfold request_json, MAX_JSON_DEPTH.
  destruct (method r) as [| | | |e a w b t o]; cbn [method_members app];
    repeat document.
  all: try done.
  all: try (apply uuid_document; lia).
  all: try lia.
  all: destruct Hm as (? & Ha & ? & Hb & Ht & Ho); unfold u64_range in *.
  all: try done.
  all: try lia.
  - eapply Forall_impl; [exact Ha|]. intros x Hx. by apply document_string.
  - eapply Forall_impl; [exact Hb|]. intros x Hx. destruct (binding_document x Hx) as (? & ? & ?).
    split_and!; [done|lia|done].
Qed.
Lemma option_document {A} (P : A -> Prop) (f : A -> Json) o d :
  0 <= d -> (forall a, P a -> document d (f a)) -> option_wf P o -> document d (option_json f o).
Proof. intros Hd Hf Ho. destruct o as [a|]; [by apply Hf|by apply document_null]. Qed.

Lemma summary_document s : summary_wf s -> document 3 (summary_json s).
Proof.
  intros (Hi & Hn & Hf). unfold summary_json. repeat document; [apply uuid_document; lia|done|].
  eapply Forall_impl; [exact Hf|]. intros f Hfn. unfold field_summary_json. repeat document. done.
Qed.

Lemma result_document r : result_wf r -> document 5 (result_json r).
Proof.
  unfold result_json.
  destruct r as [|state idle|secrets| |exit_code termination out err duration count truncated warning]; cbn [result_wf];
    intros Hr; repeat document.
  all: try tauto.
  all: try (eapply option_document; [lia| |apply Hr]; intros n Hn; apply document_number; unfold u64_range in *; lia).
  all: try (unfold u64_range in *; lia).
  eapply Forall_impl; [exact Hr|]. intros s Hs. destruct (summary_document s Hs) as (? & ? & ?).
  split_and!; [done|lia|done].
Qed.

Lemma document_mono j d d' : document d j -> d <= d' -> document d' j.
Proof. intros (? & ? & ?) Hle. split_and!; [done|lia|done]. Qed.

Lemma response_document r : response_wf r -> document MAX_JSON_DEPTH (response_json r).
Proof.
  intros [Hv Hi Ho]. unfold response_json, MAX_JSON_DEPTH.
  destruct (outcome r) as [result|error]; repeat document.
  all: try (apply uuid_document; lia).
  all: try lia.
  - eapply document_mono; [by apply result_document|lia].
  - unfold error_body_json. repeat document; tauto.
Qed.
End documents_ok.

Section wire.
Context `{TextCratesLaws, SerdeJsonLaws, !Messages, !MessagesLaws}.

Lemma encode_frame_document j :
  document MAX_JSON_DEPTH j ->
  match encode_frame j with
  | Ok frame => framed_document frame j
  | Err e => e = FrameTooLarge
  end.
Proof.
  intros (Hr & Hn & Hu). unfold encode_frame.
  destruct (json_print_parse j Hr) as (b & Hb & Hne & Hp).
  { apply checked_spec; [by vm_compute|]. by rewrite Z.add_0_l. }
  rewrite Hb. cbn [ok_or mbind result_bind]. rewrite bool_decide_eq_false_2 by done. cbn [reject_if mbind result_bind].
  destruct (Z.ltb_spec MAX_FRAME_BYTES (zlen b)) as [Hlt|Hle]; cbn [reject_if mbind result_bind]; [done|].
  rewrite (proj2 (Z.leb_le (zlen b) u32_max)) by (unfold MAX_FRAME_BYTES, u32_max in *; lia).
  cbn [ok_or mbind result_bind]. exists b. split_and!; try done.
  destruct b; [done|]. rewrite zlen_cons. pose proof (zlen_nonneg b). lia.
Qed.

Lemma framed_document_payload frame j :
  framed_document frame j ->
  exists json, checked_frame_payload frame = Ok json /\ validate_json_document json = Ok tt /\
    json_parse json = Some j.
Proof.
  intros (json & Hf & Hl & Hj & Hn & Hu). exists json.
  split_and!; [by apply checked_frame_payload_Ok|apply validate_json_document_Ok; eauto|done].
Qed.

Lemma request_roundtrip_aux r :
  request_wf r ->
  match encode_request_frame r with
  | Ok frame =>
    decode_request_frame frame = (validate_request r;; Ok r) /\
    forall error, request_error_response frame error = Some (response_error (request_id r) error)
  | Err e => e = FrameTooLarge
  end.
Proof.
  intros Hr. pose proof (encode_frame_document _ (request_document r Hr)) as He.
  destruct (request_from_json r) as [Hfrom Hid]; [apply Hr..|].
  unfold encode_request_frame. destruct (encode_frame (request_json r)) as [frame|e]; [|done].
  apply framed_document_payload in He as (json & Hp & Hv & Hj).
  unfold decode_request_frame, request_error_response, from_slice. rewrite Hp.
  cbn [mbind result_bind ok option_bind]. rewrite Hv. cbn [mbind result_bind ok option_bind].
  rewrite Hj. cbn [mbind option_bind]. by rewrite Hfrom, Hid.
Qed.

Lemma response_roundtrip r :
  response_wf r -> response_version r = PROTOCOL_VERSION ->
  match encode_response_frame r with
  | Ok frame => decode_response_frame frame = Ok r
  | Err e => e = FrameTooLarge
  end.
Proof.
  intros Hr Hv. pose proof (encode_frame_document _ (response_document r Hr)) as He.
  assert (Hfrom : response_from (response_json r) = Some r).
  { apply response_from_json; [apply Hr|]. destruct Hr as [_ _ Ho]. destruct (outcome r) as [[]|]; try done.
    eapply Forall_impl; [exact Ho|]. by intros s []. }
  unfold encode_response_frame. destruct (encode_frame (response_json r)) as [frame|e]; [|done].
  apply framed_document_payload in He as (json & Hp & Hvj & Hj).
  unfold decode_response_frame, from_slice. rewrite Hp.
  cbn [mbind result_bind]. rewrite Hvj. cbn [mbind result_bind option_bind].
  rewrite Hj. cbn [mbind option_bind]. rewrite Hfrom. cbn [ok_or mbind result_bind].
  by rewrite Hv.
Qed.

(** A request that the serializer wrote comes out of the frame as it went in, up to
    the checks: encoding fails only for a document over the frame limit, decoding gives
    the request or the error its validation gives, and a rejected request is answered
    with an error that carries its own identifier. *)
Theorem request_roundtrip r :
  request_wf r ->
  match encode_request_frame r with
  | Ok frame =>
    decode_request_frame frame = (validate_request r;; Ok r) /\
    forall error, request_error_response frame error = Some (response_error (request_id r) error)
  | Err e => e = FrameTooLarge
  end.
Proof. apply request_roundtrip_aux. Qed.
End wire.

(** C34. The request decoder accepts exactly the frames whose big-endian length prefix
    is the length of a payload of 1 to [MAX_FRAME_BYTES] bytes that parses as JSON,
    nested at most sixteen deep, with no repeated key in any object, and from which the
    deserializer builds a request within all bounds of the protocol. *)
Theorem decode_request_iff `{TextCrates, SerdeJson, Messages} frame r :
  decode_request_frame frame = Ok r <->
  exists json j, frame = be_bytes 4 (zlen json) ++ json /\ 1 <= zlen json <= MAX_FRAME_BYTES /\
    json_parse json = Some j /\ nesting j <= MAX_JSON_DEPTH /\ unique_keys j /\
    request_from j = Some r /\ acceptable r.
Proof. rewrite decode_request_frame_Ok. unfold framed_document. naive_solver. Qed.
