(* ===== verification/ProtocolReference.v ===== *)
(** * Concrete instances of the JSON text and message interfaces

    A text form of JSON trees that is read back, and deserializers that look up
    the members of an object the way derived ones do.  They show that the laws
    [Json.v] and [Protocol.v] rely on can hold, and run the examples. *)

From S2P Require Import Prelude Errors Utf8 Model Json Protocol.
Local Open Scope Z_scope.

(** ** Text: the bits of the tree's code *)
Fixpoint to_tree (j : Json) : gen_tree (bool + Z + (string + string)) :=
  match j with
  | JNull => GenNode 0 []
  | JBool b => GenLeaf (inl (inl b))
  | JNumber n => GenLeaf (inl (inr n))
  | JFloat t => GenLeaf (inr (inl t))
  | JString s => GenLeaf (inr (inr s))
  | JArray items => GenNode 1 (map to_tree items)
  | JObject members => GenNode 2 (map (fun kv => GenNode 3 [GenLeaf (inr (inr kv.1)); to_tree kv.2]) members)
  end.
Fixpoint of_tree (t : gen_tree (bool + Z + (string + string))) : Json :=
  match t with
  | GenLeaf (inl (inl b)) => JBool b
  | GenLeaf (inl (inr n)) => JNumber n
  | GenLeaf (inr (inl t)) => JFloat t
  | GenLeaf (inr (inr s)) => JString s
  | GenNode 1 l => JArray (map of_tree l)
  | GenNode 2 l =>
    JObject (map (fun m => match m with
                           | GenNode 3 [GenLeaf (inr (inr k)); v] => (k, of_tree v)
                           | _ => (EmptyString, JNull)
                           end) l)
  | GenNode _ _ => JNull
  end.

Lemma of_to_tree j : of_tree (to_tree j) = j.
Proof.
  induction j as [| | | | |items IH|members IH] using Json_tree_ind; cbn; try done.
  - f_equal. rewrite map_map. induction IH as [|x l Hx _ IH]; cbn; [done|]. by f_equal.
  - f_equal. rewrite map_map. induction IH as [|[k v] l Hx _ IH]; cbn; [done|]. cbn in Hx. by rewrite Hx, IH.
Qed.

Fixpoint print_bits (p : positive) : bytes :=
  match p with
  | xH => []
  | xO p => "0"%char :: print_bits p
  | xI p => "1"%char :: print_bits p
  end.
Fixpoint parse_bits (b : bytes) : positive :=
  match b with
  | [] => xH
  | x :: b => if bool_decide (x = "0"%char) then xO (parse_bits b) else xI (parse_bits b)
  end.
Lemma parse_print_bits p : parse_bits (print_bits p) = p.
Proof.
  induction p as [p IH|p IH|]; cbn [print_bits parse_bits]; [| |done];
    case_bool_decide; congruence.
Qed.

#[export] Instance reference_json : SerdeJson := {
  json_parse := fun b => match b with [] => None | _ :: b => of_tree <$> decode (parse_bits b) end;
  json_print := fun j => Some (" "%char :: print_bits (encode (to_tree j)));
}.
#[export] Instance reference_json_laws : SerdeJsonLaws.
Proof.
  split. intros j _ _. eexists. split; [reflexivity|]. split; [done|].
  cbn. by rewrite parse_print_bits, decode_encode; cbn; rewrite of_to_tree.
Qed.

(** ** Deserializers *)
Definition as_number (j : Json) : option Z := match j with JNumber n => Some n | _ => None end.
Definition as_bool (j : Json) : option bool := match j with JBool b => Some b | _ => None end.
Definition as_list {A} (f : Json -> option A) (j : Json) : option (list A) :=
  match j with JArray items => mapM f items | _ => None end.
Definition as_option {A} (f : Json -> option A) (j : Json) : option (option A) :=
  match j with JNull => Some None | _ => Some <$> f j end.

Section deserializers.
Context `{TextCrates}.

Definition as_uuid (j : Json) : option Uuid := s ← as_string j; uuid_parse_str s.

Definition target_of (j : Json) : option BindingTarget :=
  kind ← member j "kind" ≫= as_string;
  if bool_decide (kind = "environment") then Environment <$> (member j "name" ≫= as_string)
  else if bool_decide (kind = "standard_input") then Some StandardInput
  else if bool_decide (kind = "temporary_file_environment") then
    name ← member j "name" ≫= as_string;
    match member j "suggested_filename" with
    | Some f => TemporaryFileEnvironment name <$> as_option as_string f
    | None => Some (TemporaryFileEnvironment name None)
    end
  else None.
Definition binding_of (j : Json) : option SecretBindingRequest :=
  r ← member j "secret_ref" ≫= as_string;
  f ← member j "field" ≫= as_string;
  t ← member j "target" ≫= target_of;
  Some {| request_secret_ref := r; request_field := f; request_target := t |}.
Definition method_of (j : Json) : option RpcMethod :=
  name ← member j "method" ≫= as_string;
  if bool_decide (name = "session_open") then Some SessionOpen
  else if bool_decide (name = "status") then Some Status
  else if bool_decide (name = "list") then Some ListSecrets
  else if bool_decide (name = "lock") then Some Lock
  else if bool_decide (name = "run") then
    params ← member j "params";
    e ← member params "executable" ≫= as_string;
    a ← member params "arguments" ≫= as_list as_string;
    w ← member params "working_directory" ≫= as_string;
    b ← member params "bindings" ≫= as_list binding_of;
    t ← member params "timeout_ms" ≫= as_number;
    o ← member params "output_limit_bytes" ≫= as_number;
    Some (Run e a w b t o)
  else None.
Definition request_of (j : Json) : option RpcRequest :=
  v ← member j "version" ≫= as_number;
  i ← member j "request_id" ≫= as_uuid;
  c ← member j "client_session_id" ≫= as_uuid;
  l ← member j "client_label" ≫= as_string;
  m ← method_of j;
  Some {| request_version := v; request_id := i; client_session_id := c; client_label := l; method := m |}.

Definition field_summary_of (j : Json) : option SecretFieldSummary :=
  n ← member j "name" ≫= as_string;
  t ← member j "text" ≫= as_bool;
  Some {| summary_field_name := n; summary_field_text := t |}.
Definition summary_of (j : Json) : option SecretSummary :=
  i ← member j "id" ≫= as_uuid;
  n ← member j "name" ≫= as_string;
  f ← member j "fields" ≫= as_list field_summary_of;
  Some {| summary_id := i; summary_name := n; summary_fields := f |}.
Definition result_of (j : Json) : option RpcResult :=
  kind ← member j "type" ≫= as_string;
  if bool_decide (kind = "session_opened") then Some SessionOpened
  else if bool_decide (kind = "status") then
    s ← member j "state" ≫= as_string;
    StatusResult s <$> as_option as_number (default JNull (member j "idle_remaining_ms"))
  else if bool_decide (kind = "list") then ListResult <$> (member j "secrets" ≫= as_list summary_of)
  else if bool_decide (kind = "locked") then Some Locked
  else if bool_decide (kind = "run") then
    x ← as_option as_number (default JNull (member j "exit_code"));
    t ← member j "termination" ≫= as_string;
    o ← member j "stdout" ≫= as_string;
    e ← member j "stderr" ≫= as_string;
    d ← member j "duration_ms" ≫= as_number;
    r ← member j "redaction_count" ≫= as_number;
    c ← member j "output_truncated" ≫= as_bool;
    RunResult x t o e d r c <$> as_bool (default (JBool false) (member j "temp_cleanup_warning"))
  else None.
Definition response_of (j : Json) : option RpcResponse :=
  v ← member j "version" ≫= as_number;
  i ← member j "request_id" ≫= as_uuid;
  o ← match member j "result" with
      | Some r => Success <$> result_of r
      | None =>
        e ← member j "error";
        c ← member e "code" ≫= as_string;
        m ← member e "message" ≫= as_string;
        Some (Failure {| body_code := c; body_message := m |})
      end;
  Some {| response_version := v; response_request_id := i; outcome := o |}.

#[export] Instance reference_messages : Messages := {
  request_from := request_of;
  response_from := response_of;
  identity_from := fun j => member j "request_id" ≫= as_uuid;
}.
End deserializers.

Lemma as_list_json {A} (f : Json -> option A) (g : A -> Json) l :
  Forall (fun x => f (g x) = Some x) l -> as_list f (JArray (g <$> l)) = Some l.
Proof.
  intros Hl. cbn [as_list]. apply mapM_Some. induction Hl; cbn; by constructor.
Qed.

Section laws.
Context `{TextCratesLaws}.

Lemma as_uuid_json u : uuid_wf u -> as_uuid (uuid_json u) = Some u.
Proof. intros. by apply uuid_parse_display. Qed.

Lemma target_of_json t : target_of (target_json t) = Some t.
Proof. by destruct t as [| |? []]. Qed.

Lemma binding_of_json b : binding_of (binding_json b) = Some b.
Proof.
  destruct b as [r f t].
  change (target_of (target_json t) ≫= (fun t => Some {| request_secret_ref := r; request_field := f;
    request_target := t |}) = Some {| request_secret_ref := r; request_field := f; request_target := t |}).
  by rewrite target_of_json.
Qed.

Lemma method_of_json r : method_of (request_json r) = Some (method r).
Proof.
  destruct r as [v i c l [| | | |e a w b t o]]; try reflexivity.
  change (as_list as_string (JArray (JString <$> a)) ≫= (fun a =>
    as_list binding_of (JArray (binding_json <$> b)) ≫= (fun b => Some (Run e a w b t o))) =
    Some (Run e a w b t o)).
  rewrite (as_list_json as_string JString) by by apply Forall_true. cbn [mbind option_bind].
  rewrite as_list_json by apply Forall_true, binding_of_json. done.
Qed.

Lemma request_of_json r :
  uuid_wf (request_id r) -> uuid_wf (client_session_id r) -> request_of (request_json r) = Some r.
Proof.
  intros Hi Hc. transitivity (
    i ← as_uuid (uuid_json (request_id r)); c ← as_uuid (uuid_json (client_session_id r));
    m ← method_of (request_json r);
    Some {| request_version := request_version r; request_id := i; client_session_id := c;
            client_label := client_label r; method := m |}); [reflexivity|].
  rewrite !as_uuid_json, method_of_json by done. by destruct r.
Qed.

Lemma summary_of_json s : uuid_wf (summary_id s) -> summary_of (summary_json s) = Some s.
Proof.
  intros Hi. destruct s as [i n f].
  change ((i ← as_uuid (uuid_json i); as_list field_summary_of (JArray (field_summary_json <$> f)) ≫= (fun f =>
    Some {| summary_id := i; summary_name := n; summary_fields := f |})) =
    Some {| summary_id := i; summary_name := n; summary_fields := f |}).
  rewrite as_uuid_json by done. cbn [mbind option_bind].
  rewrite as_list_json; [done|]. apply Forall_true. by intros [].
Qed.

Lemma result_of_json r :
  match r with ListResult l => Forall (fun s => uuid_wf (summary_id s)) l | _ => True end ->
  result_of (result_json r) = Some r.
Proof.
  destruct r as [|s [i|]|l| |[x|] ? ? ? ? ? ? ?]; try reflexivity. intros Hl.
  change (ListResult <$> as_list summary_of (JArray (summary_json <$> l)) = Some (ListResult l)).
  rewrite as_list_json; [done|]. eapply Forall_impl; [done|]. apply summary_of_json.
Qed.

#[export] Instance reference_messages_laws : MessagesLaws.
Proof.
  split.
  - intros r Hi Hc. split; [by apply request_of_json|].
    change (as_uuid (uuid_json (request_id r)) = Some (request_id r)). by apply as_uuid_json.
  - intros [v i [r|[c m]]] Hi Hr; cbn in Hi, Hr.
    + change ((i ← as_uuid (uuid_json i); o ← Success <$> result_of (result_json r);
        Some {| response_version := v; response_request_id := i; outcome := o |}) =
        Some {| response_version := v; response_request_id := i; outcome := Success r |}).
      by rewrite as_uuid_json, result_of_json.
    + change ((i ← as_uuid (uuid_json i);
        Some {| response_version := v; response_request_id := i;
                outcome := Failure {| body_code := c; body_message := m |} |}) =
        Some {| response_version := v; response_request_id := i;
                outcome := Failure {| body_code := c; body_message := m |} |}).
      by rewrite as_uuid_json.
Qed.
End laws.

(** ** A request on the wire *)
Definition example_request : RpcRequest := {|
  request_version := 2;
  request_id := 0x123e4567e89b42d3a456426614174000;
  client_session_id := 0x0fedcba987654321aaaabbbbccccdddd;
  client_label := "agent";
  method := Run "/bin/sh" ["-c"; "deploy"] "/srv"
    [{| request_secret_ref := "deploy-token"; request_field := "value";
        request_target := Environment "TOKEN" |}] 60000 65536;
|}.
Lemma example_request_wf : request_wf example_request.
Proof.
  split; [by vm_compute|by vm_compute|by vm_compute|apply literal_text; vm_compute; reflexivity|].
  cbn [method example_request].
  repeat match goal with
  | |- _ /\ _ => split
  | |- binding_wf _ => unfold binding_wf, target_wf; cbn [request_secret_ref request_field request_target]
  | |- Forall _ [] => constructor
  | |- Forall _ (_ :: _) => constructor
  | |- utf8 _ => apply literal_text; vm_compute; reflexivity
  | |- u64_range _ => by vm_compute
  end.
Qed.
Lemma request_roundtrip_witness :
  match encode_request_frame example_request with
  | Ok frame =>
    decode_request_frame frame = (validate_request example_request;; Ok example_request) /\
    forall error, request_error_response frame error = Some (response_error (request_id example_request) error)
  | Err e => e = FrameTooLarge
  end.
Proof. apply (request_roundtrip example_request), example_request_wf. Defined.
Example example_request_accepted : validate_request example_request = Ok tt.
Proof. vm_compute. reflexivity. Qed.
