(* ===== verification/Runner.v ===== *)
(** * Run requests: [crates/ladon-core/src/runner.rs]

    [validate_run_request] checks a request and parses its bindings;
    [ValidatedRunRequest::resolve] joins the bindings with the values of the
    secrets and refuses what must not be injected.  [Path] is the standard
    library's on Unix, where paths are separated by [/]. *)

From S2P Require Import Prelude Errors Time Utf8 Text Model Redact Protocol.
Local Open Scope Z_scope.

Definition MAX_BINDINGS : Z := 16.
Definition MAX_INJECTED_BYTES : Z := 1024 * 1024.
Definition MAX_ARGUMENTS : Z := 256.
Definition MAX_ARGUMENT_BYTES : Z := 256 * 1024.
Definition MAX_PATH_BYTES : Z := 32 * 1024.
Definition MAX_MCP_TIMEOUT : Duration := from_secs (15 * 60).
Definition MAX_CLI_TIMEOUT : Duration := from_secs (2 * 60 * 60).

(** [enum RunCaller] and [RunCaller::maximum_timeout]. *)
Inductive RunCaller : Set := Mcp | Cli.
Definition maximum_timeout (c : RunCaller) : Duration :=
  match c with Mcp => MAX_MCP_TIMEOUT | Cli => MAX_CLI_TIMEOUT end.

(** [struct RunRequest]. *)
Record RunRequest := {
  executable : string;
  arguments : list string;
  working_directory : string;
  bindings : list SecretBindingRequest;
  timeout_ms : Z;
  output_limit_bytes : Z;
}.

(** [enum ValidatedBindingTarget], [struct ValidatedSecretBinding] and
    [struct ValidatedRunRequest]. *)
Inductive ValidatedBindingTarget : Type :=
| ValidatedEnvironment (name : string)
| ValidatedStandardInput
| ValidatedTemporaryFile (name : string) (extension : option string).
Record ValidatedSecretBinding := {
  secret_ref : SecretRef;
  field : string;
  target : ValidatedBindingTarget;
}.
Record ValidatedRunRequest := {
  run_executable : string;
  run_arguments : list string;
  run_working_directory : string;
  run_bindings : list ValidatedSecretBinding;
  run_timeout : Duration;
  run_output_limit_bytes : Z;
}.

(** [Path::new(path).is_absolute()] on Unix. *)
Definition is_absolute (path : string) : bool := starts_with (bytes_of path) (bytes_of "/").

(** [validate_environment_name]: the names afterwards. *)
Definition validate_environment_name (name : string) (names : gset string) : LResult (gset string) :=
  reject_if ((slen name =? 0) || (256 <? slen name)
             || bool_decide (zb 0 ∈ bytes_of name) || bool_decide ("="%char ∈ bytes_of name)) InvalidBinding;;
  reject_if (bool_decide (name ∈ names)) InvalidBinding;;
  Ok ({[name]} ∪ names).

(** [Path::new(filename).extension()] of a file name without separators: what
    follows its last dot, unless the name is [..] or the dot is its first byte. *)
Fixpoint split_last_dot (name : bytes) : option (bytes * bytes) :=
  match name with
  | [] => None
  | x :: r =>
    match split_last_dot r with
    | Some (before, after) => Some (x :: before, after)
    | None => if bool_decide (x = "."%char) then Some ([], r) else None
    end
  end.
Definition path_extension (filename : string) : option string :=
  if bool_decide (filename = "..") then None
  else match split_last_dot (bytes_of filename) with
       | Some ([], _) | None => None
       | Some (_, extension) => Some (string_of extension)
       end.

(** [str::ends_with] a character of a set. *)
Definition ends_with_any (allowed : string) (s : string) : bool :=
  match last (bytes_of s) with Some b => one_of allowed b | None => false end.

(** [validate_suggested_filename]. *)
Definition validate_suggested_filename (filename : string) : LResult string :=
  reject_if ((slen filename =? 0) || (128 <? slen filename)
             || bool_decide (filename = ".") || bool_decide (filename = "..")
             || starts_with (bytes_of filename) (bytes_of ".")
             || ends_with_any ". " filename
             || negb (forallb (fun b => is_ascii_alphanumeric b || one_of "._-" b) (bytes_of filename)))
    InvalidBinding;;
  extension ← ok_or (path_extension filename) InvalidBinding;
  reject_if ((slen extension =? 0) || (16 <? slen extension)
             || negb (forallb is_ascii_alphanumeric (bytes_of extension))) InvalidBinding;;
  Ok (String.append "." extension).

(** The loop over the bindings of [validate_run_request], with the names taken and
    whether standard input is. *)
Definition validate_target (t : BindingTarget) (names : gset string) (has_standard_input : bool) :
    LResult (ValidatedBindingTarget * gset string * bool) :=
  match t with
  | Environment name =>
    names ← validate_environment_name name names;
    Ok (ValidatedEnvironment name, names, has_standard_input)
  | StandardInput =>
    reject_if has_standard_input InvalidBinding;;
    Ok (ValidatedStandardInput, names, true)
  | TemporaryFileEnvironment name suggested_filename =>
    names ← validate_environment_name name names;
    extension ← match suggested_filename with
                | Some f => Some <$> validate_suggested_filename f
                | None => Ok None
                end;
    Ok (ValidatedTemporaryFile name extension, names, has_standard_input)
  end.

Section validation.
Context `{TextCrates}.

Fixpoint validate_bindings (l : list SecretBindingRequest) (names : gset string)
    (has_standard_input : bool) : LResult (list ValidatedSecretBinding) :=
  match l with
  | [] => Ok []
  | b :: l =>
    r ← SecretRef_parse (request_secret_ref b);
    f ← FieldName_parse (request_field b);
    '(t, names, has_standard_input) ← validate_target (request_target b) names has_standard_input;
    rest ← validate_bindings l names has_standard_input;
    Ok ({| secret_ref := r; field := f; target := t |} :: rest)
  end.

(** [validate_run_request]. *)
Definition invalid_path (path : string) : bool :=
  negb (is_absolute path) || has_nul path || (MAX_PATH_BYTES <? slen path).
Definition validate_run_request (r : RunRequest) (caller : RunCaller) : LResult ValidatedRunRequest :=
  reject_if (invalid_path (executable r)) InvalidExecutablePath;;
  reject_if (invalid_path (working_directory r)) InvalidWorkingDirectory;;
  argument_bytes ← ok_or (checked_total 0 (arguments r)) InvalidRequest;
  reject_if ((MAX_ARGUMENTS <? zlen (arguments r)) || (MAX_ARGUMENT_BYTES <? argument_bytes)
             || existsb has_nul (arguments r)) InvalidRequest;;
  reject_if (MAX_BINDINGS <? zlen (bindings r)) TooManyBindings;;
  let timeout := from_millis (timeout_ms r) in
  reject_if ((timeout =? 0) || (maximum_timeout caller <? timeout)) InvalidTimeout;;
  reject_if (negb ((MIN_OUTPUT_LIMIT_BYTES <=? output_limit_bytes r)
                   && (output_limit_bytes r <=? MAX_OUTPUT_LIMIT_BYTES))) InvalidOutputLimit;;
  validated ← validate_bindings (bindings r) ∅ false;
  Ok {| run_executable := executable r; run_arguments := arguments r;
        run_working_directory := working_directory r; run_bindings := validated;
        run_timeout := timeout; run_output_limit_bytes := output_limit_bytes r |}.
End validation.

(** ** Resolution *)

(** [struct ResolvedSecretBinding] with its constructor, [struct PreparedBinding] and
    [struct PreparedRun]. *)
Record ResolvedSecretBinding := {
  resolved_secret_id : SecretId;
  resolved_field : string;
  resolved_value : bytes;
}.
Definition ResolvedSecretBinding_new `{TextCrates} (secret_id field : string) (value : bytes) :
    LResult ResolvedSecretBinding :=
  id ← SecretId_parse secret_id;
  f ← FieldName_parse field;
  Ok {| resolved_secret_id := id; resolved_field := f; resolved_value := value |}.
Record PreparedBinding := {
  prepared_secret_id : SecretId;
  prepared_field : string;
  prepared_target : ValidatedBindingTarget;
  prepared_value : bytes;
}.
Record PreparedRun := {
  prepared_executable : string;
  prepared_arguments : list string;
  prepared_working_directory : string;
  prepared_bindings : list PreparedBinding;
  prepared_timeout : Duration;
  prepared_output_limit_bytes : Z;
}.

(** [fn contains]: a window of the haystack equals the needle. *)
Definition value_occurs (haystack : string) (needle : bytes) : bool :=
  negb (bool_decide (needle = [])) && contains (bytes_of haystack) needle.

(** The value would be visible in the command that is started. *)
Definition in_command (r : ValidatedRunRequest) (value : bytes) : bool :=
  value_occurs (run_executable r) value || value_occurs (run_working_directory r) value
  || existsb (fun a => value_occurs a value) (run_arguments r).

Definition is_environment (t : ValidatedBindingTarget) : bool :=
  match t with ValidatedEnvironment _ => true | _ => false end.

(** One round of the loop of [ValidatedRunRequest::resolve]: the bytes injected so far. *)
Definition resolve_one (r : ValidatedRunRequest) (injected_bytes : Z) (b : ValidatedSecretBinding)
    (v : ResolvedSecretBinding) : LResult (Z * PreparedBinding) :=
  reject_if (negb (bool_decide (field b = resolved_field v))) InvalidBinding;;
  reject_if match secret_ref b with
            | RefId expected => negb (expected =? resolved_secret_id v)
            | RefName _ => false
            end InvalidBinding;;
  injected ← ok_or (checked_add usize_max injected_bytes (zlen (resolved_value v))) InjectedDataTooLarge;
  reject_if (MAX_INJECTED_BYTES <? injected) InjectedDataTooLarge;;
  reject_if (is_environment (target b)
             && (negb (is_utf8 (resolved_value v))
                 || bool_decide (zb 0 ∈ resolved_value v))) InvalidBinding;;
  reject_if (in_command r (resolved_value v)) SecretInCommand;;
  Ok (injected, {| prepared_secret_id := resolved_secret_id v; prepared_field := resolved_field v;
                   prepared_target := target b; prepared_value := resolved_value v |}).

Fixpoint resolve_loop (r : ValidatedRunRequest) (injected_bytes : Z)
    (l : list (ValidatedSecretBinding * ResolvedSecretBinding)) : LResult (list PreparedBinding) :=
  match l with
  | [] => Ok []
  | (b, v) :: l =>
    '(injected, p) ← resolve_one r injected_bytes b v;
    rest ← resolve_loop r injected l;
    Ok (p :: rest)
  end.

(** [ValidatedRunRequest::resolve]. *)
Definition resolve (r : ValidatedRunRequest) (resolved : list ResolvedSecretBinding) : LResult PreparedRun :=
  reject_if (negb (length resolved =? length (run_bindings r))%nat) InvalidBinding;;
  prepared ← resolve_loop r 0 (zip (run_bindings r) resolved);
  Ok {| prepared_executable := run_executable r; prepared_arguments := run_arguments r;
        prepared_working_directory := run_working_directory r; prepared_bindings := prepared;
        prepared_timeout := run_timeout r; prepared_output_limit_bytes := run_output_limit_bytes r |}.

(** ** What validation guarantees *)

(** A name an environment variable may have. *)
Definition environment_name_ok (name : string) : Prop :=
  1 <= slen name <= 256 /\ (zb 0 ∉ bytes_of name) /\ ("="%char ∉ bytes_of name).

(** The variable a target sets. *)
Definition environment_name (t : ValidatedBindingTarget) : option string :=
  match t with
  | ValidatedEnvironment name | ValidatedTemporaryFile name _ => Some name
  | ValidatedStandardInput => None
  end.
Definition environment_names (l : list ValidatedSecretBinding) : list string :=
  omap (fun b => environment_name (target b)) l.
Definition is_standard_input (b : ValidatedSecretBinding) : Prop := target b = ValidatedStandardInput.
#[export] Instance is_standard_input_dec b : Decision (is_standard_input b).
Proof. unfold is_standard_input. destruct (target b); (right; discriminate) || (left; reflexivity). Defined.
Definition standard_inputs (l : list ValidatedSecretBinding) : nat := length (filter is_standard_input l).

Definition target_ok (t : BindingTarget) (v : ValidatedBindingTarget) : Prop :=
  match t, v with
  | Environment name, ValidatedEnvironment name' => name = name' /\ environment_name_ok name
  | StandardInput, ValidatedStandardInput => True
  | TemporaryFileEnvironment name suggested, ValidatedTemporaryFile name' extension =>
    name = name' /\ environment_name_ok name /\
    match suggested, extension with
    | None, None => True
    | Some f, Some e => validate_suggested_filename f = Ok e
    | _, _ => False
    end
  | _, _ => False
  end.

Lemma validate_environment_name_Ok name names names' :
  validate_environment_name name names = Ok names' <->
  environment_name_ok name /\ (name ∉ names) /\ names' = {[name]} ∪ names.
Proof.
  unfold validate_environment_name, environment_name_ok. pose proof (slen_nonneg name).
  rewrite bind_Ok. setoid_rewrite bind_Ok. setoid_rewrite reject_if_Ok. split.
  - intros (_ & Hc & _ & Hn & [= <-]). bool_hyps. split_and!; try done; lia.
  - intros ((Hl & H0 & He) & Hn & ->). exists tt. rewrite (proj2 (Z.eqb_neq _ _)), (proj2 (Z.ltb_ge _ _)) by lia.
    rewrite !bool_decide_eq_false_2 by done. split; [done|]. by exists tt.
Qed.

Lemma validate_target_Ok t names stdin v names' stdin' :
  validate_target t names stdin = Ok (v, names', stdin') <->
  target_ok t v /\
  match environment_name v with
  | Some name => (name ∉ names) /\ names' = {[name]} ∪ names /\ stdin' = stdin
  | None => stdin = false /\ names' = names /\ stdin' = true
  end.
Proof.
  destruct t as [name| |name suggested]; cbn [validate_target].
  - rewrite bind_Ok. setoid_rewrite validate_environment_name_Ok.
    destruct v; cbn; naive_solver.
  - destruct stdin; cbn; destruct v; cbn; naive_solver.
  - rewrite bind_Ok. setoid_rewrite validate_environment_name_Ok. setoid_rewrite bind_Ok.
    destruct suggested as [f|]; cbn.
    + setoid_rewrite fmap_Ok. destruct v as [| |? [e|]]; cbn; naive_solver.
    + destruct v as [| |? [e|]]; cbn; naive_solver.
Qed.

Section validated.
Context `{TextCrates}.

Record binding_ok (b : SecretBindingRequest) (v : ValidatedSecretBinding) : Prop := {
  binding_ok_ref : SecretRef_parse (request_secret_ref b) = Ok (secret_ref v);
  binding_ok_field : FieldName_parse (request_field b) = Ok (field v);
  binding_ok_target : target_ok (request_target b) (target v);
}.

Lemma validate_bindings_Ok l names stdin vs :
  validate_bindings l names stdin = Ok vs <->
  Forall2 binding_ok l vs /\ NoDup (environment_names vs) /\
  (forall name, name ∈ environment_names vs -> name ∉ names) /\
  (standard_inputs vs + (if stdin then 1 else 0) <= 1)%nat.
Proof.
  revert names stdin vs. induction l as [|b l IH]; intros names stdin vs; cbn [validate_bindings].
  - split.
    + intros [= <-]. split_and!; [constructor|constructor| |by destruct stdin; cbn; lia].
      by intros name ?%not_elem_of_nil.
    + by intros (->%Forall2_nil_inv_l & _).
  - rewrite bind_Ok. setoid_rewrite bind_Ok. setoid_rewrite bind_Ok. split.
    + intros (r & Hr & f & Hf & [[t names'] stdin'] & Ht & Hrest). apply bind_Ok in Hrest as (rest & Hl & Hv).
      injection Hv as <-. apply IH in Hl as (HF & Hnd & Hfresh & Hin).
      apply validate_target_Ok in Ht as [Hok Hnames].
      split; [constructor; [by split|done]|].
      unfold environment_names, standard_inputs in *. cbn [omap list_omap target].
      rewrite filter_cons. destruct (environment_name t) as [name|] eqn:Hname.
      * destruct Hnames as (Hn & -> & ->). rewrite decide_False by (by destruct t).
        split_and!; [constructor; [|done]|intros x; rewrite elem_of_cons|done]; set_solver.
      * destruct Hnames as (-> & -> & ->). rewrite decide_True by (by destruct t).
        split_and!; [done|done|cbn; lia].
    + intros (HF & Hnd & Hfresh & Hin). apply Forall2_cons_inv_l in HF as (v & vs' & [Hr Hf Ht] & HF & ->).
      exists (secret_ref v). split; [done|]. exists (field v). split; [done|].
      unfold environment_names, standard_inputs in *. cbn [omap list_omap] in *.
      rewrite filter_cons in Hin. destruct (environment_name (target v)) as [name|] eqn:Hname.
      * rewrite decide_False in Hin by (unfold is_standard_input; by destruct (target v)).
        apply NoDup_cons in Hnd as [Hnew Hnd].
        exists (target v, {[name]} ∪ names, stdin). split.
        { apply validate_target_Ok. rewrite Hname. split_and!; try done. apply Hfresh. set_solver. }
        apply bind_Ok. exists vs'. split; [|by destruct v]. apply IH. split_and!; try done. set_solver.
      * rewrite decide_True in Hin by (unfold is_standard_input; by destruct (target v)).
        cbn [length] in Hin. destruct stdin; [lia|]. exists (target v, names, true). split.
        { apply validate_target_Ok. by rewrite Hname. }
        apply bind_Ok. exists vs'. split; [|by destruct v]. apply IH. split_and!; try done. lia.
Qed.
End validated.

(** What makes a request runnable for a caller. *)
Definition absolute_path (path : string) : Prop :=
  (exists rest, bytes_of path = "/"%char :: rest) /\ (zb 0 ∉ bytes_of path) /\ slen path <= MAX_PATH_BYTES.

Record runnable (r : RunRequest) (caller : RunCaller) : Prop := {
  runnable_executable : absolute_path (executable r);
  runnable_directory : absolute_path (working_directory r);
  runnable_arguments : zlen (arguments r) <= MAX_ARGUMENTS /\ total_bytes (arguments r) <= MAX_ARGUMENT_BYTES /\
    Forall (fun a => zb 0 ∉ bytes_of a) (arguments r);
  runnable_bindings : zlen (bindings r) <= MAX_BINDINGS;
  runnable_timeout : 0 <> timeout_ms r /\ from_millis (timeout_ms r) <= maximum_timeout caller;
  runnable_limit : MIN_OUTPUT_LIMIT_BYTES <= output_limit_bytes r <= MAX_OUTPUT_LIMIT_BYTES;
}.

Lemma invalid_path_false path : invalid_path path = false <-> absolute_path path.
Proof.
  unfold invalid_path, absolute_path, is_absolute, starts_with, has_nul.
  rewrite !orb_false_iff, negb_false_iff, Z.ltb_ge, bool_decide_eq_true, bool_decide_eq_false.
  unfold prefix. change (bytes_of "/") with ["/"%char]. cbn [app]. tauto.
Qed.

Lemma argument_checks l :
  (exists b, checked_total 0 l = Some b /\
    (MAX_ARGUMENTS <? zlen l) || (MAX_ARGUMENT_BYTES <? b) || existsb has_nul l = false) <->
  zlen l <= MAX_ARGUMENTS /\ total_bytes l <= MAX_ARGUMENT_BYTES /\ Forall (fun a => zb 0 ∉ bytes_of a) l.
Proof.
  pose proof (checked_total_spec 0 l MAX_ARGUMENT_BYTES ltac:(lia) ltac:(by vm_compute)) as Hc.
  rewrite Z.add_0_l in Hc. setoid_rewrite orb_false_iff. setoid_rewrite orb_false_iff.
  setoid_rewrite existsb_nul_false. setoid_rewrite Z.ltb_ge. split.
  - intros (b & Hb & (? & ?) & ?). rewrite Hb, Z.ltb_ge in Hc. split_and!; try done. by apply Hc.
  - intros (? & Hsum & ?). apply Hc in Hsum. destruct (checked_total 0 l) as [b|]; [|done].
    exists b. rewrite Z.ltb_ge in Hsum. by split_and!.
Qed.

Section validated_run.
Context `{TextCrates}.

Lemma validate_run_request_Ok r caller v :
  validate_run_request r caller = Ok v <->
  runnable r caller /\
  Forall2 binding_ok (bindings r) (run_bindings v) /\
  NoDup (environment_names (run_bindings v)) /\ (standard_inputs (run_bindings v) <= 1)%nat /\
  v = {| run_executable := executable r; run_arguments := arguments r;
         run_working_directory := working_directory r; run_bindings := run_bindings v;
         run_timeout := from_millis (timeout_ms r); run_output_limit_bytes := output_limit_bytes r |}.
Proof.
  unfold validate_run_request. split.
  - intros Hv. inv_ok. bool_hyps. repeat match goal with H : () |- _ => destruct H end.
    repeat match goal with H : invalid_path _ = false |- _ => apply invalid_path_false in H end.
    match goal with H : validate_bindings _ _ _ = Ok _ |- _ => apply validate_bindings_Ok in H as (HF & Hn & _ & Hs) end.
    cbn [run_bindings]. split; [|split_and!; try done; lia].
    split; try done.
    + apply argument_checks. eexists. split; [done|]. rewrite !orb_false_iff, !Z.ltb_ge. by split_and!.
    + unfold from_millis in *. split; [lia|done].
  - intros ([He Hw Ha Hb [Ht0 Ht] [Hlo Hhi]] & HF & Hn & Hs & ->).
    rewrite (proj2 (invalid_path_false _) He), (proj2 (invalid_path_false _) Hw). cbn [reject_if mbind result_bind].
    apply argument_checks in Ha as (n & Hn' & Hc). rewrite Hn'. cbn [ok_or mbind result_bind].
    rewrite Hc. cbn [reject_if mbind result_bind].
    rewrite (proj2 (Z.ltb_ge _ _) Hb), (proj2 (Z.ltb_ge _ _) Ht).
    rewrite (proj2 (Z.eqb_neq (from_millis (timeout_ms r)) 0)) by (unfold from_millis; lia).
    rewrite (proj2 (Z.leb_le _ _) Hlo), (proj2 (Z.leb_le _ _) Hhi).
    cbn [orb andb negb reject_if mbind result_bind].
    rewrite (proj2 (validate_bindings_Ok _ _ _ (run_bindings v))); [done|].
    split_and!; [done|done|set_solver|lia].
Qed.
End validated_run.

(** ** Suggested file names *)
Lemma split_last_dot_Some name before after :
  split_last_dot name = Some (before, after) -> name = before ++ "."%char :: after.
Proof.
  revert before. induction name as [|x r IH]; intros before; cbn [split_last_dot]; [done|].
  destruct (split_last_dot r) as [[b a]|].
  - intros [= <- <-]. cbn. f_equal. by apply IH.
  - case_bool_decide as Hx; [|done]. intros [= <- <-]. by rewrite Hx.
Qed.

Lemma validate_suggested_filename_Ok filename e :
  validate_suggested_filename filename = Ok e ->
  exists stem extension, bytes_of filename = stem ++ bytes_of e /\ stem <> [] /\
    e = String.append "." extension /\ 1 <= slen extension <= 16 /\
    Forall (fun b => is_ascii_alphanumeric b = true) (bytes_of extension).
Proof.
  unfold validate_suggested_filename. intros Hv. inv_ok. bool_hyps.
  match goal with H : path_extension _ = Some _ |- _ => rename H into He end.
  unfold path_extension in He. case_bool_decide; [done|].
  destruct (split_last_dot (bytes_of filename)) as [[stem after]|] eqn:Hs; [|done].
  destruct stem as [|y stem]; [done|]. injection He as <-. apply split_last_dot_Some in Hs.
  exists (y :: stem), (string_of after). rewrite bytes_of_append, bytes_of_string_of in *.
  pose proof (slen_nonneg (string_of after)).
  split_and!; try done; try lia. by apply forallb_true_Forall.
Qed.

(** ** What resolution guarantees *)
Record injectable (r : ValidatedRunRequest) (b : ValidatedSecretBinding) (v : ResolvedSecretBinding) : Prop := {
  injectable_field : field b = resolved_field v;
  injectable_id : forall id, secret_ref b = RefId id -> id = resolved_secret_id v;
  injectable_environment : is_environment (target b) = true ->
    valid_utf8 (resolved_value v) /\ (zb 0 ∉ resolved_value v);
  injectable_hidden : resolved_value v <> [] ->
    Forall (fun s => contains (bytes_of s) (resolved_value v) = false)
      (run_executable r :: run_working_directory r :: run_arguments r);
}.

Definition injected_bytes (l : list ResolvedSecretBinding) : Z :=
  foldr (fun v n => zlen (resolved_value v) + n) 0 l.

Definition prepare (b : ValidatedSecretBinding) (v : ResolvedSecretBinding) : PreparedBinding :=
  {| prepared_secret_id := resolved_secret_id v; prepared_field := resolved_field v;
     prepared_target := target b; prepared_value := resolved_value v |}.

Lemma in_command_false r value :
  in_command r value = false <->
  (value <> [] -> Forall (fun s => contains (bytes_of s) value = false)
    (run_executable r :: run_working_directory r :: run_arguments r)).
Proof.
  unfold in_command, value_occurs. rewrite !orb_false_iff, existsb_false_Forall, !Forall_cons.
  case_bool_decide as Hv; cbn [negb andb].
  - split; [done|]. intros _. split_and!; [done..|]. by apply Forall_true.
  - naive_solver.
Qed.

Lemma resolve_one_Ok r injected b v n p :
  0 <= injected ->
  resolve_one r injected b v = Ok (n, p) <->
  injectable r b v /\ n = injected + zlen (resolved_value v) /\ n <= MAX_INJECTED_BYTES /\ p = prepare b v.
Proof.
  intros Hi. unfold resolve_one. split.
  - intros Hr. inv_ok. bool_hyps. repeat match goal with H : () |- _ => destruct H end.
    match goal with H : checked_add _ _ _ = Some _ |- _ => apply checked_add_Some in H as [-> _] end.
    match goal with H : in_command _ _ = false |- _ => rewrite in_command_false in H end.
    split_and!; try done. split; try done.
    + intros id Hid. rewrite Hid in *. bool_hyps. done.
    + intros He. rewrite He in *. cbn [andb] in *. bool_hyps.
      match goal with H : is_utf8 _ = true |- _ => apply is_utf8_true in H end. done.
  - intros ([Hf Hid He Hh] & -> & Hn & ->). unfold prepare.
    rewrite (bool_decide_eq_true_2 (field b = resolved_field v)) by done. cbn [negb reject_if mbind result_bind].
    assert (Hids : match secret_ref b with RefId e => negb (e =? resolved_secret_id v) | RefName _ => false end = false).
    { destruct (secret_ref b) as [|id]; [done|]. by rewrite (Hid id), Z.eqb_refl. }
    rewrite Hids. cbn [reject_if mbind result_bind].
    rewrite (proj2 (checked_add_Some _ _ _ _)) by
      (split; [done|]; unfold MAX_INJECTED_BYTES, usize_max, u64_max in *; lia).
    cbn [ok_or mbind result_bind]. rewrite (proj2 (Z.ltb_ge _ _) Hn). cbn [reject_if mbind result_bind].
    rewrite (proj2 (in_command_false _ _) Hh).
    destruct (is_environment (target b)); [|done]. destruct He as [He1 He2]; [done|].
    by rewrite (proj2 (is_utf8_true _)), bool_decide_eq_false_2.
Qed.

Lemma resolve_loop_Ok r injected bs vs ps :
  0 <= injected -> length vs = length bs ->
  resolve_loop r injected (zip bs vs) = Ok ps <->
  Forall2 (injectable r) bs vs /\ (vs <> [] -> injected + injected_bytes vs <= MAX_INJECTED_BYTES) /\
  ps = zip_with prepare bs vs.
Proof.
  revert injected vs ps. induction bs as [|b bs IH]; intros injected [|v vs] ps Hi Hlen; cbn in Hlen; try lia.
  - cbn. split; [intros [= <-]; split_and!; by try constructor|by intros (_ & _ & ->)].
  - cbn [zip zip_with resolve_loop injected_bytes foldr]. change (foldr _ 0 vs) with (injected_bytes vs).
    assert (Hvs : 0 <= injected_bytes vs).
    { clear. induction vs as [|v vs IH]; cbn; [done|]. unfold injected_bytes in IH.
      pose proof (zlen_nonneg (resolved_value v)). lia. }
    pose proof (zlen_nonneg (resolved_value v)) as Hv. rewrite bind_Ok. split.
    + intros ([n p] & Hone & Hrest). apply bind_Ok in Hrest as (rest & Hl & [= <-]).
      apply resolve_one_Ok in Hone as (Hinj & -> & Hn & ->); [|done].
      apply IH in Hl as (HF & Hsum & ->); [|lia..]. split_and!; [by constructor| |done].
      intros _. destruct vs; [cbn; lia|]. specialize (Hsum ltac:(done)). lia.
    + intros (HF & Hsum & ->). apply Forall2_cons in HF as [Hinj HF].
      specialize (Hsum ltac:(done)). exists (injected + zlen (resolved_value v), prepare b v). split.
      * apply resolve_one_Ok; [done|]. split_and!; try done. lia.
      * apply bind_Ok. exists (zip_with prepare bs vs). split; [|done].
        apply IH; [lia|lia|]. split_and!; try done. intros _. lia.
Qed.

Lemma resolve_Ok r resolved p :
  resolve r resolved = Ok p <->
  Forall2 (injectable r) (run_bindings r) resolved /\ injected_bytes resolved <= MAX_INJECTED_BYTES /\
  p = {| prepared_executable := run_executable r; prepared_arguments := run_arguments r;
         prepared_working_directory := run_working_directory r;
         prepared_bindings := zip_with prepare (run_bindings r) resolved;
         prepared_timeout := run_timeout r; prepared_output_limit_bytes := run_output_limit_bytes r |}.
Proof.
  unfold resolve. destruct (Nat.eqb_spec (length resolved) (length (run_bindings r))) as [Hl|Hl];
    cbn [negb reject_if mbind result_bind].
  - rewrite bind_Ok. setoid_rewrite resolve_loop_Ok; [|done..]. rewrite Z.add_0_l. split.
    + intros (ps & (HF & Hsum & ->) & [= <-]). split_and!; try done.
      destruct resolved; [by vm_compute|by apply Hsum].
    + intros (HF & Hsum & ->). eexists. by split_and!.
  - split; [done|]. intros (HF & _). by apply Forall2_length in HF.
Qed.

(** ** The properties of the runner's checks *)

(** Validation accepts exactly the runnable requests: absolute paths without NUL,
    bounded arguments, at most sixteen bindings that parse one by one, a timeout the
    caller may ask for, an output limit within its bounds, environment names that are
    well formed and all different, and at most one binding of standard input; and it
    returns the request's own content. *)
Theorem validate_run_request_iff `{TextCrates} r caller v :
  validate_run_request r caller = Ok v <->
  runnable r caller /\
  Forall2 binding_ok (bindings r) (run_bindings v) /\
  NoDup (environment_names (run_bindings v)) /\ (standard_inputs (run_bindings v) <= 1)%nat /\
  v = {| run_executable := executable r; run_arguments := arguments r;
         run_working_directory := working_directory r; run_bindings := run_bindings v;
         run_timeout := from_millis (timeout_ms r); run_output_limit_bytes := output_limit_bytes r |}.
Proof. apply validate_run_request_Ok. Qed.

(** Resolution succeeds exactly when every binding has its own value, of the field
    and the identifier it names, together at most [MAX_INJECTED_BYTES] bytes, when no
    value for an environment variable is invalid text or holds a NUL, and when no value
    occurs in the executable, the directory or an argument; the prepared run is then
    the validated one with each value beside its target. *)
Theorem resolve_iff r resolved p :
  resolve r resolved = Ok p <->
  Forall2 (injectable r) (run_bindings r) resolved /\ injected_bytes resolved <= MAX_INJECTED_BYTES /\
  p = {| prepared_executable := run_executable r; prepared_arguments := run_arguments r;
         prepared_working_directory := run_working_directory r;
         prepared_bindings := zip_with prepare (run_bindings r) resolved;
         prepared_timeout := run_timeout r; prepared_output_limit_bytes := run_output_limit_bytes r |}.
Proof. apply resolve_Ok. Qed.

(** A temporary file gets a harmless suffix: the suggested name ends with the
    extension returned, which is a dot and one to sixteen ASCII letters or digits. *)
Theorem suggested_extension filename e :
  validate_suggested_filename filename = Ok e ->
  exists stem extension, bytes_of filename = stem ++ bytes_of e /\ stem <> [] /\
    e = String.append "." extension /\ 1 <= slen extension <= 16 /\
    Forall (fun b => is_ascii_alphanumeric b = true) (bytes_of extension).
Proof. apply validate_suggested_filename_Ok. Qed.

Lemma suggested_extension_witness :
  exists stem extension, bytes_of "key.v2.pem" = stem ++ bytes_of ".pem" /\ stem <> [] /\
    ".pem" = String.append "." extension /\ 1 <= slen extension <= 16 /\
    Forall (fun b => is_ascii_alphanumeric b = true) (bytes_of extension).
Proof. apply (suggested_extension "key.v2.pem"). reflexivity. Defined.
