(* ===== verification/Approval.v ===== *)
(** * Approval: [crates/ladon-app/src/approval.rs]

    [ApprovalCoordinator] decides which agent session may use which secret.  Its
    methods run under one mutex, so each is a function on [ApprovalState] that
    keeps the changes made before an error; [authorize_with_wake], which waits
    for a decision, is a first critical section and one more for every round of
    its loop.  A [RunCancellation] is a shared flag that other threads may set
    at any time: an operation is given the set of flags it finds set. *)

From S2P Require Import Prelude Errors Time Utf8 Text Model Grants.
Local Open Scope Z_scope.

Definition MAX_TRACKED_SESSIONS : Z := 32.
Definition DEFAULT_GRANT_LIFETIME : Duration := from_secs (30 * 60).
Definition DEFAULT_APPROVAL_TIMEOUT : Duration := from_secs (2 * 60).

(** A [RunCancellation]: the identity of the shared flag. *)
Abbreviation Token := nat (only parsing).

(** ** Data *)

(** [struct ApprovalSecret] and [struct PendingApproval]. *)
Record ApprovalSecret := {
  approval_secret_id : SecretId;
  approval_secret_name : string;
  approval_secret_fields : list string;
}.
Record PendingApproval := {
  approval_id : Uuid;
  approval_vault : Uuid;
  approval_client : Uuid;
  approval_label : string;
  approval_secrets : list ApprovalSecret;
  approval_executable : string;
  approval_arguments : list string;
  approval_directory : string;
}.

(** [enum AppAccessState]. *)
Inductive AppAccessState : Set :=
| Active
| Locking (epoch : Z)
| Locked (epoch : Z).
#[export] Instance AppAccessState_eq_dec : EqDecision AppAccessState.
Proof. solve_decision. Defined.

(** [struct SessionDetails], [struct UnattendedContext] and [struct GrantTicket]. *)
Record SessionDetails := {
  connection_id : Uuid;
  reported_name : string;
  user_name : string;
  note : string;
  session_directory : string;
  last_action : string;
  connected_at : SystemTime;
  last_activity : SystemTime;
}.
Record UnattendedContext := {
  context_client : Uuid;
  context_vault : Uuid;
  context_revision : Z;
  context_epoch : Z;
  context_connection : Uuid;
  context_label : string;
}.
Record GrantTicket := {
  ticket_vault : Uuid;
  ticket_client : Uuid;
  ticket_secrets : list SecretId;
}.

(** [enum ApprovalDecision] and [struct PendingState]. *)
Inductive ApprovalDecision : Set :=
| Approve (lifetime : option Duration)
| ApproveUntil (deadline : SystemTime)
| ApproveSession
| Granted
| Deny
| Cancel.
#[export] Instance ApprovalDecision_eq_dec : EqDecision ApprovalDecision.
Proof. solve_decision. Defined.
Record PendingState := {
  request : PendingApproval;
  requested_secret_ids : list SecretId;
  decision : option ApprovalDecision;
}.

(** [struct ActiveGrantSnapshot]. *)
Record ActiveGrantSnapshot := {
  snapshot_client : Uuid;
  snapshot_label : string;
  snapshot_secret : SecretId;
  snapshot_remaining : Duration;
  snapshot_expires_with_session : bool;
  snapshot_unattended : bool;
  snapshot_expires_at : option SystemTime;
}.

(** [struct ApprovalState]. *)
Record ApprovalState (C : Type) := {
  grants : GrantStore C;
  vault_session_id : option Uuid;
  pending : option PendingState;
  client_labels : gmap Uuid string;
  client_sessions : gmap Uuid Token;
  sessions_closed : bool;
  app_access : AppAccessState;
  lock_epoch : Z;
  revision : Z;
  sessions : gmap Uuid SessionDetails;
}.
Arguments grants {C}.
Arguments vault_session_id {C}.
Arguments pending {C}.
Arguments client_labels {C}.
Arguments client_sessions {C}.
Arguments sessions_closed {C}.
Arguments app_access {C}.
Arguments lock_epoch {C}.
Arguments revision {C}.
Arguments sessions {C}.

(** ** Text of the session list *)

(** [bounded_metadata]. *)
Definition bounded_metadata (value : string) (limit : nat) : string :=
  string_of (concat (take limit (List.filter (fun c => negb (is_control c)) (chars (bytes_of value))))).

Section coordinator.
Context {C : Type} `{MonotonicClock C}.
Abbreviation S := (ApprovalState C).

(** ** Critical sections: state that survives an error *)
Definition M (A : Type) : Type := S -> LResult A * S.
#[export] Instance M_ret : MRet M := fun A a s => (Ok a, s).
#[export] Instance M_bind : MBind M := fun A B f m s =>
  match m s with (Ok a, s) => f a s | (Err e, s) => (Err e, s) end.
Definition throw {A} (e : LadonError) : M A := fun s => (Err e, s).
Definition lift {A} (r : LResult A) : M A := fun s => (r, s).
Definition get : M S := fun s => (Ok s, s).
Definition modify (f : S -> S) : M unit := fun s => (Ok tt, f s).
Definition require (b : bool) (e : LadonError) : M unit := if b then mret tt else throw e.

Definition set_grants (g : GrantStore C) (s : S) : S :=
  {| grants := g; vault_session_id := vault_session_id s; pending := pending s;
     client_labels := client_labels s; client_sessions := client_sessions s;
     sessions_closed := sessions_closed s; app_access := app_access s;
     lock_epoch := lock_epoch s; revision := revision s; sessions := sessions s |}.
Definition set_vault (v : option Uuid) (s : S) : S :=
  {| grants := grants s; vault_session_id := v; pending := pending s;
     client_labels := client_labels s; client_sessions := client_sessions s;
     sessions_closed := sessions_closed s; app_access := app_access s;
     lock_epoch := lock_epoch s; revision := revision s; sessions := sessions s |}.
Definition set_pending (p : option PendingState) (s : S) : S :=
  {| grants := grants s; vault_session_id := vault_session_id s; pending := p;
     client_labels := client_labels s; client_sessions := client_sessions s;
     sessions_closed := sessions_closed s; app_access := app_access s;
     lock_epoch := lock_epoch s; revision := revision s; sessions := sessions s |}.
Definition set_labels (m : gmap Uuid string) (s : S) : S :=
  {| grants := grants s; vault_session_id := vault_session_id s; pending := pending s;
     client_labels := m; client_sessions := client_sessions s;
     sessions_closed := sessions_closed s; app_access := app_access s;
     lock_epoch := lock_epoch s; revision := revision s; sessions := sessions s |}.
Definition set_clients (m : gmap Uuid Token) (d : gmap Uuid SessionDetails) (s : S) : S :=
  {| grants := grants s; vault_session_id := vault_session_id s; pending := pending s;
     client_labels := client_labels s; client_sessions := m;
     sessions_closed := sessions_closed s; app_access := app_access s;
     lock_epoch := lock_epoch s; revision := revision s; sessions := d |}.
Definition set_closed (b : bool) (s : S) : S :=
  {| grants := grants s; vault_session_id := vault_session_id s; pending := pending s;
     client_labels := client_labels s; client_sessions := client_sessions s;
     sessions_closed := b; app_access := app_access s;
     lock_epoch := lock_epoch s; revision := revision s; sessions := sessions s |}.
Definition set_access (a : AppAccessState) (epoch : Z) (s : S) : S :=
  {| grants := grants s; vault_session_id := vault_session_id s; pending := pending s;
     client_labels := client_labels s; client_sessions := client_sessions s;
     sessions_closed := sessions_closed s; app_access := a;
     lock_epoch := epoch; revision := revision s; sessions := sessions s |}.
Definition set_revision (r : Z) (s : S) : S :=
  {| grants := grants s; vault_session_id := vault_session_id s; pending := pending s;
     client_labels := client_labels s; client_sessions := client_sessions s;
     sessions_closed := sessions_closed s; app_access := app_access s;
     lock_epoch := lock_epoch s; revision := r; sessions := sessions s |}.

(** A call of a method of [state.grants]. *)
Definition query {A} (f : GrantStore C -> A * GrantStore C) : M A := fun s =>
  let '(a, g) := f (grants s) in (Ok a, set_grants g s).
Definition update (f : GrantStore C -> GrantStore C) : M unit := modify (fun s => set_grants (f (grants s)) s).

(** ** Helpers *)
Definition is_app_active (s : S) : bool := bool_decide (app_access s = Active).

Definition decide_pending (d : ApprovalDecision) (p : PendingState) : PendingState :=
  {| request := request p; requested_secret_ids := requested_secret_ids p; decision := Some d |}.

(** [state.pending.as_mut().filter(..)] followed by an assignment of the decision. *)
Definition decide_if (which : PendingState -> bool) (d : ApprovalDecision) (s : S) : S :=
  match pending s with
  | Some p => if which p then set_pending (Some (decide_pending d p)) s else s
  | None => s
  end.
Definition from_client (client : Uuid) (p : PendingState) : bool :=
  bool_decide (approval_client (request p) = client).

(** [purge_disconnected_clients], with the flags it finds set. *)
Definition purge_client (s : S) (client : Uuid) : S :=
  let s := set_clients (delete client (client_sessions s)) (sessions s) s in
  let s := set_grants (Grants.revoke_client client (grants s)) s in
  let s := set_labels (delete client (client_labels s)) s in
  let s := set_clients (client_sessions s) (delete client (sessions s)) s in
  decide_if (from_client client) Cancel s.
Definition disconnected (cancelled : gset Token) (s : S) : list Uuid :=
  (filter (fun ct => ct.2 ∈ cancelled) (map_to_list (client_sessions s))).*1.
Definition purge_disconnected_clients (cancelled : gset Token) : M unit :=
  modify (fun s => fold_left purge_client (disconnected cancelled s) s).

(** [prune_client_labels]. *)
Definition prune_client_labels : M unit :=
  active ← query Grants.active;
  let active_clients : gset Uuid := list_to_set (entry_client <$> active) in
  modify (fun s => set_labels (filter (fun kl => kl.1 ∈ active_clients) (client_labels s)) s).

(** [client_has_unattended]: the store is consulted for a connected client only. *)
Definition client_has_unattended (client : Uuid) : M bool :=
  s ← get;
  if bool_decide (is_Some (client_sessions s !! client)) then query (Grants.has_unattended client)
  else mret false.

(** [decision_for], [clear_pending] and [cancel_pending] (the free functions). *)
Definition decision_for (s : S) (id : Uuid) : option ApprovalDecision :=
  p ← pending s; if bool_decide (approval_id (request p) = id) then decision p else None.
Definition clear_pending (id : Uuid) : M unit :=
  s ← get;
  match pending s with
  | Some p => if bool_decide (approval_id (request p) = id)
              then modify (set_pending None);; prune_client_labels else mret tt
  | None => mret tt
  end.
Definition cancel_pending_state : M unit := modify (decide_if (fun _ => true) Cancel).

(** ** The methods of [ApprovalCoordinator] *)

(** [ApprovalCoordinator::new]. *)
Definition coordinator_new (c : C) (grant_lifetime : Duration) : S :=
  {| grants := grants_new c grant_lifetime; vault_session_id := None; pending := None;
     client_labels := ∅; client_sessions := ∅; sessions_closed := false; app_access := Active;
     lock_epoch := 0; revision := 0; sessions := ∅ |}.

(** What the first critical section of [authorize_with_wake] leads to. *)
Inductive Authorization : Type :=
| Allowed (ticket : GrantTicket)
| Waiting (id : Uuid) (ticket : GrantTicket).

(** The revocation of everything that belonged to another vault session. *)
Definition enter_vault (vault : Uuid) : M unit :=
  s ← get;
  if bool_decide (vault_session_id s = Some vault) then mret tt
  else update Grants.revoke_all;; modify (set_labels ∅);; modify (set_vault (Some vault)).

Definition is_empty {A} (l : list A) : bool := match l with [] => true | _ => false end.

(** [authorize_with_wake] while the app is not active. *)
Definition authorize_locked (r : PendingApproval) : M Authorization :=
  let ids := approval_secret_id <$> approval_secrets r in
  s ← get;
  require (bool_decide (vault_session_id s = Some (approval_vault r))) VaultLocked;;
  unattended ← client_has_unattended (approval_client r);
  require unattended VaultLocked;;
  missing ← query (Grants.missing_unattended (approval_client r) ids);
  require (is_empty missing) VaultLocked;;
  mret (Allowed {| ticket_vault := approval_vault r; ticket_client := approval_client r;
                   ticket_secrets := ids |}).

(** [authorize_with_wake] up to the release of the mutex before [wake]. *)
Definition authorize_begin (cancelled : gset Token) (r : PendingApproval) : M Authorization :=
  purge_disconnected_clients cancelled;;
  s ← get;
  if negb (is_app_active s) then authorize_locked r
  else
    require (bool_decide (pending s = None)) Busy;;
    enter_vault (approval_vault r);;
    modify (fun s => set_labels (<[approval_client r := approval_label r]> (client_labels s)) s);;
    let ids := approval_secret_id <$> approval_secrets r in
    let ticket := {| ticket_vault := approval_vault r; ticket_client := approval_client r;
                     ticket_secrets := first_occurrences ∅ ids |} in
    missing ← query (Grants.missing (approval_client r) ids);
    if is_empty missing then mret (Allowed ticket)
    else
      let r := {| approval_id := approval_id r; approval_vault := approval_vault r;
                  approval_client := approval_client r; approval_label := approval_label r;
                  approval_secrets := List.filter
                    (fun x => bool_decide (approval_secret_id x ∈ missing)) (approval_secrets r);
                  approval_executable := approval_executable r;
                  approval_arguments := approval_arguments r;
                  approval_directory := approval_directory r |} in
      modify (set_pending (Some {| request := r; requested_secret_ids := ticket_secrets ticket;
                                   decision := None |}));;
      mret (Waiting (approval_id r) ticket).

(** The grant of an approved request and its label. *)
Definition grant_pending (p : PendingState) (f : Uuid -> list SecretId -> GrantStore C -> GrantStore C) :
    M unit :=
  let client := approval_client (request p) in
  update (f client (approval_secret_id <$> approval_secrets (request p)));;
  modify (fun s => set_labels (<[client := approval_label (request p)]> (client_labels s)) s).

(** The arms of [match decision], after the pending request was taken.  [cancelled] are
    the flags set when the session is looked at. *)
Definition settle_decision (cancelled : gset Token) (p : PendingState) (d : ApprovalDecision)
    (ticket : GrantTicket) : M GrantTicket :=
  match d with
  | Granted =>
    missing ← query (Grants.missing (ticket_client ticket) (ticket_secrets ticket));
    require (is_empty missing) ApprovalCancelled;;
    mret ticket
  | Approve (Some lifetime) =>
    grant_pending p (fun client ids => Grants.grant_for client ids lifetime);; mret ticket
  | Approve None => grant_pending p Grants.grant;; mret ticket
  | ApproveUntil deadline =>
    grant_pending p (fun client ids => Grants.grant_until client ids deadline);; mret ticket
  | ApproveSession =>
    s ← get;
    require match client_sessions s !! approval_client (request p) with
            | Some token => bool_decide (token ∉ cancelled)
            | None => false
            end ApprovalCancelled;;
    grant_pending p Grants.grant_session;; mret ticket
  | Deny => prune_client_labels;; throw ApprovalDenied
  | Cancel => prune_client_labels;; throw ApprovalCancelled
  end.

(** One round of the loop of [authorize_with_wake]: the caller's own flag, the flags at
    the purge and later, and whether the deadline has passed.  [None] is another wait. *)
Definition authorize_poll (cancelled later : gset Token) (token : Token) (timed_out : bool)
    (id : Uuid) (ticket : GrantTicket) : M (option GrantTicket) :=
  purge_disconnected_clients cancelled;;
  if bool_decide (token ∈ later) then clear_pending id;; throw ApprovalCancelled
  else
    s ← get;
    match decision_for s id with
    | Some d =>
      p ← lift (ok_or (pending s) ProcessFailure);
      modify (set_pending None);;
      ticket ← settle_decision later p d ticket;
      mret (Some ticket)
    | None =>
      if timed_out then clear_pending id;; throw ApprovalTimeout else mret None
    end.

(** [register_client_session], with the connection identifier it draws. *)
Definition register_client_session (cancelled : gset Token) (connection : Uuid) (client : Uuid)
    (token : Token) : M unit :=
  purge_disconnected_clients cancelled;;
  s ← get;
  require (negb (sessions_closed s || bool_decide (is_Some (client_sessions s !! client))
                 || (MAX_TRACKED_SESSIONS <=? Z.of_nat (size (client_sessions s))))) Busy;;
  update (Grants.revoke_client client);;
  now ← query store_wall_time;
  modify (fun s => set_clients (client_sessions s) (<[client :=
    {| connection_id := connection; reported_name := "MCP client"; user_name := ""; note := "";
       session_directory := ""; last_action := "Connected"; connected_at := now;
       last_activity := now |}]> (sessions s)) s);;
  modify (fun s => set_clients (<[client := token]> (client_sessions s)) (sessions s) s).

(** [client_session_connected]. *)
Definition client_session_connected (cancelled : gset Token) (client : Uuid) : M bool :=
  purge_disconnected_clients cancelled;;
  s ← get;
  mret (bool_decide (is_Some (client_sessions s !! client))).

(** [close_client_sessions]: it sets every flag, and the purge finds them set. *)
Definition session_tokens (s : S) : gset Token := list_to_set (map_to_list (client_sessions s)).*2.
Definition close_client_sessions (cancelled : gset Token) : M (gset Token) :=
  modify (set_closed true);;
  s ← get;
  purge_disconnected_clients (cancelled ∪ session_tokens s);;
  mret (session_tokens s).

(** [ApprovalCoordinator::pending]. *)
Definition pending_request (cancelled : gset Token) : M (option PendingApproval) :=
  purge_disconnected_clients cancelled;;
  s ← get;
  mret (p ← pending s; if bool_decide (decision p = None) then Some (request p) else None).

Definition relabel (label : string) (p : PendingState) : PendingState :=
  let r := request p in
  {| request := {| approval_id := approval_id r; approval_vault := approval_vault r;
                   approval_client := approval_client r; approval_label := label;
                   approval_secrets := approval_secrets r;
                   approval_executable := approval_executable r;
                   approval_arguments := approval_arguments r;
                   approval_directory := approval_directory r |};
     requested_secret_ids := requested_secret_ids p; decision := decision p |}.

(** [observe_client]. *)
Definition observe_client (cancelled : gset Token) (client : Uuid) (label : string) : M unit :=
  purge_disconnected_clients cancelled;;
  now ← query store_wall_time;
  modify (fun s => set_clients (client_sessions s) (alter (fun d =>
    {| connection_id := connection_id d; reported_name := bounded_metadata label 128;
       user_name := user_name d; note := note d; session_directory := session_directory d;
       last_action := last_action d; connected_at := connected_at d; last_activity := now |})
    client (sessions s)) s);;
  active ← query Grants.active;
  s ← get;
  let owns_active_grant := existsb (fun e => bool_decide (entry_client e = client)) active in
  let has_pending_request :=
    match pending s with
    | Some p => bool_decide (decision p = None) && from_client client p
    | None => false
    end in
  (if owns_active_grant || has_pending_request then
     modify (fun s => match pending s with
                      | Some p => if from_client client p then set_pending (Some (relabel label p)) s else s
                      | None => s
                      end);;
     modify (fun s => set_labels (<[client := label]> (client_labels s)) s)
   else mret tt);;
  prune_client_labels.

(** [active_grants]. *)
Definition snapshot (labels : gmap Uuid string) (e : GrantEntry) : ActiveGrantSnapshot := {|
  snapshot_client := entry_client e;
  snapshot_label := default "MCP client" (labels !! entry_client e);
  snapshot_secret := entry_secret e;
  snapshot_remaining := entry_remaining e;
  snapshot_expires_with_session := entry_expires_with_session e;
  snapshot_unattended := entry_unattended e;
  snapshot_expires_at := entry_expires_at e;
|}.
Definition active_grants (cancelled : gset Token) : M (list ActiveGrantSnapshot) :=
  purge_disconnected_clients cancelled;;
  active ← query Grants.active;
  let active_clients : gset Uuid := list_to_set (entry_client <$> active) in
  modify (fun s => set_labels (filter (fun kl => kl.1 ∈ active_clients) (client_labels s)) s);;
  s ← get;
  mret (snapshot (client_labels s) <$> active).

(** [app_access_state] and [require_app_active]. *)
Definition app_access_state : M AppAccessState := s ← get; mret (app_access s).
Definition require_app_active : M unit := s ← get; require (is_app_active s) VaultLocked.

(** [begin_app_lock], [begin_auto_app_lock] and their [begin_app_lock_with_policy]. *)
Definition lock_grants (preserve : bool) : M unit :=
  if preserve then update Grants.retain_unattended;; prune_client_labels
  else update Grants.revoke_all;; modify (set_labels ∅).
Definition begin_app_lock_with_policy (preserve : bool) : M Z :=
  s ← get;
  require (is_app_active s) Busy;;
  epoch ← lift (ok_or (checked_add u64_max (lock_epoch s) 1) InvalidRequest);
  modify (set_access (Locking epoch) epoch);;
  cancel_pending_state;;
  lock_grants preserve;;
  mret epoch.
Definition begin_app_lock : M Z := begin_app_lock_with_policy false.
Definition begin_auto_app_lock : M Z := begin_app_lock_with_policy true.

(** [finish_app_lock], [unlock_app] and [reset_after_vault_lock]. *)
Definition finish_app_lock (epoch : Z) : M unit :=
  s ← get;
  require (bool_decide (app_access s = Locking epoch)) InvalidRequest;;
  modify (set_access (Locked epoch) (lock_epoch s)).
Definition unlock_app (epoch : Z) : M unit :=
  s ← get;
  require (bool_decide (app_access s = Locked epoch)) InvalidRequest;;
  modify (set_access Active (lock_epoch s)).
Definition reset_after_vault_lock : M unit :=
  s ← get;
  epoch ← lift (ok_or (checked_add u64_max (lock_epoch s) 1) InvalidRequest);
  modify (set_access Active epoch);;
  cancel_pending_state;;
  update Grants.revoke_all;;
  modify (set_labels ∅);;
  modify (set_vault None).

(** [set_decision], and the decisions a user takes. *)
Definition is_approval (d : ApprovalDecision) : bool :=
  match d with Approve _ | ApproveUntil _ | ApproveSession => true | _ => false end.
Definition set_decision (cancelled : gset Token) (id : Uuid) (d : ApprovalDecision) : M unit :=
  purge_disconnected_clients cancelled;;
  s ← get;
  (if bool_decide (d = ApproveSession) then
     p ← lift (ok_or (pending s) InvalidRequest);
     require (bool_decide (is_Some (client_sessions s !! approval_client (request p)))) ApprovalCancelled
   else mret tt);;
  p ← lift (ok_or (pending s) InvalidRequest);
  require (bool_decide (approval_id (request p) = id) && bool_decide (decision p = None)) InvalidRequest;;
  modify (set_pending (Some (decide_pending d p)));;
  if is_approval d then mret tt else prune_client_labels.
Definition approve (cancelled : gset Token) (id : Uuid) : M unit := set_decision cancelled id (Approve None).
Definition approve_for (cancelled : gset Token) (id : Uuid) (lifetime : Duration) : M unit :=
  set_decision cancelled id (Approve (Some lifetime)).
Definition approve_until (cancelled : gset Token) (id : Uuid) (deadline : SystemTime) : M unit :=
  set_decision cancelled id (ApproveUntil deadline).
Definition approve_session (cancelled : gset Token) (id : Uuid) : M unit := set_decision cancelled id ApproveSession.
Definition deny (cancelled : gset Token) (id : Uuid) : M unit := set_decision cancelled id Deny.

(** [state.revision.checked_add(1)] with its early return. *)
Definition next_revision : M unit :=
  s ← get;
  r ← lift (ok_or (checked_add u64_max (revision s) 1) InvalidRequest);
  modify (set_revision r).

(** [ApprovalCoordinator::cancel_pending]. *)
Definition cancel_pending : M unit :=
  s ← get;
  match pending s with
  | Some p => modify (set_pending (Some (decide_pending Cancel p)));; prune_client_labels
  | None => mret tt
  end.

(** [revoke_all], [revoke_pair] and [revoke_client]. *)
Definition revoke_all : M unit :=
  next_revision;; update Grants.revoke_all;; modify (set_labels ∅).
Definition revoke_pair (client : Uuid) (secret : SecretId) : M bool :=
  next_revision;;
  modify (decide_if (fun p => from_client client p
    && bool_decide (secret ∈ requested_secret_ids p)) Cancel);;
  revoked ← query (Grants.revoke_pair client secret);
  prune_client_labels;;
  mret revoked.
Definition revoke_client (client : Uuid) : M unit :=
  next_revision;;
  update (Grants.revoke_client client);;
  modify (decide_if (from_client client) Cancel);;
  prune_client_labels.

(** [coordinate_secret_mutation]: [prepare] and [commit] run under the mutex. *)
Definition coordinate_secret_mutation {P T} (secret : SecretId) (prepare : LResult P)
    (commit : P -> LResult T) : M T :=
  prepared ← lift prepare;
  next_revision;;
  modify (decide_if (fun p => bool_decide (secret ∈ requested_secret_ids p)) Cancel);;
  update (Grants.revoke_secret secret);;
  prune_client_labels;;
  lift (commit prepared).

(** [access_valid] of [with_valid_grant]: an active app, or unattended grants of a
    connected client for every secret of the ticket. *)
Definition access_valid (ticket : GrantTicket) : M bool :=
  s ← get;
  if is_app_active s then mret true
  else
    unattended ← client_has_unattended (ticket_client ticket);
    if (unattended : bool) then
      missing ← query (Grants.missing_unattended (ticket_client ticket) (ticket_secrets ticket));
      mret (is_empty missing)
    else mret false.

(** [with_valid_grant]: [operation] runs under the mutex. *)
Definition with_valid_grant {T} (cancelled : gset Token) (ticket : GrantTicket) (operation : LResult T) :
    M T :=
  purge_disconnected_clients cancelled;;
  valid ← access_valid ticket;
  require valid ApprovalCancelled;;
  s ← get;
  require (bool_decide (vault_session_id s = Some (ticket_vault ticket))) ApprovalCancelled;;
  missing ← query (Grants.missing (ticket_client ticket) (ticket_secrets ticket));
  require (is_empty missing) ApprovalCancelled;;
  lift operation.

(** [sessions], ordered by the time of connection and the client. *)
Definition session_order (a b : Uuid * SessionDetails) : Prop :=
  connected_at a.2 < connected_at b.2 \/ connected_at a.2 = connected_at b.2 /\ a.1 <= b.1.
#[export] Instance session_order_dec a b : Decision (session_order a b).
Proof. unfold session_order. apply _. Defined.
Definition list_sessions (cancelled : gset Token) : M (list (Uuid * SessionDetails)) :=
  purge_disconnected_clients cancelled;;
  s ← get;
  mret (merge_sort session_order (map_to_list (sessions s))).

(** [set_session_annotation_checked]. *)
Definition newline : bytes := [zb 10].
Definition annotation_invalid (name note : string) : bool :=
  (64 <? length (chars (bytes_of name)))%nat || (512 <? length (chars (bytes_of note)))%nat
  || existsb is_control (chars (bytes_of name))
  || existsb (fun c => is_control c && negb (bool_decide (c = newline))) (chars (bytes_of note)).
Definition set_session_annotation_checked (cancelled : gset Token) (client : Uuid)
    (connection : option Uuid) (name note : string) : M unit :=
  require (negb (annotation_invalid name note)) InvalidRequest;;
  purge_disconnected_clients cancelled;;
  s ← get;
  require (is_app_active s) VaultLocked;;
  d ← lift (ok_or (sessions s !! client) InvalidRequest);
  require match connection with Some c => bool_decide (c = connection_id d) | None => true end
    ApprovalCancelled;;
  modify (fun s => set_clients (client_sessions s) (<[client :=
    {| connection_id := connection_id d; reported_name := reported_name d; user_name := trim name;
       note := trim note; session_directory := session_directory d; last_action := last_action d;
       connected_at := connected_at d; last_activity := last_activity d |}]> (sessions s)) s).

(** [observe_run]. *)
Definition observe_run (client : Uuid) (project action : string) : M unit :=
  now ← query store_wall_time;
  modify (fun s => set_clients (client_sessions s) (alter (fun d =>
    {| connection_id := connection_id d; reported_name := reported_name d; user_name := user_name d;
       note := note d; session_directory := bounded_metadata project 512;
       last_action := bounded_metadata action 128; connected_at := connected_at d;
       last_activity := now |}) client (sessions s)) s).

(** [capture_unattended_with]; [snapshot] runs under the mutex. *)
Definition capture_unattended_with {T} (cancelled : gset Token) (client : Uuid)
    (snapshot : LResult (Uuid * T)) : M (UnattendedContext * T) :=
  purge_disconnected_clients cancelled;;
  s ← get;
  require (is_app_active s && bool_decide (is_Some (client_sessions s !! client))) ApprovalCancelled;;
  '(vault, value) ← lift snapshot;
  enter_vault vault;;
  s ← get;
  d ← lift (ok_or (sessions s !! client) ApprovalCancelled);
  mret ({| context_client := client; context_vault := vault; context_revision := revision s;
           context_epoch := lock_epoch s; context_connection := connection_id d;
           context_label := if bool_decide (user_name d = "") then reported_name d else user_name d |},
        value).

(** [grant_unattended]; [validate] runs under the mutex. *)
Definition context_current (s : S) (x : UnattendedContext) : bool :=
  is_app_active s && bool_decide (vault_session_id s = Some (context_vault x))
  && (lock_epoch s =? context_epoch x) && (revision s =? context_revision x)
  && bool_decide (is_Some (client_sessions s !! context_client x))
  && match sessions s !! context_client x with
     | Some d => bool_decide (connection_id d = context_connection x)
     | None => false
     end.
Definition grant_unattended (cancelled : gset Token) (x : UnattendedContext) (secrets : list SecretId)
    (deadline : SystemTime) (validate : LResult unit) : M unit :=
  purge_disconnected_clients cancelled;;
  now ← query store_wall_time;
  remaining ← lift (ok_or (duration_since deadline now) InvalidRequest);
  require (negb ((remaining =? 0) || (from_secs (24 * 3600) <? remaining) || is_empty secrets)) InvalidRequest;;
  s ← get;
  require (context_current s x) ApprovalCancelled;;
  lift validate;;
  update (Grants.grant_unattended_until (context_client x) secrets deadline);;
  modify (decide_if (fun p => from_client (context_client x) p && bool_decide (decision p = None)
    && forallb (fun id => bool_decide (id ∈ secrets)) (requested_secret_ids p)) Granted).

(** [require_client_access], [has_unattended] and [unattended_covers]. *)
Definition require_client_access (cancelled : gset Token) (client : Uuid) : M unit :=
  purge_disconnected_clients cancelled;;
  s ← get;
  if is_app_active s then mret tt
  else
    unattended ← client_has_unattended client;
    require unattended VaultLocked.
Definition has_unattended (cancelled : gset Token) (client : Uuid) : M bool :=
  purge_disconnected_clients cancelled;; client_has_unattended client.
Definition unattended_covers (cancelled : gset Token) (client : Uuid) (ids : list SecretId) : M bool :=
  purge_disconnected_clients cancelled;;
  unattended ← client_has_unattended client;
  if (unattended : bool) then
    missing ← query (Grants.missing_unattended client ids);
    mret (is_empty missing)
  else mret false.
End coordinator.
