(* ===== verification/ApprovalInvariant.v ===== *)
(** * What the approval coordinator guarantees

    Any interleaving of the coordinator's critical sections is a list of
    operations run one after the other.  Predicates on the state that every
    helper keeps are collected in [stable]; the operations that do more than
    that are treated one by one. *)

From S2P Require Import Prelude Errors Time Utf8 Text Model Grants Approval.
Local Open Scope Z_scope.

Create HintDb keeps.

Section critical_sections.
Context {C : Type} `{MonotonicClock C}.
Abbreviation S := (ApprovalState C).

(** What holds after a critical section: [Q] if it answers, [E] if it fails. *)
Definition wp {A} (m : M A) (Q : A -> S -> Prop) (E : S -> Prop) (s : S) : Prop :=
  match m s with (Ok a, s) => Q a s | (Err _, s) => E s end.

Lemma wp_bind {A B} (m : M A) (k : A -> M B) Q E s :
  wp m (fun a => wp (k a) Q E) E s -> wp (m ≫= k) Q E s.
Proof. unfold wp, mbind, M_bind. by destruct (m s) as [[a|e] s']. Qed.
Lemma wp_ret {A} (a : A) (Q : A -> S -> Prop) E s : Q a s -> wp (mret a) Q E s.
Proof. done. Qed.
Lemma wp_throw {A} e (Q : A -> S -> Prop) (E : S -> Prop) s : E s -> wp (throw e) Q E s.
Proof. done. Qed.
Lemma wp_get (Q : S -> S -> Prop) E s : Q s s -> wp get Q E s.
Proof. done. Qed.
Lemma wp_modify f (Q : unit -> S -> Prop) E s : Q tt (f s) -> wp (modify f) Q E s.
Proof. done. Qed.
Lemma wp_lift {A} (r : LResult A) (Q : A -> S -> Prop) (E : S -> Prop) s :
  (forall a, r = Ok a -> Q a s) -> E s -> wp (lift r) Q E s.
Proof. unfold wp, lift. destruct r; auto. Qed.
Lemma wp_require b e (Q : unit -> S -> Prop) (E : S -> Prop) s :
  (b = true -> Q tt s) -> E s -> wp (require b e) Q E s.
Proof. destruct b; unfold wp; cbn; auto. Qed.
Lemma wp_query {A} (f : GrantStore C -> A * GrantStore C) (Q : A -> S -> Prop) E s :
  Q (f (grants s)).1 (set_grants (f (grants s)).2 s) -> wp (query f) Q E s.
Proof. unfold wp, query. by destruct (f (grants s)). Qed.
Lemma wp_mono {A} (m : M A) (Q Q' : A -> S -> Prop) (E E' : S -> Prop) s :
  wp m Q E s -> (forall a s, Q a s -> Q' a s) -> (forall s, E s -> E' s) -> wp m Q' E' s.
Proof. unfold wp. destruct (m s) as [[a|e] s']; auto. Qed.

(** A critical section that keeps a predicate, whatever it answers. *)
Definition keeps {A} (P : S -> Prop) (m : M A) : Prop := forall s, P s -> wp m (fun _ => P) P s.

Lemma keeps_state {A} P (m : M A) s : keeps P m -> P s -> P (m s).2.
Proof. intros Hk Hs. specialize (Hk s Hs). unfold wp in Hk. by destruct (m s) as [[a|e] s']. Qed.
Lemma keeps_wp {A} P (m : M A) s : keeps P m -> P s -> wp m (fun _ => P) P s.
Proof. auto. Qed.
Lemma keeps_bind {A B} P (m : M A) (k : A -> M B) : keeps P m -> (forall a, keeps P (k a)) -> keeps P (m ≫= k).
Proof. intros Hm Hk s Hs. apply wp_bind. eapply wp_mono; [by apply Hm| |done]. intros a s' Hs'. by apply Hk. Qed.
Lemma keeps_ret {A} P (a : A) : keeps P (mret a).
Proof. intros s Hs. exact Hs. Qed.
Lemma keeps_throw {A} P e : keeps P (throw e : M A).
Proof. intros s Hs. exact Hs. Qed.
Lemma keeps_get P : keeps P get.
Proof. intros s Hs. exact Hs. Qed.
Lemma keeps_modify P f : (forall s, P s -> P (f s)) -> keeps P (modify f).
Proof. intros Hf s Hs. by apply Hf. Qed.
Lemma keeps_lift {A} P (r : LResult A) : keeps P (lift r).
Proof. intros s Hs. by apply wp_lift. Qed.
Lemma keeps_require P b e : keeps P (require b e).
Proof. intros s Hs. by apply wp_require. Qed.

(** A store with no other deadlines. *)
Definition shrinks (g g' : GrantStore C) : Prop :=
  forall k d, deadlines g' !! k = Some d -> deadlines g !! k = Some d.

Lemma op_shrinks o g :
  match o with
  | OpGrant _ _ | OpGrantFor _ _ _ | OpGrantUntil _ _ _ | OpGrantSession _ _ | OpGrantUnattended _ _ _ => False
  | _ => True
  end -> shrinks g (apply_op o g).
Proof.
  intros Ho [client s] d Hd. apply apply_op_lookup in Hd.
  destruct Hd as [Hd|[Hd _]]; [|done]. destruct o; done || by apply not_elem_of_nil in Hd.
Qed.

(** The same sessions over the same connections, whatever else is noted about them. *)
Definition same_connections (m m' : gmap Uuid SessionDetails) : Prop :=
  forall client, connection_id <$> m' !! client = connection_id <$> m !! client.

(** ** Predicates that every helper keeps *)
Record stable (P : S -> Prop) : Prop := {
  stable_grants s g : P s -> shrinks (grants s) g -> P (set_grants g s);
  stable_labels s m : P s -> P (set_labels m s);
  stable_purge s client : P s -> P (purge_client s client);
  stable_cancel s which : P s -> P (decide_if which Cancel s);
  stable_details s m : P s -> same_connections (sessions s) m -> P (set_clients (client_sessions s) m s);
  stable_relabel s label p : P s -> pending s = Some p -> P (set_pending (Some (relabel label p)) s);
  stable_vault s v : P s -> P (set_vault v s);
  stable_closed s b : P s -> P (set_closed b s);
  stable_revision s r : P s -> revision s <= r <= u64_max -> P (set_revision r s);
}.

Section helpers.
Context (P : S -> Prop) (stable_P : stable P).

Lemma keeps_query {A} (f : GrantStore C -> A * GrantStore C) o :
  (forall g, (f g).2 = apply_op o g) ->
  match o with
  | OpGrant _ _ | OpGrantFor _ _ _ | OpGrantUntil _ _ _ | OpGrantSession _ _ | OpGrantUnattended _ _ _ => False
  | _ => True
  end -> keeps P (query f).
Proof.
  intros Hf Ho s Hs. apply wp_query, stable_grants; [done..|]. rewrite Hf. by apply op_shrinks.
Qed.
Lemma keeps_update (f : GrantStore C -> GrantStore C) o :
  (forall g, f g = apply_op o g) ->
  match o with
  | OpGrant _ _ | OpGrantFor _ _ _ | OpGrantUntil _ _ _ | OpGrantSession _ _ | OpGrantUnattended _ _ _ => False
  | _ => True
  end -> keeps P (update f).
Proof. intros Hf Ho. apply keeps_modify. intros s Hs. apply stable_grants; [done..|]. rewrite Hf. by apply op_shrinks. Qed.

Lemma keeps_active : keeps P (query Grants.active).
Proof. by apply (keeps_query _ OpActive). Qed.
Lemma keeps_missing client ids : keeps P (query (Grants.missing client ids)).
Proof. by apply (keeps_query _ (OpMissing client ids)). Qed.
Lemma keeps_missing_unattended client ids : keeps P (query (Grants.missing_unattended client ids)).
Proof. by apply (keeps_query _ (OpMissingUnattended client ids)). Qed.
Lemma keeps_query_unattended client : keeps P (query (Grants.has_unattended client)).
Proof. by apply (keeps_query _ (OpHasUnattended client)). Qed.
Lemma keeps_wall_time : keeps P (query store_wall_time).
Proof. by apply (keeps_query _ OpWallTime). Qed.
Lemma keeps_query_pair client secret : keeps P (query (Grants.revoke_pair client secret)).
Proof. by apply (keeps_query _ (OpRevokePair client secret)). Qed.
Lemma keeps_update_all : keeps P (update Grants.revoke_all).
Proof. by apply (keeps_update _ OpRevokeAll). Qed.
Lemma keeps_update_client client : keeps P (update (Grants.revoke_client client)).
Proof. by apply (keeps_update _ (OpRevokeClient client)). Qed.
Lemma keeps_update_secret secret : keeps P (update (Grants.revoke_secret secret)).
Proof. by apply (keeps_update _ (OpRevokeSecret secret)). Qed.
Lemma keeps_update_retain : keeps P (update Grants.retain_unattended).
Proof. by apply (keeps_update _ OpRetainUnattended). Qed.

Lemma keeps_labels f : keeps P (modify (fun s => set_labels (f s) s)).
Proof. apply keeps_modify. intros. by apply stable_labels. Qed.
Lemma keeps_purge cancelled : keeps P (purge_disconnected_clients cancelled).
Proof.
  apply keeps_modify. intros s. generalize (disconnected cancelled s). intros l.
  revert s. induction l as [|client l IH]; intros s Hs; [done|]. cbn. by apply IH, stable_purge.
Qed.
Lemma keeps_prune : keeps P prune_client_labels.
Proof. apply keeps_bind; [apply keeps_active|]. intros active. apply keeps_labels. Qed.
Lemma keeps_unattended client : keeps P (client_has_unattended client).
Proof.
  apply keeps_bind; [apply keeps_get|]. intros s. case_bool_decide; [apply keeps_query_unattended|apply keeps_ret].
Qed.
Lemma keeps_unset : (forall s, P s -> P (set_pending None s)) -> keeps P (modify (set_pending None)).
Proof. apply keeps_modify. Qed.
Lemma keeps_cancel which : keeps P (modify (decide_if which Cancel)).
Proof. apply keeps_modify. intros s. by apply stable_cancel. Qed.
Lemma keeps_clear id : (forall s, P s -> P (set_pending None s)) -> keeps P (clear_pending id).
Proof.
  intros Hu. apply keeps_bind; [apply keeps_get|]. intros s. destruct (pending s) as [p|]; [|apply keeps_ret].
  case_bool_decide; [|apply keeps_ret]. apply keeps_bind; [by apply keeps_unset|intros _; apply keeps_prune].
Qed.
Lemma keeps_enter vault : keeps P (enter_vault vault).
Proof.
  apply keeps_bind; [apply keeps_get|]. intros s. case_bool_decide; [apply keeps_ret|].
  repeat (apply keeps_bind; [|intros _]); [apply keeps_update_all|apply keeps_labels|].
  apply keeps_modify. intros. by apply stable_vault.
Qed.
Lemma keeps_next_revision : keeps P next_revision.
Proof.
  intros s Hs. apply wp_bind, wp_get, wp_bind, wp_lift; [|done]. intros r Hr.
  apply ok_or_Ok, checked_add_Some in Hr as [-> ?]. apply wp_modify, stable_revision; [done..|lia].
Qed.
Lemma keeps_details f client :
  (forall d, connection_id (f d) = connection_id d) ->
  keeps P (modify (fun s => set_clients (client_sessions s) (alter f client (sessions s)) s)).
Proof.
  intros Hf. apply keeps_modify. intros s Hs. apply stable_details; [done..|]. intros i.
  destruct (decide (client = i)) as [->|]; [|by rewrite lookup_alter_ne].
  rewrite lookup_alter, decide_True by done. destruct (sessions s !! i); cbn; [by rewrite Hf|done].
Qed.
Lemma keeps_closed b : keeps P (modify (set_closed b)).
Proof. apply keeps_modify. intros. by apply stable_closed. Qed.
Lemma keeps_vault v : keeps P (modify (set_vault v)).
Proof. apply keeps_modify. intros. by apply stable_vault. Qed.
Lemma keeps_relabel client label :
  keeps P (modify (fun s => match pending s with
    | Some p => if from_client client p then set_pending (Some (relabel label p)) s else s
    | None => s
    end)).
Proof.
  apply keeps_modify. intros s Hs. destruct (pending s) as [p|] eqn:Hp; [|done].
  destruct (from_client client p); [by apply stable_relabel|done].
Qed.
Lemma keeps_cancel_pending : keeps P cancel_pending.
Proof.
  intros s Hs. apply wp_bind, wp_get. destruct (pending s) as [p|] eqn:Hp; [|done].
  apply wp_bind, wp_modify, keeps_prune. pose proof (stable_cancel P stable_P s (fun _ => true) Hs) as Hc.
  unfold decide_if in Hc. by rewrite Hp in Hc.
Qed.
Lemma keeps_annotation c client connection name note :
  keeps P (set_session_annotation_checked c client connection name note).
Proof.
  apply keeps_bind; [apply keeps_require|intros _]. apply keeps_bind; [apply keeps_purge|intros _].
  intros s Hs. apply wp_bind, wp_get, wp_bind, wp_require; [intros _|done].
  apply wp_bind, wp_lift; [|done]. intros d Hd%ok_or_Ok. apply wp_bind, wp_require; [intros _|done].
  apply wp_modify, stable_details; [done..|]. intros i.
  destruct (decide (client = i)) as [->|]; [|by rewrite lookup_insert_ne]. by rewrite lookup_insert_eq, Hd.
Qed.
End helpers.

(** A decision is taken on an undecided request with the given identifier. *)
Lemma set_decision_wp (P Q E : S -> Prop) c id d (s : S) :
  stable P -> P s -> (forall s, P s -> E s) ->
  (forall s p, P s -> pending s = Some p -> approval_id (request p) = id -> decision p = None ->
    wp (modify (set_pending (Some (decide_pending d p)));; if is_approval d then mret tt else prune_client_labels)
      (fun _ => Q) E s) ->
  wp (set_decision c id d) (fun _ => Q) E s.
Proof.
  intros HP Hs HE Hk. unfold set_decision. apply wp_bind.
  eapply wp_mono; [by apply (keeps_purge P HP)| |done]. clear s Hs. intros ? s Hs. cbn beta in Hs.
  apply wp_bind, wp_get, wp_bind.
  assert (Hrest : wp (p ← lift (ok_or (pending s) InvalidRequest);
      require (bool_decide (approval_id (request p) = id) && bool_decide (decision p = None)) InvalidRequest;;
      modify (set_pending (Some (decide_pending d p)));; if is_approval d then mret tt else prune_client_labels)
    (fun _ => Q) E s).
  { apply wp_bind, wp_lift; [|auto]. intros p Hp%ok_or_Ok. apply wp_bind, wp_require; [|auto].
    intros Hok. bool_hyps. by apply Hk. }
  case_bool_decide; [|exact Hrest]. apply wp_bind, wp_lift; [|auto]. intros p _. apply wp_require; auto.
Qed.
End critical_sections.

#[export] Hint Resolve keeps_ret keeps_throw keeps_get keeps_lift keeps_require keeps_active keeps_missing
  keeps_missing_unattended keeps_query_unattended keeps_wall_time keeps_query_pair keeps_update_all
  keeps_update_client keeps_update_secret keeps_update_retain keeps_labels keeps_purge keeps_prune
  keeps_unattended keeps_unset keeps_cancel keeps_clear keeps_enter keeps_next_revision keeps_details
  keeps_closed keeps_vault keeps_relabel keeps_cancel_pending keeps_annotation : keeps.

(** Takes a critical section apart into its steps, each of which keeps a stable predicate. *)
Ltac keeps :=
  repeat first
    [ progress intros
    | solve [auto with keeps]
    | apply keeps_bind
    | case_match
    | case_bool_decide ].

(** ** The operations *)
Inductive approval_op : Type :=
| OpAuthorize (cancelled : gset Token) (r : PendingApproval)
| OpPoll (cancelled later : gset Token) (token : Token) (timed_out : bool) (id : Uuid) (ticket : GrantTicket)
| OpRegister (cancelled : gset Token) (connection client : Uuid) (token : Token)
| OpConnected (cancelled : gset Token) (client : Uuid)
| OpClose (cancelled : gset Token)
| OpPending (cancelled : gset Token)
| OpObserve (cancelled : gset Token) (client : Uuid) (label : string)
| OpSnapshot (cancelled : gset Token)
| OpAccess (client : option Uuid) (cancelled : gset Token)
| OpBeginLock (preserve : bool)
| OpFinishLock (epoch : Z)
| OpUnlock (epoch : Z)
| OpReset
| OpDecide (cancelled : gset Token) (id : Uuid) (d : ApprovalDecision)
| OpCancelPending
| OpRevokeEverything
| OpRevoke (client : Uuid) (secret : SecretId)
| OpRevokeSession (client : Uuid)
| OpMutate (secret : SecretId) (prepared committed : LResult unit)
| OpUse (cancelled : gset Token) (ticket : GrantTicket) (operation : LResult unit)
| OpSessions (cancelled : gset Token)
| OpAnnotate (cancelled : gset Token) (client : Uuid) (connection : option Uuid) (name note : string)
| OpObserveRun (client : Uuid) (project action : string)
| OpCapture (cancelled : gset Token) (client : Uuid) (snapshot : LResult (Uuid * unit))
| OpUnattendedGrant (cancelled : gset Token) (x : UnattendedContext) (secrets : list SecretId)
    (deadline : SystemTime) (validate : LResult unit)
| OpUnattendedQuery (cancelled : gset Token) (client : Uuid) (ids : list SecretId).

Section operations.
Context {C : Type} `{MonotonicClock C}.
Abbreviation S := (ApprovalState C).

(** The critical section of an operation, its answer forgotten. *)
Definition run {A} (m : @M C A) : @M C unit := m;; mret tt.
Definition section (o : approval_op) : @M C unit :=
  match o with
  | OpAuthorize c r => run (authorize_begin c r)
  | OpPoll c l t timed_out id ticket => run (authorize_poll c l t timed_out id ticket)
  | OpRegister c connection client t => register_client_session c connection client t
  | OpConnected c client => run (client_session_connected c client)
  | OpClose c => run (close_client_sessions c)
  | OpPending c => run (pending_request c)
  | OpObserve c client label => observe_client c client label
  | OpSnapshot c => run (active_grants c)
  | OpAccess None _ => run app_access_state;; require_app_active
  | OpAccess (Some client) c => require_client_access c client
  | OpBeginLock preserve => run (begin_app_lock_with_policy preserve)
  | OpFinishLock epoch => finish_app_lock epoch
  | OpUnlock epoch => unlock_app epoch
  | OpReset => reset_after_vault_lock
  | OpDecide c id d => if is_approval d || bool_decide (d = Deny) then set_decision c id d else mret tt
  | OpCancelPending => cancel_pending
  | OpRevokeEverything => revoke_all
  | OpRevoke client secret => run (revoke_pair client secret)
  | OpRevokeSession client => revoke_client client
  | OpMutate secret prepared committed => coordinate_secret_mutation secret prepared (fun _ => committed)
  | OpUse c ticket operation => with_valid_grant c ticket operation
  | OpSessions c => run (list_sessions c)
  | OpAnnotate c client connection name note => set_session_annotation_checked c client connection name note
  | OpObserveRun client project action => observe_run client project action
  | OpCapture c client snapshot => run (capture_unattended_with c client snapshot)
  | OpUnattendedGrant c x secrets deadline validate => grant_unattended c x secrets deadline validate
  | OpUnattendedQuery c client ids => run (has_unattended c client);; run (unattended_covers c client ids)
  end.
Definition exec (s : S) (o : approval_op) : S := (section o s).2.
Definition exec_all (s : S) (ops : list approval_op) : S := fold_left exec ops s.

(** The operations that only do what a stable predicate allows. *)
Definition quiet (o : approval_op) : bool :=
  match o with
  | OpAuthorize _ _ | OpPoll _ _ _ _ _ _ | OpRegister _ _ _ _ | OpBeginLock _ | OpFinishLock _
  | OpUnlock _ | OpReset | OpDecide _ _ _ | OpUnattendedGrant _ _ _ _ _ => false
  | _ => true
  end.

Lemma quiet_keeps (P : S -> Prop) o : stable P -> quiet o = true -> keeps P (section o).
Proof.
  intros HP Ho. destruct o; try discriminate Ho; unfold section, run,
    client_session_connected, close_client_sessions, pending_request, observe_client, active_grants,
    app_access_state, require_app_active, require_client_access, revoke_all, revoke_pair,
    revoke_client, coordinate_secret_mutation, with_valid_grant, access_valid, list_sessions,
    observe_run, capture_unattended_with, has_unattended,
    unattended_covers.
  all: keeps.
Qed.
End operations.

(** ** Where a grant comes from *)
Definition secret_ids (r : PendingApproval) : list SecretId := approval_secret_id <$> approval_secrets r.

(** A request in the history, and the decision on it after it. *)
Definition requested (h : list approval_op) (p : PendingState) : Prop :=
  exists h1 c r h2, h = h1 ++ OpAuthorize c r :: h2 /\
    approval_id (request p) = approval_id r /\ approval_client (request p) = approval_client r /\
    (forall s, s ∈ secret_ids (request p) -> s ∈ secret_ids r) /\
    (forall d, decision p = Some d -> is_approval d = true -> exists c', OpDecide c' (approval_id r) d ∈ h2).

(** The user let the client use the secret: by approving a request of that client for that
    secret after it was made, or by an unattended grant. *)
Definition authorised (h : list approval_op) (client : Uuid) (secret : SecretId) : Prop :=
  (exists h1 c r h2 c' d, h = h1 ++ OpAuthorize c r :: h2 /\ OpDecide c' (approval_id r) d ∈ h2 /\
     is_approval d = true /\ approval_client r = client /\ secret ∈ secret_ids r) \/
  (exists c x secrets deadline v, OpUnattendedGrant c x secrets deadline v ∈ h /\
     context_client x = client /\ secret ∈ secrets).

Lemma requested_app h o p : requested h p -> requested (h ++ [o]) p.
Proof.
  intros (h1 & c & r & h2 & -> & Hi & Hc & Hs & Hd). exists h1, c, r, (h2 ++ [o]).
  rewrite <- app_assoc. split_and!; try done. intros d Hdec Ha.
  destruct (Hd d Hdec Ha) as [c' Hin]. exists c'. set_solver.
Qed.
Lemma authorised_app h o client secret : authorised h client secret -> authorised (h ++ [o]) client secret.
Proof.
  intros [(h1 & c & r & h2 & c' & d & -> & Hin & ?)|(c & x & l & dl & v & Hin & ?)]; [left|right].
  - exists h1, c, r, (h2 ++ [o]), c', d. rewrite <- app_assoc. split; [done|]. split; [set_solver|done].
  - exists c, x, l, dl, v. split; [set_solver|done].
Qed.

Section provenance.
Context {C : Type} `{MonotonicClock C}.
Abbreviation S := (ApprovalState C).

(** A pending request that was decided against. *)
Definition spent (p : PendingState) : Prop := exists d, decision p = Some d /\ is_approval d = false.

Record justified (h : list approval_op) (s : S) : Prop := {
  justified_pending p : pending s = Some p -> spent p \/ requested h p;
  justified_grants client secret d :
    deadlines (grants s) !! (client, secret) = Some d -> authorised h client secret;
}.

Lemma justified_same h (s s' : S) :
  pending s' = pending s -> grants s' = grants s -> justified h s -> justified h s'.
Proof. intros Hp Hg [Jp Jg]. split; [by rewrite Hp|by rewrite Hg]. Qed.

Lemma justified_decide h (s : S) which d :
  is_approval d = false -> justified h s -> justified h (decide_if which d s).
Proof.
  intros Hd Js. unfold decide_if. destruct (pending s) as [p|] eqn:Hp; [|done].
  destruct (which p); [|done]. destruct Js as [Jp Jg]. split; [|done]. cbn. intros p' [= <-].
  left. by exists d.
Qed.

Lemma justified_shrink h (s : S) g : justified h s -> shrinks (grants s) g -> justified h (set_grants g s).
Proof. intros [Jp Jg] Hg. split; [done|]. intros client secret d Hd. eapply Jg, Hg, Hd. Qed.

Lemma justified_stable h : stable (C := C) (justified h).
Proof.
  split.
  - apply justified_shrink.
  - intros s m. by apply justified_same.
  - intros s client [Jp Jg]. apply justified_decide; [done|]. split; [exact Jp|].
    intros cl secret d Hd. by eapply Jg, (op_shrinks (OpRevokeClient client) (grants s)).
  - intros s which. by apply justified_decide.
  - intros s m Js _. by eapply justified_same, Js.
  - intros s label p [Jp Jg] Hp. split; [|done]. cbn. intros p' [= <-]. exact (Jp p Hp).
  - intros s v. by apply justified_same.
  - intros s b. by apply justified_same.
  - intros s r Js _. by eapply justified_same, Js.
Qed.

Lemma justified_unset h (s : S) : justified h s -> justified h (set_pending None s).
Proof. intros [Jp Jg]. by split. Qed.
#[local] Hint Resolve justified_unset : keeps.

(** A new grant for pairs that are authorised. *)
Lemma justified_grant h (s : S) f o client ids :
  (forall g, f g = apply_op o g) -> (forall cl, granted_ids o cl = if bool_decide (client = cl) then ids else []) ->
  (forall secret, secret ∈ ids -> authorised h client secret) ->
  justified h s -> justified h (set_grants (f (grants s)) s).
Proof.
  intros Hf Ho Hids [Jp Jg]. split; [done|]. cbn. rewrite Hf. intros cl secret d [Hd|(Hd & _)]%apply_op_lookup.
  - rewrite Ho in Hd. case_bool_decide as Hc; [subst; auto|by apply not_elem_of_nil in Hd].
  - by eapply Jg.
Qed.

Lemma justified_settle h cancelled p d ticket :
  spent p \/ requested h p -> decision p = Some d ->
  keeps (C := C) (justified h) (settle_decision cancelled p d ticket).
Proof.
  intros [(d' & Hd' & Hno)|(h1 & c & r & h2 & -> & Hi & Hc & Hs & Hdec)] Hd.
  { pose proof (justified_stable h) as Hst. rewrite Hd in Hd'. injection Hd' as <-.
    destruct d; try discriminate Hno; cbn [settle_decision]; keeps. }
  pose proof (justified_stable (h1 ++ OpAuthorize c r :: h2)) as Hst.
  assert (Hgrant : is_approval d = true -> forall f o,
    (forall g, f (approval_client (request p)) (secret_ids (request p)) g = apply_op o g) ->
    (forall cl, granted_ids o cl = if bool_decide (approval_client (request p) = cl) then secret_ids (request p) else []) ->
    keeps (C := C) (justified (h1 ++ OpAuthorize c r :: h2)) (grant_pending p f)).
  { intros Ha f o Hf Ho. unfold grant_pending. apply keeps_bind.
    - apply keeps_modify. intros s. eapply justified_grant; [done..|]. intros secret Hsec. left.
      destruct (Hdec d Hd Ha) as [c' Hin]. exists h1, c, r, h2, c', d. split_and!; try done. by apply Hs.
    - intros _. apply keeps_modify. intros s. by apply justified_same. }
  destruct d as [[l|]|dl| | | |]; cbn [settle_decision].
  - apply keeps_bind; [|intros; apply keeps_ret]. by apply (Hgrant eq_refl _ (OpGrantFor (approval_client (request p)) (secret_ids (request p)) l)).
  - apply keeps_bind; [|intros; apply keeps_ret]. by apply (Hgrant eq_refl _ (OpGrant (approval_client (request p)) (secret_ids (request p)))).
  - apply keeps_bind; [|intros; apply keeps_ret]. by apply (Hgrant eq_refl _ (OpGrantUntil (approval_client (request p)) (secret_ids (request p)) dl)).
  - apply keeps_bind; [apply keeps_get|]. intros s. apply keeps_bind; [apply keeps_require|]. intros _.
    apply keeps_bind; [|intros; apply keeps_ret]. by apply (Hgrant eq_refl _ (OpGrantSession (approval_client (request p)) (secret_ids (request p)))).
  - keeps.
  - keeps.
  - keeps.
Qed.

Lemma justified_app h o (s : S) : justified h s -> justified (h ++ [o]) s.
Proof.
  intros [Jp Jg]. split; [|by intros; eapply authorised_app, Jg].
  intros p [?|?]%Jp; [by left|right; by apply requested_app].
Qed.

Lemma keeps_same h (f : S -> S) :
  (forall s, pending (f s) = pending s /\ grants (f s) = grants s) -> keeps (justified h) (modify f).
Proof. intros Hf. apply keeps_modify. intros s Js. destruct (Hf s). by eapply justified_same. Qed.

Lemma justified_authorize h c c' r : keeps (C := C) (justified (h ++ [OpAuthorize c' r])) (authorize_begin c r).
Proof.
  pose proof (justified_stable (h ++ [OpAuthorize c' r])). unfold authorize_begin, authorize_locked. keeps.
  apply keeps_modify. intros s Js. split; [|apply Js]. cbn. intros p [= <-]. right.
  exists h, c', r, []. split_and!; try done. cbn. intros x.
  unfold secret_ids. cbn [approval_secrets]. rewrite !list_elem_of_fmap.
  intros (y & -> & Hy). exists y. split; [done|].
  apply list_elem_of_In, filter_In in Hy as [Hy _]. by apply list_elem_of_In.
Qed.

Lemma decision_for_Some (s : S) id d :
  decision_for s id = Some d ->
  exists p, pending s = Some p /\ approval_id (request p) = id /\ decision p = Some d.
Proof.
  unfold decision_for. destruct (pending s) as [p|]; [|done]. cbn.
  case_bool_decide; [|done]. by exists p.
Qed.

Lemma justified_poll h c l t timed_out id ticket :
  keeps (C := C) (justified h) (authorize_poll c l t timed_out id ticket).
Proof.
  pose proof (justified_stable h) as Hst. unfold authorize_poll. apply keeps_bind; [by apply keeps_purge|intros _].
  case_bool_decide; [keeps|]. intros s Js. apply wp_bind, wp_get.
  destruct (decision_for s id) as [d|] eqn:Hd; [|apply keeps_wp; [destruct timed_out; keeps|done]].
  apply decision_for_Some in Hd as (p & Hp & _ & Hd). apply wp_bind, wp_lift; [|done].
  intros p' Hp'%ok_or_Ok. rewrite Hp in Hp'. injection Hp' as <-. apply wp_bind, wp_modify.
  apply keeps_wp; [|by apply justified_unset]. apply keeps_bind; [|intros; apply keeps_ret].
  by apply justified_settle; [apply Js|].
Qed.

Lemma requested_decide h c id d p :
  requested h p -> approval_id (request p) = id -> requested (h ++ [OpDecide c id d]) (decide_pending d p).
Proof.
  intros (h1 & c' & r & h2 & -> & Hi & Hc & Hs & _) Hid. exists h1, c', r, (h2 ++ [OpDecide c id d]).
  rewrite <- app_assoc. split_and!; try done. cbn. intros d' [= <-] _. exists c. rewrite <- Hi, Hid. set_solver.
Qed.

Lemma justified_set_decision h c id d (s : S) :
  justified h s -> wp (set_decision c id d) (fun _ => justified (h ++ [OpDecide c id d]))
    (justified (h ++ [OpDecide c id d])) s.
Proof.
  intros Js. apply (set_decision_wp (justified h)); [apply justified_stable|done|by apply justified_app|].
  clear Js s. intros s p Js Hp Hid Hd. pose proof (justified_app h (OpDecide c id d) s Js) as Js'.
  pose proof (justified_stable (h ++ [OpDecide c id d])) as Hst.
  apply wp_bind, wp_modify, keeps_wp; [destruct (is_approval d); keeps|].
  split; [|apply Js']. cbn. intros p' [= <-]. right. apply requested_decide; [|done].
  destruct (justified_pending _ _ Js p Hp) as [(d' & Hd' & _)|Hr]; [congruence|done].
Qed.

Lemma justified_register h c connection client t :
  keeps (C := C) (justified h) (register_client_session c connection client t).
Proof. pose proof (justified_stable h). unfold register_client_session. keeps; by apply keeps_same. Qed.
Lemma justified_reset h : keeps (C := C) (justified h) reset_after_vault_lock.
Proof. pose proof (justified_stable h). unfold reset_after_vault_lock, cancel_pending_state. keeps; by apply keeps_same. Qed.

Lemma justified_step h (s : S) o : justified h s -> justified (h ++ [o]) (exec s o).
Proof.
  intros Js. pose proof (justified_app h o s Js) as Js'. pose proof (justified_stable (h ++ [o])) as Hst.
  unfold exec. destruct (quiet o) eqn:Hq; [by apply keeps_state; [apply quiet_keeps|]|].
  destruct o; try discriminate Hq; cbn [section]; unfold run.
  - apply keeps_state; [|done]. apply keeps_bind; [apply justified_authorize|intros; apply keeps_ret].
  - apply keeps_state; [|done]. apply keeps_bind; [apply justified_poll|intros; apply keeps_ret].
  - apply keeps_state; [|done]. apply justified_register.
  - apply keeps_state; [|done]. unfold begin_app_lock_with_policy, lock_grants, cancel_pending_state. keeps; by apply keeps_same.
  - apply keeps_state; [|done]. unfold finish_app_lock. keeps; by apply keeps_same.
  - apply keeps_state; [|done]. unfold unlock_app. keeps; by apply keeps_same.
  - apply keeps_state; [|done]. apply justified_reset.
  - destruct (is_approval d || bool_decide (d = Deny)); [|done].
    pose proof (justified_set_decision h cancelled id d s Js) as Hd. unfold wp in Hd.
    by destruct (set_decision cancelled id d s) as [[]].
  - apply keeps_state; [|done]. unfold grant_unattended. keeps.
    + apply keeps_modify. intros s'. apply (justified_grant _ _ _ (OpGrantUnattended (context_client x) secrets deadline)
        (context_client x) secrets); [done|done|]. intros secret Hs. right.
      exists cancelled, x, secrets, deadline, validate. split_and!; [set_solver|done|done].
    + apply keeps_modify. intros s'. by apply justified_decide.
Qed.

(** A state in which nothing is granted or about to be. *)
Definition cleared (s : S) : Prop := deadlines (grants s) = ∅ /\ forall p, pending s = Some p -> spent p.

Lemma justified_history (s0 : S) ops : cleared s0 -> justified ops (exec_all s0 ops).
Proof.
  intros [Hg Hp]. unfold exec_all. induction ops as [|o ops IH] using rev_ind.
  - split; [by left; apply Hp|]. cbn. intros client secret d. by rewrite Hg, lookup_empty.
  - rewrite fold_left_app. by apply justified_step.
Qed.

Lemma cleared_new (c : C) lifetime : cleared (coordinator_new c lifetime).
Proof. done. Qed.
End provenance.

(** ** The invariant of the coordinator *)
Section invariant.
Context {C : Type} `{MonotonicClock C}.
Abbreviation S := (ApprovalState C).

(** While the app is not active no attended grant is left and a pending request is
    cancelled. *)
Definition only_unattended (s : S) : Prop :=
  forall k d, deadlines (grants s) !! k = Some d -> is_unattended d = true.
Definition pending_cancelled (s : S) : Prop := forall p, pending s = Some p -> decision p = Some Cancel.

Record consistent (s : S) : Prop := {
  consistent_connected client secret d :
    deadlines (grants s) !! (client, secret) = Some d -> d = Session \/ is_unattended d = true ->
    is_Some (client_sessions s !! client);
  consistent_sessions : dom (sessions s) = dom (client_sessions s);
  consistent_size : Z.of_nat (size (client_sessions s)) <= MAX_TRACKED_SESSIONS;
  consistent_epoch : match app_access s with Active => True | Locking e | Locked e => e = lock_epoch s end;
  consistent_counters : 0 <= lock_epoch s <= u64_max /\ 0 <= revision s <= u64_max;
}.

Record coordinator_ok (s : S) : Prop := {
  ok_consistent : consistent s;
  ok_locked : app_access s <> Active -> only_unattended s /\ pending_cancelled s;
}.

Lemma stable_and (P Q : S -> Prop) : stable P -> stable Q -> stable (fun s => P s /\ Q s).
Proof. intros [] []. split; intros; naive_solver. Qed.

Lemma same_connections_dom m m' : same_connections m m' -> dom m' = dom m.
Proof.
  intros Hs. apply set_eq. intros i. specialize (Hs i). rewrite !elem_of_dom, <- !(fmap_is_Some connection_id).
  by rewrite Hs.
Qed.

Lemma consistent_shrink (s : S) g : consistent s -> shrinks (grants s) g -> consistent (set_grants g s).
Proof. intros [] Hg. split; try done. intros client secret d Hd. cbn in Hd. by eapply consistent_connected0, Hg. Qed.

Lemma consistent_decide_if which d (s : S) : consistent s -> consistent (decide_if which d s).
Proof.
  intros Cs. unfold decide_if. destruct (pending s) as [p|]; [|done].
  destruct (which p); [|done]. destruct Cs. by split.
Qed.

Lemma consistent_purge (s : S) client : consistent s -> consistent (purge_client s client).
Proof.
  intros [Hc Hs Hz He Hn]. apply consistent_decide_if. split; cbn; try done.
  - intros cl secret d [Hd Hne]%map_lookup_filter_Some Hk. cbn in Hne.
    rewrite lookup_delete_ne by done. by eapply Hc.
  - by rewrite !dom_delete_L, Hs.
  - rewrite map_size_delete. destruct (client_sessions s !! client); unfold id; lia.
Qed.

Lemma consistent_stable : stable consistent.
Proof.
  split.
  - apply consistent_shrink.
  - intros s m []. by split.
  - apply consistent_purge.
  - intros s which. by apply consistent_decide_if.
  - intros s m [Hc Hs Hz He Hn] Hm. split; try done. cbn. by rewrite (same_connections_dom _ _ Hm).
  - intros s label p [] _. by split.
  - intros s v []. by split.
  - intros s b []. by split.
  - intros s r [Hc Hs Hz He Hn] Hr. split; try done. cbn. lia.
Qed.

Lemma pending_decide_if which d (s : S) p :
  pending (decide_if which d s) = Some p -> exists q, pending s = Some q /\ (p = q \/ p = decide_pending d q).
Proof.
  unfold decide_if. destruct (pending s) as [q|] eqn:Hq; [|congruence].
  destruct (which q); cbn; rewrite ?Hq; naive_solver.
Qed.

Lemma pending_cancelled_stable : stable pending_cancelled.
Proof.
  split; try done.
  - intros s client Hc p (q & Hq & Hp)%pending_decide_if. cbn in Hq. destruct Hp as [->| ->]; [by apply Hc|done].
  - intros s which Hc p (q & Hq & Hp)%pending_decide_if. destruct Hp as [->| ->]; [by apply Hc|done].
  - intros s label p Hc Hp q [= <-]. by apply (Hc p).
Qed.

Lemma grants_decide_if which d (s : S) : grants (decide_if which d s) = grants s.
Proof. unfold decide_if. destruct (pending s) as [p|]; [|done]. by destruct (which p). Qed.

Lemma only_unattended_stable : stable only_unattended.
Proof.
  split; try done.
  - intros s g Ho Hg k d Hd. by eapply Ho, Hg.
  - intros s client Ho k d Hd. unfold purge_client in Hd. rewrite grants_decide_if in Hd.
    cbn in Hd. apply map_lookup_filter_Some in Hd as [Hd _]. by eapply Ho.
  - intros s which Ho k d Hd. rewrite grants_decide_if in Hd. by eapply Ho.
Qed.

Lemma access_decide_if which d (s : S) : app_access (decide_if which d s) = app_access s.
Proof. unfold decide_if. destruct (pending s) as [p|]; [|done]. by destruct (which p). Qed.

Lemma access_stable (R : AppAccessState -> Prop) : stable (fun s : S => R (app_access s)).
Proof.
  split; try done.
  - intros s client Ha. unfold purge_client. by rewrite access_decide_if.
  - intros s which Ha. by rewrite access_decide_if.
Qed.

Lemma stable_or (P Q : S -> Prop) : stable P -> stable Q -> stable (fun s => P s \/ Q s).
Proof. intros [] []. split; intros; naive_solver. Qed.

Lemma stable_iff (P Q : S -> Prop) : (forall s, Q s <-> P s) -> stable P -> stable Q.
Proof.
  intros HPQ [Hg Hl Hp Hc Hd Hr Hv Hcl]. split; setoid_rewrite HPQ; auto.
Qed.

(** The invariant, by cases on the access state. *)
Lemma coordinator_ok_cases (s : S) :
  coordinator_ok s <-> consistent s /\ (app_access s = Active \/ app_access s <> Active /\ only_unattended s /\ pending_cancelled s).
Proof.
  split.
  - intros [Hc Hl]. split; [done|]. destruct (decide (app_access s = Active)); [by left|right]. auto.
  - intros [Hc Hl]. split; [done|]. tauto.
Qed.

Lemma coordinator_ok_stable : stable coordinator_ok.
Proof.
  eapply stable_iff; [apply coordinator_ok_cases|].
  apply stable_and; [apply consistent_stable|]. apply stable_or; [apply (access_stable (fun a => a = Active))|].
  apply stable_and; [apply (access_stable (fun a => a <> Active))|].
  apply stable_and; [apply only_unattended_stable|apply pending_cancelled_stable].
Qed.

Lemma coordinator_ok_unset (s : S) : coordinator_ok s -> coordinator_ok (set_pending None s).
Proof. intros [[] Hl]. split; [by split|]. intros Ha. by destruct (Hl Ha). Qed.
#[local] Hint Resolve coordinator_ok_unset : keeps.

Definition ok_active (s : S) : Prop := coordinator_ok s /\ app_access s = Active.
Lemma ok_active_stable : stable ok_active.
Proof. apply stable_and; [apply coordinator_ok_stable|apply (access_stable (fun a => a = Active))]. Qed.

Lemma is_app_active_true (s : S) : is_app_active s = true <-> app_access s = Active.
Proof. apply bool_decide_eq_true. Qed.

(** A critical section entered while the app is active, of which the invariant is kept. *)
Lemma keeps_active_ok {A} (m : M A) (s : S) :
  keeps ok_active m -> coordinator_ok s -> app_access s = Active ->
  wp m (fun _ => coordinator_ok) coordinator_ok s.
Proof.
  intros Hm Hs Ha. eapply wp_mono; [by apply (Hm s)|by intros ? ? []|by intros ? []].
Qed.

Lemma ok_active_pending (s : S) p : ok_active s -> ok_active (set_pending p s).
Proof. intros [[[] Hl] Ha]. by split; [split; [split|]|]. Qed.

Lemma ok_authorize c r : keeps coordinator_ok (authorize_begin c r).
Proof.
  pose proof coordinator_ok_stable as Hst. unfold authorize_begin. apply keeps_bind; [by apply keeps_purge|].
  intros _ s Hs. apply wp_bind, wp_get. destruct (is_app_active s) eqn:Ha; cbn [negb].
  - apply is_app_active_true in Ha. apply keeps_active_ok; [|done..].
    pose proof ok_active_stable as Hst'. keeps. apply keeps_modify. intros. by apply ok_active_pending.
  - apply keeps_wp; [|done]. unfold authorize_locked. keeps.
Qed.

(** A grant made while the app is active, whose session deadlines belong to connected clients. *)
Lemma ok_active_grant (s : S) g :
  ok_active s ->
  (forall client secret d, deadlines g !! (client, secret) = Some d ->
    deadlines (grants s) !! (client, secret) = Some d \/
    (d = Session \/ is_unattended d = true -> is_Some (client_sessions s !! client))) ->
  ok_active (set_grants g s).
Proof.
  intros [[[Hc Hs Hz He Hn] Hl] Ha] Hg. split; [|done]. split; [|by cbn].
  split; try done. cbn. intros client secret d Hd Hk. destruct (Hg client secret d Hd) as [Hold|Hnew]; eauto.
Qed.

Lemma insert_all_cases (client : Uuid) (ids : list SecretId) (d d' : GrantDeadline)
    (m m' : gmap (Uuid * SecretId) GrantDeadline) (k : Uuid * SecretId) :
  (forall k d, m !! k = Some d -> m' !! k = Some d) ->
  insert_all client ids d m !! k = Some d' -> m' !! k = Some d' \/ k.1 = client /\ d' = d.
Proof.
  intros Hm. destruct k as [cl s]. rewrite insert_all_lookup. case_bool_decide as Hc.
  - intros [= <-]. right. by destruct Hc.
  - intros Hd. left. auto.
Qed.

Lemma keeps_grant_pending p (f : Uuid -> list SecretId -> GrantStore C -> GrantStore C) :
  (forall s : S, ok_active s -> forall ids client secret d,
    deadlines (f (approval_client (request p)) ids (grants s)) !! (client, secret) = Some d ->
    deadlines (grants s) !! (client, secret) = Some d \/
    (d = Session \/ is_unattended d = true -> is_Some (client_sessions s !! client))) ->
  keeps ok_active (grant_pending p f).
Proof.
  intros Hf. unfold grant_pending. apply keeps_bind.
  - apply keeps_modify. intros s Hs. apply ok_active_grant; [done|]. by apply Hf.
  - intros _. apply keeps_modify. intros s. apply stable_labels, ok_active_stable.
Qed.

(** The deadlines the grant operations write. *)
Lemma timed_grant client ids lifetime (g : GrantStore C) k d :
  deadlines (Grants.grant_for client ids lifetime g) !! k = Some d ->
  deadlines g !! k = Some d \/ exists e, d = Elapsed e.
Proof.
  unfold Grants.grant_for. cbn. intros [Hd|[_ ->]]%(insert_all_cases _ _ _ _ _ (deadlines g)); eauto using purge_sub.
Qed.

Lemma keeps_settle cancelled p d ticket :
  d <> Granted -> keeps ok_active (settle_decision cancelled p d ticket).
Proof.
  intros Hd. pose proof ok_active_stable as Hst. destruct d as [[l|]|dl| | | |]; cbn [settle_decision]; try done.
  - apply keeps_bind; [|intros; apply keeps_ret]. apply keeps_grant_pending. intros s _ ids cl sec d'.
    intros [?|[e ->]]%timed_grant; [by left|right]. by intros [|].
  - apply keeps_bind; [|intros; apply keeps_ret]. apply keeps_grant_pending. intros s _ ids cl sec d'.
    intros [?|[e ->]]%timed_grant; [by left|right]. by intros [|].
  - apply keeps_bind; [|intros; apply keeps_ret]. apply keeps_grant_pending. intros s _ ids cl sec d'. cbn.
    intros [?|[_ ->]]%(insert_all_cases _ _ _ _ _ (deadlines (grants s))); [by left|right|by apply purge_sub].
    by intros [|].
  - intros s Hs. apply wp_bind, wp_get, wp_bind, wp_require; [|done]. intros Hc. apply wp_bind.
    set (client := approval_client (request p)) in *.
    assert (Hin : is_Some (client_sessions s !! client)) by (destruct (client_sessions s !! client); [by eexists|done]).
    unfold grant_pending. apply wp_bind, wp_modify, wp_modify, wp_ret. fold client.
    apply stable_labels; [done|]. apply ok_active_grant; [done|]. intros cl sec d'. cbn.
    intros [?|[Hcl ->]]%(insert_all_cases _ _ _ _ _ (deadlines (grants s))); [by left| |by apply purge_sub].
    right. intros _. cbn in Hcl. by rewrite Hcl.
  - keeps.
  - keeps.
Qed.

Lemma ok_poll c l t timed_out id ticket : keeps coordinator_ok (authorize_poll c l t timed_out id ticket).
Proof.
  pose proof coordinator_ok_stable as Hst. unfold authorize_poll. apply keeps_bind; [by apply keeps_purge|intros _].
  case_bool_decide; [keeps|]. intros s Hs. apply wp_bind, wp_get.
  destruct (decision_for s id) as [d|] eqn:Hd; [|apply keeps_wp; [destruct timed_out; keeps|done]].
  apply decision_for_Some in Hd as (p & Hp & _ & Hd). apply wp_bind, wp_lift; [|done].
  intros p' Hp'%ok_or_Ok. rewrite Hp in Hp'. injection Hp' as <-. apply wp_bind, wp_modify.
  assert (Hs' : coordinator_ok (set_pending None s)) by by apply coordinator_ok_unset.
  destruct (decide (app_access s = Active)) as [Ha|Ha].
  - destruct (decide (d = Granted)) as [->|Hg].
    + apply keeps_wp; [|done]. cbn [settle_decision]. keeps.
    + apply keeps_active_ok; [|done|done]. apply keeps_bind; [by apply keeps_settle|intros; apply keeps_ret].
  - destruct (ok_locked s Hs Ha) as [_ Hcan]. specialize (Hcan p Hp). rewrite Hcan in Hd. injection Hd as <-.
    apply keeps_wp; [|done]. cbn [settle_decision]. keeps.
Qed.

Lemma ok_register c connection client t : keeps coordinator_ok (register_client_session c connection client t).
Proof.
  pose proof coordinator_ok_stable as Hst. unfold register_client_session. apply keeps_bind; [by apply keeps_purge|intros _].
  intros s Hs. apply wp_bind, wp_get, wp_bind, wp_require; [|done]. intros Hfree. bool_hyps.
  apply wp_bind, wp_modify, wp_bind, wp_query, wp_bind, wp_modify, wp_modify. cbn [fst snd store_wall_time].
  destruct Hs as [[Hc Hse Hz He Hn] Hl]. 
  match goal with Hno : ~ is_Some _ |- _ => apply eq_None_not_Some in Hno as Hnone end.
  assert (Hsub : shrinks (grants s) (Grants.revoke_client client (grants s)))
    by apply (op_shrinks (OpRevokeClient client)), I.
  split; [split|]; cbn in *; try done.
  - intros cl sec d Hd Hk. destruct (decide (cl = client)) as [->|]; [by rewrite lookup_insert_eq|].
    rewrite lookup_insert_ne by done. eapply Hc; [|done]. by apply Hsub.
  - by rewrite !dom_insert_L, Hse.
  - rewrite map_size_insert_None by done. unfold MAX_TRACKED_SESSIONS in *. lia.
  - intros Ha. destruct (Hl Ha) as [Ho Hp]. split; [|done]. intros k d Hd. by eapply Ho, Hsub.
Qed.

Definition locking (s : S) : Prop := consistent s /\ pending_cancelled s.
Definition locked_down (s : S) : Prop := locking s /\ only_unattended s.
Lemma locking_stable : stable locking.
Proof. apply stable_and; [apply consistent_stable|apply pending_cancelled_stable]. Qed.
Lemma locked_down_stable : stable locked_down.
Proof. apply stable_and; [apply locking_stable|apply only_unattended_stable]. Qed.
Lemma locked_down_ok (s : S) : locked_down s -> coordinator_ok s.
Proof. intros [[Hc Hp] Ho]. by split. Qed.

Lemma decided_cancelled (s : S) : pending_cancelled (decide_if (fun _ => true) Cancel s).
Proof. intros p. unfold decide_if. destruct (pending s) eqn:Hp; cbn; [by intros [= <-]|congruence]. Qed.

Lemma retain_only_unattended (s : S) : only_unattended (set_grants (Grants.retain_unattended (grants s)) s).
Proof. intros k d. cbn. by intros [_ Hu]%map_lookup_filter_Some. Qed.
Lemma revoke_all_only_unattended (s : S) : only_unattended (set_grants (Grants.revoke_all (grants s)) s).
Proof. intros k d. cbn. by rewrite lookup_empty. Qed.

(** Either policy leaves nothing but unattended grants. *)
Lemma lock_policy_ok preserve (epoch : Z) (s : S) :
  locking s -> wp (lock_grants preserve;; mret epoch) (fun _ => coordinator_ok) coordinator_ok s.
Proof.
  intros Hs. pose proof locking_stable as Hst. pose proof locked_down_stable as Hst'.
  apply wp_bind. eapply wp_mono with (Q := fun _ => locked_down) (E := locked_down);
    [|intros ? s'; apply locked_down_ok|apply locked_down_ok].
  destruct preserve; apply wp_bind, wp_modify, keeps_wp.
  - keeps.
  - split; [|apply retain_only_unattended]. apply stable_grants; [done..|].
    apply (op_shrinks OpRetainUnattended), I.
  - apply (keeps_labels _ Hst' (fun _ => ∅)).
  - split; [|apply revoke_all_only_unattended]. apply stable_grants; [done..|].
    apply (op_shrinks OpRevokeAll), I.
Qed.

Lemma ok_begin_lock preserve : keeps coordinator_ok (begin_app_lock_with_policy preserve).
Proof.
  intros s [[Hc Hs Hz He Hn] Hl]. unfold begin_app_lock_with_policy.
  apply wp_bind, wp_get, wp_bind, wp_require; [intros _|done].
  apply wp_bind, wp_lift; [|done]. intros epoch Hepoch%ok_or_Ok. apply checked_add_Some in Hepoch as [-> Hmax].
  apply wp_bind, wp_modify, wp_bind, wp_modify, lock_policy_ok.
  split; [|apply decided_cancelled]. apply consistent_decide_if. split; try done. cbn. lia.
Qed.

Lemma ok_finish epoch : keeps coordinator_ok (finish_app_lock epoch).
Proof.
  intros s [[Hc Hs Hz He Hn] Hl]. apply wp_bind, wp_get, wp_bind, wp_require; [|done].
  intros Ha. bool_hyps. rewrite Ha in He, Hl. apply wp_modify. split; [by split|].
  intros _. by apply Hl.
Qed.

Lemma ok_unlock epoch : keeps coordinator_ok (unlock_app epoch).
Proof.
  intros s [[Hc Hs Hz He Hn] Hl]. apply wp_bind, wp_get, wp_bind, wp_require; [|done].
  intros _. apply wp_modify. split; [by split|]. by intros [].
Qed.

Lemma ok_reset : keeps coordinator_ok reset_after_vault_lock.
Proof.
  intros s [[Hc Hs Hz He Hn] Hl]. apply wp_bind, wp_get, wp_bind, wp_lift; [|done].
  intros epoch Hepoch%ok_or_Ok. apply checked_add_Some in Hepoch as [-> Hmax]. apply wp_bind, wp_modify.
  apply keeps_wp.
  - pose proof coordinator_ok_stable as Hst. unfold cancel_pending_state. keeps.
  - split; [split; try done; cbn; lia|]. by intros [].
Qed.

Lemma ok_set_decision c id d : keeps coordinator_ok (set_decision c id d).
Proof.
  intros s Hs. pose proof coordinator_ok_stable as Hst. apply (set_decision_wp coordinator_ok); [done..|].
  clear Hs s. intros s p Hs Hp Hid Hd.
  apply wp_bind, wp_modify, keeps_wp; [destruct (is_approval d); keeps|].
  destruct (decide (app_access s = Active)) as [Ha|Hna]; [by apply (ok_active_pending s _ (conj Hs Ha))|].
  destruct (ok_locked s Hs Hna) as [_ Hcan]. specialize (Hcan p Hp). congruence.
Qed.

Lemma unattended_grant_cases client ids deadline (g : GrantStore C) k d :
  deadlines (Grants.grant_unattended_until client ids deadline g) !! k = Some d ->
  deadlines g !! k = Some d \/ k.1 = client.
Proof.
  unfold Grants.grant_unattended_until. cbn.
  intros [Hd|[? _]]%(insert_all_cases _ _ _ _ _ (deadlines g)); [by left|by right|by apply purge_sub].
Qed.

Lemma ok_grant_unattended c x secrets deadline v : keeps coordinator_ok (grant_unattended c x secrets deadline v).
Proof.
  pose proof coordinator_ok_stable as Hst. unfold grant_unattended.
  apply keeps_bind; [by apply keeps_purge|intros _]. apply keeps_bind; [by apply keeps_wall_time|intros now].
  apply keeps_bind; [apply keeps_lift|intros remaining]. apply keeps_bind; [apply keeps_require|intros _].
  intros s Hs. apply wp_bind, wp_get, wp_bind, wp_require; [|done].
  unfold context_current. intros Hcur. bool_hyps.
  match goal with Hact : is_app_active s = true |- _ => apply is_app_active_true in Hact as Ha end.
  apply wp_bind, wp_lift; [|done]. intros _ _. apply wp_bind, wp_modify, wp_modify.
  assert (Hs' : ok_active (set_grants (Grants.grant_unattended_until (context_client x) secrets deadline (grants s)) s)).
  { apply ok_active_grant; [done|]. intros cl sec d [Hd|Hcl]%unattended_grant_cases; [by left|right].
    intros _. cbn in Hcl. by rewrite Hcl. }
  revert Hs'. generalize (set_grants (Grants.grant_unattended_until (context_client x) secrets deadline (grants s)) s).
  intros s' Hs'. unfold decide_if. destruct (pending s') as [p|]; [|apply Hs'].
  match goal with |- context [if ?b then _ else _] => destruct b end; [|apply Hs'].
  apply (ok_active_pending s' _ Hs').
Qed.

Lemma coordinator_ok_step (s : S) o : coordinator_ok s -> coordinator_ok (exec s o).
Proof.
  intros Hs. unfold exec. apply keeps_state; [|done].
  destruct (quiet o) eqn:Hq; [by apply quiet_keeps; [apply coordinator_ok_stable|]|].
  destruct o; try discriminate Hq; cbn [section]; unfold run.
  - apply keeps_bind; [apply ok_authorize|intros; apply keeps_ret].
  - apply keeps_bind; [apply ok_poll|intros; apply keeps_ret].
  - apply ok_register.
  - apply keeps_bind; [apply ok_begin_lock|intros; apply keeps_ret].
  - apply ok_finish.
  - apply ok_unlock.
  - apply ok_reset.
  - destruct (is_approval d || bool_decide (d = Deny)); [apply ok_set_decision|apply keeps_ret].
  - apply ok_grant_unattended.
Qed.

Lemma coordinator_ok_new (c : C) lifetime : coordinator_ok (coordinator_new c lifetime).
Proof.
  split; [|by intros []]. split; cbn.
  - intros client secret d. by rewrite lookup_empty.
  - by rewrite !dom_empty_L.
  - by vm_compute.
  - done.
  - by vm_compute.
Qed.

Lemma coordinator_ok_reachable (c : C) lifetime ops : coordinator_ok (exec_all (coordinator_new c lifetime) ops).
Proof.
  unfold exec_all. induction ops as [|o ops IH] using rev_ind; [apply coordinator_ok_new|].
  rewrite fold_left_app. by apply coordinator_ok_step.
Qed.
End invariant.
