(* ===== verification/ApprovalProperties.v ===== *)
(** * The properties of the approval coordinator

    A history is the list of the critical sections that ran, in any
    interleaving.  The lemmas of [ApprovalInvariant] give what holds after it;
    here they are stated as the promises of the coordinator: no secret is used
    without a live grant that the user gave, a locked app leaves unattended
    grants only, a context taken before a revocation grants nothing, and a
    caller that waits for a decision is answered. *)

From S2P Require Import Prelude Errors Time Utf8 Text Model Grants Approval ApprovalInvariant.
Local Open Scope Z_scope.

Section coordinator.
Context {C : Type} `{MonotonicClock C}.
Abbreviation S := (ApprovalState C).

(** C11. What the coordinator stores about its clients stays consistent: grants for the
    session and unattended grants belong to connected clients, details are kept for
    exactly the connected clients, of whom there are at most 32, and while the app is
    locked (or locking) only unattended grants are left and no request can be approved. *)
Theorem coordinator_invariant (c : C) lifetime ops :
  let s := exec_all (coordinator_new c lifetime) ops in
  consistent s /\ (app_access s <> Active -> only_unattended s /\ pending_cancelled s).
Proof. intros s. by destruct (coordinator_ok_reachable c lifetime ops) as [Hc Hl]. Qed.

(** C4. A grant exists only because the user gave it: for a pair in the store of a
    coordinator that started with nothing granted, the history holds a request of this
    client for this secret and an approval of that request after it, or an unattended
    grant of the secret to the client. *)
Theorem grants_are_authorised (s0 : S) ops client secret d :
  cleared s0 -> deadlines (grants (exec_all s0 ops)) !! (client, secret) = Some d ->
  authorised ops client secret.
Proof. intros Hs0 Hd. by eapply (justified_grants _ _ (justified_history s0 ops Hs0)). Qed.

(** ** Uses of a grant *)
Lemma exec_all_app (s : S) ops ops' : exec_all s (ops ++ ops') = exec_all (exec_all s ops) ops'.
Proof. apply fold_left_app. Qed.

Lemma valid_grant_spec {T} (P : S -> Prop) cancelled ticket (operation : LResult T) (s : S) :
  stable P -> P s ->
  wp (with_valid_grant cancelled ticket operation)
    (fun value s' => operation = Ok value /\ P s' /\ vault_session_id s' = Some (ticket_vault ticket) /\
      exists g, grants s' = purge_expired g /\
        forall secret, secret ∈ ticket_secrets ticket ->
          exists d, deadlines g !! (ticket_client ticket, secret) = Some d /\ live g d)
    (fun _ => True) s.
Proof.
  intros HP Hs. unfold with_valid_grant. apply wp_bind.
  eapply wp_mono; [by apply (keeps_purge P HP)| |done]. intros ? s1 Hs1. cbn beta in Hs1.
  apply wp_bind. eapply wp_mono with (Q := fun _ => P) (E := P); [| |done].
  { apply keeps_wp; [|done]. unfold access_valid. keeps. }
  intros valid s2 Hs2. apply wp_bind, wp_require; [intros _|done].
  apply wp_bind, wp_get, wp_bind, wp_require; [intros Hv|done]. bool_hyps.
  apply wp_bind, wp_query, wp_bind, wp_require; [intros Hm|done].
  apply wp_lift; [|done]. intros value ->. split; [done|]. split; [|split].
  - apply stable_grants; [done..|]. by apply (op_shrinks (OpMissing (ticket_client ticket) (ticket_secrets ticket))).
  - done.
  - exists (grants s2). split; [done|]. apply missing_nil.
    by destruct (Grants.missing _ _ _) as [[|] ?].
Qed.

(** C3. No operation on a secret without a live, authorised grant: when
    [with_valid_grant] runs the operation, at any point of any history of a new
    coordinator, the ticket belongs to the current vault session and every one of its
    secrets has a grant that has not expired and that the user gave to this client; in
    a locked app each of them is an unattended grant of a connected client. *)
Theorem operation_needs_grant {T} (c : C) lifetime ops cancelled ticket (operation : LResult T) value s' :
  with_valid_grant cancelled ticket operation (exec_all (coordinator_new c lifetime) ops) = (Ok value, s') ->
  operation = Ok value /\ vault_session_id s' = Some (ticket_vault ticket) /\
  exists g, grants s' = purge_expired g /\
    forall secret, secret ∈ ticket_secrets ticket ->
      exists d, deadlines g !! (ticket_client ticket, secret) = Some d /\ live g d /\
        authorised ops (ticket_client ticket) secret /\
        (app_access s' <> Active -> is_unattended d = true /\ is_Some (client_sessions s' !! ticket_client ticket)).
Proof.
  intros Hrun. set (s := exec_all (coordinator_new c lifetime) ops) in *.
  pose proof (valid_grant_spec (fun s => coordinator_ok s /\ justified ops s) cancelled ticket operation s
    (stable_and _ _ coordinator_ok_stable (justified_stable ops))
    (conj (coordinator_ok_reachable c lifetime ops) (justified_history _ ops (cleared_new c lifetime)))) as Hw.
  unfold wp in Hw. rewrite Hrun in Hw. destruct Hw as (Hop & [Hok Hj] & Hv & g & Hg & Hall).
  split_and!; [done..|]. exists g. split; [done|]. intros secret Hin.
  destruct (Hall secret Hin) as (d & Hd & Hlive). exists d.
  assert (Hd' : deadlines (grants s') !! (ticket_client ticket, secret) = Some d)
    by (rewrite Hg; by apply purge_lookup).
  split_and!; [done|done|by eapply justified_grants|]. intros Ha.
  destruct (ok_locked s' Hok Ha) as [Ho _]. specialize (Ho _ _ Hd'). split; [done|].
  eapply consistent_connected; [apply Hok|exact Hd'|by right].
Qed.

(** The ticket of an authorised request is for its client and has all of its secrets. *)
Definition ticket_for (r : PendingApproval) (ticket : GrantTicket) : Prop :=
  ticket_client ticket = approval_client r /\ forall id, id ∈ secret_ids r -> id ∈ ticket_secrets ticket.
Definition ticket_of (a : Authorization) : GrantTicket :=
  match a with Allowed ticket | Approval.Waiting _ ticket => ticket end.

Lemma authorize_ticket c r (s : S) :
  wp (authorize_begin c r) (fun a _ => ticket_for r (ticket_of a)) (fun _ => True) s.
Proof.
  unfold authorize_begin. apply wp_bind. eapply wp_mono; [by apply (keeps_purge (fun _ => True))| |done].
  intros ? s1 _. apply wp_bind, wp_get. destruct (negb _).
  - unfold authorize_locked. apply wp_bind, wp_get, wp_bind, wp_require; [intros _|done]. apply wp_bind.
    eapply wp_mono; [by apply (keeps_unattended (fun _ => True))| |done]. intros ? s2 _.
    apply wp_bind, wp_require; [intros _|done]. apply wp_bind, wp_query, wp_bind, wp_require; [intros _|done].
    by apply wp_ret.
  - apply wp_bind, wp_require; [intros _|done]. apply wp_bind.
    eapply wp_mono; [by apply (keeps_enter (fun _ => True))| |done]. intros ? s2 _.
    apply wp_bind, wp_modify, wp_bind, wp_query.
    assert (Ht : ticket_for r {| ticket_vault := approval_vault r; ticket_client := approval_client r;
                                ticket_secrets := first_occurrences ∅ (secret_ids r) |}).
    { split; [done|]. intros id Hid. apply elem_of_first_occurrences. split; [done|apply not_elem_of_empty]. }
    destruct (is_empty _); [by apply wp_ret|]. apply wp_bind, wp_modify, wp_ret, Ht.
Qed.

Lemma settle_ticket cancelled p d ticket (s : S) :
  wp (settle_decision cancelled p d ticket) (fun t _ => t = ticket) (fun _ => True) s.
Proof.
  assert (Hg : forall f (s : S), wp (grant_pending p f;; mret ticket) (fun t _ => t = ticket) (fun _ => True) s).
  { intros f s'. unfold grant_pending. by apply wp_bind, wp_bind, wp_modify, wp_modify, wp_ret. }
  assert (Hthrow : forall e (s : S), wp (prune_client_labels;; throw e) (fun t _ => t = ticket) (fun _ => True) s).
  { intros e s'. apply wp_bind. eapply wp_mono; [by apply (keeps_prune (fun _ => True))| |done]. by intros ? ? _. }
  destruct d as [[l|]|dl| | | |]; cbn [settle_decision]; auto.
  - apply wp_bind, wp_get, wp_bind, wp_require; auto.
  - apply wp_bind, wp_query, wp_bind, wp_require; [|done]. intros _. by apply wp_ret.
Qed.

Lemma poll_ticket c l token timed_out id ticket (s : S) :
  wp (authorize_poll c l token timed_out id ticket) (fun o _ => forall t, o = Some t -> t = ticket) (fun _ => True) s.
Proof.
  assert (Hthrow : forall e (s : S), wp (clear_pending id;; throw e) (fun o _ => forall t, o = Some t -> t = ticket) (fun _ => True) s).
  { intros e s'. apply wp_bind. eapply wp_mono; [by apply (keeps_clear (fun _ => True))| |done]. by intros ? ? _. }
  unfold authorize_poll. apply wp_bind. eapply wp_mono; [by apply (keeps_purge (fun _ => True))| |done].
  intros ? s1 _. case_bool_decide; [apply Hthrow|]. apply wp_bind, wp_get.
  destruct (decision_for s1 id) as [d|]; [|destruct timed_out; [apply Hthrow|by apply wp_ret]].
  apply wp_bind, wp_lift; [intros p _|done]. apply wp_bind, wp_modify, wp_bind.
  eapply wp_mono; [apply settle_ticket| |done]. intros t s2 ->. apply wp_ret. by intros t [= <-].
Qed.

(** ** Contexts of unattended grants *)

(** The counters do not go back. *)
Definition advanced (r e : Z) (s : S) : Prop := r <= revision s /\ e <= lock_epoch s.

Lemma counters_decide_if which d (s : S) :
  revision (decide_if which d s) = revision s /\ lock_epoch (decide_if which d s) = lock_epoch s.
Proof. unfold decide_if. destruct (pending s) as [p|]; [|done]. by destruct (which p). Qed.

Lemma advanced_decide_if r e which d (s : S) : advanced r e s -> advanced r e (decide_if which d s).
Proof. unfold advanced. by destruct (counters_decide_if which d s) as [-> ->]. Qed.

Lemma advanced_stable r e : stable (advanced r e).
Proof.
  split; try done.
  - intros s client Hs. by apply advanced_decide_if.
  - intros s which. by apply advanced_decide_if.
  - intros s r' [] ?. split; cbn; lia.
Qed.

Lemma advanced_unset r e (s : S) : advanced r e s -> advanced r e (set_pending None s).
Proof. done. Qed.
#[local] Hint Resolve advanced_unset : keeps.

Lemma advanced_modify r e f :
  (forall s, revision (f s) = revision s /\ lock_epoch (f s) = lock_epoch s) -> keeps (advanced r e) (modify f).
Proof. intros Hf. apply keeps_modify. intros s. unfold advanced. by destruct (Hf s) as [-> ->]. Qed.

Lemma advanced_grant_pending r e p f : keeps (advanced r e) (grant_pending p f).
Proof. unfold grant_pending, update. apply keeps_bind; intros; by apply advanced_modify. Qed.
#[local] Hint Resolve advanced_grant_pending : keeps.

Lemma advanced_access r e a (s : S) : advanced r e s -> advanced r e (set_access a (lock_epoch s) s).
Proof. done. Qed.

Lemma checked_succ_le (n m : Z) : checked_add u64_max n 1 = Some m -> n < m.
Proof. intros [-> _]%checked_add_Some. lia. Qed.

(** A lock and a reset advance the epoch. *)
Lemma epoch_advances r e a (k : Z -> @M C unit) (s : S) :
  advanced r e s -> (forall epoch, keeps (advanced r (e + 1)) (k epoch)) ->
  wp (epoch ← lift (ok_or (checked_add u64_max (lock_epoch s) 1) InvalidRequest);
      modify (set_access (a epoch) epoch);; k epoch)
    (fun _ => advanced r (e + 1)) (advanced r e) s.
Proof.
  intros [Hr He] Hk. apply wp_bind, wp_lift; [|done]. intros epoch Hepoch%ok_or_Ok%checked_succ_le.
  apply wp_bind, wp_modify. eapply wp_mono; [apply (Hk epoch)|done|intros ? []; split; lia].
  split; cbn; lia.
Qed.

Lemma begin_lock_advances r e preserve (s : S) :
  advanced r e s ->
  wp (run (begin_app_lock_with_policy preserve)) (fun _ => advanced r (e + 1)) (advanced r e) s.
Proof.
  intros Hs. pose proof (advanced_stable r (e + 1)) as Hst. unfold run, begin_app_lock_with_policy.
  apply wp_bind, wp_bind, wp_get, wp_bind, wp_require; [intros _|done].
  assert (Hk : forall epoch : Z, keeps (advanced r (e + 1)) (cancel_pending_state;; lock_grants preserve;; mret epoch))
    by (intros; unfold cancel_pending_state, lock_grants; keeps).
  destruct Hs as [Hr He]. apply wp_bind, wp_lift; [|done]. intros epoch Hepoch%ok_or_Ok%checked_succ_le.
  apply wp_bind, wp_modify.
  eapply wp_mono; [apply (Hk epoch); split; cbn; lia|intros; done|intros ? []; split; lia].
Qed.

Lemma reset_advances r e (s : S) :
  advanced r e s -> wp reset_after_vault_lock (fun _ => advanced r (e + 1)) (advanced r e) s.
Proof.
  intros Hs. pose proof (advanced_stable r (e + 1)) as Hst. unfold reset_after_vault_lock.
  apply wp_bind, wp_get.
  apply (epoch_advances r e (fun _ => Active) (fun _ => cancel_pending_state;; update Grants.revoke_all;;
    modify (set_labels ∅);; modify (set_vault None))); [done|].
  intros _. unfold cancel_pending_state. keeps.
Qed.

Lemma wp_either {A} (m : @M C A) (Q : S -> Prop) (E P : S -> Prop) s :
  wp m (fun _ => Q) E s -> (forall s, Q s -> P s) -> (forall s, E s -> P s) -> P (m s).2.
Proof. unfold wp. destruct (m s) as [[a|e] s']; auto. Qed.

Lemma advanced_poll r e c l t timed_out id ticket :
  keeps (advanced r e) (authorize_poll c l t timed_out id ticket).
Proof. pose proof (advanced_stable r e) as Hst. unfold authorize_poll, settle_decision. keeps. Qed.

Lemma advanced_step r e (s : S) o : advanced r e s -> advanced r e (exec s o).
Proof.
  intros Hs. pose proof (advanced_stable r e) as Hst. unfold exec.
  destruct (quiet o) eqn:Hq; [by apply keeps_state; [apply quiet_keeps|]|].
  destruct o; try discriminate Hq; cbn [section].
  - apply keeps_state; [|done]. unfold run, authorize_begin, authorize_locked. keeps; by apply advanced_modify.
  - apply keeps_state; [|done]. unfold run. apply keeps_bind; [apply advanced_poll|intros; apply keeps_ret].
  - apply keeps_state; [|done]. unfold register_client_session. keeps; by apply advanced_modify.
  - eapply wp_either; [by apply begin_lock_advances|intros ? []; split; lia|done].
  - apply keeps_state; [|done]. intros s' Hs'. apply wp_bind, wp_get, wp_bind, wp_require; [intros _|done].
    by apply wp_modify.
  - apply keeps_state; [|done]. intros s' Hs'. apply wp_bind, wp_get, wp_bind, wp_require; [intros _|done].
    by apply wp_modify.
  - eapply wp_either; [by apply reset_advances|intros ? []; split; lia|done].
  - apply keeps_state; [|done]. unfold set_decision. keeps; by apply advanced_modify.
  - apply keeps_state; [|done]. unfold grant_unattended, update.
    keeps; apply advanced_modify; intros; done || apply counters_decide_if.
Qed.

Lemma advanced_exec_all r e ops (s : S) : advanced r e s -> advanced r e (exec_all s ops).
Proof.
  revert s. unfold exec_all. induction ops as [|o ops IH]; intros s Hs; [done|]. cbn. by apply IH, advanced_step.
Qed.

(** The operations that take access away. *)
Definition invalidates (o : approval_op) : bool :=
  match o with
  | OpRevokeEverything | OpRevoke _ _ | OpRevokeSession _ | OpMutate _ _ _ | OpBeginLock _ | OpReset => true
  | _ => false
  end.

(** Past the counters [r] and [e]. *)
Definition outdated (r e : Z) (s : S) : Prop := advanced (r + 1) e s \/ advanced r (e + 1) s.

Lemma revision_advances r e (k : @M C unit) (s : S) :
  keeps (advanced (r + 1) e) k -> advanced r e s ->
  wp (next_revision;; k) (fun _ => advanced (r + 1) e) (fun _ => True) s.
Proof.
  intros Hk [Hr He]. apply wp_bind, wp_bind, wp_get, wp_bind, wp_lift; [|done].
  intros r' Hr'%ok_or_Ok%checked_succ_le. apply wp_modify.
  eapply wp_mono; [apply Hk; split; cbn; lia|done|done].
Qed.

Lemma invalidates_outdated r e (s : S) o :
  invalidates o = true -> advanced r e s -> wp (section o) (fun _ => outdated r e) (fun _ => True) s.
Proof.
  intros Ho Hs. pose proof (advanced_stable (r + 1) e) as Hst.
  destruct o; try discriminate Ho; cbn [section].
  - eapply wp_mono; [by apply begin_lock_advances|intros ? s' Hs'; by right|done].
  - eapply wp_mono; [by apply reset_advances|intros ? s' Hs'; by right|done].
  - eapply wp_mono; [apply (revision_advances r e); [keeps|done]|intros ? s' Hs'; by left|done].
  - unfold run, revoke_pair.
    apply wp_bind. eapply wp_mono with (Q := fun _ => advanced (r + 1) e) (E := fun _ => True);
      [|intros ? s' Hs'; by left|done].
    destruct Hs as [Hr He]. apply wp_bind, wp_bind, wp_get, wp_bind, wp_lift; [|done].
    intros r' Hr'%ok_or_Ok%checked_succ_le. apply wp_modify.
    eapply wp_mono with (Q := fun _ => advanced (r + 1) e) (E := advanced (r + 1) e); [apply keeps_wp|done|done].
    + keeps.
    + split; cbn; lia.
  - eapply wp_mono; [apply (revision_advances r e); [keeps|done]|intros ? s' Hs'; by left|done].
  - unfold coordinate_secret_mutation. apply wp_bind, wp_lift; [intros ? _|done].
    eapply wp_mono; [apply (revision_advances r e); [keeps|done]|intros ? s' Hs'; by left|done].
Qed.

Lemma outdated_refused cancelled (x : UnattendedContext) secrets deadline validate (s : S) :
  outdated (context_revision x) (context_epoch x) s ->
  let (answer, s') := grant_unattended cancelled x secrets deadline validate s in
  answer <> Ok tt /\ shrinks (grants s) (grants s').
Proof.
  intros Hs.
  set (P := fun s' : S => outdated (context_revision x) (context_epoch x) s' /\ shrinks (grants s) (grants s')).
  assert (HP : stable P).
  { apply stable_and; [apply stable_or; apply advanced_stable|].
    split; try done.
    - intros s' g Hg Hg' k d Hd. cbn in *. auto.
    - intros s' client Hg. unfold purge_client. rewrite grants_decide_if. intros k d Hd.
      by apply Hg, (op_shrinks (OpRevokeClient client) (grants s')).
    - intros s' which Hg. by rewrite grants_decide_if. }
  assert (Hw : wp (grant_unattended cancelled x secrets deadline validate) (fun _ _ => False) P s).
  { assert (Hs' : P s) by (split; [done|by intros ?]). unfold grant_unattended.
    apply wp_bind. eapply wp_mono; [by apply (keeps_purge P HP)| |done]. intros ? s1 Hs1. cbn beta in Hs1.
    apply wp_bind. eapply wp_mono; [by apply (keeps_wall_time P HP)| |done]. intros now s2 Hs2. cbn beta in Hs2.
    apply wp_bind, wp_lift; [intros remaining _|done]. apply wp_bind, wp_require; [intros _|done].
    apply wp_bind, wp_get, wp_bind, wp_require; [|done].
    unfold context_current. intros Hc. bool_hyps. destruct Hs2 as [[[]|[]] _]; lia. }
  unfold wp in Hw. destruct (grant_unattended _ _ _ _ _ s) as [[[]|e] s']; [done|]. by destruct Hw.
Qed.

Lemma capture_counters {T} cancelled client (snapshot : LResult (Uuid * T)) x v (s s' : S) :
  capture_unattended_with cancelled client snapshot s = (Ok (x, v), s') ->
  advanced (context_revision x) (context_epoch x) s'.
Proof.
  intros Hrun.
  assert (Hw : wp (capture_unattended_with cancelled client snapshot)
    (fun a s' => advanced (context_revision a.1) (context_epoch a.1) s') (fun _ => True) s).
  { assert (Htrue : stable (C := C) (fun _ => True)) by done.
    unfold capture_unattended_with. apply wp_bind.
    eapply wp_mono; [by apply (keeps_purge _ Htrue)| |done]. intros ? s1 _.
    apply wp_bind, wp_get, wp_bind, wp_require; [intros _|done].
    apply wp_bind, wp_lift; [|done]. intros [vault value] _. apply wp_bind.
    eapply wp_mono; [by apply (keeps_enter _ Htrue)| |done]. intros ? s2 _.
    apply wp_bind, wp_get, wp_bind, wp_lift; [|done]. intros d _. split; cbn; lia. }
  unfold wp in Hw. rewrite Hrun in Hw. exact Hw.
Qed.

(** A revocation outlives what was prepared before it: once a context for an
    unattended grant was captured and a revocation, a change of a secret, a lock or a
    reset succeeded afterwards, no later attempt to grant with that context succeeds,
    and none adds a deadline to the store. *)
Theorem stale_context_refused {T} cancelled client (snapshot : LResult (Uuid * T)) x v
    (s s1 s2 : S) before o after later secrets deadline validate :
  capture_unattended_with cancelled client snapshot s = (Ok (x, v), s1) ->
  invalidates o = true ->
  section o (exec_all s1 before) = (Ok tt, s2) ->
  let s3 := exec_all s2 after in
  let (answer, s4) := grant_unattended later x secrets deadline validate s3 in
  answer <> Ok tt /\ shrinks (grants s3) (grants s4).
Proof.
  intros Hx Ho Hs2 s3. apply outdated_refused.
  pose proof (invalidates_outdated _ _ _ o Ho (advanced_exec_all _ _ before s1 (capture_counters _ _ _ _ _ _ _ Hx))) as Hw.
  unfold wp in Hw. rewrite Hs2 in Hw. destruct Hw as [Hw|Hw]; [left|right]; by apply advanced_exec_all.
Qed.

(** ** The wait for a decision *)

(** The request has been decided and waits to be taken. *)
Definition decided (id : Uuid) (s : S) : Prop :=
  exists p d, pending s = Some p /\ approval_id (request p) = id /\ decision p = Some d.

Lemma decided_decide_if id which d (s : S) : decided id s -> decided id (decide_if which d s).
Proof.
  intros (p & d' & Hp & Hi & Hd). unfold decide_if. rewrite Hp.
  destruct (which p); [by exists (decide_pending d p), d|by exists p, d'].
Qed.

Lemma decided_stable id : stable (decided id).
Proof.
  split; try done.
  - intros s client Hs. by apply decided_decide_if.
  - intros s which. by apply decided_decide_if.
  - intros s label p (p' & d & Hp' & Hi & Hd) Hp. rewrite Hp in Hp'. injection Hp' as <-.
    by exists (relabel label p), d.
Qed.

Lemma decided_modify id f : (forall s, pending (f s) = pending s) -> keeps (decided id) (modify f).
Proof. intros Hf. apply keeps_modify. intros s. unfold decided. by rewrite Hf. Qed.

Lemma decided_clear id id' : id' <> id -> keeps (decided id) (clear_pending id').
Proof.
  intros Hne s (p & d & Hp & Hi & Hd). apply wp_bind, wp_get. rewrite Hp.
  rewrite bool_decide_eq_false_2 by congruence. apply wp_ret. by exists p, d.
Qed.

Lemma decided_authorize id c r : keeps (decided id) (authorize_begin c r).
Proof.
  pose proof (decided_stable id) as Hst. unfold authorize_begin. apply keeps_bind; [by apply keeps_purge|].
  intros _ s Hs. apply wp_bind, wp_get. destruct (negb (is_app_active s)).
  - apply keeps_wp; [|done]. unfold authorize_locked. keeps.
  - apply wp_bind, wp_require; [|done]. intros Hp. bool_hyps. destruct Hs as (p & d & Hp' & _). congruence.
Qed.

Lemma decided_poll id c l t timed_out id' ticket :
  id' <> id -> keeps (decided id) (authorize_poll c l t timed_out id' ticket).
Proof.
  intros Hne. pose proof (decided_stable id) as Hst. pose proof (decided_clear id id' Hne) as Hc.
  unfold authorize_poll. apply keeps_bind; [by apply keeps_purge|intros _].
  case_bool_decide; [keeps|]. intros s Hs. apply wp_bind, wp_get.
  replace (decision_for s id') with (@None ApprovalDecision); [apply keeps_wp; [keeps|done]|].
  destruct Hs as (p & d & Hp & Hi & _). unfold decision_for. rewrite Hp. cbn.
  by rewrite bool_decide_eq_false_2 by congruence.
Qed.

Lemma decided_set_decision id c id' d : keeps (decided id) (set_decision c id' d).
Proof.
  intros s Hs. apply (set_decision_wp (decided id)); [apply decided_stable|done|done|].
  intros s' p (p' & d' & Hp & _ & Hd) Hp'. congruence.
Qed.

Lemma decided_grant_unattended id c x secrets deadline v :
  keeps (decided id) (grant_unattended c x secrets deadline v).
Proof.
  pose proof (decided_stable id) as Hst. unfold grant_unattended, update.
  keeps; apply keeps_modify; intros s Hs; [done|by apply decided_decide_if].
Qed.

(** A critical section other than a round of the caller's own wait. *)
Definition foreign (id : Uuid) (o : approval_op) : Prop :=
  match o with OpPoll _ _ _ _ id' _ => id' <> id | _ => True end.

Lemma decided_step id (s : S) o : foreign id o -> decided id s -> decided id (exec s o).
Proof.
  intros Ho Hs. pose proof (decided_stable id) as Hst. unfold exec. apply keeps_state; [|done].
  destruct (quiet o) eqn:Hq; [by apply quiet_keeps|].
  destruct o; try discriminate Hq; cbn [section]; unfold run.
  - apply keeps_bind; [apply decided_authorize|intros; apply keeps_ret].
  - apply keeps_bind; [by apply decided_poll|intros; apply keeps_ret].
  - unfold register_client_session. keeps; by apply decided_modify.
  - unfold begin_app_lock_with_policy, cancel_pending_state, lock_grants. keeps; by apply decided_modify.
  - unfold finish_app_lock. keeps; by apply decided_modify.
  - unfold unlock_app. keeps; by apply decided_modify.
  - unfold reset_after_vault_lock, cancel_pending_state. keeps; by apply decided_modify.
  - destruct (is_approval d || bool_decide (d = Deny)); [apply decided_set_decision|apply keeps_ret].
  - apply decided_grant_unattended.
Qed.

Lemma decided_exec_all id ops (s : S) : Forall (foreign id) ops -> decided id s -> decided id (exec_all s ops).
Proof.
  unfold exec_all. revert s. induction ops as [|o ops IH]; intros s Hf Hs; [done|]. cbn.
  apply Forall_cons in Hf as [Ho Hf]. by apply IH, decided_step.
Qed.

(** The pending request with the identifier is gone. *)
Definition released (id : Uuid) (s : S) : Prop := forall p, pending s = Some p -> approval_id (request p) <> id.

Lemma released_stable id : stable (released id).
Proof.
  assert (Hdec : forall (s : S) which, released id s -> released id (decide_if which Cancel s)).
  { intros s which Hs p (q & Hq & [->| ->])%pending_decide_if; by apply (Hs q). }
  split; try done.
  - intros s client Hs. by apply Hdec.
  - intros s label p Hs Hp p' [= <-]. by apply (Hs p).
Qed.

Lemma clear_releases id (s : S) : wp (clear_pending id) (fun _ => released id) (fun _ => False) s.
Proof.
  apply wp_bind, wp_get. unfold released. destruct (pending s) as [p|] eqn:Hp; [|apply wp_ret; congruence].
  case_bool_decide; [|apply wp_ret; congruence]. apply wp_bind, wp_modify.
  unfold prune_client_labels. by apply wp_bind, wp_query, wp_modify.
Qed.

Lemma settle_releases id cancelled p d ticket : keeps (released id) (settle_decision cancelled p d ticket).
Proof.
  pose proof (released_stable id) as Hst. unfold settle_decision, grant_pending, update.
  keeps; by apply keeps_modify.
Qed.

Lemma poll_answers cancelled later token timed_out id ticket (s : S) :
  decided id s \/ timed_out = true \/ token ∈ later ->
  wp (authorize_poll cancelled later token timed_out id ticket)
    (fun answer s' => answer <> None /\ released id s') (released id) s.
Proof.
  intros Hs. unfold authorize_poll. apply wp_bind.
  eapply wp_mono with (Q := fun _ s => decided id s \/ timed_out = true \/ token ∈ later)
    (E := fun _ => False); [| |done].
  { destruct Hs as [Hs|Hs]; apply wp_modify; [left|by right].
    apply (keeps_state _ _ _ (keeps_purge _ (decided_stable id) cancelled) Hs). }
  clear Hs s. intros _ s Hs. cbn beta in Hs. case_bool_decide as Ht.
  { apply wp_bind. eapply wp_mono; [apply clear_releases|intros; by apply wp_throw|done]. }
  apply wp_bind, wp_get. destruct (decision_for s id) as [d|] eqn:Hd.
  - apply decision_for_Some in Hd as (p & Hp & _ & _). apply wp_bind. rewrite Hp. apply (wp_ret p). apply wp_bind, wp_modify, wp_bind.
    eapply wp_mono; [by apply (settle_releases id)|intros; by apply wp_ret|done].
  - destruct timed_out.
    { apply wp_bind. eapply wp_mono; [apply clear_releases|intros; by apply wp_throw|done]. }
    exfalso. destruct Hs as [(p & d & Hp & Hi & Hdec)|[|]]; [|done..].
    unfold decision_for in Hd. rewrite Hp in Hd. cbn in Hd. rewrite bool_decide_eq_true_2 in Hd by done. congruence.
Qed.

Lemma set_decision_decides c id d (s s' : S) : set_decision c id d s = (Ok tt, s') -> decided id s'.
Proof.
  intros Hrun.
  assert (Hw : wp (set_decision c id d) (fun _ => decided id) (fun _ => True) s).
  { apply (set_decision_wp (fun _ => True)); [done..|]. clear s Hrun. intros s p _ Hp Hid Hd.
    apply wp_bind, wp_modify. eapply wp_mono with (E := decided id); [apply keeps_wp| |done].
    - pose proof (decided_stable id) as Hst. destruct (is_approval d); keeps.
    - by exists (decide_pending d p), d.
    - done. }
  unfold wp in Hw. by rewrite Hrun in Hw.
Qed.

(** A caller is never left waiting: a round of its wait that follows a decision on
    its request, whatever else ran in between, or that finds the deadline passed or its
    own session cancelled, ends the wait with a ticket or an error, and its request is
    no longer pending. *)
Theorem wait_ends c id d (s0 s1 : S) ops cancelled later token timed_out ticket :
  set_decision c id d s0 = (Ok tt, s1) /\ Forall (foreign id) ops \/ timed_out = true \/ token ∈ later ->
  let (answer, s') := authorize_poll cancelled later token timed_out id ticket (exec_all s1 ops) in
  answer <> Ok None /\ forall p, pending s' = Some p -> approval_id (request p) <> id.
Proof.
  intros Hcase. pose proof (poll_answers cancelled later token timed_out id ticket (exec_all s1 ops)) as Hw.
  unfold wp in Hw. destruct (authorize_poll _ _ _ _ _ _ _) as [answer s'].
  assert (Hans : decided id (exec_all s1 ops) \/ timed_out = true \/ token ∈ later).
  { destruct Hcase as [[Hs Hf]|Hcase]; [left|by right]. by eapply decided_exec_all, set_decision_decides. }
  specialize (Hw Hans). destruct answer as [answer|e]; [|by split]. destruct Hw as [Hw Hr]. split; [congruence|done].
Qed.
End coordinator.

(** ** The properties at work: one client asks for one secret *)
Definition example_request : PendingApproval := {|
  approval_id := 1; approval_vault := 2; approval_client := 3; approval_label := "agent";
  approval_secrets := [{| approval_secret_id := 4; approval_secret_name := "token"; approval_secret_fields := [] |}];
  approval_executable := "/bin/true"; approval_arguments := []; approval_directory := "/" |}.
Definition example_ticket : GrantTicket :=
  {| ticket_vault := 2; ticket_client := 3; ticket_secrets := [4] |}.
Definition example_state : ApprovalState ManualClock := coordinator_new (example_clock 0 0) DEFAULT_GRANT_LIFETIME.
Definition example_history : list approval_op :=
  [OpRegister ∅ 9 3 7%nat; OpAuthorize ∅ example_request; OpDecide ∅ 1 (Approve None);
   OpPoll ∅ ∅ 7%nat false 1 example_ticket].

Example grants_are_authorised_witness :
  cleared example_state /\
  deadlines (grants (exec_all example_state example_history)) !! (3, 4) = Some (Elapsed 1800000) /\
  authorised example_history 3 4.
Proof.
  split; [apply cleared_new|]. split; [vm_compute; reflexivity|].
  apply (grants_are_authorised example_state example_history 3 4 (Elapsed 1800000));
    [apply cleared_new|vm_compute; reflexivity].
Defined.

Example operation_needs_grant_witness :
  exists s', with_valid_grant ∅ example_ticket (Ok 5%nat) (exec_all example_state example_history) = (Ok 5%nat, s') /\
    ((Ok 5%nat : LResult nat) = Ok 5%nat /\ vault_session_id s' = Some 2 /\
    exists g, grants s' = purge_expired g /\
      forall secret, secret ∈ ticket_secrets example_ticket ->
        exists d, deadlines g !! (ticket_client example_ticket, secret) = Some d /\ live g d /\
          authorised example_history (ticket_client example_ticket) secret /\
          (app_access s' <> Active -> is_unattended d = true /\ is_Some (client_sessions s' !! 3))).
Proof.
  eexists. split; [vm_compute; reflexivity|].
  apply (operation_needs_grant (example_clock 0 0) DEFAULT_GRANT_LIFETIME example_history ∅ example_ticket (Ok 5%nat) 5%nat).
  vm_compute. reflexivity.
Defined.

Example stale_context_refused_witness :
  let s := exec_all example_state [OpRegister ∅ 9 3 7%nat] in
  let captured := capture_unattended_with ∅ 3 (Ok (2, tt)) s in
  let x := {| context_client := 3; context_vault := 2; context_revision := 0; context_epoch := 0;
              context_connection := 9; context_label := "MCP client" |} in
  captured.1 = Ok (x, tt) /\
  let revoked := section OpRevokeEverything captured.2 in
  revoked.1 = Ok tt /\
  let (answer, s4) := grant_unattended ∅ x [4] (from_secs 60) (Ok tt) revoked.2 in
  answer <> Ok tt /\ shrinks (grants revoked.2) (grants s4).
Proof.
  intros s captured x. split; [vm_compute; reflexivity|]. intros revoked. split; [vm_compute; reflexivity|].
  apply (stale_context_refused ∅ 3 (Ok (2, tt)) x tt s captured.2 revoked.2 [] OpRevokeEverything [] ∅ [4]
    (from_secs 60) (Ok tt)); vm_compute; reflexivity.
Defined.

Example wait_ends_witness :
  let s0 := exec_all example_state [OpRegister ∅ 9 3 7%nat; OpAuthorize ∅ example_request] in
  let s1 := (set_decision ∅ 1 (Approve None) s0).2 in
  set_decision ∅ 1 (Approve None) s0 = (Ok tt, s1) /\
  let (answer, s') := authorize_poll ∅ ∅ 7%nat false 1 example_ticket (exec_all s1 [OpPending ∅]) in
  answer <> Ok None /\ forall p, pending s' = Some p -> approval_id (request p) <> 1.
Proof.
  intros s0 s1. split; [vm_compute; reflexivity|].
  apply (wait_ends ∅ 1 (Approve None) s0 s1 [OpPending ∅] ∅ ∅ 7%nat false example_ticket).
  left. split; [vm_compute; reflexivity|]. repeat constructor.
Defined.
