(* ===== verification/Runs.v ===== *)
(** * Runs: [RunCoordinator] of [crates/ladon-app/src/agent_broker.rs]

    One run at a time: a worker that starts a run holds a [RunLease] until its
    child is cleaned up, and whoever revokes access holds a [RunBlock], for
    which it waits until the runs it is about have ended.  Each method is a
    critical section on [RunCoordinatorState]; a wait on the condition variable
    splits it in two.  The flags of [RunCancellation]
    ([crates/ladon-app/src/supervisor.rs]) are shared with other threads. *)

From S2P Require Import Prelude Errors Model Approval.

(** ** State *)

(** [struct ActiveRun] and [struct RunCoordinatorState]. *)
Record ActiveRun := {
  run_token : Token;
  run_client : Uuid;
  run_secrets : option (list SecretId);
  run_running : bool;
}.
Record RunCoordinatorState := {
  active_run : option ActiveRun;
  block_new : bool;
}.

(** The coordinator and the flags that are set. *)
Record Runs := {
  coordinator : RunCoordinatorState;
  cancelled_tokens : gset Token;
}.

Definition running_run (s : Runs) : option ActiveRun := active_run (coordinator s).
Definition blocked (s : Runs) : bool := block_new (coordinator s).
Definition set_active (a : option ActiveRun) (s : Runs) : Runs :=
  {| coordinator := {| active_run := a; block_new := blocked s |}; cancelled_tokens := cancelled_tokens s |}.
Definition set_block (b : bool) (s : Runs) : Runs :=
  {| coordinator := {| active_run := running_run s; block_new := b |}; cancelled_tokens := cancelled_tokens s |}.

(** [RunCoordinator::default]. *)
Definition runs_new : Runs :=
  {| coordinator := {| active_run := None; block_new := false |}; cancelled_tokens := ∅ |}.

(** [RunCancellation::cancel], [is_cancelled] and [launch]. *)
Definition cancel (token : Token) (s : Runs) : Runs :=
  {| coordinator := coordinator s; cancelled_tokens := {[token]} ∪ cancelled_tokens s |}.
Definition is_cancelled (token : Token) (s : Runs) : bool := bool_decide (token ∈ cancelled_tokens s).
Definition launch {T} (token : Token) (operation : LResult T) (s : Runs) : LResult T :=
  if is_cancelled token s then Err ApprovalCancelled else operation.

(** ** Critical sections *)

(** [RunCoordinator::try_start]. *)
Definition try_start (token : Token) (client : Uuid) (s : Runs) : LResult Runs :=
  if blocked s || bool_decide (is_Some (running_run s)) then Err Busy
  else Ok (set_active (Some {| run_token := token; run_client := client; run_secrets := None;
                               run_running := false |}) s).

(** [RunCoordinator::cancel_active]. *)
Definition cancel_active (s : Runs) : Runs :=
  match running_run s with Some a => cancel (run_token a) s | None => s end.

(** [RunCoordinator::block_new_runs] up to its second loop; [None] while another block
    is held. *)
Definition block_new_runs (s : Runs) : option Runs :=
  if blocked s then None else Some (cancel_active (set_block true s)).

(** [RunCoordinator::try_block_new_runs]. *)
Definition try_block_new_runs (s : Runs) : option Runs :=
  if blocked s || bool_decide (is_Some (running_run s)) then None else Some (set_block true s).

(** [RunCoordinator::block_for_revoke] and [block_for_client_revoke] up to their second
    loop. *)
Definition uses_secret (client : Uuid) (secret : SecretId) (a : ActiveRun) : bool :=
  bool_decide (run_client a = client)
  && match run_secrets a with Some ids => bool_decide (secret ∈ ids) | None => true end.
Definition block_for_revoke (client : Uuid) (secret : SecretId) (s : Runs) : option (Runs * bool) :=
  if blocked s then None
  else
    let s := set_block true s in
    let matches := match running_run s with Some a => uses_secret client secret a | None => false end in
    Some (if matches then cancel_active s else s, matches).
Definition of_client (client : Uuid) (s : Runs) : bool :=
  match running_run s with Some a => bool_decide (run_client a = client) | None => false end.
Definition block_for_client_revoke (client : Uuid) (s : Runs) : option Runs :=
  if blocked s then None
  else
    let s := set_block true s in
    Some (if of_client client s then cancel_active s else s).

(** [RunLease::set_secret_context] and [RunLease::spawn_child]; [spawn] is what the
    operating system answers. *)
Definition set_secret_context (ids : list SecretId) (s : Runs) : LResult Runs :=
  a ← ok_or (running_run s) InvalidRequest;
  if bool_decide (is_Some (run_secrets a)) then Err InvalidRequest
  else Ok (set_active (Some {| run_token := run_token a; run_client := run_client a;
                               run_secrets := Some ids; run_running := run_running a |}) s).
Definition spawn_child {T} (spawn : LResult T) (s : Runs) : LResult (T * Runs) :=
  a ← ok_or (running_run s) InvalidRequest;
  if bool_decide (run_secrets a = None) then Err InvalidRequest
  else
    child ← launch (run_token a) spawn s;
    Ok (child, set_active (Some {| run_token := run_token a; run_client := run_client a;
                                   run_secrets := run_secrets a; run_running := true |}) s).

(** [Drop for RunLease] and [Drop for RunBlock]. *)
Definition drop_lease (s : Runs) : Runs := set_active None s.
Definition drop_block (s : Runs) : Runs := set_block false s.

(** [running_pairs] and [has_active_run]. *)
Definition has_active_run (s : Runs) : bool :=
  match running_run s with Some a => run_running a | None => false end.
Definition running_pairs (s : Runs) : gset (Uuid * SecretId) :=
  match running_run s with
  | Some a => if run_running a then list_to_set ((fun id => (run_client a, id)) <$> default [] (run_secrets a))
              else ∅
  | None => ∅
  end.

(** ** Threads *)

(** What a block is held for, with the local [matches] of [block_for_revoke]. *)
Inductive Purpose : Set :=
| EveryRun
| RunsOfPair (client : Uuid) (secret : SecretId) (matches : bool)
| RunsOfClient (client : Uuid).

(** The runs a block is about. *)
Definition covers (p : Purpose) (a : ActiveRun) : bool :=
  match p with
  | EveryRun => true
  | RunsOfPair client secret _ => uses_secret client secret a
  | RunsOfClient client => bool_decide (run_client a = client)
  end.

(** The condition of the second loop of the three methods. *)
Definition stops (p : Purpose) (a : ActiveRun) : bool :=
  match p with
  | EveryRun => true
  | RunsOfPair _ _ matches => matches
  | RunsOfClient client => bool_decide (run_client a = client)
  end.
Definition waits (p : Purpose) (s : Runs) : bool :=
  match running_run s with Some a => stops p a | None => false end.

(** What a thread holds: a lease, a block it still waits for, or a block. *)
Inductive Role : Set :=
| Leasing (token : Token) (client : Uuid)
| Waiting (p : Purpose)
| Blocking (p : Purpose).
Record Threads := { runs : Runs; roles : gmap nat Role }.

(** The critical section that begins a block. *)
Definition begin_block (p : Purpose) (s : Runs) : option Runs :=
  match p with
  | EveryRun => block_new_runs s
  | RunsOfPair client secret matches =>
    '(s, m) ← block_for_revoke client secret s; if bool_decide (m = matches) then Some s else None
  | RunsOfClient client => block_for_client_revoke client s
  end.

(** Any interleaving of the threads' critical sections. *)
Inductive step : Threads -> Threads -> Prop :=
| step_start w t token client s : roles w !! t = None -> try_start token client (runs w) = Ok s ->
    step w {| runs := s; roles := <[t := Leasing token client]> (roles w) |}
| step_context w t token client ids s : roles w !! t = Some (Leasing token client) ->
    set_secret_context ids (runs w) = Ok s -> step w {| runs := s; roles := roles w |}
| step_spawn w t token client pid s : roles w !! t = Some (Leasing token client) ->
    spawn_child (Ok pid : LResult nat) (runs w) = Ok (pid, s) -> step w {| runs := s; roles := roles w |}
| step_finish w t token client : roles w !! t = Some (Leasing token client) ->
    step w {| runs := drop_lease (runs w); roles := delete t (roles w) |}
| step_cancel w token : step w {| runs := cancel token (runs w); roles := roles w |}
| step_cancel_active w : step w {| runs := cancel_active (runs w); roles := roles w |}
| step_try_block w t s : roles w !! t = None -> try_block_new_runs (runs w) = Some s ->
    step w {| runs := s; roles := <[t := Blocking EveryRun]> (roles w) |}
| step_begin_block w t p s : roles w !! t = None -> begin_block p (runs w) = Some s ->
    step w {| runs := s; roles := <[t := Waiting p]> (roles w) |}
| step_blocked w t p : roles w !! t = Some (Waiting p) -> waits p (runs w) = false ->
    step w {| runs := runs w; roles := <[t := Blocking p]> (roles w) |}
| step_release w t p : roles w !! t = Some (Blocking p) ->
    step w {| runs := drop_block (runs w); roles := delete t (roles w) |}.

Definition threads_new : Threads := {| runs := runs_new; roles := ∅ |}.
Definition reachable : Threads -> Prop := rtc step threads_new.

(** ** The invariant *)
Definition block_of (r : Role) : option Purpose :=
  match r with Waiting p | Blocking p => Some p | Leasing _ _ => None end.
Definition lease_of (r : Role) : option (Token * Uuid) :=
  match r with Leasing token client => Some (token, client) | _ => None end.

(** A run a block is about has been told to stop, and is gone once the block is held. *)
Definition guarded (r : Role) (a : ActiveRun) (cancelled : gset Token) : Prop :=
  match r with
  | Leasing _ _ => True
  | Waiting p => (covers p a = true -> stops p a = true) /\ (stops p a = true -> run_token a ∈ cancelled)
  | Blocking p => covers p a = false
  end.

Record exclusive (w : Threads) : Prop := {
  one_lease t t' r r' l l' : roles w !! t = Some r -> roles w !! t' = Some r' ->
    lease_of r = Some l -> lease_of r' = Some l' -> t = t';
  one_block t t' r r' p p' : roles w !! t = Some r -> roles w !! t' = Some r' ->
    block_of r = Some p -> block_of r' = Some p' -> t = t';
  leased : match running_run (runs w) with
           | Some a => exists t, roles w !! t = Some (Leasing (run_token a) (run_client a))
           | None => forall t r, roles w !! t = Some r -> lease_of r = None
           end;
  block_held : if blocked (runs w) then exists t r p, roles w !! t = Some r /\ block_of r = Some p
               else forall t r, roles w !! t = Some r -> block_of r = None;
  all_guarded t r a : roles w !! t = Some r -> running_run (runs w) = Some a ->
    guarded r a (cancelled_tokens (runs w));
}.

(** No thread has such a role. *)
Ltac none_of H :=
  match goal with
  | Hr : roles _ !! _ = Some ?r, Hs : _ ?r = Some _ |- _ => by rewrite (H _ _ Hr) in Hs
  end.

(** A role is not both. *)
Ltac both_roles :=
  match goal with
  | Hl : lease_of ?r = Some _, Hb : block_of ?r = Some _ |- _ => by destruct r
  end.

Lemma exclusive_new : exclusive threads_new.
Proof. split; cbn; intros; rewrite ?lookup_empty in *; done. Qed.

(** More flags, the same run or the same run with its context: the threads' duties stand. *)
Lemma guarded_mono r a a' c c' :
  guarded r a c -> run_token a' = run_token a -> run_client a' = run_client a ->
  (forall p, covers p a' = true -> covers p a = true) -> c ⊆ c' -> guarded r a' c'.
Proof.
  unfold guarded. destruct r as [|p|p]; [done| |].
  - intros [Hg Hs] Ht Hc Hp Hsub. rewrite Ht. replace (stops p a') with (stops p a).
    + split; auto.
    + unfold stops. by rewrite Hc.
  - intros Hg _ _ Hp _. apply not_true_is_false. intros Hc%Hp. congruence.
Qed.

Lemma covers_context p a ids running :
  run_secrets a = None \/ run_secrets a = Some ids ->
  covers p {| run_token := run_token a; run_client := run_client a; run_secrets := Some ids;
              run_running := running |} = true -> covers p a = true.
Proof.
  intros Hs. destruct p as [|client secret m|client]; cbn; [done| |done].
  unfold uses_secret. cbn. intros [Hc Hi]%andb_true_iff. rewrite Hc. by destruct Hs as [-> | ->].
Qed.

(** The run changes in place: the roles are as before. *)
Lemma exclusive_same_run w a a' c :
  exclusive w -> running_run (runs w) = Some a -> run_token a' = run_token a -> run_client a' = run_client a ->
  (forall p, covers p a' = true -> covers p a = true) -> cancelled_tokens (runs w) ⊆ c ->
  exclusive {| runs := {| coordinator := {| active_run := Some a'; block_new := blocked (runs w) |};
                          cancelled_tokens := c |}; roles := roles w |}.
Proof.
  intros [Hl Hb Ha Hf Hg] Hr Ht Hcl Hc Hsub. split; cbn; [exact Hl|exact Hb| |exact Hf|].
  - rewrite Hr in Ha. by rewrite Ht, Hcl.
  - intros t r a'' Hin [= <-]. eapply guarded_mono; [by eapply Hg|done..].
Qed.

Lemma exclusive_cancel w token :
  exclusive w -> exclusive {| runs := cancel token (runs w); roles := roles w |}.
Proof.
  intros [Hl Hb Ha Hf Hg]. split; try done. cbn. intros t r a Hin Hr.
  eapply guarded_mono; [by eapply Hg|done..|set_solver].
Qed.

Lemma exclusive_cancel_active w :
  exclusive w -> exclusive {| runs := cancel_active (runs w); roles := roles w |}.
Proof.
  intros He. unfold cancel_active. destruct (running_run (runs w)); [by apply exclusive_cancel|].
  by destruct w.
Qed.

Lemma exclusive_start w t token client s :
  exclusive w -> roles w !! t = None -> try_start token client (runs w) = Ok s ->
  exclusive {| runs := s; roles := <[t := Leasing token client]> (roles w) |}.
Proof.
  intros [Hl Hb Ha Hf Hg] Ht. unfold try_start. destruct (blocked (runs w)) eqn:Hbl; [done|].
  case_bool_decide as Hr; [done|]. apply eq_None_not_Some in Hr. rewrite Hr in Ha. intros [= <-].
  split; cbn.
  - intros t1 t2 r r' l l' H1 H2 Hl1 Hl2. map_cases; [done|none_of Ha..].
  - intros t1 t2 r r' p p' H1 H2 Hp1 Hp2. map_cases; [done..|]. by eapply Hb.
  - exists t. by rewrite lookup_insert_eq.
  - rewrite Hbl. intros t1 r H1. map_cases; [done|by eapply Hf].
  - intros t1 r a H1 [= <-]. map_cases; [done|]. apply Hf in H1. by destruct r.
Qed.

Lemma exclusive_finish w t token client :
  exclusive w -> roles w !! t = Some (Leasing token client) ->
  exclusive {| runs := drop_lease (runs w); roles := delete t (roles w) |}.
Proof.
  intros [Hl Hb Ha Hf Hg] Ht. split; cbn.
  - intros t1 t2 r r' l l' H1 H2 Hl1 Hl2. map_cases. by eapply Hl.
  - intros t1 t2 r r' p p' H1 H2 Hp1 Hp2. map_cases. by eapply Hb.
  - intros t1 r H1. map_cases. destruct (lease_of r) eqn:Hr; [|done]. exfalso.
    by apply H, (Hl t t1 (Leasing token client) r (token, client) p).
  - destruct (blocked (runs w)).
    + destruct Hf as (t1 & r & p & H1 & Hp). exists t1, r, p. split; [|done].
      rewrite lookup_delete_ne; [done|]. intros ->. by rewrite Ht in H1; simplify_eq.
    + intros t1 r H1. map_cases. by eapply Hf.
  - done.
Qed.

Lemma exclusive_block w t r p c :
  exclusive w -> roles w !! t = None -> blocked (runs w) = false -> block_of r = Some p ->
  cancelled_tokens (runs w) ⊆ c -> (forall a, running_run (runs w) = Some a -> guarded r a c) ->
  exclusive {| runs := {| coordinator := {| active_run := running_run (runs w); block_new := true |};
                          cancelled_tokens := c |}; roles := <[t := r]> (roles w) |}.
Proof.
  intros [Hl Hb Ha Hf Hg] Ht Hbl Hr Hc Hgr. rewrite Hbl in Hf. split; cbn.
  - intros t1 t2 r1 r2 l l' H1 H2 Hl1 Hl2. map_cases; [done|both_roles..|]. by eapply Hl.
  - intros t1 t2 r1 r2 p1 p2 H1 H2 Hp1 Hp2. map_cases; [done|none_of Hf..].
  - destruct (running_run (runs w)) as [a|] eqn:Hrun; cbn.
    + destruct Ha as [t1 H1]. exists t1. rewrite lookup_insert_ne; [done|]. congruence.
    + intros t1 r1 H1. map_cases; [by destruct r1|by eapply Ha].
  - exists t, r, p. by rewrite lookup_insert_eq.
  - intros t1 r1 a H1 Hrun. map_cases; [by apply Hgr|]. eapply guarded_mono; [by eapply Hg|done..].
Qed.

Lemma exclusive_blocked w t p :
  exclusive w -> roles w !! t = Some (Waiting p) -> waits p (runs w) = false ->
  exclusive {| runs := runs w; roles := <[t := Blocking p]> (roles w) |}.
Proof.
  intros [Hl Hb Ha Hf Hg] Ht Hw. split; cbn.
  - intros t1 t2 r r' l l' H1 H2 Hl1 Hl2. map_cases. by eapply Hl.
  - intros t1 t2 r r' q q' H1 H2 Hp1 Hp2. map_cases; [done|eapply Hb; eauto..].
  - destruct (running_run (runs w)) as [a|].
    + destruct Ha as [t1 H1]. exists t1. rewrite lookup_insert_ne; [done|]. congruence.
    + intros t1 r H1. map_cases; [done|by eapply Ha].
  - destruct (blocked (runs w)).
    + exists t, (Blocking p), p. by rewrite lookup_insert_eq.
    + by specialize (Hf _ _ Ht).
  - intros t1 r a H1 Hr. map_cases; [|by eapply Hg]. cbn. apply not_true_is_false. intros Hc.
    destruct (Hg _ _ _ Ht Hr) as [Hs _]. specialize (Hs Hc). unfold waits in Hw. rewrite Hr in Hw. congruence.
Qed.

Lemma exclusive_release w t p :
  exclusive w -> roles w !! t = Some (Blocking p) ->
  exclusive {| runs := drop_block (runs w); roles := delete t (roles w) |}.
Proof.
  intros [Hl Hb Ha Hf Hg] Ht. split; cbn.
  - intros t1 t2 r r' l l' H1 H2 Hl1 Hl2. map_cases. by eapply Hl.
  - intros t1 t2 r r' q q' H1 H2 Hp1 Hp2. map_cases. by eapply Hb.
  - destruct (running_run (runs w)) as [a|]; cbn.
    + destruct Ha as [t1 H1]. exists t1. rewrite lookup_delete_ne; [done|]. congruence.
    + intros t1 r H1. map_cases. by eapply Ha.
  - intros t1 r H1. map_cases. destruct (block_of r) eqn:Hr; [|done]. exfalso.
    match goal with Hne : t <> t1 |- _ => apply Hne end. by eapply Hb.
  - intros t1 r a H1 Hr. map_cases. by eapply Hg.
Qed.

Lemma begin_block_spec p s s' :
  begin_block p s = Some s' ->
  blocked s = false /\ coordinator s' = {| active_run := running_run s; block_new := true |} /\
  cancelled_tokens s ⊆ cancelled_tokens s' /\
  forall a, running_run s = Some a -> guarded (Waiting p) a (cancelled_tokens s').
Proof.
  intros H. destruct s as [[act []] c]; [by destruct p|]. split; [done|].
  destruct p as [|client secret m|client]; cbn in H;
    unfold block_new_runs, block_for_revoke, block_for_client_revoke, cancel_active, of_client in H; cbn in H.
  - destruct act as [a|]; simplify_eq/=; split_and!; try done; [set_solver|].
    intros a' [= <-]. split; [done|set_solver].
  - destruct act as [a|]; [destruct (uses_secret client secret a) eqn:Hu|]; cbn in H;
      case_bool_decide; simplify_eq/=; split_and!; try done; [set_solver|..]; intros a' [= <-]; cbn.
    + split; [done|set_solver].
    + split; [congruence|done].
  - destruct act as [a|]; [destruct (bool_decide (run_client a = client)) eqn:Hu|]; simplify_eq/=;
      split_and!; try done; [set_solver|..]; intros a' [= <-]; cbn.
    + split; [done|set_solver].
    + split; congruence.
Qed.

Lemma exclusive_begin w t p s :
  exclusive w -> roles w !! t = None -> begin_block p (runs w) = Some s ->
  exclusive {| runs := s; roles := <[t := Waiting p]> (roles w) |}.
Proof.
  intros He Ht (Hb & Hs & Hsub & Hg)%begin_block_spec. destruct s as [co c]. cbn in *. subst co.
  by eapply exclusive_block.
Qed.

Lemma exclusive_step w w' : step w w' -> exclusive w -> exclusive w'.
Proof.
  intros Hstep He. destruct Hstep as [w t token client s Ht Hs|w t token client ids s Ht Hs
    |w t token client pid s Ht Hs|w t token client Ht|w token|w|w t s Ht Hs|w t p s Ht Hs|w t p Ht Hw|w t p Ht].
  - by eapply exclusive_start.
  - unfold set_secret_context in Hs. destruct (running_run (runs w)) as [a|] eqn:Hr; [|done]. cbn in Hs.
    case_bool_decide as Hn; [done|]. injection Hs as <-. apply eq_None_not_Some in Hn.
    eapply exclusive_same_run; [done..| |done]. intros p. apply covers_context. by left.
  - unfold spawn_child in Hs. destruct (running_run (runs w)) as [a|] eqn:Hr; [|done]. cbn in Hs.
    case_bool_decide as Hn; [done|]. destruct (launch _ _ _); [|done]. injection Hs as _ <-.
    eapply exclusive_same_run; [done..| |done]. by intros [].
  - by eapply exclusive_finish.
  - by apply exclusive_cancel.
  - by apply exclusive_cancel_active.
  - unfold try_block_new_runs in Hs. destruct (blocked (runs w)) eqn:Hb; [done|]. cbn in Hs.
    case_bool_decide as Hr; [done|]. apply eq_None_not_Some in Hr. injection Hs as <-.
    apply (exclusive_block w t (Blocking EveryRun) EveryRun); try done. by rewrite Hr.
  - by eapply exclusive_begin.
  - by apply exclusive_blocked.
  - by eapply exclusive_release.
Qed.

Lemma exclusive_reachable w : reachable w -> exclusive w.
Proof.
  intros Hw. pattern w. eapply rtc_ind_r; [apply exclusive_new| |exact Hw]. intros y z _ Hs Hy. by eapply exclusive_step.
Qed.

(** C9. A revocation holds from its beginning to its end: while a thread waits for a block
    or holds it, no run starts; a run the block is about has been told to stop and
    launches no child; and once the block is held, no such run is left (none at all for
    a block of every run). *)
Theorem revocation_stops_runs w t p :
  reachable w -> roles w !! t = Some (Waiting p) \/ roles w !! t = Some (Blocking p) ->
  (forall token client, try_start token client (runs w) = Err Busy) /\
  (forall a, running_run (runs w) = Some a -> covers p a = true ->
     roles w !! t = Some (Waiting p) /\ run_token a ∈ cancelled_tokens (runs w) /\
     forall spawn : LResult nat, exists e, spawn_child spawn (runs w) = Err e).
Proof.
  intros He%exclusive_reachable Ht. split.
  - intros token client. unfold try_start.
    assert (Hb : blocked (runs w) = true); [|by rewrite Hb].
    pose proof (block_held w He) as Hf. destruct (blocked (runs w)); [done|].
    by destruct Ht as [Ht|Ht]; apply Hf in Ht.
  - intros a Hr Hc. destruct Ht as [Ht|Ht]; pose proof (all_guarded w He t _ a Ht Hr) as Hg; cbn in Hg; [|congruence].
    destruct Hg as [Hs Hcan]. specialize (Hcan (Hs Hc)). split_and!; [done..|]. intros spawn.
    unfold spawn_child. rewrite Hr. cbn. case_bool_decide; [by eexists|].
    unfold launch, is_cancelled. rewrite bool_decide_eq_true_2 by done. by eexists.
Qed.

(** Nobody waits in vain: a thread that cannot begin a block finds another one that
    waits for a block or holds it, and a thread that waits for a block waits for a run
    that was told to stop, whose worker still holds its lease and grants the block by
    dropping it. *)
Theorem block_is_granted w :
  reachable w ->
  (blocked (runs w) = true -> exists t p, roles w !! t = Some (Waiting p) \/ roles w !! t = Some (Blocking p)) /\
  (forall t p, roles w !! t = Some (Waiting p) -> waits p (runs w) = true ->
     exists t' token client w', roles w !! t' = Some (Leasing token client) /\
       token ∈ cancelled_tokens (runs w) /\ step w w' /\
       roles w' !! t = Some (Waiting p) /\ waits p (runs w') = false).
Proof.
  intros He%exclusive_reachable. split.
  - intros Hb. pose proof (block_held w He) as Hf. rewrite Hb in Hf.
    destruct Hf as (t & r & p & Ht & Hr). exists t, p. destruct r; naive_solver.
  - intros t p Ht Hw. unfold waits in Hw. pose proof (leased w He) as Hl.
    destruct (running_run (runs w)) as [a|] eqn:Hr; [|done]. destruct Hl as [t' Ht'].
    destruct (all_guarded w He t _ a Ht Hr) as [_ Hcan].
    exists t', (run_token a), (run_client a), {| runs := drop_lease (runs w); roles := delete t' (roles w) |}.
    split_and!; [done|auto|by eapply step_finish| |done].
    cbn. rewrite lookup_delete_ne; [done|]. congruence.
Qed.

(** A run that is revoked while its request waits for approval. *)
Definition example_started : Threads :=
  {| runs := set_active (Some {| run_token := 7; run_client := 3%Z; run_secrets := None; run_running := false |}) runs_new;
     roles := <[1 := Leasing 7 3%Z]> ∅ |}.
Definition example_threads : Threads :=
  {| runs := cancel_active (set_block true (runs example_started));
     roles := <[2 := Waiting EveryRun]> (roles example_started) |}.

Lemma example_reachable : reachable example_threads.
Proof.
  apply (rtc_l _ _ example_started); [apply (step_start threads_new 1 7 3%Z); reflexivity|].
  apply rtc_once, (step_begin_block example_started 2 EveryRun); reflexivity.
Defined.

Example revocation_stops_runs_witness :
  exists w a, reachable w /\ running_run (runs w) = Some a /\
    ((forall token client, try_start token client (runs w) = Err Busy) /\
     (forall a, running_run (runs w) = Some a -> covers EveryRun a = true ->
       roles w !! 2 = Some (Waiting EveryRun) /\ run_token a ∈ cancelled_tokens (runs w) /\
       forall spawn : LResult nat, exists e, spawn_child spawn (runs w) = Err e)).
Proof.
  exists example_threads. eexists. split; [apply example_reachable|]. split; [reflexivity|].
  apply (revocation_stops_runs example_threads 2 EveryRun); [apply example_reachable|by left].
Defined.

Example block_is_granted_witness :
  reachable example_threads /\ waits EveryRun (runs example_threads) = true /\
  exists w', step example_threads w' /\ waits EveryRun (runs w') = false.
Proof.
  split; [apply example_reachable|]. split; [reflexivity|].
  destruct (block_is_granted example_threads example_reachable) as [_ Hg].
  destruct (Hg 2 EveryRun) as (t' & token & client & w' & _ & _ & Hs & _ & Hw); [reflexivity..|].
  exists w'. by split.
Defined.
