(* ===== verification/UnlockRequests.v ===== *)
(** * UnlockRequests: [crates/ladon-app/src/unlock_request.rs]

    An agent that finds the vault locked asks the user to unlock it and waits.
    There is one slot; [cancel] (a lock) decides against whatever waits in it and
    starts a new epoch, so that a caller who looked at the vault before the lock
    is turned away.  [wait] is its registration, then one critical section for
    every round of its loop. *)

From S2P Require Import Prelude Errors Model.
Local Open Scope Z_scope.

(** [struct PendingUnlock], [struct UnlockState] and [struct UnlockRequests]. *)
Record PendingUnlock := {
  unlock_id : Uuid;
  unlock_label : string;
  unlock_purpose : string;
}.
Record UnlockState := {
  unlock_request : PendingUnlock;
  unlock_decision : option (LResult unit);
}.
Record UnlockRequests := {
  slot : option UnlockState;
  epoch : Z;
}.

(** [UnlockRequests::default] and [UnlockRequests::pending]. *)
Definition unlock_requests_new : UnlockRequests := {| slot := None; epoch := 0 |}.
Definition pending_unlock (s : UnlockRequests) : option PendingUnlock :=
  state ← slot s; if bool_decide (unlock_decision state = None) then Some (unlock_request state) else None.

Definition decide_unlock (d : LResult unit) (u : UnlockState) : UnlockState :=
  {| unlock_request := unlock_request u; unlock_decision := Some d |}.

(** [UnlockRequests::resolve]. *)
Definition resolve_unlock (id : Uuid) (allow : bool) (s : UnlockRequests) : LResult UnlockRequests :=
  match slot s with
  | None => Err InvalidRequest
  | Some u =>
    if negb (bool_decide (unlock_id (unlock_request u) = id)) || bool_decide (is_Some (unlock_decision u))
    then Err InvalidRequest
    else Ok {| slot := Some (decide_unlock (if allow then Ok tt else Err ApprovalDenied) u); epoch := epoch s |}
  end.

(** [UnlockRequests::cancel]; [fetch_add] wraps around. *)
Definition cancel_unlock (s : UnlockRequests) : UnlockRequests :=
  {| slot := decide_unlock (Err ApprovalCancelled) <$> slot s; epoch := wrapping_add_u64 (epoch s) 1 |}.

(** [UnlockRequests::wait] up to the call of [wake], with the identifier it draws. *)
Definition wait_begin (seen : Z) (id : Uuid) (label purpose : string) (s : UnlockRequests) :
    LResult UnlockRequests :=
  if negb (seen =? epoch s) then Err ApprovalCancelled
  else if bool_decide (is_Some (slot s)) then Err Busy
  else Ok {| slot := Some {| unlock_request := {| unlock_id := id; unlock_label := label; unlock_purpose := purpose |};
                             unlock_decision := None |}; epoch := epoch s |}.

(** One round of the loop of [wait]; [None] is another wait. *)
Definition wait_poll (cancelled timed_out : bool) (s : UnlockRequests) :
    option (LResult unit) * UnlockRequests :=
  let result :=
    if cancelled then Some (Err ApprovalCancelled)
    else if timed_out then Some (Err ApprovalTimeout)
    else u ← slot s; unlock_decision u in
  match result with
  | Some _ => (result, {| slot := None; epoch := epoch s |})
  | None => (None, s)
  end.

(** ** Histories *)
Inductive unlock_op : Type :=
| OpResolve (id : Uuid) (allow : bool)
| OpCancel
| OpWait (seen : Z) (id : Uuid) (label purpose : string)
| OpRound (cancelled timed_out : bool).
#[export] Instance unlock_op_eq_dec : EqDecision unlock_op.
Proof. solve_decision. Defined.

(** An operation that fails leaves the requests as they were. *)
Definition exec_unlock (s : UnlockRequests) (o : unlock_op) : UnlockRequests :=
  match o with
  | OpResolve id allow => match resolve_unlock id allow s with Ok s' => s' | Err _ => s end
  | OpCancel => cancel_unlock s
  | OpWait seen id label purpose => match wait_begin seen id label purpose s with Ok s' => s' | Err _ => s end
  | OpRound cancelled timed_out => (wait_poll cancelled timed_out s).2
  end.
Definition exec_unlocks (s : UnlockRequests) (ops : list unlock_op) : UnlockRequests := fold_left exec_unlock ops s.

Definition is_cancel (o : unlock_op) : bool := bool_decide (o = OpCancel).
Definition cancels (ops : list unlock_op) : Z := Z.of_nat (length (List.filter is_cancel ops)).

Lemma cancels_cons o ops : cancels (o :: ops) = (if is_cancel o then 1 else 0) + cancels ops.
Proof. unfold cancels. cbn. destruct (is_cancel o); cbn; lia. Qed.

Lemma cancels_zero ops : cancels ops = 0 -> OpCancel ∉ ops.
Proof.
  induction ops as [|o ops IH]; [set_solver|]. rewrite cancels_cons.
  assert (0 <= cancels ops) by (unfold cancels; lia).
  destruct (is_cancel o) eqn:Ho; [lia|]. apply bool_decide_eq_false in Ho. intros ?.
  apply not_elem_of_cons. split; [done|]. apply IH. lia.
Qed.

(** The epoch counts the cancellations. *)
Lemma epoch_exec o s :
  0 <= epoch s <= u64_max -> epoch (exec_unlock s o) = (epoch s + if is_cancel o then 1 else 0) mod 2 ^ 64.
Proof.
  intros He. unfold u64_max in He.
  assert (Hsame : epoch s = (epoch s + 0) mod 2 ^ 64) by (rewrite Z.add_0_r, Z.mod_small; lia).
  destruct o; cbn [exec_unlock is_cancel]; rewrite ?bool_decide_eq_false_2 by done.
  - unfold resolve_unlock. destruct (slot s); [|done]. by destruct (_ || _).
  - reflexivity.
  - unfold wait_begin. destruct (negb _); [done|]. by case_bool_decide.
  - unfold wait_poll. by destruct (if cancelled then _ else _).
Qed.

Lemma epoch_history ops s :
  0 <= epoch s <= u64_max -> epoch (exec_unlocks s ops) = (epoch s + cancels ops) mod 2 ^ 64.
Proof.
  unfold exec_unlocks, u64_max. revert s. induction ops as [|o ops IH]; intros s He.
  - cbn. rewrite Z.add_0_r, Z.mod_small by lia. done.
  - cbn. rewrite IH; rewrite (epoch_exec o s) by done; [|pose proof (Z.mod_pos_bound (epoch s + if is_cancel o then 1 else 0) (2 ^ 64)); lia].
    rewrite cancels_cons, Z.add_mod_idemp_l by lia. f_equal. lia.
Qed.

(** What the registered caller may find in the slot. *)
Definition answered (id : Uuid) (ops : list unlock_op) (s : UnlockRequests) : Prop :=
  exists u, slot s = Some u /\ unlock_id (unlock_request u) = id /\
    (unlock_decision u = Some (Ok tt) -> OpResolve id true ∈ ops /\ OpCancel ∉ ops) /\
    (OpCancel ∈ ops -> unlock_decision u = Some (Err ApprovalCancelled)).

Definition not_round (o : unlock_op) : Prop := match o with OpRound _ _ => False | _ => True end.

Lemma answered_same id ops s o :
  answered id ops s -> o <> OpCancel -> answered id (ops ++ [o]) s.
Proof. intros (u & Hu & Hi & Hd & Hc) Ho. exists u. set_solver. Qed.

Lemma answered_exec id ops s o : answered id ops s -> not_round o -> answered id (ops ++ [o]) (exec_unlock s o).
Proof.
  intros Ha Ho. pose proof (answered_same id ops s o Ha) as Hsame.
  destruct Ha as (u & Hu & Hi & Hd & Hc). destruct o as [id' allow| |seen id' l p|]; [| | |done]; cbn.
  - unfold resolve_unlock. rewrite Hu.
    destruct (negb (bool_decide (unlock_id (unlock_request u) = id')) || _) eqn:Hg; [by apply Hsame|].
    bool_hyps. exists (decide_unlock (if allow then Ok tt else Err ApprovalDenied) u). split_and!; [done|done| |].
    + destruct allow; [intros _|done]. split; [set_solver|]. intros Hin.
      assert (OpCancel ∈ ops) by set_solver. naive_solver.
    + intros Hin. assert (OpCancel ∈ ops) by set_solver. naive_solver.
  - exists (decide_unlock (Err ApprovalCancelled) u). unfold cancel_unlock. rewrite Hu. by split_and!.
  - unfold wait_begin. rewrite Hu. destruct (negb _); by apply Hsame.
Qed.

Lemma answered_history id s ops :
  answered id [] s -> Forall not_round ops -> answered id ops (exec_unlocks s ops).
Proof.
  intros Ha. unfold exec_unlocks. induction ops as [|o ops IH] using rev_ind; [done|].
  intros [Hf Ho]%Forall_app. rewrite fold_left_app. cbn. apply answered_exec; [by apply IH|by apply Forall_inv in Ho].
Qed.

(** An unlock that an agent is told of is the user's, and current: when the wait of a
    caller that read the epoch before it looked at the vault answers success, the user
    allowed this very request after it was made, and no lock was requested since the
    epoch was read (as long as fewer than 2^64 operations ran in between). *)
Theorem unlock_is_current s0 ops1 id label purpose s2 ops2 cancelled timed_out s4 :
  0 <= epoch s0 <= u64_max -> Z.of_nat (length ops1) <= u64_max ->
  wait_begin (epoch s0) id label purpose (exec_unlocks s0 ops1) = Ok s2 ->
  Forall not_round ops2 ->
  wait_poll cancelled timed_out (exec_unlocks s2 ops2) = (Some (Ok tt), s4) ->
  OpCancel ∉ (ops1 ++ ops2) /\ OpResolve id true ∈ ops2 /\ cancelled = false /\ timed_out = false.
Proof.
  intros He Hlen Hbegin Hf Hpoll. unfold wait_begin in Hbegin.
  destruct (epoch s0 =? epoch (exec_unlocks s0 ops1)) eqn:Hep; [|done]. cbn in Hbegin.
  case_bool_decide; [done|]. injection Hbegin as <-. apply Z.eqb_eq in Hep.
  set (s2 := {| slot := _; epoch := _ |}) in *.
  assert (Ha : answered id ops2 (exec_unlocks s2 ops2)).
  { apply answered_history; [|done]. eexists. split; [reflexivity|]. cbn. set_solver. }
  destruct Ha as (u & Hu & _ & Hd & _). unfold wait_poll in Hpoll.
  destruct cancelled; [done|]. destruct timed_out; [done|]. rewrite Hu in Hpoll. cbn in Hpoll.
  destruct (unlock_decision u) as [d|] eqn:Hdec; [|done]. injection Hpoll as -> _.
  destruct (Hd eq_refl) as [Hres Hno]. split_and!; [|done..].
  apply not_elem_of_app. split; [|done]. apply cancels_zero.
  rewrite epoch_history in Hep by done.
  assert (0 <= cancels ops1 <= Z.of_nat (length ops1)).
  { unfold cancels. pose proof (List.filter_length_le is_cancel ops1). lia. }
  unfold u64_max in *. destruct (Z.lt_ge_cases (epoch s0 + cancels ops1) (2 ^ 64)) as [Hlt|Hge].
  - rewrite Z.mod_small in Hep by lia. lia.
  - rewrite <- (Z.mod_unique (epoch s0 + cancels ops1) (2 ^ 64) 1 (epoch s0 + cancels ops1 - 2 ^ 64)) in Hep by lia.
    lia.
Qed.

Example unlock_is_current_witness :
  let s0 := unlock_requests_new in
  let s2 := exec_unlocks s0 [OpResolve 9 true; OpWait 0 5 "agent" "List secret names"] in
  let s3 := exec_unlocks s2 [OpResolve 5 true] in
  wait_poll false false s3 = (Some (Ok tt), unlock_requests_new) /\
  (OpCancel ∉ ([OpResolve 9 true] ++ [OpResolve 5 true]) /\ OpResolve 5 true ∈ [OpResolve 5 true] /\
   false = false /\ false = false).
Proof.
  intros s0 s2 s3. split; [vm_compute; reflexivity|].
  apply (unlock_is_current s0 [OpResolve 9 true] 5 "agent" "List secret names" s2 [OpResolve 5 true] false false
    unlock_requests_new); try (vm_compute; reflexivity); repeat constructor; vm_compute; discriminate.
Defined.
