(* ===== verification/UiLocks.v ===== *)
(** * UiLocks: [UiLockCoordinator] of [crates/ladon-app/src/agent_broker.rs]

    A lock that an agent asked for and the user interface's own cleanups take
    turns.  A worker begins a request, does the locking, announces it with
    [finish_request] and waits until the interface has wiped its state and
    acknowledges; a local operation is a guard that the interface or a cleanup
    thread holds.  Waits split a method into its critical sections. *)

From S2P Require Import Prelude Errors Model UnlockRequests.
Local Open Scope Z_scope.

(** [struct UiLockState], with the unlock requests of [struct UiLockCoordinator]. *)
Record UiLockState := {
  requested : Z;
  acknowledged : Z;
  ready : option Z;
  local_operation : bool;
  connected : bool;
}.
Record UiLocks := {
  ui_state : UiLockState;
  unlock_requests : UnlockRequests;
}.

(** [UiLockCoordinator::new]. *)
Definition ui_locks_new : UiLocks := {|
  ui_state := {| requested := 0; acknowledged := 0; ready := None; local_operation := false; connected := true |};
  unlock_requests := unlock_requests_new;
|}.

(** [state.requested > state.acknowledged]: [request_in_progress]. *)
Definition request_in_progress (u : UiLocks) : bool := acknowledged (ui_state u) <? requested (ui_state u).

(** [begin_request] after its wait; [None] while it waits. *)
Definition begin_request (u : UiLocks) : option (LResult (Z * UiLocks)) :=
  let s := ui_state u in
  if (request_in_progress u || local_operation s) && connected s then None
  else Some (
    if negb (connected s) then Err EndpointUnavailable
    else
      requested' ← ok_or (checked_add u64_max (requested s) 1) ProcessFailure;
      Ok (requested', {|
        ui_state := {| requested := requested'; acknowledged := acknowledged s; ready := ready s;
                       local_operation := local_operation s; connected := connected s |};
        unlock_requests := cancel_unlock (unlock_requests u) |})).

Definition set_local (b : bool) (u : UiLocks) : UiLocks := {|
  ui_state := {| requested := requested (ui_state u); acknowledged := acknowledged (ui_state u);
                 ready := ready (ui_state u); local_operation := b; connected := connected (ui_state u) |};
  unlock_requests := unlock_requests u |}.

(** [try_begin_local_operation]; [Ok None] leaves the turn to an external lock. *)
Definition try_begin_local_operation (u : UiLocks) : LResult (option UiLocks) :=
  if negb (connected (ui_state u)) then Err EndpointUnavailable
  else if request_in_progress u then Ok None
  else if local_operation (ui_state u) then Err Busy
  else Ok (Some (set_local true u)).

(** A round of [wait_begin_local_operation]; [None] is another wait. *)
Definition wait_begin_local_operation (u : UiLocks) : option (LResult (option UiLocks)) :=
  if negb (connected (ui_state u)) then Some (Err EndpointUnavailable)
  else if request_in_progress u then Some (Ok None)
  else if negb (local_operation (ui_state u)) then Some (Ok (Some (set_local true u)))
  else None.

(** [Drop for UiLocalOperation]. *)
Definition drop_local_operation (u : UiLocks) : UiLocks := set_local false u.

(** [finish_request]: the announcement, and a round of its wait. *)
Definition finish_announce (request_id : Z) (u : UiLocks) : LResult UiLocks :=
  let s := ui_state u in
  if negb (request_id =? requested s) || (request_id <=? acknowledged s) then Err InvalidRequest
  else Ok {|
    ui_state := {| requested := requested s; acknowledged := acknowledged s; ready := Some request_id;
                   local_operation := local_operation s; connected := connected s |};
    unlock_requests := unlock_requests u |}.
Definition finish_wait (request_id : Z) (u : UiLocks) : option (LResult unit) :=
  let s := ui_state u in
  if (acknowledged s <? request_id) && connected s then None
  else Some (if request_id <=? acknowledged s then Ok tt else Err EndpointUnavailable).

(** [pending_request], [unlock_blocked] and [acknowledge]. *)
Definition pending_lock (u : UiLocks) : option Z :=
  if bool_decide (ready (ui_state u) = Some (requested (ui_state u))) && request_in_progress u
  then Some (requested (ui_state u)) else None.
Definition unlock_blocked (u : UiLocks) : bool :=
  negb (connected (ui_state u)) || local_operation (ui_state u) || request_in_progress u.
Definition acknowledge (request_id : Z) (u : UiLocks) : LResult UiLocks :=
  let s := ui_state u in
  if negb (request_id =? requested s) || negb (bool_decide (ready s = Some request_id))
     || (request_id <=? acknowledged s) then Err InvalidRequest
  else Ok {|
    ui_state := {| requested := requested s; acknowledged := request_id; ready := None;
                   local_operation := local_operation s; connected := connected s |};
    unlock_requests := unlock_requests u |}.

(** [disconnect]. *)
Definition disconnect (u : UiLocks) : UiLocks := {|
  ui_state := {| requested := requested (ui_state u); acknowledged := acknowledged (ui_state u);
                 ready := ready (ui_state u); local_operation := local_operation (ui_state u); connected := false |};
  unlock_requests := cancel_unlock (unlock_requests u) |}.

(** ** Threads *)

(** A worker that locks, one that waits for the acknowledgement, and the holder of a local
    operation. *)
Inductive UiRole : Set :=
| Locks (request_id : Z)
| Announced (request_id : Z)
| Local.
#[export] Instance UiRole_eq_dec : EqDecision UiRole.
Proof. solve_decision. Defined.
Record UiThreads := { locks : UiLocks; ui_roles : gmap nat UiRole }.

Definition set_unlock_requests (r : UnlockRequests) (u : UiLocks) : UiLocks :=
  {| ui_state := ui_state u; unlock_requests := r |}.

Inductive ui_step : UiThreads -> UiThreads -> Prop :=
| ui_begin w t request_id u : ui_roles w !! t = None -> begin_request (locks w) = Some (Ok (request_id, u)) ->
    ui_step w {| locks := u; ui_roles := <[t := Locks request_id]> (ui_roles w) |}
| ui_try_local w t u : ui_roles w !! t = None -> try_begin_local_operation (locks w) = Ok (Some u) ->
    ui_step w {| locks := u; ui_roles := <[t := Local]> (ui_roles w) |}
| ui_wait_local w t u : ui_roles w !! t = None -> wait_begin_local_operation (locks w) = Some (Ok (Some u)) ->
    ui_step w {| locks := u; ui_roles := <[t := Local]> (ui_roles w) |}
| ui_drop_local w t : ui_roles w !! t = Some Local ->
    ui_step w {| locks := drop_local_operation (locks w); ui_roles := delete t (ui_roles w) |}
| ui_announce w t request_id u : ui_roles w !! t = Some (Locks request_id) ->
    finish_announce request_id (locks w) = Ok u ->
    ui_step w {| locks := u; ui_roles := <[t := Announced request_id]> (ui_roles w) |}
| ui_finished w t request_id answer : ui_roles w !! t = Some (Announced request_id) ->
    finish_wait request_id (locks w) = Some answer ->
    ui_step w {| locks := locks w; ui_roles := delete t (ui_roles w) |}
| ui_acknowledge w request_id u : acknowledge request_id (locks w) = Ok u ->
    ui_step w {| locks := u; ui_roles := ui_roles w |}
| ui_disconnect w : ui_step w {| locks := disconnect (locks w); ui_roles := ui_roles w |}
| ui_unlock_requests w r : ui_step w {| locks := set_unlock_requests r (locks w); ui_roles := ui_roles w |}.

Definition ui_threads_new : UiThreads := {| locks := ui_locks_new; ui_roles := ∅ |}.
Definition ui_reachable : UiThreads -> Prop := rtc ui_step ui_threads_new.

(** ** The invariant *)

(** Whose turn it is: a worker's, until its request is acknowledged, or a local holder's. *)
Definition has_turn (u : UiLocks) (r : UiRole) : Prop :=
  match r with Announced request_id => acknowledged (ui_state u) < request_id | _ => True end.

Record turns (w : UiThreads) : Prop := {
  turns_bounds : let s := ui_state (locks w) in
    0 <= acknowledged s <= requested s /\ requested s <= acknowledged s + 1 /\ requested s <= u64_max;
  turns_locks t id : ui_roles w !! t = Some (Locks id) ->
    id = requested (ui_state (locks w)) /\ acknowledged (ui_state (locks w)) < id /\ ready (ui_state (locks w)) = None;
  turns_announced t id : ui_roles w !! t = Some (Announced id) ->
    id <= requested (ui_state (locks w)) /\
    (acknowledged (ui_state (locks w)) < id -> ready (ui_state (locks w)) = Some id);
  turns_one t t' r r' : ui_roles w !! t = Some r -> ui_roles w !! t' = Some r' ->
    has_turn (locks w) r -> has_turn (locks w) r' -> t = t';
  turns_local : if local_operation (ui_state (locks w))
    then requested (ui_state (locks w)) = acknowledged (ui_state (locks w)) /\ exists t, ui_roles w !! t = Some Local
    else forall t, ui_roles w !! t <> Some Local;
  turns_ready id : ready (ui_state (locks w)) = Some id ->
    id = requested (ui_state (locks w)) /\ acknowledged (ui_state (locks w)) < id;
  turns_request : connected (ui_state (locks w)) = true -> request_in_progress (locks w) = true ->
    exists t, ui_roles w !! t = Some (Locks (requested (ui_state (locks w)))) \/
              ui_roles w !! t = Some (Announced (requested (ui_state (locks w))));
}.

Lemma turns_new : turns ui_threads_new.
Proof. split; cbn; intros; rewrite ?lookup_empty in *; try done. Qed.

(** Nobody has the turn when no request is open and no local operation runs. *)
Lemma turn_free w t r :
  turns w -> request_in_progress (locks w) = false -> local_operation (ui_state (locks w)) = false ->
  ui_roles w !! t = Some r -> ~ has_turn (locks w) r.
Proof.
  intros Hw Hr Hl Ht. apply Z.ltb_ge in Hr. pose proof (turns_local w Hw) as Hloc. rewrite Hl in Hloc.
  destruct r as [id|id|]; cbn.
  - destruct (turns_locks w Hw t id Ht) as (-> & ? & _). lia.
  - destruct (turns_announced w Hw t id Ht). lia.
  - intros _. by apply (Hloc t).
Qed.

(** A thread takes the free turn. *)
Lemma turns_take w t r u :
  turns w -> request_in_progress (locks w) = false -> local_operation (ui_state (locks w)) = false ->
  acknowledged (ui_state u) = acknowledged (ui_state (locks w)) ->
  forall t1 t2 r1 r2, <[t := r]> (ui_roles w) !! t1 = Some r1 -> <[t := r]> (ui_roles w) !! t2 = Some r2 ->
    has_turn u r1 -> has_turn u r2 -> t1 = t2.
Proof.
  intros Hw Hr Hl Hu t1 t2 r1 r2 H1 H2 Ht1 Ht2.
  assert (Hsame : forall r, has_turn u r -> has_turn (locks w) r) by (intros []; cbn; by rewrite ?Hu).
  map_cases; [done|..]; exfalso;
    match goal with Hin : ui_roles w !! _ = Some _ |- _ => apply (turn_free w _ _ Hw Hr Hl Hin); auto end.
Qed.

Lemma turns_local_begin w t :
  turns w -> ui_roles w !! t = None -> request_in_progress (locks w) = false ->
  local_operation (ui_state (locks w)) = false ->
  turns {| locks := set_local true (locks w); ui_roles := <[t := Local]> (ui_roles w) |}.
Proof.
  intros Hw Ht Hr Hl. pose proof (turns_take w t Local (set_local true (locks w)) Hw Hr Hl eq_refl) as Hone.
  apply Z.ltb_ge in Hr as Hge. destruct Hw as [Hb Hlk Han _ Hloc Hrd Hq]. split; cbn; try done.
  - intros t1 id H1. map_cases. by eapply Hlk.
  - intros t1 id H1. map_cases. by eapply Han.
  - split; [cbn in Hb; lia|]. exists t. by rewrite lookup_insert_eq.
  - intros _ Hp. unfold request_in_progress in Hp, Hr. cbn in Hp. congruence.
Qed.

Lemma turns_begin w t id u :
  turns w -> ui_roles w !! t = None -> begin_request (locks w) = Some (Ok (id, u)) ->
  turns {| locks := u; ui_roles := <[t := Locks id]> (ui_roles w) |}.
Proof.
  intros Hw Ht Hu. unfold begin_request in Hu.
  destruct (connected (ui_state (locks w))) eqn:Hc; [|by destruct (_ && _)]. rewrite andb_true_r in Hu.
  destruct (request_in_progress (locks w)) eqn:Hr; [done|].
  destruct (local_operation (ui_state (locks w))) eqn:Hl; [done|]. cbn in Hu.
  destruct (checked_add u64_max (requested (ui_state (locks w))) 1) as [n|] eqn:Hn; [|done]. cbn in Hu.
  injection Hu as <- <-. apply checked_add_Some in Hn as [-> Hmax].
  set (u := {| ui_state := _; unlock_requests := _ |}).
  pose proof (turns_take w t (Locks (requested (ui_state (locks w)) + 1)) u Hw Hr Hl eq_refl) as Hone.
  apply Z.ltb_ge in Hr. destruct Hw as [Hb Hlk Han _ Hloc Hrd Hq]. cbn in Hb.
  assert (Hready : ready (ui_state (locks w)) = None).
  { destruct (ready (ui_state (locks w))) as [n|]; [|done]. destruct (Hrd n eq_refl). lia. }
  split; cbn.
  - lia.
  - intros t1 id H1. map_cases; [split_and!; [lia|lia|done]|]. destruct (Hlk _ _ H1) as (-> & ? & _). lia.
  - intros t1 id H1. map_cases. destruct (Han _ _ H1). split; [lia|auto].
  - exact Hone.
  - rewrite Hl in *. intros t1 H1. map_cases. by eapply Hloc.
  - intros n Hn. congruence.
  - intros _ _. exists t. left. by rewrite lookup_insert_eq.
Qed.

Lemma turns_drop_local w t :
  turns w -> ui_roles w !! t = Some Local ->
  turns {| locks := drop_local_operation (locks w); ui_roles := delete t (ui_roles w) |}.
Proof.
  intros [Hb Hlk Han Hone Hloc Hrd Hq] Ht. split; cbn; try done.
  - intros t1 id H1. map_cases. by eapply Hlk.
  - intros t1 id H1. map_cases. by eapply Han.
  - intros t1 t2 r1 r2 H1 H2 Ht1 Ht2. map_cases. eapply Hone; eassumption.
  - intros t1 H1. map_cases. match goal with Hne : t <> t1 |- _ => apply Hne end. by eapply Hone.
  - intros Hc Hr. destruct (Hq Hc Hr) as [t1 H1]. exists t1.
    by rewrite lookup_delete_ne by (intros ->; naive_solver).
Qed.

(** A worker announces that it has locked. *)
Lemma turns_announce w t id u :
  turns w -> ui_roles w !! t = Some (Locks id) -> finish_announce id (locks w) = Ok u ->
  turns {| locks := u; ui_roles := <[t := Announced id]> (ui_roles w) |}.
Proof.
  intros [Hb Hlk Han Hone Hloc Hrd Hq] Ht. unfold finish_announce.
  destruct (negb _ || _) eqn:Hg; [done|]. intros [= <-]. bool_hyps. destruct (Hlk _ _ Ht) as (-> & Hlt & Hn).
  assert (Hturn : forall t' r, ui_roles w !! t' = Some r -> has_turn (locks w) r -> t' = t).
  { intros t' r H' Hr. exact (Hone t' t r _ H' Ht Hr I). }
  split; cbn.
  - done.
  - intros t1 id H1. map_cases. exfalso. match goal with Hne : t <> t1 |- _ => apply Hne end.
    symmetry. by eapply Hturn.
  - intros t1 id H1. map_cases; [split; [lia|done]|]. destruct (Han _ _ H1) as [Hle Hr]. split; [done|].
    intros Hlt'. rewrite Hn in Hr. by specialize (Hr Hlt').
  - intros t1 t2 r1 r2 H1 H2 Ht1 Ht2. map_cases;
      solve [done|eapply Hone; eassumption|eapply Hturn; eassumption|symmetry; eapply Hturn; eassumption].
  - destruct (local_operation (ui_state (locks w))).
    + destruct Hloc as [? _]. lia.
    + intros t1 H1. map_cases. by eapply Hloc.
  - intros n [= <-]. done.
  - intros _ _. exists t. right. by rewrite lookup_insert_eq.
Qed.

Lemma turns_finished w t id answer :
  turns w -> ui_roles w !! t = Some (Announced id) -> finish_wait id (locks w) = Some answer ->
  turns {| locks := locks w; ui_roles := delete t (ui_roles w) |}.
Proof.
  intros [Hb Hlk Han Hone Hloc Hrd Hq] Ht Hf. split; cbn; try done.
  - intros t1 id' H1. map_cases. by eapply Hlk.
  - intros t1 id' H1. map_cases. by eapply Han.
  - intros t1 t2 r1 r2 H1 H2 Ht1 Ht2. map_cases. by eapply Hone.
  - destruct (local_operation (ui_state (locks w))).
    + destruct Hloc as [? [t1 Ht1]]. split; [done|]. exists t1. rewrite lookup_delete_ne; [done|]. congruence.
    + intros t1 H1. map_cases. by eapply Hloc.
  - intros Hc Hr. destruct (Hq Hc Hr) as [t1 H1]. exists t1. rewrite lookup_delete_ne; [done|]. intros <-.
    unfold finish_wait in Hf. rewrite Hc, andb_true_r in Hf. apply Z.ltb_lt in Hr.
    destruct H1 as [H1|H1]; rewrite Ht in H1; [done|]. injection H1 as ->.
    by rewrite (proj2 (Z.ltb_lt _ _) Hr) in Hf.
Qed.

Lemma turns_acknowledge w id u :
  turns w -> acknowledge id (locks w) = Ok u -> turns {| locks := u; ui_roles := ui_roles w |}.
Proof.
  intros [Hb Hlk Han Hone Hloc Hrd Hq]. unfold acknowledge. cbn in Hb.
  destruct (negb _ || _ || _) eqn:Hg; [done|]. intros [= <-]. bool_hyps. subst id.
  assert (Hturn : forall t r, ui_roles w !! t = Some r ->
    match r with Announced id => requested (ui_state (locks w)) < id | _ => True end -> has_turn (locks w) r).
  { intros t r Ht Hr. destruct r as [|id|]; try done. destruct (Han _ _ Ht). lia. }
  split; cbn.
  - lia.
  - intros t id Ht. destruct (Hlk _ _ Ht) as (-> & ? & ?). congruence.
  - intros t id Ht. destruct (Han _ _ Ht) as [Hle _]. split; [done|lia].
  - intros t t' r r' Ht Ht' Hr Hr'. by eapply Hone; eauto.
  - destruct (local_operation (ui_state (locks w))); [|done]. destruct Hloc. by split.
  - done.
  - intros _ Hr. unfold request_in_progress in Hr. cbn in Hr. lia.
Qed.

Lemma turns_same w u :
  turns w -> requested (ui_state u) = requested (ui_state (locks w)) ->
  acknowledged (ui_state u) = acknowledged (ui_state (locks w)) -> ready (ui_state u) = ready (ui_state (locks w)) ->
  local_operation (ui_state u) = local_operation (ui_state (locks w)) ->
  (connected (ui_state u) = true -> connected (ui_state (locks w)) = true) ->
  turns {| locks := u; ui_roles := ui_roles w |}.
Proof.
  intros [Hb Hlk Han Hone Hloc Hrd Hq] Hr Ha Hre Hl Hc. split; cbn in *; rewrite ?Hr, ?Ha, ?Hre, ?Hl; try done.
  - intros t t' r r' H1 H2 Ht1 Ht2. eapply Hone; [done..| |];
      [destruct r|destruct r']; cbn in *; rewrite ?Ha in *; done.
  - unfold request_in_progress in *. rewrite Hr, Ha. auto.
Qed.

Lemma turns_step w w' : ui_step w w' -> turns w -> turns w'.
Proof.
  intros Hs Hw. destruct Hs as [w t id u Ht Hu|w t u Ht Hu|w t u Ht Hu|w t Ht|w t id u Ht Hu|w t id a Ht Hu|w id u Hu|w|w r].
  - by eapply turns_begin.
  - unfold try_begin_local_operation in Hu. destruct (connected _); [|done]. cbn in Hu.
    destruct (request_in_progress _) eqn:Hr; [done|]. destruct (local_operation _) eqn:Hl; [done|].
    injection Hu as <-. by apply turns_local_begin.
  - unfold wait_begin_local_operation in Hu. destruct (connected _); [|done]. cbn in Hu.
    destruct (request_in_progress _) eqn:Hr; [done|]. destruct (local_operation _) eqn:Hl; [done|].
    injection Hu as <-. by apply turns_local_begin.
  - by apply turns_drop_local.
  - by eapply turns_announce.
  - by eapply turns_finished.
  - by eapply turns_acknowledge.
  - by apply turns_same.
  - by apply turns_same.
Qed.

Lemma turns_reachable w : ui_reachable w -> turns w.
Proof.
  intros Hw. pattern w. eapply rtc_ind_r; [apply turns_new| |exact Hw]. intros y z _ Hs Hy. by eapply turns_step.
Qed.

(** Locks asked for by agents and the cleanups of the user interface take turns: in
    every reachable state at most one thread has the turn, whichever kind it is, and
    while one has it no other lock request and no local operation begins and agents are
    told that unlocking is blocked. *)
Theorem turn_is_exclusive w t r :
  ui_reachable w -> ui_roles w !! t = Some r -> has_turn (locks w) r ->
  (forall t' r', ui_roles w !! t' = Some r' -> has_turn (locks w) r' -> t' = t) /\
  (connected (ui_state (locks w)) = true -> begin_request (locks w) = None) /\
  (forall u, try_begin_local_operation (locks w) <> Ok (Some u) /\
     wait_begin_local_operation (locks w) <> Some (Ok (Some u))) /\
  unlock_blocked (locks w) = true.
Proof.
  intros Hw%turns_reachable Ht Hr.
  assert (Hbusy : request_in_progress (locks w) = true \/ local_operation (ui_state (locks w)) = true).
  { destruct (request_in_progress (locks w)) eqn:Hp; [by left|].
    destruct (local_operation (ui_state (locks w))) eqn:Hl; [by right|]. by destruct (turn_free w t r Hw Hp Hl Ht). }
  split_and!.
  - intros t' r' Ht' Hr'. by eapply turns_one.
  - intros Hc. unfold begin_request. rewrite Hc. by destruct Hbusy as [-> | ->]; rewrite ?orb_true_r.
  - intros u. unfold try_begin_local_operation, wait_begin_local_operation.
    destruct (connected _); cbn; [|done]. destruct (request_in_progress (locks w)); [done|].
    destruct Hbusy as [|Hl]; [done|]. by rewrite Hl.
  - unfold unlock_blocked. by destruct Hbusy as [-> | ->]; rewrite ?orb_true_r.
Qed.

(** A lock asked for by an agent completes: the worker's announcement is never refused,
    the user interface then sees the request, its acknowledgement succeeds and ends the
    worker's wait with success; and while the interface is connected an open request
    always has a worker that will announce it or has. *)
Theorem external_lock_completes w :
  ui_reachable w ->
  (forall t id, ui_roles w !! t = Some (Locks id) ->
     exists u, finish_announce id (locks w) = Ok u /\ pending_lock u = Some id) /\
  (forall t id, ui_roles w !! t = Some (Announced id) -> acknowledged (ui_state (locks w)) < id ->
     pending_lock (locks w) = Some id /\
     exists u, acknowledge id (locks w) = Ok u /\ finish_wait id u = Some (Ok tt)) /\
  (connected (ui_state (locks w)) = true -> request_in_progress (locks w) = true ->
     exists t, ui_roles w !! t = Some (Locks (requested (ui_state (locks w)))) \/
               ui_roles w !! t = Some (Announced (requested (ui_state (locks w))))).
Proof.
  intros Hw%turns_reachable. split_and!; [| |apply (turns_request w Hw)].
  - intros t id Ht. destruct (turns_locks w Hw t id Ht) as (-> & Hlt & _).
    unfold finish_announce. rewrite Z.eqb_refl, (proj2 (Z.leb_gt _ _)) by done. eexists. split; [reflexivity|].
    unfold pending_lock, request_in_progress. cbn.
    by rewrite bool_decide_eq_true_2, (proj2 (Z.ltb_lt _ _)).
  - intros t id Ht Hlt. destruct (turns_announced w Hw t id Ht) as [_ Hr]. specialize (Hr Hlt).
    destruct (turns_ready w Hw id Hr) as [-> _]. split.
    + unfold pending_lock, request_in_progress. by rewrite bool_decide_eq_true_2, (proj2 (Z.ltb_lt _ _)).
    + unfold acknowledge. rewrite Z.eqb_refl, bool_decide_eq_true_2, (proj2 (Z.leb_gt _ _)) by done.
      eexists. split; [reflexivity|]. unfold finish_wait. cbn. by rewrite Z.ltb_irrefl, Z.leb_refl.
Qed.

Definition example_locking : UiThreads := {|
  locks := {|
    ui_state := {| requested := 1; acknowledged := 0; ready := None; local_operation := false; connected := true |};
    unlock_requests := cancel_unlock unlock_requests_new |};
  ui_roles := <[1%nat := Locks 1]> ∅ |}.

Lemma example_locking_reachable : ui_reachable example_locking.
Proof. apply rtc_once, (ui_begin ui_threads_new 1 1); reflexivity. Defined.

Example turn_is_exclusive_witness :
  ui_reachable example_locking /\ has_turn (locks example_locking) (Locks 1) /\
  unlock_blocked (locks example_locking) = true.
Proof.
  split; [apply example_locking_reachable|]. split; [exact I|].
  apply (turn_is_exclusive example_locking 1 (Locks 1)); [apply example_locking_reachable|reflexivity|exact I].
Defined.

Example external_lock_completes_witness :
  ui_reachable example_locking /\
  exists u, finish_announce 1 (locks example_locking) = Ok u /\ pending_lock u = Some 1.
Proof.
  split; [apply example_locking_reachable|].
  destruct (external_lock_completes example_locking example_locking_reachable) as [Ha _].
  by apply (Ha 1%nat).
Defined.
