(* ===== verification/Editor.v ===== *)
(** * Editor: drafts and views of the user interface

    [crates/ladon-app/src/secret_editor.rs] (the draft of an existing secret) and
    the parts of [crates/ladon-app/src/ui.rs] that do not touch the vault: text
    buffers, the draft of a new secret, the view of a pending request, and
    [SecretDetailState], which decides when a secret value may be shown. *)

From S2P Require Import Prelude Errors Time Utf8 Text Model Approval.
Local Open Scope Z_scope.

Definition MIN_PASSPHRASE_SCALARS : Z := 12.
Definition MAX_PASSPHRASE_BYTES : Z := 1024.

(** ** Text buffers *)

(** [struct SensitiveText]: a [String] that is wiped. *)
Abbreviation SensitiveText := string (only parsing).
Definition push_text (value : string) (text : SensitiveText) : SensitiveText := String.append text value.

(** [text.char_indices().nth(n).map_or(text.len(), |(index, _)| index)]. *)
Definition char_index (text : SensitiveText) (n : nat) : nat := length (concat (take n (chars (bytes_of text)))).

(** [insert_text] and [delete_char_range]. *)
Definition insert_text (text : string) (at_char : nat) (buffer : SensitiveText) : nat * SensitiveText :=
  let b := bytes_of buffer in
  let i := char_index buffer at_char in
  (length (chars (bytes_of text)), string_of (take i b ++ bytes_of text ++ drop i b)).
Definition delete_char_range (first last : nat) (buffer : SensitiveText) : SensitiveText :=
  let b := bytes_of buffer in
  string_of (take (char_index buffer first) b ++ drop (char_index buffer last) b).

(** [validate_new_passphrase]. *)
Definition validate_new_passphrase (passphrase confirmation : string) : LResult unit :=
  let scalar_count := zlen (chars (bytes_of passphrase)) in
  if bool_decide (passphrase = confirmation)
     && ((MIN_PASSPHRASE_SCALARS <=? scalar_count) && (scalar_count <=? MAX_PASSPHRASE_BYTES))
     && (slen passphrase <=? MAX_PASSPHRASE_BYTES)
  then Ok tt else Err InvalidPassphrase.

(** ** The draft of a new secret *)

(** [struct DraftField], [enum AddDraftValidationError] and [struct AddSecretDraft]. *)
Record DraftField := { draft_name : string; draft_value : SensitiveText }.
Inductive AddDraftValidationError : Set :=
| MissingName (field_index : nat)
| InvalidName (field_index : nat)
| DuplicateName (field_index : nat)
| ValueTooLarge (field_index : nat).
Definition field_index (e : AddDraftValidationError) : nat :=
  match e with MissingName i | InvalidName i | DuplicateName i | ValueTooLarge i => i end.
Definition as_ladon_error (e : AddDraftValidationError) : LadonError :=
  match e with
  | MissingName _ | InvalidName _ => InvalidFieldName
  | DuplicateName _ => DuplicateField
  | ValueTooLarge _ => FieldTooLarge
  end.
Record AddSecretDraft := { secret_name : string; draft_fields : list DraftField }.

(** [AddSecretDraft::new], [can_add_field], [add_field] and [remove_field]. *)
Definition draft_new : AddSecretDraft :=
  {| secret_name := ""; draft_fields := [{| draft_name := "value"; draft_value := "" |}] |}.
Definition can_add_field (d : AddSecretDraft) : bool := zlen (draft_fields d) <? MAX_FIELDS_PER_RECORD.
Definition add_field (d : AddSecretDraft) : AddSecretDraft :=
  if can_add_field d
  then {| secret_name := secret_name d; draft_fields := draft_fields d ++ [{| draft_name := ""; draft_value := "" |}] |}
  else d.
Definition remove_field (index : nat) (d : AddSecretDraft) : bool * AddSecretDraft :=
  if bool_decide (index = 0%nat) || (length (draft_fields d) <=? index)%nat then (false, d)
  else (true, {| secret_name := secret_name d; draft_fields := delete index (draft_fields d) |}).

(** [is_untouched], [included_fields] and [validate_fields]. *)
Definition is_untouched (f : DraftField) : bool :=
  bool_decide (draft_name f = "") && bool_decide (draft_value f = "").
Definition included_fields (d : AddSecretDraft) : list (nat * DraftField) :=
  List.filter (fun nf => bool_decide (nf.1 = 0%nat) || negb (is_untouched nf.2)) (imap pair (draft_fields d)).
Definition validate_field_at (i : nat) (f : DraftField) : option AddDraftValidationError :=
  if (0 <? i)%nat && bool_decide (draft_name f = "") then Some (MissingName i)
  else match FieldName_parse (draft_name f) with
       | Err _ => Some (InvalidName i)
       | Ok _ => if MAX_FIELD_BYTES <? slen (draft_value f) then Some (ValueTooLarge i) else None
       end.
Fixpoint validate_loop (names : gset string) (l : list (nat * DraftField)) : option AddDraftValidationError :=
  match l with
  | [] => None
  | (i, f) :: rest =>
    match validate_field_at i f with
    | Some e => Some e
    | None => if bool_decide (draft_name f ∈ names) then Some (DuplicateName i)
              else validate_loop ({[draft_name f]} ∪ names) rest
    end
  end.
Definition validate_fields (d : AddSecretDraft) : option AddDraftValidationError :=
  validate_loop ∅ (included_fields d).

(** The fields [add_secret] makes of a draft. *)
Definition draft_secret_fields (d : AddSecretDraft) : LResult (list SecretField) :=
  mapM (fun nf => name ← FieldName_parse (draft_name nf.2);
                  SecretField_new name (bytes_of (draft_value nf.2)) Text) (included_fields d).

(** ** The draft of an existing secret *)

(** [enum EditableValue], [struct EditableField] and [struct EditSecretDraft]. *)
Inductive EditableValue : Type :=
| EditText (value : SensitiveText)
| EditBinary (value : bytes) (original_hint : TextHint).
Record EditableField := { editable_name : string; editable_value : EditableValue }.
Record EditSecretDraft := { draft_id : SecretId; draft_secret_name : string; editable_fields : list EditableField }.

(** [EditSecretDraft::from_record]. *)
Definition editable_of (f : SecretField) : EditableField := {|
  editable_name := field_name f;
  editable_value :=
    if bool_decide (field_hint f = Text) && is_utf8 (field_value f)
    then EditText (string_of (field_value f)) else EditBinary (field_value f) (field_hint f) |}.
Definition from_record (r : SecretRecord) : EditSecretDraft := {|
  draft_id := record_id r; draft_secret_name := record_name r;
  editable_fields := editable_of <$> record_fields r |}.

(** [add_text_field] and [EditSecretDraft::remove_field]. *)
Definition add_text_field (d : EditSecretDraft) : EditSecretDraft := {|
  draft_id := draft_id d; draft_secret_name := draft_secret_name d;
  editable_fields := editable_fields d ++ [{| editable_name := ""; editable_value := EditText "" |}] |}.
Definition remove_editable_field (index : nat) (d : EditSecretDraft) : bool * EditSecretDraft :=
  if (length (editable_fields d) <=? 1)%nat || (length (editable_fields d) <=? index)%nat then (false, d)
  else (true, {| draft_id := draft_id d; draft_secret_name := draft_secret_name d;
                 editable_fields := delete index (editable_fields d) |}).

(** [validate_field] and [EditSecretDraft::to_fields]. *)
Definition validate_field (name : string) (value_len : Z) : LResult string :=
  name ← FieldName_parse name;
  if MAX_FIELD_BYTES <? value_len then Err FieldTooLarge else Ok name.
Definition to_field (f : EditableField) : LResult SecretField :=
  let '(value, hint) :=
    match editable_value f with EditText text => (bytes_of text, Text) | EditBinary b hint => (b, hint) end in
  name ← validate_field (editable_name f) (zlen value);
  SecretField_new name value hint.
Definition to_fields (d : EditSecretDraft) : LResult (list SecretField) := mapM to_field (editable_fields d).

(** ** Text of other programs *)

(** [format!("\\u{{{codepoint:x}}}")]. *)
Fixpoint hex_loop (fuel : nat) (n : Z) (acc : bytes) : bytes :=
  match fuel with
  | O => acc
  | S fuel =>
    let acc := Prelude.hex_digit false (n mod 16) :: acc in
    if n <? 16 then acc else hex_loop fuel (n / 16) acc
  end.
Definition hex_lower (n : Z) : bytes := hex_loop 6 n [].
Definition unicode_escape (c : Z) : bytes := bytes_of "\u{" ++ hex_lower c ++ bytes_of "}".

(** [sanitize_untrusted]: control and bidirectional formatting characters are escaped. *)
Definition is_unsafe (character : bytes) : bool :=
  let c := code_point character in
  is_control character || (c =? 0x061c) || (c =? 0x200e) || (c =? 0x200f)
  || ((0x202a <=? c) && (c <=? 0x202e)) || ((0x2066 <=? c) && (c <=? 0x2069)).
Definition sanitize_char (character : bytes) : bytes :=
  if is_unsafe character then unicode_escape (code_point character) else character.
Definition sanitize_untrusted (input : string) : string :=
  string_of (concat (sanitize_char <$> chars (bytes_of input))).

(** [struct PendingRequestView] and [PendingRequestView::from_approval]. *)
Record PendingRequestView := {
  view_label : string;
  view_secrets : list (string * list string);
  view_executable : string;
  view_arguments : list string;
  view_directory : string;
  view_timeout : Duration;
}.
Definition view_new (label executable : string) (arguments : list string) (directory : string)
    (timeout : Duration) : PendingRequestView := {|
  view_label := sanitize_untrusted label; view_secrets := [];
  view_executable := sanitize_untrusted executable;
  view_arguments := sanitize_untrusted <$> arguments;
  view_directory := sanitize_untrusted directory; view_timeout := timeout |}.
Definition view_from_approval (r : PendingApproval) (timeout : Duration) : PendingRequestView :=
  let view := view_new (approval_label r) (approval_executable r) (approval_arguments r) (approval_directory r) timeout in
  {| view_label := view_label view;
     view_secrets := (fun x => (sanitize_untrusted (approval_secret_name x),
                                sanitize_untrusted <$> approval_secret_fields x)) <$> approval_secrets r;
     view_executable := view_executable view; view_arguments := view_arguments view;
     view_directory := view_directory view; view_timeout := view_timeout view |}.

(** ** Showing a secret *)

(** [enum DetailMode], [enum NavigationTarget], [enum NavigationResult],
    [struct LocalAuthAttempt] and [enum DetailStateError]. *)
Inductive DetailMode : Type :=
| Hidden
| Revealed (draft : EditSecretDraft)
| Editing (draft : EditSecretDraft) (dirty : bool).
Inductive NavigationTarget : Set := NavAdd | NavSessions | NavSecret (id : SecretId) | NavClose.
Inductive NavigationResult : Set := Applied | ConfirmDiscard.
Record LocalAuthAttempt := { attempt_vault : Uuid; attempt_secret : SecretId; attempt_epoch : Z }.
#[export] Instance LocalAuthAttempt_eq_dec : EqDecision LocalAuthAttempt.
Proof. solve_decision. Defined.
Inductive DetailStateError : Set := NotAuthorized | DraftDoesNotMatchSelection.

(** [struct SecretDetailState] and its default. *)
Record SecretDetailState := {
  navigation_target : NavigationTarget;
  selected : option SecretId;
  detail_authorized : option LocalAuthAttempt;
  selection_epoch : Z;
  mode : DetailMode;
  pending_navigation : option NavigationTarget;
}.
Definition detail_new : SecretDetailState := {|
  navigation_target := NavAdd; selected := None; detail_authorized := None; selection_epoch := 0;
  mode := Hidden; pending_navigation := None |}.

Definition set_mode (m : DetailMode) (s : SecretDetailState) : SecretDetailState := {|
  navigation_target := navigation_target s; selected := selected s; detail_authorized := detail_authorized s;
  selection_epoch := selection_epoch s; mode := m; pending_navigation := pending_navigation s |}.
Definition set_authorized (a : option LocalAuthAttempt) (s : SecretDetailState) : SecretDetailState := {|
  navigation_target := navigation_target s; selected := selected s; detail_authorized := a;
  selection_epoch := selection_epoch s; mode := mode s; pending_navigation := pending_navigation s |}.
Definition set_pending_navigation (p : option NavigationTarget) (s : SecretDetailState) : SecretDetailState := {|
  navigation_target := navigation_target s; selected := selected s; detail_authorized := detail_authorized s;
  selection_epoch := selection_epoch s; mode := mode s; pending_navigation := p |}.

(** [drop_sensitive_mode], which is also [hide_values] and [finish_save]. *)
Definition drop_sensitive_mode (s : SecretDetailState) : SecretDetailState := set_mode Hidden s.

(** [authorization_for_current_selection] and [is_authorized]. *)
Definition authorization_for_current_selection (vault : Uuid) (s : SecretDetailState) : option LocalAuthAttempt :=
  a ← detail_authorized s;
  if bool_decide (attempt_vault a = vault) && bool_decide (selected s = Some (attempt_secret a))
     && (selection_epoch s =? attempt_epoch a) then Some a else None.
Definition is_authorized (vault : Uuid) (s : SecretDetailState) : bool :=
  bool_decide (is_Some (authorization_for_current_selection vault s)).

(** [authentication_attempt] and [accept_authentication]. *)
Definition authentication_attempt (vault : Uuid) (s : SecretDetailState) : option LocalAuthAttempt :=
  (fun id => {| attempt_vault := vault; attempt_secret := id; attempt_epoch := selection_epoch s |}) <$> selected s.
Definition accept_authentication (attempt : LocalAuthAttempt) (vault : Uuid) (s : SecretDetailState) :
    bool * SecretDetailState :=
  if bool_decide (authentication_attempt vault s = Some attempt) then (true, set_authorized (Some attempt) s)
  else (false, s).

(** [begin_with_draft]: [begin_reveal] and [begin_edit]. *)
Definition begin_with_draft (vault : Uuid) (draft : EditSecretDraft) (editing : bool) (s : SecretDetailState) :
    result DetailStateError SecretDetailState :=
  match selected s with
  | None => Err DraftDoesNotMatchSelection
  | Some id =>
    if negb (bool_decide (draft_id draft = id)) then Err DraftDoesNotMatchSelection
    else match authorization_for_current_selection vault s with
         | None => Err NotAuthorized
         | Some _ => Ok (set_mode (if editing then Editing draft false else Revealed draft) s)
         end
  end.

(** [mark_dirty]. *)
Definition mark_dirty (s : SecretDetailState) : SecretDetailState :=
  match mode s with Editing draft _ => set_mode (Editing draft true) s | _ => s end.

(** [navigate_now], [request_navigation], [cancel_pending_navigation] and
    [discard_pending_navigation]. *)
Definition navigate_now (target : NavigationTarget) (s : SecretDetailState) : SecretDetailState := {|
  navigation_target := target;
  selected := match target with NavSecret id => Some id | _ => None end;
  detail_authorized := None;
  selection_epoch := wrapping_add_u64 (selection_epoch s) 1;
  mode := Hidden;
  pending_navigation := None |}.
Definition request_navigation (target : NavigationTarget) (s : SecretDetailState) :
    NavigationResult * SecretDetailState :=
  match mode s with
  | Editing _ true => (ConfirmDiscard, set_pending_navigation (Some target) s)
  | _ => (Applied, navigate_now target s)
  end.
Definition cancel_pending_navigation (s : SecretDetailState) : SecretDetailState := set_pending_navigation None s.
Definition discard_pending_navigation (s : SecretDetailState) : NavigationResult * SecretDetailState :=
  (Applied, match pending_navigation s with
            | Some target => navigate_now target (set_pending_navigation None s)
            | None => s
            end).

(** [clear_for_vault_lock], which is also [clear_for_close]. *)
Definition clear_for_vault_lock (s : SecretDetailState) : SecretDetailState := {|
  navigation_target := NavAdd; selected := None; detail_authorized := None;
  selection_epoch := wrapping_add_u64 (selection_epoch s) 1; mode := Hidden; pending_navigation := None |}.

(** ** Operations of the view *)
Inductive detail_op : Type :=
| DAccept (attempt : LocalAuthAttempt) (vault : Uuid)
| DBegin (vault : Uuid) (draft : EditSecretDraft) (editing : bool)
| DMarkDirty
| DHide
| DRequest (target : NavigationTarget)
| DCancel
| DDiscard
| DNavigate (target : NavigationTarget)
| DLock.
Definition detail_exec (s : SecretDetailState) (o : detail_op) : SecretDetailState :=
  match o with
  | DAccept attempt vault => (accept_authentication attempt vault s).2
  | DBegin vault draft editing => match begin_with_draft vault draft editing s with Ok s' => s' | Err _ => s end
  | DMarkDirty => mark_dirty s
  | DHide => drop_sensitive_mode s
  | DRequest target => (request_navigation target s).2
  | DCancel => cancel_pending_navigation s
  | DDiscard => (discard_pending_navigation s).2
  | DNavigate target => navigate_now target s
  | DLock => clear_for_vault_lock s
  end.
Definition detail_exec_all (s : SecretDetailState) (ops : list detail_op) : SecretDetailState :=
  fold_left detail_exec ops s.

(** ** Drafts *)
Lemma mapM_fmap_Ok {A B D} (f : A -> B) (g : B -> LResult D) (l : list A) (l' : list D) :
  Forall2 (fun x y => g (f x) = Ok y) l l' -> mapM g (f <$> l) = Ok l'.
Proof. induction 1 as [|x y l l' Hx _ IH]; [done|]. cbn. rewrite Hx. cbn. by rewrite IH. Qed.

Lemma to_field_of f : field_wf f -> to_field (editable_of f) = Ok f.
Proof.
  intros [Hn Hl]. destruct f as [name value hint]. unfold to_field, editable_of. cbn in *.
  destruct (bool_decide (hint = Text) && is_utf8 value) eqn:Ht; cbn;
    unfold validate_field, SecretField_new; rewrite ?bytes_of_string_of, Hn; cbn;
    rewrite (proj2 (Z.ltb_ge _ _)) by done; cbn; [|done]. by bool_hyps; subst.
Qed.

(** Editing a secret without changing it gives it back: the draft of a well-formed
    record, text or binary, is turned into exactly the record's fields. *)
Theorem draft_roundtrip `{TextCrates} (r : SecretRecord) :
  record_wf r -> to_fields (from_record r) = Ok (record_fields r).
Proof.
  intros Hr. apply mapM_fmap_Ok. pose proof (wf_fields r Hr) as Hf.
  induction Hf as [|f l Hf _ IH]; constructor; [by apply to_field_of|exact IH].
Qed.

Lemma validate_field_at_None i f :
  validate_field_at i f = None <->
  FieldName_parse (draft_name f) = Ok (draft_name f) /\ slen (draft_value f) <= MAX_FIELD_BYTES.
Proof.
  unfold validate_field_at.
  destruct ((0 <? i)%nat && bool_decide (draft_name f = "")) eqn:He.
  - bool_hyps. split; [done|]. intros [Hn _].
    match goal with Hd : draft_name f = _ |- _ => by rewrite Hd in Hn end.
  - destruct (FieldName_parse (draft_name f)) as [name|e] eqn:Hn; [|naive_solver].
    apply FieldName_parse_Ok in Hn as [-> _].
    destruct (Z.ltb_spec MAX_FIELD_BYTES (slen (draft_value f))); naive_solver lia.
Qed.

Lemma validate_loop_None names l :
  validate_loop names l = None <->
  Forall (fun nf => validate_field_at nf.1 nf.2 = None) l /\
  NoDup ((fun nf => draft_name nf.2) <$> l) /\ Forall (fun nf => draft_name nf.2 ∉ names) l.
Proof.
  revert names. induction l as [|[i f] l IH]; intros names; cbn; [split; [intros _; repeat split; constructor|done]|].
  rewrite !Forall_cons, NoDup_cons. cbn. destruct (validate_field_at i f); [split; [done|by intros ([? _] & _)]|].
  case_bool_decide as Hin; [split; [done|by intros (_ & _ & [? _])]|]. rewrite IH.
  assert (Hsplit : Forall (fun nf => draft_name nf.2 ∉ {[draft_name f]} ∪ names) l <->
    draft_name f ∉ ((fun nf => draft_name nf.2) <$> l) /\ Forall (fun nf => draft_name nf.2 ∉ names) l).
  { rewrite !Forall_forall, list_elem_of_fmap. set_solver. }
  rewrite Hsplit. tauto.
Qed.

Lemma mapM_Ok {A B} (f : A -> LResult B) (l : list A) :
  (exists k, mapM f l = Ok k) <-> Forall (fun x => exists y, f x = Ok y) l.
Proof.
  induction l as [|x l IH]; cbn; [split; [constructor|by eexists]|].
  rewrite Forall_cons, <- IH. destruct (f x) as [y|e]; cbn; [|naive_solver].
  destruct (mapM f l) as [k|e]; cbn; naive_solver.
Qed.

(** A draft passes validation exactly when the fields to be stored can be made of it
    and have different names: [add_secret] never fails later on a draft that the
    interface showed as valid, and the interface rejects no other. *)
Theorem validate_fields_iff d :
  validate_fields d = None <->
  NoDup ((fun nf => draft_name nf.2) <$> included_fields d) /\ exists fields, draft_secret_fields d = Ok fields.
Proof.
  unfold validate_fields, draft_secret_fields. rewrite validate_loop_None, mapM_Ok.
  assert (Hall : Forall (fun nf : nat * DraftField => draft_name nf.2 ∉ (∅ : gset string)) (included_fields d))
    by (apply Forall_forall; set_solver).
  assert (Hsame : Forall (fun nf => validate_field_at nf.1 nf.2 = None) (included_fields d) <->
    Forall (fun nf : nat * DraftField => exists y, (name ← FieldName_parse (draft_name nf.2);
      SecretField_new name (bytes_of (draft_value nf.2)) Text) = Ok y) (included_fields d)).
  { apply Forall_iff. intros [i f]. cbn [fst snd]. rewrite validate_field_at_None. unfold SecretField_new. split.
    - intros [-> Hl]. cbn. rewrite (proj2 (Z.ltb_ge _ _)) by done. by eexists.
    - intros [y Hy]. inv_ok. bool_hyps. split; [|done].
      match goal with Hp : FieldName_parse _ = Ok ?n |- _ => by pose proof (FieldName_parse_Ok _ _ Hp) as [-> _] end. }
  tauto.
Qed.

(** ** Sanitized text *)
Lemma hex_loop_ascii fuel n acc :
  Forall (fun x => in_range 0x30 0x39 x || in_range 0x61 0x66 x = true) acc ->
  Forall (fun x => in_range 0x30 0x39 x || in_range 0x61 0x66 x = true) (hex_loop fuel n acc).
Proof.
  revert n acc. induction fuel as [|fuel IH]; intros n acc Ha; cbn [hex_loop]; [done|].
  assert (Forall (fun x => in_range 0x30 0x39 x || in_range 0x61 0x66 x = true)
    (Prelude.hex_digit false (n mod 16) :: acc)).
  { constructor; [|done]. pose proof (Z.mod_pos_bound n 16 ltac:(lia)). generalize dependent (n mod 16). intros k Hk.
    replace k with (Z.of_nat (Z.to_nat k)) by lia. assert (Hn : (Z.to_nat k < 16)%nat) by lia.
    generalize dependent (Z.to_nat k). intros m Hm. do 16 (destruct m as [|m]; [reflexivity|]). lia. }
  destruct (n <? 16); auto.
Qed.

(** A character of the escape: ASCII and harmless. *)
Definition plain (x : byte) : Prop := is_char [x] /\ is_unsafe [x] = false.

Lemma escape_plain c : Forall plain (unicode_escape c).
Proof.
  assert (Hhex : forall x, in_range 0x30 0x39 x || in_range 0x61 0x66 x = true -> plain x).
  { intros [[] [] [] [] [] [] [] []]; vm_compute; try done; intros _; split; done. }
  unfold unicode_escape. rewrite !Forall_app. split_and!.
  - repeat constructor; vm_compute; done.
  - eapply Forall_impl; [apply (hex_loop_ascii 6 c []); constructor|]. exact Hhex.
  - repeat constructor; vm_compute; done.
Qed.

Lemma singles_concat {A} (l : list A) : concat ((fun x => [x]) <$> l) = l.
Proof. induction l as [|x l IH]; [done|]. cbn. by rewrite IH. Qed.

(** What a character is replaced by, as characters. *)
Definition sanitized_chars (c : bytes) : list bytes :=
  if is_unsafe c then (fun x => [x]) <$> unicode_escape (code_point c) else [c].

Lemma sanitized_chars_concat c : concat (sanitized_chars c) = sanitize_char c.
Proof.
  unfold sanitized_chars, sanitize_char. destruct (is_unsafe c); [apply singles_concat|cbn; apply app_nil_r].
Qed.

Lemma sanitized_chars_safe c :
  is_char c -> Forall (fun c => is_char c /\ is_unsafe c = false) (sanitized_chars c).
Proof.
  intros Hc. unfold sanitized_chars. destruct (is_unsafe c) eqn:Hu; [|by repeat constructor].
  apply Forall_fmap. eapply Forall_impl; [apply escape_plain|]. intros x Hx. exact Hx.
Qed.

Lemma chars_sanitize cs :
  Forall is_char cs -> chars (concat (sanitize_char <$> cs)) = concat (sanitized_chars <$> cs).
Proof.
  intros Hcs.
  replace (concat (sanitize_char <$> cs)) with (concat (concat (sanitized_chars <$> cs))).
  - apply chars_concat. induction Hcs as [|c cs Hc _ IH]; cbn; [constructor|].
    apply Forall_app. split; [|done]. eapply Forall_impl; [by apply sanitized_chars_safe|]. by intros ? [].
  - clear Hcs. induction cs as [|c cs IH]; [done|]. cbn. by rewrite concat_app, sanitized_chars_concat, IH.
Qed.

(** Text of an agent cannot disguise itself on the approval screen: the sanitized text
    has no control character and no bidirectional formatting character, whatever the
    input, and text without any is shown as it is. *)
Theorem sanitize_untrusted_spec input :
  Forall (fun c => is_unsafe c = false) (chars (bytes_of (sanitize_untrusted input))) /\
  (valid_utf8 (bytes_of input) -> Forall (fun c => is_unsafe c = false) (chars (bytes_of input)) ->
   sanitize_untrusted input = input).
Proof.
  unfold sanitize_untrusted. rewrite bytes_of_string_of. split.
  - pose proof (chars_are_chars (bytes_of input)) as Hcs. rewrite chars_sanitize by done.
    induction Hcs as [|c cs Hc _ IH]; cbn; [constructor|]. apply Forall_app. split; [|done].
    eapply Forall_impl; [by apply sanitized_chars_safe|]. by intros ? [].
  - intros (cs & Hb & Hcs) Hsafe. rewrite Hb, chars_concat in Hsafe by done. rewrite Hb, chars_concat by done.
    replace (sanitize_char <$> cs) with cs; [by rewrite <- Hb, string_of_bytes_of|].
    clear Hb Hcs. induction Hsafe as [|c cs Hc _ IH]; [done|]. cbn. rewrite <- IH.
    unfold sanitize_char. by rewrite Hc.
Qed.

(** ** Values are shown after authentication *)

(** The draft on the screen. *)
Definition shown (m : DetailMode) : option EditSecretDraft :=
  match m with Hidden => None | Revealed d | Editing d _ => Some d end.

(** Not a change of the selection. *)
Definition stays (o : detail_op) : Prop := match o with DNavigate _ | DLock => False | _ => True end.

(** An authentication of the current selection, accepted after the selection was made. *)
Definition authenticated (ops : list detail_op) (s : SecretDetailState) (a : LocalAuthAttempt) : Prop :=
  exists before after, ops = before ++ DAccept a (attempt_vault a) :: after /\
    authentication_attempt (attempt_vault a) (detail_exec_all detail_new before) = Some a /\
    Forall stays after /\ selected s = Some (attempt_secret a) /\ attempt_epoch a = selection_epoch s.

Record detail_ok (ops : list detail_op) (s : SecretDetailState) : Prop := {
  ok_authorized a : detail_authorized s = Some a -> authenticated ops s a;
  ok_shown d : shown (mode s) = Some d ->
    exists a, detail_authorized s = Some a /\ attempt_secret a = draft_id d;
}.

Lemma authenticated_app ops o s s' a :
  authenticated ops s a -> stays o -> selected s' = selected s -> selection_epoch s' = selection_epoch s ->
  authenticated (ops ++ [o]) s' a.
Proof.
  intros (b & l & -> & Ha & Hf & Hs & He) Ho Hs' He'. exists b, (l ++ [o]). rewrite <- app_assoc, Hs', He'.
  split_and!; try done. apply Forall_app. by repeat constructor.
Qed.

(** The operations that leave the selection and the authentication alone. *)
Lemma detail_ok_same ops o s s' :
  detail_ok ops s -> stays o -> selected s' = selected s -> selection_epoch s' = selection_epoch s ->
  detail_authorized s' = detail_authorized s ->
  (forall d, shown (mode s') = Some d -> shown (mode s) = Some d \/
     exists a, detail_authorized s = Some a /\ attempt_secret a = draft_id d) ->
  detail_ok (ops ++ [o]) s'.
Proof.
  intros [Ha Hs] Ho Hsel Hep Hau Hsh. split.
  - intros a. rewrite Hau. intros Hin. eapply authenticated_app; eauto.
  - intros d [Hd|Hd]%Hsh; rewrite Hau; auto.
Qed.

(** A change of the selection hides the value and forgets the authentication. *)
Lemma detail_ok_reset ops s :
  detail_authorized s = None -> mode s = Hidden -> detail_ok ops s.
Proof. intros Ha Hm. split; [by rewrite Ha|by rewrite Hm]. Qed.

Lemma attempt_vault_of vault s a : authentication_attempt vault s = Some a -> attempt_vault a = vault.
Proof. unfold authentication_attempt. destruct (selected s); [|done]. by intros [= <-]. Qed.

Lemma authorization_Some vault s a :
  authorization_for_current_selection vault s = Some a ->
  detail_authorized s = Some a /\ attempt_vault a = vault /\ selected s = Some (attempt_secret a).
Proof.
  unfold authorization_for_current_selection. destruct (detail_authorized s) as [a'|]; [|done]. cbn.
  destruct (_ && _ && _) eqn:Hc; [|done]. intros [= <-]. by bool_hyps.
Qed.

Lemma detail_ok_step ops o :
  detail_ok ops (detail_exec_all detail_new ops) ->
  detail_ok (ops ++ [o]) (detail_exec (detail_exec_all detail_new ops) o).
Proof.
  set (s := detail_exec_all detail_new ops). intros Hs. destruct o as [a vault|vault d editing| | |t| | |t|];
    cbn [detail_exec]; try (by apply (detail_ok_same ops _ s); auto); try (by apply detail_ok_reset).
  - unfold accept_authentication. case_bool_decide as Ha; [|apply (detail_ok_same ops _ s); auto; done].
    pose proof (attempt_vault_of _ _ _ Ha) as Hv. cbn. split; cbn.
    + intros a' [= <-]. exists ops, []. rewrite Hv. split_and!; [done|done|by apply Forall_nil| |];
        unfold authentication_attempt in Ha; destruct (selected s) as [id|] eqn:Hsel; try done;
        cbn in Ha; injection Ha as <-; rewrite ?Hsel; done.
    + intros d Hd. exists a. split; [done|]. destruct (ok_shown _ _ Hs d Hd) as (a' & Ha' & Hid).
      destruct (ok_authorized _ _ Hs a' Ha') as (_ & _ & _ & _ & _ & Hsel & _).
      unfold authentication_attempt in Ha. rewrite Hsel in Ha. injection Ha as <-. done.
  - unfold begin_with_draft. destruct (selected s) as [id|] eqn:Hsel; [|apply (detail_ok_same ops _ s); auto; done].
    destruct (negb (bool_decide (draft_id d = id))) eqn:Hid; [apply (detail_ok_same ops _ s); auto; done|].
    destruct (authorization_for_current_selection vault s) as [a|] eqn:Ha;
      [|apply (detail_ok_same ops _ s); auto; done].
    apply authorization_Some in Ha as (Ha & _ & Hs'). bool_hyps.
    apply (detail_ok_same ops _ s); auto; [done|]. intros d' Hd'. right. exists a. split; [done|].
    destruct editing; cbn in Hd'; injection Hd' as <-; congruence.
  - apply (detail_ok_same ops _ s); auto; [done|unfold mark_dirty; by destruct (mode s)..|].
    unfold mark_dirty. destruct (mode s) eqn:Hm; rewrite ?Hm; auto.
  - unfold request_navigation. destruct (mode s) as [|d|d []] eqn:Hm; try (by apply detail_ok_reset).
    apply (detail_ok_same ops _ s); auto; done.
  - unfold discard_pending_navigation. cbn. destruct (pending_navigation s); [by apply detail_ok_reset|].
    apply (detail_ok_same ops _ s); auto; done.
Qed.

Lemma detail_ok_all ops : detail_ok ops (detail_exec_all detail_new ops).
Proof.
  unfold detail_exec_all. induction ops as [|o ops IH] using rev_ind; [by apply detail_ok_reset|].
  rewrite fold_left_app. by apply detail_ok_step.
Qed.

(** A secret is on the screen only if the user authenticated for it: whatever the
    interface did, a draft that is revealed or edited is the draft of the selected
    secret, and a local authentication that was started for this very selection was
    accepted after the last navigation and the last lock. *)
Theorem shown_after_authentication ops d :
  let s := detail_exec_all detail_new ops in
  shown (mode s) = Some d ->
  selected s = Some (draft_id d) /\
  exists a, attempt_secret a = draft_id d /\ authenticated ops s a.
Proof.
  intros s Hd. pose proof (detail_ok_all ops) as Hs. fold s in Hs.
  destruct (ok_shown _ _ Hs d Hd) as (a & Ha & Hid). pose proof (ok_authorized _ _ Hs a Ha) as Hau.
  split; [|by exists a]. destruct Hau as (_ & _ & _ & _ & _ & Hsel & _). congruence.
Qed.

Lemma epoch_step s o :
  0 <= selection_epoch s <= u64_max ->
  exists n, 0 <= n <= 1 /\ selection_epoch (detail_exec s o) = (selection_epoch s + n) mod 2 ^ 64 /\
    (stays o \/ n = 1).
Proof.
  intros He. unfold u64_max in He.
  assert (Hsame : forall s', selection_epoch s' = selection_epoch s ->
    exists n, 0 <= n <= 1 /\ selection_epoch s' = (selection_epoch s + n) mod 2 ^ 64 /\ (True \/ n = 1)).
  { intros s' ->. exists 0. split; [lia|]. split; [|by left]. rewrite Z.add_0_r, Z.mod_small; lia. }
  assert (Hmove : forall P : Prop, forall s', selection_epoch s' = wrapping_add_u64 (selection_epoch s) 1 ->
    exists n, 0 <= n <= 1 /\ selection_epoch s' = (selection_epoch s + n) mod 2 ^ 64 /\ (P \/ n = 1)).
  { intros P s' ->. exists 1. split; [lia|]. split; [done|by right]. }
  destruct o as [a vault|vault d editing| | |t| | |t|]; cbn [detail_exec stays]; auto.
  - apply Hsame. unfold accept_authentication. by case_bool_decide.
  - apply Hsame. unfold begin_with_draft. destruct (selected s); [|done]. destruct (negb _); [done|].
    by destruct (authorization_for_current_selection vault s).
  - apply Hsame. unfold mark_dirty. by destruct (mode s).
  - unfold request_navigation. destruct (mode s) as [|d|d []]; first [by apply Hsame|by apply Hmove].
  - unfold discard_pending_navigation. cbn. destruct (pending_navigation s); first [by apply Hsame|by apply Hmove].
Qed.

Lemma epoch_steps ops s :
  0 <= selection_epoch s <= u64_max ->
  exists n, 0 <= n <= Z.of_nat (length ops) /\
    selection_epoch (detail_exec_all s ops) = (selection_epoch s + n) mod 2 ^ 64 /\
    (Forall stays ops \/ 1 <= n).
Proof.
  unfold detail_exec_all. revert s. induction ops as [|o ops IH]; intros s He.
  - exists 0. split; [done|]. split; [|by left]. unfold u64_max in He. cbn. rewrite Z.add_0_r, Z.mod_small; lia.
  - destruct (epoch_step s o He) as (n & Hn & Hs & Ho). cbn [fold_left length].
    destruct (IH (detail_exec s o)) as (m & Hm & Hs' & Hf).
    { rewrite Hs. pose proof (Z.mod_pos_bound (selection_epoch s + n) (2 ^ 64)). unfold u64_max. lia. }
    exists (n + m). split; [lia|]. split.
    + rewrite Hs', Hs, Z.add_mod_idemp_l by lia. f_equal. lia.
    + destruct Ho as [Ho| ->]; [|right; lia]. destruct Hf as [Hf|]; [left; by constructor|right; lia].
Qed.

(** A late authentication is refused: an attempt that was started before a navigation
    or a lock is not accepted afterwards, even for the same secret of the same vault
    session (as long as fewer than 2^64 operations lie in between). *)
Theorem late_authentication_refused s vault a ops vault' :
  0 <= selection_epoch s <= u64_max -> authentication_attempt vault s = Some a ->
  Z.of_nat (length ops) <= u64_max -> ~ Forall stays ops ->
  accept_authentication a vault' (detail_exec_all s ops) = (false, detail_exec_all s ops).
Proof.
  intros He Ha Hlen Hops. destruct (epoch_steps ops s He) as (n & Hn & Hs & [Hf|Hge]); [done|].
  unfold accept_authentication. rewrite bool_decide_eq_false_2; [done|]. intros Ha'.
  unfold authentication_attempt in Ha, Ha'. destruct (selected s) as [id|]; [|done]. cbn in Ha.
  injection Ha as <-. destruct (selected (detail_exec_all s ops)); [|done]. cbn in Ha'.
  injection Ha' as _ _ Hep. rewrite Hs in Hep. unfold u64_max in *.
  destruct (Z.lt_ge_cases (selection_epoch s + n) (2 ^ 64)) as [Hlt|Hbig].
  - rewrite Z.mod_small in Hep by lia. lia.
  - rewrite <- (Z.mod_unique (selection_epoch s + n) (2 ^ 64) 1 (selection_epoch s + n - 2 ^ 64)) in Hep by lia. lia.
Qed.

(** ** The properties at work *)
Definition example_record : SecretRecord := {|
  record_id := 5; record_name := "database";
  record_fields := [{| field_name := "password"; field_value := bytes_of "hunter2"; field_hint := Text |};
                    {| field_name := "key"; field_value := [zb 0xFF]; field_hint := Binary |}] |}.

Example draft_roundtrip_witness :
  record_wf example_record /\ to_fields (from_record example_record) = Ok (record_fields example_record).
Proof.
  assert (Hr : record_wf example_record).
  { split; [split; vm_compute; congruence|vm_compute; reflexivity|discriminate|vm_compute; congruence| |].
    - apply (bool_decide_eq_true_1 (NoDup (field_name <$> record_fields example_record))). vm_compute. reflexivity.
    - repeat constructor; vm_compute; reflexivity || discriminate. }
  split; [exact Hr|]. by apply draft_roundtrip.
Defined.

Definition example_attempt : LocalAuthAttempt := {| attempt_vault := 2; attempt_secret := 5; attempt_epoch := 1 |}.
Definition example_view : list detail_op :=
  [DNavigate (NavSecret 5); DAccept example_attempt 2; DBegin 2 (from_record example_record) false].

Example shown_after_authentication_witness :
  shown (mode (detail_exec_all detail_new example_view)) = Some (from_record example_record) /\
  selected (detail_exec_all detail_new example_view) = Some 5 /\
  exists a, attempt_secret a = 5 /\ authenticated example_view (detail_exec_all detail_new example_view) a.
Proof.
  split; [vm_compute; reflexivity|].
  apply (shown_after_authentication example_view (from_record example_record)). vm_compute. reflexivity.
Defined.

Example late_authentication_refused_witness :
  let s := detail_exec_all detail_new [DNavigate (NavSecret 5)] in
  let later := [DLock; DNavigate (NavSecret 5)] in
  authentication_attempt 2 s = Some example_attempt /\
  accept_authentication example_attempt 2 (detail_exec_all s later) = (false, detail_exec_all s later).
Proof.
  intros s later. split; [vm_compute; reflexivity|].
  apply (late_authentication_refused s 2 example_attempt later 2).
  - split; vm_compute; discriminate.
  - vm_compute. reflexivity.
  - vm_compute. discriminate.
  - intros Hf. apply Forall_inv in Hf. exact Hf.
Defined.
