(* ===== verification/SessionAuth.v ===== *)
(** * SessionAuth: [crates/ladon-app/src/session_auth.rs]

    The PIN that confirms local actions while the vault is unlocked.  The key
    derivation of the [argon2] crate and the operating system's random source are
    parameters: [argon2id memory passes lanes length pin salt] is the derived hash
    or a failure. *)

From S2P Require Import Prelude Errors Utf8.
Local Open Scope Z_scope.

Definition PIN_SALT_BYTES : Z := 16.
Definition PIN_HASH_BYTES : Z := 32.
Definition PIN_MEMORY_KIB : Z := 64 * 1024.
Definition PIN_PASSES : Z := 3.
Definition MAX_FAILED_PIN_ATTEMPTS : Z := 5.

(** [struct SessionPin], [enum PinVerification] and [struct SessionConfirmation]. *)
Record SessionPin := { pin_salt : bytes; pin_hash : bytes }.
Inductive PinVerification : Set :=
| PinAccepted
| PinRejected (remaining_attempts : Z)
| LockVault.
#[export] Instance PinVerification_eq_dec : EqDecision PinVerification.
Proof. solve_decision. Defined.
Record SessionConfirmation := { pin : option SessionPin; failed_pin_attempts : Z }.

(** [valid_pin]. *)
Definition valid_pin (pin : string) : bool :=
  ((4 <=? slen pin) && (slen pin <=? 12)) && forallb (in_range 0x30 0x39) (bytes_of pin).

(** [touch_id_only], [with_pin], [has_pin] and [record_touch_id_success]. *)
Definition touch_id_only : SessionConfirmation := {| pin := None; failed_pin_attempts := 0 |}.
Definition with_pin (p : SessionPin) : SessionConfirmation := {| pin := Some p; failed_pin_attempts := 0 |}.
Definition has_pin (c : SessionConfirmation) : bool := bool_decide (is_Some (pin c)).
Definition record_touch_id_success (c : SessionConfirmation) : SessionConfirmation :=
  {| pin := pin c; failed_pin_attempts := 0 |}.

Section auth.
Context (argon2id : Z -> Z -> Z -> Z -> bytes -> bytes -> option bytes).

(** [derive]. *)
Definition derive_pin (pin salt : bytes) : LResult bytes :=
  ok_or (argon2id PIN_MEMORY_KIB PIN_PASSES 1 PIN_HASH_BYTES pin salt) CryptoUnavailable.

(** [SessionPin::new], with the salt the operating system draws, and [SessionPin::verify]. *)
Definition SessionPin_new (salt : option bytes) (pin confirmation : string) : LResult SessionPin :=
  if negb (bool_decide (pin = confirmation)) || negb (valid_pin pin) then Err InvalidPin
  else
    salt ← ok_or salt CryptoUnavailable;
    hash ← derive_pin (bytes_of pin) salt;
    Ok {| pin_salt := salt; pin_hash := hash |}.
Definition verify (p : SessionPin) (candidate : string) : LResult unit :=
  hash ← derive_pin (bytes_of candidate) (pin_salt p);
  if bool_decide (hash = pin_hash p) then Ok tt else Err ApprovalAuthenticationFailed.

(** [verify_pin]. *)
Definition verify_pin (candidate : string) (c : SessionConfirmation) :
    LResult PinVerification * SessionConfirmation :=
  match pin c with
  | None => (Ok (PinRejected 0), c)
  | Some p =>
    match verify p candidate with
    | Ok _ => (Ok PinAccepted, {| pin := pin c; failed_pin_attempts := 0 |})
    | Err ApprovalAuthenticationFailed =>
      let failed := Z.min 255 (failed_pin_attempts c + 1) in
      (Ok (if MAX_FAILED_PIN_ATTEMPTS <=? failed then LockVault
           else PinRejected (MAX_FAILED_PIN_ATTEMPTS - failed)),
       {| pin := pin c; failed_pin_attempts := failed |})
    | Err error => (Err error, c)
    end
  end.

(** ** Attempts *)

(** The answers to a sequence of candidates. *)
Fixpoint attempts (c : SessionConfirmation) (candidates : list string) :
    list (LResult PinVerification) * SessionConfirmation :=
  match candidates with
  | [] => ([], c)
  | candidate :: rest =>
    let '(answer, c) := verify_pin candidate c in
    let '(answers, c) := attempts c rest in (answer :: answers, c)
  end.

(** A candidate that does not have the hash of the PIN. *)
Definition wrong (p : SessionPin) (candidate : string) : Prop := verify p candidate = Err ApprovalAuthenticationFailed.

(** The answer to the [n]-th wrong candidate in a row. *)
Definition wrong_answer (n : nat) : PinVerification :=
  if (n <? 5)%nat then PinRejected (5 - Z.of_nat n) else LockVault.

Lemma verify_wrong p n candidate :
  wrong p candidate -> 0 <= n <= 255 ->
  verify_pin candidate {| pin := Some p; failed_pin_attempts := n |} =
    (Ok (wrong_answer (S (Z.to_nat n))), {| pin := Some p; failed_pin_attempts := Z.min 255 (n + 1) |}).
Proof.
  intros Hw Hn. unfold verify_pin. cbn. rewrite Hw. unfold wrong_answer, MAX_FAILED_PIN_ATTEMPTS.
  destruct (Nat.ltb_spec (S (Z.to_nat n)) 5) as [Hlt|Hge], (Z.leb_spec 5 (Z.min 255 (n + 1))); try lia; [|done].
  do 3 f_equal. lia.
Qed.

Lemma attempts_wrong p n candidates :
  Forall (wrong p) candidates -> 0 <= n <= 255 ->
  (attempts {| pin := Some p; failed_pin_attempts := n |} candidates).1 =
    (fun k => Ok (wrong_answer (S (Z.to_nat (Z.min 255 (n + Z.of_nat k)))))) <$> seq 0 (length candidates).
Proof.
  intros Hw. revert n. induction Hw as [|candidate l Hc _ IH]; intros n Hn; [done|]. cbn [attempts length seq].
  rewrite (verify_wrong p n) by done.
  specialize (IH (Z.min 255 (n + 1)) ltac:(lia)).
  destruct (attempts _ l) as [answers c]. cbn [fst] in *. rewrite IH, fmap_cons. f_equal.
  - do 4 f_equal. lia.
  - rewrite <- fmap_S_seq, <- list_fmap_compose. apply list_fmap_ext. intros _ k _. cbn. do 4 f_equal. lia.
Qed.

(** The PIN cannot be guessed by trial: after a correct PIN or a local
    authentication, the first four wrong candidates in a row are answered with the
    number of attempts left, 4 down to 1, and the fifth and every later one locks the
    vault, however long the row is. *)
Theorem wrong_pins_lock_vault p candidates :
  Forall (wrong p) candidates ->
  (attempts (with_pin p) candidates).1 =
    (fun k => Ok (if (k <? 4)%nat then PinRejected (4 - Z.of_nat k) else LockVault)) <$> seq 0 (length candidates).
Proof.
  intros Hw. unfold with_pin. rewrite (attempts_wrong p 0) by (done || lia).
  apply list_fmap_ext. intros i k _. f_equal. unfold wrong_answer.
  destruct (Nat.ltb_spec k 4) as [Hlt|Hge], (Nat.ltb_spec (S (Z.to_nat (Z.min 255 (0 + Z.of_nat k)))) 5); try lia; [|done].
  f_equal. lia.
Qed.

(** A PIN that was set is accepted, at any number of failed attempts, and clears
    them; it is set only when it was confirmed and has 4 to 12 digits. *)
Theorem set_pin_is_accepted salt text confirmation p c :
  SessionPin_new salt text confirmation = Ok p -> pin c = Some p ->
  verify_pin text c = (Ok PinAccepted, with_pin p) /\
  confirmation = text /\ 4 <= slen text <= 12 /\ forallb (in_range 0x30 0x39) (bytes_of text) = true.
Proof.
  unfold SessionPin_new. intros Hnew Hc. inv_ok. bool_hyps.
  match goal with Hv : valid_pin _ = true |- _ => unfold valid_pin in Hv end. bool_hyps.
  split; [|done]. unfold verify_pin. rewrite Hc. unfold verify. cbn.
  match goal with Hd : derive_pin _ _ = Ok _ |- _ => rewrite Hd end. cbn. by rewrite bool_decide_eq_true_2.
Qed.
End auth.

(** A derivation that hashes nothing. *)
Definition example_derivation (_ _ _ _ : Z) (pin salt : bytes) : option bytes := Some (pin ++ salt).
Definition example_pin : SessionPin := {| pin_salt := []; pin_hash := bytes_of "1234" |}.

Example wrong_pins_lock_vault_witness :
  Forall (wrong example_derivation example_pin) ["0000"; "1111"; "2222"; "3333"; "4444"]%string /\
  (attempts example_derivation (with_pin example_pin) ["0000"; "1111"; "2222"; "3333"; "4444"]%string).1 =
    [Ok (PinRejected 4); Ok (PinRejected 3); Ok (PinRejected 2); Ok (PinRejected 1); Ok LockVault].
Proof.
  assert (Hw : Forall (wrong example_derivation example_pin) ["0000"; "1111"; "2222"; "3333"; "4444"]%string)
    by (repeat constructor).
  split; [exact Hw|]. exact (wrong_pins_lock_vault example_derivation example_pin _ Hw).
Defined.

Example set_pin_is_accepted_witness :
  SessionPin_new example_derivation (Some []) "1234" "1234" = Ok example_pin /\
  verify_pin example_derivation "1234" {| pin := Some example_pin; failed_pin_attempts := 4 |} =
    (Ok PinAccepted, with_pin example_pin).
Proof.
  split; [vm_compute; reflexivity|].
  by apply (set_pin_is_accepted example_derivation (Some []) "1234" "1234" example_pin
    {| pin := Some example_pin; failed_pin_attempts := 4 |}).
Defined.
