(* ===== verification/Controller.v ===== *)
(** * Controller: [VaultController] of [crates/ladon-app/src/ui.rs]

    What the user interface and the agent broker do with the vault: create,
    unlock, recover, change and lock it, resolve the bindings of a run and plan
    its approval.  A method runs on the controller, the random source and the
    disk; a commit that fails locks the vault. *)

From S2P Require Import Prelude Errors Time Utf8 Text Model Cbor CborReference Codec Crypto Vault Store Runner Approval Editor.
Local Open Scope Z_scope.

Definition DEFAULT_IDLE_TIMEOUT : Duration := from_secs (30 * 60).

(** ** State *)

(** [struct SessionActivity]: the last activity and the readings of the clock to come. *)
Abbreviation Instant := Z (only parsing).
Record SessionActivity := { last : Instant; readings : nat -> Instant }.
#[export] Instance session_activity : ActivitySink SessionActivity := fun a =>
  {| last := readings a 0; readings := fun n => readings a (S n) |}.
Definition activity_at (now : Instant) (later : nat -> Instant) : SessionActivity :=
  {| last := now; readings := later |}.

(** [enum VaultUiPhase], [enum ManagedVault] and [struct VaultController]. *)
Inductive VaultUiPhase : Set := PhaseFirstRun | PhaseLocked | PhaseRecoveryRequired | PhaseUnlocked.
#[export] Instance VaultUiPhase_eq_dec : EqDecision VaultUiPhase.
Proof. solve_decision. Defined.
Inductive ManagedVault : Type :=
| ManagedFirstRun
| ManagedLocked
| ManagedRecovery (primary : option UnlockedVault) (backup : UnlockedVault) (activity : SessionActivity)
| ManagedUnlocked (session : VaultSession SessionActivity).
Record VaultController := {
  store : VaultStore;
  managed : ManagedVault;
  session_id : option Uuid;
}.

(** [struct ApprovalPlan]. *)
Record ApprovalPlan := {
  plan_vault : Uuid;
  plan_secrets : list ApprovalSecret;
  binding_ids : list SecretId;
}.

(** [VaultController::new] and [phase]. *)
Definition controller_new (path : string * string) (exists_on_disk : bool) : VaultController :=
  {| store := store_new path; managed := if exists_on_disk then ManagedLocked else ManagedFirstRun;
     session_id := None |}.
Definition phase (c : VaultController) : VaultUiPhase :=
  match managed c with
  | ManagedFirstRun => PhaseFirstRun
  | ManagedLocked => PhaseLocked
  | ManagedRecovery _ _ _ => PhaseRecoveryRequired
  | ManagedUnlocked _ => PhaseUnlocked
  end.

Definition set_managed (m : ManagedVault) (id : option Uuid) (c : VaultController) : VaultController :=
  {| store := store c; managed := m; session_id := id |}.

(** [let ManagedVault::Unlocked(session) = &mut self.state else { return Err(..) }], and
    the session put back. *)
Definition unlocked (c : VaultController) (e : LadonError) : LResult (VaultSession SessionActivity) :=
  match managed c with ManagedUnlocked session => Ok session | _ => Err e end.
Definition put_session (s : VaultSession SessionActivity) (c : VaultController) : VaultController :=
  set_managed (ManagedUnlocked s) (session_id c) c.

(** [secrets], [lock], [record_secret_activity] and [can_continue_with_primary]. *)
Definition secrets (c : VaultController) : list SecretMetadata :=
  match managed c with ManagedUnlocked session => list_metadata session | _ => [] end.
Definition lock (c : VaultController) : VaultController :=
  set_managed (match managed c with ManagedFirstRun => ManagedFirstRun | _ => ManagedLocked end) None c.
Definition record_secret_activity (c : VaultController) : VaultController :=
  match managed c with ManagedUnlocked session => put_session (Vault.record_activity session) c | _ => c end.
Definition can_continue_with_primary (c : VaultController) : bool :=
  match managed c with ManagedRecovery (Some _) _ _ => true | _ => false end.

(** [auto_lock_if_idle_at] and [remaining_unlocked]. *)
Definition idle (now : Instant) (a : SessionActivity) : bool :=
  DEFAULT_IDLE_TIMEOUT <=? Z.max 0 (now - last a).
Definition auto_lock_if_idle_at (now : Instant) (c : VaultController) : bool * VaultController :=
  let should_lock :=
    match managed c with
    | ManagedUnlocked session => idle now (activity session)
    | ManagedRecovery _ _ a => idle now a
    | _ => false
    end in
  (should_lock, if should_lock then lock c else c).
Definition remaining_unlocked (now : Instant) (c : VaultController) : option Duration :=
  let remaining a := Z.max 0 (DEFAULT_IDLE_TIMEOUT - Z.max 0 (now - last a)) in
  match managed c with
  | ManagedUnlocked session => Some (remaining (activity session))
  | ManagedRecovery _ _ a => Some (remaining a)
  | _ => None
  end.

(** [ensure_secret_exists]. *)
Definition ensure_secret_exists (id : SecretId) (c : VaultController) : LResult unit :=
  session ← unlocked c VaultLocked;
  if existsb (fun s => bool_decide (meta_id s = id)) (list_metadata session) then Ok tt else Err SecretNotFound.

(** [continue_with_primary], with the session identifier it draws. *)
Definition continue_with_primary (now : Instant) (later : nat -> Instant) (fresh : Uuid) (c : VaultController) :
    LResult unit * VaultController :=
  match managed c with
  | ManagedRecovery (Some vault) _ _ =>
    (Ok tt, set_managed (ManagedUnlocked (session_new vault (activity_at now later))) (Some fresh) c)
  | ManagedRecovery None backup a => (Err InvalidRequest, set_managed (ManagedRecovery None backup a) (session_id c) c)
  | _ => (Err InvalidRequest, set_managed ManagedLocked (session_id c) c)
  end.

(** ** Bindings *)
Definition refers_to (b : ValidatedSecretBinding) (s : SecretMetadata) : bool :=
  match secret_ref b with
  | RefName name => bool_decide (meta_name s = name)
  | RefId id => bool_decide (meta_id s = id)
  end.

(** [binding_secret_ids]. *)
Definition binding_id (metadata : list SecretMetadata) (b : ValidatedSecretBinding) : LResult SecretId :=
  meta_id <$> ok_or (List.find (refers_to b) metadata) SecretNotFound.
Definition binding_secret_ids (bindings : list ValidatedSecretBinding) (c : VaultController) : LResult (list SecretId) :=
  session ← unlocked c VaultLocked;
  mapM (binding_id (list_metadata session)) bindings.

(** The loop of [approval_plan]. *)
Definition add_to_plan (secret : SecretMetadata) (field : string) (requested : list ApprovalSecret) :
    list ApprovalSecret :=
  match list_find (fun x => approval_secret_id x = meta_id secret) requested with
  | Some (i, existing) =>
    if bool_decide (field ∈ approval_secret_fields existing) then requested
    else <[i := {| approval_secret_id := meta_id secret; approval_secret_name := meta_name secret;
                   approval_secret_fields := approval_secret_fields existing ++ [field] |}]> requested
  | None =>
    requested ++ [{| approval_secret_id := meta_id secret; approval_secret_name := meta_name secret;
                     approval_secret_fields := [field] |}]
  end.
Fixpoint plan_loop (metadata : list SecretMetadata) (l : list (ValidatedSecretBinding * SecretId))
    (requested : list ApprovalSecret) : LResult (list ApprovalSecret) :=
  match l with
  | [] => Ok requested
  | (b, id) :: rest =>
    secret ← ok_or (List.find (fun s => bool_decide (meta_id s = id)) metadata) SecretNotFound;
    if negb (bool_decide (field b ∈ field_names secret)) then Err FieldNotFound
    else plan_loop metadata rest (add_to_plan secret (field b) requested)
  end.

(** [approval_plan]. *)
Definition approval_plan (bindings : list ValidatedSecretBinding) (c : VaultController) : LResult ApprovalPlan :=
  ids ← binding_secret_ids bindings c;
  session ← unlocked c VaultLocked;
  requested ← plan_loop (list_metadata session) (zip bindings ids) [];
  vault ← ok_or (session_id c) VaultLocked;
  Ok {| plan_vault := vault; plan_secrets := requested; binding_ids := ids |}.

Section controller.
Context `{TextCrates}.

(** [load_secret], [prepare_secret_update] and [resolve_bindings_for_ids]; what is read
    counts as activity. *)
Definition load_secret (id : SecretId) (c : VaultController) : LResult (EditSecretDraft * VaultController) :=
  session ← unlocked c VaultLocked;
  '(draft, session) ← with_record (RefId id) from_record session;
  Ok (draft, put_session session c).
Definition prepare_secret_update (draft : EditSecretDraft) (c : VaultController) : LResult PreparedRecordReplacement :=
  session ← unlocked c VaultLocked;
  fields ← to_fields draft;
  prepare_record_replacement (RefId (draft_id draft)) (draft_secret_name draft) fields session.
Fixpoint resolve_values (metadata : list SecretMetadata) (l : list (ValidatedSecretBinding * SecretId))
    (s : VaultSession SessionActivity) : LResult (list ResolvedSecretBinding) * VaultSession SessionActivity :=
  match l with
  | [] => (Ok [], s)
  | (b, expected) :: rest =>
    match binding_id metadata b with
    | Err e => (Err e, s)
    | Ok id =>
      if negb (id =? expected) then (Err InvalidBinding, s)
      else match with_field (secret_ref b) (field b) (fun value => value) s with
           | Err e => (Err e, s)
           | Ok (value, s) =>
             match ResolvedSecretBinding_new (uuid_display id) (field b) value with
             | Err e => (Err e, s)
             | Ok v => let '(vs, s) := resolve_values metadata rest s in ((fun vs => v :: vs) <$> vs, s)
             end
           end
    end
  end.
Definition resolve_bindings_for_ids (bindings : list ValidatedSecretBinding) (expected : list SecretId)
    (c : VaultController) : LResult (list ResolvedSecretBinding) * VaultController :=
  if negb (length bindings =? length expected)%nat then (Err InvalidBinding, c)
  else match unlocked c VaultLocked with
       | Err e => (Err e, c)
       | Ok session =>
         let '(answer, session) := resolve_values (list_metadata session) (zip bindings expected) session in
         (answer, put_session session c)
       end.

(** [resolve_bindings]. *)
Definition resolve_bindings (bindings : list ValidatedSecretBinding) (c : VaultController) :
    LResult (list ResolvedSecretBinding) * VaultController :=
  match binding_secret_ids bindings c with
  | Err e => (Err e, c)
  | Ok ids => resolve_bindings_for_ids bindings ids c
  end.

(** ** Methods that use the disk *)
Context `{Cbor, CryptoCrates}.
Context {R : Type} `{RandomSource R}.

Record Machine := { controller : VaultController; random : R; disk : Disk }.
Definition CIO (A : Type) : Type := Machine -> outcome A * Machine.
Definition pure {A} (r : LResult A) (c : VaultController) (m : Machine) : outcome A * Machine :=
  (Done r, {| controller := c; random := random m; disk := disk m |}).

(** [VaultStore::commit] and [VaultSession::commit_to], with what is left of the random
    source after a failure. *)
Definition commit_vault (s : VaultStore) (unique1 unique2 : string) (v : UnlockedVault) (r : R) (w : Disk) :
    outcome unit * R * Disk :=
  match Crypto.seal v r with
  | Err e => (Done (Err e), r, w)
  | Ok (encrypted, r) => let '(answer, w) := commit_encrypted s unique1 unique2 encrypted w in (answer, r, w)
  end.

(** [session.commit_to(&self.store)] after a change; a failure locks the vault. *)
Definition commit_session {A} (unique1 unique2 : string) (s : VaultSession SessionActivity) (answer : A) : CIO A :=
  fun m =>
  let c := controller m in
  match commit_vault (store c) unique1 unique2 (vault s) (random m) (disk m) with
  | (Done (Ok _), r, w) => (Done (Ok answer), {| controller := put_session s c; random := r; disk := w |})
  | (Done (Err e), r, w) =>
    (Done (Err e), {| controller := set_managed ManagedLocked None c; random := r; disk := w |})
  | (Crashed, r, w) => (Crashed, {| controller := c; random := r; disk := w |})
  end.

(** [apply_secret_update], [delete_secret] and [add_secret]. *)
Definition apply_secret_update (unique1 unique2 : string) (update : PreparedRecordReplacement) : CIO unit := fun m =>
  match session ← unlocked (controller m) VaultLocked; apply_record_replacement update session with
  | Ok s => commit_session unique1 unique2 s tt m
  | Err e => (Done (Err e), m)
  end.
Definition delete_secret (unique1 unique2 : string) (id : SecretId) : CIO unit := fun m =>
  match session ← unlocked (controller m) InvalidRequest; delete_record (RefId id) session with
  | Ok s => commit_session unique1 unique2 s tt m
  | Err e => (Done (Err e), m)
  end.
Definition add_secret (unique1 unique2 : string) (fresh : SecretId) (draft : AddSecretDraft) :
    CIO (SecretId * AddSecretDraft) := fun m =>
  match
    match validate_fields draft with Some e => Err (as_ladon_error e) | None => Ok tt end;;
    fields ← draft_secret_fields draft;
    session ← unlocked (controller m) InvalidRequest;
    Vault.add fresh (secret_name draft) fields session
  with
  | Ok (id, s) => commit_session unique1 unique2 s (id, draft_new) m
  | Err e => (Done (Err e), m)
  end.

(** [create]: [parent] is what making the private directory answers. *)
Definition create (unique1 unique2 : string) (now : Instant) (later : nat -> Instant) (vault_uuid fresh : Uuid)
    (parent : LResult unit) (passphrase confirmation : string) : CIO unit := fun m =>
  let c := controller m in
  match
    reject_if (negb (bool_decide (phase c = PhaseFirstRun))) InvalidRequest;;
    validate_new_passphrase passphrase confirmation;;
    parent;;
    p ← VaultPayload_new vault_uuid 0 [];
    create_vault_with_random p (bytes_of passphrase) (random m)
  with
  | Err e => (Done (Err e), m)
  | Ok ((vault, _), r) =>
    match commit_vault (store c) unique1 unique2 vault r (disk m) with
    | (Done (Ok _), r, w) =>
      (Done (Ok tt), {| controller := set_managed (ManagedUnlocked (session_new vault (activity_at now later))) (Some fresh) c;
                        random := r; disk := w |})
    | (Done (Err e), r, w) => (Done (Err e), {| controller := c; random := r; disk := w |})
    | (Crashed, r, w) => (Crashed, {| controller := c; random := r; disk := w |})
    end
  end.

(** [unlock]. *)
Definition unlock (now : Instant) (later : nat -> Instant) (fresh : Uuid) (passphrase : string) : CIO unit := fun m =>
  let c := controller m in
  if negb (bool_decide (phase c = PhaseLocked)) then (Done (Err InvalidRequest), m)
  else match store_open (store c) (bytes_of passphrase) (disk m) with
       | (Done (Ok (Primary vault None)), w) =>
         (Done (Ok tt), {| controller := set_managed (ManagedUnlocked (session_new vault (activity_at now later))) (Some fresh) c;
                           random := random m; disk := w |})
       | (Done (Ok (Primary vault (Some backup))), w) =>
         (Done (Ok tt), {| controller := set_managed (ManagedRecovery (Some vault) backup (activity_at now later)) (session_id c) c;
                           random := random m; disk := w |})
       | (Done (Ok (RestoreRequired backup)), w) =>
         (Done (Ok tt), {| controller := set_managed (ManagedRecovery None backup (activity_at now later)) (session_id c) c;
                           random := random m; disk := w |})
       | (Done (Err e), w) => (Done (Err e), {| controller := c; random := random m; disk := w |})
       | (Crashed, w) => (Crashed, {| controller := c; random := random m; disk := w |})
       end.

(** [restore_backup]. *)
Definition restore_backup (unique1 unique2 : string) (now : Instant) (later : nat -> Instant) (fresh : Uuid) : CIO unit :=
  fun m =>
  let c := controller m in
  match managed c with
  | ManagedRecovery primary backup a =>
    match commit_vault (store c) unique1 unique2 backup (random m) (disk m) with
    | (Done (Ok _), r, w) =>
      (Done (Ok tt), {| controller := set_managed (ManagedUnlocked (session_new backup (activity_at now later))) (Some fresh) c;
                        random := r; disk := w |})
    | (Done (Err e), r, w) =>
      (Done (Err e), {| controller := set_managed (ManagedRecovery primary backup a) (session_id c) c;
                        random := r; disk := w |})
    | (Crashed, r, w) => (Crashed, {| controller := c; random := r; disk := w |})
    end
  | _ => pure (Err InvalidRequest) (set_managed ManagedLocked (session_id c) c) m
  end.
End controller.

(** ** Bindings *)

(** What a binding resolves to in a session. *)
Record resolves (s : VaultSession SessionActivity) (b : ValidatedSecretBinding) (id : SecretId)
    (v : ResolvedSecretBinding) : Prop := {
  resolves_id : resolved_secret_id v = id;
  resolves_field : resolved_field v = field b;
  resolves_value : exists r f, r ∈ session_records s /\ record_id r = id /\ matches_ref (secret_ref b) r = true /\
    f ∈ record_fields r /\ field_name f = field b /\ field_value f = resolved_value v;
}.

Lemma list_metadata_elem (s : VaultSession SessionActivity) m :
  m ∈ list_metadata s <-> exists r, r ∈ session_records s /\
    m = {| meta_id := record_id r; meta_name := record_name r; field_names := field_name <$> record_fields r |}.
Proof. unfold list_metadata. rewrite list_elem_of_fmap. naive_solver. Qed.

Lemma refers_to_record b r :
  refers_to b {| meta_id := record_id r; meta_name := record_name r; field_names := field_name <$> record_fields r |} =
  matches_ref (secret_ref b) r.
Proof. by destruct (secret_ref b) as [|] eqn:Hr; unfold refers_to; rewrite Hr. Qed.

(** The first secret a binding refers to is the record its reference finds. *)
Lemma binding_id_position (l : list SecretRecord) b :
  binding_id ((fun r => {| meta_id := record_id r; meta_name := record_name r;
                           field_names := field_name <$> record_fields r |}) <$> l) b =
  match position (matches_ref (secret_ref b)) l with
  | Some i => record_id <$> ok_or (l !! i) SecretNotFound
  | None => Err SecretNotFound
  end.
Proof.
  unfold binding_id. induction l as [|r l IH]; [done|]. cbn. rewrite refers_to_record.
  destruct (matches_ref (secret_ref b) r); [done|]. rewrite IH.
  by destruct (position (matches_ref (secret_ref b)) l).
Qed.

Section binding_laws.
Context `{TextCratesLaws}.
Implicit Types s : VaultSession SessionActivity.

(** The identifiers of a well-formed vault can be printed and parsed. *)
Definition ids_wf s : Prop := Forall (fun r => uuid_wf (record_id r)) (session_records s).

Lemma with_field_Ok reference name s value s' :
  with_field reference name (fun v => v) s = Ok (value, s') ->
  s' = Vault.record_activity s /\
  exists i r f, position (matches_ref reference) (session_records s) = Some i /\ session_records s !! i = Some r /\
    f ∈ record_fields r /\ field_name f = name /\ field_value f = value.
Proof.
  unfold with_field, find_record_index. intros Hw. inv_ok. split; [done|].
  match goal with Hf : List.find _ _ = Some ?f |- _ => apply List.find_some in Hf as [Hf Hn] end.
  bool_hyps. eexists _, _, _. split_and!; [done|done| |done|done]. by apply list_elem_of_In.
Qed.

Lemma resolve_values_Ok s0 l s vs s' :
  ids_wf s0 -> session_records s = session_records s0 ->
  resolve_values (list_metadata s0) l s = (Ok vs, s') ->
  Forall2 (fun bi v => resolves s0 bi.1 bi.2 v) l vs /\ session_records s' = session_records s0.
Proof.
  intros Hids. revert s vs s'. induction l as [|[b expected] l IH]; intros s vs s' Hs Hr; cbn in Hr.
  { injection Hr as <- <-. by split. }
  destruct (binding_id (list_metadata s0) b) as [id|e] eqn:Hb; [|done].
  destruct (negb (id =? expected)) eqn:Hid; [done|]. bool_hyps. subst expected.
  destruct (with_field _ _ _ s) as [[value s1]|e] eqn:Hw; [|done].
  destruct (ResolvedSecretBinding_new _ _ _) as [v|e] eqn:Hv; [|done].
  apply with_field_Ok in Hw as (-> & i & r & f & Hp & Hl & Hf & Hn & Hval). rewrite Hs in Hp, Hl.
  unfold list_metadata in Hb. rewrite binding_id_position, Hp, Hl in Hb. cbn in Hb. injection Hb as <-.
  destruct (resolve_values _ l _) as [rest s2] eqn:Hrest. injection Hr as Hvs <-.
  destruct rest as [vs'|e]; [|done]. injection Hvs as <-.
  destruct (IH (Vault.record_activity s) _ _ Hs Hrest) as [Hall Hs2]. split; [|done]. constructor; [|done].
  assert (Hin : r ∈ session_records s0) by by eapply list_elem_of_lookup_2.
  assert (Hwf : uuid_wf (record_id r)) by by eapply Forall_forall in Hids.
  unfold ResolvedSecretBinding_new, SecretId_parse in Hv. rewrite uuid_parse_display in Hv by done. cbn in Hv.
  apply bind_Ok in Hv as (name & [-> _]%FieldName_parse_Ok & Hv). injection Hv as <-. split; [done|done|].
  exists r, f. split_and!; try done. by apply position_Some in Hp as (? & Hx & ? & _); simplify_eq.
Qed.

Lemma resolve_bindings_Ok bindings expected c s vs c' :
  managed c = ManagedUnlocked s -> ids_wf s ->
  resolve_bindings_for_ids bindings expected c = (Ok vs, c') ->
  length bindings = length expected /\
  Forall2 (fun bi v => resolves s bi.1 bi.2 v) (zip bindings expected) vs /\
  exists s', managed c' = ManagedUnlocked s' /\ session_records s' = session_records s.
Proof.
  intros Hc Hids. unfold resolve_bindings_for_ids, unlocked. rewrite Hc.
  destruct (negb _) eqn:Hl; [done|]. bool_hyps. apply Nat.eqb_eq in Hl.
  destruct (resolve_values _ _ s) as [answer s'] eqn:Hr. intros [= -> <-].
  destruct (resolve_values_Ok s _ s vs s' Hids eq_refl Hr) as [Hall Hs]. split_and!; [done|done|].
  by exists s'.
Qed.

(** Whatever the answer, the records are as before. *)
Lemma resolve_values_records metadata l s : session_records (resolve_values metadata l s).2 = session_records s.
Proof.
  revert s. induction l as [|[b expected] l IH]; intros s; cbn; [done|].
  destruct (binding_id metadata b) as [id|e]; [|done]. destruct (negb _); [done|].
  destruct (with_field _ _ _ s) as [[value s1]|e] eqn:Hw; [|done]. apply with_field_Ok in Hw as [-> _].
  destruct (ResolvedSecretBinding_new _ _ _); [|done]. specialize (IH (Vault.record_activity s)).
  by destruct (resolve_values _ l _).
Qed.

(** A run gets the values it was approved for and no others: when the bindings of a
    request are resolved for the identifiers that were shown to the user, each value is
    the named field of a record with exactly the expected identifier that the binding
    refers to, whatever was renamed or replaced in the meantime, and the records do not
    change. *)
Theorem resolve_bindings_spec bindings expected c s vs c' :
  managed c = ManagedUnlocked s -> ids_wf s ->
  resolve_bindings_for_ids bindings expected c = (Ok vs, c') ->
  length bindings = length expected /\
  Forall2 (fun bi v => resolves s bi.1 bi.2 v) (zip bindings expected) vs /\
  exists s', managed c' = ManagedUnlocked s' /\ session_records s' = session_records s.
Proof. apply resolve_bindings_Ok. Qed.
End binding_laws.

(** ** The plan shown to the user *)

(** The secret with the identifier is listed with the field. *)
Definition lists (requested : list ApprovalSecret) (id : SecretId) (field : string) : Prop :=
  exists x, x ∈ requested /\ approval_secret_id x = id /\ field ∈ approval_secret_fields x.

Lemma add_to_plan_lists secret name requested id field :
  lists (add_to_plan secret name requested) id field <->
  lists requested id field \/ id = meta_id secret /\ field = name.
Proof.
  unfold add_to_plan. destruct (list_find _ requested) as [[i x]|] eqn:Hf.
  - apply list_find_Some in Hf as (Hx & Hid & Hfirst). cbn in Hid. case_bool_decide as Hn.
    + split; [by left|]. intros [Hl|[-> ->]]; [done|]. exists x. split_and!; [|done|done].
      by eapply list_elem_of_lookup_2.
    + assert (Hlt : (i < length requested)%nat) by by eapply lookup_lt_Some.
      rewrite insert_take_drop by done.
      pose proof (take_drop_middle requested i x Hx) as Hreq.
      set (l1 := take i requested) in *. set (l2 := drop (S i) requested) in *. rewrite <- Hreq.
      unfold lists. setoid_rewrite elem_of_app. setoid_rewrite elem_of_cons.
      split.
      * intros (y & [Hy|[->|Hy]] & Hyid & Hyf); [left; exists y; auto| |left; exists y; auto]. cbn in *.
        apply elem_of_app in Hyf as [Hyf| ->%list_elem_of_singleton]; [|by right].
        left. exists x. split_and!; [by right; left|congruence|done].
      * intros [(y & [Hy|[->|Hy]] & Hyid & Hyf)|[-> ->]].
        -- exists y. auto.
        -- eexists. split; [right; left; reflexivity|]. cbn. split; [congruence|]. apply elem_of_app. by left.
        -- exists y. auto.
        -- eexists. split; [right; left; reflexivity|]. cbn. split; [done|]. apply elem_of_app. right.
           by apply list_elem_of_singleton.
  - unfold lists. setoid_rewrite elem_of_app. setoid_rewrite list_elem_of_singleton. split.
    + intros (y & [Hy| ->] & Hyid & Hyf); [left; exists y; auto|]. cbn in *.
      apply list_elem_of_singleton in Hyf. by right.
    + intros [(y & Hy & ? & ?)|[-> ->]]; [exists y; auto|]. eexists. split; [by right|]. cbn.
      split; [done|]. by apply list_elem_of_singleton.
Qed.

(** The secret of the vault with an identifier. *)
Definition secret_with (metadata : list SecretMetadata) (id : SecretId) : option SecretMetadata :=
  List.find (fun s => bool_decide (meta_id s = id)) metadata.

(** Each secret is listed once, under its name in the vault and with fields it has. *)
Record plan_ok (metadata : list SecretMetadata) (requested : list ApprovalSecret) : Prop := {
  plan_distinct : NoDup (approval_secret_id <$> requested);
  plan_named : Forall (fun x => exists m, secret_with metadata (approval_secret_id x) = Some m /\
    approval_secret_name x = meta_name m /\ Forall (fun f => f ∈ field_names m) (approval_secret_fields x)) requested;
}.

Lemma secret_with_id metadata id m : secret_with metadata id = Some m -> m ∈ metadata /\ meta_id m = id.
Proof. intros [Hin Hid]%List.find_some. bool_hyps. split; [by apply list_elem_of_In|done]. Qed.

Lemma add_to_plan_ok metadata secret name requested :
  plan_ok metadata requested -> secret_with metadata (meta_id secret) = Some secret -> name ∈ field_names secret ->
  plan_ok metadata (add_to_plan secret name requested).
Proof.
  intros [Hd Hn] Hin Hname. unfold add_to_plan. destruct (list_find _ requested) as [[i x]|] eqn:Hf.
  - case_bool_decide; [by split|]. apply list_find_Some in Hf as (Hx & Hid & _). cbn in Hid. split.
    + rewrite list_fmap_insert. cbn. rewrite <- Hid. rewrite list_insert_id; [done|].
      by rewrite list_lookup_fmap, Hx.
    + apply Forall_insert; [done|]. exists secret. cbn. split_and!; try done.
      pose proof (Forall_lookup_1 _ _ _ _ Hn Hx) as (m & Hm & _ & Hmf). rewrite Hid in Hm. simplify_eq.
      apply Forall_app. by split; [|apply Forall_singleton].
  - apply list_find_None in Hf. split.
    + rewrite fmap_app, NoDup_app. split_and!; [done| |by apply NoDup_singleton].
      intros id Hid [= ->]%list_elem_of_singleton. apply list_elem_of_fmap in Hid as (x & Hx & Hxin).
      eapply Forall_forall in Hf; [|done]. by apply Hf.
    + apply Forall_app. split; [done|]. apply Forall_singleton. exists secret. cbn.
      split_and!; try done. by apply Forall_singleton.
Qed.

Lemma plan_loop_Ok metadata l requested requested' :
  plan_ok metadata requested -> plan_loop metadata l requested = Ok requested' ->
  plan_ok metadata requested' /\
  forall id field, lists requested' id field <->
    lists requested id field \/ exists b, (b, id) ∈ l /\ Runner.field b = field.
Proof.
  revert requested. induction l as [|[b id] l IH]; intros requested Hr; cbn.
  { intros [= <-]. split; [done|]. intros id field. split; [by left|]. intros [|(b & []%not_elem_of_nil & _)]; done. }
  intros Hl. apply bind_Ok in Hl as (secret & Hs%ok_or_Ok & Hl).
  destruct (negb _) eqn:Hf; [done|]. bool_hyps.
  pose proof (secret_with_id _ _ _ Hs) as [_ Hid].
  assert (Hr' : plan_ok metadata (add_to_plan secret (field b) requested)).
  { apply add_to_plan_ok; [done| |done]. by rewrite Hid. }
  destruct (IH _ Hr' Hl) as [Hok Hlists]. split; [done|]. intros id' field'.
  rewrite Hlists, add_to_plan_lists, Hid. setoid_rewrite elem_of_cons. split.
  - intros [[?|[-> ->]]|(b' & ? & ?)]; [by left|right; exists b; auto|right; exists b'; auto].
  - intros [?|(b' & [[= -> ->]|?] & ?)]; [by left; left|left; right; auto|right; eauto].
Qed.

Lemma approval_plan_Ok bindings c plan :
  approval_plan bindings c = Ok plan ->
  exists s, managed c = ManagedUnlocked s /\ session_id c = Some (plan_vault plan) /\
    Forall2 (fun b id => binding_id (list_metadata s) b = Ok id) bindings (binding_ids plan) /\
    plan_ok (list_metadata s) (plan_secrets plan) /\
    forall id field, lists (plan_secrets plan) id field <->
      exists b, (b, id) ∈ zip bindings (binding_ids plan) /\ Runner.field b = field.
Proof.
  unfold approval_plan, binding_secret_ids, unlocked. intros Hp.
  apply bind_Ok in Hp as (ids & Hids & Hp). apply bind_Ok in Hids as (s & Hs & Hids).
  destruct (managed c) as [| | |s'] eqn:Hc; try done. injection Hs as ->. cbn in Hp.
  apply bind_Ok in Hp as (requested & Hr & Hp). apply bind_Ok in Hp as (vault & Hv%ok_or_Ok & [= <-]).
  exists s. cbn. split_and!; [done|done| | |].
  - clear -Hids. revert ids Hids. induction bindings as [|b bs IH]; intros ids Hids; cbn in Hids.
    + injection Hids as <-. constructor.
    + apply bind_Ok in Hids as (id & Hb & Hids). apply bind_Ok in Hids as (rest & Hrest & [= <-]).
      constructor; auto.
  - eapply plan_loop_Ok; [|exact Hr]. by split; constructor.
  - assert (Hnil : plan_ok (list_metadata s) []) by (by split; constructor).
    destruct (plan_loop_Ok _ _ _ _ Hnil Hr) as [_ Hl]. intros id field. rewrite Hl.
    split; [|by right]. intros [(x & []%not_elem_of_nil & _)|]; done.
Qed.

(** The approval screen tells the whole truth: a plan lists every secret and field a
    binding of the request resolves to and nothing else, each secret once and under its
    name in the vault, for the identifiers that the values are later resolved for. *)
Theorem approval_plan_spec bindings c plan :
  approval_plan bindings c = Ok plan ->
  exists s, managed c = ManagedUnlocked s /\ session_id c = Some (plan_vault plan) /\
    Forall2 (fun b id => binding_id (list_metadata s) b = Ok id) bindings (binding_ids plan) /\
    plan_ok (list_metadata s) (plan_secrets plan) /\
    forall id field, lists (plan_secrets plan) id field <->
      exists b, (b, id) ∈ zip bindings (binding_ids plan) /\ Runner.field b = field.
Proof. apply approval_plan_Ok. Qed.

(** Every binding is for a listed secret. *)
Lemma approval_plan_ids bindings c plan id :
  approval_plan bindings c = Ok plan -> id ∈ binding_ids plan -> id ∈ approval_secret_id <$> plan_secrets plan.
Proof.
  intros (s & _ & _ & Hb & _ & Hl)%approval_plan_Ok Hin.
  apply list_elem_of_lookup_1 in Hin as [i Hi].
  destruct (Forall2_lookup_r _ _ _ _ _ Hb Hi) as (b & Hbi & _).
  destruct (proj2 (Hl id (Runner.field b))) as (x & Hx & <- & _).
  - exists b. split; [|done]. apply list_elem_of_lookup_2 with i. by rewrite lookup_zip_with, Hbi, Hi.
  - by apply list_elem_of_fmap_2.
Qed.

(** ** An open vault with two secrets *)
Definition example_secret (id : SecretId) (name value : string) : SecretRecord := {|
  record_id := id; record_name := name;
  record_fields := [{| field_name := "value"; field_value := bytes_of value; field_hint := Text |}];
|}.
Definition example_open : VaultSession SessionActivity := session_new {|
  payload := with_records example_payload [example_secret 4 "token" "hunter2/"; example_secret 5 "key" "s3cret"];
  key_material := {| prefix_through_dek_tag := []; dek := [] |} |} (activity_at 0 (fun _ => 0)).
Definition example_controller : VaultController :=
  {| store := store_new ("vault", "vault.bak"); managed := ManagedUnlocked example_open; session_id := Some 9 |}.
Definition example_bindings : list ValidatedSecretBinding :=
  [{| secret_ref := RefName "key"; field := "value"; target := ValidatedStandardInput |};
   {| secret_ref := RefId 4; field := "value"; target := ValidatedEnvironment "TOKEN" |}].

Lemma example_open_ids : ids_wf example_open.
Proof. by repeat constructor. Qed.
Example approval_plan_spec_witness : exists plan,
  approval_plan example_bindings example_controller = Ok plan /\ binding_ids plan = [5; 4] /\
  lists (plan_secrets plan) 4 "value" /\ ~ lists (plan_secrets plan) 4 "other".
Proof.
  destruct (approval_plan example_bindings example_controller) as [plan|e] eqn:Hp; [|vm_compute in Hp; discriminate Hp].
  exists plan. split; [reflexivity|].
  destruct (approval_plan_spec example_bindings example_controller plan Hp) as (s & _ & _ & _ & _ & Hl).
  assert (Hids : binding_ids plan = [5; 4]) by (vm_compute in Hp; by injection Hp as <-).
  split; [exact Hids|]. rewrite !Hl, Hids. split.
  - exists {| secret_ref := RefId 4; field := "value"; target := ValidatedEnvironment "TOKEN" |}.
    split; [|reflexivity]. right. left.
  - intros (b & Hb & Hf). cbn in Hb. rewrite !elem_of_cons in Hb.
    destruct Hb as [[= -> _]|[[= ->]|[]%elem_of_nil]]; discriminate Hf.
Defined.
Example resolve_bindings_spec_witness : exists vs c',
  resolve_bindings_for_ids example_bindings [5; 4] example_controller = (Ok vs, c') /\
  Forall2 (fun bi v => resolves example_open bi.1 bi.2 v) (zip example_bindings [5; 4]) vs.
Proof.
  destruct (resolve_bindings_for_ids example_bindings [5; 4] example_controller) as [[vs|e] c'] eqn:Hr;
    [|exfalso; assert (Ha : is_ok (resolve_bindings_for_ids example_bindings [5; 4] example_controller).1 = true)
        by (vm_compute; reflexivity); rewrite Hr in Ha; discriminate Ha].
  exists vs, c'. split; [reflexivity|].
  apply (resolve_bindings_spec example_bindings [5; 4] example_controller example_open vs c'); [reflexivity| |exact Hr].
  exact example_open_ids.
Defined.
