(* ===== verification/Calls.v ===== *)
(** * Calls: programs that talk to the world outside

    A program makes calls of some family; nothing is assumed of the answers:
    [ask] gives the answer to a call after the calls that were made before, and
    every call is kept in a log, the latest first, on which properties are
    stated.  A loop of the source runs on fuel and [None] stands for a loop that
    did not end within it, or for a call that never returned ([blocking]). *)

From S2P Require Import Prelude Errors.

(** A call with its answer. *)
Inductive call_event {Call : Type -> Type} : Type := Event (A : Type) (call : Call A) (answer : A).
Arguments call_event Call : clear implicits.
Arguments Event {Call A} call answer.

(** ** The monad of a worker that makes calls *)
Definition Asks (Call : Type -> Type) (A : Type) : Type :=
  list (call_event Call) -> option (LResult A) * list (call_event Call).

Section os.
Context {Call : Type -> Type}.
Abbreviation log := (list (call_event Call)) (only parsing).
Abbreviation Os := (Asks Call) (only parsing).
Context (ask : forall A, Call A -> log -> A).
Arguments ask {A}.

#[export] Instance os_ret : MRet Os := fun A a l => (Some (Ok a), l).
#[export] Instance os_bind : MBind Os := fun A B f m l =>
  match m l with
  | (Some (Ok a), l) => f a l
  | (Some (Err e), l) => (Some (Err e), l)
  | (None, l) => (None, l)
  end.
#[export] Instance os_fmap : FMap Os := fun A B f m => a ← m; mret (f a).
Definition os_err {A} (e : LadonError) : Os A := fun l => (Some (Err e), l).
Definition os_lift {A} (r : LResult A) : Os A := fun l => (Some r, l).
Definition out_of_fuel {A} : Os A := fun l => (None, l).
Definition perform {A} (c : Call A) : Os A := fun l =>
  let a := ask c l in (Some (Ok a), Event c a :: l).

(** A call that may never return: a read to the end of a pipe that stays open, a join of a
    thread that goes on.  Its answer is then [None], and the program does not go on. *)
Definition blocking {A} (c : Call (option A)) : Os A :=
  answer ← perform c;
  match answer with Some a => mret a | None => out_of_fuel end.

(** A call whose failure is an error of the program, and one that is
    [LadonError::ProcessFailure]. *)
Definition or_error {IE A} (error : IE -> LadonError) (c : Call (result IE A)) : Os A :=
  answer ← perform c;
  match answer with Ok a => mret a | Err e => os_err (error e) end.
Definition or_failure {IE A} (c : Call (result IE A)) : Os A := or_error (fun _ => ProcessFailure) c.

(** The answer of a program as a value. *)
Definition attempt {A} (m : Os A) : Os (LResult A) := fun l =>
  match m l with (Some r, l) => (Some (Ok r), l) | (None, l) => (None, l) end.

(** A value that is dropped while an error is returned. *)
Definition on_error {A} (cleanup : Os unit) (m : Os A) : Os A := fun l =>
  match m l with
  | (Some (Err e), l) => (cleanup;; os_err e) l
  | answer => answer
  end.

(** ** What holds when the worker has answered *)
Definition os_wp {A} (m : Os A) (Q : LResult A -> log -> Prop) (l : log) : Prop :=
  match m l with (Some r, l') => Q r l' | (None, _) => False end.

Lemma os_wp_bind {A B} (m : Os A) (k : A -> Os B) Q l :
  os_wp m (fun r l' => match r with Ok a => os_wp (k a) Q l' | Err e => Q (Err e) l' end) l ->
  os_wp (m ≫= k) Q l.
Proof. unfold os_wp, mbind, os_bind. by destruct (m l) as [[[a|e]|] l']. Qed.
Lemma os_wp_ret {A} (a : A) (Q : LResult A -> log -> Prop) l : Q (Ok a) l -> os_wp (mret a) Q l.
Proof. done. Qed.
Lemma os_wp_err {A} e (Q : LResult A -> log -> Prop) l : Q (Err e) l -> os_wp (os_err e) Q l.
Proof. done. Qed.
Lemma os_wp_lift {A} (r : LResult A) (Q : LResult A -> log -> Prop) l : Q r l -> os_wp (os_lift r) Q l.
Proof. done. Qed.
Lemma os_wp_lift_cases {A} (r : LResult A) (Q : LResult A -> log -> Prop) l :
  (forall a, r = Ok a -> Q (Ok a) l) -> (forall e, r = Err e -> Q (Err e) l) -> os_wp (os_lift r) Q l.
Proof. intros Hok Herr. apply os_wp_lift. destruct r; auto. Qed.
Lemma os_wp_perform {A} (c : Call A) (Q : LResult A -> log -> Prop) l :
  (forall a, a = ask c l -> Q (Ok a) (Event c a :: l)) -> os_wp (perform c) Q l.
Proof. intros Hq. by apply Hq. Qed.
Lemma os_wp_mono {A} (m : Os A) (Q Q' : LResult A -> log -> Prop) l :
  os_wp m Q l -> (forall r l', Q r l' -> Q' r l') -> os_wp m Q' l.
Proof. unfold os_wp. destruct (m l) as [[r|] l']; auto. Qed.
Lemma os_wp_blocking {A} (c : Call (option A)) (Q : LResult A -> log -> Prop) l :
  (forall a, ask c l = Some a -> Q (Ok a) (Event c (Some a) :: l)) -> ask c l <> None -> os_wp (blocking c) Q l.
Proof.
  intros Hq Hn. apply os_wp_bind, os_wp_perform. intros [a|] Ha; [by apply os_wp_ret, Hq|by symmetry in Ha].
Qed.
Lemma os_wp_or_error {IE A} (error : IE -> LadonError) (c : Call (result IE A)) (Q : LResult A -> log -> Prop) l :
  (forall a, ask c l = Ok a -> Q (Ok a) (Event c (Ok a) :: l)) ->
  (forall e, Q (Err (error e)) (Event c (Err e) :: l)) ->
  os_wp (or_error error c) Q l.
Proof.
  intros Hok Herr. apply os_wp_bind, os_wp_perform. intros [a|e] Ha; [by apply os_wp_ret, Hok|by apply os_wp_err, Herr].
Qed.
Lemma os_wp_or_failure {IE A} (c : Call (result IE A)) (Q : LResult A -> log -> Prop) l :
  (forall a, ask c l = Ok a -> Q (Ok a) (Event c (Ok a) :: l)) ->
  (forall e, Q (Err ProcessFailure) (Event c (Err e) :: l)) ->
  os_wp (or_failure c) Q l.
Proof. apply os_wp_or_error. Qed.

Lemma os_wp_on_error {A} (cleanup : Os unit) (m : Os A) (Q : LResult A -> log -> Prop) l :
  os_wp m (fun r l' => match r with
                       | Ok _ => Q r l'
                       | Err e => os_wp cleanup (fun r' l'' => Q match r' with Ok _ => Err e | Err e' => Err e' end l'') l'
                       end) l ->
  os_wp (on_error cleanup m) Q l.
Proof.
  unfold os_wp, on_error. destruct (m l) as [[[a|e]|] l']; [done| |done].
  unfold mbind, os_bind, os_err. by destruct (cleanup l') as [[[]|] l''].
Qed.

(** What holds when the worker has answered, and [H] when it never does. *)
Definition os_ends {A} (H : log -> Prop) (m : Os A) (Q : LResult A -> log -> Prop) (l : log) : Prop :=
  match m l with (Some r, l') => Q r l' | (None, l') => H l' end.

Lemma os_ends_bind {A B} H (m : Os A) (k : A -> Os B) Q l :
  os_ends H m (fun r l' => match r with Ok a => os_ends H (k a) Q l' | Err e => Q (Err e) l' end) l ->
  os_ends H (m ≫= k) Q l.
Proof. unfold os_ends, mbind, os_bind. by destruct (m l) as [[[a|e]|] l']. Qed.
Lemma os_ends_wp {A} H (m : Os A) Q l : os_wp m Q l -> os_ends H m Q l.
Proof. unfold os_ends, os_wp. by destruct (m l) as [[r|] l']. Qed.
Lemma os_ends_mono {A} H (m : Os A) (Q Q' : LResult A -> log -> Prop) l :
  os_ends H m Q l -> (forall r l', Q r l' -> Q' r l') -> os_ends H m Q' l.
Proof. unfold os_ends. destruct (m l) as [[r|] l']; auto. Qed.
Lemma os_ends_blocking {A} (H : log -> Prop) (c : Call (option A)) (Q : LResult A -> log -> Prop) l :
  (forall a, Q (Ok a) (Event c (Some a) :: l)) -> (ask c l = None -> H (Event c None :: l)) ->
  os_ends H (blocking c) Q l.
Proof.
  intros Hq Hn. apply os_ends_bind, os_ends_wp, os_wp_perform. intros [a|] Ha; [by apply os_ends_wp, os_wp_ret, Hq|by apply Hn].
Qed.

(** A partial version, for properties of the log that hold whatever a loop does. *)
Definition os_keeps {A} (P : log -> Prop) (m : Os A) : Prop := forall l, P l -> P (m l).2.

Lemma os_keeps_bind {A B} P (m : Os A) (k : A -> Os B) :
  os_keeps P m -> (forall a, os_keeps P (k a)) -> os_keeps P (m ≫= k).
Proof.
  intros Hm Hk l Hl. specialize (Hm l Hl). unfold mbind, os_bind.
  destruct (m l) as [[[a|e]|] l']; [by apply Hk|done|done].
Qed.
Lemma os_keeps_ret {A} P (a : A) : os_keeps P (mret a).
Proof. by intros l. Qed.
Lemma os_keeps_fmap {A B} P (f : A -> B) (m : Os A) : os_keeps P m -> os_keeps P (f <$> m).
Proof. intros Hm. unfold fmap, os_fmap. apply os_keeps_bind; [done|]. intros a. apply os_keeps_ret. Qed.
Lemma os_keeps_err {A} P e : os_keeps P (os_err e : Os A).
Proof. by intros l. Qed.
Lemma os_keeps_lift {A} P (r : LResult A) : os_keeps P (os_lift r).
Proof. by intros l. Qed.
Lemma os_keeps_fuel {A} P : os_keeps P (out_of_fuel : Os A).
Proof. by intros l. Qed.
Lemma os_keeps_perform {A} (P : log -> Prop) (c : Call A) :
  (forall l a, P l -> P (Event c a :: l)) -> os_keeps P (perform c).
Proof. intros Hp l Hl. by apply Hp. Qed.
Lemma os_keeps_blocking {A} (P : log -> Prop) (c : Call (option A)) :
  (forall l a, P l -> P (Event c a :: l)) -> os_keeps P (blocking c).
Proof.
  intros Hp. apply os_keeps_bind; [by apply os_keeps_perform|]. intros [a|]; [apply os_keeps_ret|apply os_keeps_fuel].
Qed.
Lemma os_keeps_or_error {IE A} (P : log -> Prop) error (c : Call (result IE A)) :
  (forall l a, P l -> P (Event c a :: l)) -> os_keeps P (or_error error c).
Proof.
  intros Hp. apply os_keeps_bind; [by apply os_keeps_perform|].
  intros [a|e]; [apply os_keeps_ret|apply os_keeps_err].
Qed.
Lemma os_keeps_or_failure {IE A} (P : log -> Prop) (c : Call (result IE A)) :
  (forall l a, P l -> P (Event c a :: l)) -> os_keeps P (or_failure c).
Proof. apply os_keeps_or_error. Qed.

(** A worker that always answers. *)
Definition answers {A} (m : Os A) : Prop := forall l, is_Some (m l).1.
Lemma answers_bind {A B} (m : Os A) (k : A -> Os B) : answers m -> (forall a, answers (k a)) -> answers (m ≫= k).
Proof.
  intros Hm Hk l. specialize (Hm l). unfold mbind, os_bind. destruct (m l) as [[[a|e]|] l']; [apply Hk|by eexists|].
  by destruct Hm.
Qed.
Lemma answers_ret {A} (a : A) : answers (mret a).
Proof. by intros l; eexists. Qed.
Lemma answers_err {A} e : answers (os_err e : Os A).
Proof. by intros l; eexists. Qed.
Lemma answers_lift {A} (r : LResult A) : answers (os_lift r).
Proof. by intros l; eexists. Qed.
Lemma answers_perform {A} (c : Call A) : answers (perform c).
Proof. by intros l; eexists. Qed.
Lemma answers_or_error {IE A} error (c : Call (result IE A)) : answers (or_error error c).
Proof. apply answers_bind; [apply answers_perform|]. intros [a|e]; [apply answers_ret|apply answers_err]. Qed.
Lemma answers_or_failure {IE A} (c : Call (result IE A)) : answers (or_failure c).
Proof. apply answers_or_error. Qed.
Lemma answers_attempt {A} (m : Os A) : answers m -> answers (attempt m).
Proof. intros Hm l. specialize (Hm l). unfold attempt. destruct (m l) as [[r|] l']; [by eexists|by destruct Hm]. Qed.
Lemma answers_on_error {A} (cleanup : Os unit) (m : Os A) : answers cleanup -> answers m -> answers (on_error cleanup m).
Proof.
  intros Hc Hm l. specialize (Hm l). unfold on_error. destruct (m l) as [[[a|e]|] l']; [by eexists| |done].
  apply answers_bind; [done|]. intros ?. apply answers_err.
Qed.
Lemma answers_wp {A} (m : Os A) (P : log -> Prop) l : answers m -> os_keeps P m -> P l -> os_wp m (fun _ => P) l.
Proof.
  intros Ha Hk Hl. specialize (Hk l Hl). specialize (Ha l). unfold os_wp.
  destruct (m l) as [[r|] l']; [done|]. by destruct Ha.
Qed.

(** A program whose calls keep what the rest needs. *)
Lemma os_wp_keeps_bind {A B} (P : log -> Prop) (m : Os A) (k : A -> Os B) Q l :
  answers m -> os_keeps P m -> P l ->
  (forall a l', P l' -> os_wp (k a) Q l') -> (forall e l', P l' -> Q (Err e) l') -> os_wp (m ≫= k) Q l.
Proof.
  intros Ha Hm Hl Hk He. apply os_wp_bind. eapply os_wp_mono; [by apply answers_wp|].
  intros [a|e] l' Hl'; auto.
Qed.
Lemma os_wp_attempt {A} (m : Os A) (Q : LResult (LResult A) -> log -> Prop) l :
  os_wp m (fun r => Q (Ok r)) l -> os_wp (attempt m) Q l.
Proof. unfold os_wp, attempt. by destruct (m l) as [[r|] l']. Qed.
Lemma os_keeps_attempt {A} P (m : Os A) : os_keeps P m -> os_keeps P (attempt m).
Proof. intros Hm l Hl. specialize (Hm l Hl). unfold attempt. by destruct (m l) as [[r|] l']. Qed.
Lemma os_keeps_on_error {A} P (cleanup : Os unit) (m : Os A) :
  os_keeps P cleanup -> os_keeps P m -> os_keeps P (on_error cleanup m).
Proof.
  intros Hc Hm l Hl. specialize (Hm l Hl). unfold on_error. destruct (m l) as [[[a|e]|] l']; [done| |done].
  apply os_keeps_bind; [done| |done]. intros ?. apply os_keeps_err.
Qed.

(** What holds when the worker answers a value, and [E] whenever it does not. *)
Definition os_run {A} (m : Os A) (Q : A -> log -> Prop) (E : log -> Prop) (l : log) : Prop :=
  match m l with (Some (Ok a), l') => Q a l' | (_, l') => E l' end.

Lemma os_run_bind {A B} (m : Os A) (k : A -> Os B) Q E l :
  os_run m (fun a => os_run (k a) Q E) E l -> os_run (m ≫= k) Q E l.
Proof. unfold os_run, mbind, os_bind. by destruct (m l) as [[[a|e]|] l']. Qed.
Lemma os_run_ret {A} (a : A) (Q : A -> log -> Prop) E l : Q a l -> os_run (mret a) Q E l.
Proof. done. Qed.
Lemma os_run_err {A} e (Q : A -> log -> Prop) (E : log -> Prop) l : E l -> os_run (os_err e) Q E l.
Proof. done. Qed.
Lemma os_run_lift {A} (r : LResult A) (Q : A -> log -> Prop) (E : log -> Prop) l :
  (forall a, r = Ok a -> Q a l) -> E l -> os_run (os_lift r) Q E l.
Proof. unfold os_run, os_lift. destruct r; auto. Qed.
Lemma os_run_perform {A} (c : Call A) (Q : A -> log -> Prop) E l :
  (forall a, Q a (Event c a :: l)) -> os_run (perform c) Q E l.
Proof. intros Hq. apply Hq. Qed.
Lemma os_run_blocking {A} (c : Call (option A)) (Q : A -> log -> Prop) (E : log -> Prop) l :
  (forall a, Q a (Event c (Some a) :: l)) -> E (Event c None :: l) -> os_run (blocking c) Q E l.
Proof. intros Hq He. apply os_run_bind, os_run_perform. by intros [a|]; [apply os_run_ret|]. Qed.
Lemma os_run_or_failure {IE A} (c : Call (result IE A)) (Q : A -> log -> Prop) (E : log -> Prop) l :
  (forall a, Q a (Event c (Ok a) :: l)) -> (forall e, E (Event c (Err e) :: l)) -> os_run (or_failure c) Q E l.
Proof. intros Hok Herr. apply os_run_bind, os_run_perform. intros [a|e]; [by apply os_run_ret|by apply os_run_err]. Qed.
Lemma os_run_mono {A} (m : Os A) (Q Q' : A -> log -> Prop) (E E' : log -> Prop) l :
  os_run m Q E l -> (forall a l', Q a l' -> Q' a l') -> (forall l', E l' -> E' l') -> os_run m Q' E' l.
Proof. unfold os_run. destruct (m l) as [[[a|e]|] l']; auto. Qed.
Lemma os_run_keeps {A} (P : log -> Prop) (m : Os A) l : os_keeps P m -> P l -> os_run m (fun _ => P) P l.
Proof. intros Hk Hl. specialize (Hk l Hl). unfold os_run. by destruct (m l) as [[[a|e]|] l']. Qed.
Lemma os_run_and {A} (P : log -> Prop) (m : Os A) (Q : A -> log -> Prop) (E : log -> Prop) l :
  os_run m Q E l -> os_keeps P m -> P l -> os_run m (fun a l' => Q a l' /\ P l') (fun l' => E l' /\ P l') l.
Proof. intros Hm Hk Hl. specialize (Hk l Hl). unfold os_run in *. by destruct (m l) as [[[a|e]|] l']. Qed.
Lemma os_run_state {A} (m : Os A) (Q : A -> log -> Prop) (E P : log -> Prop) l :
  os_run m Q E l -> (forall a l', Q a l' -> P l') -> (forall l', E l' -> P l') -> P (m l).2.
Proof. unfold os_run. destruct (m l) as [[[a|e]|] l']; eauto. Qed.
(** ** Programs that make only some calls, and always answer *)
Definition closed_under (allowed : forall A, Call A -> Prop) (P : log -> Prop) : Prop :=
  forall A (c : Call A) a l, allowed A c -> P l -> P (Event c a :: l).
Definition asks_only (allowed : forall A, Call A -> Prop) {A} (m : Os A) : Prop :=
  answers m /\ forall P, closed_under allowed P -> os_keeps P m.

Lemma asks_only_bind allowed {A B} (m : Os A) (k : A -> Os B) :
  asks_only allowed m -> (forall a, asks_only allowed (k a)) -> asks_only allowed (m ≫= k).
Proof.
  intros [Ha Hm] Hk. split; [apply answers_bind; [done|]; intros a; apply Hk|].
  intros P HP. apply os_keeps_bind; [by apply Hm|]. intros a. by apply Hk.
Qed.
Lemma asks_only_ret allowed {A} (a : A) : asks_only allowed (mret a).
Proof. split; [apply answers_ret|]. intros P _. apply os_keeps_ret. Qed.
Lemma asks_only_err allowed {A} e : asks_only allowed (os_err e : Os A).
Proof. split; [apply answers_err|]. intros P _. apply os_keeps_err. Qed.
Lemma asks_only_lift allowed {A} (r : LResult A) : asks_only allowed (os_lift r).
Proof. split; [apply answers_lift|]. intros P _. apply os_keeps_lift. Qed.
Lemma asks_only_perform (allowed : forall A, Call A -> Prop) {A} (c : Call A) : allowed A c -> asks_only allowed (perform c).
Proof. split; [apply answers_perform|]. intros P HP. apply os_keeps_perform. intros l a. by apply HP. Qed.
Lemma asks_only_or_error (allowed : forall A, Call A -> Prop) {IE A} error (c : Call (result IE A)) :
  allowed _ c -> asks_only allowed (or_error error c).
Proof. split; [apply answers_or_error|]. intros P HP. apply os_keeps_or_error. intros l a. by apply HP. Qed.
Lemma asks_only_attempt allowed {A} (m : Os A) : asks_only allowed m -> asks_only allowed (attempt m).
Proof. intros [Ha Hm]. split; [by apply answers_attempt|]. intros P HP. by apply os_keeps_attempt, Hm. Qed.
Lemma asks_only_on_error allowed {A} (cleanup : Os unit) (m : Os A) :
  asks_only allowed cleanup -> asks_only allowed m -> asks_only allowed (on_error cleanup m).
Proof.
  intros [Hc Hk] [Ha Hm]. split; [by apply answers_on_error|]. intros P HP. apply os_keeps_on_error; [by apply Hk|by apply Hm].
Qed.
Lemma asks_only_mono (allowed allowed' : forall A, Call A -> Prop) {A} (m : Os A) :
  (forall B c, allowed B c -> allowed' B c) -> asks_only allowed m -> asks_only allowed' m.
Proof. intros Hi [Ha Hm]. split; [done|]. intros P HP. apply Hm. intros B c a l Hc. by apply HP, Hi. Qed.
Lemma asks_only_wp allowed {A} (m : Os A) P l : asks_only allowed m -> closed_under allowed P -> P l -> os_wp m (fun _ => P) l.
Proof. intros [Ha Hm] HP Hl. apply answers_wp; [done|by apply Hm|done]. Qed.
Lemma asks_only_wp_bind allowed {A B} P (m : Os A) (k : A -> Os B) Q l :
  closed_under allowed P -> asks_only allowed m -> P l ->
  (forall a l', P l' -> os_wp (k a) Q l') -> (forall e l', P l' -> Q (Err e) l') -> os_wp (m ≫= k) Q l.
Proof. intros HP [Ha Hm]. apply os_wp_keeps_bind; [done|by apply Hm]. Qed.
End os.
#[global] Arguments os_wp : simpl never.

Create HintDb os_keeps.
#[export] Hint Resolve os_keeps_bind os_keeps_blocking os_keeps_fmap os_keeps_ret os_keeps_err os_keeps_lift os_keeps_fuel os_keeps_perform
  os_keeps_or_error os_keeps_or_failure answers_or_error answers_bind answers_ret answers_err answers_lift answers_perform answers_or_failure
  answers_attempt answers_on_error os_keeps_attempt os_keeps_on_error : os_keeps.

Create HintDb asks_only.
#[export] Hint Resolve asks_only_bind asks_only_ret asks_only_err asks_only_lift asks_only_perform asks_only_or_error
  asks_only_attempt asks_only_on_error : asks_only.

(** Runs a program without loops call by call. *)
Ltac ask_step :=
  lazymatch goal with
  | |- os_wp (_ ≫= _) _ _ => apply os_wp_bind
  | |- os_wp (mret _) _ _ => apply os_wp_ret
  | |- os_wp (os_err _) _ _ => apply os_wp_err
  | |- os_wp (perform _ _) _ _ => apply os_wp_perform; intros ? _
  | |- os_wp (or_error _ _ _) _ _ => apply os_wp_or_error; [intros ? _|intros ?]
  | |- os_wp (os_lift _) _ _ => apply os_wp_lift_cases; [intros ? ?|intros ? ?]
  | |- os_wp (on_error _ _) _ _ => apply os_wp_on_error
  | |- os_wp (attempt _) _ _ => apply os_wp_attempt
  end; cbv beta iota.
