(* ===== verification/Os.v ===== *)
(** * Os: what the supervisor asks of the operating system

    A run talks to the operating system through the calls below, in the monad of
    [Calls].  Nothing is assumed of the answers, and the properties are stated on
    the log of the calls. *)

From S2P Require Import Prelude Errors Time Model Calls.
Local Open Scope Z_scope.

(** ** Calls *)
Abbreviation Instant := Z (only parsing).

(** The answer of [libc::kill], with [last_os_error] of a failure. *)
Inductive KillAnswer : Set := Delivered | NoSuchProcess | NotPermitted | KillFailed.
#[export] Instance KillAnswer_eq_dec : EqDecision KillAnswer.
Proof. solve_decision. Defined.

(** [ExitStatus::code]: none for a child that a signal ended. *)
Record ExitStatus := { exit_status_code : option Z }.

(** [io::ErrorKind], [fs::Metadata] and the bindings of a directory listing. *)
Inductive IoError : Set := NotFound | AlreadyExists | BrokenPipe | IoFailure.
Inductive FileType : Set := Directory | RegularFile | OtherFile.
#[export] Instance FileType_eq_dec : EqDecision FileType.
Proof. solve_decision. Defined.
Record Metadata := { file_type : FileType; owner_uid : Z; file_mode : Z; file_length : Z }.
Abbreviation Io A := (result IoError A) (only parsing).

(** [ReadOutput] is all that a reader thread reads until its pipe ends, [WriteInput] the
    write to the standard input; the thread that makes them is joined, and the answer is
    [None] when that join never returns, because someone keeps the pipe open. *)
Inductive os_call : Type -> Type :=
| Kill (signal : Z) : os_call KillAnswer
| TryWait : os_call (Io (option ExitStatus))
| Wait : os_call (Io ExitStatus)
| KillChild : os_call unit
| Spawn : os_call (Io Z)
| ReadOutput (errors : bool) : os_call (option (list (Io bytes)))
| WriteInput (value : bytes) : os_call (option (Io unit))
| Now : os_call Instant
| SleepPoll : os_call unit
| IsCancelled : os_call bool
| NewUuid : os_call Uuid
| FileMetadata (path : string) : os_call (Io Metadata)
| SymlinkMetadata (path : string) : os_call (Io Metadata)
| CreateDirectory (path : string) (mode : Z) : os_call (Io unit)
| SetPermissions (path : string) (mode : Z) : os_call (Io unit)
| MakeTempDirectory (prefix root : string) : os_call (Io string)
| CreateNew (path : string) (mode : Z) : os_call (Io unit)
| WriteAll (path : string) (contents : bytes) : os_call (Io unit)
| SyncAll (path : string) : os_call (Io unit)
| Flush (path : string) : os_call (Io unit)
| ReadDirectory (path : string) : os_call (Io (list (Io string)))
| ReadToString (path : string) : os_call (Io string)
| RemoveTree (path : string) : os_call (Io unit).

Abbreviation event := (call_event os_call) (only parsing).
Abbreviation Os := (Asks os_call) (only parsing).
Abbreviation log := (list (call_event os_call)) (only parsing).
