(* ===== verification/ProcessTree.v ===== *)
(** * ProcessTree: the child of [crates/ladon-app/src/supervisor.rs]

    [wait_for_child] polls the child until it exits, is cancelled or runs out of
    time, and the process group of the child is then ended: [SIGTERM], a grace
    period, [SIGKILL] and a confirmation.  This is the Unix half; the job
    objects of Windows are not modelled.  Under a clock that advances while the
    worker sleeps every wait ends. *)

From S2P Require Import Prelude Errors Time Model Calls Os.
Local Open Scope Z_scope.

Definition POLL_INTERVAL : Duration := from_millis 10.
Definition TERMINATION_GRACE : Duration := from_millis 500.
Definition TERMINATION_CONFIRMATION : Duration := from_secs 2.
Definition SIGTERM : Z := 15.
Definition SIGKILL : Z := 9.

(** [enum RunTermination]. *)
Inductive RunTermination : Set := Exited | TimedOut | Cancelled.
#[export] Instance RunTermination_eq_dec : EqDecision RunTermination.
Proof. solve_decision. Defined.

(** [Instant::elapsed] between two readings. *)
Definition elapsed_since (started now : Instant) : Duration := Z.max 0 (now - started).

(** Rounds of a loop that ends once [limit] has passed, one poll interval a round. *)
Definition rounds (limit : Duration) : nat := S (Z.to_nat (limit / POLL_INTERVAL + 1)).

Section process_tree.
Context (ask : forall A, os_call A -> log -> A).
Abbreviation perform := (perform ask).
Abbreviation or_failure := (or_failure ask).

(** [UnixProcessGroup::signal] and [UnixProcessGroup::exists]. *)
Definition signal (s : Z) : Os unit :=
  answer ← perform (Kill s);
  match answer with Delivered | NoSuchProcess => mret tt | _ => os_err ProcessFailure end.
Definition group_exists : Os bool :=
  answer ← perform (Kill 0);
  match answer with
  | Delivered | NotPermitted => mret true
  | NoSuchProcess => mret false
  | KillFailed => os_err ProcessFailure
  end.

(** The loops of [UnixProcessGroup::terminate_with_status]: the status so far and
    whether the group is gone, and the confirmation after [SIGKILL]. *)
Fixpoint grace_loop (fuel : nat) (grace_started : Instant) (status : option ExitStatus) :
    Os (option ExitStatus * bool) :=
  match fuel with
  | O => out_of_fuel
  | S fuel =>
    now ← perform Now;
    if negb (elapsed_since grace_started now <? TERMINATION_GRACE) then mret (status, false)
    else
      status ← match status with None => or_failure TryWait | Some _ => mret status end;
      gone ← match status with Some _ => negb <$> group_exists | None => mret false end;
      if (gone : bool) then mret (status, true)
      else perform SleepPoll;; grace_loop fuel grace_started status
  end.
Fixpoint confirmation_loop (fuel : nat) (confirmation_started : Instant) : Os unit :=
  match fuel with
  | O => out_of_fuel
  | S fuel =>
    running ← group_exists;
    if (running : bool) then
      now ← perform Now;
      if TERMINATION_CONFIRMATION <=? elapsed_since confirmation_started now then os_err ProcessFailure
      else perform SleepPoll;; confirmation_loop fuel confirmation_started
    else mret tt
  end.

(** [UnixProcessGroup::terminate_with_status], and [finish] and [terminate] of
    [trait ProcessTreeControl]. *)
Definition terminate_with_status (status : option ExitStatus) : Os ExitStatus :=
  signal SIGTERM;;
  grace_started ← perform Now;
  '(status, gone) ← grace_loop (rounds TERMINATION_GRACE) grace_started status;
  if (gone : bool) then os_lift (ok_or status ProcessFailure)
  else
    signal SIGKILL;;
    status ← match status with None => Some <$> or_failure Wait | Some _ => mret status end;
    confirmation_started ← perform Now;
    confirmation_loop (rounds TERMINATION_CONFIRMATION) confirmation_started;;
    os_lift (ok_or status ProcessFailure).
Definition finish (status : ExitStatus) : Os ExitStatus :=
  running ← group_exists;
  if (running : bool) then terminate_with_status (Some status) else mret status.
Definition terminate : Os ExitStatus := terminate_with_status None.

(** [wait_for_child]. *)
Fixpoint wait_loop (fuel : nat) (started : Instant) (timeout : Duration) : Os (ExitStatus * RunTermination) :=
  match fuel with
  | O => out_of_fuel
  | S fuel =>
    exited ← or_failure TryWait;
    match exited with
    | Some status => status ← finish status; mret (status, Exited)
    | None =>
      cancelled ← perform IsCancelled;
      if (cancelled : bool) then status ← terminate; mret (status, Cancelled)
      else
        now ← perform Now;
        if timeout <=? elapsed_since started now then status ← terminate; mret (status, TimedOut)
        else perform SleepPoll;; wait_loop fuel started timeout
    end
  end.
Definition wait_for_child (started : Instant) (timeout : Duration) : Os (ExitStatus * RunTermination) :=
  wait_loop (rounds timeout) started timeout.

(** ** What a wait leaves alone *)

(** The calls made while waiting for the child. *)
Definition process_call {A} (c : os_call A) : Prop :=
  match c with Kill _ | TryWait | Wait | KillChild | Now | SleepPoll | IsCancelled => True | _ => False end.

Section keeps.
Context (P : log -> Prop) (HP : forall A (c : os_call A) a l, process_call c -> P l -> P (Event c a :: l)).

Lemma keeps_call {A} (c : os_call A) : process_call c -> os_keeps P (perform c).
Proof. intros Hc. apply os_keeps_perform. intros l a. by apply HP. Qed.
Lemma keeps_checked {A} (c : os_call (Io A)) : process_call c -> os_keeps P (or_failure c).
Proof. intros Hc. apply os_keeps_or_failure. intros l a. by apply HP. Qed.
#[local] Hint Resolve keeps_call keeps_checked : os_keeps.
#[local] Hint Extern 2 (process_call _) => exact I : os_keeps.
#[local] Ltac keep := repeat (apply os_keeps_bind; [|intros []]); eauto with os_keeps.

Lemma keeps_signal s : os_keeps P (signal s).
Proof. unfold signal. keep. Qed.
Lemma keeps_exists : os_keeps P group_exists.
Proof. unfold group_exists. keep. Qed.
#[local] Hint Resolve keeps_signal keeps_exists : os_keeps.

Lemma keeps_grace fuel started status : os_keeps P (grace_loop fuel started status).
Proof.
  revert status. induction fuel as [|fuel IH]; intros status; cbn [grace_loop]; [apply os_keeps_fuel|].
  apply os_keeps_bind; [by apply keeps_call|]. intros now. destruct (negb _); [apply os_keeps_ret|].
  apply os_keeps_bind; [destruct status; eauto with os_keeps|]. intros status'.
  apply os_keeps_bind; [destruct status'; eauto with os_keeps|].
  intros []; [apply os_keeps_ret|]. apply os_keeps_bind; [by apply keeps_call|]. intros _. apply IH.
Qed.
Lemma keeps_confirmation fuel started : os_keeps P (confirmation_loop fuel started).
Proof.
  induction fuel as [|fuel IH]; cbn [confirmation_loop]; [apply os_keeps_fuel|].
  apply os_keeps_bind; [apply keeps_exists|]. intros []; [|apply os_keeps_ret].
  apply os_keeps_bind; [by apply keeps_call|]. intros now. destruct (_ <=? _); [apply os_keeps_err|].
  apply os_keeps_bind; [by apply keeps_call|]. intros _. apply IH.
Qed.
Lemma keeps_terminate status : os_keeps P (terminate_with_status status).
Proof.
  unfold terminate_with_status. apply os_keeps_bind; [apply keeps_signal|]. intros _.
  apply os_keeps_bind; [by apply keeps_call|]. intros now. apply os_keeps_bind; [apply keeps_grace|].
  intros [status' []]; [apply os_keeps_lift|]. apply os_keeps_bind; [apply keeps_signal|]. intros _.
  apply os_keeps_bind; [destruct status'; eauto with os_keeps|].
  intros status2. apply os_keeps_bind; [by apply keeps_call|]. intros later.
  apply os_keeps_bind; [apply keeps_confirmation|]. intros _. apply os_keeps_lift.
Qed.
Lemma keeps_finish status : os_keeps P (finish status).
Proof. unfold finish. apply os_keeps_bind; [apply keeps_exists|]. intros []; [apply keeps_terminate|apply os_keeps_ret]. Qed.

Lemma wait_for_child_keeps started timeout : os_keeps P (wait_for_child started timeout).
Proof.
  unfold wait_for_child. induction (rounds timeout) as [|fuel IH]; cbn [wait_loop]; [apply os_keeps_fuel|].
  apply os_keeps_bind; [by apply keeps_checked|]. intros [status|].
  { apply os_keeps_bind; [apply keeps_finish|]. intros; apply os_keeps_ret. }
  apply os_keeps_bind; [by apply keeps_call|]. intros [].
  { apply os_keeps_bind; [apply keeps_terminate|]. intros; apply os_keeps_ret. }
  apply os_keeps_bind; [by apply keeps_call|]. intros now. destruct (_ <=? _).
  { apply os_keeps_bind; [apply keeps_terminate|]. intros; apply os_keeps_ret. }
  apply os_keeps_bind; [by apply keeps_call|]. intros _. apply IH.
Qed.
End keeps.

(** ** Every wait ends *)

(** The clock the worker reads never goes back, and a sleep takes at least as long as it
    was asked to. *)
Record ticking (clock : log -> Instant) : Prop := {
  ticking_now l : ask Instant Now l = clock l;
  ticking_event l A (c : os_call A) a : clock l <= clock (Event c a :: l);
  ticking_sleep l a : clock l + POLL_INTERVAL <= clock (Event SleepPoll a :: l);
}.

(** The group is gone: the last call found no process in it. *)
Definition gone (l : log) : Prop := exists l', l = Event (Kill 0) NoSuchProcess :: l'.

Section ends.
Context {clock : log -> Instant} (Hclock : ticking clock).

(** Later in the log. *)
Definition later (l l' : log) : Prop := clock l <= clock l' /\ l `suffix_of` l'.
#[export] Instance later_preorder : PreOrder later.
Proof.
  split; [intros l; by split|]. intros l l' l'' [? ?] [? ?]. split; [lia|by etrans].
Qed.
Lemma later_event l {A} (c : os_call A) a : later l (Event c a :: l).
Proof. split; [apply (ticking_event _ Hclock)|by exists [Event c a]]. Qed.

(** A worker that answers, and what it has done by then. *)
Definition ends {A} (m : Os A) (l : log) (Q : A -> log -> Prop) : Prop :=
  os_wp m (fun r l' => later l l' /\ match r with Ok a => Q a l' | Err _ => True end) l.

Lemma ends_bind {A B} (m : Os A) (k : A -> Os B) l (R : A -> log -> Prop) Q :
  ends m l R -> (forall a l', later l l' -> R a l' -> ends (k a) l' Q) -> ends (m ≫= k) l Q.
Proof.
  intros Hm Hk. apply os_wp_bind. eapply os_wp_mono; [exact Hm|]. intros [a|e] l' [Hl Hr]; [|done].
  eapply os_wp_mono; [by apply Hk|]. intros r l2 [Hl2 ?]. split; [by etrans|done].
Qed.
Lemma ends_ret {A} (a : A) l (Q : A -> log -> Prop) : Q a l -> ends (mret a) l Q.
Proof. intros. by split. Qed.
Lemma ends_err {A} e l (Q : A -> log -> Prop) : ends (os_err e) l Q.
Proof. by split. Qed.
Lemma ends_lift {A} (r : LResult A) l (Q : A -> log -> Prop) : (forall a, r = Ok a -> Q a l) -> ends (os_lift r) l Q.
Proof. intros Hq. split; [reflexivity|]. destruct r; auto. Qed.
Lemma ends_perform {A} (c : os_call A) l (Q : A -> log -> Prop) :
  (forall a, a = ask A c l -> later l (Event c a :: l) -> Q a (Event c a :: l)) -> ends (perform c) l Q.
Proof.
  intros Hq. apply os_wp_perform. intros a Ha.
  pose proof (later_event l c a) as Hl. split; auto.
Qed.
Lemma ends_or_failure {A} (c : os_call (Io A)) l (Q : A -> log -> Prop) :
  (forall a, Q a (Event c (Ok a) :: l)) -> ends (or_failure c) l Q.
Proof.
  intros Hq. eapply ends_bind; [apply ends_perform with (Q := fun a l' => l' = Event c a :: l); auto|].
  intros [a|e] l' _ ->; [by apply ends_ret|apply ends_err].
Qed.
Lemma ends_fmap {A B} (f : A -> B) (m : Os A) l (R : A -> log -> Prop) (Q : B -> log -> Prop) :
  ends m l R -> (forall a l', R a l' -> Q (f a) l') -> ends (a ← m; mret (f a)) l Q.
Proof. intros Hm Hq. eapply ends_bind; [exact Hm|]. intros. by apply ends_ret, Hq. Qed.
Lemma ends_mono {A} (m : Os A) l (R Q : A -> log -> Prop) :
  ends m l R -> (forall a l', R a l' -> Q a l') -> ends m l Q.
Proof. intros Hm Hq. eapply os_wp_mono; [exact Hm|]. intros [] ? []; auto. Qed.

Lemma signal_ends s l : ends (signal s) l (fun _ _ => True).
Proof.
  eapply ends_bind with (R := fun _ _ => True); [by apply ends_perform|].
  intros [] l' _ _; solve [by apply ends_ret|apply ends_err].
Qed.

Lemma exists_ends l : ends group_exists l (fun running l' => running = false -> gone l').
Proof.
  eapply ends_bind with (R := fun a l' => l' = Event (Kill 0) a :: l); [by apply ends_perform|].
  intros [] l' _ ->; try (apply ends_ret; discriminate); [|apply ends_err].
  apply ends_ret. intros _. by eexists.
Qed.

(** One more poll interval has passed, so one round less is needed. *)
Definition in_time (fuel : nat) (started : Instant) (limit : Duration) (l : log) : Prop :=
  limit + POLL_INTERVAL <= clock l - started + POLL_INTERVAL * Z.of_nat fuel.

Lemma in_time_start l started limit : started <= clock l -> 0 <= limit -> in_time (rounds limit) started limit l.
Proof.
  intros Hs Hl. unfold in_time, rounds. change POLL_INTERVAL with 10000000.
  pose proof (Z.mul_succ_div_gt limit 10000000). pose proof (Z.div_pos limit 10000000).
  rewrite Nat2Z.inj_succ, Z2Nat.id by lia. lia.
Qed.
Lemma in_time_later fuel started limit l l' : in_time fuel started limit l -> later l l' -> in_time fuel started limit l'.
Proof. unfold in_time. intros ? []. lia. Qed.

(** The loop sleeps and goes round again. *)
Lemma sleep_ends {A} fuel started limit l (k : Os A) (Q : A -> log -> Prop) :
  in_time (S fuel) started limit l -> (forall l', in_time fuel started limit l' -> later l l' -> ends k l' Q) ->
  ends (perform SleepPoll;; k) l Q.
Proof.
  intros Hl Hk.
  eapply ends_bind with (R := fun _ l' => clock l + POLL_INTERVAL <= clock l').
  - apply ends_perform. intros a _ _. apply (ticking_sleep _ Hclock).
  - intros _ l' Hlater Hslept. apply Hk; [|done]. unfold in_time in *. lia.
Qed.

(** Fuel is left while the limit has not passed. *)
Lemma in_time_more fuel started limit l :
  in_time (S fuel) started limit l -> elapsed_since started (clock l) < limit -> (0 < fuel)%nat.
Proof. unfold in_time, elapsed_since. destruct fuel; lia. Qed.

Lemma now_ends l : ends (perform Now) l (fun now l' => now = clock l /\ later l l').
Proof. apply ends_perform. intros a -> Hl. split; [apply (ticking_now _ Hclock)|done]. Qed.

Lemma grace_ends fuel started status l :
  (0 < fuel)%nat -> in_time fuel started TERMINATION_GRACE l ->
  ends (grace_loop fuel started status) l (fun answer l' => answer.2 = true -> gone l').
Proof.
  revert status l. induction fuel as [|fuel IH]; intros status l Hf Hl; [lia|]. cbn [grace_loop].
  eapply ends_bind; [apply now_ends|]. intros now l1 Hl1 [-> _].
  destruct (elapsed_since started (clock l) <? TERMINATION_GRACE) eqn:He; [|by apply ends_ret].
  apply Z.ltb_lt in He. pose proof (in_time_more _ _ _ _ Hl He) as Hf'. cbn [negb].
  eapply ends_bind with (R := fun _ _ => True).
  { destruct status; [by apply ends_ret|by apply ends_or_failure]. }
  intros status' l2 Hl2 _. eapply ends_bind with (R := fun g l' => g = true -> gone l').
  { destruct status'; [|by apply ends_ret]. eapply ends_fmap; [apply exists_ends|]. intros [] l' Hg; cbn; auto. }
  intros [] l3 Hl3 Hg; [by apply ends_ret|].
  assert (Hl' : in_time (S fuel) started TERMINATION_GRACE l3) by (eapply in_time_later; [exact Hl|by do 2 (etrans; [eassumption|])]).
  eapply sleep_ends; [exact Hl'|]. intros l4 Hl4 _. by apply IH.
Qed.

Lemma confirmation_ends fuel started l :
  (0 < fuel)%nat -> in_time fuel started TERMINATION_CONFIRMATION l ->
  ends (confirmation_loop fuel started) l (fun _ l' => gone l').
Proof.
  revert l. induction fuel as [|fuel IH]; intros l Hf Hl; [lia|]. cbn [confirmation_loop].
  eapply ends_bind; [apply exists_ends|]. intros [] l1 Hl1 Hg; [|by apply ends_ret, Hg].
  eapply ends_bind; [apply now_ends|]. intros now l2 Hl2 [-> _].
  destruct (Z.leb_spec TERMINATION_CONFIRMATION (elapsed_since started (clock l1))) as [|Hlt]; [apply ends_err|].
  assert (Hl' : in_time (S fuel) started TERMINATION_CONFIRMATION l1) by by eapply in_time_later.
  pose proof (in_time_more _ _ _ _ Hl' Hlt) as Hf'.
  eapply sleep_ends; [by eapply in_time_later|]. intros l4 Hl4 _. by apply IH.
Qed.

Lemma terminate_ends status l : ends (terminate_with_status status) l (fun _ l' => gone l').
Proof.
  unfold terminate_with_status. eapply ends_bind; [apply signal_ends|]. intros ? l1 _ _.
  eapply ends_bind; [apply now_ends|]. intros now l2 _ [-> Hl2].
  eapply ends_bind; [apply grace_ends; [unfold rounds; lia|]|].
  { eapply in_time_later; [by apply in_time_start|done]. }
  intros [status' []] l3 _ Hg; [by apply ends_lift; auto|].
  eapply ends_bind; [apply signal_ends|]. intros ? l4 _ _.
  eapply ends_bind with (R := fun _ _ => True).
  { destruct status'; [by apply ends_ret|]. eapply ends_fmap; [by apply ends_or_failure with (Q := fun _ _ => True)|done]. }
  intros status2 l5 _ _. eapply ends_bind; [apply now_ends|]. intros now l6 _ [-> Hl6].
  eapply ends_bind; [apply confirmation_ends; [unfold rounds; lia|]|].
  { eapply in_time_later; [by apply in_time_start|done]. }
  intros ? l7 _ Hg7. by apply ends_lift.
Qed.

Lemma finish_ends status l : ends (finish status) l (fun _ l' => gone l').
Proof.
  eapply ends_bind; [apply exists_ends|]. intros [] l' _ Hg; [apply terminate_ends|by apply ends_ret, Hg].
Qed.

(** Why the wait ended. *)
Definition ended_because (t : RunTermination) (started : Instant) (timeout : Duration) (l : log) : Prop :=
  match t with
  | Exited => exists status, Event TryWait (Ok (Some status)) ∈ l
  | Cancelled => Event IsCancelled true ∈ l
  | TimedOut => exists now, Event Now now ∈ l /\ timeout <= elapsed_since started now
  end.

Lemma ended_because_later t started timeout l l' :
  ended_because t started timeout l -> later l l' -> ended_because t started timeout l'.
Proof.
  intros He [_ [k ->]]. destruct t; cbn in *.
  - destruct He as [status Hs]. exists status. apply elem_of_app. by right.
  - destruct He as (now & Hn & Ht). exists now. split; [|done]. apply elem_of_app. by right.
  - apply elem_of_app. by right.
Qed.

(** Ending the child, whatever was found. *)
Lemma end_ends t (m : Os ExitStatus) started timeout l :
  ended_because t started timeout l -> ends m l (fun _ l' => gone l') ->
  ends (status ← m; mret (status, t)) l (fun a l' => a.2 = t /\ gone l' /\ ended_because a.2 started timeout l').
Proof.
  intros He Hm. eapply ends_bind; [exact Hm|]. intros status l' Hl' Hg. apply ends_ret.
  split_and!; [done..|]. by eapply ended_because_later.
Qed.

Lemma wait_loop_ends fuel started timeout l :
  (0 < fuel)%nat -> in_time fuel started timeout l ->
  ends (wait_loop fuel started timeout) l (fun a l' => gone l' /\ ended_because a.2 started timeout l').
Proof.
  revert l. induction fuel as [|fuel IH]; intros l Hf Hl; [lia|]. cbn [wait_loop].
  eapply ends_bind with (R := fun a l' => l' = Event TryWait (Ok a) :: l); [by apply ends_or_failure|].
  intros [status|] l1 Hl1 ->.
  { eapply ends_mono; [apply end_ends with (t := Exited)|by intros ? ? (_ & ? & ?)].
    - exists status. by left.
    - apply finish_ends. }
  eapply ends_bind with (R := fun a l' => l' = Event IsCancelled a :: Event TryWait (Ok None) :: l); [by apply ends_perform|].
  intros [] l2 Hl2 ->.
  { eapply ends_mono; [apply end_ends with (t := Cancelled); [by left|apply terminate_ends]|by intros ? ? (_ & ? & ?)]. }
  set (l2 := Event IsCancelled false :: _) in *.
  eapply ends_bind with (R := fun now l' => now = clock l2 /\ l' = Event Now (clock l2) :: l2).
  { apply ends_perform. intros a -> _. by rewrite (ticking_now _ Hclock). }
  intros now l3 Hl3 [-> ->].
  assert (Hl' : in_time (S fuel) started timeout l2) by (eapply in_time_later; [exact Hl|by etrans]).
  destruct (Z.leb_spec timeout (elapsed_since started (clock l2))) as [Ht|Hlt].
  { eapply ends_mono; [apply end_ends with (t := TimedOut); [|apply terminate_ends]|by intros ? ? (_ & ? & ?)].
    exists (clock l2). split; [by left|done]. }
  pose proof (in_time_more _ _ _ _ Hl' Hlt) as Hf'.
  eapply sleep_ends; [by eapply in_time_later|]. intros l4 Hl4 _. by apply IH.
Qed.
End ends.

(** A wait that begins after [started] answers. *)
Lemma wait_for_child_answers clock started timeout l :
  ticking clock -> started <= clock l -> 0 <= timeout ->
  ends (clock := clock) (wait_for_child started timeout) l
    (fun a l' => gone l' /\ ended_because a.2 started timeout l').
Proof. intros Hc Hs Ht. apply wait_loop_ends; [done|unfold rounds; lia|by apply in_time_start]. Qed.

End process_tree.

(** ** A child that has to be killed *)
Fixpoint sleeps (l : log) : Z :=
  match l with
  | [] => 0
  | e :: l => sleeps l + match e with Event SleepPoll _ => 1 | _ => 0 end
  end.
Fixpoint killed (l : log) : bool :=
  match l with
  | [] => false
  | Event (Kill s) _ :: l => (s =? SIGKILL) || killed l
  | _ :: l => killed l
  end.
Definition example_clock (l : log) : Instant := POLL_INTERVAL * sleeps l.
Definition stubborn_child (A : Type) (c : os_call A) (l : log) : A :=
  match c in os_call A return A with
  | Kill s => if killed l then NoSuchProcess else Delivered
  | TryWait => Ok (if killed l then Some {| exit_status_code := None |} else None)
  | Wait => Ok {| exit_status_code := None |}
  | Now => example_clock l
  | IsCancelled => false
  | KillChild | SleepPoll => tt
  | Spawn => Ok 77
  | ReadOutput _ => Some []
  | WriteInput _ => Some (Ok tt)
  | NewUuid => 1
  | FileMetadata _ | SymlinkMetadata _ => Err NotFound
  | CreateDirectory _ _ | SetPermissions _ _ | CreateNew _ _ | WriteAll _ _ | SyncAll _ | Flush _ | RemoveTree _ => Ok tt
  | MakeTempDirectory _ root => Ok root
  | ReadDirectory _ => Ok []
  | ReadToString _ => Err NotFound
  end.

Lemma stubborn_ticking : ticking stubborn_child example_clock.
Proof.
  unfold example_clock. split; [done|..].
  - intros l A c a. cbn [sleeps]. unfold POLL_INTERVAL, from_millis. destruct c; lia.
  - intros l a. cbn [sleeps]. lia.
Qed.

Example stubborn_child_killed :
  (wait_for_child stubborn_child 0 (from_millis 50) []).1 = Some (Ok ({| exit_status_code := None |}, TimedOut)).
Proof. vm_compute. reflexivity. Qed.
