(* ===== verification/RunFiles.v ===== *)
(** * RunFiles: the temporary files of [crates/ladon-app/src/supervisor.rs]

    A value bound to a temporary file is written below a directory of its own in
    a root that only the user may enter.  A [TempDir] of the [tempfile] crate is
    removed when it is dropped; directories that a crash left behind are removed
    at the next start if they are marked as the program's own. *)

From S2P Require Import Prelude Errors Time Model Paths Calls Os.
Local Open Scope Z_scope.

Definition RUN_DIRECTORY_PREFIX : string := "run-".
Definition RUN_DIRECTORY_MARKER : string := ".ladon-owner".

Section run_files.
Context `{TextCrates}.
Context (ask : forall A, os_call A -> log -> A).
Abbreviation perform := (perform ask).
Abbreviation or_failure := (or_failure ask).
(** [libc::geteuid] and [env::temp_dir]. *)
Context (euid : Z) (temp_dir : string).

(** [temporary_root]. *)
Definition temporary_root : string := join temp_dir (String.append "ladon-runs-" (string_of (decimal euid))).

(** [validate_temporary_root_metadata]: [mode & 0o077]. *)
Definition private_metadata (m : Metadata) : bool := (owner_uid m =? euid) && (Z.land (file_mode m) 0x3F =? 0).
Definition validate_temporary_root_metadata (m : Metadata) : LResult unit :=
  if bool_decide (file_type m = Directory) && private_metadata m then Ok tt else Err ProcessFailure.

(** [prepare_temporary_root]; the modes are [0o700]. *)
Definition prepare_temporary_root (root : string) : Os unit :=
  found ← perform (SymlinkMetadata root);
  match found with
  | Ok m => os_lift (validate_temporary_root_metadata m)
  | Err NotFound =>
    created ← perform (CreateDirectory root 0x1C0);
    match created with
    | Ok _ | Err AlreadyExists => mret tt
    | Err _ => os_err ProcessFailure
    end
  | Err _ => os_err ProcessFailure
  end;;
  m ← or_failure (SymlinkMetadata root);
  os_lift (validate_temporary_root_metadata m);;
  or_failure (SetPermissions root 0x1C0).

(** [write_run_marker]; the mode is [0o600]. *)
Definition write_run_marker (directory : string) : Os unit :=
  let path := join directory RUN_DIRECTORY_MARKER in
  or_failure (CreateNew path 0x180);;
  uuid ← perform NewUuid;
  or_failure (WriteAll path (bytes_of (uuid_display uuid)));;
  or_failure (SyncAll path).

(** A [TempDir] that is dropped while an error is returned. *)
Definition drop_directory (directory : option string) : Os unit :=
  match directory with Some d => perform (RemoveTree d);; mret tt | None => mret tt end.
Definition dropping {A} (directory : option string) (m : Os A) : Os A := on_error (drop_directory directory) m.

(** [ensure_temp_directory]. *)
Definition ensure_temp_directory (directory : option string) : Os string :=
  match directory with
  | Some d => mret d
  | None =>
    prepare_temporary_root temporary_root;;
    created ← or_failure (MakeTempDirectory RUN_DIRECTORY_PREFIX temporary_root);
    dropping (Some created) (
      or_failure (SetPermissions created 0x1C0);;
      write_run_marker created);;
    mret created
  end.

(** [write_temporary_secret]. *)
Definition write_temporary_secret (directory : string) (extension : option string) (value : bytes) : Os string :=
  uuid ← perform NewUuid;
  let path := join directory (String.append "secret-" (String.append (uuid_display uuid) (default "" extension))) in
  or_failure (CreateNew path 0x180);;
  or_failure (WriteAll path value);;
  or_failure (Flush path);;
  mret path.

(** The loop of [cleanup_stale_temp_directories_in]: what makes an entry a run's. *)
Definition stale_directory (path : string) : Os bool :=
  m ← or_failure (SymlinkMetadata path);
  if negb (bool_decide (file_type m = Directory)) then mret false
  else if negb (owner_uid m =? euid) then mret false
  else
    let marker_path := join path RUN_DIRECTORY_MARKER in
    marker ← perform (SymlinkMetadata marker_path);
    match marker with
    | Err _ => mret false
    | Ok m =>
      if negb (bool_decide (file_type m = RegularFile)) || negb (file_length m =? 36) then mret false
      else if negb (private_metadata m) then mret false
      else
        marker ← perform (ReadToString marker_path);
        match marker with
        | Err _ => mret false
        | Ok marker => mret (match uuid_parse_str marker with Some _ => true | None => false end)
        end
    end.
Fixpoint cleanup_loop (root : string) (entries : list (Io string)) : Os unit :=
  match entries with
  | [] => mret tt
  | Err _ :: _ => os_err ProcessFailure
  | Ok name :: entries =>
    (if negb (starts_with (bytes_of name) (bytes_of RUN_DIRECTORY_PREFIX)) then mret tt
     else
       let path := join root name in
       stale ← stale_directory path;
       if (stale : bool) then or_failure (RemoveTree path) else mret tt);;
    cleanup_loop root entries
  end.
Definition cleanup_stale_temp_directories_in (root : string) : Os unit :=
  prepare_temporary_root root;;
  entries ← or_failure (ReadDirectory root);
  cleanup_loop root entries.

(** ** What is written where *)

(** The call was made and answered. *)
Definition done {A} (c : os_call A) (a : A) (l : log) : Prop := Event c a ∈ l.

(** A file that only the user can read: it was created with mode [0o600] in a directory
    that was made for this run, set to [0o700], in a root that was a directory of the
    user closed to everyone else. *)
Record private_directory (d : string) (l : log) : Prop := {
  private_root : exists m, done (SymlinkMetadata temporary_root) (Ok m) l /\
    validate_temporary_root_metadata m = Ok tt;
  private_closed_root : done (SetPermissions temporary_root 0x1C0) (Ok tt) l;
  private_made : done (MakeTempDirectory RUN_DIRECTORY_PREFIX temporary_root) (Ok d) l;
  private_closed : done (SetPermissions d 0x1C0) (Ok tt) l;
}.
Definition private_file (path : string) (l : log) : Prop :=
  done (CreateNew path 0x180) (Ok tt) l /\ exists d name, path = join d name /\ private_directory d l.

(** Every file was private before it was written to. *)
Fixpoint files_private (l : log) : Prop :=
  match l with
  | [] => True
  | Event (WriteAll path _) _ :: l => private_file path l /\ files_private l
  | _ :: l => files_private l
  end.

Definition not_write {A} (c : os_call A) : Prop := match c with WriteAll _ _ => False | _ => True end.
Lemma files_private_event {A} (c : os_call A) a l : not_write c -> files_private l -> files_private (Event c a :: l).
Proof. by destruct c. Qed.

(** What was done stays done. *)
Lemma done_event {A B} (c : os_call A) a (c' : os_call B) b l : done c a l -> done c a (Event c' b :: l).
Proof. by right. Qed.
Lemma done_now {A} (c : os_call A) a l : done c a (Event c a :: l).
Proof. by left. Qed.
Lemma private_directory_event d {A} (c : os_call A) a l : private_directory d l -> private_directory d (Event c a :: l).
Proof.
  intros [(m & Hm & Hv) ? ? ?]. split; [exists m; split; [by apply done_event|done]|by apply done_event..].
Qed.
Create HintDb run_files.
#[local] Hint Resolve files_private_event done_event done_now private_directory_event : run_files.
#[local] Hint Extern 2 (not_write _) => exact I : run_files.

(** The directory is ready, and nothing was written that was not private. *)
Definition directory_ready (d : string) (l : log) : Prop := private_directory d l /\ files_private l.

Lemma prepare_root root l :
  files_private l ->
  os_run (prepare_temporary_root root)
    (fun _ l' => files_private l' /\ (exists m, done (SymlinkMetadata root) (Ok m) l' /\
       validate_temporary_root_metadata m = Ok tt) /\ done (SetPermissions root 0x1C0) (Ok tt) l')
    files_private l.
Proof.
  intros Hl. unfold prepare_temporary_root. apply os_run_bind, os_run_perform. intros found.
  apply os_run_bind.
  eapply os_run_mono with (Q := fun _ => files_private) (E := files_private); [apply os_run_keeps| |done].
  - destruct found as [m|[]]; eauto with os_keeps.
    apply os_keeps_bind; [apply os_keeps_perform; eauto with run_files|].
    intros [|[]]; eauto with os_keeps.
  - by apply files_private_event.
  - intros _ l1 Hl1. apply os_run_bind, os_run_or_failure; [|by intros; apply files_private_event].
    intros m. apply os_run_bind, os_run_lift; [|by apply files_private_event]. intros [] Hm.
    apply os_run_or_failure; [|eauto with run_files]. intros []. split_and!; eauto 10 with run_files.
Qed.

Lemma write_private path contents l :
  private_file path l -> files_private l ->
  os_run (or_failure (WriteAll path contents)) (fun _ => files_private) files_private l.
Proof. intros Hp Hl. apply os_run_or_failure; intros; by split. Qed.

Lemma private_file_event path {A} (c : os_call A) a l : private_file path l -> private_file path (Event c a :: l).
Proof. intros [Hc (d & name & Hp & Hd)]. split; [by right|]. exists d, name. eauto with run_files. Qed.

Lemma directory_ready_event d {A} (c : os_call A) a l :
  not_write c -> directory_ready d l -> directory_ready d (Event c a :: l).
Proof. intros ? []. split; auto with run_files. Qed.
#[local] Hint Resolve directory_ready_event private_file_event : run_files.

(** A new file in a directory that is ready is private. *)
Lemma created_private d name l :
  directory_ready d l -> private_file (join d name) (Event (CreateNew (join d name) 0x180) (Ok tt) :: l).
Proof. intros [Hd _]. split; [by left|]. exists d, name. auto with run_files. Qed.

(** A call that writes nothing, in a directory that is ready. *)
Lemma ready_or_failure d {A} (c : os_call (Io A)) (Q : A -> log -> Prop) l :
  not_write c -> directory_ready d l ->
  (forall a, directory_ready d (Event c (Ok a) :: l) -> Q a (Event c (Ok a) :: l)) ->
  os_run (or_failure c) Q files_private l.
Proof.
  intros Hc Hl Hq. apply os_run_or_failure; [by intros; apply Hq, directory_ready_event|].
  intros e. by apply files_private_event, Hl.
Qed.

Lemma write_ready d name contents (Q : unit -> log -> Prop) l :
  directory_ready d l -> private_file (join d name) l ->
  (forall a, directory_ready d (Event (WriteAll (join d name) contents) (Ok a) :: l) ->
     Q a (Event (WriteAll (join d name) contents) (Ok a) :: l)) ->
  os_run (or_failure (WriteAll (join d name) contents)) Q files_private l.
Proof.
  intros [Hd Hl] Hp Hq. apply os_run_or_failure; [|by intros e; split].
  intros a. apply Hq. split; [by apply private_directory_event|by split].
Qed.

Lemma marker_ready d l :
  directory_ready d l -> os_run (write_run_marker d) (fun _ => directory_ready d) files_private l.
Proof.
  intros Hl. unfold write_run_marker. apply os_run_bind, (ready_or_failure d); [done..|]. intros [] Hl1.
  pose proof (created_private d RUN_DIRECTORY_MARKER l Hl) as Hp.
  apply os_run_bind, os_run_perform. intros uuid. apply os_run_bind, write_ready; eauto with run_files.
  intros [] Hl2. apply (ready_or_failure d); auto with run_files.
Qed.

Lemma dropping_run {A} directory (m : Os A) Q l :
  os_run m Q files_private l -> os_run (dropping directory m) Q files_private l.
Proof.
  unfold os_run, dropping, on_error. destruct (m l) as [[[a|e]|] l']; [done| |done]. intros Hl.
  by destruct directory.
Qed.

Lemma ensure_ready directory l :
  match directory with Some d => directory_ready d l | None => files_private l end ->
  os_run (ensure_temp_directory directory) (fun d => directory_ready d) files_private l.
Proof.
  destruct directory as [d|]; cbn [ensure_temp_directory]; intros Hl; [by apply os_run_ret|].
  apply os_run_bind. eapply os_run_mono; [by apply prepare_root| |done].
  intros [] l1 (Hl1 & Hm & Hs). cbn beta. apply os_run_bind, os_run_or_failure; [|eauto with run_files].
  intros d. apply os_run_bind, dropping_run, os_run_bind, os_run_or_failure; [|eauto with run_files].
  intros []. eapply os_run_mono; [apply marker_ready| |done].
  - destruct Hm as (m & Hm & Hv). split; [|by auto with run_files]. split; auto with run_files.
    exists m. auto with run_files.
  - intros [] l2 Hl2. by apply os_run_ret.
Qed.

Lemma secret_ready d extension value l :
  directory_ready d l ->
  os_run (write_temporary_secret d extension value) (fun _ => directory_ready d) files_private l.
Proof.
  intros Hl. unfold write_temporary_secret. apply os_run_bind, os_run_perform. intros uuid.
  set (name := String.append "secret-" _).
  apply os_run_bind, (ready_or_failure d); [done|by apply directory_ready_event|]. intros [] Hl1.
  apply os_run_bind, write_ready; [done|by apply created_private, directory_ready_event|]. intros [] Hl2.
  apply os_run_bind, (ready_or_failure d); [done..|]. intros [] Hl3. by apply os_run_ret.
Qed.

(** ** What is removed *)

(** A directory of an earlier run of this user. *)
Record run_directory (root path : string) (l : log) : Prop := {
  run_named : exists name, path = join root name /\ starts_with (bytes_of name) (bytes_of RUN_DIRECTORY_PREFIX) = true;
  run_owned : exists m, done (SymlinkMetadata path) (Ok m) l /\ file_type m = Directory /\ owner_uid m = euid;
  run_marked : exists m text u, done (SymlinkMetadata (join path RUN_DIRECTORY_MARKER)) (Ok m) l /\
    file_type m = RegularFile /\ file_length m = 36 /\ private_metadata m = true /\
    done (ReadToString (join path RUN_DIRECTORY_MARKER)) (Ok text) l /\ uuid_parse_str text = Some u;
}.
Fixpoint removals_justified (root : string) (l : log) : Prop :=
  match l with
  | [] => True
  | Event (RemoveTree path) _ :: l => run_directory root path l /\ removals_justified root l
  | _ :: l => removals_justified root l
  end.

Definition not_removal {A} (c : os_call A) : Prop := match c with RemoveTree _ => False | _ => True end.
Lemma removals_event root {A} (c : os_call A) a l :
  not_removal c -> removals_justified root l -> removals_justified root (Event c a :: l).
Proof. by destruct c. Qed.
Lemma run_directory_event root path {A} (c : os_call A) a l :
  run_directory root path l -> run_directory root path (Event c a :: l).
Proof.
  intros [Hn (m & Hm & Ho) (m' & text & u & Hm' & ? & ? & ? & Ht & ?)]. split; [done|..].
  - exists m. auto with run_files.
  - exists m', text, u. split_and!; auto with run_files.
Qed.
#[local] Hint Resolve removals_event run_directory_event : run_files.
#[local] Hint Extern 2 (not_removal _) => exact I : run_files.

Lemma prepare_removals root root' : os_keeps (removals_justified root) (prepare_temporary_root root').
Proof.
  apply os_keeps_bind; [apply os_keeps_perform; auto with run_files|]. intros found.
  apply os_keeps_bind.
  { destruct found as [m|[]]; eauto with os_keeps.
    apply os_keeps_bind; [apply os_keeps_perform; auto with run_files|]. intros [|[]]; eauto with os_keeps. }
  intros _. apply os_keeps_bind; [apply os_keeps_or_failure; auto with run_files|]. intros m.
  apply os_keeps_bind; [apply os_keeps_lift|]. intros _. apply os_keeps_or_failure. auto with run_files.
Qed.

#[local] Ltac not_stale := apply os_run_ret; split; [auto 10 with run_files|done].

Lemma stale_run root name l :
  starts_with (bytes_of name) (bytes_of RUN_DIRECTORY_PREFIX) = true -> removals_justified root l ->
  os_run (stale_directory (join root name))
    (fun stale l' => removals_justified root l' /\ (stale = true -> run_directory root (join root name) l'))
    (removals_justified root) l.
Proof.
  intros Hname Hl. unfold stale_directory. apply os_run_bind, os_run_or_failure; [|auto with run_files].
  intros m. case_bool_decide as Hdir; cbn [negb]; [|not_stale].
  destruct (owner_uid m =? euid) eqn:Ho; cbn [negb]; [|not_stale].
  apply os_run_bind, os_run_perform. intros [m'|e]; [|not_stale].
  case_bool_decide as Hf; [|not_stale].
  destruct (file_length m' =? 36) eqn:Hlen; [|not_stale].
  destruct (private_metadata m') eqn:Hp; [|not_stale]. cbn [negb orb].
  apply os_run_bind, os_run_perform. intros [text|e]; [|not_stale].
  apply os_run_ret. split; [auto 10 with run_files|]. destruct (uuid_parse_str text) as [u|] eqn:Hu; [intros _|done].
  apply Z.eqb_eq in Ho, Hlen. split.
  - by exists name.
  - exists m. split_and!; [|done..]. do 2 right. by left.
  - exists m', text, u. split_and!; try done; [right|]; by left.
Qed.

Lemma cleanup_loop_run root entries l :
  removals_justified root l -> os_run (cleanup_loop root entries) (fun _ => removals_justified root) (removals_justified root) l.
Proof.
  revert l. induction entries as [|[name|e] entries IH]; intros l Hl; cbn [cleanup_loop]; [done| |done].
  apply os_run_bind. destruct (starts_with _ _) eqn:Hn; cbn [negb]; [|by apply os_run_ret, IH].
  apply os_run_bind. eapply os_run_mono; [by apply stale_run| |done]. intros [] l1 [Hl1 Hd]; [|by apply os_run_ret, IH].
  specialize (Hd eq_refl). apply os_run_or_failure; [|by intros; split]. intros []. apply IH. by split.
Qed.

(** The cleanup of an earlier run's files touches nothing else: every directory tree
    that is removed was found in the root under the prefix of runs, was a real directory
    of this user and held a private marker file of exactly 36 bytes that is a UUID. *)
Theorem cleanup_removes_only_runs root :
  removals_justified root (cleanup_stale_temp_directories_in root []).2.
Proof.
  assert (H0 : removals_justified root []) by done. revert H0. generalize (@nil event). intros l Hl.
  eapply os_run_state with (Q := fun _ => removals_justified root) (E := removals_justified root); [|done..].
  apply os_run_bind. eapply os_run_mono; [apply os_run_keeps; [apply prepare_removals|exact Hl]| |done].
  intros [] l1 Hl1. cbn beta in Hl1. apply os_run_bind, os_run_or_failure; [|auto with run_files].
  intros entries. apply cleanup_loop_run. auto with run_files.
Qed.
End run_files.
