(* ===== verification/Supervisor.v ===== *)
(** * Supervisor: [crates/ladon-app/src/supervisor.rs]

    How a run becomes a child: the checks of the file system, the command with
    its minimal environment and the values it is given, the launch, and the
    redacted, bounded output.  [execute] is [prepare_command], the launch and
    [supervise]; the worker threads that read the output are represented by the
    answers to their reads. *)

From S2P Require Import Prelude Errors Time Broker Utf8 Model Capture Redact Protocol Runner Paths Calls Os ProcessTree RunFiles.
Local Open Scope Z_scope.

(** ** Text limits *)

(** [truncate_utf8]. *)
Definition truncate_text (value : bytes) (limit : Z) : bytes :=
  if zlen value <=? limit then value else take (floor_boundary value (Z.to_nat limit)) value.

(** [String::pop], and the loop after it, which finds the end of a string. *)
Definition pop_char (value : bytes) : bytes := take (floor_boundary value (length value - 1)) value.
Fixpoint pop_to_boundary (fuel : nat) (value : bytes) : bytes :=
  match fuel with
  | O => value
  | S fuel => if is_char_boundary value (length value) then value else pop_to_boundary fuel (pop_char value)
  end.
Definition shorten (value : bytes) : bytes := let v := pop_char value in pop_to_boundary (length v) v.

(** The loop of [enforce_combined_limit]; every round shortens a text. *)
Fixpoint combine_loop (fuel : nat) (stdout stderr : bytes) (limit : Z) : bytes * bytes :=
  match fuel with
  | O => (stdout, stderr)
  | S fuel =>
    if limit <? zlen stdout + zlen stderr then
      if (zlen stderr <=? zlen stdout) && negb (bool_decide (stdout = [])) then
        combine_loop fuel (shorten stdout) stderr limit
      else if negb (bool_decide (stderr = [])) then combine_loop fuel stdout (shorten stderr) limit
      else (stdout, stderr)
    else (stdout, stderr)
  end.
Definition enforce_combined_limit (stdout stderr : bytes) (limit : Z) : bytes * bytes * bool * Z :=
  if saturating_add usize_max (zlen stdout) (zlen stderr) <=? limit then (stdout, stderr, false, 0)
  else
    let original_bytes := saturating_add usize_max (zlen stdout) (zlen stderr) in
    let stdout_budget := limit / 2 in
    let stderr_budget := limit - stdout_budget in
    let stdout := truncate_text stdout (Z.max stdout_budget (MIN_OUTPUT_LIMIT_BYTES / 2)) in
    let stderr := truncate_text stderr (Z.max stderr_budget (MIN_OUTPUT_LIMIT_BYTES / 2)) in
    let '(stdout, stderr) := combine_loop (length stdout + length stderr) stdout stderr limit in
    let retained_bytes := saturating_add usize_max (zlen stdout) (zlen stderr) in
    (stdout, stderr, true, saturating_sub original_bytes retained_bytes).

(** ** The environment of the child *)

(** [env::join_paths]. *)
Definition join_paths (entries : list string) : option string :=
  if existsb (fun e => bool_decide (":"%char ∈ bytes_of e)) entries then None
  else Some (String.concat ":" entries).

(** [struct Command] of the standard library: what the supervisor sets. *)
Record Command := {
  command_program : string;
  command_arguments : list string;
  command_directory : string;
  command_env : gmap string bytes;
  command_process_group : Z;
  command_core_limit : Z;
}.

(** [struct RunResult]. *)
Record RunResult := {
  result_exit_code : option Z;
  result_termination : RunTermination;
  result_stdout : string;
  result_stderr : string;
  result_duration : Duration;
  result_redaction_count : Z;
  result_output_truncated : bool;
  result_omitted_bytes : Z;
  result_output_suppressed : bool;
  result_temp_cleanup_warning : bool;
}.

(** The locals of [execute] that the loop over the bindings sets. *)
Record Injection := {
  injected_env : gmap string bytes;
  stdin_value : option bytes;
  temporary_directory : option string;
}.
Record PreparedCommand := {
  prepared_started : Instant;
  stdout_redactor : StreamingRedactor;
  stderr_redactor : StreamingRedactor;
  prepared_command : Command;
  prepared_injection : Injection;
}.

(** [RunningGuard::acquire]. *)
Definition acquire_running (running : bool) : LResult bool := if running then Err Busy else Ok true.

(** [make_redactor]. *)
Definition make_redactor `{RedactCrates} (bindings : list PreparedBinding) (limit : Z) : LResult StreamingRedactor :=
  redactor_new ((fun b => RedactionSecret_new (prepared_secret_id b) (prepared_field b) (prepared_value b)) <$> bindings)
    limit.

(** [redact_reader]: the answers to the reads of the pipe, up to its end.  [None] would
    be a redactor that never answers. *)
Fixpoint redact_reader `{RedactCrates} (reads : list (Io bytes)) (redactor : StreamingRedactor) :
    option (LResult RedactedOutput) :=
  match reads with
  | [] | Ok [] :: _ => Ok <$> redactor_finish redactor
  | Err _ :: _ => Some (Err ProcessFailure)
  | Ok buffer :: reads => redact_reader reads (push redactor buffer)
  end.

Section supervisor.
Context `{TextCrates, RedactCrates}.
Context (ask : forall A, os_call A -> log -> A).
(** [libc::geteuid], [env::temp_dir] and [env::var_os]. *)
Context (euid : Z) (temp_dir : string) (var_os : string -> option bytes).
Abbreviation perform := (perform ask).
Abbreviation or_failure := (or_failure ask).

(** [validate_filesystem]; the executable bits are [0o111]. *)
Definition validate_filesystem (run : ValidatedRunRequest) : Os unit :=
  m ← perform (FileMetadata (run_executable run));
  match m with
  | Err _ => os_err InvalidExecutablePath
  | Ok m =>
    os_lift (reject_if (negb (bool_decide (file_type m = RegularFile))) InvalidExecutablePath);;
    os_lift (reject_if (Z.land (file_mode m) 0x49 =? 0) InvalidExecutablePath);;
    d ← perform (FileMetadata (run_working_directory run));
    os_lift (reject_if (negb match d with Ok d => bool_decide (file_type d = Directory) | Err _ => false end)
      InvalidWorkingDirectory)
  end.

(** [apply_minimal_environment] on Unix, after [env_clear]. *)
Definition inherited_names : list string := ["HOME"; "LANG"; "LC_ALL"; "LC_CTYPE"].
Definition minimal_environment (executable : string) : gmap string bytes :=
  let path := join_paths [default "/" (path_parent executable); "/usr/bin"; "/bin"] in
  let env := match path with Some p => <["PATH" := bytes_of p]> ∅ | None => ∅ end in
  let env := <["TMPDIR" := bytes_of temp_dir]> env in
  fold_left (fun env name => match var_os name with Some v => <[name := v]> env | None => env end) inherited_names env.

(** The loop over the bindings of [execute]; the locals survive an error. *)
Definition set_env (name : string) (value : bytes) (i : Injection) : Injection :=
  {| injected_env := <[name := value]> (injected_env i); stdin_value := stdin_value i;
     temporary_directory := temporary_directory i |}.
Definition set_stdin (value : bytes) (i : Injection) : Injection :=
  {| injected_env := injected_env i; stdin_value := Some value; temporary_directory := temporary_directory i |}.
Definition set_directory (d : string) (i : Injection) : Injection :=
  {| injected_env := injected_env i; stdin_value := stdin_value i; temporary_directory := Some d |}.
Fixpoint inject (bindings : list PreparedBinding) (i : Injection) : Os (LResult unit * Injection) :=
  match bindings with
  | [] => mret (Ok tt, i)
  | b :: bindings =>
    match prepared_target b with
    | ValidatedEnvironment name =>
      if is_utf8 (prepared_value b) && negb (bool_decide (zb 0 ∈ prepared_value b))
      then inject bindings (set_env name (prepared_value b) i)
      else mret (Err InvalidBinding, i)
    | ValidatedStandardInput => inject bindings (set_stdin (prepared_value b) i)
    | ValidatedTemporaryFile name extension =>
      directory ← attempt (ensure_temp_directory ask euid temp_dir (temporary_directory i));
      match directory with
      | Err e => mret (Err e, i)
      | Ok d =>
        let i := set_directory d i in
        path ← attempt (write_temporary_secret ask d extension (prepared_value b));
        match path with
        | Err e => mret (Err e, i)
        | Ok path => inject bindings (set_env name (bytes_of path) i)
        end
      end
    end
  end.

(** [execute] up to the launch; the temporary directory is dropped on an error. *)
Definition prepare_command (run : PreparedRun) : Os PreparedCommand :=
  started ← perform Now;
  stdout_redactor ← os_lift (make_redactor (prepared_bindings run) (prepared_output_limit_bytes run));
  stderr_redactor ← os_lift (make_redactor (prepared_bindings run) (prepared_output_limit_bytes run));
  '(answer, i) ← inject (prepared_bindings run)
    {| injected_env := minimal_environment (prepared_executable run); stdin_value := None;
       temporary_directory := None |};
  dropping ask (temporary_directory i) (os_lift answer);;
  mret {| prepared_started := started; stdout_redactor := stdout_redactor; stderr_redactor := stderr_redactor;
          prepared_command := {| command_program := prepared_executable run;
            command_arguments := prepared_arguments run; command_directory := prepared_working_directory run;
            command_env := injected_env i; command_process_group := 0; command_core_limit := 0 |};
          prepared_injection := i |}.

(** [PlatformProcessTree::attach]: the process identifier as an [i32]. *)
Definition attach (pid : Z) : Os unit :=
  if pid <=? 2 ^ 31 - 1 then mret tt
  else perform KillChild;; perform Wait;; os_err ProcessFailure.

(** The join of a reader thread, which reads its pipe to the end, and of the writer thread;
    either may never return. *)
Definition join_reader (errors : bool) (redactor : StreamingRedactor) : Os RedactedOutput :=
  reads ← blocking ask (ReadOutput errors);
  match redact_reader reads redactor with Some r => os_lift r | None => out_of_fuel end.
Definition join_writer (value : option bytes) : Os unit :=
  match value with
  | None => mret tt
  | Some value =>
    written ← blocking ask (WriteInput value);
    match written with Ok _ | Err BrokenPipe => mret tt | Err _ => os_err ProcessFailure end
  end.

(** [execute] after the launch. *)
Definition close_directory (directory : option string) : Os bool :=
  match directory with
  | None => mret false
  | Some d => closed ← perform (RemoveTree d); mret (negb (is_ok closed))
  end.
Definition watch (run : PreparedRun) (p : PreparedCommand) (pid : Z) :
    Os (ExitStatus * RunTermination * RedactedOutput * RedactedOutput) :=
  attach pid;;
  '(status, termination) ← wait_for_child ask (prepared_started p) (prepared_timeout run);
  stdout ← join_reader false (stdout_redactor p);
  stderr ← join_reader true (stderr_redactor p);
  join_writer (stdin_value (prepared_injection p));;
  mret (status, termination, stdout, stderr).
Definition supervise (run : PreparedRun) (p : PreparedCommand) (pid : Z) : Os RunResult :=
  let directory := temporary_directory (prepared_injection p) in
  '(status, termination, stdout, stderr) ← dropping ask directory (watch run p pid);
  temp_cleanup_warning ← close_directory directory;
  let '(stdout_text, stderr_text, combined_truncated, combined_omitted) :=
    enforce_combined_limit (text stdout) (text stderr) (prepared_output_limit_bytes run) in
  now ← perform Now;
  mret {| result_exit_code := exit_status_code status; result_termination := termination;
          result_stdout := string_of stdout_text; result_stderr := string_of stderr_text;
          result_duration := elapsed_since (prepared_started p) now;
          result_redaction_count :=
            saturating_add u64_max (output_redaction_count stdout) (output_redaction_count stderr);
          result_output_truncated := truncated stdout || truncated stderr || combined_truncated;
          result_omitted_bytes :=
            saturating_add u64_max (saturating_add u64_max (omitted_bytes stdout) (omitted_bytes stderr)) combined_omitted;
          result_output_suppressed := output_suppressed stdout || output_suppressed stderr;
          result_temp_cleanup_warning := temp_cleanup_warning |}.

(** [execute]: [launch] answers the process identifier. *)
Definition execute (run : PreparedRun) (launch : Command -> Os Z) : Os RunResult :=
  p ← prepare_command run;
  pid ← dropping ask (temporary_directory (prepared_injection p)) (launch (prepared_command p));
  supervise run p pid.

(** [Supervisor::run_guarded] while it holds the [RunningGuard], and the launch of
    [Supervisor::run]. *)
Definition run_checked (request : ValidatedRunRequest)
    (resolve_values : list ValidatedSecretBinding -> Os (list ResolvedSecretBinding)) (launch : Command -> Os Z) :
    Os RunResult :=
  validate_filesystem request;;
  resolved ← resolve_values (run_bindings request);
  run ← os_lift (resolve request resolved);
  execute run launch.
Definition launch_unless_cancelled (_ : Command) : Os Z :=
  cancelled ← perform IsCancelled;
  if (cancelled : bool) then os_err ApprovalCancelled else or_failure Spawn.
End supervisor.
