(* ===== verification/SupervisorProperties.v ===== *)
(** * What a run promises

    Properties of [Supervisor]: the output is bounded and free of secrets, the
    child is given each value in its own place and nothing else, temporary files
    are private and removed on every path. *)

From S2P Require Import Prelude Errors Time Broker Utf8 Model Capture Redact Protocol Runner Paths Calls Os.
From S2P Require Import ProcessTree RunFiles Supervisor.
Local Open Scope Z_scope.

(** ** The combined limit *)

(** A beginning of a text that is text itself. *)
Definition clipped (full t : bytes) : Prop := t `prefix_of` full /\ valid_utf8 t.

Lemma clipped_refl t : valid_utf8 t -> clipped t t.
Proof. by split. Qed.
Lemma clipped_trans a b c : clipped a b -> clipped b c -> clipped a c.
Proof. intros [? _] [? ?]. split; [by etrans|done]. Qed.
Lemma clipped_length full t : clipped full t -> zlen t <= zlen full.
Proof. intros [Hp%prefix_length _]. unfold zlen. lia. Qed.
Lemma clipped_contains full t form : clipped full t -> contains full form = false -> contains t form = false.
Proof.
  intros [[k ->] _] Hf. apply not_true_is_false. intros (l & r & ->)%contains_spec.
  apply not_true_iff_false in Hf. apply Hf, contains_spec. exists l, (r ++ k). by rewrite <- !app_assoc.
Qed.

Lemma clip_at value m : valid_utf8 value -> clipped value (take (floor_boundary value m) value).
Proof.
  intros Hv. destruct (floor_boundary_spec value m) as (_ & Hb & _).
  split; [by eexists; rewrite take_drop|by apply valid_take_boundary].
Qed.

Lemma truncate_text_spec value limit :
  valid_utf8 value -> 0 <= limit -> clipped value (truncate_text value limit) /\ zlen (truncate_text value limit) <= limit.
Proof.
  intros Hv Hl. unfold truncate_text. destruct (Z.leb_spec (zlen value) limit); [split; [by apply clipped_refl|done]|].
  split; [by apply clip_at|]. destruct (floor_boundary_spec value (Z.to_nat limit)) as (Hf & _).
  unfold zlen. rewrite length_take. lia.
Qed.

Lemma end_is_boundary value : is_char_boundary value (length value) = true.
Proof. apply boundary_spec. auto. Qed.

Lemma shorten_spec value :
  valid_utf8 value -> value <> [] -> clipped value (shorten value) /\ (length (shorten value) < length value)%nat.
Proof.
  intros Hv Hne. unfold shorten.
  replace (pop_to_boundary _ (pop_char value)) with (pop_char value).
  - split; [by apply clip_at|]. unfold pop_char. destruct (floor_boundary_spec value (length value - 1)) as (Hf & _).
    rewrite length_take. destruct value; [done|]. cbn in *. lia.
  - destruct (length (pop_char value)) eqn:Hlen; [done|]. cbn [pop_to_boundary]. by rewrite end_is_boundary.
Qed.

Lemma combine_loop_spec fuel stdout stderr limit :
  valid_utf8 stdout -> valid_utf8 stderr -> 0 <= limit -> (length stdout + length stderr <= fuel)%nat ->
  let '(o, e) := combine_loop fuel stdout stderr limit in
  clipped stdout o /\ clipped stderr e /\ zlen o + zlen e <= limit.
Proof.
  revert stdout stderr. induction fuel as [|fuel IH]; intros o e Ho He Hl Hf; cbn [combine_loop].
  { destruct o, e; cbn in Hf; try lia. split_and!; [by apply clipped_refl..|]. unfold zlen; cbn; lia. }
  destruct (Z.ltb_spec limit (zlen o + zlen e)) as [Hlt|Hge]; [|by split_and!; [apply clipped_refl..|]].
  destruct ((zlen e <=? zlen o) && negb (bool_decide (o = []))) eqn:Hc; [bool_hyps|].
  - destruct (shorten_spec o) as [Hs Hlen]; [done..|].
    pose proof (IH (shorten o) e (proj2 Hs) He Hl ltac:(lia)) as Hi.
    destruct (combine_loop _ _ _ _) as [o' e']. destruct Hi as (? & ? & ?).
    split_and!; [by eapply clipped_trans|done..].
  - assert (Hne : e <> []).
    { intros ->. rewrite (zlen_nil (A := ascii)) in Hlt, Hc. pose proof (zlen_nonneg o).
      rewrite (proj2 (Z.leb_le _ _)) in Hc by done. destruct o; [|done].
      rewrite (zlen_nil (A := ascii)) in Hlt. lia. }
    rewrite bool_decide_eq_false_2 by done. cbn [negb].
    destruct (shorten_spec e) as [Hs Hlen]; [done..|].
    pose proof (IH o (shorten e) Ho (proj2 Hs) Hl ltac:(lia)) as Hi.
    destruct (combine_loop _ _ _ _) as [o' e']. destruct Hi as (? & ? & ?).
    split_and!; [done|by eapply clipped_trans|done].
Qed.

Lemma enforce_combined_limit_clips stdout stderr limit :
  valid_utf8 stdout -> valid_utf8 stderr -> 0 <= limit -> zlen stdout + zlen stderr <= usize_max ->
  let '(o, e, tr, om) := enforce_combined_limit stdout stderr limit in
  clipped stdout o /\ clipped stderr e /\ zlen o + zlen e <= limit /\
  om = zlen stdout + zlen stderr - (zlen o + zlen e) /\
  (if tr then limit < zlen stdout + zlen stderr else o = stdout /\ e = stderr).
Proof.
  intros Ho He Hl Hmax. unfold enforce_combined_limit, saturating_add. rewrite Z.min_r by done.
  destruct (Z.leb_spec (zlen stdout + zlen stderr) limit) as [Hle|Hgt].
  { split_and!; [by apply clipped_refl..|done|lia|done|done]. }
  set (o1 := truncate_text stdout _). set (e1 := truncate_text stderr _).
  assert (Hlim : 0 <= Z.max (limit / 2) (MIN_OUTPUT_LIMIT_BYTES / 2) /\
    0 <= Z.max (limit - limit / 2) (MIN_OUTPUT_LIMIT_BYTES / 2)).
  { change (MIN_OUTPUT_LIMIT_BYTES / 2) with 64. lia. }
  destruct (truncate_text_spec stdout _ Ho (proj1 Hlim)) as [Ho1 _]. fold o1 in Ho1.
  destruct (truncate_text_spec stderr _ He (proj2 Hlim)) as [He1 _]. fold e1 in He1.
  pose proof (combine_loop_spec (length o1 + length e1) o1 e1 limit (proj2 Ho1) (proj2 He1) Hl ltac:(lia)) as Hc.
  destruct (combine_loop _ o1 e1 limit) as [o e]. destruct Hc as (Ho2 & He2 & Hsum).
  assert (Hco : clipped stdout o) by by eapply clipped_trans. assert (Hce : clipped stderr e) by by eapply clipped_trans.
  pose proof (clipped_length _ _ Hco). pose proof (clipped_length _ _ Hce).
  split_and!; try done. unfold saturating_sub. rewrite (Z.min_r usize_max (zlen o + zlen e)) by lia. lia.
Qed.

(** ** The output of a run *)
Section output.
Context `{TextCrates, RedactCratesLaws}.
Context (ask : forall A, os_call A -> log -> A).
Context (euid : Z) (temp_dir : string) (var_os : string -> option bytes).

(** No form of a value can be read in the text. *)
Definition hides (bindings : list PreparedBinding) (t : bytes) : Prop :=
  forall b form, b ∈ bindings -> prepared_value b <> [] -> form ∈ pattern_forms (prepared_value b) -> form <> [] ->
    contains t form = false.

Lemma hides_clipped bindings full t : clipped full t -> hides bindings full -> hides bindings t.
Proof. intros Hc Hh b form Hb Hv Hf Hne. eapply clipped_contains; [exact Hc|by apply (Hh b)]. Qed.

Record clean_output (bindings : list PreparedBinding) (limit : Z) (out : RedactedOutput) : Prop := {
  output_hides : hides bindings (text out);
  output_within : zlen (text out) <= limit;
  output_is_text : valid_utf8 (text out);
}.

Lemma redact_reader_clean bindings limit r chunks reads :
  make_redactor bindings limit = Ok r ->
  exists answer, redact_reader reads (fold_left push chunks r) = Some answer /\
    forall out, answer = Ok out -> clean_output bindings limit out.
Proof.
  intros Hr. unfold make_redactor, RedactionSecret_new in Hr. revert chunks.
  assert (Hdone : forall chunks, exists answer, Ok <$> redactor_finish (fold_left push chunks r) = Some answer /\
    forall out, answer = (Ok out : LResult RedactedOutput) -> clean_output bindings limit out).
  { intros chunks. destruct (redactor_answers _ _ _ chunks Hr) as (out & -> & Hh & Hl & Hv & _).
    exists (Ok out). split; [done|]. intros out' [= <-]. split; [|done..].
    intros b form Hb. apply Hh. by apply (list_elem_of_fmap_2 prepared_value). }
  induction reads as [|[[|x buffer]|e] reads IH]; intros chunks; cbn [redact_reader]; [apply Hdone..| |].
  - specialize (IH (chunks ++ [x :: buffer])). by rewrite fold_left_app in IH.
  - exists (Err ProcessFailure). by split.
Qed.

(** The redactors and the locals of a run that was prepared. *)
Lemma prepare_command_run run l :
  os_run (prepare_command ask euid temp_dir var_os run) (fun p _ =>
    make_redactor (prepared_bindings run) (prepared_output_limit_bytes run) = Ok (stdout_redactor p) /\
    make_redactor (prepared_bindings run) (prepared_output_limit_bytes run) = Ok (stderr_redactor p)) (fun _ => True) l.
Proof.
  unfold prepare_command. apply os_run_bind, os_run_perform. intros started.
  apply os_run_bind, os_run_lift; [|done]. intros r1 Hr1. apply os_run_bind, os_run_lift; [|done]. intros r2 Hr2.
  apply os_run_bind. eapply os_run_mono with (Q := fun _ _ => True) (E := fun _ => True);
    [apply (os_run_keeps (fun _ => True)); done| |done].
  intros [answer i] l' _. apply os_run_bind.
  eapply os_run_mono with (Q := fun _ _ => True) (E := fun _ => True);
    [apply (os_run_keeps (fun _ => True)); done| |done].
  intros _ l2 _. by apply os_run_ret.
Qed.

Lemma join_reader_clean bindings limit r errors l :
  make_redactor bindings limit = Ok r ->
  os_run (join_reader ask errors r) (fun out _ => clean_output bindings limit out) (fun _ => True) l.
Proof.
  intros Hr. apply os_run_bind, os_run_blocking; [|done]. intros reads.
  destruct (redact_reader_clean bindings limit r [] reads Hr) as (answer & Hread & Hc). cbn [fold_left] in Hread.
  rewrite Hread. apply os_run_lift; [|done]. intros out ->. by apply Hc.
Qed.

(** A part of the run about which nothing is claimed. *)
Lemma os_run_any {A} (m : Os A) (Q : A -> log -> Prop) l : (forall a l', Q a l') -> os_run m Q (fun _ => True) l.
Proof. intros Hq. unfold os_run. by destruct (m l) as [[[a|e]|] l']. Qed.

Lemma dropping_result {A} d (m : Os A) Q l : os_run m Q (fun _ => True) l -> os_run (dropping ask d m) Q (fun _ => True) l.
Proof. unfold os_run, dropping, on_error. destruct (m l) as [[[a|e]|] l']; [done| |done]. by destruct d. Qed.

(** What the caller is told of the output. *)
Record safe_result (run : PreparedRun) (r : RunResult) : Prop := {
  safe_stdout : hides (prepared_bindings run) (bytes_of (result_stdout r));
  safe_stderr : hides (prepared_bindings run) (bytes_of (result_stderr r));
  safe_length : slen (result_stdout r) + slen (result_stderr r) <= prepared_output_limit_bytes run;
  safe_text : valid_utf8 (bytes_of (result_stdout r)) /\ valid_utf8 (bytes_of (result_stderr r));
}.

Lemma supervise_safe run p pid l :
  make_redactor (prepared_bindings run) (prepared_output_limit_bytes run) = Ok (stdout_redactor p) ->
  make_redactor (prepared_bindings run) (prepared_output_limit_bytes run) = Ok (stderr_redactor p) ->
  os_run (supervise ask run p pid) (fun r _ => safe_result run r) (fun _ => True) l.
Proof.
  intros Ho He. unfold supervise. apply os_run_bind, dropping_result.
  apply os_run_bind, os_run_any. intros _ l1. apply os_run_bind, os_run_any. intros [status t] l2.
  apply os_run_bind. eapply os_run_mono; [by apply join_reader_clean| |done]. intros out l3 [Hh Hl Hv].
  apply os_run_bind. eapply os_run_mono; [by apply join_reader_clean| |done]. intros err l4 [Hh' Hl' Hv'].
  apply os_run_bind, os_run_any. intros _ l5. apply os_run_ret. apply os_run_bind, os_run_any. intros warning l6.
  pose proof Ho as [[Hmin Hmax] _]%redactor_new_Ok.
  assert (Hsum : zlen (text out) + zlen (text err) <= usize_max).
  { change MAX_OUTPUT_LIMIT_BYTES with 2097152 in Hmax. change usize_max with 18446744073709551615. lia. }
  pose proof (enforce_combined_limit_clips _ _ (prepared_output_limit_bytes run) Hv Hv'
    ltac:(change MIN_OUTPUT_LIMIT_BYTES with 128 in Hmin; lia) Hsum) as Hc.
  destruct (enforce_combined_limit _ _ _) as [[[o e] tr] om]. destruct Hc as (Hco & Hce & Hlen & _).
  apply os_run_bind, os_run_perform. intros now. apply os_run_ret. split; cbn; unfold slen; rewrite ?bytes_of_string_of.
  - by eapply hides_clipped.
  - by eapply hides_clipped.
  - done.
  - split; [apply Hco|apply Hce].
Qed.

(** C5. What a run returns to the agent is safe: neither output contains a value that was
    bound to the run or an encoded form of one, both are text, and together they are
    within the output limit, whatever the child writes and however it is launched. *)
Theorem run_output_is_safe run launch l r l' :
  execute ask euid temp_dir var_os run launch l = (Some (Ok r), l') -> safe_result run r.
Proof.
  intros Hrun.
  assert (Hw : os_run (execute ask euid temp_dir var_os run launch) (fun r _ => safe_result run r) (fun _ => True) l).
  { apply os_run_bind. eapply os_run_mono; [apply prepare_command_run| |done]. intros p l1 [Ho He].
    apply os_run_bind, os_run_any. intros pid l2. by apply supervise_safe. }
  unfold os_run in Hw. by rewrite Hrun in Hw.
Qed.
End output.

(** ** The temporary files of a run *)
Section files.
Context `{TextCrates, RedactCratesLaws}.
Context (ask : forall A, os_call A -> log -> A).
Context (euid : Z) (temp_dir : string) (var_os : string -> option bytes).
Abbreviation files_private := (files_private euid temp_dir).
Abbreviation directory_ready := (directory_ready euid temp_dir).
Abbreviation execute := (execute ask euid temp_dir var_os).

Lemma attempt_run {A} (m : Os A) Q (E : log -> Prop) (Q' : LResult A -> log -> Prop) l :
  os_run m Q E l -> (forall a l', Q a l' -> Q' (Ok a) l') -> (forall e l', E l' -> Q' (Err e) l') ->
  os_run (attempt m) Q' E l.
Proof. unfold os_run, attempt. intros Hm Hok Herr. destruct (m l) as [[[a|e]|] l']; auto. Qed.

(** The locals name a directory that is ready. *)
Definition ready_locals (i : Injection) (l : log) : Prop :=
  match temporary_directory i with Some d => directory_ready d l | None => files_private l end.
Lemma ready_locals_private i l : ready_locals i l -> files_private l.
Proof. unfold ready_locals. destruct (temporary_directory i); [by intros []|done]. Qed.

Lemma inject_private bs i l :
  ready_locals i l -> os_run (inject ask euid temp_dir bs i) (fun _ => files_private) files_private l.
Proof.
  revert i l. induction bs as [|b bs IH]; intros i l Hi; cbn [inject]; [by eapply ready_locals_private|].
  destruct (prepared_target b) as [name| |name extension].
  - destruct (_ && _); [by apply IH|]. by eapply ready_locals_private.
  - by apply IH.
  - apply os_run_bind. eapply attempt_run; [by apply ensure_ready| |by intros e l1 Hl1; apply os_run_ret].
    intros d l1 Hl1. cbn beta. apply os_run_bind. eapply attempt_run; [by apply secret_ready| |by intros e l2 Hl2; apply os_run_ret].
    intros path l2 Hl2. by apply IH.
Qed.

(** The calls of the rest of a run write no file. *)
Lemma private_keeps_call {A} (c : os_call A) : not_write c -> os_keeps files_private (perform ask c).
Proof. intros Hc. apply os_keeps_perform. intros l a. by apply files_private_event. Qed.
Lemma private_dropping {A} d (m : Os A) : os_keeps files_private m -> os_keeps files_private (dropping ask d m).
Proof.
  intros Hm l Hl. specialize (Hm l Hl). unfold dropping, on_error. destruct (m l) as [[[a|e]|] l']; [done| |done]. by destruct d.
Qed.

Lemma watch_private run p pid : os_keeps files_private (watch ask run p pid).
Proof.
  unfold watch, attach, join_reader, join_writer.
  apply os_keeps_bind.
  { destruct (_ <=? _); [apply os_keeps_ret|].
    apply os_keeps_bind; [by apply private_keeps_call|]. intros _.
    apply os_keeps_bind; [by apply private_keeps_call|]. intros _. apply os_keeps_err. }
  intros _. apply os_keeps_bind.
  { apply wait_for_child_keeps. intros A c a l Hc. apply files_private_event. by destruct c. }
  assert (Hread : forall errors r, os_keeps files_private (join_reader ask errors r)).
  { intros errors r. apply os_keeps_bind; [apply os_keeps_blocking; intros; by apply files_private_event|]. intros reads.
    destruct (redact_reader reads r); eauto with os_keeps. }
  intros [status t]. apply os_keeps_bind; [apply Hread|]. intros out. apply os_keeps_bind; [apply Hread|]. intros err.
  apply os_keeps_bind; [|intros; apply os_keeps_ret]. destruct (stdin_value _); [|apply os_keeps_ret].
  apply os_keeps_bind; [apply os_keeps_blocking; intros; by apply files_private_event|]. intros [|[]]; eauto with os_keeps.
Qed.

Lemma supervise_private run p pid : os_keeps files_private (supervise ask run p pid).
Proof.
  unfold supervise, close_directory. apply os_keeps_bind; [apply private_dropping, watch_private|].
  intros [[[status t] out] err]. apply os_keeps_bind.
  { destruct (temporary_directory _); [|apply os_keeps_ret].
    apply os_keeps_bind; [by apply private_keeps_call|]. intros; apply os_keeps_ret. }
  intros warning. destruct (enforce_combined_limit _ _ _) as [[[o e] tr] om].
  apply os_keeps_bind; [by apply private_keeps_call|]. intros; apply os_keeps_ret.
Qed.

(** C27. A value that a run is given in a file is never readable by anyone else: every
    file is written only after it was created with mode 0600, in a directory of the run
    with mode 0700, below a root that was found to be a directory of this user closed to
    everyone else, and whatever fails. *)
Theorem secret_files_are_private run launch :
  (forall c, os_keeps files_private (launch c)) -> files_private (execute run launch []).2.
Proof.
  intros Hlaunch. assert (Hnil : files_private []) by done. revert Hnil. generalize (@nil event). intros l Hl.
  eapply os_run_state with (Q := fun _ => files_private) (E := files_private); [|done..].
  unfold Supervisor.execute, prepare_command. apply os_run_bind, os_run_bind, os_run_perform. intros started.
  assert (Hl1 : files_private (Event Now started :: l)) by done.
  apply os_run_bind, os_run_lift; [|done]. intros r1 _. apply os_run_bind, os_run_lift; [|done]. intros r2 _.
  apply os_run_bind. eapply os_run_mono; [by apply inject_private| |done]. intros [answer i] l2 Hl2. cbn beta in Hl2.
  apply os_run_bind. eapply os_run_mono; [apply os_run_keeps; [apply private_dropping, os_keeps_lift|exact Hl2]| |done].
  intros ? l3 Hl3. apply os_run_ret, os_run_bind.
  eapply os_run_mono; [apply os_run_keeps; [apply private_dropping, Hlaunch|exact Hl3]| |done].
  intros pid l4 Hl4. apply os_run_keeps; [apply supervise_private|exact Hl4].
Qed.
End files.

(** ** The end of a run *)

(** The directories of runs that were made and not removed. *)
Definition open_after {A} (c : os_call A) : A -> gset string -> gset string :=
  match c in os_call A return A -> gset string -> gset string with
  | MakeTempDirectory _ _ => fun answer o => match answer with Ok d => {[d]} ∪ o | Err _ => o end
  | RemoveTree d => fun _ o => o ∖ {[d]}
  | _ => fun _ o => o
  end.
Fixpoint open_directories (l : log) : gset string :=
  match l with
  | [] => ∅
  | Event c a :: l => open_after c a (open_directories l)
  end.

Section leftovers.
Context `{TextCrates, RedactCratesLaws}.
Context (ask : forall A, os_call A -> log -> A).
Context (euid : Z) (temp_dir : string) (var_os : string -> option bytes).
Context (clock : log -> Instant) (Hclock : ticking ask clock).

(** From a moment on, with at most these directories left open. *)
Definition within (start : Instant) (D : gset string) (l : log) : Prop :=
  start <= clock l /\ open_directories l ⊆ D.

Definition no_directory {A} (c : os_call A) : Prop := match c with MakeTempDirectory _ _ => False | _ => True end.
Lemma within_event start D {A} (c : os_call A) a l : no_directory c -> within start D l -> within start D (Event c a :: l).
Proof using Hclock.
  intros Hc [Hs Hd]. split; [pose proof (ticking_event _ _ Hclock l A c a); lia|].
  destruct c; try done; cbn [open_directories open_after].
  all: intros x Hx; first [by apply Hd|apply elem_of_difference in Hx as [Hx _]; by apply Hd].
Qed.

Lemma within_call start D {A} (c : os_call A) : no_directory c -> os_keeps (within start D) (perform ask c).
Proof. intros Hc. apply os_keeps_perform. intros l a. by apply within_event. Qed.
Lemma within_checked start D {A} (c : os_call (Io A)) : no_directory c -> os_keeps (within start D) (or_failure ask c).
Proof. intros Hc. apply os_keeps_or_failure. intros l a. by apply within_event. Qed.
#[local] Hint Resolve within_call within_checked : os_keeps.
#[local] Hint Extern 2 (no_directory _) => exact I : os_keeps.

(** A directory that is dropped on an error. *)
Lemma within_dropping_ends {A} hangs start D d (m : Os A) (Q : LResult A -> log -> Prop) l :
  os_ends hangs m (fun r l' => within start (match d with Some d => {[d]} ∪ D | None => D end) l' /\
    (is_ok r = true -> Q r l')) l ->
  (forall e l', within start D l' -> Q (Err e) l') -> os_ends hangs (dropping ask d m) Q l.
Proof.
  intros Hm Hq. unfold os_ends, dropping, on_error in *. destruct (m l) as [[[a|e]|] l']; [|destruct Hm as [[Hs Hd] _]|done].
  - by apply Hm.
  - destruct d as [d|]; cbn; apply Hq; [|done].
    split; [pose proof (ticking_event _ _ Hclock l' _ (RemoveTree d) (ask _ (RemoveTree d) l')); lia|].
    cbn [open_directories open_after]. set_solver.
Qed.
Lemma within_dropping {A} start D d (m : Os A) (Q : LResult A -> log -> Prop) l :
  os_wp m (fun r l' => within start (match d with Some d => {[d]} ∪ D | None => D end) l' /\
    (is_ok r = true -> Q r l')) l ->
  (forall e l', within start D l' -> Q (Err e) l') -> os_wp (dropping ask d m) Q l.
Proof. apply (within_dropping_ends (fun _ => False)). Qed.

(** What [inject] leaves: its locals name the only directory it may have left open. *)
Definition of_locals (D : gset string) (i : Injection) : gset string :=
  match temporary_directory i with Some d => {[d]} ∪ D | None => D end.

Lemma prepare_root_answers root : answers (prepare_temporary_root ask euid root).
Proof.
  apply answers_bind; [apply answers_perform|]. intros found. apply answers_bind.
  - destruct found as [m|[]]; eauto with os_keeps. apply answers_bind; [apply answers_perform|].
    intros [|[]]; eauto with os_keeps.
  - intros _. eauto with os_keeps.
Qed.
Lemma within_prepare_root start D root : os_keeps (within start D) (prepare_temporary_root ask euid root).
Proof.
  apply os_keeps_bind; [by apply within_call|]. intros found. apply os_keeps_bind.
  - destruct found as [m|[]]; eauto with os_keeps. apply os_keeps_bind; [by apply within_call|].
    intros [|[]]; eauto with os_keeps.
  - intros _. eauto 6 with os_keeps.
Qed.

Lemma marker_answers d : answers (write_run_marker ask d).
Proof. unfold write_run_marker. eauto 6 with os_keeps. Qed.
Lemma within_marker start D d : os_keeps (within start D) (write_run_marker ask d).
Proof. unfold write_run_marker. eauto 10 with os_keeps. Qed.

(** [ensure_temp_directory] leaves open the directory it answers. *)
Lemma within_ensure start D i l :
  within start (of_locals D i) l ->
  os_wp (ensure_temp_directory ask euid temp_dir (temporary_directory i)) (fun r l' =>
    match r with
    | Ok d => within start (of_locals D (set_directory d i)) l'
    | Err _ => within start (of_locals D i) l'
    end) l.
Proof.
  unfold of_locals. destruct (temporary_directory i) as [d|]; cbn [ensure_temp_directory set_directory temporary_directory];
    intros Hl; [by apply os_wp_ret|].
  apply os_wp_bind. eapply os_wp_mono; [apply answers_wp; [apply prepare_root_answers|apply within_prepare_root|exact Hl]|].
  intros [[]|e] l1 Hl1; [|done]. apply os_wp_bind, os_wp_or_failure.
  - intros d _. assert (Hl2 : within start ({[d]} ∪ D) (Event (MakeTempDirectory RUN_DIRECTORY_PREFIX (temporary_root euid temp_dir)) (Ok d) :: l1)).
    { destruct Hl1 as [Hs Hd]. split; [|cbn; set_solver].
      pose proof (ticking_event _ _ Hclock l1 _ (MakeTempDirectory RUN_DIRECTORY_PREFIX (temporary_root euid temp_dir)) (Ok d)). lia. }
    apply os_wp_bind, within_dropping with (start := start) (D := D); [|done].
    apply os_wp_bind. eapply os_wp_mono; [apply answers_wp; [apply answers_or_failure|by apply within_checked|exact Hl2]|].
    intros [[]|e] l2 Hl3; [|by split]. eapply os_wp_mono; [apply answers_wp; [apply marker_answers|apply within_marker|exact Hl3]|].
    intros [[]|e] l3 Hl4; [|by split]. split; [done|]. intros _. by apply os_wp_ret.
  - intros e. destruct Hl1 as [Hs Hd]. split; [|done].
    pose proof (ticking_event _ _ Hclock l1 _ (MakeTempDirectory RUN_DIRECTORY_PREFIX (temporary_root euid temp_dir)) (Err e)). lia.
Qed.

Lemma secret_answers d extension value : answers (write_temporary_secret ask d extension value).
Proof. unfold write_temporary_secret. eauto 8 with os_keeps. Qed.
Lemma within_secret start D d extension value : os_keeps (within start D) (write_temporary_secret ask d extension value).
Proof. unfold write_temporary_secret. eauto 10 with os_keeps. Qed.

Lemma attempt_wp {A} (m : Os A) (Q : LResult (LResult A) -> log -> Prop) l :
  os_wp m (fun r => Q (Ok r)) l -> os_wp (attempt m) Q l.
Proof. unfold os_wp, attempt. by destruct (m l) as [[r|] l']. Qed.

Lemma within_inject start D bs i l :
  within start (of_locals D i) l ->
  os_wp (inject ask euid temp_dir bs i) (fun r l' =>
    exists answer i', r = Ok (answer, i') /\ within start (of_locals D i') l') l.
Proof.
  revert i l. induction bs as [|b bs IH]; intros i l Hl; cbn [inject]; [apply os_wp_ret; eauto|].
  destruct (prepared_target b) as [name| |name extension].
  - destruct (_ && _); [by apply IH|apply os_wp_ret; eauto].
  - by apply IH.
  - apply os_wp_bind, attempt_wp. eapply os_wp_mono; [by apply within_ensure|]. intros [d|e] l1 Hl1; [|apply os_wp_ret; eauto].
    apply os_wp_bind, attempt_wp. eapply os_wp_mono; [apply answers_wp; [apply secret_answers|apply within_secret|exact Hl1]|].
    intros [path|e] l2 Hl2; [by apply IH|apply os_wp_ret; eauto].
Qed.

(** A prepared run: nothing is left open but its own directory, and it has started. *)
Lemma within_prepare_command run D l :
  open_directories l ⊆ D ->
  os_wp (prepare_command ask euid temp_dir var_os run) (fun r l' =>
    match r with
    | Ok p => within (prepared_started p) (of_locals D (prepared_injection p)) l' /\
        make_redactor (prepared_bindings run) (prepared_output_limit_bytes run) = Ok (stdout_redactor p) /\
        make_redactor (prepared_bindings run) (prepared_output_limit_bytes run) = Ok (stderr_redactor p)
    | Err _ => open_directories l' ⊆ D
    end) l.
Proof.
  intros Hl. unfold prepare_command. apply os_wp_bind, os_wp_perform. intros started Hstarted.
  rewrite (ticking_now _ _ Hclock) in Hstarted.
  assert (Hl1 : within started D (Event Now started :: l)).
  { split; [|done]. pose proof (ticking_event _ _ Hclock l _ Now started). lia. }
  apply os_wp_bind, os_wp_lift. destruct (make_redactor _ _) as [r|e] eqn:Hr; [|apply Hl1].
  apply os_wp_bind, os_wp_lift. apply os_wp_bind.
  eapply os_wp_mono; [apply within_inject with (D := D); exact Hl1|]. intros ? l2 (answer & i & -> & Hl2).
  apply os_wp_bind, within_dropping with (start := started) (D := D); [|by intros e l' []].
  apply os_wp_lift. split; [exact Hl2|]. destruct answer; [intros _|done]. by apply os_wp_ret.
Qed.

(** *** The pipes

    When the wait for the child has ended its group is gone; from then on the run only joins
    the threads of the pipes. *)
Definition is_pipe (e : event) : bool :=
  match e with Event c _ => match c with ReadOutput _ | WriteInput _ => true | _ => false end end.
Definition drained (l : log) : Prop := exists pipes l0, l = pipes ++ l0 /\ forallb is_pipe pipes = true /\ gone l0.
Definition draining (start : Instant) (D : gset string) (l : log) : Prop := within start D l /\ drained l.

(** The join that does not return: its pipe is still open although the child was reaped and
    nobody is left in its group. *)
Definition hung (l : log) : Prop := exists older, drained older /\
  ((exists errors, ask _ (ReadOutput errors) older = None /\ l = Event (ReadOutput errors) None :: older) \/
   (exists value, ask _ (WriteInput value) older = None /\ l = Event (WriteInput value) None :: older)).

Lemma draining_event start D {A} (c : os_call A) a l :
  is_pipe (Event c a) = true -> draining start D l -> draining start D (Event c a :: l).
Proof.
  intros Hc [Hl (pipes & l0 & -> & Hp & Hg)]. split; [apply within_event; [by destruct c|done]|].
  exists (Event c a :: pipes), l0. split_and!; [done| |done]. cbn [forallb]. by rewrite Hc.
Qed.
Lemma join_reader_ends r bindings limit errors start D l :
  make_redactor bindings limit = Ok r -> draining start D l ->
  os_ends hung (join_reader ask errors r) (fun _ => draining start D) l.
Proof.
  intros Hr Hl. apply os_ends_bind, os_ends_blocking.
  - intros reads. destruct (redact_reader_clean bindings limit r [] reads Hr) as (answer & Hread & _). cbn [fold_left] in Hread.
    rewrite Hread. apply os_ends_wp, os_wp_lift. by apply draining_event.
  - intros Hn. exists l. split; [apply Hl|]. left. by exists errors.
Qed.
Lemma join_writer_ends value start D l :
  draining start D l -> os_ends hung (join_writer ask value) (fun _ => draining start D) l.
Proof.
  intros Hl. unfold join_writer. destruct value as [value|]; [|by apply os_ends_wp, os_wp_ret].
  apply os_ends_bind, os_ends_blocking.
  - intros written. assert (Hw : draining start D (Event (WriteInput value) (Some written) :: l)) by by apply draining_event.
    by destruct written as [|[]]; apply os_ends_wp; first [apply os_wp_ret|apply os_wp_err].
  - intros Hn. exists l. split; [apply Hl|]. right. by exists value.
Qed.

Lemma within_watch run p pid D l :
  make_redactor (prepared_bindings run) (prepared_output_limit_bytes run) = Ok (stdout_redactor p) ->
  make_redactor (prepared_bindings run) (prepared_output_limit_bytes run) = Ok (stderr_redactor p) ->
  0 <= prepared_timeout run -> within (prepared_started p) D l ->
  os_ends hung (watch ask run p pid) (fun _ => within (prepared_started p) D) l.
Proof.
  intros Ho He Ht Hl. unfold watch. apply os_ends_bind.
  eapply os_ends_mono; [apply os_ends_wp, answers_wp with (P := within (prepared_started p) D); [| |exact Hl]|].
  { unfold attach. destruct (_ <=? _); eauto 6 with os_keeps. }
  { unfold attach. destruct (_ <=? _); eauto 10 with os_keeps. }
  intros [[]|e] l1 Hl1; [|done]. apply os_ends_bind.
  assert (Hw : os_wp (wait_for_child ask (prepared_started p) (prepared_timeout run))
    (fun r l' => within (prepared_started p) D l' /\ (is_ok r = true -> gone l')) l1).
  { pose proof (wait_for_child_answers ask clock _ _ l1 Hclock (proj1 Hl1) Ht) as Ha.
    pose proof (wait_for_child_keeps ask (within (prepared_started p) D)) as Hk.
    specialize (Hk ltac:(intros A c a l' Hc; apply within_event; by destruct c) (prepared_started p) (prepared_timeout run) l1 Hl1).
    unfold ends, os_wp in *. destruct (wait_for_child _ _ _ l1) as [[[[]|]|] l']; [|by split|done].
    split; [done|]. intros _. by apply Ha. }
  eapply os_ends_mono; [apply os_ends_wp, Hw|]. intros [[status t]|e] l2 [Hl2 Hg]; [|done].
  assert (Hd : draining (prepared_started p) D l2) by (split; [done|]; exists [], l2; split_and!; [done|done|by apply Hg]).
  apply os_ends_bind. eapply os_ends_mono; [by eapply join_reader_ends|]. intros [out|e] l3 Hl3; [|by destruct Hl3].
  apply os_ends_bind. eapply os_ends_mono; [by eapply join_reader_ends|]. intros [err|e] l4 Hl4; [|by destruct Hl4].
  apply os_ends_bind. eapply os_ends_mono; [by apply join_writer_ends|].
  intros [[]|e] l5 [Hl5 _]; [by apply os_ends_wp, os_wp_ret|done].
Qed.

Lemma within_supervise run p pid D l :
  make_redactor (prepared_bindings run) (prepared_output_limit_bytes run) = Ok (stdout_redactor p) ->
  make_redactor (prepared_bindings run) (prepared_output_limit_bytes run) = Ok (stderr_redactor p) ->
  0 <= prepared_timeout run -> within (prepared_started p) (of_locals D (prepared_injection p)) l ->
  os_ends hung (supervise ask run p pid) (fun _ l' => open_directories l' ⊆ D) l.
Proof.
  intros Ho He Ht Hl. unfold supervise.
  apply os_ends_bind, within_dropping_ends with (start := prepared_started p) (D := D); [|by intros e l' []].
  eapply os_ends_mono; [by eapply within_watch|]. intros r l1 Hl1. split; [exact Hl1|].
  destruct r as [[[[status t] out] err]|e]; [intros _|done]. apply os_ends_wp, os_wp_bind.
  assert (Hclose : os_wp (close_directory ask (temporary_directory (prepared_injection p)))
    (fun r l' => is_ok r = true /\ within (prepared_started p) D l') l1).
  { unfold of_locals in Hl1. destruct (temporary_directory (prepared_injection p)) as [d|]; [|by apply os_wp_ret].
    apply os_wp_bind, os_wp_perform. intros a _. apply os_wp_ret. split; [done|]. destruct Hl1 as [Hs Hd].
    split; [pose proof (ticking_event _ _ Hclock l1 _ (RemoveTree d) a); lia|]. cbn [open_directories open_after]. set_solver. }
  eapply os_wp_mono; [exact Hclose|]. intros [warning|e] l2 [Hok Hl2]; [|done].
  destruct (enforce_combined_limit _ _ _) as [[[o e] tr] om]. apply os_wp_bind, os_wp_perform. intros now _.
  apply os_wp_ret. apply Hl2.
Qed.

(** A launch that answers, takes its time and leaves directories alone. *)
Definition plain_launch (launch : Command -> Os Z) : Prop :=
  forall c start D, answers (launch c) /\ os_keeps (within start D) (launch c).

(** No pipe of a child stays open for ever. *)
Definition pipes_end : Prop :=
  (forall errors l, ask _ (ReadOutput errors) l <> None) /\ (forall value l, ask _ (WriteInput value) l <> None).

End leftovers.

(** ** What the child is given *)
Section environment.
Context `{TextCrates, RedactCratesLaws}.
Context (ask : forall A, os_call A -> log -> A).
Context (euid : Z) (temp_dir : string) (var_os : string -> option bytes).

(** The variables a list of bindings sets, and those for standard input. *)
Definition prepared_names (bs : list PreparedBinding) : list string :=
  omap (fun b => environment_name (prepared_target b)) bs.
Definition for_standard_input (b : PreparedBinding) : bool :=
  match prepared_target b with ValidatedStandardInput => true | _ => false end.

(** A binding has arrived: its value is in its variable, on standard input, or in a file
    whose path is in its variable. *)
Definition delivered (b : PreparedBinding) (i : Injection) (l : log) : Prop :=
  match prepared_target b with
  | ValidatedEnvironment name => injected_env i !! name = Some (prepared_value b)
  | ValidatedStandardInput => stdin_value i = Some (prepared_value b)
  | ValidatedTemporaryFile name _ => exists path, injected_env i !! name = Some (bytes_of path) /\
      done (WriteAll path (prepared_value b)) (Ok tt) l
  end.

Record injected (bs : list PreparedBinding) (i i' : Injection) (l' : log) : Prop := {
  injected_all b : b ∈ bs -> delivered b i' l';
  injected_others name : name ∉ prepared_names bs -> injected_env i' !! name = injected_env i !! name;
  injected_stdin : existsb for_standard_input bs = false -> stdin_value i' = stdin_value i;
}.

(** The log only grows. *)
Section grows.
Context (P : log -> Prop) (HP : forall A (c : os_call A) a l, P l -> P (Event c a :: l)).
Lemma grows_perform {A} (c : os_call A) : os_keeps P (perform ask c).
Proof. apply os_keeps_perform. intros; by apply HP. Qed.
Lemma grows_or_failure {A} (c : os_call (Io A)) : os_keeps P (or_failure ask c).
Proof. apply os_keeps_or_failure. intros; by apply HP. Qed.
#[local] Hint Resolve grows_perform grows_or_failure : os_keeps.
Lemma grows_attempt {A} (m : Os A) : os_keeps P m -> os_keeps P (attempt m).
Proof. intros Hm l Hl. specialize (Hm l Hl). unfold attempt. by destruct (m l) as [[r|] l']. Qed.
Lemma grows_dropping {A} d (m : Os A) : os_keeps P m -> os_keeps P (dropping ask d m).
Proof.
  intros Hm l Hl. specialize (Hm l Hl). unfold dropping, on_error. destruct (m l) as [[[a|e]|] l']; [done| |done].
  destruct d; [by apply HP|done].
Qed.
Lemma grows_ensure d : os_keeps P (ensure_temp_directory ask euid temp_dir d).
Proof.
  destruct d as [d|]; [apply os_keeps_ret|]. apply os_keeps_bind.
  { apply os_keeps_bind; [apply grows_perform|]. intros found. apply os_keeps_bind.
    - destruct found as [m|[]]; eauto with os_keeps. apply os_keeps_bind; [apply grows_perform|]. intros [|[]]; eauto with os_keeps.
    - intros _. eauto with os_keeps. }
  intros _. apply os_keeps_bind; [apply grows_or_failure|]. intros d. apply os_keeps_bind; [|eauto with os_keeps].
  apply grows_dropping. unfold write_run_marker. eauto 10 with os_keeps.
Qed.
Lemma grows_secret d extension value : os_keeps P (write_temporary_secret ask d extension value).
Proof. unfold write_temporary_secret. eauto 10 with os_keeps. Qed.
Lemma grows_inject bs i : os_keeps P (inject ask euid temp_dir bs i).
Proof.
  revert i. induction bs as [|b bs IH]; intros i; cbn [inject]; [apply os_keeps_ret|].
  destruct (prepared_target b); [destruct (_ && _); eauto with os_keeps|apply IH|].
  apply os_keeps_bind; [apply grows_attempt, grows_ensure|]. intros [d|e]; [|apply os_keeps_ret].
  apply os_keeps_bind; [apply grows_attempt, grows_secret|]. intros [path|e]; [apply IH|apply os_keeps_ret].
Qed.
End grows.

Lemma done_grows {A} (c : os_call A) a A' (c' : os_call A') a' l : done c a l -> done c a (Event c' a' :: l).
Proof. by right. Qed.

(** The value of the first binding arrives and the others do not touch it. *)
Lemma injected_cons b bs i i1 i' l' :
  delivered b i1 l' ->
  match environment_name (prepared_target b) with
  | Some name => (name ∉ prepared_names bs) /\ stdin_value i1 = stdin_value i /\
      (forall n, n <> name -> injected_env i1 !! n = injected_env i !! n)
  | None => existsb for_standard_input bs = false /\ injected_env i1 = injected_env i
  end ->
  injected bs i1 i' l' -> injected (b :: bs) i i' l'.
Proof.
  intros Hb Hname [Hall Hothers Hstdin]. unfold delivered in Hb. split.
  - intros b' [->|Hin]%elem_of_cons; [|by apply Hall]. unfold delivered.
    destruct (prepared_target b) as [name| |name ext]; cbn in Hname.
    + destruct Hname as (Hn & _). by rewrite Hothers.
    + destruct Hname as [Hs _]. by rewrite Hstdin.
    + destruct Hname as (Hn & _). destruct Hb as (path & Hp & Hw). exists path. by rewrite Hothers.
  - intros n Hn. unfold prepared_names in Hn. cbn in Hn.
    destruct (environment_name (prepared_target b)) as [name|].
    + apply not_elem_of_cons in Hn as [Hne Hn]. destruct Hname as (_ & _ & He). rewrite Hothers by done. by apply He.
    + destruct Hname as [_ He]. rewrite Hothers by done. by rewrite He.
  - cbn. intros [Hf Hrest]%orb_false_iff. rewrite Hstdin by done.
    unfold for_standard_input in Hf. destruct (prepared_target b); cbn in Hname; [|done|]; by destruct Hname as (_ & Hs & _).
Qed.

Lemma inject_delivers bs i l :
  NoDup (prepared_names bs) -> (length (List.filter for_standard_input bs) <= 1)%nat ->
  os_run (inject ask euid temp_dir bs i) (fun r l' => r.1 = Ok tt -> injected bs i r.2 l') (fun _ => True) l.
Proof.
  revert i l. induction bs as [|b bs IH]; intros i l Hnd Hone; cbn [inject].
  { apply os_run_ret. intros _. split; [by intros b ?%not_elem_of_nil|done..]. }
  unfold prepared_names in Hnd. cbn in Hnd, Hone.
  destruct (prepared_target b) as [name| |name extension] eqn:Ht; cbn in Hnd.
  - apply NoDup_cons in Hnd as [Hn Hnd]. unfold for_standard_input in Hone at 1. rewrite Ht in Hone. cbn in Hone.
    destruct (_ && _); [|by apply os_run_ret]. eapply os_run_mono; [by apply IH| |done].
    intros r l' Hr Hok. eapply injected_cons; [| |by apply Hr].
    + unfold delivered. rewrite Ht. cbn. by rewrite lookup_insert_eq.
    + rewrite Ht. cbn. split_and!; [done..|]. intros n Hne. by rewrite lookup_insert_ne.
  - unfold for_standard_input in Hone at 1. rewrite Ht in Hone. cbn in Hone.
    assert (Hnone : existsb for_standard_input bs = false).
    { destruct (existsb for_standard_input bs) eqn:He; [|done]. apply existsb_exists in He as (b' & Hb' & Hs).
      assert (Hin : In b' (List.filter for_standard_input bs)) by (by apply filter_In).
      destruct (List.filter for_standard_input bs); cbn in *; [done|lia]. }
    eapply os_run_mono; [apply IH; [done|lia]| |done]. intros r l' Hr Hok. eapply injected_cons; [| |by apply Hr].
    + unfold delivered. by rewrite Ht.
    + by rewrite Ht.
  - apply NoDup_cons in Hnd as [Hn Hnd]. unfold for_standard_input in Hone at 1. rewrite Ht in Hone. cbn in Hone.
    apply os_run_bind. eapply attempt_run with (E := fun _ => True); [by apply os_run_any with (Q := fun _ _ => True)| |by intros; apply os_run_ret].
    intros d l1 _. cbn beta. apply os_run_bind.
    eapply attempt_run with (E := fun _ => True) (Q := fun path l' => done (WriteAll path (prepared_value b)) (Ok tt) l').
    { unfold write_temporary_secret. apply os_run_bind, os_run_perform. intros u.
      apply os_run_bind, os_run_or_failure; [|done]. intros []. apply os_run_bind, os_run_or_failure; [|done]. intros [].
      apply os_run_bind, os_run_or_failure; [|done]. intros []. apply os_run_ret. right. by left. }
    + intros path l2 Hw.
      eapply os_run_mono; [apply (os_run_and (done (WriteAll path (prepared_value b)) (Ok tt)));
        [by apply IH|by apply grows_inject; intros; apply done_grows|exact Hw]| |done].
      intros r l' [Hr Hw'] Hok. eapply injected_cons; [| |by apply Hr].
      * unfold delivered. rewrite Ht. exists path. cbn. by rewrite lookup_insert_eq.
      * rewrite Ht. cbn. split_and!; [done..|]. intros n Hne. by rewrite lookup_insert_ne.
    + intros e l2 _. by apply os_run_ret.
Qed.

Lemma prepared_names_zip bs values :
  length bs = length values -> prepared_names (zip_with prepare bs values) = environment_names bs.
Proof.
  revert values. induction bs as [|b bs IH]; intros [|v values] Hl; try done. cbn in Hl.
  unfold prepared_names, environment_names in *. cbn. rewrite IH by lia. done.
Qed.
Lemma standard_input_zip bs values :
  length bs = length values ->
  length (List.filter for_standard_input (zip_with prepare bs values)) = standard_inputs bs.
Proof.
  revert values. induction bs as [|b bs IH]; intros [|v values] Hl; try done. cbn in Hl.
  unfold standard_inputs in *. rewrite filter_cons. cbn.
  assert (Hf : for_standard_input (prepare b v) = bool_decide (is_standard_input b)).
  { unfold for_standard_input, prepare. cbn. case_bool_decide as Hb; unfold is_standard_input in Hb; [by rewrite Hb|].
    by destruct (target b). }
  rewrite Hf. destruct (decide (is_standard_input b)) as [Hb|Hb].
  - rewrite bool_decide_eq_true_2 by done. cbn. by rewrite IH by lia.
  - rewrite bool_decide_eq_false_2 by done. apply IH. lia.
Qed.

Lemma prepare_injects run p l l' :
  NoDup (prepared_names (prepared_bindings run)) ->
  (length (List.filter for_standard_input (prepared_bindings run)) <= 1)%nat ->
  prepare_command ask euid temp_dir var_os run l = (Some (Ok p), l') ->
  injected (prepared_bindings run)
    {| injected_env := minimal_environment temp_dir var_os (prepared_executable run); stdin_value := None;
       temporary_directory := None |} (prepared_injection p) l' /\
  prepared_command p = {| command_program := prepared_executable run; command_arguments := prepared_arguments run;
    command_directory := prepared_working_directory run; command_env := injected_env (prepared_injection p);
    command_process_group := 0; command_core_limit := 0 |}.
Proof.
  intros Hnd Hone Hrun. set (i := {| injected_env := _; stdin_value := None; temporary_directory := None |}).
  assert (Hw : os_run (prepare_command ask euid temp_dir var_os run) (fun p l' =>
    injected (prepared_bindings run) i (prepared_injection p) l' /\
    prepared_command p = {| command_program := prepared_executable run; command_arguments := prepared_arguments run;
      command_directory := prepared_working_directory run; command_env := injected_env (prepared_injection p);
      command_process_group := 0; command_core_limit := 0 |}) (fun _ => True) l).
  { unfold prepare_command. apply os_run_bind, os_run_perform. intros started.
    apply os_run_bind, os_run_lift; [|done]. intros r1 _. apply os_run_bind, os_run_lift; [|done]. intros r2 _.
    apply os_run_bind. eapply os_run_mono; [by apply inject_delivers| |done]. intros [answer i'] l1 Hi. cbn in Hi.
    apply os_run_bind. destruct answer as [[]|e].
    - by apply os_run_ret, os_run_ret; split; [apply Hi|].
    - unfold os_run, dropping, os_lift. by destruct (temporary_directory i'). }
  unfold os_run in Hw. by rewrite Hrun in Hw.
Qed.

(** C29. A child is given exactly what was asked for: of a request that was validated and
    resolved, the command is the request's own program, arguments and directory, each
    value has arrived at its own target (the variable, standard input, or a file named
    by the variable), every other variable is that of the minimal environment and
    without a binding for it nothing is written to standard input. *)
Theorem child_gets_its_values r caller v values run p l l' :
  validate_run_request r caller = Ok v -> resolve v values = Ok run ->
  prepare_command ask euid temp_dir var_os run l = (Some (Ok p), l') ->
  let c := prepared_command p in
  command_program c = executable r /\ command_arguments c = arguments r /\
  command_directory c = working_directory r /\
  (forall b value, (b, value) ∈ zip (run_bindings v) values -> delivered (prepare b value) (prepared_injection p) l') /\
  (forall name, name ∉ environment_names (run_bindings v) ->
     command_env c !! name = minimal_environment temp_dir var_os (executable r) !! name) /\
  (standard_inputs (run_bindings v) = 0%nat -> stdin_value (prepared_injection p) = None).
Proof.
  intros (_ & _ & Hnd & Hone & Hv)%validate_run_request_Ok (Hall & _ & ->)%resolve_Ok Hp c.
  pose proof (Forall2_length _ _ _ Hall) as Hlen.
  apply prepare_injects in Hp as [[Hd Ho Hs] Hc]; cbn [prepared_bindings] in *.
  - subst c. rewrite Hc. rewrite Hv. cbn. split_and!; try done.
    + intros b value Hin. apply Hd.
      rewrite zip_with_zip. by apply (list_elem_of_fmap_2 (uncurry prepare) _ (b, value)).
    + intros name Hn. rewrite Ho; [by rewrite Hv|]. by rewrite prepared_names_zip.
    + intros Hz. apply Hs. destruct (existsb for_standard_input _) eqn:He; [|done].
      apply existsb_exists in He as (b & Hb & Hsb).
      assert (Hin : In b (List.filter for_standard_input (zip_with prepare (run_bindings v) values))) by (by apply filter_In).
      pose proof (standard_input_zip (run_bindings v) values Hlen) as Hl. unfold standard_inputs in Hl; rewrite Hz in Hl.
      by destruct (List.filter for_standard_input _).
  - by rewrite prepared_names_zip.
  - rewrite standard_input_zip by done. lia.
Qed.
End environment.

(** ** A run at work: a value in a variable and one in a file, and a child that prints both *)
Definition example_os (A : Type) (c : os_call A) (l : log) : A :=
  match c in os_call A return A with
  | SymlinkMetadata _ => Ok {| file_type := Directory; owner_uid := 1000; file_mode := 0x1C0; file_length := 0 |}
  | FileMetadata path => Ok {| file_type := if bool_decide (path = "/work") then Directory else RegularFile;
                               owner_uid := 0; file_mode := 0x1ED; file_length := 10 |}
  | MakeTempDirectory prefix root => Ok (join root (String.append prefix "1"))
  | TryWait => Ok (Some {| exit_status_code := Some 0 |})
  | Kill _ => NoSuchProcess
  | ReadOutput false => Some [Ok (bytes_of "key=hunter2/ and "); Ok (bytes_of "s3cr"); Ok (bytes_of "et done")]
  | c => stubborn_child _ c l
  end.
Lemma example_ticking : ticking example_os example_clock.
Proof.
  destruct stubborn_ticking as [? He Hs]. split; [done|exact He|exact Hs].
Qed.

Definition example_request : RunRequest := {|
  executable := "/bin/cat"; arguments := ["-"]; working_directory := "/work";
  bindings := [{| request_secret_ref := "token"; request_field := "value"; request_target := Environment "TOKEN" |};
               {| request_secret_ref := "key"; request_field := "value";
                  request_target := TemporaryFileEnvironment "KEY_FILE" (Some "key.pem") |}];
  timeout_ms := 1000; output_limit_bytes := 4096 |}.
Definition example_validated : ValidatedRunRequest := {|
  run_executable := "/bin/cat"; run_arguments := ["-"]; run_working_directory := "/work";
  run_bindings := [{| secret_ref := RefName "token"; field := "value"; target := ValidatedEnvironment "TOKEN" |};
                   {| secret_ref := RefName "key"; field := "value";
                      target := ValidatedTemporaryFile "KEY_FILE" (Some ".pem") |}];
  run_timeout := from_millis 1000; run_output_limit_bytes := 4096 |}.
Definition example_values : list ResolvedSecretBinding :=
  [{| resolved_secret_id := 4; resolved_field := "value"; resolved_value := bytes_of "hunter2/" |};
   {| resolved_secret_id := 5; resolved_field := "value"; resolved_value := bytes_of "s3cret" |}].
Definition example_run : PreparedRun := {|
  prepared_executable := "/bin/cat"; prepared_arguments := ["-"]; prepared_working_directory := "/work";
  prepared_bindings := zip_with prepare (run_bindings example_validated) example_values;
  prepared_timeout := from_millis 1000; prepared_output_limit_bytes := 4096 |}.
Abbreviation example_execute :=
  (execute example_os 1000 "/tmp" (fun _ => None) example_run (launch_unless_cancelled example_os)) (only parsing).

Lemma example_launch_answers c : answers (launch_unless_cancelled example_os c).
Proof. apply answers_bind; [apply answers_perform|]. intros []; [apply answers_err|apply answers_or_failure]. Qed.
Lemma example_launch_private c :
  os_keeps (files_private 1000 "/tmp") (launch_unless_cancelled example_os c).
Proof.
  apply os_keeps_bind; [by apply private_keeps_call|]. intros []; [apply os_keeps_err|].
  apply os_keeps_or_failure. intros l a. by apply files_private_event.
Qed.
Lemma example_launch_plain : plain_launch example_clock (launch_unless_cancelled example_os).
Proof.
  intros c start D. split; [apply example_launch_answers|].
  apply os_keeps_bind; [by apply (within_call _ _ example_ticking)|]. intros []; [apply os_keeps_err|].
  by apply (within_checked _ _ example_ticking).
Qed.

Example example_output :
  match (example_execute []).1 with
  | Some (Ok r) => result_stdout r = "key=[REDACTED] and [REDACTED] done"%string /\ result_exit_code r = Some 0
  | _ => False
  end.
Proof. vm_compute. by split. Qed.

Example run_output_is_safe_witness :
  exists r l', example_execute [] = (Some (Ok r), l') /\ safe_result example_run r.
Proof.
  destruct (example_execute []) as [[[r|e]|] l'] eqn:Hr; [|exfalso; revert Hr; vm_compute; discriminate..].
  exists r, l'. split; [reflexivity|].
  apply (run_output_is_safe example_os 1000 "/tmp" (fun _ => None) example_run (launch_unless_cancelled example_os) [] r l').
  exact Hr.
Defined.

Example secret_files_are_private_witness :
  (forall c, os_keeps (files_private 1000 "/tmp") (launch_unless_cancelled example_os c)) /\
  files_private 1000 "/tmp" (example_execute []).2.
Proof.
  split; [apply example_launch_private|].
  apply (secret_files_are_private example_os 1000 "/tmp" (fun _ => None) example_run).
  apply example_launch_private.
Defined.


Example child_gets_its_values_witness :
  validate_run_request example_request Cli = Ok example_validated /\
  resolve example_validated example_values = Ok example_run /\
  exists p l', prepare_command example_os 1000 "/tmp" (fun _ => None) example_run [] = (Some (Ok p), l') /\
    forall b value, (b, value) ∈ zip (run_bindings example_validated) example_values ->
      delivered (prepare b value) (prepared_injection p) l'.
Proof.
  split; [vm_compute; reflexivity|]. split; [vm_compute; reflexivity|].
  destruct (prepare_command example_os 1000 "/tmp" (fun _ => None) example_run []) as [[[p|e]|] l'] eqn:Hp;
    [|exfalso; revert Hp; vm_compute; discriminate..].
  exists p, l'. split; [reflexivity|].
  apply (child_gets_its_values example_os 1000 "/tmp" (fun _ => None) example_request Cli example_validated
    example_values example_run p [] l'); [vm_compute; reflexivity|vm_compute; reflexivity|exact Hp].
Defined.
