(* ===== verification/Workers.v ===== *)
(** * Workers: one thread among others

    A worker of the broker is a sequence of critical sections on shared state;
    between them any other thread may act.  A section that finds its condition
    false waits on a condition variable and is tried again.  [executes] is the
    execution of a worker among other threads, which are a relation: what is
    proved of a worker holds for every interleaving. *)

From S2P Require Import Prelude Errors Calls.

Section worker.
Context {State Label : Type}.

(** A thread that still has to run: its next critical section ([None] waits) and the rest. *)
Inductive prog (A : Type) : Type :=
| Answer (a : A)
| Critical (label : Label) (B : Type) (section : State -> option B * State) (rest : B -> prog A).
#[global] Arguments Answer {A} a.
#[global] Arguments Critical {A} label {B} section rest.

Fixpoint prog_bind {A B} (p : prog A) (k : A -> prog B) : prog B :=
  match p with
  | Answer a => k a
  | Critical l f rest => Critical l f (fun b => prog_bind (rest b) k)
  end.

(** A worker whose errors end it. *)
Definition Worker (A : Type) : Type := prog (LResult A).
#[export] Instance worker_ret : MRet Worker := fun A a => Answer (Ok a).
#[export] Instance worker_bind : MBind Worker := fun A B k p =>
  prog_bind p (fun r => match r with Ok a => k a | Err e => Answer (Err e) end).
#[export] Instance worker_fmap : FMap Worker := fun A B f p => a ← p; mret (f a).
Definition worker_err {A} (e : LadonError) : Worker A := Answer (Err e).
Definition worker_lift {A} (r : LResult A) : Worker A := Answer r.

(** A critical section that does not wait, and one that does. *)
Definition critical {A} (label : Label) (f : State -> LResult A * State) : Worker A :=
  Critical label (fun s => let '(r, s) := f s in (Some r, s)) Answer.
Definition await {A} (label : Label) (f : State -> option (LResult A) * State) : Worker A :=
  Critical label f Answer.

(** What a worker asks of the world outside; a loop that never ends is a wait that never
    does. *)
Definition outside {Call A} (label : Label) (m : Asks Call A) (l : list (call_event Call)) :
    Worker (A * list (call_event Call)) :=
  match m l with
  | (Some (Ok a), l) => Answer (Ok (a, l))
  | (Some (Err e), _) => Answer (Err e)
  | (None, _) => await label (fun s => (None, s))
  end.

(** The answer of a worker as a value. *)
Definition catch {A} (p : Worker A) : Worker (LResult A) := prog_bind p (fun r => Answer (Ok r)).

(** ** Executions *)

(** What the other threads may do. *)
Context (others : Label -> State -> State -> Prop).

(** The states after every step, with its label. *)
Abbreviation Trace := (list (Label * State)) (only parsing).

(** The next step of a worker: its section runs, or it waits. *)
Definition advance {A} (p : prog A) (s : State) : option (Label * prog A * State) :=
  match p with
  | Answer _ => None
  | Critical l f k => Some (match f s with (Some b, s') => (l, k b, s') | (None, s') => (l, p, s') end)
  end.
Inductive executes {A} : prog A -> State -> Trace -> A -> State -> Prop :=
| executes_answer a s : executes (Answer a) s [] a s
| executes_others p l s s' tr a t : others l s s' -> executes p s' tr a t -> executes p s ((l, s') :: tr) a t
| executes_own p p' l s s' tr a t : advance p s = Some (l, p', s') -> executes p' s' tr a t -> executes p s ((l, s') :: tr) a t.

(** An execution by its schedule: [None] is a step of the worker. *)
Fixpoint play {A} (moves : list (option (Label * (State -> State)))) (p : prog A) (s : State) : option (Trace * A * State) :=
  match moves with
  | [] => match p with Answer a => Some ([], a, s) | Critical _ _ _ => None end
  | None :: moves =>
    '(l, p, s) ← advance p s;
    '(tr, a, t) ← play moves p s;
    Some ((l, s) :: tr, a, t)
  | Some (l, f) :: moves =>
    '(tr, a, t) ← play moves p (f s);
    Some ((l, f s) :: tr, a, t)
  end.
Lemma play_executes {A} moves (p : prog A) s tr a t :
  (forall l f s, Some (l, f) ∈ moves -> others l s (f s)) -> play moves p s = Some (tr, a, t) -> executes p s tr a t.
Proof.
  revert p s tr. induction moves as [|[[l f]|] moves IH]; intros p s tr Hm Hp; cbn in Hp.
  - destruct p; [|done]. injection Hp as <- <- <-. constructor.
  - apply bind_Some in Hp as ([[tr' a'] t'] & Hp & [= <- <- <-]). eapply executes_others; [by apply Hm; left|].
    apply IH; [|done]. intros. apply Hm. by right.
  - apply bind_Some in Hp as ([[l p'] s'] & Hadv & Hp). apply bind_Some in Hp as ([[tr' a'] t'] & Hp & [= <- <- <-]).
    eapply executes_own; [done|]. apply IH; [|done]. intros. apply Hm. by right.
Qed.

(** ** Triples

    An assertion is about the state and the trace before it; what is asserted between two
    sections must be kept by the other threads. *)
Abbreviation Assertion := (Trace -> State -> Prop) (only parsing).
Class Kept (P : Assertion) : Prop :=
  kept_others before l s s' : P before s -> others l s s' -> P (before ++ [(l, s')]) s'.
#[export] Instance false_kept : Kept (fun _ _ => False).
Proof. by intros ? **. Qed.
Definition triple {A} (P : Assertion) (p : prog A) (Q : A -> Assertion) : Prop :=
  forall before s tr a t, P before s -> executes p s tr a t -> Q a (before ++ tr) t.

(** The assertion after a section, if it ends and if it waits. *)
Definition after {B} (l : Label) (before : Trace) (answer : option B * State) (Q : B -> Assertion) (P : Assertion) : Prop :=
  match answer with
  | (Some b, s) => Q b (before ++ [(l, s)]) s
  | (None, s) => P (before ++ [(l, s)]) s
  end.

Lemma executes_bind {A B} (p : prog A) (k : A -> prog B) s tr c t :
  executes (prog_bind p k) s tr c t ->
  exists tr1 a s1 tr2, tr = tr1 ++ tr2 /\ executes p s tr1 a s1 /\ executes (k a) s1 tr2 c t.
Proof.
  remember (prog_bind p k) as q eqn:Hq. intros Hr. revert p Hq.
  induction Hr as [c s|q l s s' tr c t Ho Hr IH|q q' l s s' tr c t Hadv Hr IH]; intros p Hq; [|subst q..].
  - destruct p as [a|]; [|done]. exists [], a, s, []. cbn in Hq. rewrite <- Hq. split_and!; [done|constructor..].
  - destruct (IH p eq_refl) as (tr1 & a & s1 & tr2 & -> & H1 & H2).
    exists ((l, s') :: tr1), a, s1, tr2. split_and!; [done|by eapply executes_others|done].
  - destruct p as [a|l' B' f rest].
    + exists [], a, s, ((l, s') :: tr). split_and!; [done|constructor|by eapply executes_own].
    + cbn in Hadv. destruct (f s) as [[b|] s1] eqn:Hf; injection Hadv as <- <- <-.
      * destruct (IH (rest b) eq_refl) as (tr1 & a & s2 & tr2 & -> & H1 & H2).
        exists ((l', s1) :: tr1), a, s2, tr2. split_and!; [done| |done].
        eapply executes_own; [|done]. cbn. by rewrite Hf.
      * destruct (IH (Critical l' f rest) eq_refl) as (tr1 & a & s2 & tr2 & -> & H1 & H2).
        exists ((l', s1) :: tr1), a, s2, tr2. split_and!; [done| |done].
        eapply executes_own; [|done]. cbn. by rewrite Hf.
Qed.

Lemma triple_bind {A B} P (p : prog A) (k : A -> prog B) Q R :
  triple P p Q -> (forall a, triple (Q a) (k a) R) -> triple P (prog_bind p k) R.
Proof.
  intros Hp Hk before s tr c t Hs (tr1 & a & s1 & tr2 & -> & H1 & H2)%executes_bind.
  rewrite app_assoc. eapply Hk, H2. by eapply Hp.
Qed.

Lemma triple_answer {A} (a : A) (Q : A -> Assertion) : Kept (Q a) -> triple (Q a) (Answer a) Q.
Proof.
  intros HQ before s tr b t Hs Hr. remember (Answer a) as p eqn:Hp. revert before Hs.
  induction Hr as [b s|p l s s' tr b t Ho Hr IH|p p' l s s' tr b t Hadv Hr IH]; intros before Hs; [|subst p|by subst p].
  - injection Hp as ->. by rewrite app_nil_r.
  - replace (before ++ (l, s') :: tr) with ((before ++ [(l, s')]) ++ tr) by by rewrite <- app_assoc.
    apply IH; [done|]. by eapply HQ.
Qed.

Lemma triple_section {A B} P l (f : State -> option B * State) (k : B -> prog A) R Q :
  Kept P -> (forall before s, P before s -> after l before (f s) R P) ->
  (forall b, triple (R b) (k b) Q) -> triple P (Critical l f k) Q.
Proof.
  intros HP Hf Hk before s tr a t Hs Hr. remember (Critical l f k) as p eqn:Hp. revert before Hs.
  induction Hr as [a s|p l' s s' tr a t Ho Hr IH|p p' l' s s' tr a t Hadv Hr IH]; intros before Hs; [done|subst p..];
    replace (before ++ (l', s') :: tr) with ((before ++ [(l', s')]) ++ tr) by (by rewrite <- app_assoc).
  - apply IH; [done|]. by eapply HP.
  - cbn in Hadv. specialize (Hf before s Hs). destruct (f s) as [[b|] s1]; injection Hadv as <- <- <-.
    + by eapply Hk.
    + by apply IH.
Qed.

Lemma triple_mono {A} (P P' : Assertion) (p : prog A) (Q Q' : A -> Assertion) :
  triple P' p Q' -> (forall before s, P before s -> P' before s) ->
  (forall a before s, Q' a before s -> Q a before s) -> triple P p Q.
Proof. intros Ht HP HQ before s tr a t Hs Hr. eapply HQ, Ht; [|done]. by apply HP. Qed.

(** ** Triples of workers: [Q] for an answer and [E] for an error *)
Definition either {A} (Q : A -> Assertion) (E : LadonError -> Assertion) (r : LResult A) : Assertion :=
  match r with Ok a => Q a | Err e => E e end.
#[export] Instance either_kept {A} (Q : A -> Assertion) E r :
  (forall a, Kept (Q a)) -> (forall e, Kept (E e)) -> Kept (either Q E r).
Proof. intros HQ HE. destruct r; [apply HQ|apply HE]. Qed.
Definition hoare {A} (P : Assertion) (m : Worker A) (Q : A -> Assertion) (E : LadonError -> Assertion) : Prop :=
  triple P m (either Q E).

Lemma hoare_ret {A} (a : A) Q E : Kept (Q a) -> hoare (Q a) (mret a) Q E.
Proof. intros HQ. by apply (triple_answer (Ok a) (either Q E)). Qed.
Lemma hoare_err {A} e (Q : A -> Assertion) E : Kept (E e) -> hoare (E e) (worker_err e) Q E.
Proof. intros HE. by apply (triple_answer (Err e) (either Q E)). Qed.
Lemma hoare_lift {A} (r : LResult A) Q E : Kept (either Q E r) -> hoare (either Q E r) (worker_lift r) Q E.
Proof. intros HQ. by apply (triple_answer r (either Q E)). Qed.
Lemma hoare_bind {A B} P (m : Worker A) (k : A -> Worker B) Q R E :
  (forall e, Kept (E e)) -> hoare P m Q E -> (forall a, hoare (Q a) (k a) R E) -> hoare P (m ≫= k) R E.
Proof.
  intros HE Hm Hk. eapply triple_bind; [exact Hm|]. intros [a|e]; [apply Hk|exact (hoare_err e R E (HE e))].
Qed.
Lemma hoare_catch {A} P (m : Worker A) Q E (R : LResult A -> Assertion) F :
  (forall r, Kept (R r)) -> hoare P m Q E -> (forall r before s, either Q E r before s -> R r before s) ->
  hoare P (catch m) R F.
Proof.
  intros HR Hm HQ. eapply triple_bind; [exact Hm|]. intros r.
  eapply triple_mono; [apply (triple_answer (Ok r) (either R F))|apply HQ|done]. apply HR.
Qed.
Lemma hoare_await {A} P l (f : State -> option (LResult A) * State) Q E :
  Kept P -> (forall a, Kept (Q a)) -> (forall e, Kept (E e)) ->
  (forall before s, P before s -> after l before (f s) (either Q E) P) -> hoare P (await l f) Q E.
Proof.
  intros HP HQ HE Hf. eapply triple_section; [done|exact Hf|]. intros r. apply triple_answer. by apply either_kept.
Qed.
Lemma hoare_critical {A} P l (f : State -> LResult A * State) Q E :
  Kept P -> (forall a, Kept (Q a)) -> (forall e, Kept (E e)) ->
  (forall before s, P before s -> either Q E (f s).1 (before ++ [(l, (f s).2)]) (f s).2) -> hoare P (critical l f) Q E.
Proof.
  intros HP HQ HE Hf. apply hoare_await; [done..|]. intros before s Hs. specialize (Hf before s Hs).
  by destruct (f s).
Qed.
Lemma hoare_mono {A} (P P' : Assertion) (m : Worker A) Q Q' E E' :
  hoare P' m Q' E' -> (forall before s, P before s -> P' before s) ->
  (forall a before s, Q' a before s -> Q a before s) -> (forall e before s, E' e before s -> E e before s) ->
  hoare P m Q E.
Proof. intros Hm HP HQ HE. eapply triple_mono; [exact Hm|done|]. intros [a|e]; cbn; auto. Qed.
Lemma hoare_fmap {A B} (f : A -> B) P (m : Worker A) Q R E :
  (forall b, Kept (R b)) -> (forall e, Kept (E e)) -> hoare P m Q E ->
  (forall a before s, Q a before s -> R (f a) before s) -> hoare P (f <$> m) R E.
Proof.
  intros HR HE Hm HQ. eapply hoare_bind; [done|exact Hm|]. intros a.
  eapply hoare_mono; [by apply (hoare_ret (f a) R E)|apply HQ|done..].
Qed.

Lemma hoare_answer {A} (r : LResult A) (P : Assertion) Q E :
  Kept (either Q E r) -> (forall before s, P before s -> either Q E r before s) -> hoare P (worker_lift r) Q E.
Proof. intros HQ HP. eapply triple_mono; [by apply (triple_answer r (either Q E))|exact HP|done]. Qed.

(** A fact that does not depend on the state. *)
Lemma hoare_pure {A} P (fact : Prop) (m : Worker A) Q E :
  (fact -> hoare P m Q E) -> hoare (fun before s => P before s /\ fact) m Q E.
Proof. intros Hm before s tr r s' [Hs Hf] Hr. by eapply Hm. Qed.

(** What every section keeps. *)
Fixpoint sections (I : Assertion) {A} (p : prog A) : Prop :=
  match p with
  | Answer _ => True
  | Critical l f rest => (forall before s, I before s -> I (before ++ [(l, (f s).2)]) (f s).2) /\ forall b, sections I (rest b)
  end.
Lemma sections_bind I {A B} (p : prog A) (k : A -> prog B) :
  sections I p -> (forall a, sections I (k a)) -> sections I (prog_bind p k).
Proof. intros Hp Hk. induction p as [|l C f rest IH]; [apply Hk|]. destruct Hp as [Hf Hr]. split; [done|]. auto. Qed.
Lemma sections_worker_bind I {A B} (m : Worker A) (k : A -> Worker B) :
  sections I m -> (forall a, sections I (k a)) -> sections I (m ≫= k).
Proof. intros Hm Hk. apply sections_bind; [done|]. intros [a|e]; [apply Hk|done]. Qed.
Lemma sections_fmap I {A B} (f : A -> B) (m : Worker A) : sections I m -> sections I (f <$> m).
Proof. intros Hm. by apply sections_worker_bind. Qed.
Lemma sections_catch I {A} (m : Worker A) : sections I m -> sections I (catch m).
Proof. intros Hm. by apply sections_bind. Qed.
Lemma sections_triple I {A} (p : prog A) : Kept I -> sections I p -> triple I p (fun _ => I).
Proof.
  intros HI. induction p as [a|l B f rest IH].
  - intros _. by apply (triple_answer a (fun _ => I)).
  - intros [Hf Hr]. eapply (triple_section I l f rest (fun _ => I)); [done| |auto].
    intros before s Hs. specialize (Hf before s Hs). by destruct (f s) as [[]].
Qed.
Lemma sections_hoare I {A} (m : Worker A) : Kept I -> sections I m -> hoare I m (fun _ => I) (fun _ => I).
Proof. intros HI Hm. eapply triple_mono; [by apply sections_triple|done|]. by intros []. Qed.
End worker.
