(* ===== verification/AgentBroker.v ===== *)
(** * AgentBroker: [crates/ladon-app/src/agent_broker.rs]

    How the broker puts its parts together.  Its state is what the threads
    share: the approval coordinator, the run coordinator, the locks of the user
    interface, the vault controller and the children that were launched.  A
    request of an agent and an action of the user are [Worker]s on it; the
    mutexes are taken in the order of the source, and nothing else is assumed of
    the other threads.  A poisoned mutex is not modelled. *)

From S2P Require Import Prelude Errors Time Utf8 Text Model Cbor CborReference Codec Crypto Vault Store Redact Json.
From S2P Require Import Protocol Runner Paths Calls Os ProcessTree RunFiles Supervisor Grants Approval.
From S2P Require Import ApprovalInvariant Runs UnlockRequests UiLocks Editor Controller Workers.
Local Open Scope Z_scope.

(** ** Answers *)

(** [phase_name], [termination_name] and [run_result]. *)
Definition phase_name (p : VaultUiPhase) : string :=
  match p with
  | PhaseFirstRun => "first_run"
  | PhaseLocked => "locked"
  | PhaseRecoveryRequired => "recovery_required"
  | PhaseUnlocked => "unlocked"
  end.
Definition termination_name (t : RunTermination) : string :=
  match t with Exited => "exited" | TimedOut => "timed_out" | Cancelled => "cancelled" end.
Definition run_result (r : Supervisor.RunResult) : RpcResult :=
  Protocol.RunResult (result_exit_code r) (termination_name (result_termination r)) (result_stdout r) (result_stderr r)
    (duration_millis (result_duration r)) (result_redaction_count r)
    (result_output_truncated r || result_output_suppressed r) (result_temp_cleanup_warning r).

(** The summaries of [RpcMethod::List]: [authorized] restricts them in a locked app. *)
Definition summary `{TextCrates} (s : SecretMetadata) : LResult SecretSummary :=
  id ← ok_or (uuid_parse_str (uuid_display (meta_id s))) InvalidVaultPayload;
  Ok {| summary_id := id; summary_name := meta_name s;
        summary_fields := (fun name => {| summary_field_name := name; summary_field_text := true |}) <$> field_names s |}.
Definition listed (authorized : option (list SecretId)) (s : SecretMetadata) : bool :=
  match authorized with None => true | Some ids => bool_decide (meta_id s ∈ ids) end.
Definition list_answer `{TextCrates} (authorized : option (list SecretId)) (c : VaultController) : LResult RpcResult :=
  reject_if (negb (bool_decide (phase c = PhaseUnlocked))) VaultLocked;;
  l ← mapM summary (List.filter (listed authorized) (Controller.secrets c));
  Ok (ListResult l).

(** ** The shared state *)
Record Broker (C : Type) := {
  approval : ApprovalState C;
  threads : Threads;
  ui : UiThreads;
  broker_controller : VaultController;
  shutting_down : bool;
  supervisor_running : bool;
  now : Instant;
  launched : list (nat * PreparedRun);
}.
Arguments approval {C}.
Arguments threads {C}.
Arguments ui {C}.
Arguments broker_controller {C}.
Arguments shutting_down {C}.
Arguments supervisor_running {C}.
Arguments now {C}.
Arguments launched {C}.

Section broker.
Context {C : Type} `{MonotonicClock C}.
Context `{TextCrates, RedactCrates}.
(** The operating system as a worker finds it, and whether there is a user interface. *)
Context (ask : forall A, os_call A -> log -> A) (euid : Z) (temp_dir : string) (var_os : string -> option bytes).
Context (has_ui : bool).
Abbreviation Broker := (Broker C).
Abbreviation Label := (option approval_op).
Abbreviation Worker := (@Worker Broker Label).

Definition set_approval (s : ApprovalState C) (b : Broker) : Broker :=
  {| approval := s; threads := threads b; ui := ui b; broker_controller := broker_controller b;
     shutting_down := shutting_down b; supervisor_running := supervisor_running b; now := now b; launched := launched b |}.
Definition set_threads (w : Threads) (b : Broker) : Broker :=
  {| approval := approval b; threads := w; ui := ui b; broker_controller := broker_controller b;
     shutting_down := shutting_down b; supervisor_running := supervisor_running b; now := now b; launched := launched b |}.
Definition set_ui (u : UiThreads) (b : Broker) : Broker :=
  {| approval := approval b; threads := threads b; ui := u; broker_controller := broker_controller b;
     shutting_down := shutting_down b; supervisor_running := supervisor_running b; now := now b; launched := launched b |}.
Definition set_controller (c : VaultController) (b : Broker) : Broker :=
  {| approval := approval b; threads := threads b; ui := ui b; broker_controller := c;
     shutting_down := shutting_down b; supervisor_running := supervisor_running b; now := now b; launched := launched b |}.
Definition set_supervisor (r : bool) (b : Broker) : Broker :=
  {| approval := approval b; threads := threads b; ui := ui b; broker_controller := broker_controller b;
     shutting_down := shutting_down b; supervisor_running := r; now := now b; launched := launched b |}.
Definition add_launched (t : nat) (run : PreparedRun) (b : Broker) : Broker :=
  {| approval := approval b; threads := threads b; ui := ui b; broker_controller := broker_controller b;
     shutting_down := shutting_down b; supervisor_running := supervisor_running b; now := now b;
     launched := (t, run) :: launched b |}.

(** The flags that are set, and the state of the run coordinator. *)
Definition run_state (b : Broker) : Runs := Runs.runs (threads b).
Definition flags (b : Broker) : gset Token := cancelled_tokens (run_state b).
Definition set_runs (s : Runs) (b : Broker) : Broker := set_threads {| Runs.runs := s; roles := roles (threads b) |} b.

(** A critical section of the coordinator, and a look at another part of the state. *)
Definition coordinate {A} (m : gset Token -> @M C A) : Worker A :=
  critical None (fun b => let '(r, s) := m (flags b) (approval b) in (r, set_approval s b)).
Definition look {A} (f : Broker -> A) : Worker A := critical None (fun b => (Ok (f b), b)).
Definition require_that (f : Broker -> bool) (e : LadonError) : Worker unit :=
  critical None (fun b => (if f b then Ok tt else Err e, b)).
Definition phase_of (b : Broker) : VaultUiPhase := phase (broker_controller b).

(** What the worker asks of the operating system. *)
Definition os_worker {A} (m : Os A) (l : log) : Worker (A * log) := outside None m l.

(** ** Leases and blocks *)
Definition with_role (t : nat) (r : Role) (s : Runs) (b : Broker) : Broker :=
  set_threads {| Runs.runs := s; roles := <[t := r]> (roles (threads b)) |} b.
Definition without_role (t : nat) (s : Runs) (b : Broker) : Broker :=
  set_threads {| Runs.runs := s; roles := delete t (roles (threads b)) |} b.

(** A [RunLease] for the time of [body]: [try_start], and the drop. *)
Definition with_lease {A} (t : nat) (token : Token) (client : Uuid) (body : Worker A) : Worker A :=
  critical None (fun b =>
    match try_start token client (run_state b) with
    | Ok s => (Ok tt, with_role t (Leasing token client) s b)
    | Err e => (Err e, b)
    end);;
  r ← catch body;
  critical None (fun b => (Ok tt, without_role t (drop_lease (run_state b)) b));;
  worker_lift r.

(** The two waits of [block_new_runs], [block_for_revoke] and [block_for_client_revoke],
    and the drop of a [RunBlock]. *)
Definition start_block (t : nat) (begin : Runs -> option (Runs * Purpose)) : Worker Purpose :=
  p ← await None (fun b =>
    match begin (run_state b) with
    | Some (s, p) => (Some (Ok p), with_role t (Waiting p) s b)
    | None => (None, b)
    end);
  await None (fun b =>
    if waits p (run_state b) then (None, b)
    else (Some (Ok p), with_role t (Blocking p) (run_state b) b)).
Definition every_run (s : Runs) : option (Runs * Purpose) := (fun s => (s, EveryRun)) <$> block_new_runs s.
Definition runs_of_pair (client : Uuid) (secret : SecretId) (s : Runs) : option (Runs * Purpose) :=
  (fun sm => (sm.1, RunsOfPair client secret sm.2)) <$> block_for_revoke client secret s.
Definition runs_of_client (client : Uuid) (s : Runs) : option (Runs * Purpose) :=
  (fun s => (s, RunsOfClient client)) <$> block_for_client_revoke client s.
Definition drop_run_block (t : nat) : Worker unit :=
  critical None (fun b => (Ok tt, without_role t (drop_block (run_state b)) b)).
Definition with_block {A} (t : nat) (begin : Runs -> option (Runs * Purpose)) (body : Worker A) : Worker A :=
  start_block t begin;;
  r ← catch body;
  drop_run_block t;;
  worker_lift r.
Definition cancel_active_run : Worker unit :=
  critical None (fun b => (Ok tt, set_runs (cancel_active (run_state b)) b)).

(** ** The turns of the user interface *)
Definition with_ui_role (t : nat) (r : UiRole) (u : UiLocks) (b : Broker) : Broker :=
  set_ui {| locks := u; ui_roles := <[t := r]> (ui_roles (ui b)) |} b.
Definition without_ui_role (t : nat) (u : UiLocks) (b : Broker) : Broker :=
  set_ui {| locks := u; ui_roles := delete t (ui_roles (ui b)) |} b.
Definition set_unlocks (r : UnlockRequests) (b : Broker) : Broker :=
  set_ui {| locks := set_unlock_requests r (locks (ui b)); ui_roles := ui_roles (ui b) |} b.

(** [UiLockCoordinator::begin_request] and [finish_request]. *)
Definition begin_lock_request (t : nat) : Worker Z :=
  await None (fun b =>
    match begin_request (locks (ui b)) with
    | None => (None, b)
    | Some (Ok (request_id, u)) => (Some (Ok request_id), with_ui_role t (Locks request_id) u b)
    | Some (Err e) => (Some (Err e), b)
    end).
Definition finish_lock_request (t : nat) (request_id : Z) : Worker unit :=
  critical None (fun b =>
    match finish_announce request_id (locks (ui b)) with
    | Ok u => (Ok tt, with_ui_role t (Announced request_id) u b)
    | Err e => (Err e, b)
    end);;
  await None (fun b =>
    match finish_wait request_id (locks (ui b)) with
    | None => (None, b)
    | Some answer => (Some answer, without_ui_role t (locks (ui b)) b)
    end).

(** A [UiLocalOperation] for the time of [body]; [turned_away] is the answer when an
    external lock has the turn. *)
Definition drop_local (t : nat) : Worker unit :=
  critical None (fun b => (Ok tt, without_ui_role t (drop_local_operation (locks (ui b))) b)).
Definition take_local (t : nat) (u : option UiLocks) (b : Broker) : bool * Broker :=
  match u with Some u => (true, with_ui_role t Local u b) | None => (false, b) end.
Definition try_local (t : nat) : Worker bool :=
  critical None (fun b =>
    match try_begin_local_operation (locks (ui b)) with
    | Ok u => let '(taken, b) := take_local t u b in (Ok taken, b)
    | Err e => (Err e, b)
    end).
Definition wait_local (t : nat) : Worker bool :=
  await None (fun b =>
    match wait_begin_local_operation (locks (ui b)) with
    | None => (None, b)
    | Some (Ok u) => let '(taken, b) := take_local t u b in (Some (Ok taken), b)
    | Some (Err e) => (Some (Err e), b)
    end).
Definition with_local {A} (t : nat) (take : Worker bool) (turned_away : Worker A) (body : Worker A) : Worker A :=
  if has_ui then
    taken ← take;
    if (taken : bool) then r ← catch body; drop_local t;; worker_lift r
    else turned_away
  else body.

(** ** Locking *)

(** [if first_error.is_none() { first_error = .. }]. *)
Definition keep_first {A} (first_error : option LadonError) (r : LResult A) : option LadonError :=
  match first_error, r with
  | Some e, _ => Some e
  | None, Err e => Some e
  | None, Ok _ => None
  end.

(** [lock_controller_and_runs]; [ui_locks] is whether it is given the locks of the user
    interface. *)
Definition lock_controller : Worker unit :=
  critical None (fun b => (Ok tt, set_controller (Controller.lock (broker_controller b)) b)).
Definition lock_controller_and_runs (t : nat) (ui_locks : bool) : Worker unit :=
  ui_request ← (if ui_locks then Some <$> catch (begin_lock_request t) else mret None);
  let first_error := match ui_request with Some r => keep_first None r | None => None end in
  cancelled ← catch (coordinate (fun _ => cancel_pending));
  let first_error := keep_first first_error cancelled in
  revoked ← catch (coordinate (fun _ => revoke_all));
  let first_error := keep_first first_error revoked in
  start_block t every_run;;
  lock_controller;;
  reset ← catch (coordinate (fun _ => reset_after_vault_lock));
  let first_error := keep_first first_error reset in
  first_error ← match ui_request with
                | Some (Ok request_id) => keep_first first_error <$> catch (finish_lock_request t request_id)
                | _ => mret first_error
                end;
  drop_run_block t;;
  match first_error with None => mret tt | Some e => worker_err e end.

(** ** Waiting for the user to unlock *)

(** [await_local_unlock], with the identifier that [UnlockRequests::wait] draws. *)
Definition shut_or_blocked : Worker bool :=
  shut ← look shutting_down;
  if (shut : bool) then mret true else look (fun b => unlock_blocked (locks (ui b))).
Definition require_open : Worker unit :=
  blocked ← shut_or_blocked;
  if (blocked : bool) then worker_err ApprovalCancelled else mret tt.
Definition unlock_wait (token : Token) (fresh : Uuid) (epoch : Z) (label purpose : string) : Worker unit :=
  deadline ← look (fun b => now b + DEFAULT_APPROVAL_TIMEOUT);
  critical None (fun b =>
    match wait_begin epoch fresh label purpose (unlock_requests (locks (ui b))) with
    | Ok r => (Ok tt, set_unlocks r b)
    | Err e => (Err e, b)
    end);;
  blocked ← shut_or_blocked;
  (if (blocked : bool) then
     critical None (fun b => (Ok tt, set_unlocks (cancel_unlock (unlock_requests (locks (ui b)))) b))
   else mret tt);;
  await None (fun b =>
    let '(answer, r) := wait_poll (bool_decide (token ∈ flags b)) (deadline <=? now b) (unlock_requests (locks (ui b))) in
    (answer, set_unlocks r b)).
Definition await_local_unlock (token : Token) (fresh : Uuid) (client : Uuid) (label purpose : string) : Worker unit :=
  unattended ← coordinate (fun c => Approval.has_unattended c client);
  already ← (if (unattended : bool) then look (fun b => bool_decide (phase_of b = PhaseUnlocked)) else mret false);
  if (already : bool) then mret tt
  else if negb has_ui then coordinate (fun c => require_client_access c client)
  else
    epoch ← look (fun b => epoch (unlock_requests (locks (ui b))));
    state ← coordinate (fun _ => app_access_state);
    open ← (if bool_decide (state = Active) then look (fun b => bool_decide (phase_of b = PhaseUnlocked)) else mret false);
    if (open : bool) then mret tt
    else
      require_open;;
      unlock_wait token fresh epoch label purpose;;
      require_open;;
      coordinate (fun _ => require_app_active);;
      require_that (fun b => bool_decide (phase_of b = PhaseUnlocked)) VaultLocked.

(** ** Runs *)

(** [authorize_with_wake]: the request, and the wait for the decision on it. *)
Definition authorize (token : Token) (r : PendingApproval) : Worker GrantTicket :=
  '(begun, deadline) ← critical (Some (OpAuthorize ∅ r)) (fun b =>
    let '(answer, s) := authorize_begin (flags b) r (approval b) in
    ((fun a => (a, now b + DEFAULT_APPROVAL_TIMEOUT)) <$> answer, set_approval s b));
  match begun with
  | Allowed ticket => mret ticket
  | Approval.Waiting id ticket =>
    await None (fun b =>
      let '(answer, s) := authorize_poll (flags b) (flags b) token (deadline <=? now b) id ticket (approval b) in
      (match answer with Ok None => None | Ok (Some ticket) => Some (Ok ticket) | Err e => Some (Err e) end,
       set_approval s b))
  end.

(** [with_valid_grant], with an operation that locks more while the mutex is held. *)
Definition with_grant {A} (ticket : GrantTicket) (operation : Broker -> LResult A * Broker) : Worker A :=
  critical None (fun b =>
    let '(valid, s) := with_valid_grant (flags b) ticket (Ok tt) (approval b) in
    let b := set_approval s b in
    match valid with Ok _ => operation b | Err e => (Err e, b) end).

(** [RunLease::set_secret_context] and [RunLease::spawn_child]; [spawn] is the answer of
    [Command::spawn]. *)
Definition set_context (ids : list SecretId) : Worker unit :=
  critical None (fun b =>
    match set_secret_context ids (run_state b) with Ok s => (Ok tt, set_runs s b) | Err e => (Err e, b) end).
Definition spawn_section (t : nat) (run : PreparedRun) (spawn : LResult Z) (b : Broker) : LResult Z * Broker :=
  match spawn_child spawn (run_state b) with
  | Ok (pid, s) => (Ok pid, add_launched t run (set_runs s b))
  | Err e => (Err e, b)
  end.

(** [Supervisor::run_guarded]: what the closures are given, and the answer of the spawn. *)
Definition spawned (l : log) : LResult Z := map_err ProcessFailure (ask _ Spawn l).
Definition run_guarded (v : ValidatedRunRequest)
    (resolve_values : list ValidatedSecretBinding -> Worker (list ResolvedSecretBinding))
    (launch : PreparedRun -> LResult Z -> Worker Z) : Worker Supervisor.RunResult :=
  critical None (fun b =>
    match acquire_running (supervisor_running b) with
    | Ok r => (Ok tt, set_supervisor r b)
    | Err e => (Err e, b)
    end);;
  answer ← catch (
    '(_, l) ← os_worker (validate_filesystem ask v) [];
    values ← resolve_values (run_bindings v);
    run ← worker_lift (Runner.resolve v values);
    '(p, l) ← os_worker (prepare_command ask euid temp_dir var_os run) l;
    pid ← catch (launch run (spawned l));
    match pid with
    | Err e => os_worker (drop_directory ask (temporary_directory (prepared_injection p))) l;; worker_err e
    | Ok pid => fst <$> os_worker (supervise ask run p pid) (Event Spawn (ask _ Spawn l) :: l)
    end);
  critical None (fun b => (Ok tt, set_supervisor false b));;
  worker_lift answer.

Definition record_activity : Worker unit :=
  critical None (fun b => (Ok tt, set_controller (record_secret_activity (broker_controller b)) b)).
Definition with_controller {A} (f : VaultController -> LResult A * VaultController) (b : Broker) : LResult A * Broker :=
  let '(answer, c) := f (broker_controller b) in (answer, set_controller c b).

(** A run with bindings, and a run without. *)
Definition run_with_secrets (t : nat) (token : Token) (fresh : Uuid) (client : Uuid) (label : string)
    (v : ValidatedRunRequest) : Worker RpcResult :=
  plan ← critical None (fun b => (approval_plan (run_bindings v) (broker_controller b), b));
  set_context (binding_ids plan);;
  ticket ← authorize token {|
    approval_id := fresh; approval_vault := plan_vault plan; approval_client := client; approval_label := label;
    approval_secrets := plan_secrets plan; approval_executable := run_executable v;
    approval_arguments := run_arguments v; approval_directory := run_working_directory v |};
  result ← catch (run_guarded v
    (fun bindings => with_grant ticket (with_controller (resolve_bindings_for_ids bindings (binding_ids plan))))
    (fun run spawn => with_grant ticket (spawn_section t run spawn)));
  record_activity;;
  run_result <$> worker_lift result.
Definition run_without_secrets (t : nat) (client : Uuid) (v : ValidatedRunRequest) : Worker RpcResult :=
  set_context [];;
  result ← catch (run_guarded v
    (fun bindings => critical None (with_controller (resolve_bindings bindings)))
    (fun run spawn =>
       coordinate (fun c => require_client_access c client);;
       critical None (spawn_section t run spawn)));
  record_activity;;
  run_result <$> worker_lift result.

(** ** Requests *)

(** The identifiers that are drawn for a request: of its approval, of its unlock request
    and of its connection. *)
Record Fresh := { fresh_approval : Uuid; fresh_unlock : Uuid; fresh_connection : Uuid }.

Definition not_shutting_down : Worker unit := require_that (fun b => negb (shutting_down b)) EndpointUnavailable.

(** [RpcMethod::Run], and the secrets that [RpcMethod::List] may show in a locked app. *)
Definition handle_run (t : nat) (token : Token) (fresh : Fresh) (client : Uuid) (label : string) (r : RunRequest) :
    Worker RpcResult :=
  not_shutting_down;;
  v ← worker_lift (validate_run_request r Cli);
  await_local_unlock token (fresh_unlock fresh) client label "Run a command (review follows unlock)";;
  with_lease t token client (
    coordinate (fun c => require_client_access c client);;
    coordinate (fun _ => observe_run client (run_working_directory v) (run_executable v));;
    not_shutting_down;;
    if is_empty (run_bindings v) then run_without_secrets t client v
    else run_with_secrets t token (fresh_approval fresh) client label v).
Definition unattended_ids (client : Uuid) (l : list ActiveGrantSnapshot) : list SecretId :=
  snapshot_secret <$> List.filter (fun g => bool_decide (snapshot_client g = client) && snapshot_unattended g) l.

(** [AgentBroker::handle_method] and [handle]. *)
Definition handle_method (t : nat) (token : Token) (fresh : Fresh) (client : Uuid) (label : string) (m : RpcMethod) :
    Worker RpcResult :=
  observation ← catch (coordinate (fun c => observe_client c client label));
  (match m with Lock => mret tt | _ => worker_lift observation end);;
  match m with
  | SessionOpen =>
    coordinate (fun c => register_client_session c (fresh_connection fresh) client token);;
    coordinate (fun c => observe_client c client label);;
    mret SessionOpened
  | Status =>
    state ← coordinate (fun _ => app_access_state);
    if negb (bool_decide (state = Active)) then mret (StatusResult "locked" None)
    else look (fun b => StatusResult (phase_name (phase_of b))
                          (duration_millis <$> remaining_unlocked (now b) (broker_controller b)))
  | ListSecrets =>
    await_local_unlock token (fresh_unlock fresh) client label "List secret names";;
    coordinate (fun c => require_client_access c client);;
    state ← coordinate (fun _ => app_access_state);
    authorized ← (if bool_decide (state = Active) then mret None
                  else (fun l => Some (unattended_ids client l)) <$> coordinate active_grants);
    critical None (fun b => (list_answer authorized (broker_controller b), b))
  | Lock => lock_controller_and_runs t has_ui;; mret Protocol.Locked
  | Run executable arguments working_directory bindings timeout_ms output_limit_bytes =>
    handle_run t token fresh client label {|
      executable := executable; arguments := arguments; working_directory := working_directory;
      bindings := bindings; timeout_ms := timeout_ms; output_limit_bytes := output_limit_bytes |}
  end.
Definition handle (t : nat) (token : Token) (fresh : Fresh) (r : RpcRequest) : prog RpcResponse :=
  prog_bind (handle_method t token fresh (client_session_id r) (client_label r) (method r)) (fun answer =>
    Answer match answer with
           | Ok result => response_success (request_id r) result
           | Err e => response_error (request_id r) e
           end).
End broker.
