(* ===== verification/BrokerThreads.v ===== *)
(** * BrokerThreads: what the other threads of the broker may do

    The environment of a worker of [crates/ladon-app/src/agent_broker.rs], and
    the rules for its critical sections: which of them a role of the run
    coordinator, the approvals and the open vault survive. *)

From S2P Require Import Prelude Errors Time Utf8 Text Model Cbor CborReference Codec Crypto Vault Store Redact Json.
From S2P Require Import Protocol Runner Paths Calls Os ProcessTree RunFiles Supervisor Grants Approval.
From S2P Require Import ApprovalInvariant Runs UnlockRequests UiLocks Editor Controller Workers AgentBroker.
Local Open Scope Z_scope.

(** The operations among the labels of a trace. *)
Definition history {S} (tr : list (option approval_op * S)) : list approval_op := omap fst tr.
Lemma history_app {S} (tr tr' : list (option approval_op * S)) : history (tr ++ tr') = history tr ++ history tr'.
Proof. unfold history. apply omap_app. Qed.

(** Assertions on the trace that stay true. *)
Class Grows {L S} (F : list (L * S) -> Prop) : Prop := grows_app before x : F before -> F (before ++ [x]).

(** A state with [Q] was visited, and afterwards one with [R]. *)
Definition visited {L S} (Q : S -> Prop) (tr : list (L * S)) : Prop := exists x, x ∈ tr /\ Q x.2.
Definition visited_then {L S} (Q R : S -> Prop) (tr : list (L * S)) : Prop :=
  exists tr1 x tr2, tr = tr1 ++ x :: tr2 /\ visited Q tr1 /\ R x.2.
#[export] Instance visited_grows {L S} (Q : S -> Prop) : Grows (L := L) (visited Q).
Proof. intros before x (y & Hy & HQ). exists y. rewrite elem_of_app. auto. Qed.
#[export] Instance visited_then_grows {L S} (Q R : S -> Prop) : Grows (L := L) (visited_then Q R).
Proof.
  intros before x (tr1 & y & tr2 & -> & H1 & H2). exists tr1, y, (tr2 ++ [x]). by rewrite <- app_assoc.
Qed.
#[export] Instance and_grows {L S} (F G : list (L * S) -> Prop) : Grows F -> Grows G -> Grows (fun tr => F tr /\ G tr).
Proof. intros HF HG before x [? ?]. split; by apply grows_app. Qed.
#[export] Instance impl_grows {L S} (P : Prop) (F : list (L * S) -> Prop) : Grows F -> Grows (fun tr => P -> F tr).
Proof. intros HF before x HP p. by apply grows_app, HP. Qed.
#[export] Instance pure_grows {L S} (P : Prop) : Grows (fun _ : list (L * S) => P).
Proof. by intros before x. Qed.
Lemma visited_last {L S} (Q : S -> Prop) (before : list (L * S)) x : Q x.2 -> visited Q (before ++ [x]).
Proof. intros HQ. exists x. rewrite elem_of_app, list_elem_of_singleton. auto. Qed.
Lemma visited_then_last {L S} (Q R : S -> Prop) (before : list (L * S)) x :
  visited Q before -> R x.2 -> visited_then Q R (before ++ [x]).
Proof. intros HQ HR. by exists before, x, []. Qed.

Section threads.
Context {C : Type} `{MonotonicClock C}.
Context `{TextCratesLaws, RedactCrates}.
Abbreviation Broker := (Broker C).
Abbreviation Label := (option approval_op).
Abbreviation Trace := (list (Label * Broker)) (only parsing).

(** The identifiers of an open vault can be printed and parsed. *)
Definition vault_ok (c : VaultController) : Prop :=
  match managed c with ManagedUnlocked s => ids_wf s | _ => True end.

(** A step of another thread than [t], and the passing of time. *)
Inductive others (t : nat) : Label -> Broker -> Broker -> Prop :=
| others_approval o b : others t (Some o) b (set_approval (exec (approval b) o) b)
| others_runs b w : Runs.step (threads b) w -> roles w !! t = roles (threads b) !! t -> others t None b (set_threads w b)
| others_ui b w : ui_step (ui b) w -> ui_roles w !! t = ui_roles (ui b) !! t -> others t None b (set_ui w b)
| others_controller b c : vault_ok c -> others t None b (set_controller c b)
| others_supervisor b r : others t None b (set_supervisor r b)
| others_shut_down b n : now b <= n -> others t None b {|
    approval := approval b; threads := threads b; ui := ui b; broker_controller := broker_controller b;
    shutting_down := true; supervisor_running := supervisor_running b; now := n; launched := launched b |}
| others_time b n : now b <= n -> others t None b {|
    approval := approval b; threads := threads b; ui := ui b; broker_controller := broker_controller b;
    shutting_down := shutting_down b; supervisor_running := supervisor_running b; now := n; launched := launched b |}
| others_launched b t' run : t' <> t -> others t None b (add_launched t' run b).

(** ** The role of a thread *)
Section role.
Context (t : nat).
#[local] Abbreviation Kept := (Kept (others t)).
#[local] Abbreviation hoare := (hoare (others t)).

Definition holding (r : option Role) (F : Trace -> Prop) (before : Trace) (s : Broker) : Prop :=
  exclusive (threads s) /\ roles (threads s) !! t = r /\ F before.
#[export] Instance holding_kept r F : Grows F -> Kept (holding r F).
Proof.
  intros HF before l s s' (He & Hr & Hb) Ho. split_and!; [..|by apply HF].
  - destruct Ho; try done. by eapply exclusive_step.
  - destruct Ho; try done. cbn. congruence.
Qed.
Lemma holding_mono r (F G : Trace -> Prop) before s :
  (F before -> G before) -> holding r F before s -> holding r G before s.
Proof. intros HFG (He & Hr & Hb). split_and!; auto. Qed.
Lemma holding_next r (F G : Trace -> Prop) before l s s' :
  holding r F before s -> threads s' = threads s -> (F before -> G (before ++ [(l, s')])) ->
  holding r G (before ++ [(l, s')]) s'.
Proof. intros (He & Hr & Hb) Ht HG. unfold holding. rewrite Ht. auto. Qed.

(** A block of the runs that [begin] says, for a purpose with [R]. *)
Definition begins (begin : Runs -> option (Runs * Purpose)) (R : Purpose -> Prop) : Prop :=
  forall s s' p, begin s = Some (s', p) -> begin_block p s = Some s' /\ R p.
Lemma every_run_begins : begins every_run (fun p => p = EveryRun).
Proof. intros s s' p Hb. unfold every_run in Hb. by apply fmap_Some in Hb as (x & Hx & [= -> ->]). Qed.
Lemma runs_of_pair_begins client secret :
  begins (runs_of_pair client secret) (fun p => exists m, p = RunsOfPair client secret m).
Proof.
  intros s s' p Hb. unfold runs_of_pair in Hb. apply fmap_Some in Hb as ([x m] & Hx & [= -> ->]). cbn.
  rewrite Hx. cbn. rewrite bool_decide_eq_true_2 by done. eauto.
Qed.
Lemma runs_of_client_begins client : begins (runs_of_client client) (fun p => p = RunsOfClient client).
Proof. intros s s' p Hb. unfold runs_of_client in Hb. by apply fmap_Some in Hb as (x & Hx & [= -> ->]). Qed.

Lemma start_block_hoare begin R F :
  Grows F -> begins begin R ->
  hoare (holding None F) (start_block t begin) (fun p => holding (Some (Blocking p)) (fun tr => R p /\ F tr))
    (fun _ _ _ => False).
Proof.
  intros HF Hb. unfold start_block.
  eapply (hoare_bind _ _ _ _ (fun p => holding (Some (Waiting p)) (fun tr => R p /\ F tr))); [apply _| |].
  - apply hoare_await; [apply _..|].
    intros before s (He & Hr & Hf). destruct (begin (run_state s)) as [[s' p]|] eqn:Hs; cbn;
      [|by split_and!; [..|apply HF]].
    destruct (Hb _ _ _ Hs) as [Hbegin HR].
    unfold holding; cbn. split_and!; [|by rewrite lookup_insert_eq|done|by apply HF].
    eapply exclusive_step; [|exact He]. by apply step_begin_block.
  - intros p. apply hoare_await; [apply _..|]. intros before s (He & Hr & HR & Hf).
    destruct (waits p (run_state s)) eqn:Hw; cbn; [by split_and!; [..|apply HF]|].
    unfold holding; cbn. split_and!; [|by rewrite lookup_insert_eq|done|by apply HF].
    eapply exclusive_step; [|exact He]. by eapply step_blocked.
Qed.

Lemma drop_block_hoare p F E :
  Grows F -> (forall e, Kept (E e)) ->
  hoare (holding (Some (Blocking p)) F) (drop_run_block t) (fun _ => holding None F) E.
Proof.
  intros HF HE. apply hoare_critical; [apply _..|done|]. intros before s (He & Hr & Hf). unfold holding. cbn.
  split_and!; [|by rewrite lookup_delete_eq|by apply HF]. eapply exclusive_step; [|exact He]. by eapply step_release.
Qed.

(** Sections that leave the run coordinator alone. *)
Lemma holding_await {A} r F (Q : A -> Trace -> Prop) (E : LadonError -> Trace -> Prop) (l : Label) f :
  Grows F -> (forall a, Grows (Q a)) -> (forall e, Grows (E e)) ->
  (forall b, threads (f b).2 = threads b) ->
  (forall before b, F before ->
     match (f b).1 with Some (Ok a) => Q a | Some (Err e) => E e | None => F end (before ++ [(l, (f b).2)])) ->
  hoare (holding r F) (await l f) (fun a => holding r (Q a)) (fun e => holding r (E e)).
Proof.
  intros HF HQ HE Ht Hf. apply hoare_await; [apply _..|]. intros before b Hb.
  specialize (Hf before b). specialize (Ht b). destruct (f b) as [[[a|e]|] b']; cbn in *; by eapply holding_next.
Qed.
Lemma holding_section {A} r F (Q : A -> Trace -> Prop) (E : LadonError -> Trace -> Prop) (l : Label) f :
  Grows F -> (forall a, Grows (Q a)) -> (forall e, Grows (E e)) ->
  (forall b, threads (f b).2 = threads b) ->
  (forall before b, F before -> match (f b).1 with Ok a => Q a | Err e => E e end (before ++ [(l, (f b).2)])) ->
  hoare (holding r F) (critical l f) (fun a => holding r (Q a)) (fun e => holding r (E e)).
Proof.
  intros HF HQ HE Ht Hf. apply holding_await; [done..| |]; intros *; [specialize (Ht b)|specialize (Hf before b)];
    by destruct (f b).
Qed.

(** An operation on the approvals, whatever it answers. *)
Lemma coordinate_hoare {A} r F (m : gset Token -> @M C A) :
  Grows F -> hoare (holding r F) (coordinate m) (fun _ => holding r F) (fun _ => holding r F).
Proof.
  intros HF. apply holding_section; [apply _..| |]; [intros b; by destruct (m _ _)|].
  intros before b Hb. destruct (m _ _) as [[]]; by apply grows_app.
Qed.
Lemma coordinate_catch_hoare {A} r F (m : gset Token -> @M C A) E :
  Grows F -> hoare (holding r F) (catch (coordinate m)) (fun _ => holding r F) E.
Proof.
  intros HF. eapply hoare_catch; [apply _|by apply coordinate_hoare|]. by intros [].
Qed.

(** A worker under a block. *)
Lemma with_block_hoare {A} begin R F (body : Worker A) (Q : A -> Trace -> Prop) :
  Grows F -> (forall a, Grows (Q a)) -> begins begin R ->
  (forall p, R p -> hoare (holding (Some (Blocking p)) F) body (fun a => holding (Some (Blocking p)) (Q a))
                      (fun _ => holding (Some (Blocking p)) F)) ->
  hoare (holding None F) (with_block t begin body) (fun a => holding None (Q a)) (fun _ => holding None F).
Proof.
  intros HF HQ HR Hbody. unfold with_block. eapply hoare_bind; [apply _| |intros p].
  { eapply hoare_mono; [by apply (start_block_hoare begin R F)|done|done|by intros ? ? ? []]. }
  apply (hoare_mono _ _ (fun before s => holding (Some (Blocking p)) F before s /\ R p) _ _ (fun a => holding None (Q a)) _
    (fun _ => holding None F)); [|by intros ? ? (? & ? & ? & ?)|done|done].
  apply hoare_pure. intros HRp.
  set (post := fun r : LResult A => match r with Ok a => Q a | Err _ => F end).
  assert (Hpost : forall r, Grows (post r)) by (intros []; apply _).
  eapply (hoare_bind _ _ _ _ (fun r => holding (Some (Blocking p)) (post r))); [apply _| |intros r].
  { eapply hoare_catch; [apply _|by apply Hbody|]. by intros [] before b. }
  eapply hoare_bind; [apply _|apply drop_block_hoare; apply _|intros []].
  apply hoare_answer; [destruct r; apply _|]. by destruct r.
Qed.

(** A worker with the turn of the user interface, if there is one. *)
Lemma with_local_hoare {A} has_ui r F (take : Worker bool) (turned_away body : Worker A) (Q : A -> Trace -> Prop) :
  Grows F -> (forall a, Grows (Q a)) ->
  hoare (holding r F) take (fun _ => holding r F) (fun _ => holding r F) ->
  hoare (holding r F) turned_away (fun a => holding r (Q a)) (fun _ => holding r F) ->
  hoare (holding r F) body (fun a => holding r (Q a)) (fun _ => holding r F) ->
  hoare (holding r F) (with_local has_ui t take turned_away body) (fun a => holding r (Q a)) (fun _ => holding r F).
Proof.
  intros HF HQ Htake Haway Hbody. unfold with_local. destruct has_ui; [|done].
  eapply hoare_bind; [apply _|exact Htake|intros []; [|done]].
  set (post := fun a : LResult A => match a with Ok a => Q a | Err _ => F end).
  assert (Hpost : forall a, Grows (post a)) by (intros []; apply _).
  eapply (hoare_bind _ _ _ _ (fun a => holding r (post a))); [apply _| |intros a].
  { eapply hoare_catch; [apply _|exact Hbody|]. by intros [] before b. }
  eapply (hoare_bind _ _ _ _ (fun _ => holding r (post a))); [apply _| |intros []].
  { apply holding_section; [apply _..|done|]. intros before b Hb. cbn. by apply grows_app. }
  apply hoare_answer; [destruct a; apply _|]. by destruct a.
Qed.
Lemma try_local_hoare r F :
  Grows F -> hoare (holding r F) (try_local t) (fun _ => holding r F) (fun _ => holding r F).
Proof.
  intros HF. apply holding_section; [apply _..| |]; intros *;
    destruct (try_begin_local_operation _) as [[]|]; try done; intros Hb; by apply grows_app.
Qed.
End role.
End threads.
