(* ===== verification/BrokerLock.v ===== *)
(** * BrokerLock: the hard lock of [crates/ladon-app/src/agent_broker.rs]

    [lock_controller_and_runs] among the other threads: whatever fails on the
    way, no run is left when the vault is locked. *)

From S2P Require Import Prelude Errors Time Utf8 Text Model Cbor CborReference Codec Crypto Vault Store Redact Json.
From S2P Require Import Protocol Runner Paths Calls Os ProcessTree RunFiles Supervisor Grants Approval.
From S2P Require Import ApprovalInvariant Runs UnlockRequests UiLocks Editor Controller Workers AgentBroker.
From S2P Require Import BrokerThreads.
Local Open Scope Z_scope.

Section lock.
Context {C : Type} `{MonotonicClock C}.
Context `{TextCratesLaws, RedactCrates}.
Abbreviation Broker := (Broker C).
Context (t : nat).
#[local] Abbreviation Kept := (Kept (others t)).
#[local] Abbreviation hoare := (hoare (others t)).
#[local] Abbreviation Errors := (LadonError -> list (option approval_op * Broker) -> Broker -> Prop).
#[local] Abbreviation Worker := (@Worker Broker (option approval_op)).

(** The vault is locked, no run is left, and none starts while [t] holds its block. *)
Definition vault_locked (c : VaultController) : Prop :=
  (managed c = ManagedLocked \/ managed c = ManagedFirstRun) /\ session_id c = None.
Definition quiesced (b : Broker) : Prop :=
  vault_locked (broker_controller b) /\ running_run (run_state b) = None /\
  roles (threads b) !! t = Some (Blocking EveryRun).

(** Nothing is granted, and nothing waits to be. *)
Definition access_reset (b : Broker) : Prop :=
  deadlines (grants (approval b)) = ∅ /\ pending_cancelled (approval b) /\ vault_session_id (approval b) = None.

(** The lock that the user interface was asked for, and its acknowledgement. *)
Definition lock_requested (request_id : Z) (b : Broker) : Prop := requested (ui_state (locks (ui b))) = request_id.
Definition lock_acknowledged (request_id : Z) (b : Broker) : Prop :=
  request_id <= acknowledged (ui_state (locks (ui b))).

Lemma reset_wp (s : ApprovalState C) :
  wp reset_after_vault_lock (fun _ s => deadlines (grants s) = ∅ /\ pending_cancelled s /\ vault_session_id s = None)
    (fun _ => True) s.
Proof.
  unfold reset_after_vault_lock, cancel_pending_state. apply wp_bind, wp_get, wp_bind, wp_lift; [intros epoch _|done].
  apply wp_bind, wp_modify, wp_bind, wp_modify, wp_bind, wp_modify, wp_bind, wp_modify, wp_modify.
  cbn. split_and!; [done| |done]. apply decided_cancelled.
Qed.

Lemma lock_locks c : vault_locked (lock c).
Proof. unfold lock, vault_locked. cbn. destruct (managed c); auto. Qed.

(** ** The steps *)
Lemma begin_lock_hoare F :
  Grows F ->
  hoare (holding t None F) (begin_lock_request t)
    (fun id => holding t None (fun tr => F tr /\ visited (lock_requested id) tr)) (fun _ => holding t None F).
Proof.
  intros HF. apply holding_await; [apply _..| |]; intros *.
  - by destruct (begin_request _) as [[[]|]|].
  - intros Hb. destruct (begin_request _) as [[[id u]|]|] eqn:Hr; try by apply grows_app.
    split; [by apply grows_app|]. apply visited_last. cbn. unfold lock_requested. cbn.
    unfold begin_request in Hr. destruct (_ && _); [done|]. injection Hr as Hr.
    destruct (negb _); [done|]. apply bind_Ok in Hr as (n & _ & [= -> <-]). done.
Qed.

Lemma finish_lock_hoare r F id :
  Grows F ->
  hoare (holding t r (fun tr => F tr /\ visited (lock_requested id) tr)) (finish_lock_request t id)
    (fun _ => holding t r (fun tr => F tr /\ visited_then (lock_requested id) (lock_acknowledged id) tr))
    (fun _ => holding t r F).
Proof.
  intros HF. eapply hoare_bind; [apply _| |].
  - apply (holding_section _ _ _ (fun _ tr => F tr /\ visited (lock_requested id) tr)); [apply _..| |]; intros *.
    + by destruct (finish_announce _ _).
    + intros [Hb Hv]. destruct (finish_announce _ _); split_and?; by apply grows_app.
  - intros []. apply holding_await; [apply _..| |]; intros *.
    + by destruct (finish_wait _ _).
    + intros [Hb Hv]. destruct (finish_wait _ _) as [[[]|]|] eqn:Hw; [| |split]; try by apply grows_app.
      split; [by apply grows_app|]. apply visited_then_last; [done|]. unfold finish_wait in Hw.
      destruct (_ && _); [done|]. destruct (Z.leb_spec id (acknowledged (ui_state (locks (ui b))))); [done|discriminate].
Qed.

Lemma lock_controller_hoare F :
  Grows F ->
  hoare (holding t (Some (Blocking EveryRun)) F) lock_controller
    (fun _ => holding t (Some (Blocking EveryRun)) (fun tr => F tr /\ visited quiesced tr)) (fun _ _ _ => False).
Proof.
  intros HF. apply hoare_critical; [apply _..|]. intros before s (He & Hr & Hb). cbn.
  split_and!; [done..|by apply grows_app|]. apply visited_last. cbn. split_and!; [apply lock_locks|cbn|done].
  destruct (running_run (Runs.runs (threads s))) as [a|] eqn:Ha; [|done].
  by pose proof (all_guarded _ He _ _ _ Hr Ha).
Qed.

Lemma reset_hoare r F :
  Grows F ->
  hoare (holding t r (fun tr => F tr /\ visited quiesced tr)) (coordinate (fun _ => reset_after_vault_lock))
    (fun _ => holding t r (fun tr => F tr /\ visited_then quiesced access_reset tr))
    (fun _ => holding t r (fun tr => F tr /\ visited quiesced tr)).
Proof.
  intros HF. apply holding_section; [apply _..| |]; intros *; [by destruct (reset_after_vault_lock _)|].
  intros [Hb Hv]. pose proof (reset_wp (approval b)) as Hw. unfold wp in Hw.
  destruct (reset_after_vault_lock _) as [[a|e] s]; (split; [by apply grows_app|]); [|by apply grows_app].
  by apply visited_then_last.
Qed.

(** ** The lock *)

(** What is known after the user interface was asked, after the reset and at the end. *)
Definition asked (ui_locks : bool) (r : option (LResult Z)) (tr : list (option approval_op * Broker)) : Prop :=
  (ui_locks = true -> r <> None) /\ forall id, r = Some (Ok id) -> visited (lock_requested id) tr.
Definition done_if (ok : Prop) (ui_locks : bool) (tr : list (option approval_op * Broker)) : Prop :=
  visited quiesced tr /\
  (ok -> visited_then quiesced access_reset tr /\
         (ui_locks = true -> exists id, visited_then (lock_requested id) (lock_acknowledged id) tr)).
#[export] Instance asked_grows ui_locks r : Grows (asked ui_locks r).
Proof. intros tr x [Hu Hv]. split; [done|]. intros id Hid. by apply grows_app, Hv. Qed.
#[export] Instance done_if_grows ok ui_locks : Grows (done_if ok ui_locks).
Proof.
  intros tr x [Hq Hok]. split; [by apply grows_app|]. intros Ho. destruct (Hok Ho) as [Hr Hu].
  split; [by apply grows_app|]. intros Hui. destruct (Hu Hui) as [id Hid]. exists id. by apply grows_app.
Qed.

Lemma keep_first_None {A} e (r : LResult A) : keep_first e r = None <-> e = None /\ is_ok r = true.
Proof. by destruct e, r; naive_solver. Qed.

(** The request to the user interface, if there is one. *)
Lemma ask_hoare (ui_locks : bool) (E : Errors) :
  (forall e, Kept (E e)) ->
  hoare (holding t None (fun _ : list (option approval_op * Broker) => True))
    (if ui_locks then Some <$> catch (begin_lock_request t) else mret None : Worker (option (LResult Z)))
    (fun r => holding t None (asked ui_locks r)) E.
Proof.
  intros HE. destruct ui_locks.
  - eapply (hoare_fmap _ _ _ _ (fun r => holding t None (asked true (Some r)))); [apply _|done| |done].
    eapply hoare_catch; [apply _|apply (begin_lock_hoare (fun _ => True)); apply _|].
    intros [id|e] before b; apply holding_mono; [intros [_ Hv]|intros _]; (split; [done|]); intros id' [= <-].
    done.
  - apply (hoare_answer _ (Ok None)); [apply _|]. intros before b. apply holding_mono. done.
Qed.

(** The vault is locked, and access is reset if nothing failed so far. *)
Definition reset_if (ok : Prop) (ui_locks : bool) (r : option (LResult Z)) (tr : list (option approval_op * Broker)) :
    Prop :=
  asked ui_locks r tr /\ visited quiesced tr /\ (ok -> visited_then quiesced access_reset tr).
#[export] Instance reset_if_grows ok ui_locks r : Grows (reset_if ok ui_locks r).
Proof. unfold reset_if. apply _. Qed.

(** The acknowledgement of the user interface, if it was asked. *)
Lemma finish_hoare r ui_locks request first_error (E : Errors) :
  (forall e, Kept (E e)) -> (first_error = None -> forall e, request <> Some (Err e)) ->
  hoare (holding t r (reset_if (first_error = None) ui_locks request))
    (match request with
     | Some (Ok request_id) => keep_first first_error <$> catch (finish_lock_request t request_id)
     | _ => mret first_error
     end : Worker (option LadonError))
    (fun e => holding t r (done_if (e = None) ui_locks)) E.
Proof.
  intros HE Hr. destruct request as [[id|e]|].
  - eapply (hoare_fmap _ _ _ _ (fun a => holding t r (done_if (keep_first first_error a = None) ui_locks)));
      [apply _|done| |done].
    eapply hoare_catch; [apply _|eapply hoare_mono; [apply (finish_lock_hoare r (reset_if (first_error = None) ui_locks (Some (Ok id))) id)| |done|done]|];
      [apply _|..].
    + intros before b. apply holding_mono. intros Hf. split; [done|]. by apply Hf.
    + intros [[]|e] before b; apply holding_mono; unfold done_if.
      * intros [[[Hu Hv] [Hq Hok]] Hack]. split; [done|]. intros [He _]%keep_first_None. split; [by apply Hok|].
        intros _. by exists id.
      * intros [[Hu Hv] [Hq Hok]]. split; [done|]. intros [_ He]%keep_first_None. done.
  - apply (hoare_answer _ (Ok first_error)); [apply _|]. intros before b. apply holding_mono.
    intros (_ & Hq & _). split; [done|]. intros He. by destruct (Hr He e).
  - apply (hoare_answer _ (Ok first_error)); [apply _|]. intros before b. apply holding_mono.
    intros ([Hu _] & Hq & Hok). split; [done|]. intros He. split; [by apply Hok|]. by intros Hui%Hu.
Qed.

Lemma lock_hoare ui_locks :
  hoare (holding t None (fun _ => True)) (lock_controller_and_runs t ui_locks)
    (fun _ => holding t None (done_if True ui_locks)) (fun _ => holding t None (done_if False ui_locks)).
Proof.
  unfold lock_controller_and_runs.
  eapply hoare_bind; [apply _|apply ask_hoare; apply _|intros request].
  eapply hoare_bind; [apply _|apply coordinate_catch_hoare; apply _|intros cancelled].
  eapply hoare_bind; [apply _|apply coordinate_catch_hoare; apply _|intros revoked].
  eapply hoare_bind; [apply _| |intros p].
  { eapply hoare_mono; [apply (start_block_hoare t _ _ (asked ui_locks request) _ every_run_begins)|done|done|by intros ? ? ? []]. }
  eapply (hoare_bind _ _ _ _ (fun _ => holding t (Some (Blocking EveryRun)) (fun tr => asked ui_locks request tr /\ visited quiesced tr)));
    [apply _| |intros []].
  { eapply hoare_mono; [apply (lock_controller_hoare (asked ui_locks request)); apply _| |done|by intros ? ? ? []].
    intros before b (He & Hr & -> & Hf). done. }
  eapply (hoare_bind _ _ _ _ (fun r => holding t (Some (Blocking EveryRun)) (reset_if (is_ok r = true) ui_locks request)));
    [apply _| |intros reset].
  { eapply hoare_catch; [apply _|apply (reset_hoare _ (asked ui_locks request)); apply _|].
    intros [[]|e] before b; apply holding_mono; intros [Ha Hv]; (split; [done|]); [|done]. split; [|done].
    destruct Hv as (tr1 & x & tr2 & -> & (y & Hy & HQ) & _). exists y. rewrite elem_of_app. auto. }
  eapply hoare_bind; [apply _| |intros first_error].
  { eapply hoare_mono; [apply (finish_hoare (Some (Blocking EveryRun)) ui_locks request _
      (fun _ => holding t None (done_if False ui_locks)))| |done|done].
    - apply _.
    - by intros Hf e ->.
    - intros before b. apply holding_mono. intros (Ha & Hq & Hok). split_and!; [done..|].
      intros [_ Hf]%keep_first_None. by apply Hok. }
  eapply hoare_bind; [apply _|eapply drop_block_hoare; apply _|intros []].
  destruct first_error as [e|].
  - apply (hoare_answer _ (Err e)); [apply _|]. intros before b. apply holding_mono. by intros [Hq _].
  - apply (hoare_answer _ (Ok tt)); [apply _|]. intros before b. apply holding_mono. intros [Hq Hok].
    split; [done|]. intros _. by apply Hok.
Qed.

(** C2. The hard lock always locks: in every execution of [lock_controller_and_runs], with
    any other threads in between and whatever the approvals or the user interface answer,
    the vault is locked at a moment when no run is left and the worker's block lets none
    start; when the lock reports success, every grant is gone and nothing waits for
    approval at a later moment, and the user interface has acknowledged the request. *)
Theorem hard_lock_locks ui_locks b tr answer b' :
  reachable (threads b) -> roles (threads b) !! t = None ->
  executes (others t) (lock_controller_and_runs t ui_locks) b tr answer b' ->
  visited quiesced tr /\ roles (threads b') !! t = None /\
  (answer = Ok tt -> visited_then quiesced access_reset tr /\
     (ui_locks = true -> exists id, visited_then (lock_requested id) (lock_acknowledged id) tr)).
Proof.
  intros He%exclusive_reachable Ht Hr. pose proof (lock_hoare ui_locks [] b tr answer b') as Hl.
  destruct answer as [[]|e]; cbn in Hl; (destruct Hl as (_ & Hn & Hq & Hok); [by split_and!|done|]);
    (split_and!; [done..|]); [|done]. intros _. by apply Hok.
Qed.
End lock.

(** A lock while thread 1 runs a request: the run is cancelled, and its worker ends it. *)
Definition example_broker (w : Threads) : Broker ManualClock := {|
  approval := coordinator_new (example_clock 0 0) DEFAULT_GRANT_LIFETIME;
  threads := w;
  ui := ui_threads_new;
  broker_controller := {| store := store_new ("vault", "vault.bak"); managed := ManagedLocked; session_id := None |};
  shutting_down := false; supervisor_running := false; now := 0; launched := [];
|}.
Lemma example_lock : exists tr b',
  executes (others 2) (lock_controller_and_runs 2 false) (example_broker example_started) tr (Ok tt) b'.
Proof.
  do 2 eexists. unfold lock_controller_and_runs.
  do 3 (eapply executes_own; [reflexivity|]).
  eapply executes_others; [apply others_runs; [by apply (step_finish _ 1 7%nat 3)|reflexivity]|].
  do 4 (eapply executes_own; [reflexivity|]). apply executes_answer.
Qed.
Example hard_lock_locks_witness : exists tr b',
  executes (others 2) (lock_controller_and_runs 2 false) (example_broker example_started) tr (Ok tt) b' /\
  visited_then (quiesced 2) access_reset tr.
Proof.
  destruct example_lock as (tr & b' & Hr). exists tr, b'. split; [exact Hr|].
  eapply (hard_lock_locks 2 false (example_broker example_started) tr (Ok tt) b'); [|reflexivity|exact Hr|reflexivity].
  apply rtc_once, (step_start threads_new 1 7 3); reflexivity.
Defined.
