(* ===== verification/BrokerRuns.v ===== *)
(** * BrokerRuns: the requests of [crates/ladon-app/src/agent_broker.rs]

    A child that the broker launches has the values its user authorised for the
    client and no others, whatever the other threads do in the meantime. *)

From S2P Require Import Prelude Errors Time Utf8 Text Model Cbor CborReference Codec Crypto Vault Store Redact Json.
From S2P Require Import Protocol Runner Paths Calls Os ProcessTree RunFiles Supervisor SupervisorProperties Grants.
From S2P Require Import Approval ApprovalInvariant ApprovalProperties Runs UnlockRequests UiLocks Editor Controller.
From S2P Require Import Workers AgentBroker BrokerThreads.
Local Open Scope Z_scope.

Create HintDb broker.

Section runs.
Context {C : Type} `{MonotonicClock C}.
Context `{TextCratesLaws, RedactCrates}.
Abbreviation Broker := (Broker C).
Abbreviation Label := (option approval_op).
Abbreviation Trace := (list (Label * Broker)) (only parsing).
#[local] Abbreviation Worker := (@Worker Broker Label).
Context (t : nat) (client : Uuid) (h0 : list approval_op).
#[local] Abbreviation Kept := (Kept (others t)).
#[local] Abbreviation hoare := (hoare (others t)).

(** ** The invariant *)

(** The approvals and the open vault, after a history. *)
Definition approvals_ok (h : list approval_op) (s : ApprovalState C) : Prop := justified h s /\ coordinator_ok s.
Definition broker_ok (h : list approval_op) (b : Broker) : Prop :=
  approvals_ok h (approval b) /\ vault_ok (broker_controller b).

(** The client may use the secret: by a grant that has not expired, that the user gave, and
    that is good in the state of the app. *)
Definition may_use (h : list approval_op) (b : Broker) (id : SecretId) : Prop :=
  exists d, deadlines (grants (approval b)) !! (client, id) = Some d /\
    (exists g, grants (approval b) = purge_expired g /\ live g d) /\ authorised h client id /\
    (app_access (approval b) <> Active ->
       is_unattended d = true /\ is_Some (client_sessions (approval b) !! client)).

(** The value of a binding is the field of the secret in the open vault. *)
Definition field_of (p : PreparedBinding) (b : Broker) : Prop :=
  exists session r f, managed (broker_controller b) = ManagedUnlocked session /\ r ∈ session_records session /\
    record_id r = prepared_secret_id p /\ f ∈ record_fields r /\ field_name f = prepared_field p /\
    field_value f = prepared_value p.

(** A child may be launched with the values of a run. *)
Definition launchable (before : Trace) (b : Broker) (run : PreparedRun) : Prop :=
  Forall (fun p => may_use (h0 ++ history before) b (prepared_secret_id p) /\ visited (field_of p) before)
    (prepared_bindings run).
Definition launches (tr : Trace) (b : Broker) : Prop :=
  forall run, (t, run) ∈ launched b ->
    exists tr1 l b1 tr2, tr = tr1 ++ (l, b1) :: tr2 /\ (t, run) ∈ launched b1 /\ launchable tr1 b1 run.

Definition inv (before : Trace) (b : Broker) : Prop := broker_ok (h0 ++ history before) b /\ launches before b.

Lemma approvals_ok_app h l s : approvals_ok h s -> approvals_ok (h ++ history [l : Label * Broker]) s.
Proof.
  intros [Hj Hc]. split; [|done]. destruct l as [[o|] b]; cbn; [by apply justified_app|by rewrite app_nil_r].
Qed.

(** What another step does not touch. *)
Definition harmless (l : Label) (b b' : Broker) : Prop :=
  launched b' = launched b /\ forall h, broker_ok h b -> broker_ok (h ++ history [(l, b')]) b'.

Lemma launches_app before l b b' : launched b' = launched b -> launches before b -> launches (before ++ [(l, b')]) b'.
Proof.
  intros Hl Hb run. rewrite Hl. intros (tr1 & l1 & b1 & tr2 & -> & Hr)%Hb. exists tr1, l1, b1, (tr2 ++ [(l, b')]).
  by rewrite <- app_assoc.
Qed.
Lemma harmless_inv before l b b' : harmless l b b' -> inv before b -> inv (before ++ [(l, b')]) b'.
Proof.
  intros [Hl Hb] [Hok Hla]. split; [|by eapply launches_app]. rewrite history_app, app_assoc. by apply Hb.
Qed.
Lemma harmless_same l b b' :
  launched b' = launched b -> approval b' = approval b -> (vault_ok (broker_controller b) -> vault_ok (broker_controller b')) ->
  harmless l b b'.
Proof. intros Hl Ha Hv. split; [done|]. intros h [Hok ?]. split; [rewrite Ha; by apply approvals_ok_app|auto]. Qed.

#[export] Instance inv_kept : Kept inv.
Proof.
  intros before l b b' Hb Ho. destruct Ho as [o b|b w|b w|b c Hc|b r|b n|b n|b t' run Hne];
    try (eapply harmless_inv; [|exact Hb]; by apply harmless_same).
  - eapply harmless_inv; [|exact Hb]. split; [done|]. intros h [[Hj Hc] Hv]. split; [|done].
    split; [by apply justified_step|by apply coordinator_ok_step].
  - destruct Hb as [[Ha Hv] Hl]. split.
    + split; [|done]. rewrite history_app, app_assoc. by apply approvals_ok_app.
    + intros r. cbn. intros [[= <- _]|Hin]%elem_of_cons; [done|].
      destruct (Hl r Hin) as (tr1 & l1 & b1 & tr2 & -> & Hr). exists tr1, l1, b1, (tr2 ++ [(None, add_launched t' run b)]).
      by rewrite <- app_assoc.
Qed.

(** The invariant with what is known from the trace. *)
Definition knowing (F : Trace -> Prop) (before : Trace) (b : Broker) : Prop := inv before b /\ F before.
#[export] Instance knowing_kept F : Grows F -> Kept (knowing F).
Proof. intros HF before l b b' [Hb Hf] Ho. split; [by eapply inv_kept|by apply HF]. Qed.

(** ** Sections that keep the invariant *)
Lemma sections_knowing F {A} (p : prog A) : Grows F -> sections inv p -> sections (knowing F) p.
Proof.
  intros HF. induction p as [a|l B f rest IH]; [done|]. intros [Hf Hr]. split; [|auto].
  intros before s [Hs HF0]. split; [auto|by apply HF].
Qed.
Lemma knowing_hoare F {A} (m : Worker A) : Grows F -> sections inv m -> hoare (knowing F) m (fun _ => knowing F) (fun _ => inv).
Proof.
  intros HF Hm. eapply hoare_mono; [apply (sections_hoare _ (knowing F)); [apply _|by apply sections_knowing]|done|done|].
  by intros ? ? ? [].
Qed.

Lemma sections_critical {A} l (f : Broker -> LResult A * Broker) :
  (forall b, harmless l b (f b).2) -> sections inv (critical l f : Worker A).
Proof.
  intros Hf. split; [|done]. intros before b Hb. specialize (Hf b). destruct (f b). by eapply harmless_inv.
Qed.
Lemma sections_await {A} l (f : Broker -> option (LResult A) * Broker) :
  (forall b, harmless l b (f b).2) -> sections inv (await l f : Worker A).
Proof. intros Hf. split; [|done]. intros before b Hb. by eapply harmless_inv. Qed.

Lemma sections_coordinate {A} (m : gset Token -> @M C A) :
  (forall h c, keeps (approvals_ok h) (m c)) -> sections inv (coordinate m).
Proof.
  intros Hm. apply sections_critical. intros b. destruct (m (flags b) (approval b)) as [r s] eqn:Hr. cbn.
  split; [done|]. intros h [Ha Hv]. split; [|done]. apply approvals_ok_app. cbn.
  change s with ((r, s).2). rewrite <- Hr. by apply keeps_state.
Qed.
Lemma approvals_stable h : stable (approvals_ok h).
Proof. apply stable_and; [apply justified_stable|apply coordinator_ok_stable]. Qed.
Lemma keeps_both {A} h (m : @M C A) : keeps (justified h) m -> keeps coordinator_ok m -> keeps (approvals_ok h) m.
Proof.
  intros Hj Hc s [Js Cs]. specialize (Hj s Js). specialize (Hc s Cs). unfold wp, approvals_ok in *.
  destruct (m s) as [[]]; auto.
Qed.

(** The operations on the approvals. *)
Lemma approvals_quiet h (m : @M C unit) o : section o = m -> quiet o = true -> keeps (approvals_ok h) m.
Proof. intros <- Ho. apply quiet_keeps; [apply approvals_stable|done]. Qed.
Lemma keeps_cancelled h : keeps (approvals_ok h) cancel_pending.
Proof. by apply (approvals_quiet h _ OpCancelPending). Qed.
Lemma keeps_revoke_all h : keeps (approvals_ok h) revoke_all.
Proof. by apply (approvals_quiet h _ OpRevokeEverything). Qed.
Lemma keeps_reset h : keeps (approvals_ok h) reset_after_vault_lock.
Proof. apply keeps_both; [apply justified_reset|apply ok_reset]. Qed.
Lemma keeps_register h c connection token : keeps (approvals_ok h) (register_client_session c connection client token).
Proof. apply keeps_both; [apply justified_register|apply ok_register]. Qed.
Lemma keeps_poll h c l token timed_out id ticket : keeps (approvals_ok h) (authorize_poll c l token timed_out id ticket).
Proof. apply keeps_both; [apply justified_poll|apply ok_poll]. Qed.
Lemma keeps_observe h c label : keeps (approvals_ok h) (observe_client c client label).
Proof. by apply (approvals_quiet h _ (OpObserve c client label)). Qed.
Lemma keeps_observe_run h project action : keeps (approvals_ok h) (observe_run client project action).
Proof. by apply (approvals_quiet h _ (OpObserveRun client project action)). Qed.
Lemma keeps_access h c : keeps (approvals_ok h) (require_client_access c client).
Proof. by apply (approvals_quiet h _ (OpAccess (Some client) c)). Qed.
Lemma keeps_state_of h : keeps (approvals_ok h) app_access_state.
Proof. unfold app_access_state. pose proof (approvals_stable h). keeps. Qed.
Lemma keeps_app_active h : keeps (approvals_ok h) require_app_active.
Proof. unfold require_app_active. pose proof (approvals_stable h). keeps. Qed.
Lemma keeps_has_unattended h c : keeps (approvals_ok h) (Approval.has_unattended c client).
Proof. unfold Approval.has_unattended. pose proof (approvals_stable h). keeps. Qed.
Lemma keeps_active_grants h c : keeps (approvals_ok h) (active_grants c).
Proof. unfold active_grants. pose proof (approvals_stable h). keeps. Qed.
#[local] Hint Resolve sections_worker_bind sections_fmap sections_catch : broker.
#[local] Hint Resolve keeps_cancelled keeps_revoke_all keeps_reset keeps_register keeps_observe keeps_observe_run
  keeps_access keeps_state_of keeps_app_active keeps_has_unattended keeps_active_grants : broker.

(** A section by the cases of its answer, none of which touches the approvals. *)
Ltac leaf :=
  first [apply sections_critical | apply sections_await]; intros b; repeat case_match; simplify_eq/=;
  by apply harmless_same.
(** A worker by its sections. *)
Ltac worker :=
  repeat first
    [ progress intros
    | done
    | solve [auto 2 with broker]
    | apply sections_worker_bind
    | apply sections_fmap
    | apply sections_catch
    | apply sections_coordinate; auto with broker
    | case_match ].

Lemma sections_look {A} (f : Broker -> A) : sections inv (look f : Worker A).
Proof. leaf. Qed.
Lemma sections_require f e : sections inv (require_that f e : Worker unit).
Proof. leaf. Qed.
Lemma sections_os {A} (m : Os A) l : sections inv (os_worker m l : Worker (A * log)).
Proof. unfold os_worker, outside. destruct (m l) as [[[]|]]; [done..|leaf]. Qed.
Lemma sections_lease {A} token (body : Worker A) : sections inv body -> sections inv (with_lease t token client body).
Proof. intros Hb. unfold with_lease. worker; leaf. Qed.
Lemma sections_start_block begin : sections inv (start_block t begin : Worker Purpose).
Proof. unfold start_block. worker; leaf. Qed.
Lemma sections_drop_block : sections inv (drop_run_block t : Worker unit).
Proof. leaf. Qed.
Lemma sections_record_activity : sections inv (record_activity : Worker unit).
Proof.
  apply sections_critical. intros b. apply harmless_same; [done..|]. cbn. unfold record_secret_activity, vault_ok.
  destruct (managed (broker_controller b)) eqn:Hm; by rewrite ?Hm.
Qed.
Lemma sections_context ids : sections inv (set_context ids : Worker unit).
Proof. leaf. Qed.
Lemma sections_begin_lock : sections inv (begin_lock_request t : Worker Z).
Proof. leaf. Qed.
Lemma sections_finish_lock id : sections inv (finish_lock_request t id : Worker unit).
Proof. unfold finish_lock_request. worker; leaf. Qed.
#[local] Hint Resolve sections_look sections_require sections_os sections_start_block sections_drop_block
  sections_record_activity sections_context sections_begin_lock sections_finish_lock : broker.
Lemma sections_lock ui_locks : sections inv (lock_controller_and_runs t ui_locks : Worker unit).
Proof.
  unfold lock_controller_and_runs. worker. apply sections_critical. intros b. apply harmless_same; [done..|].
  intros _. unfold vault_ok. cbn. by destruct (managed (broker_controller b)).
Qed.
Lemma sections_unlock has_ui token fresh label purpose :
  sections inv (await_local_unlock has_ui token fresh client label purpose : Worker unit).
Proof.
  unfold await_local_unlock, require_open, unlock_wait, shut_or_blocked. worker; leaf.
Qed.
#[local] Hint Resolve sections_lock sections_unlock : broker.

(** ** Runs with secrets *)

(** The wait for a decision answers with the ticket of the request. *)
Lemma authorize_hoare token r :
  hoare inv (authorize token r) (fun ticket => knowing (fun _ => ticket_for r ticket)) (fun _ => inv).
Proof.
  unfold authorize. eapply (hoare_bind _ _ _ _ (fun a => knowing (fun _ => ticket_for r (ticket_of a.1)))); [apply _| |].
  - apply hoare_critical; [apply _..|]. intros before b Hb.
    pose proof (authorize_ticket (flags b) r (approval b)) as Ht. unfold wp in Ht.
    assert (Hh : harmless (Some (OpAuthorize ∅ r)) b (set_approval (authorize_begin (flags b) r (approval b)).2 b)).
    { split; [done|]. intros h [[Hj Hc] Hv]. split; [|done]. cbn. split.
      - apply (keeps_state (justified (h ++ [OpAuthorize ∅ r]))); [apply justified_authorize|by apply justified_app].
      - apply (keeps_state coordinator_ok); [apply ok_authorize|done]. }
    apply (harmless_inv before) in Hh; [|exact Hb].
    destruct (authorize_begin (flags b) r (approval b)) as [[a|e] s]; cbn in *; [by split|done].
  - intros [[ticket|id ticket] deadline].
    + apply (hoare_answer _ (Ok ticket)); [apply _|done].
    + apply hoare_await; [apply _..|]. intros before b [Hb Ht]. cbn in Ht.
      pose proof (poll_ticket (flags b) (flags b) token (deadline <=? now b) id ticket (approval b)) as Hp. unfold wp in Hp.
      assert (Hh : harmless None b (set_approval (authorize_poll (flags b) (flags b) token (deadline <=? now b) id ticket (approval b)).2 b)).
      { split; [done|]. intros h [Ha Hv]. split; [|done]. apply approvals_ok_app. cbn. by apply keeps_state; [apply keeps_poll|]. }
      apply (harmless_inv before) in Hh; [|exact Hb].
      destruct (authorize_poll _ _ _ _ _ _ _) as [[[t'|]|e] s]; cbn in *; [|by split|done].
      split; [done|]. by rewrite (Hp t' eq_refl).
Qed.

(** Under the mutex of the approvals, the client may use every secret of a valid ticket. *)
Lemma with_grant_hoare {A} F ticket (operation : Broker -> LResult A * Broker) (Q : A -> Trace -> Prop) :
  Grows F -> (forall a, Grows (Q a)) -> ticket_client ticket = client ->
  (forall before b, knowing F before b -> (forall id, id ∈ ticket_secrets ticket -> may_use (h0 ++ history before) b id) ->
     match operation b with
     | (Ok a, b') => knowing (Q a) (before ++ [(None, b')]) b'
     | (Err _, b') => inv (before ++ [(None, b')]) b'
     end) ->
  hoare (knowing F) (with_grant ticket operation) (fun a => knowing (Q a)) (fun _ => inv).
Proof.
  intros HF HQ Hcl Hop. apply hoare_critical; [apply _..|]. intros before b [[[Ha Hv] Hla] Hf].
  pose proof (valid_grant_spec (approvals_ok (h0 ++ history before)) (flags b) ticket (Ok tt) (approval b)
    (approvals_stable _) Ha) as Hw.
  assert (Hk : approvals_ok (h0 ++ history before) (with_valid_grant (flags b) ticket (Ok tt) (approval b)).2).
  { pose proof (approvals_stable (h0 ++ history before)). apply keeps_state; [|done]. unfold with_valid_grant, access_valid. keeps. }
  unfold wp in Hw. destruct (with_valid_grant _ _ _ _) as [[[]|e] s]; cbn in *.
  - destruct Hw as (_ & [Hj Hc] & _ & g & Hg & Hall). specialize (Hop before (set_approval s b)).
    destruct (operation (set_approval s b)) as [[a|e] b'] eqn:Hr; cbn; apply Hop; try done.
    all: intros id (d & Hd & Hlive)%Hall; rewrite Hcl in Hd.
    all: assert (Hd' : deadlines (grants s) !! (client, id) = Some d) by (rewrite Hg; by apply purge_lookup).
    all: exists d; split_and!; [done|by exists g|by eapply justified_grants|]; intros Hlock.
    all: destruct (ok_locked s Hc Hlock) as [Ho _]; specialize (Ho _ _ Hd'); split; [done|].
    all: eapply consistent_connected; [apply Hc|exact Hd'|by right].
  - split; [|by apply (launches_app before None b)]. split; [|done]. rewrite history_app, app_assoc.
    by apply approvals_ok_app.
Qed.

(** The values of the bindings are those of the identifiers, from a vault that was open. *)
Definition values (v : ValidatedRunRequest) (ids : list SecretId) (vs : list ResolvedSecretBinding) (tr : Trace) : Prop :=
  Forall (fun p => prepared_secret_id p ∈ ids /\ visited (field_of p) tr) (zip_with prepare (run_bindings v) vs).
#[export] Instance values_grows v ids vs : Grows (values v ids vs).
Proof. intros tr x Hv. eapply Forall_impl; [exact Hv|]. intros p [Hid Hp]. split; [done|by apply grows_app]. Qed.

Lemma vault_ok_resolve bindings ids c :
  vault_ok c -> vault_ok (resolve_bindings_for_ids bindings ids c).2.
Proof.
  unfold resolve_bindings_for_ids, unlocked, vault_ok. destruct (negb _); [done|].
  destruct (managed c) as [| | |s] eqn:Hm; cbn; rewrite ?Hm; try done. intros Hids.
  pose proof (resolve_values_records (list_metadata s) (zip bindings ids) s) as Hr.
  destruct (resolve_values _ _ s) as [answer s']. cbn in *. unfold ids_wf. by rewrite Hr.
Qed.

Lemma values_hoare F v ids ticket :
  Grows F -> ticket_client ticket = client ->
  hoare (knowing F) (with_grant ticket (with_controller (resolve_bindings_for_ids (run_bindings v) ids)))
    (fun vs => knowing (fun tr => F tr /\ values v ids vs tr)) (fun _ => inv).
Proof.
  intros HF Hcl. apply with_grant_hoare; [apply _..|done|]. intros before b [Hb Hf] _.
  pose proof (vault_ok_resolve (run_bindings v) ids (broker_controller b)) as Hv.
  unfold with_controller. destruct (resolve_bindings_for_ids _ _ _) as [answer c] eqn:Hr.
  assert (Hinv : inv (before ++ [(None, set_controller c b)]) (set_controller c b)).
  { eapply harmless_inv; [|exact Hb]. by apply harmless_same. }
  destruct answer as [vs|e]; [|done]. split; [done|]. split; [by apply grows_app|]. apply Forall_lookup. intros i p Hp.
  destruct Hb as [[_ Hvault] _]. unfold vault_ok in Hvault.
  destruct (managed (broker_controller b)) as [| | |s] eqn:Hm;
    try (unfold resolve_bindings_for_ids, unlocked in Hr; rewrite Hm in Hr; by destruct (negb _)).
  destruct (resolve_bindings_Ok _ _ _ _ _ _ Hm Hvault Hr) as (Hlen & Hall & s' & Hm' & Hs').
  apply lookup_zip_with_Some in Hp as (bi & rv & -> & Hbi & Hrv).
  destruct (Forall2_lookup_r _ _ _ _ _ Hall Hrv) as ([b' id] & Hz & Hres). cbn in Hres.
  apply lookup_zip_with_Some in Hz as (b1 & id1 & [= -> ->] & Hb1 & Hid). rewrite Hbi in Hb1. injection Hb1 as ->.
  destruct Hres as [<- Hfield (r & f & Hin & Hrid & _ & Hfin & Hfn & Hval)]. cbn.
  split; [by eapply list_elem_of_lookup_2|]. apply visited_last. exists s', r, f. cbn. rewrite Hs', Hfield.
  by split_and!.
Qed.

(** The launch: at that moment every value may be used. *)
Lemma spawn_hoare_inv before b v vs run spawn :
  inv before b -> Runner.resolve v vs = Ok run ->
  Forall (fun p => may_use (h0 ++ history before) b (prepared_secret_id p) /\ visited (field_of p) before)
    (zip_with prepare (run_bindings v) vs) ->
  inv (before ++ [(None, (spawn_section t run spawn b).2)]) (spawn_section t run spawn b).2.
Proof.
  intros Hb Hv Hall. unfold spawn_section.
  destruct (spawn_child spawn (run_state b)) as [[pid s]|e]; cbn; [|eapply harmless_inv; [|exact Hb]; by apply harmless_same].
  destruct Hb as [[Ha Hvault] Hl]. split.
  - split; [|done]. rewrite history_app, app_assoc. by apply approvals_ok_app.
  - intros run'. cbn. set (b' := add_launched t run (set_runs s b)).
    intros [[= ->]|Hin]%elem_of_cons.
    + exists before, None, b', []. split_and!; [done|by left|]. unfold launchable.
      apply resolve_Ok in Hv as (_ & _ & ->). exact Hall.
    + destruct (Hl run' Hin) as (tr1 & l & b1 & tr2 & -> & Hr). exists tr1, l, b1, (tr2 ++ [(None, b')]).
      by rewrite <- app_assoc.
Qed.
Lemma launch_hoare v ids vs run ticket spawn :
  Runner.resolve v vs = Ok run -> ticket_client ticket = client -> (forall id, id ∈ ids -> id ∈ ticket_secrets ticket) ->
  hoare (knowing (values v ids vs)) (with_grant ticket (spawn_section t run spawn)) (fun _ => inv) (fun _ => inv).
Proof.
  intros Hv Hcl Hids. eapply hoare_mono; [eapply (with_grant_hoare _ _ _ (fun _ _ => True)); [apply _..|done|]|done| |done].
  - intros before b [Hb Hall] Hmay.
    assert (Hinv : inv (before ++ [(None, (spawn_section t run spawn b).2)]) (spawn_section t run spawn b).2).
    { apply (spawn_hoare_inv _ _ v vs); [done..|]. eapply Forall_impl; [exact Hall|]. intros p [Hp Hf]. split; [|done].
      by apply Hmay, Hids. }
    destruct (spawn_section t run spawn b) as [[a|e] b']; [by split|done].
  - by intros ? ? ? [].
Qed.

(** ** Requests *)
Lemma worker_hoare {A} (m : Worker A) : sections inv m -> hoare inv m (fun _ => inv) (fun _ => inv).
Proof. apply sections_hoare, _. Qed.

(** [Supervisor::run_guarded], from what its closures do. *)
Context (ask : forall A, os_call A -> log -> A) (euid : Z) (temp_dir : string) (var_os : string -> option bytes).
Context (has_ui : bool).
Lemma run_guarded_hoare v (resolve_values : list ValidatedSecretBinding -> Worker (list ResolvedSecretBinding))
    (launch : PreparedRun -> LResult Z -> Worker Z) V :
  (forall vs, Grows (V vs)) ->
  hoare inv (resolve_values (run_bindings v)) (fun vs => knowing (V vs)) (fun _ => inv) ->
  (forall vs run spawn, Runner.resolve v vs = Ok run ->
     hoare (knowing (V vs)) (launch run spawn) (fun _ => inv) (fun _ => inv)) ->
  hoare inv (run_guarded ask euid temp_dir var_os v resolve_values launch) (fun _ => inv) (fun _ => inv).
Proof.
  intros HV Hres Hlaunch. unfold run_guarded.
  eapply hoare_bind; [apply _|apply worker_hoare; leaf|intros ?].
  eapply (hoare_bind _ _ _ _ (fun _ => inv)); [apply _| |intros answer].
  - eapply (hoare_catch _ _ _ (fun _ => inv) (fun _ => inv)); [apply _| |by intros []].
    eapply hoare_bind; [apply _|apply worker_hoare, sections_os|intros [? l]].
    eapply hoare_bind; [apply _|exact Hres|intros vs].
    eapply (hoare_bind _ _ _ _ (fun run => knowing (fun tr => Runner.resolve v vs = Ok run /\ V vs tr))); [apply _| |intros run].
    { apply hoare_answer; [apply _|]. intros before b [Hb Hv]. by destruct (Runner.resolve v vs) eqn:Hr. }
    eapply hoare_bind; [apply _|apply knowing_hoare; [apply _|apply sections_os]|intros [p l']].
    eapply (hoare_bind _ _ _ _ (fun _ => inv)); [apply _| |intros pid].
    + eapply (hoare_catch _ _ _ (fun _ => inv) (fun _ => inv)); [apply _| |by intros []].
      intros before b tr r b' [Hb [Hr Hv]] Hex. by eapply (Hlaunch vs run (spawned ask l') Hr before b).
    + apply worker_hoare. worker.
  - apply worker_hoare. worker. leaf.
Qed.

Lemma run_with_secrets_hoare token fresh label v :
  hoare inv (run_with_secrets ask euid temp_dir var_os t token fresh client label v) (fun _ => inv) (fun _ => inv).
Proof.
  unfold run_with_secrets.
  eapply (hoare_bind _ _ _ _ (fun plan => knowing (fun _ => exists c, approval_plan (run_bindings v) c = Ok plan)));
    [apply _| |intros plan].
  { apply hoare_critical; [apply _..|]. intros before b Hb. cbn.
    assert (Hb' : inv (before ++ [(None, b)]) b) by (eapply harmless_inv; [|exact Hb]; by apply harmless_same).
    destruct (approval_plan _ _) eqn:Hp; cbn; [|done]. split; [done|]. by exists (broker_controller b). }
  apply (hoare_pure _ inv (exists c, approval_plan (run_bindings v) c = Ok plan)). intros [c Hplan].
  eapply hoare_bind; [apply _|apply worker_hoare, sections_context|intros ?].
  eapply hoare_bind; [apply _|apply authorize_hoare|intros ticket].
  eapply (hoare_bind _ _ _ _ (fun _ => inv)); [apply _| |intros result; apply worker_hoare; worker].
  eapply (hoare_catch _ _ _ (fun _ => inv) (fun _ => inv)); [apply _| |by intros []].
  apply (hoare_pure _ inv (ticket_for _ ticket)). intros [Hcl Ht]. cbn in Hcl.
  apply (run_guarded_hoare v _ _ (fun vs tr => values v (binding_ids plan) vs tr)); [apply _| |].
  - eapply hoare_mono; [apply (values_hoare (fun _ => True)); [apply _|done]|done| |done].
    by intros vs before b [? [_ ?]].
  - intros vs run spawn Hr. eapply launch_hoare; [exact Hr|done|]. intros id Hid.
    apply Ht. unfold secret_ids. cbn. by eapply approval_plan_ids.
Qed.

Lemma is_empty_nil {A} (l : list A) : is_empty l = true -> l = [].
Proof. by destruct l. Qed.

Lemma run_without_secrets_hoare v :
  run_bindings v = [] ->
  hoare inv (run_without_secrets ask euid temp_dir var_os t client v) (fun _ => inv) (fun _ => inv).
Proof.
  intros Hv. unfold run_without_secrets.
  eapply hoare_bind; [apply _|apply worker_hoare, sections_context|intros ?].
  eapply (hoare_bind _ _ _ _ (fun _ => inv)); [apply _| |intros result; apply worker_hoare; worker].
  eapply (hoare_catch _ _ _ (fun _ => inv) (fun _ => inv)); [apply _| |by intros []].
  apply (run_guarded_hoare v _ _ (fun _ _ => True)); [apply _| |].
  - eapply hoare_mono; [apply worker_hoare|done|by split|done]. apply sections_critical. intros b.
    unfold with_controller, resolve_bindings. rewrite Hv.
    destruct (binding_secret_ids [] _) as [ids|e]; [|by apply harmless_same].
    pose proof (vault_ok_resolve [] ids (broker_controller b)) as Hok.
    destruct (resolve_bindings_for_ids _ _ _). by apply harmless_same.
  - intros vs run spawn Hr.
    apply (hoare_mono _ _ inv _ _ (fun _ => inv) _ (fun _ => inv)); [|by intros ? ? []|done|done].
    eapply hoare_bind; [apply _|apply worker_hoare; worker|intros ?].
    apply hoare_critical; [apply _..|]. intros before b Hb.
    pose proof (spawn_hoare_inv before b v vs run spawn Hb Hr) as Hs. rewrite Hv in Hs. cbn in Hs.
    specialize (Hs (Forall_nil_2 _)). by destruct (spawn_section t run spawn b) as [[]].
Qed.

Lemma handle_run_hoare token fresh label r :
  hoare inv (handle_run ask euid temp_dir var_os has_ui t token fresh client label r) (fun _ => inv) (fun _ => inv).
Proof.
  unfold handle_run, not_shutting_down.
  eapply hoare_bind; [apply _|apply worker_hoare; worker|intros ?].
  eapply hoare_bind; [apply _|apply worker_hoare; worker|intros v].
  eapply hoare_bind; [apply _|apply worker_hoare; worker|intros ?].
  unfold with_lease.
  eapply hoare_bind; [apply _|apply worker_hoare; leaf|intros ?].
  eapply (hoare_bind _ _ _ _ (fun _ => inv)); [apply _| |intros answer; apply worker_hoare; worker; leaf].
  eapply (hoare_catch _ _ _ (fun _ => inv) (fun _ => inv)); [apply _| |by intros []].
  eapply hoare_bind; [apply _|apply worker_hoare; worker|intros ?].
  eapply hoare_bind; [apply _|apply worker_hoare; worker|intros ?].
  eapply hoare_bind; [apply _|apply worker_hoare; worker|intros ?].
  destruct (is_empty (run_bindings v)) eqn:Hv.
  - by apply run_without_secrets_hoare, is_empty_nil.
  - apply run_with_secrets_hoare.
Qed.

Lemma handle_method_hoare token fresh label m :
  hoare inv (handle_method ask euid temp_dir var_os has_ui t token fresh client label m) (fun _ => inv) (fun _ => inv).
Proof.
  unfold handle_method.
  eapply hoare_bind; [apply _|apply worker_hoare; worker|intros observation].
  eapply hoare_bind; [apply _|apply worker_hoare; worker|intros ?].
  destruct m; first [apply handle_run_hoare | apply worker_hoare; worker; leaf].
Qed.

Lemma handle_triple token fresh r :
  client_session_id r = client -> triple (others t) inv (handle ask euid temp_dir var_os has_ui t token fresh r) (fun _ => inv).
Proof.
  intros Hc. unfold handle. rewrite Hc.
  apply (triple_bind _ _ _ _ (either (fun _ => inv) (fun _ => inv))); [apply handle_method_hoare|]. intros answer.
  eapply triple_mono; [apply (triple_answer _ _ (fun _ => inv)); apply _| |done]. by destruct answer.
Qed.
End runs.

(** C1. No child without authorisation: in every execution of a request by a worker of the
    broker, with any steps of the other threads in between, each child that the worker
    launched gets its values from secrets that the client of the request may use at that
    moment: each has a live grant that the user gave to this client before (unattended,
    and of a connected client, when the app is locked), and each value is the named field
    of the secret with exactly this identifier in a vault that was open during the
    request. *)
Theorem launched_runs_are_authorised {C} `{MonotonicClock C} `{TextCratesLaws, RedactCrates}
    ask euid temp_dir var_os has_ui t token fresh r h0 (b : Broker C) tr response b' run :
  broker_ok h0 b -> (forall run, (t, run) ∉ launched b) ->
  executes (others t) (handle ask euid temp_dir var_os has_ui t token fresh r) b tr response b' ->
  (t, run) ∈ launched b' ->
  exists tr1 l b1 tr2, tr = tr1 ++ (l, b1) :: tr2 /\ (t, run) ∈ launched b1 /\
    Forall (fun p => may_use (client_session_id r) (h0 ++ history tr1) b1 (prepared_secret_id p) /\
                     visited (field_of p) tr1) (prepared_bindings run).
Proof.
  intros Hb Hno Hr Hin.
  destruct (handle_triple t (client_session_id r) h0 ask euid temp_dir var_os has_ui token fresh r eq_refl
    [] b tr response b') as [_ Hl]; [|done|by apply Hl].
  split; [by rewrite app_nil_r|]. intros run' Hrun. by destruct (Hno run').
Qed.

(** ** A request at work: the user approves it, and the child prints its secrets *)
Definition example_broker : Broker ManualClock := {|
  approval := coordinator_new (Grants.example_clock 0 0) DEFAULT_GRANT_LIFETIME;
  threads := threads_new;
  ui := ui_threads_new;
  broker_controller := example_controller;
  shutting_down := false; supervisor_running := false; now := 0; launched := [];
|}.
Definition example_call : RpcRequest := {|
  request_version := 1; request_id := 21; client_session_id := 3; client_label := "agent";
  method := Run (executable SupervisorProperties.example_request) (arguments SupervisorProperties.example_request)
    (working_directory SupervisorProperties.example_request) (bindings SupervisorProperties.example_request)
    (timeout_ms SupervisorProperties.example_request) (output_limit_bytes SupervisorProperties.example_request) |}.
Abbreviation example_handle :=
  (handle example_os 1000 "/tmp" (fun _ => None) false 2 7
    {| fresh_approval := 31; fresh_unlock := 32; fresh_connection := 33 |} example_call) (only parsing).
Definition example_moves : list (option (option approval_op * (Broker ManualClock -> Broker ManualClock))) :=
  let o := OpDecide ∅ 31 (Approve None) in
  replicate 12 None ++ [Some (Some o, fun b => set_approval (exec (approval b) o) b)] ++ replicate 7 None.

Lemma example_broker_ok : broker_ok [] example_broker.
Proof.
  split; [split; [by apply (justified_history _ [])|apply coordinator_ok_new]|].
  unfold vault_ok, ids_wf. cbn. by repeat constructor.
Qed.
Example launched_runs_are_authorised_witness : exists tr response b',
  executes (others 2) example_handle example_broker tr response b' /\
  launched b' = [(2%nat, example_run)] /\
  exists tr1 l b1 tr2, tr = tr1 ++ (l, b1) :: tr2 /\ (2%nat, example_run) ∈ launched b1 /\
    Forall (fun p => may_use 3 (history tr1) b1 (prepared_secret_id p) /\ visited (field_of p) tr1)
      (prepared_bindings example_run).
Proof.
  assert (Hl : (fun x => launched x.2) <$> play example_moves example_handle example_broker = Some [(2%nat, example_run)])
    by (vm_compute; reflexivity).
  destruct (play example_moves example_handle example_broker) as [[[tr response] b']|] eqn:Hp; [|discriminate Hl].
  injection Hl as Hl. cbn [snd] in Hl.
  assert (Hr : executes (others 2) example_handle example_broker tr response b').
  { apply (play_executes _ example_moves); [|exact Hp]. intros l f s Hin. unfold example_moves in Hin.
    apply elem_of_app in Hin as [Hin|Hin]; [by apply elem_of_replicate_inv in Hin|].
    apply elem_of_app in Hin as [Hin|Hin]; [|by apply elem_of_replicate_inv in Hin].
    apply list_elem_of_singleton in Hin as [= -> ->]. apply others_approval. }
  exists tr, response, b'. split; [exact Hr|]. split; [exact Hl|].
  apply (launched_runs_are_authorised example_os 1000 "/tmp" (fun _ => None) false 2 7
    {| fresh_approval := 31; fresh_unlock := 32; fresh_connection := 33 |} example_call [] example_broker tr response b'
    example_run).
  - exact example_broker_ok.
  - intros run Hin. by apply elem_of_nil in Hin.
  - exact Hr.
  - rewrite Hl. by left.
Defined.
