(* ===== verification/BrokerHandle.v ===== *)
(** * BrokerHandle: [LocalBrokerHandle] of [crates/ladon-app/src/agent_broker.rs]

    What the user interface asks of the broker: locking the app, revoking
    grants, the views of sessions and grants, and the changes of secrets. *)

From S2P Require Import Prelude Errors Time Utf8 Text Model Cbor CborReference Codec Crypto Vault Store Redact Json.
From S2P Require Import Protocol Runner Paths Calls Os ProcessTree RunFiles Supervisor Grants Approval.
From S2P Require Import ApprovalInvariant ApprovalProperties Runs UnlockRequests UiLocks Editor Controller Workers.
From S2P Require Import AgentBroker BrokerThreads.
Local Open Scope Z_scope.

(** [struct AgentGrantView] and [struct AgentSessionView]. *)
Record AgentGrantView := {
  view_client : Uuid;
  view_label : string;
  view_secret : SecretId;
  view_name : string;
  view_remaining : Duration;
  view_expires_with_session : bool;
  view_running : bool;
  view_unattended : bool;
  view_expires_at : option SystemTime;
}.
Record AgentSessionView := {
  session_client : Uuid;
  session_details : SessionDetails;
  session_grants : list AgentGrantView;
  session_running : bool;
  session_waiting : bool;
}.

(** The order of the views: by label, by client and by the name of the secret. *)
Definition string_order (a b : string) : comparison := String.compare a b.
Definition view_order (a b : AgentGrantView) : Prop :=
  match string_order (view_label a) (view_label b) with
  | Lt => True
  | Gt => False
  | Eq => view_client a < view_client b \/ view_client a = view_client b /\ string_order (view_name a) (view_name b) <> Gt
  end.
#[export] Instance view_order_dec a b : Decision (view_order a b).
Proof. unfold view_order. destruct (string_order _ _); apply _. Defined.

(** The views of the grants whose secret is in the open vault. *)
Definition grant_view (names : list SecretMetadata) (running : gset (Uuid * SecretId)) (g : ActiveGrantSnapshot) :
    option AgentGrantView :=
  s ← List.find (fun s => bool_decide (meta_id s = snapshot_secret g)) names;
  Some {| view_client := snapshot_client g; view_label := snapshot_label g; view_secret := snapshot_secret g;
          view_name := meta_name s; view_remaining := snapshot_remaining g;
          view_expires_with_session := snapshot_expires_with_session g;
          view_running := bool_decide ((snapshot_client g, snapshot_secret g) ∈ running);
          view_unattended := snapshot_unattended g; view_expires_at := snapshot_expires_at g |}.
Definition grant_views (names : list SecretMetadata) (running : gset (Uuid * SecretId)) (l : list ActiveGrantSnapshot) :
    list AgentGrantView :=
  merge_sort view_order (omap (grant_view names running) l).

Section handle.
Context {C : Type} `{MonotonicClock C}.
Context `{TextCrates, RedactCrates}.
Context (has_ui : bool).
Abbreviation Broker := (Broker C).
Abbreviation Worker := (@Worker Broker (option approval_op)).

(** ** Locking the app *)

(** [begin_app_lock]: the guard of thread [t], and the thread that ends the lock;
    [started] is the answer of the spawn. *)
Definition take_turn {A} (t : nat) (body : Worker A) : Worker A :=
  if negb has_ui then worker_err InvalidRequest
  else
    taken ← try_local t;
    if negb taken then worker_err Busy
    else
      r ← catch body;
      match r with Ok a => mret a | Err e => drop_local t;; worker_err e end.
Definition begin_app_lock (t : nat) (started : bool) : Worker Z :=
  take_turn t (
    epoch ← coordinate (fun _ => Approval.begin_app_lock);
    cancel_active_run;;
    if started then mret epoch else worker_err ProcessFailure).
Definition app_lock_worker (t : nat) (epoch : Z) : Worker unit :=
  r ← catch (
    start_block t every_run;;
    finished ← catch (coordinate (fun _ => finish_app_lock epoch));
    match finished with
    | Ok _ => drop_local t;; drop_run_block t;; mret tt
    | Err e => drop_run_block t;; drop_local t;; worker_err e
    end);
  worker_lift r.

(** [begin_auto_app_lock] and its thread. *)
Definition spare_unattended : Worker unit :=
  active ← look (fun b => running_run (run_state b));
  match active with
  | None => mret tt
  | Some a =>
    covered ← coordinate (fun c => unattended_covers c (run_client a) (default [] (run_secrets a)));
    if (covered : bool) then mret tt
    else critical None (fun b => (Ok tt, set_runs (cancel (run_token a) (run_state b)) b))
  end.
Definition begin_auto_app_lock (t : nat) (started : bool) : Worker Z :=
  take_turn t (
    epoch ← coordinate (fun _ => Approval.begin_auto_app_lock);
    spare_unattended;;
    if started then mret epoch else worker_err ProcessFailure).
Definition auto_lock_worker (t : nat) (epoch : Z) : Worker unit :=
  completion ← catch (
    await None (fun b =>
      match running_run (run_state b) with
      | Some a => (if is_cancelled (run_token a) (run_state b) then None else Some (Ok tt), b)
      | None => (Some (Ok tt), b)
      end);;
    coordinate (fun _ => finish_app_lock epoch));
  drop_local t;;
  worker_lift completion.

(** [unlock_app], [cancel_active_run_and_wait] and [cancel_active_run_and_lock]. *)
Definition unlock_app (epoch : Z) : Worker unit := coordinate (fun _ => Approval.unlock_app epoch).
Definition cancel_active_run_and_wait (t : nat) : Worker unit :=
  coordinate (fun _ => cancel_pending);;
  with_block t every_run (mret tt).
Definition and_then (a b : LResult unit) : LResult unit := a;; b.
Definition cancel_active_run_and_lock (t : nat) : Worker unit :=
  pending_result ← catch (coordinate (fun _ => cancel_pending));
  revoke_result ← catch (coordinate (fun _ => revoke_all));
  cancel_active_run;;
  with_local has_ui t (wait_local t) (worker_lift (and_then pending_result revoke_result)) (
    (if has_ui then critical None (fun b => (Ok tt, set_unlocks (cancel_unlock (unlock_requests (locks (ui b)))) b))
     else mret tt);;
    locked ← catch (lock_controller_and_runs t false);
    worker_lift (and_then (and_then pending_result revoke_result) locked)).

(** [auto_lock_controller_if_idle]. *)
Definition auto_lock_controller_if_idle (t : nat) : Worker bool :=
  blocked ← critical None (fun b =>
    match try_block_new_runs (run_state b) with
    | Some s => (Ok true, with_role t (Blocking EveryRun) s b)
    | None => (Ok false, b)
    end);
  if negb blocked then mret false
  else
    r ← catch (
      locked ← critical None (fun b =>
        let '(locked, c) := auto_lock_if_idle_at (now b) (broker_controller b) in (Ok locked, set_controller c b));
      (if (locked : bool) then coordinate (fun _ => reset_after_vault_lock) else mret tt);;
      mret locked);
    drop_run_block t;;
    worker_lift r.

(** ** Revoking *)

(** [revoke_grants]; an external lock revokes them itself. *)
Definition revoke_grants (t : nat) : Worker unit :=
  coordinate (fun _ => cancel_pending);;
  coordinate (fun _ => revoke_all);;
  cancel_active_run;;
  with_local has_ui t (wait_local t) (mret tt) (
    coordinate (fun _ => cancel_pending);;
    with_block t every_run (coordinate (fun _ => revoke_all))).

(** [revoke_session] and [revoke_grant]. *)
Definition revoke_session (t : nat) (client : Uuid) : Worker unit :=
  with_local has_ui t (try_local t) (worker_err Busy) (
    with_block t (runs_of_client client) (coordinate (fun _ => revoke_client client))).
Definition revoke_grant (t : nat) (client : Uuid) (secret : SecretId) : Worker unit :=
  with_local has_ui t (try_local t) (worker_err Busy) (
    with_block t (runs_of_pair client secret) (coordinate (fun _ => revoke_pair client secret);; mret tt)).

(** ** Views *)

(** [agent_grants] and [agent_sessions]. *)
Definition agent_grants : Worker (list AgentGrantView) :=
  grants ← coordinate active_grants;
  running ← look (fun b => running_pairs (run_state b));
  names ← look (fun b => Controller.secrets (broker_controller b));
  mret (grant_views names running grants).
Definition agent_sessions : Worker (list AgentSessionView) :=
  grants ← agent_grants;
  pending ← coordinate pending_request;
  active_client ← look (fun b =>
    match running_run (run_state b) with
    | Some a => if run_running a then Some (run_client a) else None
    | None => None
    end);
  l ← coordinate list_sessions;
  mret (List.map (fun cd => {|
    session_client := cd.1; session_details := cd.2;
    session_grants := List.filter (fun g => bool_decide (view_client g = cd.1)) grants;
    session_running := bool_decide (active_client = Some cd.1);
    session_waiting := match pending with Some r => bool_decide (approval_client r = cd.1) | None => false end |}) l).

(** ** Unattended grants *)

(** [snapshot_unattended] and [grant_unattended]: the controller is read under the mutex of
    the approvals. *)
Definition snapshot_unattended (client : Uuid) : Worker (UnattendedContext * list SecretMetadata) :=
  '(context, l) ← critical None (fun b =>
    let c := broker_controller b in
    let '(r, s) := capture_unattended_with (flags b) client
                     ((fun id => (id, Controller.secrets c)) <$> ok_or (session_id c) VaultLocked) (approval b) in
    (r, set_approval s b));
  if is_empty l then worker_err InvalidRequest else mret (context, l).
Definition consent_holds (x : UnattendedContext) (l : list SecretMetadata) (c : VaultController) : LResult unit :=
  if bool_decide (session_id c = Some (context_vault x))
     && forallb (fun s => existsb (fun current => bool_decide (meta_id current = meta_id s)) (Controller.secrets c)) l
  then Ok tt else Err ApprovalCancelled.
Definition grant_unattended (x : UnattendedContext) (l : list SecretMetadata) (deadline : SystemTime) : Worker unit :=
  let ids := meta_id <$> l in
  critical (Some (OpUnattendedGrant ∅ x ids deadline (Ok tt))) (fun b =>
    let '(r, s) := Approval.grant_unattended (flags b) x ids deadline (consent_holds x l (broker_controller b)) (approval b) in
    (r, set_approval s b)).
End handle.

(** ** Changes of secrets *)
Section mutation.
Context {C : Type} `{MonotonicClock C}.
Context `{TextCrates, Cbor, CryptoCrates}.
Context {R : Type} `{RandomSource R}.

(** [coordinate_secret_mutation] with a commit that writes to the disk: access is revoked,
    and then the change is committed, all under the mutex of the approvals. *)
Definition mutate_secret {P} (id : SecretId) (prepare : VaultController -> LResult P)
    (commit : P -> @CIO R unit) (s : ApprovalState C) (m : @Machine R) : Store.outcome unit * ApprovalState C * @Machine R :=
  match coordinate_secret_mutation id (prepare (controller m)) Ok s with
  | (Err e, s) => (Done (Err e), s, m)
  | (Ok p, s) => let '(answer, m) := commit p m in (answer, s, m)
  end.

(** [update_secret] and [delete_secret]. *)
Definition update_secret (unique1 unique2 : string) (draft : EditSecretDraft) :=
  mutate_secret (draft_id draft) (prepare_secret_update draft) (apply_secret_update unique1 unique2).
Definition delete_secret (unique1 unique2 : string) (id : SecretId) :=
  mutate_secret id (ensure_secret_exists id) (fun _ : unit => Controller.delete_secret unique1 unique2 id).
End mutation.

(** ** Revocation *)
Section revocation.
Context {C : Type} `{MonotonicClock C}.
Abbreviation S := (ApprovalState C).

(** The pairs have no grant, and a request for one of them is not going to be approved. *)
Record revoked (which : Uuid -> SecretId -> Prop) (s : S) : Prop := {
  revoked_grants client id : which client id -> deadlines (grants s) !! (client, id) = None;
  revoked_pending p id : pending s = Some p -> which (approval_client (request p)) id ->
    id ∈ requested_secret_ids p -> decision p = Some Cancel;
}.

Lemma revoked_decide which (f : PendingState -> bool) (s : S) : revoked which s -> revoked which (decide_if f Cancel s).
Proof.
  intros [Hg Hp]. split; [by rewrite grants_decide_if|].
  intros p id (q & Hq & [->| ->])%pending_decide_if Hw Hin; [by eapply Hp|done].
Qed.
Lemma revoked_stable which : stable (revoked which).
Proof.
  split.
  - intros s g [Hg Hp] Hs. split; [|exact Hp]. intros client id Hw. apply eq_None_not_Some. intros [d Hd%Hs].
    by rewrite (Hg client id Hw) in Hd.
  - intros s m [Hg Hp]. by split.
  - intros s client [Hg Hp]. apply revoked_decide. split; [|exact Hp]. intros cl id Hw. apply eq_None_not_Some.
    intros [d Hd%(op_shrinks (OpRevokeClient client) (grants s) I)]. by rewrite (Hg cl id Hw) in Hd.
  - intros s f. by apply revoked_decide.
  - intros s m [Hg Hp] _. by split.
  - intros s label p [Hg Hp] Hr. split; [exact Hg|]. intros q id [= <-]. exact (Hp p id Hr).
  - intros s v [Hg Hp]. by split.
  - intros s b [Hg Hp]. by split.
  - intros s r [Hg Hp] _. by split.
Qed.

(** A cancellation of the requests and a revocation of the grants, in either order. *)
Lemma decide_then_revoke which (f : PendingState -> bool) o (s : S) :
  (forall p id, which (approval_client (request p)) id -> id ∈ requested_secret_ids p -> f p = true) ->
  (forall client id, which client id -> revokes o client id = true /\ granted_ids o client = []) ->
  revoked which (set_grants (apply_op o (grants (decide_if f Cancel s))) (decide_if f Cancel s)).
Proof.
  intros Hf Ho. split; cbn.
  - intros client id Hw. destruct (Ho client id Hw) as [Hr Hn]. apply eq_None_not_Some. intros [d Hd].
    apply apply_op_lookup in Hd as [Hd|(_ & Hd & _)]; [rewrite Hn in Hd; by apply elem_of_nil in Hd|congruence].
  - intros p id Hp Hw Hin. unfold decide_if in Hp. destruct (pending s) as [q|] eqn:Hq; [|by rewrite Hq in Hp].
    destruct (f q) eqn:Hfq; [by injection Hp as <-|]. rewrite Hq in Hp. injection Hp as ->.
    by rewrite (Hf p id Hw Hin) in Hfq.
Qed.

Lemma revoke_pair_revokes client secret (s : S) :
  wp (Approval.revoke_pair client secret) (fun _ => revoked (fun c i => c = client /\ i = secret)) (fun _ => True) s.
Proof.
  unfold Approval.revoke_pair. apply wp_bind.
  eapply wp_mono; [by apply (keeps_next_revision (fun _ => True))| |done]. intros ? s1 _.
  apply wp_bind, wp_modify, wp_bind, wp_query, wp_bind.
  eapply wp_mono; [apply keeps_wp; [apply (keeps_prune _ (revoked_stable (fun c i => c = client /\ i = secret)))|]|intros ? ? Hr; by apply wp_ret|done].
  apply (decide_then_revoke (fun c i => c = client /\ i = secret) _ (OpRevokePair client secret)).
  - intros p id [Hc ->] Hin. unfold from_client. by rewrite Hc, !bool_decide_eq_true_2.
  - intros c id [-> ->]. cbn. by rewrite bool_decide_eq_true_2.
Qed.

Lemma mutation_revokes {P} secret (p : P) (s : S) :
  wp (coordinate_secret_mutation secret (Ok p) Ok) (fun q s => q = p /\ revoked (fun _ i => i = secret) s) (fun _ => True) s.
Proof.
  unfold coordinate_secret_mutation. apply wp_bind, wp_ret, wp_bind.
  eapply wp_mono; [by apply (keeps_next_revision (fun _ => True))| |done]. intros ? s1 _.
  apply wp_bind, wp_modify, wp_bind, wp_modify, wp_bind.
  eapply wp_mono; [apply keeps_wp; [apply (keeps_prune _ (revoked_stable (fun _ i => i = secret)))|]|intros ? ? Hr; by apply wp_ret|done].
  apply (decide_then_revoke (fun _ i => i = secret) _ (OpRevokeSecret secret)).
  - intros q id -> Hin. by apply bool_decide_eq_true_2.
  - intros c id ->. cbn. by rewrite bool_decide_eq_true_2.
Qed.
End revocation.

Section revoke_grant.
Context {C : Type} `{MonotonicClock C}.
Context `{TextCratesLaws, RedactCrates}.
Context (t : nat) (client : Uuid) (secret : SecretId).
Abbreviation Broker := (Broker C).

(** The client has no grant for the secret, no run uses it, and none starts. *)
Record pair_revoked (b : Broker) : Prop := {
  pair_grant : deadlines (grants (approval b)) !! (client, secret) = None;
  pair_pending p : pending (approval b) = Some p -> approval_client (request p) = client ->
    secret ∈ requested_secret_ids p -> decision p = Some Cancel;
  pair_run a : running_run (run_state b) = Some a -> uses_secret client secret a = false;
  pair_block : exists m, roles (threads b) !! t = Some (Blocking (RunsOfPair client secret m));
}.

Lemma revoke_pair_hoare m :
  hoare (others t) (holding t (Some (Blocking (RunsOfPair client secret m))) (fun _ => True))
    (coordinate (fun _ => Approval.revoke_pair client secret);; mret tt)
    (fun _ => holding t (Some (Blocking (RunsOfPair client secret m))) (visited pair_revoked))
    (fun _ => holding t (Some (Blocking (RunsOfPair client secret m))) (fun _ => True)).
Proof.
  eapply (hoare_bind _ _ _ _ (fun _ => holding t (Some (Blocking (RunsOfPair client secret m))) (visited pair_revoked)));
    [apply _| |intros ?; apply (hoare_answer _ (Ok tt)); [apply _|done]].
  apply hoare_critical; [apply _..|]. intros before b (He & Hr & _).
  pose proof (revoke_pair_revokes client secret (approval b)) as Hw. unfold wp in Hw.
  destruct (Approval.revoke_pair client secret (approval b)) as [[a|e] s]; cbn; [|done].
  split_and!; [done..|]. apply visited_last. cbn. destruct Hw as [Hg Hp]. split; cbn.
  - by apply Hg.
  - intros p Hpend Hc Hin. by eapply Hp.
  - intros run Hrun. exact (all_guarded _ He _ _ _ Hr Hrun).
  - by exists m.
Qed.

(** C10. Revoking a grant works at once: when [revoke_grant] succeeds, among any steps of the
    other threads, there was a moment at which the client had no grant for the secret, a
    request that waits for it was cancelled, no run of the client with the secret was left
    and none could start. *)
Theorem revoke_grant_revokes has_ui b tr b' :
  reachable (threads b) -> roles (threads b) !! t = None ->
  executes (others t) (revoke_grant has_ui t client secret) b tr (Ok tt) b' ->
  visited pair_revoked tr /\ roles (threads b') !! t = None.
Proof.
  intros He%exclusive_reachable Ht Hr.
  assert (Hh : hoare (others t) (holding t None (fun _ => True)) (revoke_grant has_ui t client secret)
    (fun _ => holding t None (visited pair_revoked)) (fun _ => holding t None (fun _ => True))).
  { apply with_local_hoare; [apply _..|by apply try_local_hoare| |].
    - apply (hoare_answer _ (Err Busy)); [apply _|done].
    - apply (with_block_hoare t _ _ _ _ _ _ _ (runs_of_pair_begins client secret)). intros p [m ->].
      apply revoke_pair_hoare. }
  by destruct (Hh [] b tr (Ok tt) b') as (_ & Hn & Hv).
Qed.
End revoke_grant.

Section mutations.
Context {C : Type} `{MonotonicClock C}.
Context `{TextCrates, Cbor, CryptoCrates}.
Context {R : Type} `{RandomSource R}.

(** Access is revoked before a secret changes: if [update_secret] or [delete_secret] (by
    their [mutate_secret]) changes the vault or the disk at all, then no client has a grant
    for the secret any more and every request that waits for it is cancelled, whether the
    commit succeeds or fails; otherwise the vault and the disk are untouched. *)
Theorem mutation_revokes_first {P} id (prepare : VaultController -> LResult P) (commit : P -> @CIO R unit)
    (s : ApprovalState C) (m : @Machine R) :
  let '(answer, s', m') := mutate_secret id prepare commit s m in
  (m' = m /\ exists e, answer = Done (Err e)) \/
  revoked (fun _ i => i = id) s' /\ exists p, prepare (controller m) = Ok p /\ (answer, m') = commit p m.
Proof.
  unfold mutate_secret. destruct (prepare (controller m)) as [p|e].
  - pose proof (mutation_revokes id p s) as Hw. unfold wp in Hw.
    destruct (coordinate_secret_mutation id (Ok p) Ok s) as [[q|e] s'].
    + destruct Hw as [-> Hr]. destruct (commit p m) as [answer m'] eqn:Hc. right. split; [done|]. by exists p.
    + left. eauto.
  - left. cbn. eauto.
Qed.
End mutations.

(** Thread 2 revokes a grant while thread 1 uses it. *)
Definition example_running : Threads :=
  {| runs := set_active (Some {| run_token := 7; run_client := 3; run_secrets := Some [5]; run_running := false |}) runs_new;
     roles := <[1%nat := Leasing 7 3]> ∅ |}.
Definition example_revoking : Broker ManualClock := {|
  approval := set_grants (Grants.grant 3 [5; 6] (grants_new (example_clock 0 0) DEFAULT_GRANT_LIFETIME))
                (coordinator_new (example_clock 0 0) DEFAULT_GRANT_LIFETIME);
  threads := example_running;
  ui := ui_threads_new;
  broker_controller := {| store := store_new ("vault", "vault.bak"); managed := ManagedLocked; session_id := None |};
  shutting_down := false; supervisor_running := false; now := 0; launched := [];
|}.
Lemma example_revocation : exists tr b',
  executes (others 2) (revoke_grant true 2 3 5) example_revoking tr (Ok tt) b'.
Proof.
  do 2 eexists. unfold revoke_grant.
  do 2 (eapply executes_own; [reflexivity|]).
  eapply executes_others; [apply others_runs; [by apply (step_finish _ 1 7%nat 3)|reflexivity]|].
  do 4 (eapply executes_own; [reflexivity|]). apply executes_answer.
Qed.
Example revoke_grant_revokes_witness : exists tr b',
  executes (others 2) (revoke_grant true 2 3 5) example_revoking tr (Ok tt) b' /\ visited (pair_revoked 2 3 5) tr.
Proof.
  destruct example_revocation as (tr & b' & Hr). exists tr, b'. split; [exact Hr|].
  apply (revoke_grant_revokes 2 3 5 true example_revoking tr b'); [|reflexivity|exact Hr].
  apply (rtc_l _ _ example_started); [apply (step_start threads_new 1 7 3); reflexivity|].
  apply rtc_once, (step_context example_started 1 7 3 [5]); reflexivity.
Defined.
