(* ===== verification/Endpoint.v ===== *)
(** * Endpoint: [crates/ladon-app/src/ipc.rs]

    The Unix socket between agents and the app: the checks before it is bound
    and used, the frames read from it, a client's exchange, and a connection
    that is served while a monitor thread watches whether its client is still
    there.  The socket calls are the family [ipc_call] of [Calls]; a call of the
    server's handler is one of them, so that it leaves its trace in the log. *)

From S2P Require Import Prelude Errors Utf8 Model Json Protocol Paths Calls Workers.
Local Open Scope Z_scope.

(** ** Calls *)

(** [io::ErrorKind], as far as the endpoint distinguishes it. *)
Inductive ErrorKind : Set :=
| AddrInUse | ConnectionRefused | PathNotFound | UnexpectedEof | ConnectionReset | ConnectionAborted
| WouldBlock | TimedOut | Interrupted | OtherKind.
#[export] Instance ErrorKind_eq_dec : EqDecision ErrorKind.
Proof. solve_decision. Defined.
Abbreviation Reply A := (result ErrorKind A) (only parsing).

(** What [fs::symlink_metadata] tells. *)
Record EndpointMetadata := {
  is_socket : bool;
  is_directory : bool;
  endpoint_uid : Z;
  endpoint_mode : Z;
}.

(** An open socket by its descriptor. *)
Abbreviation Socket := Z (only parsing).

Inductive ipc_call : Type -> Type :=
| PathExists (path : string) : ipc_call bool
| CreateDirAll (path : string) : ipc_call (Reply unit)
| SetMode (path : string) (mode : Z) : ipc_call (Reply unit)
| LookAt (path : string) : ipc_call (Reply EndpointMetadata)
| RemoveFile (path : string) : ipc_call (Reply unit)
| BindListener (path : string) : ipc_call (Reply Socket)
| AcceptConnection (listener : Socket) : ipc_call (Reply Socket)
| SetNonblocking (listener : Socket) (nonblocking : bool) : ipc_call (Reply unit)
| Connect (path : string) : ipc_call (Reply Socket)
| Configure (s : Socket) : ipc_call (Reply unit)
| PeerUid (s : Socket) : ipc_call (option Z)
| ReadExact (s : Socket) (n : Z) : ipc_call (Reply bytes)
| WriteSocket (s : Socket) (b : bytes) : ipc_call (Reply unit)
| TryClone (s : Socket) : ipc_call (Reply Socket)
| SetReadTimeout (s : Socket) : ipc_call (Reply unit)
| PeekSocket (s : Socket) : ipc_call (Reply Z)
| CloseSocket (s : Socket) : ipc_call unit
| CallHandler (request : RpcRequest) : ipc_call RpcResponse.

(** [frame_read_error]. *)
Definition frame_read_error (kind : ErrorKind) : LadonError :=
  match kind with
  | UnexpectedEof | ConnectionReset | ConnectionAborted => IpcDisconnected
  | WouldBlock | TimedOut => IpcTimeout
  | _ => EndpointUnavailable
  end.
Definition unavailable (kind : ErrorKind) : LadonError := EndpointUnavailable.
Definition unsafe (kind : ErrorKind) : LadonError := UnsafeEndpoint.

(** [metadata.permissions().mode() & 0o077 != 0]. *)
Definition open_to_others (m : EndpointMetadata) : bool := negb (Z.land (endpoint_mode m) 0x3F =? 0).

Section endpoint.
Context (ask : forall A, ipc_call A -> list (call_event ipc_call) -> A).
Context (effective_uid : Z).
Context `{TextCrates, SerdeJson, Messages}.
Abbreviation Ipc := (Asks ipc_call) (only parsing).
Abbreviation perform := (perform ask) (only parsing).
Abbreviation or_error := (or_error ask) (only parsing).

Definition foreign (m : EndpointMetadata) : bool := negb (endpoint_uid m =? effective_uid).

(** [prepare_parent], [recover_stale_endpoint] and [validate_endpoint]. *)
Definition prepare_parent (path : string) : Ipc unit :=
  parent ← os_lift (ok_or (path_parent path) UnsafeEndpoint);
  existed ← perform (PathExists parent);
  or_error unavailable (CreateDirAll parent);;
  (if (existed : bool) then mret tt else or_error unavailable (SetMode parent 0x1C0));;
  metadata ← or_error unsafe (LookAt parent);
  os_lift (reject_if (negb (is_directory metadata) || foreign metadata || open_to_others metadata) UnsafeEndpoint).
Definition recover_stale_endpoint (path : string) : Ipc unit :=
  answer ← perform (LookAt path);
  match answer with
  | Err _ => mret tt
  | Ok metadata =>
    os_lift (reject_if (negb (is_socket metadata) || foreign metadata) UnsafeEndpoint);;
    connected ← perform (Connect path);
    match connected with
    | Ok s => perform (CloseSocket s);; os_err AlreadyRunning
    | Err ConnectionRefused | Err PathNotFound => or_error unavailable (RemoveFile path)
    | Err _ => os_err EndpointUnavailable
    end
  end.
Definition validate_endpoint (path : string) : Ipc unit :=
  metadata ← or_error unavailable (LookAt path);
  os_lift (reject_if (negb (is_socket metadata) || foreign metadata || open_to_others metadata) UnsafeEndpoint).

(** [verify_peer]. *)
Definition verify_peer (s : Socket) : Ipc unit :=
  uid ← perform (PeerUid s);
  os_lift (reject_if (negb (bool_decide (uid = Some effective_uid))) InvalidPeer).

(** [read_frame]: the header is four bytes. *)
Definition read_frame (s : Socket) : Ipc bytes :=
  header ← or_error frame_read_error (ReadExact s 4);
  let length := be_value header in
  os_lift (reject_if (length =? 0) InvalidFrame);;
  os_lift (reject_if (MAX_FRAME_BYTES <? length) FrameTooLarge);;
  payload ← or_error frame_read_error (ReadExact s length);
  mret (header ++ payload).

(** [read_request]: a rejected request is answered if it can be. *)
Definition reject_request (s : Socket) (frame : bytes) (error : LadonError) : Ipc unit :=
  match request_error_response frame error with
  | Some response =>
    match encode_response_frame response with
    | Ok reply => perform (WriteSocket s reply);; mret tt
    | Err _ => mret tt
    end
  | None => mret tt
  end.
Definition read_request (s : Socket) : Ipc RpcRequest :=
  frame ← read_frame s;
  match decode_request_frame frame with
  | Ok request => mret request
  | Err error => reject_request s frame error;; os_err error
  end.

(** ** The client *)

(** A stream that is closed when an error is returned, and one that is closed anyway. *)
Definition closing {A} (s : Socket) (m : Ipc A) : Ipc A := on_error (perform (CloseSocket s)) m.

(** [LocalClient::exchange]; a document that is not a response is not an invalid request. *)
Definition response_error_of (error : LadonError) : LadonError :=
  match error with InvalidRequest => InvalidResponse | other => other end.
Definition map_error {A} (f : LadonError -> LadonError) (r : LResult A) : LResult A :=
  match r with Ok a => Ok a | Err e => Err (f e) end.
Definition converse (s : Socket) (request : RpcRequest) : Ipc RpcResponse :=
  verify_peer s;;
  frame ← os_lift (encode_request_frame request);
  or_error unavailable (WriteSocket s frame);;
  response ← read_frame s;
  response ← os_lift (map_error response_error_of (decode_response_frame response));
  os_lift (reject_if (negb (response_request_id response =? request_id request)) InvalidResponse);;
  mret response.
Definition exchange (path : string) (request : RpcRequest) : Ipc (Socket * RpcResponse) :=
  validate_endpoint path;;
  s ← or_error unavailable (Connect path);
  response ← closing s (converse s request);
  mret (s, response).

(** [LocalClient::call] and [LocalClient::open_session]. *)
Definition call (path : string) (request : RpcRequest) : Ipc RpcResponse :=
  '(s, response) ← exchange path request;
  perform (CloseSocket s);;
  mret response.
Definition is_session_open (m : RpcMethod) : bool := match m with SessionOpen => true | _ => false end.
Definition opened (response : RpcResponse) : bool :=
  match response_result response with Some SessionOpened => true | _ => false end.
Definition open_session (path : string) (request : RpcRequest) : Ipc Socket :=
  os_lift (reject_if (negb (is_session_open (method request))) InvalidRequest);;
  '(s, response) ← exchange path request;
  closing s (
    match error_details response with
    | Some (code, _) => os_err (default InvalidResponse (from_code code))
    | None => os_lift (reject_if (negb (opened response)) InvalidResponse)
    end);;
  mret s.

(** [LocalSession::is_connected]: [recv] would block. *)
Definition is_connected (s : Socket) : Ipc bool :=
  received ← perform (PeekSocket s);
  mret (bool_decide (received = Err WouldBlock)).

(** ** The server *)
Record LocalServer := { listener : Socket; server_path : string }.

(** [LocalServer::bind]; the listener is closed when a later check fails. *)
Definition bind_error (kind : ErrorKind) : LadonError :=
  match kind with AddrInUse => AlreadyRunning | _ => EndpointUnavailable end.
Definition bind (path : string) : Ipc LocalServer :=
  prepare_parent path;;
  recover_stale_endpoint path;;
  s ← or_error bind_error (BindListener path);
  closing s (
    or_error unavailable (SetMode path 0x180);;
    validate_endpoint path);;
  mret {| listener := s; server_path := path |}.

(** [LocalServer::set_nonblocking] and [Drop for LocalServer]. *)
Definition set_nonblocking (server : LocalServer) (nonblocking : bool) : Ipc unit :=
  or_error unavailable (SetNonblocking (listener server) nonblocking).
Definition drop_server (server : LocalServer) : Ipc unit :=
  valid ← attempt (validate_endpoint (server_path server));
  (if is_ok valid then perform (RemoveFile (server_path server));; mret tt else mret tt);;
  perform (CloseSocket (listener server)).

(** [LocalServer::try_accept]: nothing is there when the listener would block. *)
Definition admit_peer (s : Socket) : Ipc unit :=
  or_error unavailable (Configure s);;
  verify_peer s.
Definition accept (server : LocalServer) : Ipc (option Socket) :=
  answer ← perform (AcceptConnection (listener server));
  match answer with
  | Ok s => mret (Some s)
  | Err WouldBlock => mret None
  | Err _ => os_err EndpointUnavailable
  end.
Definition try_accept (server : LocalServer) : Ipc (option Socket) :=
  accepted ← accept server;
  match accepted with
  | Some s => closing s (admit_peer s);; mret (Some s)
  | None => mret None
  end.

(** [LocalServer::serve_once] and [LocalServer::try_serve_once]. *)
Definition send_response (s : Socket) (response : RpcResponse) : Ipc unit :=
  frame ← os_lift (encode_response_frame response);
  or_error unavailable (WriteSocket s frame).
Definition answer_request (s : Socket) : Ipc unit :=
  admit_peer s;;
  request ← read_request s;
  response ← perform (CallHandler request);
  send_response s response.
Definition serve_once (server : LocalServer) : Ipc unit :=
  s ← or_error unavailable (AcceptConnection (listener server));
  closing s (answer_request s);;
  perform (CloseSocket s).
Definition try_serve_once (server : LocalServer) : Ipc bool :=
  accepted ← accept server;
  match accepted with
  | None => mret false
  | Some s => closing s (answer_request s);; perform (CloseSocket s);; mret true
  end.
End endpoint.

(** ** A connection that is served

    [LocalConnection::serve] and its monitor thread share a cancellation flag
    ([RunCancellation]) and the order to stop.  The monitor looks at the order,
    then reads for at most 100 milliseconds.  [calls] are those of the serving thread,
    from the accepting of the stream on. *)
Inductive MonitorState : Set := NotStarted | Looking | Reading | Ended.
#[export] Instance MonitorState_eq_dec : EqDecision MonitorState.
Proof. solve_decision. Defined.
Record Connection := {
  cancelled : bool;
  stop_monitor : bool;
  monitor : MonitorState;
  calls : list (call_event ipc_call);
}.
Definition new_connection (l : list (call_event ipc_call)) : Connection :=
  {| cancelled := false; stop_monitor := false; monitor := NotStarted; calls := l |}.
Definition set_cancelled (c : Connection) : Connection :=
  {| cancelled := true; stop_monitor := stop_monitor c; monitor := monitor c; calls := calls c |}.
Definition set_stop (c : Connection) : Connection :=
  {| cancelled := cancelled c; stop_monitor := true; monitor := monitor c; calls := calls c |}.
Definition set_monitor (m : MonitorState) (c : Connection) : Connection :=
  {| cancelled := cancelled c; stop_monitor := stop_monitor c; monitor := m; calls := calls c |}.
Definition set_calls (l : list (call_event ipc_call)) (c : Connection) : Connection :=
  {| cancelled := cancelled c; stop_monitor := stop_monitor c; monitor := monitor c; calls := l |}.

(** A step of the monitor; [answer] is what its next read gives. *)
Definition monitor_step (answer : Reply Z) (c : Connection) : Connection :=
  match monitor c with
  | Looking => set_monitor (if stop_monitor c then Ended else Reading) c
  | Reading =>
    match answer with
    | Err WouldBlock | Err TimedOut | Err Interrupted => set_monitor Looking c
    | _ => set_monitor Ended (set_cancelled c)
    end
  | _ => c
  end.

(** What other threads do to a connection: the monitor runs, and whoever was given the
    flag may set it. *)
Inductive connection_step : unit -> Connection -> Connection -> Prop :=
| monitor_steps answer c : connection_step tt c (monitor_step answer c)
| flag_is_set c : connection_step tt c (set_cancelled c).

Section serving.
Context (ask : forall A, ipc_call A -> list (call_event ipc_call) -> A).
Context `{TextCrates, SerdeJson, Messages}.
Abbreviation Serving A := (@Worker Connection unit A) (only parsing).

(** [LocalConnection::serve]: the calls of the serving thread, and the handler, which may
    look at the flag. *)
Definition change (f : Connection -> Connection) : Serving unit := critical tt (fun c => (Ok tt, f c)).
Definition on_socket {A} (m : Asks ipc_call A) : Serving A :=
  await tt (fun c => match m (calls c) with (Some r, l) => (Some r, set_calls l c) | (None, _) => (None, c) end).
Definition handle_request (handler : RpcRequest -> Connection -> RpcResponse) (request : RpcRequest) :
    Serving RpcResponse := critical tt (fun c =>
  let response := handler request c in (Ok response, set_calls (Event (CallHandler request) response :: calls c) c)).
Definition await_cancelled : Serving unit := await tt (fun c => (if cancelled c then Some (Ok tt) else None, c)).
Definition join_monitor : Serving unit :=
  await tt (fun c => (if bool_decide (monitor c = Ended) then Some (Ok tt) else None, c)).
Definition hold_session (request : RpcRequest) (response : RpcResponse) (write_result : LResult unit) : Serving unit :=
  if is_session_open (method request) then
    if opened response && is_ok write_result then await_cancelled else change set_cancelled
  else mret tt.
Definition serve_connection (s : Socket) (handler : RpcRequest -> Connection -> RpcResponse) : Serving unit :=
  request ← on_socket (read_request ask s);
  clone ← on_socket (or_error ask unavailable (TryClone s));
  on_socket (or_error ask unavailable (SetReadTimeout clone));;
  change (set_monitor Looking);;
  response ← handle_request handler request;
  write_result ← on_socket (attempt (send_response ask s response));
  hold_session request response write_result;;
  change set_stop;;
  join_monitor;;
  worker_lift write_result.
End serving.
