(* ===== verification/EndpointProperties.v ===== *)
(** * What the endpoint promises

    A client talks only to a socket that is its user's own and believes only an
    answer to its own request; the server calls its handler only with requests
    that decode; a request that is served remotely is answered as the handler
    answers; and when a session ends its flag is set. *)

From S2P Require Import Prelude Errors Utf8 Model Json Protocol ProtocolReference Paths Calls Workers Endpoint.
Local Open Scope Z_scope.

(** ** What a log shows *)
Section log.
Context (effective_uid : Z).
Context `{TextCrates, SerdeJson, Messages}.
Abbreviation log := (list (call_event ipc_call)) (only parsing).
Implicit Types l : log.

(** The sockets that were opened and not closed. *)
Definition open_after {A} (c : ipc_call A) : A -> list Socket -> list Socket :=
  match c with
  | Connect _ | AcceptConnection _ | BindListener _ => fun a open => match a with Ok s => s :: open | Err _ => open end
  | CloseSocket s => fun _ open => List.filter (fun o => negb (o =? s)) open
  | _ => fun _ open => open
  end.
Fixpoint open_sockets l : list Socket :=
  match l with [] => [] | Event c a :: l => open_after c a (open_sockets l) end.

(** The path was seen to be a socket of this user that no one else may open. *)
Definition private_socket (path : string) l : Prop :=
  exists m, Event (LookAt path) (Ok m) ∈ l /\ is_socket m = true /\ endpoint_uid m = effective_uid /\
    Z.land (endpoint_mode m) 0x3F = 0.

(** Whoever is at the other end of a stream is this user. *)
Definition own_peer (s : Socket) l : Prop := Event (PeerUid s) (Some effective_uid) ∈ l.

(** The frame that was read from a socket. *)
Definition was_read (s : Socket) (frame : bytes) l : Prop :=
  exists header payload, frame = header ++ payload /\ Event (ReadExact s 4) (Ok header) ∈ l /\
    Event (ReadExact s (be_value header)) (Ok payload) ∈ l.

(** A property of every message written, of the calls before it. *)
Fixpoint every_write (P : Socket -> bytes -> log -> Prop) l : Prop :=
  match l with
  | [] => True
  | Event (WriteSocket s b) _ :: l => P s b l /\ every_write P l
  | _ :: l => every_write P l
  end.

(** A client sends its request, once it has checked the path, the connection and the
    peer. *)
Definition careful (path : string) (request : RpcRequest) (s : Socket) (b : bytes) l : Prop :=
  encode_request_frame request = Ok b /\ private_socket path l /\ Event (Connect path) (Ok s) ∈ l /\ own_peer s l.

(** It believes an answer to that request, from that peer. *)
Definition believed (request : RpcRequest) (response : RpcResponse) l : Prop :=
  response_request_id response = request_id request /\
  exists s frame, own_peer s l /\ was_read s frame l /\ decode_response_frame frame = Ok response.

(** The request that a frame which was read from the socket decodes to. *)
Definition requested (s : Socket) (request : RpcRequest) l : Prop :=
  exists frame, was_read s frame l /\ decode_request_frame frame = Ok request.

(** The calls of the handler with their answers, and a property of each, of the calls
    before it. *)
Fixpoint handled l : list (RpcRequest * RpcResponse) :=
  match l with
  | [] => []
  | Event c a :: l =>
    match c in ipc_call A return A -> list (RpcRequest * RpcResponse) with
    | CallHandler request => fun response => (request, response) :: handled l
    | _ => fun _ => handled l
    end a
  end.
Fixpoint every_handling (P : RpcRequest -> log -> Prop) l : Prop :=
  match l with
  | [] => True
  | Event (CallHandler request) _ :: l => P request l /\ every_handling P l
  | _ :: l => every_handling P l
  end.
Fixpoint written l : list bytes :=
  match l with
  | [] => []
  | Event (WriteSocket _ b) _ :: l => b :: written l
  | _ :: l => written l
  end.

(** The handler is called with a request that was read from a checked peer. *)
Definition handles_request (s : Socket) (request : RpcRequest) l : Prop := own_peer s l /\ requested s request l.

(** A server writes, to a checked peer, the answer that the handler has just given to its
    request, or an error for a frame that it could not accept, without calling the handler. *)
Definition answers_request (s : Socket) (to : Socket) (b : bytes) l : Prop :=
  to = s /\ own_peer s l /\
  ((exists request response older, l = Event (CallHandler request) response :: older /\ requested s request older /\
      encode_response_frame response = Ok b) \/
   (handled l = [] /\ exists frame e response, was_read s frame l /\ decode_request_frame frame = Err e /\
      request_error_response frame e = Some response /\ encode_response_frame response = Ok b)).

(** What a server may have done for a connection, and has done if it was served. *)
Definition answered_well (s : Socket) (served : bool) l : Prop :=
  every_handling (handles_request s) l /\ every_write (answers_request s) l /\
  (length (handled l) <= 1)%nat /\ (length (written l) <= 1)%nat /\
  (served = true -> exists request response b, handled l = [(request, response)] /\
     encode_response_frame response = Ok b /\ written l = [b]).
Definition served_well (served : bool) l : Prop := open_sockets l = [] /\ exists s, answered_well s served l.

(** The directory of the endpoint was seen to be this user's own and closed to others. *)
Definition private_parent (path : string) l : Prop :=
  exists parent m, path_parent path = Some parent /\ Event (LookAt parent) (Ok m) ∈ l /\
    is_directory m = true /\ endpoint_uid m = effective_uid /\ Z.land (endpoint_mode m) 0x3F = 0.

(** Only a socket of this user that no server listens on is removed. *)
Definition abandoned (path : string) l : Prop :=
  (exists m, Event (LookAt path) (Ok m) ∈ l /\ is_socket m = true /\ endpoint_uid m = effective_uid) /\
  (Event (Connect path) (Err ConnectionRefused) ∈ l \/ Event (Connect path) (Err PathNotFound) ∈ l).
Fixpoint every_removal (P : string -> log -> Prop) l : Prop :=
  match l with
  | [] => True
  | Event (RemoveFile path) _ :: l => P path l /\ every_removal P l
  | _ :: l => every_removal P l
  end.
End log.

Lemma map_error_Ok {A} f (r : LResult A) a : map_error f r = Ok a <-> r = Ok a.
Proof. destruct r; naive_solver. Qed.

(** Reads the checks that were passed. *)
Ltac passed :=
  repeat match goal with
  | H : reject_if _ _ = Ok _ |- _ => apply reject_if_Ok in H
  | H : map_error _ _ = Ok _ |- _ => apply map_error_Ok in H
  | H : negb (bool_decide (_ = _)) = false |- _ => apply negb_false_iff, bool_decide_eq_true in H; subst
  | H : negb (_ =? _) = false |- _ => apply negb_false_iff, Z.eqb_eq in H
  | u : unit |- _ => destruct u
  end.
(** The event is in a log that is written out. *)
Ltac in_log := first [apply list_elem_of_here | apply list_elem_of_further; in_log].
Ltac sockets := cbn [open_sockets open_after List.filter]; rewrite ?Z.eqb_refl; cbn [negb List.filter].

(** ** The client *)
Section client.
Context (ask : forall A, ipc_call A -> list (call_event ipc_call) -> A) (effective_uid : Z).
Context `{TextCrates, SerdeJson, Messages}.

Lemma private_metadata (flag : bool) m :
  negb flag || foreign effective_uid m || open_to_others m = false ->
  flag = true /\ endpoint_uid m = effective_uid /\ Z.land (endpoint_mode m) 0x3F = 0.
Proof.
  unfold foreign, open_to_others. intros Hm. bool_hyps. by destruct flag.
Qed.

Lemma private_socket_seen path m l :
  negb (is_socket m) || foreign effective_uid m || open_to_others m = false ->
  Event (LookAt path) (Ok m) ∈ l -> private_socket effective_uid path l.
Proof. intros (? & ? & ?)%private_metadata Hl. by exists m. Qed.

Lemma careful_intro path request s b l m :
  encode_request_frame request = Ok b ->
  negb (is_socket m) || foreign effective_uid m || open_to_others m = false ->
  Event (LookAt path) (Ok m) ∈ l -> Event (Connect path) (Ok s) ∈ l -> Event (PeerUid s) (Some effective_uid) ∈ l ->
  careful effective_uid path request s b l.
Proof. intros ? Hm ? ? ?. split_and!; [done|by apply private_socket_seen with m|done..]. Qed.

Lemma exchange_wp path request (Q : LResult (Socket * RpcResponse) -> list (call_event ipc_call) -> Prop) :
  (forall s response l, open_sockets l = [s] -> every_write (careful effective_uid path request) l ->
     believed effective_uid request response l -> Q (Ok (s, response)) l) ->
  (forall e l, open_sockets l = [] -> every_write (careful effective_uid path request) l -> Q (Err e) l) ->
  os_wp (exchange ask effective_uid path request) Q [].
Proof.
  intros HOk HErr. unfold exchange, validate_endpoint, closing, converse, verify_peer, read_frame.
  repeat ask_step; passed.
  all: first [apply HErr|apply HOk]; [by sockets|cbn [every_write]; try (split; [|done])..].
  all: try (eapply careful_intro; [done|done|in_log..]).
  all: try exact I.
  split; [done|]. eexists _, _. split_and!; [in_log| |done]. eexists _, _. split_and!; [done|in_log..].
Qed.

(** C22. A client sends its request, and nothing else, only through a socket that it saw to
    be a socket of its own user closed to everyone else, and only to a peer that is its
    own user.  An answer that it accepts was read from that peer, is a well-formed frame
    and carries the identifier of the request.  A call leaves no stream open, and
    [open_session] leaves open exactly the stream of the session it answers, if it answers
    one. *)
Theorem client_is_careful path request :
  os_wp (call ask effective_uid path request) (fun r l =>
    every_write (careful effective_uid path request) l /\ open_sockets l = [] /\
    match r with Ok response => believed effective_uid request response l | Err _ => True end) [] /\
  os_wp (open_session ask effective_uid path request) (fun r l =>
    every_write (careful effective_uid path request) l /\
    match r with
    | Ok s => open_sockets l = [s] /\ method request = SessionOpen /\
      exists response, believed effective_uid request response l /\ response_result response = Some SessionOpened
    | Err _ => open_sockets l = []
    end) [].
Proof.
  split.
  - unfold call. apply os_wp_bind, exchange_wp; [|done]. intros s response l Ho Hw Hb.
    repeat ask_step. split_and!; [done|sockets; by rewrite Ho; sockets|].
    destruct Hb as (Hi & s' & frame & Hp & (h & p & Hf & Hh & Hpl) & Hd). split; [done|].
    exists s', frame. split_and!; [by right| |done]. exists h, p. split_and!; [done|by right..].
  - unfold open_session, closing. repeat ask_step; passed; [|done].
    apply exchange_wp; [|done]. intros s response l Ho Hw Hb. cbv beta iota. repeat ask_step.
    unfold error_details, opened, response_result. destruct (outcome response) as [result|error] eqn:Hr;
      repeat ask_step; passed.
    + destruct result; try done. split_and!; [done..|by destruct (method request)|]. exists response. by rewrite Hr.
    + split; [done|]. sockets. by rewrite Ho; sockets.
    + split; [done|]. sockets. by rewrite Ho; sockets.
Qed.
End client.

(** ** The server *)
Section server.
Context (ask : forall A, ipc_call A -> list (call_event ipc_call) -> A) (effective_uid : Z).
Context `{TextCrates, SerdeJson, Messages}.

Lemma every_write_event P {A} (c : ipc_call A) a l :
  match c with WriteSocket _ _ => False | _ => True end -> every_write P l -> every_write P (Event c a :: l).
Proof. by destruct c. Qed.

Lemma was_read_event s frame {A} (c : ipc_call A) a l : was_read s frame l -> was_read s frame (Event c a :: l).
Proof. intros (h & p & ? & ? & ?). exists h, p. split_and!; [done|by right..]. Qed.
Lemma requested_event s request {A} (c : ipc_call A) a l : requested s request l -> requested s request (Event c a :: l).
Proof. intros (frame & ? & ?). exists frame. split; [by apply was_read_event|done]. Qed.

(** The peer was checked; nothing was handled or written yet. *)
Record admitted (s : Socket) (open : list Socket) (l : list (call_event ipc_call)) : Prop := {
  ad_peer : own_peer effective_uid s l;
  ad_handled : handled l = [];
  ad_written : written l = [];
  ad_handling : every_handling (handles_request effective_uid s) l;
  ad_writes : every_write (answers_request effective_uid s) l;
  ad_open : open_sockets l = open;
}.
Definition well (s : Socket) (open : list Socket) (served : bool) (l : list (call_event ipc_call)) : Prop :=
  answered_well effective_uid s served l /\ open_sockets l = open.
Lemma admitted_well s open l : admitted s open l -> well s open false l.
Proof. intros []. split; [|done]. split_and!; [done|done|rewrite ad_handled0; cbn; lia|rewrite ad_written0; cbn; lia|done]. Qed.
Definition silent {A} (c : ipc_call A) : Prop :=
  match c with
  | WriteSocket _ _ | CallHandler _ | Connect _ | AcceptConnection _ | BindListener _ | CloseSocket _ => False
  | _ => True
  end.
Lemma admitted_event s open {A} (c : ipc_call A) a l : silent c -> admitted s open l -> admitted s open (Event c a :: l).
Proof. intros Hc []. split; [by right|by destruct c..]. Qed.

(** The request was read: the handler may be called. *)
Lemma read_request_admitted s open l0 :
  admitted s open l0 ->
  os_wp (read_request ask s) (fun r l =>
    match r with Ok request => admitted s open l /\ requested s request l | Err _ => well s open false l end) l0.
Proof.
  intros Ha. unfold read_request, read_frame. repeat ask_step; passed.
  all: try (apply admitted_well; by repeat (apply admitted_event; [exact I|])).
  match goal with |- context [decode_request_frame (?h ++ ?p)] => rename h into header, p into payload end.
  set (frame := header ++ payload). match goal with |- os_wp _ _ ?l => set (l1 := l) end.
  assert (Hread : was_read s frame l1) by (exists header, payload; split_and!; [done|in_log..]).
  assert (Ha1 : admitted s open l1) by (by repeat (apply admitted_event; [exact I|])).
  destruct (decode_request_frame frame) as [request|e] eqn:Hd.
  { ask_step. split; [done|]. by exists frame. }
  unfold reject_request. destruct (request_error_response frame e) as [response|] eqn:Hr;
    [destruct (encode_response_frame response) as [reply|] eqn:Hb|]; repeat ask_step; try by apply admitted_well.
  destruct Ha1. split; [|done]. split_and!.
  - done.
  - cbn [every_write]. split; [|done]. split_and!; [done..|]. right. split; [done|]. exists frame, e, response. by split_and!.
  - cbn [handled]. rewrite ad_handled0. cbn. lia.
  - cbn [written]. rewrite ad_written0. cbn. lia.
  - done.
Qed.
Lemma send_response_admitted s open request response l0 :
  admitted s open l0 -> requested s request l0 ->
  os_wp (send_response ask s response) (fun r => well s open (is_ok r)) (Event (CallHandler request) response :: l0).
Proof.
  intros [] Hreq. unfold send_response. repeat ask_step.
  all: split; [split_and!|done]; cbn [every_handling every_write handled written]; rewrite ?ad_handled0, ?ad_written0.
  all: try (cbn; lia).
  all: try by split.
  all: try done.
  all: try (split; [|done]; split_and!; [done|by right|left; by exists request, response, l0]).
  intros _. eauto 6.
Qed.
Lemma answer_request_wp s l0 :
  handled l0 = [] -> written l0 = [] -> every_handling (handles_request effective_uid s) l0 ->
  every_write (answers_request effective_uid s) l0 ->
  os_wp (answer_request ask effective_uid s) (fun r => well s (open_sockets l0) (is_ok r)) l0.
Proof.
  intros Hh Hw Heh Hew. unfold answer_request, admit_peer, verify_peer.
  assert (Hfail : forall l, handled l = [] -> written l = [] -> every_handling (handles_request effective_uid s) l ->
    every_write (answers_request effective_uid s) l -> open_sockets l = open_sockets l0 -> well s (open_sockets l0) false l).
  { intros l Hh' Hw' ? ? ?. split; [|done]. split_and!; [done|done|rewrite Hh'; cbn; lia|rewrite Hw'; cbn; lia|done]. }
  do 3 ask_step; [|by apply Hfail]. do 3 ask_step; passed; [|by apply Hfail].
  ask_step. eapply os_wp_mono; [apply (read_request_admitted s (open_sockets l0)); split; [in_log|done..]|].
  intros [request|e] l; [|done]. intros [Ha Hr]. do 2 ask_step. by eapply send_response_admitted.
Qed.

Lemma serve_stream_wp server s (Q : LResult unit -> list (call_event ipc_call) -> Prop) :
  (forall l, served_well effective_uid true (Event (CloseSocket s) tt :: l) -> Q (Ok tt) l) ->
  (forall e l, served_well effective_uid false l -> Q (Err e) l) ->
  os_wp (closing ask s (answer_request ask effective_uid s)) Q
    [Event (AcceptConnection (listener server)) (Ok s)].
Proof.
  intros HOk HErr. unfold closing. repeat ask_step.
  eapply os_wp_mono; [by apply (answer_request_wp s)|].
  assert (Hclose : forall served l, well s [s] served l -> served_well effective_uid served (Event (CloseSocket s) tt :: l)).
  { intros served l [Ha Ho]. split; [sockets; rewrite Ho; by sockets|]. by exists s. }
  intros [[]|e] l Hl; [by apply HOk, Hclose|]. repeat ask_step.
  match goal with a : unit |- _ => destruct a end. by apply HErr, Hclose.
Qed.

Lemma nothing_served {A} (c : ipc_call A) a :
  open_after c a [] = [] -> match c with WriteSocket _ _ | CallHandler _ => False | _ => True end ->
  served_well effective_uid false [Event c a].
Proof. intros Ho Hc. split; [done|]. exists 0. split_and!; [by destruct c|by destruct c|destruct c; cbn; try lia; done..|done]. Qed.

(** A stream that [try_accept] answers has a checked peer. *)
Lemma try_accept_admitted server :
  os_wp (try_accept ask effective_uid server) (fun r l =>
    match r with Ok (Some s) => admitted s [s] l | _ => open_sockets l = [] /\ handled l = [] /\ written l = [] end) [].
Proof.
  unfold try_accept, accept, closing, admit_peer, verify_peer. do 3 ask_step.
  destruct a as [s|k]; [|by destruct k; repeat ask_step].
  repeat ask_step; passed; try by (split_and!; [sockets; by sockets|done..]).
  split; try done. in_log.
Qed.
(** *** The connections of agents *)
Definition on_calls (P : list (call_event ipc_call) -> Prop) : list (unit * Connection) -> Connection -> Prop :=
  fun _ c => P (calls c).
#[local] Instance on_calls_kept P : Kept connection_step (on_calls P).
Proof.
  intros before l c c' Hc Hs. destruct Hs as [answer c|c]; [|done]. unfold on_calls, monitor_step in *.
  destruct (monitor c); [done|done| |done]. by destruct answer as [n|[]].
Qed.
Lemma hoare_on_socket {A} (m : Asks ipc_call A) (P E : list (call_event ipc_call) -> Prop) Q :
  (forall l, P l -> os_wp m (fun r l' => match r with Ok a => Q a l' | Err _ => E l' end) l) ->
  hoare connection_step (on_calls P) (on_socket m) (fun a => on_calls (Q a)) (fun _ => on_calls E).
Proof.
  intros Hm. apply hoare_await; try apply _. intros before c Hc. specialize (Hm _ Hc). unfold os_wp in Hm.
  destruct (m (calls c)) as [[r|] l']; [|done]. by destruct r.
Qed.
Lemma hoare_change f (P E : list (call_event ipc_call) -> Prop) :
  (forall c, calls (f c) = calls c) ->
  hoare connection_step (on_calls P) (change f) (fun _ => on_calls P) (fun _ => on_calls E).
Proof. intros Hf. apply hoare_critical; try apply _. intros before c Hc. unfold on_calls in *. cbn. by rewrite Hf. Qed.
Lemma hoare_wait (b : Connection -> bool) (P E : list (call_event ipc_call) -> Prop) :
  hoare connection_step (on_calls P) (await tt (fun c => (if b c then Some (Ok tt) else None, c)))
    (fun _ => on_calls P) (fun _ => on_calls E).
Proof. apply hoare_await; try apply _. intros before c Hc. by destruct (b c). Qed.

Lemma serve_connection_hoare s open handler :
  hoare connection_step (on_calls (admitted s open)) (serve_connection ask s handler)
    (fun _ => on_calls (well s open true)) (fun _ => on_calls (well s open false)).
Proof.
  unfold serve_connection. eapply hoare_bind; [apply _|apply hoare_on_socket; intros l; apply read_request_admitted|].
  intros request. cbv beta.
  assert (Hnext : forall A (c : ipc_call (Reply A)), silent c ->
    hoare connection_step (on_calls (fun l => admitted s open l /\ requested s request l))
      (on_socket (or_error ask unavailable c))
      (fun _ => on_calls (fun l => admitted s open l /\ requested s request l)) (fun _ => on_calls (well s open false))).
  { intros A c Hc. apply hoare_on_socket. intros l [Ha Hr]. ask_step.
    - split; [by apply admitted_event|by apply requested_event].
    - by apply admitted_well, admitted_event. }
  eapply hoare_bind; [apply _|by apply Hnext|]. intros clone. cbv beta.
  eapply hoare_bind; [apply _|by apply Hnext|]. intros []. cbv beta.
  eapply hoare_bind; [apply _|by apply hoare_change|]. intros []. cbv beta.
  eapply (hoare_bind connection_step _ _ _ (fun response => on_calls (fun l => exists l0, l = Event (CallHandler request) response :: l0 /\
    admitted s open l0 /\ requested s request l0))); [apply _| |].
  { apply hoare_critical; try apply _. intros before c Hc. by exists (calls c). }
  intros response. cbv beta.
  eapply (hoare_bind connection_step _ _ _ (fun write_result => on_calls (well s open (is_ok write_result)))); [apply _| |].
  { apply hoare_on_socket. intros l (l0 & -> & Ha & Hr). apply os_wp_attempt. cbv beta iota. by apply send_response_admitted. }
  intros write_result. cbv beta.
  eapply (hoare_bind connection_step _ _ _ (fun _ => on_calls (well s open (is_ok write_result)))); [apply _| |].
  { unfold hold_session. destruct (is_session_open _); [destruct (_ && _)|]; [apply hoare_wait|by apply hoare_change|].
    apply (hoare_answer connection_step (Ok tt)); [apply _|done]. }
  intros []. eapply (hoare_bind connection_step _ _ _ (fun _ => on_calls (well s open (is_ok write_result)))); [apply _|by apply hoare_change|].
  intros []. eapply (hoare_bind connection_step _ _ _ (fun _ => on_calls (well s open (is_ok write_result)))); [apply _|apply hoare_wait|].
  intros []. apply hoare_answer; [destruct write_result; apply _|]. by destruct write_result.
Qed.

(** C23. The server answers a connection only after it has seen that the peer is its own
    user.  It calls its handler at most once, and only after that check and with the request
    that a frame read from this peer decodes to; the frame it then writes is the answer that
    the handler has just given.  A frame that does not decode is answered with an error for
    the identifier it carries, or not at all, and the handler is not called.  At most one
    frame is written, exactly one, of the handler's answer, by a service that succeeds.  This
    holds of a connection of an agent, accepted by [try_accept] and served by [serve] in a
    thread of its own whatever its monitor and its handler do meanwhile, and of [serve_once]
    and [try_serve_once], which also leave no stream open whatever fails; [try_accept]
    itself calls no handler and writes nothing. *)
Theorem server_answers_requests server handler :
  os_wp (serve_once ask effective_uid server) (fun r => served_well effective_uid (is_ok r)) [] /\
  os_wp (try_serve_once ask effective_uid server)
    (fun r => served_well effective_uid (match r with Ok served => served | Err _ => false end)) [] /\
  match try_accept ask effective_uid server [] with
  | (Some (Ok (Some s)), l) => handled l = [] /\ written l = [] /\ open_sockets l = [s] /\
    forall tr r c, executes connection_step (serve_connection ask s handler) (new_connection l) tr r c ->
      answered_well effective_uid s (is_ok r) (calls c)
  | (_, l) => handled l = [] /\ written l = [] /\ open_sockets l = []
  end.
Proof.
  split_and!.
  - unfold serve_once. do 2 ask_step; [|by apply nothing_served].
    apply os_wp_bind, (serve_stream_wp server); [|done]. intros l Hl. cbv beta iota.
    apply os_wp_perform. by intros [] _.
  - unfold try_serve_once, accept. do 3 ask_step. destruct a as [s|k].
    + ask_step. apply os_wp_bind, (serve_stream_wp server); [|done]. intros l Hl. cbv beta iota.
      apply os_wp_bind, os_wp_perform. by intros [] _.
    + destruct k; repeat ask_step; by apply nothing_served.
  - pose proof (try_accept_admitted server) as Ha. unfold os_wp in Ha.
    destruct (try_accept ask effective_uid server []) as [[[[s|]|e]|] l]; [|naive_solver..].
    pose proof Ha as []. split_and!; [done..|]. intros tr r c Hx.
    pose proof (serve_connection_hoare s [s] handler [] (new_connection l) tr r c Ha Hx) as Hw.
    destruct r; apply Hw.
Qed.

Lemma prepare_parent_wp path (Q : LResult unit -> list (call_event ipc_call) -> Prop) :
  (forall r l, open_sockets l = [] -> every_removal (fun p l => p = path /\ abandoned effective_uid p l) l ->
     match r with Ok _ => private_parent effective_uid path l | Err _ => True end -> Q r l) ->
  os_wp (prepare_parent ask effective_uid path) Q [].
Proof.
  intros HQ. unfold prepare_parent. repeat ask_step; passed.
  all: try by apply HQ.
  match goal with H : ok_or _ _ = Ok ?p |- _ => rename p into parent; apply ok_or_Ok in H end.
  match goal with |- context [Event (PathExists parent) ?a] => destruct a end; repeat ask_step; passed.
  all: apply HQ; [done|done|]; try done.
  all: eexists parent, _; split; [done|]; split; [in_log|]; by apply private_metadata.
Qed.

Lemma recover_wp path l0 (Q : LResult unit -> list (call_event ipc_call) -> Prop) :
  open_sockets l0 = [] -> every_removal (fun p l => p = path /\ abandoned effective_uid p l) l0 ->
  (forall r l, open_sockets l = [] -> every_removal (fun p l => p = path /\ abandoned effective_uid p l) l ->
     (exists newer, l = newer ++ l0) -> Q r l) ->
  os_wp (recover_stale_endpoint ask effective_uid path) Q l0.
Proof.
  intros Ho Hr HQ. unfold recover_stale_endpoint. do 2 ask_step. destruct a as [m|k]; repeat ask_step; passed.
  2, 3: by apply HQ; [done..|]; eexists [_].
  match goal with |- context [Event (Connect path) ?a] => destruct a as [s|[]] end; repeat ask_step.
  all: apply HQ; [sockets; by rewrite ?Ho|cbn [every_removal]; try done|first [by eexists [_; _]|by eexists [_; _; _]]].
  all: split; [|done]; split; [done|]; split; [|by (left; in_log) || (right; in_log)].
  all: unfold foreign in *; bool_hyps; exists m; split; [in_log|by split].
Qed.

Lemma private_parent_before path newer l :
  private_parent effective_uid path l -> private_parent effective_uid path (newer ++ l).
Proof.
  intros (parent & m & Hp & Hl & Hm). exists parent, m. split_and!; [done|apply elem_of_app; by right|tauto..].
Qed.

End server.

(** ** A request that is served remotely *)

(** A world in which every call succeeds and these bytes arrive. *)
Fixpoint bytes_read (l : list (call_event ipc_call)) : Z :=
  match l with
  | [] => 0
  | Event (ReadExact _ n) _ :: l => n + bytes_read l
  | _ :: l => bytes_read l
  end.
Definition healthy (uid : Z) (handler : RpcRequest -> RpcResponse) (incoming : bytes) (A : Type) (c : ipc_call A) (l : list (call_event ipc_call)) : A :=
  match c in ipc_call A return A with
  | PathExists _ => true
  | LookAt _ => Ok {| is_socket := true; is_directory := true; endpoint_uid := uid; endpoint_mode := 0x180 |}
  | CreateDirAll _ | SetMode _ _ | RemoveFile _ | SetNonblocking _ _ | Configure _ | WriteSocket _ _ | SetReadTimeout _ => Ok tt
  | BindListener _ => Ok 3
  | AcceptConnection _ => Ok 4
  | Connect _ => Ok 5
  | TryClone _ => Ok 6
  | PeerUid _ => Some uid
  | PeekSocket _ => Err WouldBlock
  | ReadExact _ n => ok_or (get_slice (bytes_read l) (bytes_read l + n) incoming) UnexpectedEof
  | CloseSocket _ => tt
  | CallHandler request => handler request
  end.

Section remote.
Context (uid : Z) (handler : RpcRequest -> RpcResponse).
Context `{TextCratesLaws, SerdeJsonLaws, !Messages, !MessagesLaws}.

Lemma read_frame_healthy s frame payload l :
  checked_frame_payload frame = Ok payload -> bytes_read l = 0 ->
  exists l', read_frame (healthy uid handler frame) s l = (Some (Ok frame), l') /\ written l' = written l /\ handled l' = handled l.
Proof.
  intros [-> Hlen]%checked_frame_payload_Ok Hl. unfold MAX_FRAME_BYTES in Hlen.
  unfold read_frame, or_error, perform, os_lift, mbind, os_bind. cbn [healthy]. rewrite Hl.
  rewrite (get_slice_eq _ [] (be_bytes 4 (zlen payload)) payload)
    by (rewrite ?app_nil_l; unfold zlen; rewrite ?length_be_bytes; done).
  cbn [ok_or mret os_ret].
  rewrite be_value_bytes_small by lia.
  rewrite (proj2 (Z.eqb_neq (zlen payload) 0)), (proj2 (Z.ltb_ge MAX_FRAME_BYTES (zlen payload))) by (unfold MAX_FRAME_BYTES; lia).
  cbn [reject_if bytes_read]. rewrite Hl.
  rewrite (get_slice_eq _ (be_bytes 4 (zlen payload)) payload [])
    by (rewrite ?app_nil_r; unfold zlen; rewrite ?length_be_bytes; done || lia).
  cbn [ok_or]. eexists. split; [done|]. done.
Qed.

Lemma decoded_frame {A} (decode : bytes -> LResult A) (k : bytes -> LResult A) frame a :
  (decode frame = payload ← checked_frame_payload frame; k payload) -> decode frame = Ok a ->
  exists payload, checked_frame_payload frame = Ok payload.
Proof. intros -> (payload & Hp & _)%bind_Ok. by exists payload. Qed.

(** What the server does with a request, up to the handler's answer. *)
Lemma answer_request_healthy s frame request l :
  decode_request_frame frame = Ok request -> bytes_read l = 0 ->
  exists l', written l' = written l /\ handled l' = (request, handler request) :: handled l /\
    answer_request (healthy uid handler frame) uid s l =
    send_response (healthy uid handler frame) s (handler request) l'.
Proof.
  intros Hd Hl. destruct (decoded_frame decode_request_frame _ frame request eq_refl Hd) as [payload Hp].
  set (l1 := Event (PeerUid s) (Some uid) :: Event (Configure s) (Ok tt) :: l).
  destruct (read_frame_healthy s frame payload l1 Hp Hl) as (l2 & Hr & Hw & Hh).
  exists (Event (CallHandler request) (handler request) :: l2). split; [exact Hw|]. split; [cbn [handled]; by rewrite Hh|].
  unfold answer_request, admit_peer, verify_peer, read_request, or_error, perform, os_lift, mbind, os_bind.
  cbn [healthy mret os_ret]. rewrite bool_decide_eq_true_2 by done. cbn [negb reject_if].
  change (Event (PeerUid s) _ :: _) with l1. rewrite Hr, Hd. reflexivity.
Qed.

Lemma converse_healthy s request frame response reply l :
  encode_request_frame request = Ok frame -> decode_response_frame reply = Ok response ->
  response_request_id response = request_id request -> bytes_read l = 0 ->
  exists l', converse (healthy uid handler reply) uid s request l = (Some (Ok response), l') /\ written l' = frame :: written l.
Proof.
  intros He Hd Hi Hl. destruct (decoded_frame decode_response_frame _ reply response eq_refl Hd) as [payload Hp].
  set (l1 := Event (WriteSocket s frame) (Ok tt) :: Event (PeerUid s) (Some uid) :: l).
  destruct (read_frame_healthy s reply payload l1 Hp Hl) as (l2 & Hr & Hw & _).
  unfold converse, verify_peer, or_error, perform, os_lift, mbind, os_bind.
  cbn [healthy mret os_ret]. rewrite bool_decide_eq_true_2 by done. cbn [negb reject_if]. rewrite He.
  change (Event (WriteSocket s frame) _ :: _) with l1.
  rewrite Hr, Hd. cbn [map_error]. rewrite (proj2 (Z.eqb_eq _ _) Hi). exists l2. split; [done|]. by rewrite Hw.
Qed.

(** The worlds of the client and of the server, around their conversation. *)
Lemma call_healthy path request incoming :
  let l0 := [Event (Connect path) (Ok 5); Event (LookAt path)
    (Ok {| is_socket := true; is_directory := true; endpoint_uid := uid; endpoint_mode := 0x180 |})] in
  call (healthy uid handler incoming) uid path request [] =
  let '(answer, l) := converse (healthy uid handler incoming) uid 5 request l0 in
  (answer, match answer with Some _ => Event (CloseSocket 5) tt :: l | None => l end).
Proof.
  intros l0. unfold call, exchange, validate_endpoint, closing, on_error, or_error, os_lift, mbind, os_bind, perform.
  cbn [healthy mret os_ret is_socket]. unfold foreign, open_to_others. cbn [endpoint_uid endpoint_mode]. rewrite Z.eqb_refl.
  cbn [negb orb Z.land Pos.land Z.eqb reject_if]. change (Event (Connect path) _ :: _) with l0.
  by destruct (converse _ _ _ _ _) as [[[response|e]|] l].
Qed.
Lemma serve_once_healthy server incoming :
  serve_once (healthy uid handler incoming) uid server [] =
  let '(answer, l) := answer_request (healthy uid handler incoming) uid 4 [Event (AcceptConnection (listener server)) (Ok 4)] in
  (answer, match answer with Some _ => Event (CloseSocket 4) tt :: l | None => l end).
Proof.
  unfold serve_once, closing, on_error, or_error, mbind, os_bind, perform. cbn [healthy mret os_ret].
  by destruct (answer_request _ _ _ _) as [[[[]|e]|] l].
Qed.

(** A server that closes its stream without a reply. *)
Lemma converse_closed s request frame l :
  encode_request_frame request = Ok frame -> bytes_read l = 0 ->
  exists l', converse (healthy uid handler []) uid s request l = (Some (Err IpcDisconnected), l') /\ written l' = frame :: written l.
Proof.
  intros He Hl. unfold converse, verify_peer, read_frame, or_error, perform, os_lift, mbind, os_bind.
  cbn [healthy mret os_ret]. rewrite bool_decide_eq_true_2 by done. cbn [negb reject_if]. rewrite He.
  cbn [bytes_read]. rewrite Hl. change (get_slice 0 (0 + 4) (@nil byte)) with (@None bytes). cbn. eauto.
Qed.

(** C32. A call through the endpoint gives what the handler gives.  In a world in which no
    socket fails, let a client send a request within the bounds of the protocol, and let the
    handler answer it with a response within those bounds, of the protocol's version and
    with the identifier of the request.  Then the server calls its handler with exactly that
    request; if the response fits a frame the server writes one reply, and a client that
    reads this reply gets exactly the handler's response; if it does not fit, the server
    fails, writes nothing and closes the stream, and the client is told only that the
    connection was closed, although the handler has done its work. *)
Theorem remote_call_is_local path server request frame :
  request_wf request -> validate_request request = Ok tt -> encode_request_frame request = Ok frame ->
  response_wf (handler request) -> response_version (handler request) = PROTOCOL_VERSION ->
  response_request_id (handler request) = request_id request ->
  exists result served incoming answer answered,
    serve_once (healthy uid handler frame) uid server [] = (Some result, served) /\
    handled served = [(request, handler request)] /\
    call (healthy uid handler incoming) uid path request [] = (Some answer, answered) /\ written answered = [frame] /\
    match encode_response_frame (handler request) with
    | Ok reply => result = Ok tt /\ written served = [reply] /\ incoming = reply /\ answer = Ok (handler request)
    | Err e => e = FrameTooLarge /\ result = Err e /\ written served = [] /\ incoming = [] /\ answer = Err IpcDisconnected
    end.
Proof.
  intros Hreq Hval Hf Hresp Hv Hi.
  assert (Hdreq : decode_request_frame frame = Ok request).
  { pose proof (request_roundtrip_aux request Hreq) as Hrt. rewrite Hf in Hrt. destruct Hrt as [-> _]. by rewrite Hval. }
  destruct (answer_request_healthy 4 frame request [Event (AcceptConnection (listener server)) (Ok 4)] Hdreq eq_refl)
    as (ls & Hsw & Hsh & Hs).
  pose proof (serve_once_healthy server frame) as Hserve. rewrite Hs in Hserve.
  unfold send_response, or_error, os_lift, perform, mbind, os_bind in Hserve.
  pose proof (response_roundtrip (handler request) Hresp Hv) as Hrt.
  set (l0 := [Event (Connect path) (Ok 5); Event (LookAt path)
    (Ok {| is_socket := true; is_directory := true; endpoint_uid := uid; endpoint_mode := 0x180 |})]).
  destruct (encode_response_frame (handler request)) as [reply|e].
  - pose proof (call_healthy path request reply) as Hcall.
    destruct (converse_healthy 5 request frame (handler request) reply l0 Hf Hrt Hi eq_refl) as (la & Ha & Haw).
    cbv zeta in Hcall. fold l0 in Hcall. rewrite Ha in Hcall. do 5 eexists. split; [exact Hserve|]. split; [exact Hsh|]. split; [exact Hcall|].
    split; [exact Haw|]. split_and!; [done| |done..]. cbn [written]. by rewrite Hsw.
  - pose proof (call_healthy path request []) as Hcall.
    destruct (converse_closed 5 request frame l0 Hf eq_refl) as (la & Ha & Haw).
    cbv zeta in Hcall. fold l0 in Hcall. rewrite Ha in Hcall. do 5 eexists. split; [exact Hserve|]. split; [exact Hsh|]. split; [exact Hcall|].
    split; [exact Haw|]. by split_and!.
Qed.
End remote.

(** ** The life of a session *)
Section session.
Context (ask : forall A, ipc_call A -> list (call_event ipc_call) -> A).
Context `{TextCrates, SerdeJson, Messages}.
Abbreviation Assertion := (list (unit * Connection) -> Connection -> Prop) (only parsing).
Abbreviation hoare := (hoare connection_step) (only parsing).

(** What the other threads keep. *)
Definition watching : Assertion := fun _ c => monitor c <> NotStarted.
Definition over : Assertion := fun _ c => monitor c <> NotStarted /\ cancelled c = true.
Definition joined : Assertion := fun _ c => monitor c = Ended /\ cancelled c = true.
Definition unwatched : Assertion := fun _ c => monitor c = NotStarted.
Definition failed (e : LadonError) : Assertion := fun before c =>
  joined before c \/ unwatched before c /\ e = EndpointUnavailable.

Lemma monitor_step_cases answer c :
  let c' := monitor_step answer c in
  (monitor c = NotStarted <-> monitor c' = NotStarted) /\ (monitor c = Ended -> monitor c' = Ended) /\
  (cancelled c = true -> cancelled c' = true).
Proof. unfold monitor_step. destruct c as [[] [] []]; destruct answer as [n|[]]; naive_solver. Qed.

#[local] Instance watching_kept : Kept connection_step watching.
Proof.
  intros before l c c' Hc Hs. destruct Hs as [answer c|c]; [|done]. unfold watching in *.
  by rewrite <- (proj1 (monitor_step_cases answer c)).
Qed.
#[local] Instance over_kept : Kept connection_step over.
Proof.
  intros before l c c' [Hm Hf] Hs. split; [exact (watching_kept before l c c' Hm Hs)|]. destruct Hs as [answer c|c]; [|done].
  by apply monitor_step_cases.
Qed.
#[local] Instance joined_kept : Kept connection_step joined.
Proof.
  intros before l c c' [Hm Hf] Hs. destruct Hs as [answer c|c]; [|by split]. by split; apply monitor_step_cases.
Qed.
#[local] Instance unwatched_kept : Kept connection_step unwatched.
Proof.
  intros before l c c' Hm Hs. destruct Hs as [answer c|c]; [|done]. unfold unwatched in *. by apply monitor_step_cases.
Qed.
#[local] Instance failed_kept e : Kept connection_step (failed e).
Proof.
  intros before l c c' [Hj|[Hu He]] Hs; [left; exact (joined_kept before l c c' Hj Hs)|right]. split; [exact (unwatched_kept before l c c' Hu Hs)|done].
Qed.

Lemma unwatched_call {A} (c : ipc_call (Reply A)) :
  hoare unwatched (on_socket (or_error ask unavailable c)) (fun _ => unwatched) failed.
Proof.
  apply hoare_await; try apply _. intros before b Hu. unfold or_error, perform, mbind, os_bind, mret, os_ret, os_err.
  destruct (ask _ c (calls b)); cbn; [done|]. right. by split.
Qed.

Lemma hold_session_over request response write_result :
  method request = SessionOpen -> hoare watching (hold_session request response write_result) (fun _ => over) failed.
Proof.
  intros Hm. unfold hold_session. rewrite Hm. cbn [is_session_open]. destruct (opened response && is_ok write_result).
  - apply hoare_await; try apply _. intros before c Hc. destruct (cancelled c) eqn:Hf; cbn; [by split|done].
  - apply hoare_critical; try apply _. by intros before c Hc.
Qed.

(** When the service of a session ends, its cancellation flag is set: in every
    execution of [serve] for a request to open a session, whatever the handler answers,
    whether the answer can be written, and whenever the monitor or another thread acts, the
    flag is set and the monitor has ended at the end; or the stream could not be prepared
    and the handler was not called. *)
Theorem session_ends_cancelled s handler request l0 l tr r c :
  read_request ask s l0 = (Some (Ok request), l) -> method request = SessionOpen ->
  executes connection_step (serve_connection ask s handler) (new_connection l0) tr r c ->
  monitor c = Ended /\ cancelled c = true \/ monitor c = NotStarted /\ r = Err EndpointUnavailable.
Proof.
  intros Hr Hm Hx.
  assert (Ht : hoare (fun before c => unwatched before c /\ calls c = l0) (serve_connection ask s handler) (fun _ => joined) failed).
  { unfold serve_connection. apply (hoare_bind connection_step _ _ _ (fun a before c => unwatched before c /\ a = request)); [apply _| |].
    { apply hoare_await; try apply _.
      - intros before l' c1 c2 [Hu Ha] Hs. split; [exact (unwatched_kept before l' c1 c2 Hu Hs)|].
        destruct Hs as [answer c1|c1]; [|done]. unfold monitor_step. by rewrite Hu.
      - intros a before l' c1 c2 [Hu Ha] Hs. split; [exact (unwatched_kept before l' c1 c2 Hu Hs)|done].
      - intros before c' [Hu Hl]. rewrite Hl, Hr. by split. }
    intros request'. apply hoare_pure. intros ->.
    eapply (hoare_bind connection_step _ _ _ (fun _ => unwatched)); [apply _|apply unwatched_call|]. intros clone.
    eapply (hoare_bind connection_step _ _ _ (fun _ => unwatched)); [apply _|apply unwatched_call|]. intros [].
    eapply (hoare_bind connection_step _ _ _ (fun _ => watching)); [apply _| |].
    { apply hoare_critical; try apply _. by intros before c' Hc. }
    intros []. eapply (hoare_bind connection_step _ _ _ (fun _ => watching)); [apply _| |].
    { apply hoare_critical; try apply _. by intros before c' Hc. }
    intros response. eapply (hoare_bind connection_step _ _ _ (fun _ => watching)); [apply _| |].
    { apply hoare_await; try apply _. intros before c' Hc. unfold attempt.
      by destruct (send_response ask s response (calls c')) as [[]]. }
    intros write_result.
    eapply (hoare_bind connection_step _ _ _ (fun _ => over)); [apply _|by apply hold_session_over|]. intros [].
    eapply (hoare_bind connection_step _ _ _ (fun _ => over)); [apply _| |].
    { apply hoare_critical; try apply _. intros before c' [Hc Hf]. by split. }
    intros []. eapply (hoare_bind connection_step _ _ _ (fun _ => joined)); [apply _| |].
    { apply hoare_await; try apply _. intros before c' [Hc Hf]. case_bool_decide; cbn; by split. }
    intros []. apply hoare_answer; [destruct write_result; apply _|]. intros before c' Hc.
    destruct write_result; [exact Hc|by left]. }
  specialize (Ht [] (new_connection l0) tr r c (conj eq_refl eq_refl) Hx). destruct r as [[]|e]; [by left|]. destruct Ht as [|[? ->]]; auto.
Qed.
End session.

(** ** Concrete conversations *)
Definition example_server : LocalServer := {| listener := 3; server_path := "/run/user/501/ladon/broker.sock" |}.
Definition example_handler (request : RpcRequest) : RpcResponse := response_success (request_id request) Locked.
Definition frame_of (r : LResult bytes) : bytes := default [] (ok r).

Example remote_call_is_local_witness : exists served answered,
  serve_once (healthy 501 example_handler (frame_of (encode_request_frame example_request))) 501 example_server [] =
    (Some (Ok tt), served) /\
  handled served = [(example_request, example_handler example_request)] /\
  written served = [frame_of (encode_response_frame (example_handler example_request))] /\
  call (healthy 501 example_handler (frame_of (encode_response_frame (example_handler example_request)))) 501
    (server_path example_server) example_request [] = (Some (Ok (example_handler example_request)), answered) /\
  written answered = [frame_of (encode_request_frame example_request)].
Proof.
  destruct (remote_call_is_local 501 example_handler (server_path example_server) example_server example_request
    (frame_of (encode_request_frame example_request))) as (result & served & incoming & answer & answered & Hs & Hh & Hc & Hw & Hr).
  - exact example_request_wf.
  - vm_compute. reflexivity.
  - vm_compute. reflexivity.
  - by split; [vm_compute|vm_compute|].
  - reflexivity.
  - reflexivity.
  - destruct (encode_response_frame (example_handler example_request)) as [reply|e] eqn:He; [|vm_compute in He; discriminate He].
    destruct Hr as (-> & Hws & -> & ->). exists served, answered.
    split; [exact Hs|]. split; [exact Hh|]. split; [exact Hws|]. split; [exact Hc|exact Hw].
Defined.

(** A session: the client leaves while the server holds its connection. *)
Definition example_session_request : RpcRequest := {|
  request_version := 2; request_id := 7; client_session_id := 9; client_label := "agent"; method := SessionOpen;
|}.
Definition example_world := healthy 501 example_handler (frame_of (encode_request_frame example_session_request)).
Definition example_session_handler (request : RpcRequest) (c : Connection) : RpcResponse :=
  response_success (request_id request) SessionOpened.
Definition example_session_moves : list (option (unit * (Connection -> Connection))) :=
  [None; None; None; None; None; Some (tt, monitor_step (Ok 0)); None; None; Some (tt, monitor_step (Ok 0)); None; None;
   None].

Lemma example_moves_allowed f l :
  Some (l, f) ∈ example_session_moves -> forall c, connection_step l c (f c).
Proof.
  intros Hin c. unfold example_session_moves in Hin.
  repeat (apply elem_of_cons in Hin as [Hin|Hin]; [try discriminate Hin; injection Hin as -> ->; constructor|]).
  exfalso. exact (not_elem_of_nil _ Hin).
Qed.

(** The same session, from the accepting of its connection. *)
Definition example_accepted : list (call_event ipc_call) :=
  [Event (PeerUid 4) (Some 501); Event (Configure 4) (Ok tt); Event (AcceptConnection 3) (Ok 4)].
Example server_answers_requests_witness : exists tr c,
  try_accept example_world 501 example_server [] = (Some (Ok (Some 4)), example_accepted) /\
  executes connection_step (serve_connection example_world 4 example_session_handler) (new_connection example_accepted) tr (Ok tt) c /\
  answered_well 501 4 true (calls c).
Proof.
  assert (Hl : (fun x => x.1.2) <$>
    play example_session_moves (serve_connection example_world 4 example_session_handler) (new_connection example_accepted) =
    Some (Ok tt)) by (vm_compute; reflexivity).
  destruct (play example_session_moves _ (new_connection example_accepted)) as [[[tr r] c]|] eqn:Hp; [|discriminate Hl].
  injection Hl as ->.
  assert (Hx : executes connection_step (serve_connection example_world 4 example_session_handler)
    (new_connection example_accepted) tr (Ok tt) c).
  { apply (play_executes _ example_session_moves); [|exact Hp]. intros l f s Hin. exact (example_moves_allowed f l Hin s). }
  exists tr, c. split; [reflexivity|]. split; [exact Hx|].
  destruct (server_answers_requests example_world 501 example_server example_session_handler) as (_ & _ & Ha).
  destruct Ha as (_ & _ & _ & Ha). exact (Ha tr (Ok tt) c Hx).
Defined.

Example session_ends_cancelled_witness : exists tr r c,
  executes connection_step (serve_connection example_world 4 example_session_handler) (new_connection []) tr r c /\ r = Ok tt /\
  (monitor c = Ended /\ cancelled c = true \/ monitor c = NotStarted /\ r = Err EndpointUnavailable).
Proof.
  assert (Hl : (fun x => x.1.2) <$>
    play example_session_moves (serve_connection example_world 4 example_session_handler) (new_connection []) = Some (Ok tt))
    by (vm_compute; reflexivity).
  destruct (play example_session_moves _ (new_connection [])) as [[[tr r] c]|] eqn:Hp; [|discriminate Hl].
  injection Hl as ->.
  assert (Hx : executes connection_step (serve_connection example_world 4 example_session_handler) (new_connection []) tr (Ok tt) c).
  { apply (play_executes _ example_session_moves); [|exact Hp]. intros l f s Hin. exact (example_moves_allowed f l Hin s). }
  exists tr, (Ok tt), c. split; [exact Hx|]. split; [reflexivity|].
  destruct (read_request example_world 4 []) as [o l] eqn:Hr.
  assert (Ho : o = Some (Ok example_session_request)) by (change o with (o, l).1; rewrite <- Hr; vm_compute; reflexivity).
  subst o.
  exact (session_ends_cancelled example_world 4 example_session_handler example_session_request [] l tr (Ok tt) c
    Hr eq_refl Hx).
Defined.
