(* ===== verification/Commands.v ===== *)
(** * Commands: [crates/ladon-cli/src/commands.rs], the requests to run a command

    How the arguments of [ladon run] and the arguments of the MCP tool become a
    request: flags and bindings, the working directory, the executable and its
    search in [PATH].  What the programs of the command line ask of the system and
    of the app is the family [cli_call] of [Calls]. *)

From S2P Require Import Prelude Errors Time Utf8 Text Paths Model Json Protocol Redact Runner Calls.
Local Open Scope Z_scope.

(** ** Calls *)

(** The error kinds of [fs::read] that are told apart. *)
Inductive read_error : Set := NotFound | ReadError.

(** [RpcTransport], with the leases it hands out, the file system and the terminal. *)
Abbreviation Lease := Z (only parsing).
Inductive cli_call : Type -> Type :=
| CurrentDir : cli_call (result unit string)
| Canonicalize (path : string) : cli_call (result unit string)
| IsDir (path : string) : cli_call bool
| IsFile (path : string) : cli_call bool
| PathMode (path : string) : cli_call (result unit Z)
| VarOs (name : string) : cli_call (option string)
| FreshUuid : cli_call Uuid
| OpenLease (client : Uuid) (label : string) : cli_call (LResult Lease)
| LeaseConnected (lease : Lease) : cli_call bool
| CloseLease (lease : Lease) : cli_call unit
| FlushOutput : cli_call (result unit unit)
| CallApp (request : RpcRequest) : cli_call (LResult RpcResponse)
| WriteOutput (b : bytes) : cli_call (result unit unit)
| WriteErrors (b : bytes) : cli_call (result unit unit)
| FlushErrors : cli_call (result unit unit)
| ReadInput : cli_call (result unit string)
| CurrentExe : cli_call (result unit string)
| PathExists (path : string) : cli_call bool
| ReadFile (path : string) : cli_call (result read_error bytes)
| CopyFile (from to : string) : cli_call (result unit unit)
| CreateDirAll (path : string) : cli_call (result unit unit)
| SetPermissions (path : string) (mode : Z) : cli_call (result unit unit)
| CreateNew (path : string) (mode : Z) : cli_call (result unit unit)
| WriteFile (path : string) (b : bytes) : cli_call (result unit unit)
| SyncFile (path : string) : cli_call (result unit unit)
| Rename (from to : string) : cli_call (result unit unit)
| SyncDirectory (path : string) : cli_call (result unit unit)
| RemoveFile (path : string) : cli_call (result unit unit)
| SinceEpoch : cli_call (result unit (Z * Z)).

(** [DEFAULT_RUN_TIMEOUT]. *)
Definition DEFAULT_RUN_TIMEOUT_SECONDS : Z := 5 * 60.

(** ** Bindings *)

(** [parse_reference], [parse_named_binding] and [parse_stdin_binding]. *)
Definition parse_reference (reference : string) : LResult (string * string) :=
  match rsplit_once reference "::" with
  | Some (secret_ref, field) =>
    reject_if (bool_decide (secret_ref = "") || bool_decide (field = "")) InvalidBinding;;
    Ok (secret_ref, field)
  | None => reject_if (bool_decide (reference = "")) InvalidBinding;; Ok (reference, "value")
  end.
Definition parse_named_binding (value : string) (file : bool) : LResult SecretBindingRequest :=
  '(name, reference) ← ok_or (split_once value "=") InvalidBinding;
  '(secret_ref, field) ← parse_reference reference;
  Ok {| request_secret_ref := secret_ref; request_field := field;
        request_target := if file then TemporaryFileEnvironment name None else Environment name |}.
Definition parse_stdin_binding (value : string) : LResult SecretBindingRequest :=
  '(secret_ref, field) ← parse_reference value;
  Ok {| request_secret_ref := secret_ref; request_field := field; request_target := StandardInput |}.

(** ** Flags: the locals of [parse_run] *)
Record RunFlags := {
  flag_bindings : list SecretBindingRequest;
  flag_timeout_ms : Z;
  flag_output_limit_bytes : Z;
  flag_working_directory : string;
}.
Definition add_binding (b : SecretBindingRequest) (f : RunFlags) : RunFlags :=
  {| flag_bindings := flag_bindings f ++ [b]; flag_timeout_ms := flag_timeout_ms f;
     flag_output_limit_bytes := flag_output_limit_bytes f; flag_working_directory := flag_working_directory f |}.
Definition set_timeout (ms : Z) (f : RunFlags) : RunFlags :=
  {| flag_bindings := flag_bindings f; flag_timeout_ms := ms;
     flag_output_limit_bytes := flag_output_limit_bytes f; flag_working_directory := flag_working_directory f |}.
Definition set_output_limit (n : Z) (f : RunFlags) : RunFlags :=
  {| flag_bindings := flag_bindings f; flag_timeout_ms := flag_timeout_ms f;
     flag_output_limit_bytes := n; flag_working_directory := flag_working_directory f |}.
Definition set_working_directory (d : string) (f : RunFlags) : RunFlags :=
  {| flag_bindings := flag_bindings f; flag_timeout_ms := flag_timeout_ms f;
     flag_output_limit_bytes := flag_output_limit_bytes f; flag_working_directory := d |}.
Definition checked_mul (limit a b : Z) : option Z := if a * b <=? limit then Some (a * b) else None.
Definition parse_flag (flag value : string) (f : RunFlags) : LResult RunFlags :=
  if bool_decide (flag = "--env") then b ← parse_named_binding value false; Ok (add_binding b f)
  else if bool_decide (flag = "--file-env") then b ← parse_named_binding value true; Ok (add_binding b f)
  else if bool_decide (flag = "--stdin") then b ← parse_stdin_binding value; Ok (add_binding b f)
  else if bool_decide (flag = "--timeout-seconds") then
    ms ← ok_or (seconds ← parse_unsigned u64_max value; checked_mul u64_max seconds 1000) InvalidTimeout;
    Ok (set_timeout ms f)
  else if bool_decide (flag = "--output-limit-bytes") then
    n ← ok_or (parse_unsigned usize_max value) InvalidOutputLimit; Ok (set_output_limit n f)
  else if bool_decide (flag = "--cwd") then Ok (set_working_directory value f)
  else Err InvalidRequest.

(** The loop up to [--]; the command that follows it. *)
Fixpoint parse_flags (arguments : list string) (f : RunFlags) : LResult (RunFlags * list string) :=
  match arguments with
  | [] => Err InvalidRequest
  | flag :: rest =>
    if bool_decide (flag = "--") then Ok (f, rest)
    else
      match rest with
      | [] => Err InvalidRequest
      | value :: rest => f ← parse_flag flag value f; parse_flags rest f
      end
  end.

(** ** Directories and executables *)

(** [env::split_paths] and [Path::components().count() > 1] of a relative path: empty
    components and [.] do not count, except for a leading [.]. *)
Fixpoint split_on (sep : byte) (text : bytes) : list bytes :=
  match text with
  | [] => [[]]
  | x :: r =>
    if bool_decide (x = sep) then [] :: split_on sep r
    else match split_on sep r with piece :: pieces => (x :: piece) :: pieces | [] => [[x]] end
  end.
Definition has_path_separator (path : string) : bool :=
  let pieces := split_on "/" (bytes_of path) in
  let named := List.filter (fun p => negb (bool_decide (p = []) || bool_decide (p = bytes_of "."))) pieces in
  let leading := match pieces with p :: _ => bool_decide (p = bytes_of ".") | [] => false end in
  1 <? zlen named + (if leading then 1 else 0).
Definition split_paths (path : string) : list string := string_of <$> split_on ":" (bytes_of path).

Section commands.
Context (ask : forall A, cli_call A -> list (call_event cli_call) -> A).
Context `{TextCrates}.
Abbreviation Command := (Asks cli_call) (only parsing).
Abbreviation perform := (perform ask) (only parsing).
Abbreviation or_error := (or_error ask) (only parsing).

(** [into_os_string().into_string()]. *)
Definition into_string (path : string) (error : LadonError) : LResult string :=
  if is_utf8 (bytes_of path) then Ok path else Err error.

(** [canonical_directory]. *)
Definition canonical_directory (path : string) : Command string :=
  canonical ← or_error (fun _ => InvalidWorkingDirectory) (Canonicalize path);
  directory ← perform (IsDir canonical);
  os_lift (reject_if (negb directory) InvalidWorkingDirectory);;
  os_lift (into_string canonical InvalidWorkingDirectory).

(** [is_executable] on Unix, [find_in_path] and [resolve_executable]. *)
Definition is_executable (path : string) : Command bool :=
  mode ← perform (PathMode path);
  mret (match mode with Ok mode => negb (Z.land mode 0x49 =? 0) | Err _ => false end).
Definition runnable_file (path : string) : Command bool :=
  file ← perform (IsFile path);
  if (file : bool) then is_executable path else mret false.
Fixpoint find_candidate (directories : list string) (executable : string) : Command (option string) :=
  match directories with
  | [] => mret None
  | directory :: directories =>
    let candidate := join directory executable in
    found ← runnable_file candidate;
    if (found : bool) then mret (Some candidate) else find_candidate directories executable
  end.
Definition find_in_path (executable : string) : Command (option string) :=
  path ← perform (VarOs "PATH");
  match path with Some path => find_candidate (split_paths path) executable | None => mret None end.
Definition executable_candidate (input working_directory : string) : Command string :=
  if is_absolute input then mret input
  else if has_path_separator input then mret (join working_directory input)
  else candidate ← find_in_path input; os_lift (ok_or candidate InvalidExecutablePath).
Definition resolve_executable (input working_directory : string) : Command string :=
  os_lift (reject_if (has_nul input) InvalidExecutablePath);;
  candidate ← executable_candidate input working_directory;
  canonical ← or_error (fun _ => InvalidExecutablePath) (Canonicalize candidate);
  runs ← runnable_file canonical;
  os_lift (reject_if (negb runs) InvalidExecutablePath);;
  os_lift (into_string canonical InvalidExecutablePath).

(** The end of [parse_run] and of [parse_mcp_run]. *)
Definition checked_run (run : RunRequest) (caller : RunCaller) : LResult RpcMethod :=
  validate_run_request run caller;;
  Ok (Run (executable run) (arguments run) (working_directory run) (bindings run) (timeout_ms run)
        (output_limit_bytes run)).

(** [parse_run]. *)
Definition parse_run (arguments : list string) (caller : RunCaller) : Command RpcMethod :=
  current ← or_error (fun _ => InvalidRequest) CurrentDir;
  '(flags, command) ← os_lift (parse_flags arguments
    {| flag_bindings := []; flag_timeout_ms := DEFAULT_RUN_TIMEOUT_SECONDS * 1000;
       flag_output_limit_bytes := DEFAULT_OUTPUT_LIMIT_BYTES; flag_working_directory := current |});
  executable ← os_lift (ok_or (head command) InvalidExecutablePath);
  working_directory ← canonical_directory (flag_working_directory flags);
  executable ← resolve_executable executable working_directory;
  os_lift (checked_run
    {| executable := executable; arguments := tail command; working_directory := working_directory;
       bindings := flag_bindings flags; timeout_ms := flag_timeout_ms flags;
       output_limit_bytes := flag_output_limit_bytes flags |} caller).
End commands.

(** ** [crates/ladon-cli/src/client.rs] *)
Definition LOCAL_SERVICE_RECOVERY_GUIDANCE : string :=
  "Ask the user to check Ladon and that its app and client builds are compatible. Do not restart, stop, replace, or globally lock the shared Ladon app. Do not automatically retry a command after losing its reply.".
Definition needs_user_recovery (error : LadonError) : bool :=
  match error with
  | IpcDisconnected | IpcTimeout | InvalidFrame | InvalidResponse | FrameTooLarge | UnsupportedProtocolVersion
  | EndpointUnavailable | UnsafeEndpoint | InvalidPeer => true
  | _ => false
  end.

(** Methods that need a session; locking and the status do not. *)
Definition needs_session (m : RpcMethod) : bool := match m with Run _ _ _ _ _ _ | ListSecrets => true | _ => false end.
