(* ===== verification/CommandsProperties.v ===== *)
(** * What the commands promise

    What a log of [cli_call] shows of requests and leases; the programs that only
    look at the system; and that whatever becomes a request to run a command is a
    run that the app accepts. *)

From S2P Require Import Prelude Errors Time Utf8 Text Paths Model Json Protocol Redact Runner Calls Commands.
Local Open Scope Z_scope.

(** ** What a log shows *)
Section log.
Abbreviation log := (list (call_event cli_call)) (only parsing).
Implicit Types l : log.

(** The leases that were opened and not closed. *)
Definition leases_after {A} (c : cli_call A) : A -> list Lease -> list Lease :=
  match c with
  | OpenLease _ _ => fun a open => match a with Ok lease => lease :: open | Err _ => open end
  | CloseLease lease => fun _ open => List.filter (fun o => negb (o =? lease)) open
  | _ => fun _ open => open
  end.
Fixpoint open_leases l : list Lease :=
  match l with [] => [] | Event c a :: l => leases_after c a (open_leases l) end.

(** The requests made of the app, with what came back. *)
Definition exchange_of {A} (c : cli_call A) : A -> list (RpcRequest * LResult RpcResponse) :=
  match c with CallApp r => fun a => [(r, a)] | _ => fun _ => [] end.
Fixpoint exchanges l : list (RpcRequest * LResult RpcResponse) :=
  match l with [] => [] | Event c a :: l => exchange_of c a ++ exchanges l end.
Fixpoint every_request (P : RpcRequest -> log -> Prop) l : Prop :=
  match l with
  | [] => True
  | Event (CallApp r) _ :: l => P r l /\ every_request P l
  | _ :: l => every_request P l
  end.

(** A lease of the client is open. *)
Definition leased (client : Uuid) l : Prop :=
  exists lease label, open_leases l = [lease] /\ Event (OpenLease client label) (Ok lease) ∈ l.

(** A run that the validation of run requests accepts. *)
Definition valid_run `{TextCrates} (caller : RunCaller) (m : RpcMethod) : Prop :=
  match m with
  | Run e a w b t o => exists v, validate_run_request
      {| executable := e; arguments := a; working_directory := w; bindings := b; timeout_ms := t; output_limit_bytes := o |}
      caller = Ok v
  | SessionOpen => False
  | _ => True
  end.

Definition is_run (m : RpcMethod) : bool := match m with Run _ _ _ _ _ _ => true | _ => false end.

(** What a client may ask of the app. *)
Definition proper_request `{TextCrates} (caller : RunCaller) (client : Uuid) (r : RpcRequest) l : Prop :=
  client_session_id r = client /\ validate_request r = Ok tt /\ valid_run caller (method r) /\
  (needs_session (method r) = true -> leased client l).
End log.


(** ** Programs that only look *)

(** Calls that neither lease nor ask. *)
Definition neutral {A} (c : cli_call A) : Prop :=
  match c with OpenLease _ _ | CloseLease _ | CallApp _ => False | _ => True end.
Abbreviation quiet := (asks_only (@neutral)) (only parsing).
#[export] Hint Extern 1 (neutral _) => exact I : asks_only.

Section resolution.
Context (ask : forall A, cli_call A -> list (call_event cli_call) -> A).
Context `{TextCrates}.

Lemma runnable_file_quiet path : quiet (runnable_file ask path).
Proof. unfold runnable_file, is_executable. apply asks_only_bind; [eauto with asks_only|]. intros []; eauto with asks_only. Qed.
Lemma find_candidate_quiet ds e : quiet (find_candidate ask ds e).
Proof.
  induction ds as [|d ds IH]; cbn [find_candidate]; [eauto with asks_only|].
  apply asks_only_bind; [apply runnable_file_quiet|]. intros []; eauto with asks_only.
Qed.
Lemma resolve_executable_quiet input wd : quiet (resolve_executable ask input wd).
Proof.
  unfold resolve_executable, executable_candidate, find_in_path. apply asks_only_bind; [eauto with asks_only|]. intros _.
  apply asks_only_bind.
  - destruct (is_absolute input); [eauto with asks_only|]. destruct (has_path_separator input); [eauto with asks_only|].
    apply asks_only_bind; [|eauto with asks_only]. apply asks_only_bind; [eauto with asks_only|].
    intros [p|]; [apply find_candidate_quiet|eauto with asks_only].
  - intros candidate. apply asks_only_bind; [eauto with asks_only|]. intros canonical.
    apply asks_only_bind; [apply runnable_file_quiet|]. eauto with asks_only.
Qed.
Lemma canonical_directory_quiet path : quiet (canonical_directory ask path).
Proof. unfold canonical_directory. repeat (apply asks_only_bind; [eauto with asks_only|]; intros ?). eauto with asks_only. Qed.

Lemma checked_run_valid run caller m : checked_run run caller = Ok m -> valid_run caller m /\ is_run m = true.
Proof.
  unfold checked_run. intros (v & Hv & Hm)%bind_Ok. injection Hm as <-. split; [exists v; by destruct run|done].
Qed.
Lemma parse_run_wp arguments caller P l :
  closed_under (@neutral) P -> P l ->
  os_wp (parse_run ask arguments caller)
    (fun r l' => P l' /\ forall m, r = Ok m -> valid_run caller m /\ is_run m = true) l.
Proof.
  intros HP Hl. unfold parse_run.
  do 2 (eapply asks_only_wp_bind; [exact HP|eauto with asks_only|exact Hl| |by intros]; clear Hl; intros ? ? Hl).
  match goal with |- context [let '(_, _) := ?p in _] => destruct p as [flags command] end.
  do 3 (eapply asks_only_wp_bind; [exact HP|eauto using resolve_executable_quiet, canonical_directory_quiet with asks_only|exact Hl| |by intros];
    clear Hl; intros ? ? Hl).
  apply os_wp_lift. split; [done|]. intros m. apply checked_run_valid.
Qed.
End resolution.

(** ** An example *)

(** A machine on which every file is a program and the app answers nothing. *)
Definition example_answer {A} (c : cli_call A) : A :=
  match c with
  | CurrentDir => Ok "/home/u"
  | Canonicalize path => Ok path
  | IsDir _ | IsFile _ => true
  | PathMode _ => Ok 0x1ed
  | VarOs _ => Some "/usr/bin:/bin"
  | FreshUuid => 7
  | OpenLease _ _ => Ok 1
  | LeaseConnected _ => true
  | CloseLease _ => tt
  | FlushOutput => Ok tt
  | CallApp _ => Err IpcDisconnected
  | WriteOutput _ | WriteErrors _ | FlushErrors => Ok tt
  | ReadInput => Ok "y"
  | CurrentExe => Ok "/usr/bin/ladon"
  | PathExists _ => true
  | ReadFile _ => Err NotFound
  | CopyFile _ _ | CreateDirAll _ | SetPermissions _ _ | CreateNew _ _ | WriteFile _ _ | SyncFile _ | Rename _ _
  | SyncDirectory _ | RemoveFile _ => Ok tt
  | SinceEpoch => Ok (1000, 5)
  end.
Definition example_ask A (c : cli_call A) (l : list (call_event cli_call)) : A := example_answer c.
