(* ===== verification/Integrate.v ===== *)
(** * Integrate: [crates/ladon-cli/src/integrate.rs]

    [ladon integrate] adds the MCP server to the configuration of a coding agent:
    the editing of the two formats and the replacement of the file.  TOML
    documents are [toml_edit]'s: parameters. *)

From S2P Require Import Prelude Errors Time Utf8 Text Paths Model Json Runner Calls Commands.
Local Open Scope Z_scope.

Inductive IntegrationTarget : Set := Codex | Claude.
#[export] Instance IntegrationTarget_eq_dec : EqDecision IntegrationTarget.
Proof. solve_decision. Defined.
Record IntegrationOutcome := { changed : bool; outcome_backup_path : option string }.

(** ** [serde_json] values

    A map is sorted by key; [insert] replaces, and of the members of a document with
    one key the last stays. *)
Fixpoint insert_member (key : string) (v : Json) (members : list (string * Json)) : list (string * Json) :=
  match members with
  | [] => [(key, v)]
  | (k, w) :: r =>
    if bool_decide (k = key) then (key, v) :: r
    else if String.ltb key k then (key, v) :: members
    else (k, w) :: insert_member key v r
  end.
Definition map_of (members : list (string * Json)) : list (string * Json) :=
  fold_left (fun acc kv => insert_member kv.1 kv.2 acc) members [].
Fixpoint json_value (j : Json) : Json :=
  match j with
  | JArray items => JArray (map json_value items)
  | JObject members => JObject (map_of (map (fun kv => (kv.1, json_value kv.2)) members))
  | _ => j
  end.

(** [to_vec_pretty]. *)
Class SerdeJsonPretty := { json_pretty : Json -> option bytes }.

(** ** [toml_edit] *)
Class TomlEdit := {
  TomlDocument : Type;
  TomlTable : Type;
  TomlItem : Type;
  toml_new : TomlDocument;
  toml_parse : string -> option TomlDocument;
  toml_print : TomlDocument -> string;
  toml_root : TomlDocument -> TomlTable;
  toml_with_root : TomlTable -> TomlDocument -> TomlDocument;
  toml_empty : TomlTable;
  toml_get : string -> TomlTable -> option TomlItem;
  toml_set : string -> TomlItem -> TomlTable -> TomlTable;
  toml_remove : string -> TomlTable -> TomlTable;
  toml_table : TomlTable -> TomlItem;
  toml_as_table : TomlItem -> option TomlTable;
  toml_string : string -> TomlItem;
  toml_strings : list string -> TomlItem;
  toml_integer : Z -> TomlItem;
}.

(** Its documentation: tables are maps whose items may be tables. *)
Class TomlEditLaws `{TomlEdit} := {
  toml_with_root_root t d : toml_root (toml_with_root t d) = t;
  toml_get_set k i t : toml_get k (toml_set k i t) = Some i;
  toml_get_set_other k k' i t : k <> k' -> toml_get k (toml_set k' i t) = toml_get k t;
  toml_get_remove k t : toml_get k (toml_remove k t) = None;
  toml_get_remove_other k k' t : k <> k' -> toml_get k (toml_remove k' t) = toml_get k t;
  toml_as_table_table t : toml_as_table (toml_table t) = Some t;
}.

(** ** The entries *)

(** [path_text]. *)
Definition path_text (path : string) : LResult string :=
  if is_utf8 (bytes_of path) then Ok path else Err InvalidExecutablePath.

(** [set_claude_entry]. *)
Definition claude_entry (command : string) : Json := jobject [
  ("type", JString "stdio"); ("command", JString command); ("args", JArray [JString "mcp"]); ("env", JObject [])].
Definition set_claude_entry (root : list (string * Json)) (executable : string) : LResult (list (string * Json)) :=
  servers ← ok_or (match default (JObject []) (lookup_member "mcpServers" root) with
                   | JObject servers => Some servers | _ => None end) IntegrationFailure;
  command ← path_text executable;
  Ok (insert_member "mcpServers" (JObject (insert_member "ladon" (claude_entry command) servers)) root).

Section toml.
Context `{TomlEdit}.

(** [set_codex_entry]: a table of a table, made if there is none. *)
Definition table_at (key : string) (t : TomlTable) : LResult TomlTable :=
  match toml_get key t with
  | None => Ok toml_empty
  | Some item => ok_or (toml_as_table item) IntegrationFailure
  end.
Definition codex_entry (command : string) (t : TomlTable) : TomlTable :=
  let t := toml_set "command" (toml_string command) t in
  let t := toml_set "args" (toml_strings ["mcp"]) t in
  let t := toml_set "tool_timeout_sec" (toml_integer 1200) t in
  toml_remove "experimental_environment" (toml_remove "url" t).
Definition set_codex_entry (document : TomlDocument) (executable : string) : LResult TomlDocument :=
  command ← path_text executable;
  let root := toml_root document in
  servers ← table_at "mcp_servers" root;
  entry ← table_at "ladon" servers;
  let servers := toml_set "ladon" (toml_table (codex_entry command entry)) servers in
  Ok (toml_with_root (toml_set "mcp_servers" (toml_table servers) root) document).
Definition render_codex (existing : option bytes) (executable : string) : LResult bytes :=
  let source := default [] existing in
  reject_if (negb (is_utf8 source)) IntegrationFailure;;
  document ← (if bool_decide (trim (string_of source) = "") then Ok toml_new
              else ok_or (toml_parse (string_of source)) IntegrationFailure);
  document ← set_codex_entry document executable;
  Ok (bytes_of (toml_print document)).
End toml.

Section json.
Context `{SerdeJson, SerdeJsonPretty}.
Definition claude_root (existing : option bytes) : LResult (list (string * Json)) :=
  match existing with
  | None | Some [] => Ok []
  | Some b =>
    j ← ok_or (json_parse b) IntegrationFailure;
    match json_value j with JObject members => Ok members | _ => Err IntegrationFailure end
  end.
Definition render_claude (existing : option bytes) (executable : string) : LResult bytes :=
  root ← claude_root existing;
  root ← set_claude_entry root executable;
  b ← ok_or (json_pretty (JObject root)) IntegrationFailure;
  Ok (b ++ [zb 10]).
End json.

(** ** The file *)
Section integrate.
Context (ask : forall A, cli_call A -> list (call_event cli_call) -> A).
Context `{TextCrates, SerdeJson, SerdeJsonPretty, TomlEdit}.
Abbreviation Command := (Asks cli_call) (only parsing).
Abbreviation perform := (perform ask) (only parsing).
Abbreviation attempt_io := (or_error ask (fun _ => IntegrationFailure)) (only parsing).

Definition validate_executable (executable : string) : Command unit :=
  file ← (if is_absolute executable then perform (IsFile executable) else mret false);
  os_lift (reject_if (negb file) InvalidExecutablePath).

Definition render (target : IntegrationTarget) (existing : option bytes) (executable : string) : LResult bytes :=
  match target with
  | Codex => render_codex existing executable
  | Claude => render_claude existing executable
  end.
Definition integration_preview (target : IntegrationTarget) (executable : string) : Command string :=
  validate_executable executable;;
  os_lift match target with
          | Codex => d ← set_codex_entry toml_new executable; Ok (toml_print d)
          | Claude =>
            root ← set_claude_entry [("mcpServers", JObject [])] executable;
            b ← ok_or (json_pretty (JObject root)) IntegrationFailure;
            Ok (string_of b)
          end.

(** [fs::read] where the file may be missing. *)
Definition read_existing (config_path : string) : Command (option bytes) :=
  answer ← perform (ReadFile config_path);
  match answer with
  | Ok b => mret (Some b)
  | Err NotFound => mret None
  | Err ReadError => os_err IntegrationFailure
  end.
Definition backup_path (config : string) : Command string :=
  '(seconds, nanos) ← attempt_io SinceEpoch;
  mret (String.append config (String.append ".ladon-backup-"
    (String.append (string_of (decimal seconds)) (String.append "-" (string_of (decimal nanos)))))).
Definition sync_parent (parent : string) : Command unit := attempt_io (SyncDirectory parent).
Definition atomic_replace (candidate destination : string) : Command unit := attempt_io (Rename candidate destination).

(** [write_private_atomic] on Unix. *)
Definition prepare_parent (parent : string) : Command unit :=
  existed ← perform (PathExists parent);
  attempt_io (CreateDirAll parent);;
  if (existed : bool) then mret tt else attempt_io (SetPermissions parent 0x1c0).
Definition write_candidate (candidate path parent : string) (b : bytes) : Command unit :=
  attempt_io (CreateNew candidate 0x180);;
  attempt_io (WriteFile candidate b);;
  attempt_io (SyncFile candidate);;
  atomic_replace candidate path;;
  sync_parent parent.
Definition candidate_path (path : string) (id : Uuid) : string :=
  with_file_name path (String.append ".ladon-config-" (String.append (uuid_display id) ".tmp")).
Definition write_private_atomic (path : string) (b : bytes) : Command unit :=
  parent ← os_lift (ok_or (path_parent path) IntegrationFailure);
  prepare_parent parent;;
  id ← perform FreshUuid;
  let candidate := candidate_path path id in
  on_error (perform (RemoveFile candidate);; mret tt) (write_candidate candidate path parent b).
Definition verify_written_config (target : IntegrationTarget) (config executable : string) : Command unit :=
  b ← (answer ← perform (ReadFile config); match answer with Ok b => mret b | Err _ => os_err IntegrationFailure end);
  rendered ← os_lift (render target (Some b) executable);
  os_lift (reject_if (negb (bool_decide (rendered = b))) IntegrationFailure).

(** [apply_integration_config]. *)
Definition back_up (config_path : string) (existing : option bytes) : Command (option string) :=
  match existing with
  | Some _ =>
    backup ← backup_path config_path;
    attempt_io (CopyFile config_path backup);;
    mret (Some backup)
  | None => mret None
  end.
Definition apply_integration_config (target : IntegrationTarget) (config_path executable : string) : Command IntegrationOutcome :=
  validate_executable executable;;
  existing ← read_existing config_path;
  updated ← os_lift (render target existing executable);
  if bool_decide (existing = Some updated) then mret {| changed := false; outcome_backup_path := None |}
  else
    backup ← back_up config_path existing;
    write_private_atomic config_path updated;;
    verify_written_config target config_path executable;;
    mret {| changed := true; outcome_backup_path := backup |}.

(** [parse_arguments]. *)
Definition parse_arguments (arguments : list string) : LResult (IntegrationTarget * bool) :=
  target ← match head arguments with
           | Some name =>
             if bool_decide (name = "codex") then Ok Codex
             else if bool_decide (name = "claude") then Ok Claude
             else Err InvalidRequest
           | None => Err InvalidRequest
           end;
  assume_yes ← match head (tail arguments) with
               | None => Ok false
               | Some flag =>
                 if bool_decide (flag = "--yes") && bool_decide (length arguments = 2%nat) then Ok true
                 else Err InvalidRequest
               end;
  Ok (target, assume_yes).

(** [user_home] and [default_config_path]. *)
Definition user_home : Command (option string) :=
  home ← perform (VarOs "HOME");
  match home with Some home => mret (Some home) | None => perform (VarOs "USERPROFILE") end.
Definition default_config_path (target : IntegrationTarget) : Command (option string) :=
  match target with
  | Codex =>
    codex_home ← perform (VarOs "CODEX_HOME");
    directory ← (match codex_home with Some directory => mret (Some directory) | None => user_home end);
    match directory with
    | None => mret None
    | Some directory =>
      again ← perform (VarOs "CODEX_HOME");
      mret (Some (match again with
                  | Some _ => join directory "config.toml"
                  | None => join (join directory ".codex") "config.toml"
                  end))
    end
  | Claude => home ← user_home; mret ((fun home => join home ".claude.json") <$> home)
  end.

(** [writeln!]; [display] of a path. *)
Definition write_line (text : string) : Command unit :=
  attempt_io (WriteOutput (bytes_of text ++ [zb 10])).
Definition display (path : string) : string := string_of (from_utf8_lossy (bytes_of path)).

(** [execute_integration]. *)
Definition present (preview config : string) : Command unit :=
  write_line "Ladon will configure a local stdio MCP server:";;
  write_line preview;;
  write_line (String.append "Config: " (display config));;
  write_line "The coding agent and ladon-app must run locally as the same OS user.".
Definition is_consent (answer : string) : bool :=
  bool_decide (trim answer = "y") || bool_decide (trim answer = "Y") || bool_decide (trim answer = "yes")
  || bool_decide (trim answer = "YES").
Definition confirm (assume_yes : bool) : Command bool :=
  if assume_yes then mret true
  else
    attempt_io (WriteErrors (bytes_of "Apply this configuration? [y/N] "));;
    attempt_io FlushErrors;;
    answer ← attempt_io ReadInput;
    if is_consent answer then mret true else write_line "No changes made.";; mret false.
Definition report (outcome : IntegrationOutcome) : Command unit :=
  if changed outcome then
    write_line "Ladon integration configured.";;
    match outcome_backup_path outcome with
    | Some backup => write_line (String.append "Backup: " (display backup))
    | None => mret tt
    end
  else write_line "Ladon integration is already up to date.".
Definition execute_integration (arguments : list string) : Command unit :=
  '(target, assume_yes) ← os_lift (parse_arguments arguments);
  current ← attempt_io CurrentExe;
  executable ← attempt_io (Canonicalize current);
  config ← default_config_path target;
  config ← os_lift (ok_or config IntegrationFailure);
  preview ← integration_preview target executable;
  present preview config;;
  consent ← confirm assume_yes;
  if (consent : bool) then
    outcome ← apply_integration_config target config executable;
    report outcome
  else mret tt.
End integrate.
