(* ===== verification/IntegrateProperties.v ===== *)
(** * What the integration promises

    The configuration of the agent is only ever its old content or the whole new
    one, with a copy of the old one beside it; nothing is written before the user
    agrees; and the rest of the configuration stays as it was. *)

From S2P Require Import Prelude Errors Time Utf8 Text Paths Model Json ProtocolReference Runner Calls Commands CommandsProperties Integrate.
Local Open Scope Z_scope.

(** ** Members of an object *)
Lemma insert_member_same key v members : lookup_member key (insert_member key v members) = Some v.
Proof.
  induction members as [|[k w] r IH]; cbn; [by rewrite bool_decide_eq_true_2|].
  destruct (bool_decide_reflect (k = key)) as [->|Hk]; cbn; [by rewrite bool_decide_eq_true_2|].
  destruct (String.ltb key k); cbn; [by rewrite bool_decide_eq_true_2|]. by rewrite bool_decide_eq_false_2.
Qed.
Lemma insert_member_other key key' v members :
  key' <> key -> lookup_member key' (insert_member key v members) = lookup_member key' members.
Proof.
  intros Hne. induction members as [|[k w] r IH]; cbn; [by rewrite bool_decide_eq_false_2|].
  destruct (bool_decide_reflect (k = key)) as [->|Hk]; cbn; [by rewrite !bool_decide_eq_false_2|].
  destruct (String.ltb key k); cbn; [by rewrite (bool_decide_eq_false_2 (key = key'))|].
  destruct (bool_decide (k = key')); [done|exact IH].
Qed.

(** A server's entry in the configuration of Claude, and an entry's item in Codex's. *)
Definition claude_server (name : string) (root : list (string * Json)) : option Json :=
  servers ← lookup_member "mcpServers" root; member servers name.
Definition codex_item `{TomlEdit} (name key : string) (d : TomlDocument) : option TomlItem :=
  servers ← toml_get "mcp_servers" (toml_root d) ≫= toml_as_table;
  entry ← toml_get name servers ≫= toml_as_table;
  toml_get key entry.
Definition codex_server `{TomlEdit} (name : string) (d : TomlDocument) : option TomlItem :=
  servers ← toml_get "mcp_servers" (toml_root d) ≫= toml_as_table; toml_get name servers.

(** Adding the server to Claude's configuration sets its entry to run this program and
    changes nothing else: every other setting and every other server is as before. *)
Theorem claude_keeps_the_rest root executable root' :
  set_claude_entry root executable = Ok root' ->
  claude_server "ladon" root' = Some (claude_entry executable) /\
  (forall key, key <> "mcpServers" -> lookup_member key root' = lookup_member key root) /\
  (forall name, name <> "ladon" -> claude_server name root' = claude_server name root).
Proof.
  unfold set_claude_entry, path_text, claude_server. intros Hset. inv_ok.
  rewrite insert_member_same. split_and!.
  - destruct (is_utf8 _); [|done]. inv_ok. apply insert_member_same.
  - intros key Hk. by apply insert_member_other.
  - intros name Hn. etransitivity; [by apply insert_member_other|].
    destruct (lookup_member "mcpServers" root) as [[]|]; cbn in *; simplify_eq/=; done.
Qed.

Section codex.
Context `{TomlEditLaws}.
Lemma table_at_get key t t' : table_at key t = Ok t' -> forall k,
  toml_get k t' = (toml_get key t ≫= toml_as_table) ≫= toml_get k \/ toml_get key t = None /\ t' = toml_empty.
Proof.
  unfold table_at. destruct (toml_get key t) as [item|]; [|by intros [= <-] k; right].
  destruct (toml_as_table item) as [t2|] eqn:Ht; [|done]. intros [= <-] k. left. cbn. by rewrite Ht.
Qed.

(** Adding the server to Codex's configuration sets its command and arguments, removes a
    remote address, and changes no other setting, no other server and no other item of the
    entry. *)
Theorem codex_keeps_the_rest d executable d' :
  set_codex_entry d executable = Ok d' ->
  codex_item "ladon" "command" d' = Some (toml_string executable) /\
  codex_item "ladon" "args" d' = Some (toml_strings ["mcp"]) /\
  codex_item "ladon" "url" d' = None /\
  (forall key, key <> "mcp_servers" -> toml_get key (toml_root d') = toml_get key (toml_root d)) /\
  (forall name i, name <> "ladon" -> codex_server name d = Some i -> codex_server name d' = Some i) /\
  (forall key i, key ∉ ["command"; "args"; "tool_timeout_sec"; "url"; "experimental_environment"] ->
     codex_item "ladon" key d = Some i -> codex_item "ladon" key d' = Some i).
Proof.
  unfold set_codex_entry, path_text, codex_item, codex_server. intros Hset.
  destruct (is_utf8 _); [|done]. cbn in Hset.
  destruct (table_at "mcp_servers" (toml_root d)) as [servers|] eqn:Hs; [|done]. cbn in Hset.
  destruct (table_at "ladon" servers) as [entry|] eqn:He; [|done]. injection Hset as <-.
  rewrite toml_with_root_root, toml_get_set. cbn. rewrite toml_as_table_table. cbn.
  rewrite toml_get_set. cbn. rewrite toml_as_table_table. cbn.
  assert (Hother : forall key, key ∉ ["command"; "args"; "tool_timeout_sec"; "url"; "experimental_environment"] ->
    toml_get key (codex_entry executable entry) = toml_get key entry).
  { intros key Hk. rewrite !not_elem_of_cons in Hk. destruct Hk as (? & ? & ? & ? & ? & _). unfold codex_entry.
    by rewrite !toml_get_remove_other, !toml_get_set_other. }
  split_and!.
  - unfold codex_entry. rewrite !toml_get_remove_other by done. rewrite !toml_get_set_other by done. apply toml_get_set.
  - unfold codex_entry. rewrite !toml_get_remove_other by done. rewrite toml_get_set_other by done. apply toml_get_set.
  - unfold codex_entry. rewrite toml_get_remove_other by done. apply toml_get_remove.
  - intros key Hk. by apply toml_get_set_other.
  - intros name i Hn Hi. rewrite toml_get_set_other by done.
    destruct (table_at_get _ _ _ Hs name) as [->|[Hnone ->]]; [exact Hi|by rewrite Hnone in Hi].
  - intros key i Hk Hi. rewrite (Hother key Hk).
    destruct (table_at_get _ _ _ He key) as [->|[Hnone ->]].
    + destruct (table_at_get _ _ _ Hs "ladon") as [->|[Hnone ->]]; [|by rewrite Hnone in Hi].
      destruct (toml_get "mcp_servers" (toml_root d) ≫= toml_as_table); [exact Hi|done].
    + destruct (table_at_get _ _ _ Hs "ladon") as [Hg|[Hn' _]]; [|by rewrite Hn' in Hi].
      rewrite Hnone in Hg. destruct (toml_get "mcp_servers" (toml_root d) ≫= toml_as_table); [|done].
      cbn in Hg, Hi. by rewrite <- Hg in Hi.
Qed.
End codex.

(** ** Files

    What the calls of a log did to the files. *)
Inductive content : Type := Absent | Whole (b : bytes) | Torn.
Definition files : Type := string -> content.
Definition put (path : string) (c : content) (f : files) : files := fun q => if bool_decide (q = path) then c else f q.
Definition effect {A} (c : cli_call A) : A -> files -> files :=
  match c with
  | CopyFile from to => fun a f => put to (match a with Ok _ => f from | Err _ => Torn end) f
  | CreateNew path _ => fun a f => match a with Ok _ => put path (Whole []) f | Err _ => f end
  | WriteFile path b => fun a f =>
    put path (match a, f path with Ok _, Whole old => Whole (old ++ b) | _, _ => Torn end) f
  | Rename from to => fun a f => match a with Ok _ => put from Absent (put to (f from) f) | Err _ => f end
  | RemoveFile path => fun a f => match a with Ok _ => put path Absent f | Err _ => f end
  | _ => fun _ f => f
  end.
Fixpoint files_after (initial : files) (l : list (call_event cli_call)) : files :=
  match l with [] => initial | Event c a :: l => effect c a (files_after initial l) end.

(** A property of every moment. *)
Fixpoint always (P : list (call_event cli_call) -> Prop) (l : list (call_event cli_call)) : Prop :=
  P l /\ match l with [] => True | _ :: l => always P l end.
Lemma always_now P l : always P l -> P l.
Proof. by destruct l as [|? l]; intros [? _]. Qed.
Lemma always_event P A (c : cli_call A) a l : P (Event c a :: l) -> always P l -> always P (Event c a :: l).
Proof. by split. Qed.
Lemma always_mono (P Q : list (call_event cli_call) -> Prop) l : (forall l', P l' -> Q l') -> always P l -> always Q l.
Proof. intros Hi. induction l as [|e l IH]; intros [Hp Hl]; split; auto. Qed.

(** Calls that leave a file as it is, and those that leave every file as it is. *)
Definition spares (path : string) {A} (c : cli_call A) : Prop :=
  match c with
  | CopyFile _ to => to <> path
  | CreateNew p _ | WriteFile p _ | RemoveFile p => p <> path
  | Rename from to => from <> path /\ to <> path
  | _ => True
  end.
Definition harmless {A} (c : cli_call A) : Prop :=
  match c with
  | CopyFile _ _ | CreateNew _ _ | WriteFile _ _ | RemoveFile _ | Rename _ _ | CreateDirAll _ | SetPermissions _ _ => False
  | _ => True
  end.
Lemma effect_spares initial path {A} (c : cli_call A) a l :
  spares path c -> files_after initial (Event c a :: l) path = files_after initial l path.
Proof.
  intros Hc. cbn [files_after]. unfold effect, put. destruct c; cbn in Hc |- *; try done;
    repeat match goal with |- context [match a with _ => _ end] => destruct a end;
    rewrite ?bool_decide_eq_false_2 by naive_solver; done.
Qed.
Lemma harmless_spares path {A} (c : cli_call A) : harmless c -> spares path c.
Proof. by destruct c. Qed.
(** Calls that neither change a file nor concern the app. *)
Definition benign {A} (c : cli_call A) : Prop := harmless c /\ neutral c.
Lemma benign_spares path {A} (c : cli_call A) : benign c -> spares path c.
Proof. intros [Hc _]. by apply harmless_spares. Qed.
#[export] Hint Extern 1 (benign _) => exact (conj I I) : asks_only.

(** ** Where the files are *)
Lemma bytes_of_join d name : bytes_of name `suffix_of` bytes_of (join d name).
Proof.
  unfold join. repeat case_bool_decide; [done|..]; rewrite !bytes_of_append.
  - by apply suffix_app_r.
  - do 2 apply suffix_app_r. done.
Qed.
Lemma candidate_suffix `{TextCrates} path id : bytes_of ".tmp" `suffix_of` bytes_of (candidate_path path id).
Proof.
  unfold candidate_path, with_file_name.
  assert (Hn : bytes_of ".tmp" `suffix_of` bytes_of (String.append ".ladon-config-" (String.append (uuid_display id) ".tmp"))).
  { rewrite !bytes_of_append. do 2 apply suffix_app_r. done. }
  destruct (file_name path); etransitivity; [exact Hn|apply bytes_of_join|exact Hn|apply bytes_of_join].
Qed.
Lemma decimal_loop_suffix fuel n acc : acc `suffix_of` decimal_loop fuel n acc.
Proof.
  revert n acc. induction fuel as [|fuel IH]; intros n acc; cbn [decimal_loop]; [done|].
  destruct (n <? 10); [by apply suffix_cons_r|]. etransitivity; [|apply IH]. by apply suffix_cons_r.
Qed.
Lemma decimal_suffix n : [zb (48 + n mod 10)] `suffix_of` decimal n.
Proof.
  unfold decimal. change (decimal_loop 20 n []) with
    (let acc := [zb (48 + n mod 10)] in if n <? 10 then acc else decimal_loop 19 (n / 10) acc).
  cbv zeta. destruct (n <? 10); [done|apply decimal_loop_suffix].
Qed.

(** ** The replacement *)
Section replacement.
Context (ask : forall A, cli_call A -> list (call_event cli_call) -> A).
Context `{TextCrates, SerdeJson, SerdeJsonPretty, TomlEdit}.
Context (target : IntegrationTarget) (config executable : string) (initial : files).
Abbreviation log := (list (call_event cli_call)) (only parsing).

(** The file holds the whole new configuration, made from what was read, and a copy of
    what was there is beside it. *)
Definition read_as (existing : option bytes) : result read_error bytes :=
  match existing with Some b => Ok b | None => Err NotFound end.
Definition backed_up (backup : option string) (l : log) : Prop :=
  match backup with Some path => path <> config /\ files_after initial l path = initial config | None => True end.
Definition replaced (l : log) : Prop :=
  exists existing updated backup, Event (ReadFile config) (read_as existing) ∈ l /\
    render target existing executable = Ok updated /\ files_after initial l config = Whole updated /\
    (is_Some backup <-> is_Some existing) /\ backed_up backup l.
Definition untouched (l : log) : Prop := files_after initial l config = initial config.
Definition sound (l : log) : Prop := untouched l \/ replaced l.

Definition spared (backup : option string) A (c : cli_call A) : Prop :=
  spares config c /\ forall path, backup = Some path -> spares path c.
Lemma backed_up_closed backup : closed_under (spared backup) (backed_up backup).
Proof.
  intros A c a l [_ Hb] Hl. unfold backed_up in *. destruct backup as [path|]; [|done].
  rewrite effect_spares by by apply Hb. done.
Qed.
Lemma untouched_closed : closed_under (@spares config) (always untouched).
Proof.
  intros A c a l Hc Hl. apply always_event; [|done]. unfold untouched. rewrite effect_spares by done. by apply always_now in Hl.
Qed.

Section written.
Context (existing : option bytes) (updated : bytes) (backup : option string).
Context (Hrender : render target existing executable = Ok updated) (Hbackup : is_Some backup <-> is_Some existing).

(** Before and after the new file takes the place of the old one. *)
Definition before (l : log) : Prop :=
  always untouched l /\ Event (ReadFile config) (read_as existing) ∈ l /\ backed_up backup l.
Definition after (l : log) : Prop :=
  always sound l /\ Event (ReadFile config) (read_as existing) ∈ l /\ backed_up backup l /\
  files_after initial l config = Whole updated.
Lemma after_replaced l : after l -> replaced l.
Proof. intros (_ & Hr & Hb & Hf). by exists existing, updated, backup. Qed.
Lemma before_closed : closed_under (spared backup) before.
Proof.
  intros A c a l Hc (Hu & Hr & Hb). split_and!; [apply untouched_closed; [exact (proj1 Hc)|done]|by right|by apply backed_up_closed].
Qed.
Lemma after_closed : closed_under (spared backup) after.
Proof.
  intros A c a l Hc (Hu & Hr & Hb & Hf).
  assert (Hf' : files_after initial (Event c a :: l) config = Whole updated) by (by rewrite effect_spares by exact (proj1 Hc)).
  assert (Hb' : backed_up backup (Event c a :: l)) by (by apply backed_up_closed).
  split_and!; [|by right|done..]. apply always_event; [|done]. right. exists existing, updated, backup.
  split_and!; [by right|done..].
Qed.

(** The candidate is none of the files that matter. *)
Context (candidate parent : string).
Context (Hconfig : candidate <> config) (Hcandidate : forall path, backup = Some path -> candidate <> path).
Lemma before_renamed l :
  before l -> files_after initial l candidate = Whole updated -> after (Event (Rename candidate config) (Ok tt) :: l).
Proof.
  intros (Hu & Hr & Hb) Hf.
  assert (Hf' : files_after initial (Event (Rename candidate config) (Ok tt) :: l) config = Whole updated).
  { cbn. unfold put. by rewrite bool_decide_eq_false_2, bool_decide_eq_true_2. }
  assert (Hb' : backed_up backup (Event (Rename candidate config) (Ok tt) :: l)).
  { unfold backed_up in *. destruct backup as [path|]; [|done]. destruct Hb as [Hne Hb]. split; [done|].
    rewrite effect_spares; [done|]. split; [by apply Hcandidate|done]. }
  split_and!; [|by right|done..]. apply always_event.
  - right. exists existing, updated, backup. split_and!; [by right|done..].
  - eapply always_mono; [|exact Hu]. by left.
Qed.
Lemma before_not_renamed l e : before l -> before (Event (Rename candidate config) (Err e) :: l).
Proof. intros (Hu & Hr & Hb). split_and!; [|by right|done]. apply always_event; [by apply always_now in Hu|done]. Qed.

Lemma candidate_spared A (c : cli_call A) :
  match c with
  | CreateNew p _ | WriteFile p _ | RemoveFile p => p = candidate
  | CopyFile _ _ | Rename _ _ => False
  | _ => True
  end -> spared backup A c.
Proof. intros Hc. split; [|intros path Hp]; destruct c; subst; try done; by apply Hcandidate. Qed.

Lemma write_candidate_wp l :
  before l ->
  os_wp (write_candidate ask candidate config parent updated)
    (fun r l' => match r with Ok _ => after l' | Err _ => before l' \/ after l' end) l.
Proof.
  intros Hl. unfold write_candidate, atomic_replace, sync_parent.
  ask_step. ask_step; [|left; by apply before_closed; [apply candidate_spared|]].
  match goal with |- context [Event (CreateNew candidate ?m) (Ok ?u) :: l] => set (l1 := Event (CreateNew candidate m) (Ok u) :: l) end.
  assert (Hb1 : before l1 /\ files_after initial l1 candidate = Whole []).
  { split; [by apply before_closed; [apply candidate_spared|]|]. cbn. unfold put. by rewrite bool_decide_eq_true_2. }
  clearbody l1. destruct Hb1 as [Hb1 Hf].
  ask_step. ask_step; [|left; by apply before_closed; [apply candidate_spared|]].
  match goal with |- context [Event (WriteFile candidate ?m) (Ok ?u) :: l1] => set (l2 := Event (WriteFile candidate m) (Ok u) :: l1) end.
  assert (Hb2 : before l2 /\ files_after initial l2 candidate = Whole updated).
  { split; [by apply before_closed; [apply candidate_spared|]|]. cbn. unfold put. rewrite bool_decide_eq_true_2 by done. by rewrite Hf. }
  clearbody l2. destruct Hb2 as [Hb2 Hf2].
  ask_step. ask_step; [|left; by apply before_closed; [apply candidate_spared|]].
  match goal with |- context [Event (SyncFile candidate) (Ok ?u) :: l2] => set (l3 := Event (SyncFile candidate) (Ok u) :: l2) end.
  assert (Hb3 : before l3 /\ files_after initial l3 candidate = Whole updated) by (by split; [apply before_closed; [apply candidate_spared|]|]).
  clearbody l3. destruct Hb3 as [Hb3 Hf3].
  ask_step. ask_step; [|left; by apply before_not_renamed].
  match goal with a : unit |- context [Rename candidate config] => destruct a end.
  ask_step; [|right]; (apply after_closed; [by apply candidate_spared|]); apply before_renamed; done.
Qed.
End written.

(** The path of the candidate is neither the configuration nor the backup. *)
Context (Hconfig : ~ bytes_of ".tmp" `suffix_of` bytes_of config).
Definition is_backup (path : string) : Prop :=
  exists seconds nanos, path = String.append config (String.append ".ladon-backup-"
    (String.append (string_of (decimal seconds)) (String.append "-" (string_of (decimal nanos))))).
Lemma is_backup_config path : is_backup path -> path <> config.
Proof.
  intros (seconds & nanos & ->) Heq. apply (f_equal bytes_of) in Heq. rewrite bytes_of_append in Heq.
  apply (f_equal length) in Heq. rewrite bytes_of_append, !length_app in Heq.
  assert (length (bytes_of ".ladon-backup-") = 14%nat) as Hl by reflexivity. lia.
Qed.
Lemma is_backup_candidate path id : is_backup path -> candidate_path config id <> path.
Proof.
  intros (seconds & nanos & ->) Heq. pose proof (candidate_suffix config id) as Hs. rewrite Heq in Hs.
  rewrite !bytes_of_append, bytes_of_string_of in Hs. destruct (decimal_suffix nanos) as [front Hd].
  destruct Hs as [k Hk]. apply (f_equal last) in Hk. rewrite bytes_of_string_of, Hd, !app_assoc, last_snoc in Hk.
  change (bytes_of ".tmp") with (bytes_of ".tm" ++ bytes_of "p") in Hk. rewrite app_assoc in Hk.
  change (bytes_of "p") with [zb 112] in Hk. rewrite last_snoc in Hk. injection Hk as Hk. apply (f_equal bz) in Hk.
  pose proof (Z.mod_pos_bound nanos 10 ltac:(lia)) as Hm. clear - Hk Hm.
  rewrite !bz_zb_small in Hk by lia. lia.
Qed.

Lemma prepare_parent_only backup parent : asks_only (spared backup) (prepare_parent ask parent).
Proof.
  unfold prepare_parent. apply asks_only_bind; [by apply asks_only_perform|]. intros existed.
  apply asks_only_bind; [by apply asks_only_or_error|]. intros _.
  destruct existed; [apply asks_only_ret|by apply asks_only_or_error].
Qed.
Lemma write_private_atomic_wp existing updated backup l :
  render target existing executable = Ok updated -> (is_Some backup <-> is_Some existing) ->
  (forall path, backup = Some path -> is_backup path) ->
  before existing backup l ->
  os_wp (write_private_atomic ask config updated)
    (fun r l' => match r with Ok _ => after existing updated backup l' | Err _ => always sound l' end) l.
Proof.
  intros Hrender Hsome Hpath Hl.
  assert (Hsound : forall l', before existing backup l' -> always sound l') by (intros l' [Hu _]; eapply always_mono; [|exact Hu]; by left).
  unfold write_private_atomic. ask_step. ask_step; [|by apply Hsound].
  eapply asks_only_wp_bind; [apply (before_closed existing backup)|apply prepare_parent_only|exact Hl| |by intros; apply Hsound].
  clear Hl. intros _ l1 Hl. do 2 ask_step.
  match goal with |- context [Event FreshUuid ?a] => rename a into id end.
  assert (Hc : candidate_path config id <> config).
  { intros Heq. apply Hconfig. pose proof (candidate_suffix config id) as Hs. by rewrite Heq in Hs. }
  assert (Hb : forall path, backup = Some path -> candidate_path config id <> path).
  { intros path Hp. by apply is_backup_candidate, Hpath. }
  ask_step. eapply os_wp_mono.
  { apply (write_candidate_wp existing updated backup Hrender Hsome (candidate_path config id)); [done|done|].
    by apply before_closed. }
  intros [[]|e] l2 H2'; [done|]. ask_step. ask_step. ask_step.
  destruct H2' as [H2'|H2']; [apply Hsound, before_closed|eapply after_closed; [exact Hrender|exact Hsome| |exact H2']]; try done;
    by apply (candidate_spared backup (candidate_path config id)).
Qed.
Lemma validate_executable_only : asks_only (@benign) (validate_executable ask executable).
Proof.
  unfold validate_executable. apply asks_only_bind; [destruct (is_absolute executable); eauto with asks_only|].
  intros ?. eauto with asks_only.
Qed.
Lemma verify_written_only : asks_only (@benign) (verify_written_config ask target config executable).
Proof.
  unfold verify_written_config. apply asks_only_bind; [|eauto with asks_only].
  apply asks_only_bind; [eauto with asks_only|]. intros []; eauto with asks_only.
Qed.

(** Nothing is touched at first. *)
Definition unused (l : log) : Prop := always untouched l /\ forall path, files_after initial l path = initial path.
Lemma unused_closed : closed_under (@benign) unused.
Proof.
  intros A c a l Hc [Hu Hf]. split; [apply untouched_closed; [by apply benign_spares|done]|].
  intros path. rewrite effect_spares by by apply benign_spares. apply Hf.
Qed.
Lemma always_sound l : always untouched l -> always sound l.
Proof. apply always_mono. by left. Qed.

Lemma read_existing_wp (Q : LResult (option bytes) -> log -> Prop) l :
  unused l ->
  (forall existing l', unused l' -> Event (ReadFile config) (read_as existing) ∈ l' -> Q (Ok existing) l') ->
  (forall e l', unused l' -> Q (Err e) l') ->
  os_wp (read_existing ask config) Q l.
Proof.
  intros Hl HOk HErr. unfold read_existing. ask_step. apply os_wp_perform. intros a _. cbv beta iota.
  assert (Hi : unused (Event (ReadFile config) a :: l)) by (by apply unused_closed).
  destruct a as [b|[]]; ask_step; [apply HOk; [done|by left]|apply HOk; [done|by left]|by apply HErr].
Qed.
Lemma back_up_wp existing l :
  unused l -> Event (ReadFile config) (read_as existing) ∈ l ->
  os_wp (back_up ask config existing)
    (fun r l' => match r with
                 | Ok backup => before existing backup l' /\ (is_Some backup <-> is_Some existing) /\
                     forall path, backup = Some path -> is_backup path
                 | Err _ => always untouched l' end) l.
Proof.
  intros [Hu Hf] Hr. unfold back_up, backup_path. destruct existing as [b|].
  2: { ask_step. split_and!; [by split_and!|by split; intros []|done]. }
  do 2 ask_step. ask_step; [|by apply untouched_closed].
  match goal with |- context [let '(_, _) := ?p in _] => destruct p as [seconds nanos] end. do 2 ask_step.
  match goal with |- context [CopyFile config ?p] => set (path := p) end.
  assert (Hp : is_backup path) by (by exists seconds, nanos). clearbody path. pose proof (is_backup_config _ Hp) as Hne.
  ask_step; [|by apply untouched_closed; [|apply untouched_closed]]. ask_step. split_and!.
  - split; [by apply untouched_closed; [|apply untouched_closed]|]. split; [by do 2 right|]. split; [done|].
    cbn. unfold put. rewrite bool_decide_eq_true_2 by done. apply Hf.
  - by split; intros; eexists.
  - by intros ? [= <-].
Qed.
End replacement.

Section properties.
Context (ask : forall A, cli_call A -> list (call_event cli_call) -> A).
Context `{TextCrates, SerdeJson, SerdeJsonPretty, TomlEdit}.

(** C31. At every moment the configuration file is what it was, or the whole new
    configuration while what was there is kept in a backup beside it; that holds when a
    step fails, and if the program is stopped between any two steps.  A reported change
    has happened; without one no file was touched. *)
Theorem config_is_replaced_whole target config executable initial :
  ~ bytes_of ".tmp" `suffix_of` bytes_of config ->
  os_wp (apply_integration_config ask target config executable)
    (fun r l => always (sound target config executable initial) l /\
       match r with
       | Ok outcome => if changed outcome then replaced target config executable initial l
                       else forall path, files_after initial l path = initial path
       | Err _ => True
       end) [].
Proof.
  intros Hconfig. unfold apply_integration_config.
  eapply asks_only_wp_bind; [apply (unused_closed config initial)|apply validate_executable_only|done| |].
  2: { intros e l [Hu _]. split; [by apply always_sound|done]. }
  intros _ l Hl. ask_step. eapply read_existing_wp; [exact Hl| |].
  2: { intros e l' [Hu _]. split; [by apply always_sound|done]. }
  clear Hl. intros existing l1 Hl Hr. cbv beta iota. ask_step.
  destruct (render target existing executable) as [updated|e] eqn:Hrender.
  2: { split; [by apply always_sound, Hl|done]. }
  apply os_wp_lift. cbv beta iota. destruct (bool_decide _).
  { ask_step. split; [by apply always_sound, Hl|exact (proj2 Hl)]. }
  ask_step. eapply os_wp_mono; [by apply back_up_wp|]. intros [backup|e] l2 H'.
  2: { split; [by apply always_sound|done]. }
  destruct H' as (Hb & Hsome & Hpath). ask_step. eapply os_wp_mono; [by apply write_private_atomic_wp|].
  intros [[]|e] l3 H'; [|by split].
  eapply asks_only_wp_bind; [by eapply (after_closed target config executable initial existing updated backup)| |exact H'| |].
  - eapply asks_only_mono; [|apply verify_written_only]. intros B c Hc. split; [|intros ? _]; by apply benign_spares.
  - clear H'. intros [] l4 H'. ask_step. split; [apply H'|by eapply after_replaced].
  - clear H'. intros e l4 H'. split; [apply H'|done].
Qed.

Lemma parse_arguments_yes arguments target yes :
  "--yes" ∉ arguments -> parse_arguments arguments = Ok (target, yes) -> yes = false.
Proof.
  unfold parse_arguments. intros Hno Hp. inv_ok. destruct arguments as [|name [|flag rest]]; cbn in *; simplify_eq/=; [done..|].
  destruct (bool_decide_reflect (flag = "--yes")) as [->|]; [|done]. set_solver.
Qed.
Lemma user_home_only : asks_only (@benign) (user_home ask).
Proof. unfold user_home. apply asks_only_bind; [eauto with asks_only|]. intros []; eauto with asks_only. Qed.
Lemma default_config_only target : asks_only (@benign) (default_config_path ask target).
Proof.
  unfold default_config_path. destruct target.
  - apply asks_only_bind; [eauto with asks_only|]. intros codex_home.
    apply asks_only_bind; [destruct codex_home; [eauto with asks_only|apply user_home_only]|].
    intros [directory|]; [|eauto with asks_only]. apply asks_only_bind; eauto with asks_only.
  - apply asks_only_bind; [apply user_home_only|]. eauto with asks_only.
Qed.
Lemma integration_preview_only target executable : asks_only (@benign) (integration_preview ask target executable).
Proof. unfold integration_preview. apply asks_only_bind; [apply validate_executable_only|]. eauto with asks_only. Qed.
Lemma write_line_only text : asks_only (@benign) (write_line ask text).
Proof. unfold write_line. eauto with asks_only. Qed.
Lemma present_only preview config : asks_only (@benign) (present ask preview config).
Proof. unfold present. repeat (apply asks_only_bind; [apply write_line_only|]; intros _). apply write_line_only. Qed.
Lemma report_only outcome : asks_only (@benign) (report ask outcome).
Proof.
  unfold report. destruct (changed outcome); [|apply write_line_only]. apply asks_only_bind; [apply write_line_only|].
  intros _. destruct (outcome_backup_path outcome); [apply write_line_only|eauto with asks_only].
Qed.

(** The integration never concerns the app. *)
Lemma benign_neutral {A} (m : Asks cli_call A) : asks_only (@benign) m -> asks_only (@neutral) m.
Proof. apply asks_only_mono. by intros B c [_ Hc]. Qed.
Lemma write_private_atomic_only path b : asks_only (@neutral) (write_private_atomic ask path b).
Proof.
  unfold write_private_atomic, prepare_parent, write_candidate, atomic_replace, sync_parent.
  apply asks_only_bind; [eauto with asks_only|]. intros parent. apply asks_only_bind.
  { do 2 (apply asks_only_bind; [eauto with asks_only|]; intros ?). match goal with |- context [if ?b then _ else _] => destruct b end; eauto with asks_only. }
  intros _. apply asks_only_bind; [eauto with asks_only|]. intros id. apply asks_only_on_error; [eauto with asks_only|].
  repeat (apply asks_only_bind; [eauto with asks_only|]; intros _). eauto with asks_only.
Qed.
Lemma apply_only target config executable : asks_only (@neutral) (apply_integration_config ask target config executable).
Proof.
  unfold apply_integration_config. apply asks_only_bind; [apply benign_neutral, validate_executable_only|]. intros _.
  apply asks_only_bind.
  { unfold read_existing. apply asks_only_bind; [eauto with asks_only|]. intros [b|[]]; eauto with asks_only. }
  intros existing. apply asks_only_bind; [eauto with asks_only|]. intros updated. destruct (bool_decide _); [eauto with asks_only|].
  apply asks_only_bind.
  { unfold back_up, backup_path. destruct existing; [|eauto with asks_only].
    apply asks_only_bind; [apply asks_only_bind; [eauto with asks_only|]; intros []|intros ?]; eauto with asks_only. }
  intros backup. apply asks_only_bind; [apply write_private_atomic_only|]. intros _.
  apply asks_only_bind; [apply benign_neutral, verify_written_only|]. eauto with asks_only.
Qed.
Lemma apply_and_report_only target config executable :
  asks_only (@neutral) (outcome ← apply_integration_config ask target config executable; report ask outcome).
Proof. apply asks_only_bind; [apply apply_only|]. intros outcome. apply benign_neutral, report_only. Qed.
Lemma confirm_only yes : asks_only (@benign) (confirm ask yes).
Proof.
  unfold confirm. destruct yes; [eauto with asks_only|].
  do 3 (apply asks_only_bind; [eauto with asks_only|]; intros ?).
  match goal with |- context [if ?b then _ else _] => destruct b end; [eauto with asks_only|].
  apply asks_only_bind; [apply write_line_only|]. eauto with asks_only.
Qed.
Lemma execute_integration_only arguments : asks_only (@neutral) (execute_integration ask arguments).
Proof.
  unfold execute_integration. apply asks_only_bind; [eauto with asks_only|]. intros [target yes].
  do 2 (apply asks_only_bind; [eauto with asks_only|]; intros ?).
  apply asks_only_bind; [apply benign_neutral, default_config_only|]. intros ?.
  apply asks_only_bind; [eauto with asks_only|]. intros ?.
  apply asks_only_bind; [apply benign_neutral, integration_preview_only|]. intros ?.
  apply asks_only_bind; [apply benign_neutral, present_only|]. intros ?.
  apply asks_only_bind; [apply benign_neutral, confirm_only|]. intros [].
  - apply apply_and_report_only.
  - eauto with asks_only.
Qed.

(** Unless it is told to with [--yes], [ladon integrate] changes no file before the user
    has agreed to the configuration that it shows. *)
Theorem integration_asks_first arguments initial :
  "--yes" ∉ arguments ->
  os_wp (execute_integration ask arguments)
    (fun _ l => (exists answer, is_consent answer = true /\ Event ReadInput (Ok answer) ∈ l) \/
       forall path, files_after initial l path = initial path) [].
Proof.
  intros Hyes. pose (P := fun l : list (call_event cli_call) => forall path, files_after initial l path = initial path).
  pose (Agreed := fun l : list (call_event cli_call) => exists answer, is_consent answer = true /\ Event ReadInput (Ok answer) ∈ l).
  assert (HP : closed_under (@benign) P).
  { intros A c a l Hc Hl path. rewrite effect_spares by by apply benign_spares. apply Hl. }
  assert (HA : closed_under (fun _ _ => True) Agreed).
  { intros A c a l _ (answer & Hc & Hin). exists answer. split; [done|by right]. }
  unfold execute_integration. ask_step. ask_step; [|by right].
  match goal with |- context [let '(_, _) := ?p in _] => destruct p as [target yes] eqn:Hp end.
  assert (yes = false) as -> by (subst; by eapply parse_arguments_yes).
  assert (Hl : P []) by done. revert Hl. generalize (@nil (call_event cli_call)). intros l Hl.
  do 6 (eapply asks_only_wp_bind; [exact HP|eauto using default_config_only, integration_preview_only, present_only with asks_only|exact Hl| |by intros; right];
    clear Hl; clear l; intros ? l Hl).
  unfold confirm. ask_step.
  do 2 (eapply asks_only_wp_bind; [exact HP|eauto with asks_only|exact Hl| |by intros; right]; clear Hl; clear l; intros ? l Hl).
  ask_step. ask_step; [|right; by apply (HP _ ReadInput)].
  match goal with |- context [Event ReadInput (Ok ?a)] => rename a into answer end.
  destruct (is_consent answer) eqn:Hc.
  - ask_step. eapply os_wp_mono; [eapply (asks_only_wp (fun _ _ => True) _ Agreed)|by left].
    + apply (asks_only_mono (@neutral)); [done|]. apply apply_and_report_only.
    + exact HA.
    + exists answer. split; [done|by left].
  - eapply asks_only_wp_bind; [exact HP|apply write_line_only|by apply HP| |by intros; right].
    intros _ l' Hl'. do 2 ask_step. by right.
Qed.
End properties.

(** ** Examples *)

(** A reading of [toml_edit] in which a document is its table. *)
Inductive reference_item : Set :=
| ReferenceString (s : string)
| ReferenceStrings (l : list string)
| ReferenceInteger (n : Z)
| ReferenceTable (entries : list (string * reference_item)).
Definition reference_table : Set := list (string * reference_item).
Fixpoint reference_get (key : string) (t : reference_table) : option reference_item :=
  match t with [] => None | (k, i) :: t => if bool_decide (k = key) then Some i else reference_get key t end.
Fixpoint reference_remove (key : string) (t : reference_table) : reference_table :=
  match t with
  | [] => []
  | (k, i) :: t => if bool_decide (k = key) then reference_remove key t else (k, i) :: reference_remove key t
  end.
#[export] Instance reference_toml : TomlEdit := {
  TomlDocument := reference_table;
  TomlTable := reference_table;
  TomlItem := reference_item;
  toml_new := [];
  toml_parse _ := None;
  toml_print _ := "";
  toml_root d := d;
  toml_with_root t _ := t;
  toml_empty := [];
  toml_get := reference_get;
  toml_set key i t := (key, i) :: reference_remove key t;
  toml_remove := reference_remove;
  toml_table := ReferenceTable;
  toml_as_table i := match i with ReferenceTable t => Some t | _ => None end;
  toml_string := ReferenceString;
  toml_strings := ReferenceStrings;
  toml_integer := ReferenceInteger;
}.
Lemma reference_get_remove key t : reference_get key (reference_remove key t) = None.
Proof.
  induction t as [|[k i] t IH]; cbn; [done|]. destruct (bool_decide_reflect (k = key)); [done|]. cbn.
  by rewrite bool_decide_eq_false_2.
Qed.
Lemma reference_get_remove_other key key' t : key <> key' -> reference_get key (reference_remove key' t) = reference_get key t.
Proof.
  intros Hne. induction t as [|[k i] t IH]; cbn; [done|].
  destruct (bool_decide_reflect (k = key')) as [->|]; cbn; [by rewrite bool_decide_eq_false_2|].
  destruct (bool_decide (k = key)); [done|exact IH].
Qed.
#[export] Instance reference_toml_laws : TomlEditLaws.
Proof.
  split; try done; cbn.
  - intros k i t. by rewrite bool_decide_eq_true_2.
  - intros k k' i t Hne. rewrite bool_decide_eq_false_2 by done. by apply reference_get_remove_other.
  - intros k t. apply reference_get_remove.
  - intros k k' t. apply reference_get_remove_other.
Qed.

Definition other_server : string * Json := ("github", JObject [("type", JString "http")]).
Lemma claude_keeps_the_rest_witness :
  let root := [("mcpServers", JObject [other_server]); ("theme", JString "dark")] in
  exists root', set_claude_entry root "/usr/bin/ladon" = Ok root' /\
    claude_server "github" root' = Some (JObject [("type", JString "http")]).
Proof.
  eexists. split; [vm_compute; reflexivity|]. etransitivity.
  - eapply (claude_keeps_the_rest [("mcpServers", JObject [other_server]); ("theme", JString "dark")] "/usr/bin/ladon");
      [vm_compute; reflexivity|done].
  - reflexivity.
Defined.
Definition example_toml : TomlDocument (TomlEdit := reference_toml) :=
  [("mcp_servers", ReferenceTable [("github", ReferenceTable []); ("ladon", ReferenceTable [("url", ReferenceString "http://127.0.0.1")])]);
   ("model", ReferenceString "large")].
Lemma codex_keeps_the_rest_witness :
  exists d', set_codex_entry example_toml "/usr/bin/ladon" = Ok d' /\
    codex_item "ladon" "url" d' = None /\ codex_server "github" d' = Some (ReferenceTable []).
Proof.
  eexists. split; [vm_compute; reflexivity|].
  edestruct (codex_keeps_the_rest example_toml "/usr/bin/ladon") as (_ & _ & Hu & _ & Hs & _);
    [vm_compute; reflexivity|]. split; [exact Hu|]. apply Hs; [done|reflexivity].
Defined.

#[export] Instance reference_pretty : SerdeJsonPretty := {| json_pretty := json_print |}.
Lemma config_is_replaced_whole_witness :
  let run := apply_integration_config example_ask Claude "/home/u/.claude.json" "/usr/bin/ladon" in
  os_wp run
    (fun r l => always (sound Claude "/home/u/.claude.json" "/usr/bin/ladon" (fun _ => Absent)) l /\
       match r with
       | Ok outcome => if changed outcome then replaced Claude "/home/u/.claude.json" "/usr/bin/ladon" (fun _ => Absent) l
                       else forall path, files_after (fun _ => Absent) l path = Absent
       | Err _ => True
       end) [].
Proof.
  apply (config_is_replaced_whole example_ask Claude "/home/u/.claude.json" "/usr/bin/ladon" (fun _ => Absent)).
  intros Hs. apply (f_equal last) in Hs as [] || (destruct Hs as [k Hk]; apply (f_equal last) in Hk;
    change (bytes_of ".tmp") with (bytes_of ".tm" ++ bytes_of "p") in Hk; rewrite app_assoc, last_app in Hk; discriminate Hk).
Defined.
Lemma integration_asks_first_witness :
  os_wp (execute_integration example_ask ["codex"])
    (fun _ l => (exists answer, is_consent answer = true /\ Event ReadInput (Ok answer) ∈ l) \/
       forall path, files_after (fun _ => Absent) l path = Absent) [].
Proof. apply (integration_asks_first example_ask ["codex"] (fun _ => Absent)). set_solver. Defined.
