(* ===== verification/McpTools.v ===== *)
(** * McpTools: the tools of [crates/ladon-cli/src/mcp.rs]

    The descriptions and schemas that [tools/list] answers. *)

From S2P Require Import Prelude Json.
Local Open Scope Z_scope.

Definition tools : Json :=
  JArray [
    jobject [
      ("name", JString "ladon_status");
      ("description", JString "Read local Ladon lock/session status without opening a prompt. If locked, call ladon_list_secrets or ladon_run to request local unlock; do not ask the user to unlock separately. No secret values are returned.");
      ("inputSchema", jobject [
        ("type", JString "object");
        ("properties", JObject []);
        ("additionalProperties", JBool false)]);
      ("annotations", jobject [
        ("readOnlyHint", JBool true);
        ("destructiveHint", JBool false)])];
    jobject [
      ("name", JString "ladon_list_secrets");
      ("description", JString "List secret names, IDs, and field names only. If Ladon is locked, opens its local unlock prompt and waits; do not ask the user to unlock separately or paste secrets. On IPC/protocol errors, follow the returned recovery guidance; never stop, restart or replace the shared Ladon app.");
      ("inputSchema", jobject [
        ("type", JString "object");
        ("properties", JObject []);
        ("additionalProperties", JBool false)]);
      ("annotations", jobject [
        ("readOnlyHint", JBool true);
        ("destructiveHint", JBool false)])];
    jobject [
      ("name", JString "ladon_lock");
      ("description", JString "Lock the local Ladon vault and cancel any active secret-bearing run.");
      ("inputSchema", jobject [
        ("type", JString "object");
        ("properties", JObject []);
        ("additionalProperties", JBool false)]);
      ("annotations", jobject [
        ("readOnlyHint", JBool false);
        ("destructiveHint", JBool true);
        ("idempotentHint", JBool true)])];
    jobject [
      ("name", JString "ladon_identify_session");
      ("description", JString "Set a short non-secret reported name for this MCP process, such as 'Codex — deploy payments'. Call once before the first secret-bearing run when a useful task name is known.");
      ("inputSchema", jobject [
        ("type", JString "object");
        ("required", JArray [JString "display_name"]);
        ("additionalProperties", JBool false);
        ("properties", jobject [
          ("display_name", jobject [
            ("type", JString "string");
            ("minLength", JNumber 1);
            ("maxLength", JNumber 64)])])]);
      ("annotations", jobject [
        ("readOnlyHint", JBool false);
        ("destructiveHint", JBool false)])];
    jobject [
      ("name", JString "ladon_run");
      ("description", JString "Run a local non-interactive program with named secret fields injected via environment, stdin, or a temporary file. Pass references only; never pass a secret value. A locked desktop opens a local unlock prompt and waits, then asks for command approval; do not ask the user to unlock separately. The command may modify external state. On IPC/protocol errors, follow the returned recovery guidance; never stop, restart or replace the shared Ladon app or automatically repeat a run with an unknown outcome.");
      ("inputSchema", jobject [
        ("type", JString "object");
        ("required", JArray [JString "executable"]);
        ("additionalProperties", JBool false);
        ("properties", jobject [
          ("executable", jobject [
            ("type", JString "string");
            ("description", JString "Absolute, working-directory-relative, or PATH-resolved local executable.")]);
          ("arguments", jobject [
            ("type", JString "array");
            ("maxItems", JNumber 256);
            ("items", jobject [
              ("type", JString "string")])]);
          ("working_directory", jobject [
            ("type", JString "string")]);
          ("timeout_seconds", jobject [
            ("type", JString "integer");
            ("minimum", JNumber 1);
            ("maximum", JNumber 900);
            ("default", JNumber 300)]);
          ("output_limit_bytes", jobject [
            ("type", JString "integer");
            ("minimum", JNumber 128);
            ("maximum", JNumber 2097152);
            ("default", JNumber 524288)]);
          ("bindings", jobject [
            ("type", JString "array");
            ("maxItems", JNumber 16);
            ("items", jobject [
              ("type", JString "object");
              ("required", JArray [JString "secret_ref"; JString "target"]);
              ("additionalProperties", JBool false);
              ("properties", jobject [
                ("secret_ref", jobject [
                  ("type", JString "string");
                  ("description", JString "Exact secret name or id:<uuid>.")]);
                ("field", jobject [
                  ("type", JString "string");
                  ("default", JString "value")]);
                ("target", jobject [
                  ("type", JString "string");
                  ("enum", JArray [JString "environment"; JString "standard_input"; JString "temporary_file_environment"])]);
                ("name", jobject [
                  ("type", JString "string");
                  ("description", JString "Required environment variable name for environment targets.")]);
                ("suggested_filename", jobject [
                  ("type", JString "string");
                  ("description", JString "Optional safe basename used only to retain an extension for a temporary file.")])])])])])]);
      ("annotations", jobject [
        ("readOnlyHint", JBool false);
        ("destructiveHint", JBool true)])]].
