(* ===== verification/Mcp.v ===== *)
(** * Mcp: [crates/ladon-cli/src/mcp.rs]

    The MCP server that a coding agent talks to over standard input and output.
    Every line is a JSON-RPC message; a tool call becomes at most one request to
    the app.  The text of JSON and the derived deserializers of the arguments are
    parameters. *)

From S2P Require Import Prelude Errors Time Utf8 Text Paths Model Json Protocol Redact Runner Calls Commands McpTools.
Local Open Scope Z_scope.

Definition MCP_LEGACY_VERSION : string := "2025-11-25".
Definition MCP_MODERN_VERSION : string := "2026-07-28".
Definition MAX_REPORTED_NAME_BYTES : Z := 64.
Definition CARGO_PKG_VERSION : string := "0.1.0".

(** ** [McpSession] *)
Record McpSession := {
  session_uuid : Uuid;
  initialized_name : option string;
  session_display_name : option string;
  lifetime : option Lease;
}.
Definition session_new (id : Uuid) : McpSession :=
  {| session_uuid := id; initialized_name := None; session_display_name := None; lifetime := None |}.
Definition session_label (s : McpSession) : string :=
  match session_display_name s with Some n => n | None => default "MCP client" (initialized_name s) end.
Definition validate_name (value : string) : LResult string :=
  let value := trim value in
  reject_if (bool_decide (value = "") || (MAX_REPORTED_NAME_BYTES <? slen value)
             || existsb is_control (chars (bytes_of value))) InvalidRequest;;
  Ok value.
Definition identify (value : string) (s : McpSession) : LResult McpSession :=
  name ← validate_name value;
  Ok {| session_uuid := session_uuid s; initialized_name := initialized_name s;
        session_display_name := Some name; lifetime := lifetime s |}.
Definition record_initialized_name (value : string) (s : McpSession) : McpSession :=
  match validate_name value with
  | Ok name => {| session_uuid := session_uuid s; initialized_name := Some name;
                  session_display_name := session_display_name s; lifetime := lifetime s |}
  | Err _ => s
  end.
Definition set_lifetime (l : option Lease) (s : McpSession) : McpSession :=
  {| session_uuid := session_uuid s; initialized_name := initialized_name s;
     session_display_name := session_display_name s; lifetime := l |}.

(** ** The arguments of the tools *)
Inductive McpBindingTarget : Set := TargetEnvironment | TargetStandardInput | TargetTemporaryFileEnvironment.
Record McpBinding := {
  mcp_secret_ref : string;
  mcp_field : string;
  mcp_target : McpBindingTarget;
  mcp_name : option string;
  mcp_suggested_filename : option string;
}.
Record McpRunArguments := {
  mcp_executable : string;
  mcp_arguments : list string;
  mcp_working_directory : option string;
  mcp_bindings : list McpBinding;
  mcp_timeout_seconds : option Z;
  mcp_output_limit_bytes : option Z;
}.

(** The deserializers derived for [McpRunArguments] and [IdentifySessionArguments]. *)
Class McpArguments := {
  run_arguments_from : Json -> option McpRunArguments;
  identify_arguments_from : Json -> option string;
}.

(** The closure over the bindings of [parse_mcp_run]. *)
Definition binding_target (b : McpBinding) : LResult BindingTarget :=
  match mcp_target b with
  | TargetEnvironment => name ← ok_or (mcp_name b) InvalidBinding; Ok (Environment name)
  | TargetStandardInput =>
    reject_if (bool_decide (is_Some (mcp_name b)) || bool_decide (is_Some (mcp_suggested_filename b))) InvalidBinding;;
    Ok StandardInput
  | TargetTemporaryFileEnvironment =>
    name ← ok_or (mcp_name b) InvalidBinding; Ok (TemporaryFileEnvironment name (mcp_suggested_filename b))
  end.
Definition binding_request (b : McpBinding) : LResult SecretBindingRequest :=
  target ← binding_target b;
  Ok {| request_secret_ref := mcp_secret_ref b; request_field := mcp_field b; request_target := target |}.
Fixpoint binding_requests (l : list McpBinding) : LResult (list SecretBindingRequest) :=
  match l with [] => Ok [] | b :: l => r ← binding_request b; rs ← binding_requests l; Ok (r :: rs) end.

(** ** Replies *)
Definition rpc_result (id : Json) (result : Json) : Json :=
  jobject [("jsonrpc", JString "2.0"); ("id", id); ("result", result)].
Definition jsonrpc_error (id : Json) (code : Z) (message : string) : Json :=
  jobject [("jsonrpc", JString "2.0"); ("id", id);
           ("error", jobject [("code", JNumber code); ("message", JString message)])].
Definition server_info : Json := jobject [("name", JString "ladon"); ("version", JString CARGO_PKG_VERSION)].
Definition initialize_result : Json := jobject [
  ("protocolVersion", JString MCP_LEGACY_VERSION);
  ("capabilities", jobject [("tools", jobject [("listChanged", JBool false)])]);
  ("serverInfo", server_info);
  ("instructions", JString "Use named secret references with Ladon tools. Never ask the user to paste a secret value. When useful, call ladon_identify_session once with a short non-secret task name before a secret-bearing run.")].
Definition discover_result : Json := jobject [
  ("resultType", JString "complete");
  ("supportedVersions", JArray [JString MCP_MODERN_VERSION; JString MCP_LEGACY_VERSION]);
  ("capabilities", jobject [("tools", JObject [])]);
  ("serverInfo", server_info);
  ("instructions", JString "Use named secret references with Ladon tools. Never ask the user to paste a secret value.")].

(** [enum LocalCallPhase] and what an error in it tells: its name, whether a command ran,
    and the explanation. *)
Inductive LocalCallPhase : Set := PhaseSessionOpen | PhaseRun | PhaseRequest.
Definition phase_name (p : LocalCallPhase) : string :=
  match p with PhaseSessionOpen => "session_open" | PhaseRun => "run" | PhaseRequest => "request" end.
Definition phase_execution (p : LocalCallPhase) : string :=
  match p with PhaseSessionOpen => "not_started" | PhaseRun => "unknown" | PhaseRequest => "not_applicable" end.
Definition phase_context (p : LocalCallPhase) : string :=
  match p with
  | PhaseSessionOpen => "A client session could not be established. The running app may not support this client's session protocol, or the connection was interrupted. No command was submitted."
  | PhaseRun => "The run request did not produce a valid reply. Do not assume whether the command executed."
  | PhaseRequest => "The local Ladon request/response exchange failed."
  end.

Section mcp.
Context (ask : forall A, cli_call A -> list (call_event cli_call) -> A).
Context `{TextCrates, SerdeJson, McpArguments}.
Abbreviation Command := (Asks cli_call) (only parsing).
Abbreviation perform := (perform ask) (only parsing).

(** [Value::to_string]. *)
Definition value_text (j : Json) : string := string_of (default [] (json_print j)).
Definition tool_result (id structured : Json) (text : string) (is_error : bool) : Json :=
  rpc_result id (jobject [
    ("content", JArray [jobject [("type", JString "text"); ("text", JString text)]]);
    ("structuredContent", structured);
    ("isError", JBool is_error)]).
Definition tool_error (id : Json) (code message : string) : Json :=
  let structured := jobject [("code", JString code); ("message", JString message)] in
  tool_result id structured (value_text structured) true.

(** [local_tool_error]. *)
Definition recovery_details (error : LadonError) (phase : LocalCallPhase) : Json := jobject [
  ("code", JString (code error));
  ("message", JString (String.concat " " [safe_message error; phase_context phase; LOCAL_SERVICE_RECOVERY_GUIDANCE]));
  ("source", JString "local_ladon");
  ("phase", JString (phase_name phase));
  ("execution", JString (phase_execution phase));
  ("recovery", jobject [("action", JString "ask_user"); ("automatic_retry", JBool false);
                        ("manage_shared_app", JBool false)])].
Definition local_tool_error (id : Json) (peer_code : string) (phase : LocalCallPhase) : Json :=
  let error := default InvalidResponse (from_code peer_code) in
  if negb (needs_user_recovery error) && negb (bool_decide (error = InvalidRequest)) then
    tool_error id (code error) (safe_message error)
  else
    let structured := recovery_details error phase in
    tool_result id structured (value_text structured) true.

(** [identify_session]. *)
Definition identify_session (id arguments : Json) (s : McpSession) : Json * McpSession :=
  match identify_arguments_from arguments with
  | None => (tool_error id "invalid_request" "invalid request", s)
  | Some display_name =>
    match identify display_name s with
    | Ok s => (tool_result id (jobject [("identified", JBool true)]) "session name recorded" false, s)
    | Err error => (tool_error id (code error) (safe_message error), s)
    end
  end.

(** [parse_mcp_run]. *)
Definition mcp_directory (a : McpRunArguments) : Command string :=
  match mcp_working_directory a with
  | Some d => mret d
  | None =>
    current ← perform CurrentDir;
    mret (match current with Ok path => if is_utf8 (bytes_of path) then path else "" | Err _ => "" end)
  end.
Definition parse_mcp_run (arguments : Json) : Command RpcMethod :=
  a ← os_lift (ok_or (run_arguments_from arguments) InvalidRequest);
  working_directory ← mcp_directory a;
  canonical ← or_error ask (fun _ => InvalidWorkingDirectory) (Canonicalize working_directory);
  working_directory ← os_lift (into_string canonical InvalidWorkingDirectory);
  executable ← resolve_executable ask (mcp_executable a) working_directory;
  bindings ← os_lift (binding_requests (mcp_bindings a));
  timeout_ms ← os_lift (ok_or (checked_mul u64_max (default DEFAULT_RUN_TIMEOUT_SECONDS (mcp_timeout_seconds a)) 1000)
                          InvalidTimeout);
  os_lift (checked_run
    {| executable := executable; arguments := mcp_arguments a; working_directory := working_directory;
       bindings := bindings; timeout_ms := timeout_ms;
       output_limit_bytes := default DEFAULT_OUTPUT_LIMIT_BYTES (mcp_output_limit_bytes a) |} Mcp).

(** ** [call_tool] *)
Definition empty_object (j : Json) : bool := match j with JObject [] => true | _ => false end.
Definition tool_method (name : string) (arguments : Json) : Command RpcMethod :=
  if bool_decide (name = "ladon_status") && empty_object arguments then mret Status
  else if bool_decide (name = "ladon_list_secrets") && empty_object arguments then mret ListSecrets
  else if bool_decide (name = "ladon_lock") && empty_object arguments then mret Lock
  else if bool_decide (name = "ladon_run") then parse_mcp_run arguments
  else os_err InvalidRequest.

(** The lease of the session: one that lost its connection is dropped, and a new one is
    opened if there is none. *)
Definition drop_lease (s : McpSession) : Command unit :=
  match lifetime s with Some lease => perform (CloseLease lease) | None => mret tt end.
Definition drop_dead_lease (s : McpSession) : Command McpSession :=
  match lifetime s with
  | Some lease =>
    connected ← perform (LeaseConnected lease);
    if (connected : bool) then mret s else perform (CloseLease lease);; mret (set_lifetime None s)
  | None => mret s
  end.
Definition ensure_lease (s : McpSession) : Command (option LadonError * McpSession) :=
  s ← drop_dead_lease s;
  match lifetime s with
  | Some _ => mret (None, s)
  | None =>
    answer ← perform (OpenLease (session_uuid s) (session_label s));
    mret (match answer with Ok lease => (None, set_lifetime (Some lease) s) | Err error => (Some error, s) end)
  end.

(** The request and what its answer becomes. *)
Definition method_phase (m : RpcMethod) : LocalCallPhase := match m with Run _ _ _ _ _ _ => PhaseRun | _ => PhaseRequest end.
Definition response_reply (id : Json) (phase : LocalCallPhase) (answer : LResult RpcResponse) : Json :=
  match answer with
  | Err error => local_tool_error id (code error) phase
  | Ok response =>
    match error_details response with
    | Some (code, _) => local_tool_error id code phase
    | None =>
      match response_result response with
      | Some result =>
        let structured := to_value (result_json result) in
        let text := match json_print structured with Some b => string_of b | None => "{}" end in
        tool_result id structured text false
      | None => local_tool_error id "invalid_response" phase
      end
    end
  end.
Definition submit (id : Json) (m : RpcMethod) (s : McpSession) : Command Json :=
  request_id ← perform FreshUuid;
  answer ← perform (CallApp {| request_version := PROTOCOL_VERSION; request_id := request_id;
    client_session_id := session_uuid s; client_label := session_label s; method := m |});
  mret (response_reply id (method_phase m) answer).
Definition call_method (id : Json) (m : RpcMethod) (s : McpSession) : Command (Json * McpSession) :=
  '(refused, s) ← (if needs_session m then ensure_lease s else mret (None, s));
  match refused with
  | Some error => mret (local_tool_error id (code error) PhaseSessionOpen, s)
  | None => reply ← submit id m s; mret (reply, s)
  end.
Definition call_tool (id : Json) (params : option Json) (s : McpSession) : Command (Json * McpSession) :=
  match params ≫= fun params => name ← member params "name"; name ← as_string name; Some (params, name) with
  | None => mret (jsonrpc_error id (-32602) "invalid params", s)
  | Some (params, name) =>
    let arguments := default (JObject []) (member params "arguments") in
    if bool_decide (name = "ladon_identify_session") then mret (identify_session id arguments s)
    else
      m ← attempt (tool_method name arguments);
      match m with
      | Err error => mret (tool_error id (code error) (safe_message error), s)
      | Ok m => call_method id m s
      end
  end.

(** ** [handle_message] *)
Definition client_name (request : Json) : option string :=
  params ← member request "params";
  info ← member params "clientInfo";
  name ← member info "name";
  as_string name.
Definition dispatch (method : string) (id request : Json) (s : McpSession) : Command (Json * McpSession) :=
  if bool_decide (method = "initialize") then
    mret (rpc_result id initialize_result,
          match client_name request with Some name => record_initialized_name name s | None => s end)
  else if bool_decide (method = "server/discover") then mret (rpc_result id discover_result, s)
  else if bool_decide (method = "ping") then mret (rpc_result id (JObject []), s)
  else if bool_decide (method = "tools/list") then mret (rpc_result id (jobject [("tools", tools)]), s)
  else if bool_decide (method = "tools/call") then call_tool id (member request "params") s
  else mret (jsonrpc_error id (-32601) "method not found", s).
Definition handle_message (input : bytes) (s : McpSession) : Command (option Json * McpSession) :=
  match json_parse input with
  | Some request =>
    if negb (checked 0 request) then mret (Some (jsonrpc_error JNull (-32700) "invalid JSON"), s)
    else
      let id := member request "id" in
      match member request "method" ≫= as_string with
      | Some method =>
        if bool_decide (member request "jsonrpc" ≫= as_string = Some "2.0") then
          match id with
          | None => mret (None, s)
          | Some id => '(reply, s) ← dispatch method id request s; mret (Some reply, s)
          end
        else mret ((fun id => jsonrpc_error id (-32600) "invalid request") <$> id, s)
      | None => mret ((fun id => jsonrpc_error id (-32600) "invalid request") <$> id, s)
      end
  | None => mret (Some (jsonrpc_error JNull (-32700) "invalid JSON"), s)
  end.

(** ** [serve_mcp] *)

Definition line_feed : byte := zb 10.
Definition carriage_return : byte := zb 13.

(** What is left of the input, and whether reading past it fails. *)
Record Input := { unread : bytes; broken : bool }.
Fixpoint take_line (limit : nat) (b : bytes) : bytes * bytes * bool :=
  match limit, b with
  | O, _ => ([], b, true)
  | _, [] => ([], [], false)
  | S limit, x :: b =>
    if bool_decide (x = line_feed) then ([x], b, true)
    else let '(line, rest, found) := take_line limit b in (x :: line, rest, found)
  end.
Definition read_line (limit : nat) (i : Input) : LResult (bytes * Input) :=
  let '(line, rest, complete) := take_line limit (unread i) in
  reject_if (negb complete && broken i || negb (is_utf8 line)) InvalidFrame;;
  Ok (line, {| unread := rest; broken := broken i |}).
Definition trim_line_end (line : bytes) : bytes :=
  reverse (drop_while (fun x => bool_decide (x = line_feed) || bool_decide (x = carriage_return)) (reverse line)).

(** A reply is written as one line. *)
Definition write_reply (reply : Json) : Command unit :=
  text ← os_lift (ok_or (json_print reply) InvalidRequest);
  or_error ask (fun _ => InvalidRequest) (WriteOutput text);;
  or_error ask (fun _ => InvalidRequest) (WriteOutput [line_feed]);;
  or_error ask (fun _ => InvalidRequest) FlushOutput.
Definition answer_line (line : bytes) (s : McpSession) : Command McpSession :=
  '(reply, s) ← handle_message line s;
  match reply with
  | None => mret s
  | Some reply => on_error (drop_lease s) (write_reply reply);; mret s
  end.
Fixpoint serve_loop (fuel : nat) (i : Input) (s : McpSession) : Command unit :=
  match fuel with
  | O => out_of_fuel
  | S fuel =>
    '(line, i) ← on_error (drop_lease s) (os_lift (read_line (Z.to_nat (MAX_FRAME_BYTES + 1)) i));
    if bool_decide (line = []) then drop_lease s
    else if MAX_FRAME_BYTES <? zlen line then drop_lease s;; os_err FrameTooLarge
    else
      let trimmed := trim_line_end line in
      s ← (if bool_decide (trimmed = []) then mret s else answer_line trimmed s);
      serve_loop fuel i s
  end.
Definition serve_mcp (i : Input) : Command unit :=
  id ← perform FreshUuid;
  serve_loop (S (length (unread i))) i (session_new id).
End mcp.
