(* ===== verification/McpProperties.v ===== *)
(** * What the MCP server promises

    Everything it asks of the app is well formed, belongs to its one session and,
    where the app needs to know that the agent is there, is asked under a live
    lease; its replies carry the identifiers of the messages and say honestly
    whether a command may have run. *)

From S2P Require Import Prelude Errors Time Utf8 Text Paths Model Json Protocol ProtocolReference Redact Runner Calls Commands CommandsProperties McpTools Mcp.
Local Open Scope Z_scope.

(** ** Names *)
Definition name_ok (name : string) : Prop := 1 <= slen name <= MAX_REPORTED_NAME_BYTES /\ (zb 0 ∉ bytes_of name).

Lemma Forall_drop_while {A} P (p : A -> bool) l : Forall P l -> Forall P (drop_while p l).
Proof. induction 1 as [|x l Hx Hl IH]; cbn; [constructor|]. destruct (p x); [done|by constructor]. Qed.
Lemma trim_chars s : exists cs, bytes_of (trim s) = concat cs /\ Forall is_char cs.
Proof.
  eexists. unfold trim. rewrite bytes_of_string_of. split; [done|].
  apply Forall_reverse, Forall_drop_while, Forall_reverse, Forall_drop_while, chars_are_chars.
Qed.
Lemma nul_is_a_char c : is_char c -> zb 0 ∈ c -> c = [zb 0].
Proof.
  intros Hc Hin. apply list_elem_of_lookup in Hin as [i Hi].
  pose proof (is_char_continuation c i (zb 0) Hc Hi) as Hcont. destruct i as [|i]; [|by vm_compute in Hcont].
  destruct c as [|x c]; [done|]. injection Hi as ->. unfold is_char in Hc. cbn in Hc. injection Hc as Hc.
  by destruct c.
Qed.
Lemma validate_name_ok value name : validate_name value = Ok name -> name_ok name.
Proof.
  unfold validate_name. intros Hv. inv_ok. bool_hyps. unfold name_ok.
  destruct (trim_chars value) as (cs & Hb & Hcs).
  match goal with H : existsb _ _ = false |- _ => rewrite Hb, chars_concat in H by done; apply existsb_false_Forall in H as Hctl end.
  split.
  - unfold MAX_REPORTED_NAME_BYTES in *. split; [|lia]. pose proof (slen_nonneg (trim value)).
    assert (slen (trim value) <> 0); [|lia]. intros Hz. destruct (trim value) as [|b v]; [done|].
    change (zlen (b :: bytes_of v) = 0) in Hz. rewrite zlen_cons in Hz. pose proof (zlen_nonneg (bytes_of v)). lia.
  - rewrite Hb, list_elem_of_In, in_concat. intros (c & Hin & Hc).
    apply list_elem_of_In in Hin, Hc. rewrite Forall_forall in Hcs, Hctl.
    apply (nul_is_a_char c) in Hc; [|by apply Hcs]. subst c. by specialize (Hctl _ Hin).
Qed.

(** A session whose names may be sent. *)
Definition names_ok (s : McpSession) : Prop :=
  option_wf name_ok (initialized_name s) /\ option_wf name_ok (session_display_name s).
Lemma label_ok s : names_ok s -> name_ok (session_label s).
Proof.
  intros [Hi Hd]. unfold session_label. destruct (session_display_name s); [done|]. destruct (initialized_name s); [done|].
  split; [by vm_compute|]. by apply (bool_decide_unpack _).
Qed.

(** ** Replies *)

(** A JSON-RPC reply to a message: a result or an error. *)
Definition carries (id reply : Json) : Prop :=
  member reply "jsonrpc" = Some (JString "2.0") /\ member reply "id" = Some id /\
  (is_Some (member reply "result") /\ member reply "error" = None \/
   member reply "result" = None /\ is_Some (member reply "error")).
Lemma rpc_result_carries id result : carries id (rpc_result id result).
Proof. split_and!; [reflexivity..|]. left. split; [by eexists|reflexivity]. Qed.
Lemma jsonrpc_error_carries id code message : carries id (jsonrpc_error id code message).
Proof. split_and!; [reflexivity..|]. right. split; [reflexivity|by eexists]. Qed.

(** What a reply says of its outcome. *)
Definition structured_content (reply : Json) : option Json :=
  result ← member reply "result"; member result "structuredContent".
Definition execution (reply : Json) : option string :=
  content ← structured_content reply; e ← member content "execution"; as_string e.
Definition is_error (reply : Json) : option bool :=
  result ← member reply "result"; e ← member result "isError"; match e with JBool b => Some b | _ => None end.
Definition error_code (reply : Json) : option Z :=
  e ← member reply "error"; c ← member e "code"; match c with JNumber n => Some n | _ => None end.

Section replies.
Context `{TextCrates, SerdeJson}.
Lemma tool_result_carries id structured text b : carries id (tool_result id structured text b).
Proof. apply rpc_result_carries. Qed.
Lemma tool_error_carries id c m : carries id (tool_error id c m).
Proof. apply tool_result_carries. Qed.
Lemma local_tool_error_carries id c phase : carries id (local_tool_error id c phase).
Proof. unfold local_tool_error, tool_error. destruct (_ && _); apply tool_result_carries. Qed.
Lemma response_reply_carries id phase answer : carries id (response_reply id phase answer).
Proof.
  unfold response_reply. destruct answer as [response|e]; [|apply local_tool_error_carries].
  destruct (error_details response) as [[c ?]|]; [apply local_tool_error_carries|].
  destruct (response_result response); [apply tool_result_carries|apply local_tool_error_carries].
Qed.

Lemma local_tool_error_execution id c phase :
  is_error (local_tool_error id c phase) = Some true /\
  (execution (local_tool_error id c phase) = None \/
   execution (local_tool_error id c phase) = Some (phase_execution phase)).
Proof. unfold local_tool_error. destruct (_ && _); split; try reflexivity; [by left|by right]. Qed.
Lemma local_tool_error_recovery id e phase :
  needs_user_recovery e = true -> execution (local_tool_error id (code e) phase) = Some (phase_execution phase).
Proof.
  intros He. unfold local_tool_error. rewrite (proj2 (from_code_iff (code e) e) eq_refl).
  change (default InvalidResponse (Some e)) with e. rewrite He. reflexivity.
Qed.
Lemma result_execution id result text b :
  is_error (tool_result id (to_value (result_json result)) text b) = Some b /\
  execution (tool_result id (to_value (result_json result)) text b) = None.
Proof. split; [reflexivity|]. by destruct result. Qed.
End replies.

(** ** The invariant of a session *)
Section server.
Context (ask : forall A, cli_call A -> list (call_event cli_call) -> A).
Context `{TextCrates, SerdeJson, McpArguments}.
Abbreviation log := (list (call_event cli_call)) (only parsing).
Context (client : Uuid).

Record session_ok (s : McpSession) (l : log) : Prop := {
  session_ok_uuid : session_uuid s = client;
  session_ok_names : names_ok s;
  session_ok_leases : open_leases l = match lifetime s with Some lease => [lease] | None => [] end;
  session_ok_opened : forall lease, lifetime s = Some lease ->
    exists label, Event (OpenLease client label) (Ok lease) ∈ l;
  session_ok_requests : every_request (proper_request Mcp client) l;
}.

Lemma is_run_phase m : is_run m = true -> method_phase m = PhaseRun.
Proof. by destruct m. Qed.

(** The session while neutral calls are made. *)
Definition session_at (s : McpSession) (x : list (RpcRequest * LResult RpcResponse)) (l : log) : Prop :=
  session_ok s l /\ exchanges l = x.
Lemma session_at_neutral s x : closed_under (@neutral) (session_at s x).
Proof.
  intros A c a l Hc [[Hu Hn Hl Ho Hr] Hx]. split; [|by destruct c]. split; [done|done|by destruct c| |by destruct c].
  intros lease Hs. destruct (Ho lease Hs) as [label Hin]. exists label. by right.
Qed.
Lemma session_ok_event s l {A} (c : cli_call A) a : neutral c -> session_ok s l -> session_ok s (Event c a :: l).
Proof. intros Hc Hs. by apply (session_at_neutral s (exchanges l)). Qed.
Lemma session_wp_bind {A B} (m : Asks cli_call A) (k : A -> Asks cli_call B) Q s x l :
  quiet m -> session_at s x l ->
  (forall a l', session_at s x l' -> os_wp (k a) Q l') -> (forall e l', session_at s x l' -> Q (Err e) l') ->
  os_wp (m ≫= k) Q l.
Proof. apply asks_only_wp_bind, session_at_neutral. Qed.

(** What a tool asks of the app is valid. *)
Lemma parse_mcp_run_wp arguments s x l :
  session_at s x l ->
  os_wp (parse_mcp_run ask arguments)
    (fun r l' => session_at s x l' /\ forall m, r = Ok m -> valid_run Mcp m /\ is_run m = true) l.
Proof.
  intros Hl. unfold parse_mcp_run, mcp_directory.
  eapply session_wp_bind; [eauto with asks_only|exact Hl| |by intros]. clear Hl. intros a l1 Hl.
  eapply session_wp_bind; [destruct (mcp_working_directory a); eauto with asks_only|exact Hl| |by intros]. clear Hl. intros d l2 Hl.
  do 5 (eapply session_wp_bind; [eauto using resolve_executable_quiet with asks_only|exact Hl| |by intros]; clear Hl; intros ? ? Hl).
  apply os_wp_lift. split; [done|]. intros m. apply checked_run_valid.
Qed.
Lemma tool_method_wp name arguments s x l :
  session_at s x l ->
  os_wp (tool_method ask name arguments) (fun r l' => session_at s x l' /\ forall m, r = Ok m -> valid_run Mcp m) l.
Proof.
  intros Hl. unfold tool_method.
  repeat match goal with |- os_wp (if ?b then _ else _) _ _ => destruct b end.
  4: eapply os_wp_mono; [by apply parse_mcp_run_wp|]; intros r l' [Hl' Hm]; by split; [|intros m [? _]%Hm].
  4: by apply os_wp_err.
  all: apply os_wp_ret; split; [done|]; by intros m [= <-].
Qed.

Lemma absolute_path_bounded path : absolute_path path -> bounded_path path.
Proof.
  intros ([rest Hp] & Hn & Hl). split; [|done]. unfold slen in *. rewrite Hp, zlen_cons in *.
  pose proof (zlen_nonneg rest). unfold Runner.MAX_PATH_BYTES, Protocol.MAX_PATH_BYTES in *. lia.
Qed.
Lemma valid_request_accepted caller id label m :
  name_ok label -> valid_run caller m ->
  validate_request {| request_version := PROTOCOL_VERSION; request_id := id; client_session_id := client;
    client_label := label; method := m |} = Ok tt.
Proof.
  intros [Hl Hn] Hm. apply validate_request_Ok. split; [done|done|]. cbn [method].
  destruct m as [| | | |e a w b t o]; try done. destruct Hm as (v & Hv).
  apply validate_run_request_Ok in Hv as ([He Hw (Ha1 & Ha2 & Ha3) _ _ _] & _). cbn in *.
  split_and!; [by apply absolute_path_bounded..|done|done|done].
Qed.

Lemma session_ok_lifetime s l lease label :
  session_ok s l -> lifetime s = None ->
  session_ok (set_lifetime (Some lease) s) (Event (OpenLease client label) (Ok lease) :: l).
Proof.
  intros [Hu Hn Hl Ho Hr] Hs. rewrite Hs in Hl. split; cbn; [done|done|by rewrite Hl| |done].
  intros x [= <-]. exists label. by left.
Qed.
Lemma session_ok_closed s l lease a :
  session_ok s l -> lifetime s = Some lease -> session_ok (set_lifetime None s) (Event (CloseLease lease) a :: l).
Proof.
  intros [Hu Hn Hl Ho Hr] Hs. rewrite Hs in Hl. split; cbn; [done|done| |done|done].
  by rewrite Hl; cbn; rewrite Z.eqb_refl.
Qed.

Lemma ensure_lease_wp s l (Q : LResult (option LadonError * McpSession) -> log -> Prop) :
  session_ok s l ->
  (forall s' lease l', session_ok s' l' -> lifetime s' = Some lease -> exchanges l' = exchanges l -> Q (Ok (None, s')) l') ->
  (forall e s' l', session_ok s' l' -> exchanges l' = exchanges l -> Q (Ok (Some e, s')) l') ->
  os_wp (ensure_lease ask s) Q l.
Proof.
  intros Hl HOk HErr. unfold ensure_lease, drop_dead_lease.
  assert (Hopen : forall s l', session_ok s l' -> exchanges l' = exchanges l -> lifetime s = None ->
    os_wp (answer ← perform ask (OpenLease (session_uuid s) (session_label s));
      mret (match answer with Ok lease => (None, set_lifetime (Some lease) s) | Err error => (Some error, s) end)) Q l').
  { intros s' l' Hs' Hr' Hn. repeat ask_step. rewrite (session_ok_uuid _ _ Hs').
    match goal with |- context [Event (OpenLease _ _) ?a] => destruct a as [lease|e] end.
    - eapply (HOk _ lease); [by apply session_ok_lifetime|done|done].
    - apply HErr; [|done]. destruct Hs' as [Hu Hns Hls Ho Hr]. split; [done..| |done].
      intros x Hx. by rewrite Hn in Hx. }
  destruct (lifetime s) as [lease|] eqn:Hlife.
  - do 3 ask_step. match goal with |- context [Event (LeaseConnected lease) ?a] => destruct a end; repeat ask_step.
    + rewrite Hlife. ask_step. eapply HOk; [by apply session_ok_event|done|done].
    + cbn [lifetime set_lifetime]. apply Hopen; [|done|done]. by apply session_ok_closed, Hlife; apply session_ok_event.
  - do 2 ask_step. rewrite Hlife. by apply Hopen.
Qed.

Lemma submit_wp id m s l (Q : LResult Json -> log -> Prop) :
  session_ok s l -> valid_run Mcp m -> (needs_session m = true -> leased client l) ->
  (forall request answer l', session_ok s l' -> method request = m -> exchanges l' = (request, answer) :: exchanges l ->
     Q (Ok (response_reply id (method_phase m) answer)) l') ->
  os_wp (submit ask id m s) Q l.
Proof.
  intros Hl Hm Hlease HQ. unfold submit. repeat ask_step.
  match goal with |- context [Event FreshUuid ?a] => rename a into request_id end.
  match goal with |- context [Event (CallApp ?r) ?a] => apply (HQ r) end; [|done|done].
  apply (session_ok_event _ _ FreshUuid request_id I) in Hl.
  destruct Hl as [Hu Hn Hls Ho Hr]. rewrite Hu. split; [done|done|done| |].
  - intros lease Hs. destruct (Ho lease Hs) as [label Hin]. exists label. by right.
  - split; [|exact Hr]. split_and!; [done|by eapply valid_request_accepted; [apply label_ok|]|done|].
    intros Hns. destruct (Hlease Hns) as (lease & label & Hopen & Hin). exists lease, label. split; [done|by right].
Qed.

(** A method is refused without a request, or asked once. *)
Lemma call_method_wp id m s l (Q : LResult (Json * McpSession) -> log -> Prop) :
  session_ok s l -> valid_run Mcp m ->
  (forall e s' l', session_ok s' l' -> exchanges l' = exchanges l -> needs_session m = true ->
     Q (Ok (local_tool_error id (code e) PhaseSessionOpen, s')) l') ->
  (forall request answer s' l', session_ok s' l' -> method request = m -> exchanges l' = (request, answer) :: exchanges l ->
     Q (Ok (response_reply id (method_phase m) answer, s')) l') ->
  os_wp (call_method ask id m s) Q l.
Proof.
  intros Hl Hm HErr HOk. unfold call_method. apply os_wp_bind. destruct (needs_session m) eqn:Hn.
  - apply ensure_lease_wp; [done|intros s' lease l' Hs' Hlife Hr|intros e s' l' Hs' Hr]; cbv beta iota.
    + apply os_wp_bind, submit_wp; [done|done| |].
      { intros _. destruct (session_ok_opened _ _ Hs' lease Hlife) as [label Hin]. exists lease, label.
        split; [|done]. by rewrite (session_ok_leases _ _ Hs'), Hlife. }
      intros request answer l2 Hs2 Hm2 Hr2. cbv beta iota. apply os_wp_ret.
      apply (HOk request); [done|done|]. by rewrite Hr2, Hr.
    + apply os_wp_ret. by apply HErr.
  - apply os_wp_ret. cbv beta iota. apply os_wp_bind, submit_wp; [done|done|by rewrite Hn|].
    intros request answer l2 Hs2 Hm2 Hr2. cbv beta iota. apply os_wp_ret. by apply (HOk request).
Qed.
(** A tool call is answered, for the message it came with. *)
Definition answered (id : Json) (r : LResult (Json * McpSession)) (l : log) : Prop :=
  match r with Ok (reply, s) => carries id reply /\ session_ok s l | Err _ => False end.
Lemma identify_session_answered id arguments s l : session_ok s l -> answered id (Ok (identify_session id arguments s)) l.
Proof.
  intros Hl. unfold identify_session, answered.
  destruct (identify_arguments_from arguments) as [name|]; [|exact (conj (tool_error_carries _ _ _) Hl)].
  destruct (identify name s) as [s'|e] eqn:Hi; [|exact (conj (tool_error_carries _ _ _) Hl)].
  split; [apply tool_result_carries|]. unfold identify in Hi. inv_ok.
  match goal with H : validate_name _ = Ok _ |- _ => apply validate_name_ok in H as Hname end.
  destruct Hl as [Hu [Hn Hd] Hls Ho Hr]. by split.
Qed.
Lemma call_method_answered id m s l : session_ok s l -> valid_run Mcp m -> os_wp (call_method ask id m s) (answered id) l.
Proof.
  intros Hl Hm. apply call_method_wp; [done|done| |].
  - intros e s' l' Hs' _ _. exact (conj (local_tool_error_carries _ _ _) Hs').
  - intros request answer s' l' Hs' _ _. exact (conj (response_reply_carries _ _ _) Hs').
Qed.
Lemma call_tool_answered id params s l : session_ok s l -> os_wp (call_tool ask id params s) (answered id) l.
Proof.
  intros Hl. unfold call_tool. destruct (params ≫= _) as [[p name]|]; [|exact (conj (jsonrpc_error_carries _ _ _) Hl)].
  destruct (bool_decide _); [ask_step; by apply identify_session_answered|].
  do 2 ask_step. eapply os_wp_mono; [by apply (tool_method_wp _ _ s (exchanges l))|].
  intros [m|e] l' ([Hs _] & Hm); [by apply call_method_answered, Hm|].
  exact (conj (tool_error_carries _ _ _) Hs).
Qed.
Lemma recorded_name_ok s l name : session_ok s l -> session_ok (record_initialized_name name s) l.
Proof.
  intros Hl. unfold record_initialized_name. destruct (validate_name name) as [n|] eqn:Hn; [|done].
  apply validate_name_ok in Hn. destruct Hl as [Hu [Hi Hd] Hls Ho Hr]. by split.
Qed.
Lemma dispatch_answered method id request s l : session_ok s l -> os_wp (dispatch ask method id request s) (answered id) l.
Proof.
  intros Hl. unfold dispatch.
  destruct (bool_decide (method = "initialize")).
  { split; [apply rpc_result_carries|]. destruct (client_name request); [by apply recorded_name_ok|done]. }
  do 3 (destruct (bool_decide _); [exact (conj (rpc_result_carries _ _) Hl)|]).
  destruct (bool_decide _); [by apply call_tool_answered|exact (conj (jsonrpc_error_carries _ _ _) Hl)].
Qed.

(** What a message deserves as an answer. *)
Definition proper_reply (input : bytes) (reply : option Json) : Prop :=
  match json_parse input with
  | Some request =>
    if checked 0 request then
      match member request "id" with
      | Some id => exists r, reply = Some r /\ carries id r
      | None => reply = None
      end
    else exists r, reply = Some r /\ carries JNull r /\ error_code r = Some (-32700)
  | None => exists r, reply = Some r /\ carries JNull r /\ error_code r = Some (-32700)
  end.
Definition is_notification (input : bytes) : Prop :=
  exists request, json_parse input = Some request /\ member request "id" = None.
Lemma handle_message_wp input s l :
  session_ok s l ->
  os_wp (handle_message ask input s)
    (fun r l' => exists reply s', r = Ok (reply, s') /\ proper_reply input reply /\ session_ok s' l' /\
       (is_notification input -> l' = l)) l.
Proof.
  intros Hl. unfold handle_message, proper_reply, is_notification. destruct (json_parse input) as [request|] eqn:Hp.
  2: { ask_step. eexists _, _. split_and!; [done| |done|by intros (? & ? & ?)].
       eexists. split_and!; [done|apply jsonrpc_error_carries|reflexivity]. }
  destruct (checked 0 request); cbn [negb].
  2: { ask_step. eexists _, _. split_and!; [done| |done|done].
       eexists. split_and!; [done|apply jsonrpc_error_carries|reflexivity]. }
  destruct (member request "id") as [id|] eqn:Hid.
  - destruct (member request "method" ≫= as_string) as [method|]; [destruct (bool_decide _)|].
    2-3: ask_step; eexists _, _; split_and!;
      [done|eexists; split; [done|apply jsonrpc_error_carries]|done|by intros (? & [= <-] & ?); congruence].
    ask_step. eapply os_wp_mono; [by apply dispatch_answered|]. intros [[reply s']|e] l' H'; [|done].
    destruct H' as [Hc Hs]. ask_step. eexists _, _. split_and!; [done|by eexists|done|].
    intros (? & [= <-] & ?); congruence.
  - destruct (member request "method" ≫= as_string) as [method|]; [destruct (bool_decide _)|]; ask_step;
      by eexists _, _.
Qed.
(** At the end nothing is left open and every request was proper. *)
Definition finished (l : log) : Prop := open_leases l = [] /\ every_request (proper_request Mcp client) l.
Lemma drop_lease_wp s l : session_ok s l -> os_wp (drop_lease ask s) (fun r l' => r = Ok tt /\ finished l') l.
Proof.
  intros Hl. pose proof (session_ok_leases _ _ Hl) as Ho. pose proof (session_ok_requests _ _ Hl) as Hr.
  unfold drop_lease. destruct (lifetime s) as [lease|] eqn:Hs.
  - apply os_wp_perform. intros [] _. split; [done|]. destruct (session_ok_closed _ _ _ tt Hl Hs) as [_ _ Hc _ Hr'].
    by split.
  - by apply os_wp_ret.
Qed.
Lemma on_error_drop {A} (m : Asks cli_call A) s l (Q : A -> log -> Prop) :
  os_wp m (fun r l' => match r with Ok a => Q a l' | Err _ => session_ok s l' end) l ->
  os_wp (on_error (drop_lease ask s) m) (fun r l' => match r with Ok a => Q a l' | Err _ => finished l' end) l.
Proof.
  intros Hm. apply os_wp_on_error. eapply os_wp_mono; [exact Hm|]. intros [a|e] l' H'; [done|].
  eapply os_wp_mono; [by apply drop_lease_wp|]. by intros r l2 [-> Hf].
Qed.

Lemma write_reply_quiet reply : quiet (write_reply ask reply).
Proof.
  unfold write_reply. apply asks_only_bind; [apply asks_only_lift|]. intros text.
  do 2 (apply asks_only_bind; [by apply asks_only_or_error|]; intros _). by apply asks_only_or_error.
Qed.
Lemma answer_line_wp line s l :
  session_ok s l ->
  os_wp (answer_line ask line s) (fun r l' => match r with Ok s' => session_ok s' l' | Err _ => finished l' end) l.
Proof.
  intros Hl. unfold answer_line. ask_step. eapply os_wp_mono; [by apply handle_message_wp|].
  intros r l1 (reply & s1 & -> & _ & Hs1 & _). destruct reply as [reply|]; [|by ask_step].
  ask_step. eapply os_wp_mono.
  - apply (on_error_drop _ s1 _ (fun _ => session_ok s1)).
    eapply os_wp_mono; [apply answers_wp; [apply write_reply_quiet|apply (proj2 (write_reply_quiet reply)), (session_at_neutral s1 (exchanges l1))|done]|].
    by intros [] l' [H' _].
  - by intros [].
Qed.

Lemma take_line_shorter limit b line rest found : take_line limit b = (line, rest, found) -> b = line ++ rest.
Proof.
  revert b line rest found. induction limit as [|limit IH]; intros [|x b] line rest found; cbn; try by intros [= <- <- _].
  destruct (bool_decide _); [by intros [= <- <- _]|].
  destruct (take_line limit b) as [[line' rest'] found'] eqn:Ht. intros [= <- <- _]. by rewrite (IH _ _ _ _ Ht).
Qed.
Lemma read_line_shorter limit i line i' :
  read_line limit i = Ok (line, i') -> unread i = line ++ unread i'.
Proof.
  unfold read_line. destruct (take_line limit (unread i)) as [[l rest] complete] eqn:Ht. intros Hr. inv_ok.
  by apply take_line_shorter in Ht.
Qed.

Lemma serve_loop_finishes fuel i s l :
  (length (unread i) < fuel)%nat -> session_ok s l -> os_wp (serve_loop ask fuel i s) (fun _ => finished) l.
Proof.
  revert i s l. induction fuel as [|fuel IH]; intros i s l Hf Hl; [lia|]. cbn [serve_loop].
  apply os_wp_bind. eapply os_wp_mono.
  { apply (on_error_drop _ s _ (fun a l' => read_line (Z.to_nat (MAX_FRAME_BYTES + 1)) i = Ok a /\ session_ok s l')).
    apply os_wp_lift. by destruct (read_line _ i). }
  intros [[line i']|e] l1 Hread; [|done]. destruct Hread as [Hr Hs1]. apply read_line_shorter in Hr.
  destruct (bool_decide_reflect (line = [])) as [|Hne].
  { eapply os_wp_mono; [by apply drop_lease_wp|]. by intros r l' [_ Hfin]. }
  destruct (MAX_FRAME_BYTES <? zlen line).
  { ask_step. eapply os_wp_mono; [by apply drop_lease_wp|]. intros r l' [-> Hfin]. by ask_step. }
  assert (Hshort : (length (unread i') < fuel)%nat).
  { apply (f_equal length) in Hr. rewrite length_app in Hr. destruct line; [done|]. cbn in Hr. lia. }
  ask_step. destruct (bool_decide _); [ask_step; by apply IH|].
  eapply os_wp_mono; [by apply answer_line_wp|]. intros [s'|e] l' H'; [by apply IH|done].
Qed.
End server.

Section properties.
Context (ask : forall A, cli_call A -> list (call_event cli_call) -> A).
Context `{TextCrates, SerdeJson, McpArguments}.
Abbreviation log := (list (call_event cli_call)) (only parsing).

(** Whatever is written to the server, it ends, it asked nothing improper of the app, and
    it left no lease open. *)
Lemma serve_mcp_finishes i :
  os_wp (serve_mcp ask i) (fun _ l => exists client, open_leases l = [] /\ every_request (proper_request Mcp client) l) [].
Proof.
  unfold serve_mcp. ask_step. apply os_wp_perform. intros client _. eapply os_wp_mono.
  - apply (serve_loop_finishes ask client); [lia|]. by split.
  - intros r l Hl. by exists client.
Qed.

(** Every message to the MCP server gets the reply of JSON-RPC: one that is not
    checked JSON gets error -32700 without an identifier; one with an identifier gets
    exactly one reply, with that identifier and either a result or an error; one without gets
    none, and nothing is asked of anybody on its behalf. *)
Theorem replies_answer_messages client input s l :
  session_ok client s l ->
  os_wp (handle_message ask input s)
    (fun r l' => exists reply s', r = Ok (reply, s') /\ proper_reply input reply /\ (is_notification input -> l' = l)) l.
Proof.
  intros Hl. eapply os_wp_mono; [by apply handle_message_wp|].
  intros r l' (reply & s' & -> & Hp & _ & Hn). by exists reply, s'.
Qed.

(** What a reply may say of a run that was not, or was, handed to the app. *)
Definition honest_outcome (before after : log) (reply : Json) : Prop :=
  (exchanges after = exchanges before /\ is_error reply = Some true /\ execution reply <> Some "unknown") \/
  (exists request answer, exchanges after = (request, answer) :: exchanges before /\
     execution reply <> Some "not_started" /\
     (is_error reply = Some false <->
        exists response, answer = Ok response /\ error_details response = None /\ is_Some (response_result response)) /\
     (forall e, answer = Err e -> needs_user_recovery e = true -> execution reply = Some "unknown")).
Lemma response_reply_honest id request answer before after :
  exchanges after = (request, answer) :: exchanges before ->
  honest_outcome before after (response_reply id PhaseRun answer).
Proof.
  intros Hx. right. exists request, answer. split; [done|]. unfold response_reply.
  assert (Hlocal : forall c, execution (local_tool_error id c PhaseRun) <> Some "not_started" /\
    is_error (local_tool_error id c PhaseRun) = Some true).
  { intros c. destruct (local_tool_error_execution id c PhaseRun) as [He [Hx'|Hx']]; rewrite Hx'; by split. }
  destruct answer as [response|err].
  - destruct (error_details response) as [[c m]|] eqn:Hd; [|destruct (response_result response) as [result|] eqn:Hr].
    + destruct (Hlocal c) as [He1 He2]. rewrite He2. split_and!; [done| |done].
      split; [done|]. intros (? & [= <-] & ? & _). congruence.
    + edestruct result_execution as [He1 He2]. rewrite He1, He2. split_and!; [done| |done]. split; [|done].
      intros _. exists response. by rewrite Hr.
    + destruct (Hlocal "invalid_response") as [He1 He2]. rewrite He2. split_and!; [done| |done].
      split; [done|]. intros (? & [= <-] & _ & [? ?]). congruence.
  - destruct (Hlocal (code err)) as [He1 He2]. rewrite He2. split_and!; [done| |].
    + split; [done|]. by intros (? & ? & _).
    + intros e' [= ->] Hn. by apply local_tool_error_recovery.
Qed.

(** C21. The reply to a run says honestly what is known of the command.  Either the app was
    not asked, and the reply is an error that does not call the outcome unknown; or
    it was asked exactly once, and the reply never says that the command did not start, is a
    success only if the app answered with a result, and says that the outcome is
    unknown whenever the answer was lost. *)
Theorem run_outcome_is_honest client id params s l :
  session_ok client s l -> member params "name" = Some (JString "ladon_run") ->
  os_wp (call_tool ask id (Some params) s)
    (fun r l' => exists reply s', r = Ok (reply, s') /\ honest_outcome l l' reply) l.
Proof.
  intros Hl Hname. unfold call_tool. cbn [mbind option_bind]. rewrite Hname. cbn [mbind option_bind as_string].
  change (bool_decide ("ladon_run" = "ladon_identify_session")) with false. cbv iota. do 2 ask_step.
  change (tool_method ask "ladon_run" (default (JObject []) (member params "arguments")))
    with (parse_mcp_run ask (default (JObject []) (member params "arguments"))).
  eapply os_wp_mono; [by apply (parse_mcp_run_wp ask client _ s (exchanges l))|]. intros [m|e] l1 ([Hs Hx] & Hm).
  - destruct (Hm m eq_refl) as [Hv Hp%is_run_phase]. eapply call_method_wp; [exact Hs|done| |].
    + intros e s' l' _ Hx' _. eexists _, _. split; [done|]. left. split; [congruence|].
      destruct (local_tool_error_execution id (code e) PhaseSessionOpen) as [? [He|He]]; rewrite He; by split.
    + intros request answer s' l' _ _ Hx'. eexists _, _. split; [done|]. rewrite Hp.
      by apply (response_reply_honest id request); congruence.
  - apply os_wp_ret. eexists _, _. split; [done|]. left. by split_and!.
Qed.
End properties.

(** ** Examples *)

Definition example_arguments : McpArguments := {|
  run_arguments_from _ := Some {| mcp_executable := "cargo"; mcp_arguments := ["publish"];
    mcp_working_directory := None; mcp_timeout_seconds := None; mcp_output_limit_bytes := None;
    mcp_bindings := [{| mcp_secret_ref := "crates"; mcp_field := "value"; mcp_target := TargetEnvironment;
      mcp_name := Some "CARGO_TOKEN"; mcp_suggested_filename := None |}] |};
  identify_arguments_from _ := None;
|}.
Definition example_run : Json := jobject [("name", JString "ladon_run"); ("arguments", JObject [])].
Example example_run_is_asked :
  exchanges (call_tool (H1 := example_arguments) example_ask (JNumber 1) (Some example_run) (session_new 7) []).2 =
  [({| request_version := PROTOCOL_VERSION; request_id := 7; client_session_id := 7; client_label := "MCP client";
       method := Run "/usr/bin/cargo" ["publish"] "/home/u"
         [{| request_secret_ref := "crates"; request_field := "value"; request_target := Environment "CARGO_TOKEN" |}]
         300000 DEFAULT_OUTPUT_LIMIT_BYTES |}, Err IpcDisconnected)].
Proof. vm_compute. reflexivity. Qed.

Lemma session_new_ok client : session_ok client (session_new client) [].
Proof. by split. Qed.

Lemma replies_answer_messages_witness :
  os_wp (handle_message (H1 := example_arguments) example_ask (bytes_of "{}") (session_new 7))
    (fun r l' => exists reply s', r = Ok (reply, s') /\ proper_reply (bytes_of "{}") reply /\
       (is_notification (bytes_of "{}") -> l' = [])) [].
Proof. apply (replies_answer_messages example_ask 7 (bytes_of "{}") (session_new 7) []), session_new_ok. Defined.
Lemma run_outcome_is_honest_witness :
  os_wp (call_tool (H1 := example_arguments) example_ask (JNumber 1) (Some example_run) (session_new 7))
    (fun r l' => exists reply s', r = Ok (reply, s') /\ honest_outcome [] l' reply) [].
Proof.
  apply (run_outcome_is_honest example_ask 7 (JNumber 1) example_run (session_new 7) []);
    [apply session_new_ok|reflexivity].
Defined.

(** The schema of [ladon_identify_session] promises 64 characters of name; the code counts
    bytes. *)
Fixpoint repeated (n : nat) (s : string) : string := match n with O => "" | S n => String.append s (repeated n s) end.
Definition accented_name : string := repeated 33 (string_of [zb 195; zb 169]).
Lemma name_limit_counts_bytes :
  zlen (chars (bytes_of accented_name)) = 33 /\ validate_name accented_name = Err InvalidRequest.
Proof. vm_compute. by split. Qed.
