(* ===== verification/Cli.v ===== *)
(** * Cli: the commands of [crates/ladon-cli/src/commands.rs]

    [execute_cli]: the choice of the command, the call to the app with its lease,
    what is written and the exit code. *)

From S2P Require Import Prelude Errors Time Utf8 Text Paths Model Json Protocol Redact Runner Calls Commands Integrate McpTools Mcp.
Local Open Scope Z_scope.

(** [enum CliFailure]: whether the app, or the way to it, is the origin. *)
Inductive CliFailure : Set := Local (error : LadonError) | Service (error : LadonError).
Definition failure_error (f : CliFailure) : LadonError := match f with Local e | Service e => e end.

Section cli.
Context (ask : forall A, cli_call A -> list (call_event cli_call) -> A).
Context `{TextCrates, SerdeJson, SerdeJsonPretty, TomlEdit, McpArguments}.
Abbreviation Command := (Asks cli_call) (only parsing).
Abbreviation perform := (perform ask) (only parsing).

(** [map_err(Into::into)]. *)
Definition locally {A} (m : Command A) : Command (result CliFailure A) :=
  answer ← attempt m;
  mret (match answer with Ok a => Ok a | Err e => Err (Local e) end).

(** [render_response]. *)
Definition render_response (response : RpcResponse) : Command unit :=
  result ← os_lift (ok_or (response_result response) InvalidRequest);
  text ← os_lift (ok_or (json_pretty (result_json result)) InvalidRequest);
  or_error ask (fun _ => InvalidRequest) (WriteOutput text);;
  or_error ask (fun _ => InvalidRequest) (WriteOutput [zb 10]).

(** [call_and_render]: the lease is dropped when it returns. *)
Definition open_lease (m : RpcMethod) (client : Uuid) (label : string) : Command (LResult (option Lease)) :=
  if needs_session m then
    answer ← perform (OpenLease client label);
    mret (match answer with Ok lease => Ok (Some lease) | Err e => Err e end)
  else mret (Ok None).
Definition close_lease (lease : option Lease) : Command unit :=
  match lease with Some lease => perform (CloseLease lease) | None => mret tt end.
Definition call_request (request : RpcRequest) : Command (result CliFailure unit) :=
  answer ← perform (CallApp request);
  match answer with
  | Err e => mret (Err (Service e))
  | Ok response =>
    match error_details response with
    | Some (code, _) => mret (Err (Service (default InvalidResponse (from_code code))))
    | None => locally (render_response response)
    end
  end.
Definition call_and_render (m : RpcMethod) : Command (result CliFailure unit) :=
  request_id ← perform FreshUuid;
  client ← perform FreshUuid;
  let request := {| request_version := PROTOCOL_VERSION; request_id := request_id; client_session_id := client;
                    client_label := "Ladon CLI"; method := m |} in
  lease ← open_lease m client "Ladon CLI";
  match lease with
  | Err e => mret (Err (Service e))
  | Ok lease =>
    outcome ← call_request request;
    close_lease lease;;
    mret outcome
  end.

(** [execute]; [stdin] is what the MCP server reads. *)
Definition execute (arguments : list string) (stdin : Input) : Command (result CliFailure unit) :=
  match tail arguments with
  | [] => mret (Err (Local InvalidRequest))
  | command :: rest =>
    let alone := bool_decide (rest = []) in
    if bool_decide (command = "status") && alone then call_and_render Status
    else if bool_decide (command = "list") && alone then call_and_render ListSecrets
    else if bool_decide (command = "lock") && alone then call_and_render Lock
    else if bool_decide (command = "run") then
      m ← attempt (parse_run ask rest Cli);
      match m with Ok m => call_and_render m | Err e => mret (Err (Local e)) end
    else if bool_decide (command = "mcp") && alone then locally (serve_mcp ask stdin)
    else if bool_decide (command = "integrate") then locally (execute_integration ask rest)
    else mret (Err (Local InvalidRequest))
  end.

(** [execute_cli]: the exit code; what cannot be written is not told. *)
Definition guided (f : CliFailure) : bool :=
  match f with
  | Service error => needs_user_recovery error || bool_decide (error = InvalidRequest)
  | Local _ => false
  end.
Definition error_line (f : CliFailure) : bytes :=
  bytes_of (code (failure_error f)) ++ bytes_of ": " ++ bytes_of (safe_message (failure_error f)) ++ [zb 10].
Definition execute_cli (arguments : list string) (stdin : Input) : Command Z :=
  outcome ← execute arguments stdin;
  match outcome with
  | Ok _ => mret 0
  | Err failure =>
    perform (WriteErrors (error_line failure));;
    if guided failure then
      perform (WriteErrors (bytes_of LOCAL_SERVICE_RECOVERY_GUIDANCE ++ [zb 10]));; mret 2
    else mret 2
  end.
End cli.
