(* ===== verification/CliProperties.v ===== *)
(** * What the command line promises

    The program ends with one of two exit codes; it asks only proper things of the
    app, at most once, and leaves no lease open. *)

From S2P Require Import Prelude Errors Time Utf8 Text Paths Model Json Protocol ProtocolReference Redact Runner Calls Commands.
From S2P Require Import CommandsProperties Integrate IntegrateProperties McpTools Mcp McpProperties Cli.
Local Open Scope Z_scope.

Section cli.
Context (ask : forall A, cli_call A -> list (call_event cli_call) -> A).
Context `{TextCrates, SerdeJson, SerdeJsonPretty, TomlEdit, McpArguments}.
Abbreviation log := (list (call_event cli_call)) (only parsing).

(** Nothing was asked; and the log of a command that asked at most once, and was proper. *)
Definition silent (l : log) : Prop := open_leases l = [] /\ exchanges l = [].
Lemma silent_closed : closed_under (@neutral) silent.
Proof. intros A c a l Hc [Ho Hx]. by destruct c. Qed.
Lemma silent_requests caller client l : silent l -> every_request (proper_request caller client) l.
Proof.
  intros [_ Hx]. induction l as [|[A c a] l IH]; [done|]. cbn in Hx |- *. apply app_eq_nil in Hx as [Hc Hx].
  destruct c; try by apply IH. done.
Qed.
Definition asked_once (leases : list Lease) (client : Uuid) (request : RpcRequest) (answer : LResult RpcResponse) (l : log) : Prop :=
  open_leases l = leases /\ every_request (proper_request Cli client) l /\ exchanges l = [(request, answer)].
Lemma asked_once_closed leases client request answer : closed_under (@neutral) (asked_once leases client request answer).
Proof. intros A c a l Hc (Ho & Hr & Hx). by destruct c. Qed.

(** What became of a method: refused without a request, or asked once. *)
Definition succeeded (answer : LResult RpcResponse) : Prop :=
  exists response, answer = Ok response /\ error_details response = None /\ is_Some (response_result response).
Definition outcome_of (m : RpcMethod) (r : LResult (result CliFailure unit)) (l : log) : Prop :=
  (silent l /\ exists e, r = Ok (Err (Service e))) \/
  exists client request answer f, asked_once [] client request answer l /\ method request = m /\ r = Ok f /\
    (f = Ok tt -> succeeded answer) /\ (forall e, answer = Err e -> f = Err (Service e)).

Lemma render_response_only response : asks_only (@neutral) (render_response ask response).
Proof. unfold render_response. do 3 (apply asks_only_bind; [eauto with asks_only|]; intros ?). eauto with asks_only. Qed.
Lemma locally_only {A} (m : Asks cli_call A) : asks_only (@neutral) m -> asks_only (@neutral) (locally m).
Proof. intros Hm. unfold locally. apply asks_only_bind; eauto with asks_only. Qed.

(** The exchange, while the lease, if there is one, is open. *)
Definition settled (answer : LResult RpcResponse) (f : result CliFailure unit) : Prop :=
  (f = Ok tt -> succeeded answer) /\ (forall e, answer = Err e -> f = Err (Service e)).
Lemma call_request_wp request client leases l :
  open_leases l = leases -> exchanges l = [] -> every_request (proper_request Cli client) l ->
  proper_request Cli client request l ->
  os_wp (call_request ask request)
    (fun r l' => exists answer f, asked_once leases client request answer l' /\ r = Ok f /\ settled answer f) l.
Proof.
  intros Ho Hx Hr Hp. unfold call_request. ask_step. apply os_wp_perform. intros answer _. cbv beta iota.
  assert (Ha : asked_once leases client request answer (Event (CallApp request) answer :: l)).
  { split; [done|]. split; [by split|]. cbn. by rewrite Hx. }
  destruct answer as [response|e]; [|].
  2: { ask_step. exists (Err e), (Err (Service e)). split; [exact Ha|]. split; [done|]. by split; [|intros ? [= ->]]. }
  destruct (error_details response) as [[c d]|] eqn:Hd.
  { ask_step. exists (Ok response). eexists. split; [exact Ha|]. by split. }
  unfold locally. ask_step. ask_step.
  destruct (response_result response) as [result|] eqn:Hres.
  - eapply os_wp_mono; [eapply asks_only_wp; [apply render_response_only|apply asked_once_closed|exact Ha]|].
    intros r l' Hl'. ask_step. exists (Ok response). eexists. split; [exact Hl'|]. split; [done|]. split; [|done].
    intros _. exists response. by rewrite Hres.
  - unfold render_response. rewrite Hres. do 2 ask_step; [done|]. ask_step. exists (Ok response). eexists. split; [exact Ha|]. by split.
Qed.

Lemma cli_label_ok : name_ok "Ladon CLI".
Proof. split; [by vm_compute|]. by apply (bool_decide_unpack _). Qed.

Lemma call_and_render_wp m l :
  silent l -> valid_run Cli m -> os_wp (call_and_render ask m) (outcome_of m) l.
Proof.
  intros Hl Hm. unfold call_and_render. do 2 (ask_step; apply os_wp_perform; intros ? _; cbv beta iota).
  match goal with |- context [Event FreshUuid ?c :: Event FreshUuid ?r :: l] => rename c into client, r into id end.
  match goal with |- os_wp _ _ ?x => assert (Hs : silent x) by (do 2 (apply silent_closed; [exact I|]); exact Hl); revert Hs; generalize x end.
  clear Hl l. intros l Hl.
  set (request := {| request_version := _ |}).
  assert (Hv : validate_request request = Ok tt) by (apply (valid_request_accepted client Cli); [apply cli_label_ok|done]).
  assert (Hdone : forall leases l', open_leases l' = leases -> exchanges l' = [] -> every_request (proper_request Cli client) l' ->
    (needs_session m = true -> leased client l') ->
    os_wp (call_request ask request)
      (fun r l' => exists answer f, asked_once leases client request answer l' /\ r = Ok f /\ settled answer f) l').
  { intros leases l' Ho Hx Hr Hn. by apply call_request_wp. }
  ask_step. unfold open_lease. destruct (needs_session m) eqn:Hn.
  - ask_step. apply os_wp_perform. intros [lease|e] _; cbv beta iota; do 2 ask_step.
    2: { left. split; [|by eexists]. destruct Hl as [Ho Hx]. by split. }
    eapply os_wp_mono.
    { apply (Hdone [lease]); [cbn; by rewrite (proj1 Hl)|apply Hl|exact (silent_requests Cli client l Hl)|].
      intros _. exists lease, "Ladon CLI". split; [cbn; by rewrite (proj1 Hl)|by left]. }
    intros r l' (answer & f & (Ho & Hr & Hx) & -> & Hf). ask_step. apply os_wp_perform. intros [] _. ask_step. right.
    exists client, request, answer, f. split; [split; [cbn; by rewrite Ho; cbn; rewrite Z.eqb_refl|by split]|].
    split; [done|]. split; [done|]. exact Hf.
  - do 2 ask_step. eapply os_wp_mono.
    { apply (Hdone []); [apply Hl|apply Hl|exact (silent_requests Cli client l Hl)|done]. }
    intros r l' (answer & f & Ha & -> & Hf). ask_step. apply os_wp_ret. cbv beta iota. ask_step. right.
    exists client, request, answer, f. split; [exact Ha|]. split; [done|]. split; [done|]. exact Hf.
Qed.

(** The end of the program: the errors that are told and the exit code. *)
Definition report_outcome (outcome : result CliFailure unit) : Asks cli_call Z :=
  match outcome with
  | Ok _ => mret 0
  | Err failure =>
    perform ask (WriteErrors (error_line failure));;
    if guided failure then perform ask (WriteErrors (bytes_of LOCAL_SERVICE_RECOVERY_GUIDANCE ++ [zb 10]));; mret 2
    else mret 2
  end.
Lemma execute_cli_eq arguments stdin : execute_cli ask arguments stdin = execute ask arguments stdin ≫= report_outcome.
Proof. reflexivity. Qed.
Definition guidance_told (l : log) : Prop :=
  exists a, Event (WriteErrors (bytes_of LOCAL_SERVICE_RECOVERY_GUIDANCE ++ [zb 10])) a ∈ l.
Lemma report_outcome_wp P outcome l :
  closed_under (@neutral) P -> P l ->
  os_wp (report_outcome outcome)
    (fun r l' => P l' /\ (r = Ok 0 /\ outcome = Ok tt \/ r = Ok 2 /\ exists f, outcome = Err f /\ (guided f = true -> guidance_told l'))) l.
Proof.
  intros HP Hl. unfold report_outcome. destruct outcome as [[]|f]; [ask_step; split; [done|by left]|].
  ask_step. apply os_wp_perform. intros a _. cbv beta iota.
  destruct (guided f) eqn:Hg.
  - ask_step. apply os_wp_perform. intros b _. cbv beta iota. ask_step. split; [do 2 (apply HP; [exact I|]); exact Hl|]. right. split; [done|].
    exists f. split; [done|]. intros _. exists b. by left.
  - ask_step. split; [by apply HP|]. right. split; [done|]. exists f. by split; [|rewrite Hg].
Qed.

(** Nothing improper was asked and nothing is left open. *)
Definition proper (l : log) : Prop :=
  open_leases l = [] /\ exists caller client, every_request (proper_request caller client) l.
Lemma proper_closed : closed_under (@neutral) proper.
Proof. intros A c a l Hc (Ho & caller & client & Hr). split; [by destruct c|]. exists caller, client. by destruct c. Qed.
Lemma silent_proper l : silent l -> proper l.
Proof. intros Hl. split; [apply Hl|]. exists Cli, 0. by apply silent_requests. Qed.
Lemma outcome_proper m r l : outcome_of m r l -> (exists o, r = Ok o) /\ proper l.
Proof.
  intros [[Hl [e ->]]|(client & request & answer & f & (Ho & Hr & _) & _ & -> & _)];
    (split; [by eexists|]); [by apply silent_proper|]. split; [done|]. by exists Cli, client.
Qed.
Lemma silent_nil : silent [].
Proof. done. Qed.
Lemma execute_run_wp rest (Q : LResult (result CliFailure unit) -> log -> Prop) :
  (forall m r l, outcome_of m r l -> is_run m = true -> Q r l) -> (forall e l, silent l -> Q (Ok (Err (Local e))) l) ->
  os_wp (m ← attempt (parse_run ask rest Cli);
         match m with Ok m => call_and_render ask m | Err e => mret (Err (Local e)) end) Q [].
Proof.
  intros HOk HErr. do 2 ask_step. eapply os_wp_mono; [by apply (parse_run_wp _ _ _ silent); [apply silent_closed|]|].
  intros [m|e] l [Hl Hm]; [|by apply HErr]. destruct (Hm m eq_refl) as [Hv Hr].
  eapply os_wp_mono; [by apply call_and_render_wp|]. intros r l' Ho. by apply (HOk m).
Qed.

Lemma execute_proper arguments stdin : os_wp (execute ask arguments stdin) (fun r l => (exists o, r = Ok o) /\ proper l) [].
Proof.
  assert (Hlocal : forall e l, silent l ->
    (exists o, (Ok (Err (Local e)) : LResult (result CliFailure unit)) = Ok o) /\ proper l)
    by (intros e l Hl; split; [by eexists|by apply silent_proper]).
  unfold execute. destruct (tail arguments) as [|command rest]; [by apply Hlocal|].
  do 3 (destruct (bool_decide _ && _); [eapply os_wp_mono; [by apply call_and_render_wp|]; intros r l; apply outcome_proper|]).
  destruct (bool_decide _).
  { apply execute_run_wp; [intros m r l Ho _; by apply (outcome_proper m r)|]. intros e l. apply Hlocal. }
  destruct (bool_decide _ && _); [|destruct (bool_decide _); [|by apply Hlocal]]; unfold locally; do 2 ask_step.
  - eapply os_wp_mono; [apply serve_mcp_finishes|]. intros r l (client & Ho & Hr). ask_step.
    split; [by eexists|]. split; [done|]. by exists Mcp, client.
  - eapply os_wp_mono; [eapply asks_only_wp; [apply execute_integration_only|apply proper_closed|by apply silent_proper]|].
    intros r l Hl. ask_step. split; [by eexists|done].
Qed.

(** C20. Whatever the command line, the input of the MCP server and the answers of the system
    and of the app are, the program ends with exit code 0 or 2, and asked nothing improper of
    the app: each request carries the session identifier of this program, passes the
    validation that the app makes, a run passes the validation of run requests, and a
    run or a list is asked only while a lease of that session is open.  No lease is left
    open, on an error either. *)
Theorem cli_is_proper arguments stdin :
  os_wp (execute_cli ask arguments stdin) (fun r l => (r = Ok 0 \/ r = Ok 2) /\ proper l) [].
Proof.
  rewrite execute_cli_eq. ask_step. eapply os_wp_mono; [apply execute_proper|].
  intros r l [[o ->] Hl]. eapply os_wp_mono; [by apply report_outcome_wp; [apply proper_closed|]|].
  intros r l' [Hp Hr]. split; [|done]. by destruct Hr as [[-> _]|[-> _]]; [left|right].
Qed.

Lemma exchanges_closed x : closed_under (@neutral) (fun l => exchanges l = x).
Proof. intros A c a l Hc Hl. by destruct c. Qed.
Lemma execute_asks_once program command rest stdin :
  command ∈ ["status"; "list"; "lock"; "run"] ->
  os_wp (execute ask (program :: command :: rest) stdin)
    (fun r l => exchanges l = [] /\ (exists f, r = Ok (Err f)) \/
       exists request answer f, exchanges l = [(request, answer)] /\ r = Ok f /\ settled answer f) [].
Proof.
  intros Hc.
  assert (Hout : forall m r l, outcome_of m r l ->
    exchanges l = [] /\ (exists f, r = Ok (Err f)) \/
    exists request answer f, exchanges l = [(request, answer)] /\ r = Ok f /\ settled answer f).
  { intros m r l [[[_ Hx] [e ->]]|(client & request & answer & f & (_ & _ & Hx) & _ & -> & Hs)].
    - left. split; [done|by eexists].
    - right. by exists request, answer, f. }
  assert (Hlocal : forall e l, silent l ->
    exchanges l = [] /\ (exists f, (Ok (Err (Local e)) : LResult (result CliFailure unit)) = Ok (Err f)) \/
    exists request answer f, exchanges l = [(request, answer)] /\ (Ok (Err (Local e)) : LResult (result CliFailure unit)) = Ok f /\ settled answer f).
  { intros e l [_ Hx]. left. split; [done|by eexists]. }
  unfold execute. cbn [tail]. rewrite !elem_of_cons in Hc.
  destruct Hc as [->|[->|[->|[->|Hc]]]]; [..|by apply not_elem_of_nil in Hc].
  4: { apply (execute_run_wp rest); [intros m r l Ho _; by apply (Hout m)|]. intros e l. apply Hlocal. }
  all: cbn -[call_and_render]; destruct (bool_decide (rest = [])); [|by apply Hlocal];
    (eapply os_wp_mono; [by apply call_and_render_wp|]; intros r l; apply Hout).
Qed.

(** A command that asks the app does so at most once: nothing is retried.  It reports success
    only if the app was asked and answered with a result; and when the answer was lost the
    user is told not to repeat the command blindly. *)
Theorem commands_ask_once program command rest stdin :
  command ∈ ["status"; "list"; "lock"; "run"] ->
  os_wp (execute_cli ask (program :: command :: rest) stdin)
    (fun r l => exchanges l = [] /\ r = Ok 2 \/
       exists request answer, exchanges l = [(request, answer)] /\ (r = Ok 0 -> succeeded answer) /\
         (forall e, answer = Err e -> needs_user_recovery e = true -> r = Ok 2 /\ guidance_told l)) [].
Proof.
  intros Hc. rewrite execute_cli_eq. ask_step. eapply os_wp_mono; [by apply execute_asks_once|].
  intros r l [(Hx & e & ->)|(request & answer & f & Hx & -> & Hs & He)].
  - eapply os_wp_mono; [by apply (report_outcome_wp (fun l => exchanges l = [])); [apply exchanges_closed|]|].
    intros r l' [Hx' [[_ [=]]|[-> _]]]. by left.
  - eapply os_wp_mono; [by apply (report_outcome_wp (fun l => exchanges l = [(request, answer)])); [apply exchanges_closed|]|].
    intros r l' [Hx' Hr]. right. exists request, answer. split; [done|]. destruct Hr as [[-> ->]|(-> & e & -> & Hg)].
    + split; [by intros _; apply Hs|]. intros e Ha. by specialize (He e Ha).
    + split; [done|]. intros e' Ha Hn. specialize (He e' Ha) as [= ->]. split; [done|]. apply Hg. cbn. by rewrite Hn.
Qed.
End cli.

Lemma commands_ask_once_witness :
  os_wp (execute_cli (H3 := example_arguments) example_ask ["ladon"; "run"; "--"; "cargo"] {| unread := []; broken := false |})
    (fun r l => exchanges l = [] /\ r = Ok 2 \/
       exists request answer, exchanges l = [(request, answer)] /\ (r = Ok 0 -> succeeded answer) /\
         (forall e, answer = Err e -> needs_user_recovery e = true -> r = Ok 2 /\ guidance_told l)) [].
Proof. apply (commands_ask_once example_ask "ladon" "run" ["--"; "cargo"]). set_solver. Defined.
Example example_command_is_asked :
  (execute_cli (H3 := example_arguments) example_ask ["ladon"; "run"; "--"; "cargo"] {| unread := []; broken := false |} []).1 = Some (Ok 2)
  /\ length (exchanges (execute_cli (H3 := example_arguments) example_ask ["ladon"; "run"; "--"; "cargo"]
       {| unread := []; broken := false |} []).2) = 1%nat.
Proof. vm_compute. by split. Qed.
