(* ===== verification/DetectionProperties.v ===== *)
(** * What the detection promises

    At most the allowed number of detections, in the order of the text and without
    overlaps, each a candidate; and unless it says that it is incomplete, every
    candidate is covered by a detection. *)

From S2P Require Import Prelude Errors Utf8 Text Calls Detection.
Local Open Scope Z_scope.

Section detection.
Context `{DetectionCrates}.

(** Everything in a text that may be recorded, in the order of the loops. *)
Definition candidates (text : bytes) : list Found :=
  pattern_candidates text ++ omap (assignment_candidate text) (assignments text).

(** A candidate that is recorded, or overlaps what is. *)
Definition covered (ds : list Found) (f : Found) : Prop :=
  exists d, d ∈ ds /\ (d = f \/ overlaps (range d) (range f) = true).
Definition disjoint (a b : Found) : Prop := overlaps (range a) (range b) = false.

Lemma overlaps_comm a b : overlaps a b = overlaps b a.
Proof. unfold overlaps. apply andb_comm. Qed.

(** ** The list that [add] keeps *)
Record tidy (limit : nat) (from : list Found) (ds : list Found) : Prop := {
  tidy_length : (length ds <= limit)%nat;
  tidy_disjoint : ForallOrdPairs disjoint ds;
  tidy_from : Forall (fun d => d ∈ from) ds;
}.
Lemma ForallOrdPairs_snoc {A} (R : A -> A -> Prop) l x :
  ForallOrdPairs R l -> Forall (fun y => R y x) l -> ForallOrdPairs R (l ++ [x]).
Proof.
  induction 1 as [|y l Hy Hl IH]; intros Hx; cbn; [repeat constructor|].
  apply Forall_cons in Hx as [Hyx Hx]. constructor; [|by apply IH].
  apply Forall_app. split; [done|by repeat constructor].
Qed.
Lemma add_tidy limit from ds f ds' b :
  tidy limit from ds -> f ∈ from -> add ds f limit = (ds', b) ->
  tidy limit from ds' /\ (forall g, covered ds g -> covered ds' g) /\ (b = true -> covered ds' f).
Proof.
  intros [Hlen Hdis Hfrom] Hf. unfold add. destruct (existsb _ ds) eqn:Hex.
  - intros [= <- <-]. split; [done|]. split; [done|]. intros _. apply existsb_exists in Hex as (d & Hd & Ho).
    exists d. split; [by apply list_elem_of_In|by right].
  - destruct (Nat.leb_spec limit (length ds)) as [|Hlt]; intros [= <- <-]; [by split_and!|]. split_and!.
    + split; [rewrite length_app; cbn; lia| |].
      * apply ForallOrdPairs_snoc; [done|]. apply existsb_false_Forall in Hex. by eapply Forall_impl; [exact Hex|].
      * apply Forall_app. by split; [|constructor].
    + intros g (d & Hd & Ho). exists d. split; [|done]. apply elem_of_app. by left.
    + intros _. exists f. split; [|by left]. apply elem_of_app. right. by apply list_elem_of_singleton.
Qed.

Section loops.
Context {Call : Type -> Type} (stopped : Asks Call bool) (P : list (call_event Call) -> Prop).
Context (Hstopped : forall l, P l -> os_wp stopped (fun r l' => P l' /\ exists b, r = Ok b) l).
Context (limit : nat) (from : list Found).
Abbreviation log := (list (call_event Call)) (only parsing).

(** What a loop promises: what it has seen is covered unless it broke off. *)
Definition recorded (ds : list Found) (done : Found -> Prop) (r : LResult (list Found * bool)) (l : log) : Prop :=
  P l /\ exists ds' broken, r = Ok (ds', broken) /\ tidy limit from ds' /\ (forall g, covered ds g -> covered ds' g) /\
    (broken = false -> forall f, done f -> covered ds' f).
Lemma recorded_trans ds ds1 (done1 done2 : Found -> Prop) r l :
  (forall g, covered ds g -> covered ds1 g) -> (forall f, done1 f -> covered ds1 f) ->
  recorded ds1 done2 r l -> recorded ds (fun f => done1 f \/ done2 f) r l.
Proof.
  intros Hds Hdone (HP & ds' & broken & -> & Ht & Hc & Hd). split; [done|]. exists ds', broken.
  split; [done|]. split; [done|]. split; [by auto|]. intros Hb f [Hf|Hf]; [by apply Hc, Hdone|by apply Hd].
Qed.
Lemma recorded_mono ds (done done' : Found -> Prop) r l :
  (forall f, done' f -> done f) -> recorded ds done r l -> recorded ds done' r l.
Proof.
  intros Hi (HP & ds' & broken & -> & Ht & Hc & Hd). split; [done|]. exists ds', broken. split_and!; [done..|]. by auto.
Qed.
Lemma recorded_broken ds done l : P l -> tidy limit from ds -> recorded ds done (Ok (ds, true)) l.
Proof. intros HP Ht. split; [done|]. by exists ds, true. Qed.

Lemma record_found_wp f ds l :
  P l -> tidy limit from ds -> f ∈ from ->
  os_wp (record_found stopped limit f ds) (recorded ds (fun g => g = f)) l.
Proof.
  intros Hl Ht Hf. unfold record_found. ask_step. eapply os_wp_mono; [by apply Hstopped|].
  intros r l1 (Hl1 & [] & ->); [ask_step; by apply recorded_broken|].
  destruct (add ds f limit) as [ds' b] eqn:Hadd. ask_step.
  destruct (add_tidy _ _ _ _ _ _ Ht Hf Hadd) as (Ht' & Hc & Hb). split; [done|]. exists ds', (negb b).
  split_and!; [done..|]. intros Hn g ->. apply Hb. by destruct b.
Qed.

(** The rest of a loop runs when the first part did not break off. *)
Lemma recorded_bind (m : Asks Call (list Found * bool)) (k : list Found -> Asks Call (list Found * bool)) ds done1 done2 l :
  os_wp m (recorded ds done1) l ->
  (forall ds1 l1, P l1 -> tidy limit from ds1 -> os_wp (k ds1) (recorded ds1 done2) l1) ->
  os_wp ('(ds1, broken) ← m; if (broken : bool) then mret (ds1, true) else k ds1)
    (recorded ds (fun f => done1 f \/ done2 f)) l.
Proof.
  intros Hm Hk. ask_step. eapply os_wp_mono; [exact Hm|].
  intros r l1 (Hl1 & ds1 & broken & -> & Ht & Hc & Hd). destruct broken.
  - ask_step. split; [done|]. exists ds1, true. by split_and!.
  - eapply os_wp_mono; [by apply Hk|]. intros r l2. apply recorded_trans; [done|]. by apply Hd.
Qed.
Lemma recorded_nothing ds l : P l -> tidy limit from ds -> recorded ds (fun _ => False) (Ok (ds, false)) l.
Proof. intros Hl Ht. split; [done|]. by exists ds, false. Qed.

Lemma record_all_wp fs ds l :
  P l -> tidy limit from ds -> Forall (fun f => f ∈ from) fs ->
  os_wp (record_all stopped limit fs ds) (recorded ds (fun f => f ∈ fs)) l.
Proof.
  revert ds l. induction fs as [|f fs IH]; intros ds l Hl Ht Hfs; cbn [record_all].
  - ask_step. eapply recorded_mono; [|by apply recorded_nothing]. intros f Hf. by apply not_elem_of_nil in Hf.
  - apply Forall_cons in Hfs as [Hf Hfs]. eapply os_wp_mono.
    + apply (recorded_bind (record_found stopped limit f ds) (record_all stopped limit fs) ds (fun g => g = f) (fun g => g ∈ fs)); [by apply record_found_wp|].
      intros ds1 l1 Hl1 Ht1. by apply IH.
    + intros r l'. apply recorded_mono. intros g. by rewrite elem_of_cons.
Qed.
Lemma record_assignments_wp text l0 ds l :
  P l -> tidy limit from ds -> Forall (fun f => f ∈ from) (omap (assignment_candidate text) l0) ->
  os_wp (record_assignments stopped limit text l0 ds) (recorded ds (fun f => f ∈ omap (assignment_candidate text) l0)) l.
Proof.
  revert ds l. induction l0 as [|a l0 IH]; intros ds l Hl Ht Hfs; cbn [record_assignments].
  - ask_step. eapply recorded_mono; [|by apply recorded_nothing]. intros f Hf. by apply not_elem_of_nil in Hf.
  - ask_step. eapply os_wp_mono; [by apply Hstopped|]. intros r l1 (Hl1 & [] & ->); [ask_step; by apply recorded_broken|].
    cbn [omap list_omap] in Hfs. cbn [omap list_omap].
    destruct (assignment_candidate text a) as [f|].
    + apply Forall_cons in Hfs as [Hf Hfs]. eapply os_wp_mono.
      * apply (recorded_bind (record_found stopped limit f ds) (record_assignments stopped limit text l0) ds (fun g => g = f)
          (fun g => g ∈ omap (assignment_candidate text) l0)); [by apply record_found_wp|].
        intros ds1 l2 Hl2 Ht2. by apply IH.
      * intros r l'. apply recorded_mono. intros g. by rewrite elem_of_cons.
    + ask_step. ask_step. by apply IH.
Qed.
End loops.

(** ** The whole *)
Lemma start_le_trans : Transitive start_le.
Proof. intros a b c. unfold start_le. lia. Qed.
#[export] Instance start_le_total : Total start_le.
Proof. intros a b. unfold start_le. lia. Qed.

Record detected (text : bytes) (limit : nat) (ds : list Found) : Prop := {
  detected_length : (length ds <= limit)%nat;
  detected_sorted : StronglySorted start_le ds;
  detected_disjoint : ForallOrdPairs disjoint ds;
  detected_from : Forall (fun d => d ∈ candidates text) ds;
}.
Lemma disjoint_Permutation ds ds' : ds ≡ₚ ds' -> ForallOrdPairs disjoint ds -> ForallOrdPairs disjoint ds'.
Proof.
  assert (Hcomm : forall a b, disjoint a b -> disjoint b a) by (intros a b; unfold disjoint; by rewrite overlaps_comm).
  induction 1 as [|x l l' Hp IH|x y l|l l' l'' Hp IH Hp' IH']; intros Ho; [done| | |by auto].
  - inversion_clear Ho as [|? ? Hx Hl]. constructor; [by rewrite <- Hp|by apply IH].
  - inversion_clear Ho as [|? ? Hy Hl]. inversion_clear Hl as [|? ? Hx Hl']. apply Forall_cons in Hy as [Hyx Hy].
    constructor; [constructor; [by apply Hcomm|done]|by constructor].
Qed.
Lemma tidy_detected text limit ds : tidy limit (candidates text) ds -> detected text limit (merge_sort start_le ds).
Proof.
  intros [Hl Hd Hf]. pose proof (merge_sort_Permutation start_le ds) as Hp. split.
  - by rewrite Hp.
  - apply StronglySorted_merge_sort; apply _ || apply start_le_trans.
  - by eapply disjoint_Permutation.
  - by rewrite Hp.
Qed.
Lemma covered_Permutation ds ds' f : ds ≡ₚ ds' -> covered ds f -> covered ds' f.
Proof. intros Hp (d & Hd & Ho). exists d. split; [by rewrite <- Hp|done]. Qed.

Lemma detect_wp {Call} (stopped : Asks Call bool) P text limit l :
  (forall l, P l -> os_wp stopped (fun r l' => P l' /\ exists b, r = Ok b) l) -> P l ->
  os_wp (detect stopped text limit)
    (fun r l' => P l' /\ exists ds incomplete, r = Ok (ds, incomplete) /\ detected text limit ds /\
       (incomplete = false -> forall f, f ∈ candidates text -> covered ds f)) l.
Proof.
  intros Hs Hl. unfold detect. set (from := candidates text).
  assert (Hfrom : Forall (fun f => f ∈ from) (pattern_candidates text) /\
    Forall (fun f => f ∈ from) (omap (assignment_candidate text) (assignments text)))
    by (apply Forall_app; by apply Forall_forall).
  destruct Hfrom as [Hf1 Hf2].
  apply os_wp_bind. eapply os_wp_mono; [apply (record_all_wp stopped P Hs limit from); [done| |done]|].
  { split; [cbn; lia|constructor|done]. }
  intros r l1 (Hl1 & ds1 & broken & -> & Ht1 & Hc1 & Hd1). cbv beta iota.
  assert (Hrest : os_wp (if broken then mret (ds1, true) else record_assignments stopped limit text (assignments text) ds1)
    (recorded P limit from [] (fun f => f ∈ candidates text)) l1).
  { destruct broken.
    - apply os_wp_ret. split; [done|]. by exists ds1, true.
    - eapply os_wp_mono; [by apply (record_assignments_wp stopped P Hs)|]. intros r l2 Hr.
      eapply recorded_mono; [|eapply (recorded_trans P limit from []); [exact Hc1|by apply Hd1|exact Hr]].
      intros f Hf. by apply elem_of_app in Hf. }
  apply os_wp_bind. eapply os_wp_mono; [exact Hrest|]. intros r l2 (Hl2 & ds & incomplete & -> & Ht & _ & Hd).
  cbv beta iota. apply os_wp_ret. split; [done|]. eexists _, incomplete. split; [done|].
  pose proof (merge_sort_Permutation start_le ds) as Hp. split; [by apply tidy_detected|].
  intros Hi f Hf. eapply covered_Permutation; [symmetry; exact Hp|by apply Hd].
Qed.

(** ** Spans *)
Lemma concat_split_inclusive b : concat (split_inclusive b) = b.
Proof.
  induction b as [|x b IH]; [done|]. cbn [split_inclusive]. destruct (bool_decide _); cbn; [by rewrite IH|].
  destruct (split_inclusive b) as [|line ls]; cbn in *; by rewrite <- IH.
Qed.
Lemma block_length_le indent ls : (block_length indent ls <= length (concat ls))%nat.
Proof.
  induction ls as [|line ls IH]; cbn [block_length]; [lia|]. destruct (_ && _); [lia|].
  change (concat (line :: ls)) with (line ++ concat ls). rewrite length_app. lia.
Qed.
Lemma split_at_first_app sep b before rest : split_at_first sep b = Some (before, rest) -> b = before ++ sep ++ rest.
Proof.
  revert before rest. induction b as [|x b IH]; intros before rest; cbn [split_at_first].
  - destruct (strip_prefix sep []) eqn:Hs; [|done]. intros [= <- <-]. by apply strip_prefix_Some in Hs.
  - destruct (strip_prefix sep (x :: b)) eqn:Hs; [intros [= <- <-]; by apply strip_prefix_Some in Hs|].
    destruct (split_at_first sep b) as [[bf rs]|]; cbn; [|done]. intros [= <- <-]. cbn. by rewrite <- (IH bf rs).
Qed.
Lemma yaml_block_in text key_offset value_end block :
  (value_end <= length text)%nat -> yaml_block text key_offset value_end = Some block -> span_in text block.
Proof.
  unfold yaml_block. intros Hv. destruct (split_at_first [zb 10] (from text value_end)) as [[before rest]|] eqn:Hs; [|done].
  cbn [mbind option_bind]. destruct (_ && _); [|done]. intros [= <-]. apply split_at_first_app in Hs.
  apply (f_equal length) in Hs. rewrite !length_app in Hs. unfold from in *. rewrite length_drop in Hs. cbn in Hs.
  set (start := (value_end + length before + 1)%nat).
  pose proof (block_length_le (indentation (drop (line_start text key_offset) text)) (split_inclusive (drop start text))) as Hb.
  rewrite concat_split_inclusive, length_drop in Hb. unfold span_in. cbn. fold start. lia.
Qed.
Lemma candidates_in `{!DetectionCratesLaws} text : Forall (fun f => span_in text (range f)) (candidates text).
Proof.
  assert (Hvalue : forall test r spans, Forall (span_in text) spans ->
    Forall (fun f => span_in text (range f)) (omap (value_candidate test r text) spans)).
  { intros test r spans Hs. apply Forall_forall. intros f (x & Hx & Hf)%list_elem_of_omap. rewrite Forall_forall in Hs.
    unfold value_candidate in Hf. destruct (test _); [|done]. injection Hf as <-. by apply Hs. }
  unfold candidates, pattern_candidates. rewrite !Forall_app. split_and!.
  - apply Forall_forall. intros f (x & Hx & Hf)%list_elem_of_omap. pose proof (private_keys_in text) as Hs.
    rewrite Forall_forall in Hs. unfold private_key_candidate in Hf. destruct (_ && _); [|done]. injection Hf as <-. by apply Hs.
  - apply Hvalue, tokens_in.
  - apply Hvalue, urls_in.
  - apply Hvalue, bearer_values_in.
  - apply Forall_forall. intros f (a & Ha & Hf)%list_elem_of_omap. pose proof (assignments_in text) as Hs.
    rewrite Forall_forall in Hs. destruct (Hs a Ha) as [_ Hin]. unfold assignment_candidate in Hf.
    destruct (assigned_range text a) as [r|] eqn:Hr; [|done]. cbn [mbind option_bind] in Hf.
    destruct (negb _); [done|]. destruct (is_encrypted _); [done|]. destruct (value_rule _ _); [|done].
    cbn in Hf. injection Hf as <-. cbn. unfold assigned_range in Hr. destruct (starts_with _ _); [done|].
    destruct (bool_decide _); [|by injection Hr as <-]. eapply yaml_block_in; [|exact Hr]. unfold span_in in Hin. lia.
Qed.
End detection.

Section properties.
Context `{DetectionCratesLaws}.

(** However often the scan is asked to stop, [detect] answers with at most the allowed number of
    detections, in the order of the text, no two of them overlapping, each a candidate
    and a part of the text; and if it does not say that it is incomplete, every candidate
    is recorded or overlaps what is. *)
Theorem detect_covers_candidates {Call} (stopped : Asks Call bool) text limit :
  (forall l, os_wp stopped (fun r _ => exists b, r = Ok b) l) ->
  forall l, os_wp (detect stopped text limit)
    (fun r _ => exists ds incomplete, r = Ok (ds, incomplete) /\ detected text limit ds /\
       Forall (fun d => span_in text (range d)) ds /\
       (incomplete = false -> forall f, f ∈ candidates text -> covered ds f)) l.
Proof.
  intros Hs l. eapply os_wp_mono.
  - apply (detect_wp stopped (fun _ => True)); [|done]. intros l' _. eapply os_wp_mono; [apply Hs|done].
  - intros r l' (_ & ds & unfinished & -> & Hd & Hc). exists ds, unfinished. split_and!; [done|done| |done].
    pose proof (candidates_in text) as Hin. rewrite Forall_forall in Hin. eapply Forall_impl; [apply Hd|]. apply Hin.
Qed.
End properties.

(** ** An example *)

(** Patterns that know one form of token, at the start of a text. *)
Definition example_tokens (text : bytes) : list Span :=
  if starts_with text (bytes_of "ghp_") then [{| span_start := 0; span_end := length text |}] else [].
Definition example_crates : DetectionCrates := {|
  private_keys _ := []; tokens := example_tokens; urls _ := []; bearer_values _ := []; assignments _ := [];
  base64_decode _ := None; json_string _ := None; entropy_is_high _ _ := false;
|}.
Lemma example_crates_laws : @DetectionCratesLaws example_crates.
Proof.
  split; try (intros; constructor). intros text. cbn. unfold example_tokens. destruct (starts_with _ _); repeat constructor; cbn; lia.
Qed.

Lemma detect_covers_candidates_witness :
  os_wp (detect (H := example_crates) (mret false : Asks (fun _ => Empty_set) bool) (bytes_of "ghp_1234") 3)
    (fun r _ => exists ds incomplete, r = Ok (ds, incomplete) /\ detected (H := example_crates) (bytes_of "ghp_1234") 3 ds /\
       Forall (fun d => span_in (bytes_of "ghp_1234") (range d)) ds /\
       (incomplete = false -> forall f, f ∈ candidates (H := example_crates) (bytes_of "ghp_1234") -> covered ds f)) [].
Proof. apply (@detect_covers_candidates example_crates example_crates_laws). intros l. by exists false. Defined.
