(* ===== verification/Scan.v ===== *)
(** * Scan: [crates/ladon-app/src/exposure_scan.rs]

    The walk over the user's files: credential files first, then every directory,
    within limits and without following symbolic links.  The file system, the clock
    and the cancellation flag answer calls.  [display_root] is [None] outside the
    crate's own tests, so a finding has the path that was scanned. *)

From S2P Require Import Prelude Errors Utf8 Text Paths Runner Calls Commands Detection.
Local Open Scope Z_scope.

(** ** Calls *)
Inductive file_kind : Set := RegularFile | Directory | Symlink | OtherKind.
#[export] Instance file_kind_eq_dec : EqDecision file_kind.
Proof. solve_decision. Defined.
Record FileMetadata := { meta_kind : file_kind; meta_length : Z }.

(** An entry of a directory: its name and its type, each of which may fail. *)
Abbreviation dir_entry := (result unit (string * result unit file_kind)) (only parsing).
Inductive scan_call : Type -> Type :=
| Cancelled : scan_call bool
| Elapsed : scan_call Z
| SymlinkMetadata (path : string) : scan_call (result unit FileMetadata)
| IsRegularFile (path : string) : scan_call bool
| ReadDir (path : string) : scan_call (result unit (list dir_entry))
| OpenRegular (path : string) : scan_call (result unit bool)
| ReadToEnd (path : string) : scan_call (result unit bytes).

(** ** Data *)
Record ScanFinding := { finding_path : string; finding_line : nat; finding_rule : ExposureRule }.
Record ScanReport := {
  findings : list ScanFinding;
  files_scanned : nat;
  skipped_files : nat;
  incomplete : bool;
  scan_roots : list string;
}.
Record ScanLimits := {
  max_file_bytes : Z;
  max_total_bytes : Z;
  max_files : nat;
  max_entries : nat;
  max_depth : nat;
  max_duration : Z;
  max_findings : nat;
}.
Definition default_limits : ScanLimits := {|
  max_file_bytes := 8 * 1024 * 1024; max_total_bytes := 512 * 1024 * 1024; max_files := Z.to_nat 100000;
  max_entries := Z.to_nat 500000; max_depth := 32; max_duration := 120 * 1000000000; max_findings := Z.to_nat 5000 |}.

(** A [PathBuf] in a set: equal paths have the same components. *)
Definition named (pieces : list bytes) : list bytes :=
  List.filter (fun p => negb (bool_decide (p = []) || bool_decide (p = bytes_of "."))) pieces.
Definition path_key (path : string) : bool * list bytes :=
  (is_absolute path,
   match split_on "/" (bytes_of path) with
   | p :: pieces => (if bool_decide (p = bytes_of ".") then [p] else named [p]) ++ named pieces
   | [] => []
   end).
Record Scanner := {
  entries_seen : nat;
  total_bytes : Z;
  report : ScanReport;
  seen_files : list (bool * list bytes);
  seen_directories : list (bool * list bytes);
}.
Definition new_report : ScanReport :=
  {| findings := []; files_scanned := 0; skipped_files := 0; incomplete := false; scan_roots := [] |}.
Definition new_scanner : Scanner :=
  {| entries_seen := 0; total_bytes := 0; report := new_report; seen_files := []; seen_directories := [] |}.

Definition with_report (f : ScanReport -> ScanReport) (s : Scanner) : Scanner :=
  {| entries_seen := entries_seen s; total_bytes := total_bytes s; report := f (report s); seen_files := seen_files s;
     seen_directories := seen_directories s |}.
Definition mark_incomplete (b : bool) : Scanner -> Scanner := with_report (fun r =>
  {| findings := findings r; files_scanned := files_scanned r; skipped_files := skipped_files r;
     incomplete := incomplete r || b; scan_roots := scan_roots r |}).
Definition skip : Scanner -> Scanner := with_report (fun r =>
  {| findings := findings r; files_scanned := files_scanned r; skipped_files := S (skipped_files r);
     incomplete := incomplete r; scan_roots := scan_roots r |}).
Definition count_scanned : Scanner -> Scanner := with_report (fun r =>
  {| findings := findings r; files_scanned := S (files_scanned r); skipped_files := skipped_files r;
     incomplete := incomplete r; scan_roots := scan_roots r |}).
Definition set_findings (fs : list ScanFinding) : Scanner -> Scanner := with_report (fun r =>
  {| findings := fs; files_scanned := files_scanned r; skipped_files := skipped_files r;
     incomplete := incomplete r; scan_roots := scan_roots r |}).
Definition set_roots (roots : list string) : Scanner -> Scanner := with_report (fun r =>
  {| findings := findings r; files_scanned := files_scanned r; skipped_files := skipped_files r;
     incomplete := incomplete r; scan_roots := roots |}).
Definition count_entry (s : Scanner) : Scanner :=
  {| entries_seen := S (entries_seen s); total_bytes := total_bytes s; report := report s; seen_files := seen_files s;
     seen_directories := seen_directories s |}.
Definition add_bytes (n : Z) (s : Scanner) : Scanner :=
  {| entries_seen := entries_seen s; total_bytes := saturating_add u64_max (total_bytes s) n; report := report s;
     seen_files := seen_files s; seen_directories := seen_directories s |}.
Definition see_file (path : string) (s : Scanner) : Scanner :=
  {| entries_seen := entries_seen s; total_bytes := total_bytes s; report := report s;
     seen_files := path_key path :: seen_files s; seen_directories := seen_directories s |}.
Definition see_directory (path : string) (s : Scanner) : Scanner :=
  {| entries_seen := entries_seen s; total_bytes := total_bytes s; report := report s; seen_files := seen_files s;
     seen_directories := path_key path :: seen_directories s |}.

(** [ignored_directory]. *)
Definition ignored_names : list string :=
  [".git"; ".hg"; ".svn"; "target"; "node_modules"; "vendor"; ".venv"; "venv"; "dist"; "build"].
Definition ignored_directory (name : string) : bool := bool_decide (name ∈ ignored_names).

Definition PRIORITY : list string :=
  [".codex/auth.json"; ".codex/config.toml"; ".codex/.credentials.json"; ".claude/.credentials.json";
   ".claude/settings.json"; ".claude.json"; "auth.json"; "config.toml"; ".credentials.json"; "settings.json"; ".env";
   ".env.local"; ".env.production"; ".mcp.json"; ".npmrc"; ".pypirc"; ".netrc"; ".git-credentials";
   ".aws/credentials"; ".config/gcloud/application_default_credentials.json"; ".docker/config.json";
   "Library/Application Support/Claude/claude_desktop_config.json"; ".zshrc"; ".zprofile"; ".bashrc"; ".bash_profile";
   ".profile"].

Section scan.
Context (ask : forall A, scan_call A -> list (call_event scan_call) -> A).
Context `{DetectionCrates}.
Context (limits : ScanLimits).
Abbreviation Scan := (Asks scan_call) (only parsing).
Abbreviation perform := (perform ask) (only parsing).

(** The flag and the clock, and [stopped]. *)
Definition interrupted : Scan bool :=
  cancelled ← perform Cancelled;
  if (cancelled : bool) then mret true
  else elapsed ← perform Elapsed; mret (max_duration limits <=? elapsed).
Definition exhausted (s : Scanner) : bool :=
  (max_files limits <=? files_scanned (report s))%nat || (max_findings limits <=? length (findings (report s)))%nat.
Definition stopped (s : Scanner) : Scan (Scanner * bool) :=
  now ← interrupted;
  let stop := now || exhausted s in mret (if stop then mark_incomplete true s else s, stop).

(** ** [scan_file] *)

(** The lines at which the detections start. *)
Definition newlines (b : bytes) : nat := length (List.filter (fun x => bool_decide (x = zb 10)) b).
Fixpoint locate (path : string) (text : bytes) (previous line : nat) (ds : list Found) : list ScanFinding :=
  match ds with
  | [] => []
  | d :: ds =>
    let start := span_start (range d) in
    let line := (line + newlines (span_text text {| span_start := previous; span_end := start |}))%nat in
    {| finding_path := path; finding_line := line; finding_rule := rule d |} :: locate path text start line ds
  end.
Definition scan_text (path : string) (text : bytes) (s : Scanner) : Scan Scanner :=
  let s := count_scanned s in
  let remaining := (max_findings limits - length (findings (report s)))%nat in
  '(detections, unfinished) ← detect interrupted text remaining;
  let s := mark_incomplete unfinished s in
  mret (set_findings (findings (report s) ++ locate path text 0 1 detections) s).
Definition scan_bytes (path : string) (b : bytes) (s : Scanner) : Scan Scanner :=
  let s := add_bytes (zlen b) s in
  if bool_decide (zb 0 ∈ b) then mret (skip s)
  else if is_utf8 b then scan_text path b s
  else mret (skip s).
Definition skip_incomplete (s : Scanner) : Scanner := skip (mark_incomplete true s).
Definition read_file (path : string) (s : Scanner) : Scan Scanner :=
  let read_cap := Z.min (max_file_bytes limits) (saturating_sub (max_total_bytes limits) (total_bytes s)) in
  answer ← perform (ReadToEnd path);
  match answer with
  | Err _ => mret (skip_incomplete s)
  | Ok content =>
    let b := take (Z.to_nat (saturating_add u64_max read_cap 1)) content in
    if read_cap <? zlen b then mret (skip_incomplete s) else scan_bytes path b s
  end.
Definition too_large (length : Z) (s : Scanner) : bool :=
  (max_file_bytes limits <? length) || (max_total_bytes limits <? saturating_add u64_max (total_bytes s) length).
Definition open_file (path : string) (s : Scanner) : Scan Scanner :=
  opened ← perform (OpenRegular path);
  match opened with
  | Err _ => mret (skip_incomplete s)
  | Ok false => mret (skip s)
  | Ok true => read_file path s
  end.
Definition scan_file (path : string) (s : Scanner) : Scan Scanner :=
  if bool_decide (path_key path ∈ seen_files s) then mret s
  else
    let s := see_file path s in
    if (max_files limits <=? files_scanned (report s))%nat then mret (skip_incomplete s)
    else
      metadata ← perform (SymlinkMetadata path);
      match metadata with
      | Err _ => mret (skip_incomplete s)
      | Ok metadata =>
        if negb (bool_decide (meta_kind metadata = RegularFile)) then mret (skip s)
        else if too_large (meta_length metadata) s then mret (skip_incomplete s)
        else open_file path s
      end.

(** ** [priority_files] *)
Fixpoint safe_candidate (path : string) (parts : list string) (safe : bool) : Scan (string * bool) :=
  match parts with
  | [] => mret (path, safe)
  | part :: parts =>
    let path := join path part in
    metadata ← perform (SymlinkMetadata path);
    if (match metadata with Ok m => bool_decide (meta_kind m = Symlink) | Err _ => false end) then mret (path, false)
    else safe_candidate path parts safe
  end.
Definition components (path : string) : list string := string_of <$> split_on "/" (bytes_of path).
Definition scan_priority (root relative : string) (s : Scanner) : Scan Scanner :=
  metadata ← perform (SymlinkMetadata root);
  let safe := match metadata with Ok m => bool_decide (meta_kind m = Directory) | Err _ => false end in
  '(candidate, safe) ← safe_candidate root (components relative) safe;
  if (safe : bool) then
    regular ← perform (IsRegularFile candidate);
    if (regular : bool) then scan_file candidate s else mret s
  else mret s.
Fixpoint priority_loop (root : string) (l : list string) (s : Scanner) : Scan Scanner :=
  match l with
  | [] => mret s
  | relative :: l =>
    '(s, stop) ← stopped s;
    if (stop : bool) then mret s else s ← scan_priority root relative s; priority_loop root l s
  end.
Definition priority_files (root : string) : Scanner -> Scan Scanner := priority_loop root PRIORITY.

(** ** [walk] *)
Fixpoint walk_entries (walk : string -> Scanner -> Scan Scanner) (directory : string) (entries : list dir_entry)
    (s : Scanner) : Scan Scanner :=
  match entries with
  | [] => mret s
  | entry :: entries =>
    '(s, stop) ← stopped s;
    if (stop : bool) then mret s
    else if (max_entries limits <=? entries_seen s)%nat then mret (mark_incomplete true s)
    else
      let s := count_entry s in
      s ← match entry with
          | Err _ | Ok (_, Err _) => mret (mark_incomplete true s)
          | Ok (name, Ok kind) =>
            let path := join directory name in
            match kind with
            | Symlink => mret (skip s)
            | Directory => if ignored_directory name then mret s else walk path s
            | RegularFile => scan_file path s
            | OtherKind => mret (skip s)
            end
          end;
      walk_entries walk directory entries s
  end.
Fixpoint walk (fuel : nat) (depth : nat) (directory : string) (s : Scanner) : Scan Scanner :=
  match fuel with
  | O => out_of_fuel
  | S fuel =>
    if bool_decide (path_key directory ∈ seen_directories s) then mret s
    else
      '(s, stop) ← stopped s;
      if (stop : bool) then mret s
      else if (max_depth limits <? depth)%nat then mret (mark_incomplete true s)
      else
        metadata ← perform (SymlinkMetadata directory);
        if (match metadata with Ok m => bool_decide (meta_kind m = Directory) | Err _ => false end) then
          let s := see_directory directory s in
          entries ← perform (ReadDir directory);
          match entries with
          | Err _ => mret (mark_incomplete true s)
          | Ok entries => walk_entries (walk fuel (S depth)) directory entries s
          end
        else mret (mark_incomplete true s)
  end.

(** ** [scan_user_files] *)
Fixpoint distinct_roots (roots extra : list string) : list string :=
  match extra with
  | [] => roots
  | root :: extra =>
    distinct_roots (if bool_decide (path_key root ∈ path_key <$> roots) then roots else roots ++ [root]) extra
  end.
Fixpoint priority_roots (roots : list string) (s : Scanner) : Scan Scanner :=
  match roots with
  | [] => mret s
  | root :: roots =>
    s ← (if is_absolute root then priority_files root s else mret (mark_incomplete true s));
    priority_roots roots s
  end.
Definition walk_fuel : nat := (max_depth limits + 2)%nat.
Fixpoint walk_roots (roots : list string) (s : Scanner) : Scan Scanner :=
  match roots with
  | [] => mret s
  | root :: roots =>
    s ← (if is_absolute root then walk walk_fuel 0 root s else mret s);
    walk_roots roots s
  end.
Definition scan_user_files (home : string) (extra_roots : list string) : Scan (option ScanReport) :=
  usable ← (if is_absolute home then
              metadata ← perform (SymlinkMetadata home);
              mret (match metadata with Ok m => bool_decide (meta_kind m = Directory) | Err _ => false end)
            else mret false);
  if (usable : bool) then
    let roots := distinct_roots [home] extra_roots in
    s ← priority_roots roots (set_roots roots new_scanner);
    s ← walk_roots roots s;
    mret (Some (report s))
  else mret None.
End scan.
