(* ===== verification/ScanProperties.v ===== *)
(** * What the scan promises

    It stays within its limits, reads only regular files that it did not reach
    through a symbolic link, each at most once, and reports only what is there; and
    a report that does not say that it is incomplete has left nothing out. *)

From S2P Require Import Prelude Errors Utf8 Text Paths Runner Calls Commands Detection DetectionProperties Scan.
Local Open Scope Z_scope.

(** ** Lines *)
Lemma newlines_app a b : newlines (a ++ b) = (newlines a + newlines b)%nat.
Proof. unfold newlines. by rewrite List.filter_app, length_app. Qed.
Lemma take_span_text text a b : (a <= b)%nat -> take b text = take a text ++ span_text text {| span_start := a; span_end := b |}.
Proof.
  intros Hab. unfold span_text. cbn. rewrite <- (take_drop a (take b text)), take_take, skipn_firstn_comm.
  by rewrite Nat.min_l by lia.
Qed.
Definition located (path : string) (text : bytes) (d : Found) : ScanFinding :=
  {| finding_path := path; finding_line := (1 + newlines (take (span_start (range d)) text))%nat; finding_rule := rule d |}.
Lemma locate_map path text previous line ds :
  line = (1 + newlines (take previous text))%nat -> Forall (fun d => (previous <= span_start (range d))%nat) ds ->
  StronglySorted start_le ds -> locate path text previous line ds = map (located path text) ds.
Proof.
  revert previous line. induction ds as [|d ds IH]; intros previous line Hline Hle Hs; [done|].
  apply Forall_cons in Hle as [Hd Hle]. inversion_clear Hs as [|? ? Hs' Hf]. cbn [locate map].
  assert (Heq : (line + newlines (span_text text {| span_start := previous; span_end := span_start (range d) |}))%nat
    = (1 + newlines (take (span_start (range d)) text))%nat).
  { rewrite Hline, (take_span_text text previous (span_start (range d))) by done. rewrite newlines_app. lia. }
  rewrite Heq. f_equal. by apply IH.
Qed.

(** ** What a log shows *)
Section log.
Context `{DetectionCrates}.
Abbreviation log := (list (call_event scan_call)) (only parsing).
Implicit Types l : log.

(** Files that were read. *)
Definition read_keys_of {A} (c : scan_call A) : list (bool * list bytes) :=
  match c with ReadToEnd path => [path_key path] | _ => [] end.
Fixpoint read_keys l : list (bool * list bytes) :=
  match l with [] => [] | Event c _ :: l => read_keys_of c ++ read_keys l end.
Definition is_regular (path : string) l : Prop :=
  exists m, Event (SymlinkMetadata path) (Ok m) ∈ l /\ meta_kind m = RegularFile.

(** A read comes after the checks of the path and of the opened file, and a file is
    read once. *)
Definition careful_call {A} (c : scan_call A) l : Prop :=
  match c with
  | ReadToEnd path => is_regular path l /\ Event (OpenRegular path) (Ok true) ∈ l /\ path_key path ∉ read_keys l
  | OpenRegular path => is_regular path l
  | _ => True
  end.
Fixpoint careful l : Prop :=
  match l with [] => True | Event c _ :: l => careful_call c l /\ careful l end.

(** A finding is a candidate in the content of a file that was read. *)
Definition genuine l (f : ScanFinding) : Prop :=
  exists content d, Event (ReadToEnd (finding_path f)) (Ok content) ∈ l /\ d ∈ candidates content /\
    f = located (finding_path f) content d.

(** A file about which nothing more can be said. *)
Definition all_found (path : string) (text : bytes) (fs : list ScanFinding) : Prop :=
  exists ds, (forall f, f ∈ candidates text -> covered ds f) /\ forall d, d ∈ ds -> located path text d ∈ fs.
Definition examined (path : string) (fs : list ScanFinding) l : Prop :=
  exists m, Event (SymlinkMetadata path) (Ok m) ∈ l /\
    (meta_kind m <> RegularFile \/ Event (OpenRegular path) (Ok false) ∈ l \/
     exists content, Event (ReadToEnd path) (Ok content) ∈ l /\
       (zb 0 ∈ content \/ ~ valid_utf8 content \/ all_found path content fs)).

(** ** The invariant *)
Context (limits : ScanLimits).
Record sound (s : Scanner) l : Prop := {
  sound_files : (files_scanned (report s) <= max_files limits)%nat;
  sound_findings : (length (findings (report s)) <= max_findings limits)%nat;
  sound_entries : (entries_seen s <= max_entries limits)%nat;
  sound_bytes : 0 <= total_bytes s <= max_total_bytes limits;
  sound_careful : careful l;
  sound_read : forall k, k ∈ read_keys l -> k ∈ seen_files s;
  sound_genuine : Forall (genuine l) (findings (report s));
}.

(** What is still to be done: a file that is being examined, and entries of the directories
    that are being walked. *)
Definition entry_done (s : Scanner) (directory : string) (entry : result unit (string * result unit file_kind)) : Prop :=
  exists name kind, entry = Ok (name, Ok kind) /\
    match kind with
    | Directory => ignored_directory name = true \/ path_key (join directory name) ∈ seen_directories s
    | RegularFile => path_key (join directory name) ∈ seen_files s
    | _ => True
    end.
Abbreviation pending := (list (string * result unit (string * result unit file_kind))) (only parsing).
Record complete (except : list (bool * list bytes)) (todo : pending) (s : Scanner) l : Prop := {
  complete_files : forall k, k ∈ seen_files s -> k ∈ except \/ exists path, path_key path = k /\ examined path (findings (report s)) l;
  complete_listed : forall k, k ∈ seen_directories s -> exists d entries, path_key d = k /\ Event (ReadDir d) (Ok entries) ∈ l;
  complete_entries : forall d entries entry, Event (ReadDir d) (Ok entries) ∈ l -> entry ∈ entries ->
    entry_done s d entry \/ (d, entry) ∈ todo;
}.
Definition invariant except (todo : pending) (s : Scanner) l : Prop :=
  sound s l /\ (incomplete (report s) = false -> complete except todo s l).

(** What only grows. *)
Record later (s s' : Scanner) : Prop := {
  later_files : forall k, k ∈ seen_files s -> k ∈ seen_files s';
  later_directories : forall k, k ∈ seen_directories s -> k ∈ seen_directories s';
  later_incomplete : incomplete (report s) = true -> incomplete (report s') = true;
  later_roots : scan_roots (report s') = scan_roots (report s);
}.
#[export] Instance later_preorder : PreOrder later.
Proof. split; [by split|]. intros s1 s2 s3 [] []. split; [auto..|congruence]. Qed.

(** ** Calls and the counters *)
Definition plain {A} (c : scan_call A) : Prop :=
  match c with ReadToEnd _ | OpenRegular _ | ReadDir _ => False | _ => True end.
Lemma is_regular_event path l e : is_regular path l -> is_regular path (e :: l).
Proof. intros (m & Hm & Hk). exists m. split; [by right|done]. Qed.
Lemma genuine_event l e f : genuine l f -> genuine (e :: l) f.
Proof. intros (content & d & Hr & Hd & Hf). exists content, d. split; [by right|done]. Qed.
Lemma examined_event path fs l e : examined path fs l -> examined path fs (e :: l).
Proof.
  intros (m & Hm & Hx). exists m. split; [by right|]. destruct Hx as [Hx|[Hx|(content & Hr & Hx)]]; [by left|by right; left; right|].
  right. right. exists content. split; [by right|done].
Qed.
Lemma examined_findings path fs fs' l : (forall f, f ∈ fs -> f ∈ fs') -> examined path fs l -> examined path fs' l.
Proof.
  intros Hi (m & Hm & Hx). exists m. split; [done|]. destruct Hx as [Hx|[Hx|(content & Hr & Hx)]]; [by left|by right; left|].
  right. right. exists content. split; [done|]. destruct Hx as [Hx|[Hx|(ds & Hc & Hd)]]; [by left|by right; left|].
  right. right. exists ds. split; [done|]. auto.
Qed.

(** An event that the log may gain. *)
Lemma sound_event s l {A} (c : scan_call A) a :
  careful_call c l -> (forall k, k ∈ read_keys_of c -> k ∈ seen_files s) -> sound s l -> sound s (Event c a :: l).
Proof.
  intros Hc Hk [Hf Hn He Hb Hca Hr Hg]. split; [done..|by split| |].
  - intros k. cbn. rewrite elem_of_app. intros [Hin|Hin]; auto.
  - eapply Forall_impl; [exact Hg|]. intros f. apply genuine_event.
Qed.
Lemma complete_event except todo s l {A} (c : scan_call A) a :
  (forall d entries, Event c a <> Event (ReadDir d) (Ok entries)) -> complete except todo s l -> complete except todo s (Event c a :: l).
Proof.
  intros Hc [Hf Hl He]. split.
  - intros k Hk. destruct (Hf k Hk) as [Hx|(path & Hp & Hx)]; [by left|right]. exists path. split; [done|]. by apply examined_event.
  - intros k Hk. destruct (Hl k Hk) as (d & entries & Hd & Hin). exists d, entries. split; [done|by right].
  - intros d entries entry Hin. apply elem_of_cons in Hin as [Hin|Hin]; [by symmetry in Hin; apply Hc in Hin|by apply He].
Qed.
Lemma invariant_event except todo s l {A} (c : scan_call A) a :
  plain c -> invariant except todo s l -> invariant except todo s (Event c a :: l).
Proof.
  intros Hc [Hs Hi]. split.
  - apply sound_event; [by destruct c| |done]. intros k Hk. destruct c; try done; by apply not_elem_of_nil in Hk.
  - intros Hn. apply complete_event; [|by apply Hi]. intros d entries Heq. by destruct c; simplify_eq.
Qed.

(** The scanner with more in it. *)
Lemma invariant_report except todo s s' l :
  invariant except todo s l -> seen_files s' = seen_files s -> seen_directories s' = seen_directories s ->
  (files_scanned (report s') <= max_files limits)%nat -> (length (findings (report s')) <= max_findings limits)%nat ->
  (entries_seen s' <= max_entries limits)%nat -> 0 <= total_bytes s' <= max_total_bytes limits ->
  (incomplete (report s') = false -> incomplete (report s) = false) ->
  (forall f, f ∈ findings (report s) -> f ∈ findings (report s')) -> Forall (genuine l) (findings (report s')) ->
  invariant except todo s' l.
Proof.
  intros [Hs Hi] Hsf Hsd Hf Hn He Hb Hinc Hsub Hg. split.
  - destruct Hs. split; [done..| |done]. by rewrite Hsf.
  - intros Hfalse. destruct (Hi (Hinc Hfalse)) as [Hcf Hcl Hce]. split; rewrite ?Hsf, ?Hsd; [|done|].
    + intros k Hk. destruct (Hcf k Hk) as [Hx|(path & Hp & Hx)]; [by left|right]. exists path. split; [done|].
      by eapply examined_findings.
    + intros d entries entry Hin Hent. destruct (Hce d entries entry Hin Hent) as [(name & kind & -> & Hx)|Hx]; [left|by right].
      exists name, kind. split; [done|]. destruct kind; rewrite ?Hsf, ?Hsd; done.
Qed.
Lemma invariant_incomplete except todo s l b : invariant except todo s l -> invariant except todo (mark_incomplete b s) l.
Proof.
  intros Hi. pose proof Hi as [[] _]. apply (invariant_report except todo s); try done. cbn. by intros [? _]%orb_false_iff.
Qed.
Lemma invariant_stopped except except' todo todo' s l :
  invariant except todo s l -> invariant except' todo' (mark_incomplete true s) l.
Proof.
  intros [Hs _]. split; [by destruct Hs; split|]. cbn. by rewrite orb_true_r.
Qed.
Lemma invariant_skip except todo s l : invariant except todo s l -> invariant except todo (skip s) l.
Proof. intros Hi. pose proof Hi as [[] _]. by apply (invariant_report except todo s). Qed.
Lemma invariant_skip_stopped except except' todo todo' s l :
  invariant except todo s l -> invariant except' todo' (skip_incomplete s) l.
Proof. intros Hi. by apply invariant_skip, (invariant_stopped except except' todo todo'). Qed.
Lemma later_mark b s : later s (mark_incomplete b s).
Proof. split; [done..| |done]. cbn. by intros ->. Qed.
Lemma later_skip s : later s (skip s).
Proof. by split. Qed.
End log.

(** ** The operations *)
Section operations.
Context (ask : forall A, scan_call A -> list (call_event scan_call) -> A).
Context `{DetectionCrates}.
Context (limits : ScanLimits) (Hlimits : 0 <= max_total_bytes limits < u64_max /\ 0 <= max_file_bytes limits < u64_max).
Abbreviation log := (list (call_event scan_call)) (only parsing).
Abbreviation pending := (list (string * result unit (string * result unit file_kind))) (only parsing).
Abbreviation invariant := (invariant limits) (only parsing).

Lemma invariant_closed except todo s : closed_under (@plain) (invariant except todo s).
Proof. intros A c a l Hc. by apply invariant_event. Qed.
Lemma interrupted_wp (P : log -> Prop) l :
  closed_under (@plain) P -> P l -> os_wp (interrupted ask limits) (fun r l' => P l' /\ exists b, r = Ok b) l.
Proof.
  intros HP Hl. unfold interrupted. ask_step. apply os_wp_perform. intros c _. cbv beta iota.
  assert (Hl' : P (Event Cancelled c :: l)) by (by apply HP). destruct c; [ask_step; split; [done|by eexists]|].
  do 2 ask_step. ask_step. split; [by apply HP|by eexists].
Qed.

(** What an operation does: it answers, keeps the invariant and reaches its goal, unless
    the report says that it is incomplete. *)
Definition progress (todo : pending) (s : Scanner) (goal : Scanner -> Prop) (r : LResult Scanner) (l : log) : Prop :=
  exists s', r = Ok s' /\ invariant [] todo s' l /\ later s s' /\ (incomplete (report s') = false -> goal s').
Lemma progress_stays todo s (goal : Scanner -> Prop) l : invariant [] todo s l -> goal s -> progress todo s goal (Ok s) l.
Proof. intros Hi Hg. by exists s. Qed.
Lemma progress_incomplete except todo todo' s s0 (goal : Scanner -> Prop) l :
  later s0 s -> invariant except todo s l -> progress todo' s0 goal (Ok (mark_incomplete true s)) l.
Proof.
  intros Hs Hi. eexists. split; [done|]. split; [by eapply invariant_stopped|]. split; [etransitivity; [done|apply later_mark]|].
  cbn. by rewrite orb_true_r.
Qed.
Lemma progress_skip_incomplete except todo todo' s s0 (goal : Scanner -> Prop) l :
  later s0 s -> invariant except todo s l -> progress todo' s0 goal (Ok (skip_incomplete s)) l.
Proof.
  intros Hs Hi. eexists. split; [done|]. split; [by eapply invariant_skip_stopped|]. split; [etransitivity; [done|]; etransitivity; [apply later_mark|apply later_skip]|].
  cbn. by rewrite orb_true_r.
Qed.
Lemma stopped_wp except todo s l (Q : LResult (Scanner * bool) -> log -> Prop) :
  invariant except todo s l ->
  (forall l', invariant except todo s l' -> exhausted limits s = false -> Q (Ok (s, false)) l') ->
  (forall l', invariant except todo s l' -> Q (Ok (mark_incomplete true s, true)) l') ->
  os_wp (stopped ask limits s) Q l.
Proof.
  intros Hi HOk HStop. unfold stopped. ask_step. eapply os_wp_mono; [apply (interrupted_wp (invariant except todo s)); [apply invariant_closed|done]|].
  intros r l' (Hi' & b & ->). ask_step. destruct (b || exhausted limits s) eqn:Hb; [by apply HStop|].
  apply orb_false_iff in Hb as [_ Hx]. by apply HOk.
Qed.

(** *** A file *)
Lemma settle todo path s l :
  invariant [path_key path] todo s l -> (incomplete (report s) = false -> examined path (findings (report s)) l) ->
  invariant [] todo s l.
Proof.
  intros [Hs Hi] Hx. split; [done|]. intros Hn. destruct (Hi Hn) as [Hf Hl He]. split; [|done..].
  intros k Hk. right. destruct (Hf k Hk) as [Hin|Hin]; [|done]. apply list_elem_of_singleton in Hin as ->.
  exists path. split; [done|]. by apply Hx.
Qed.
Lemma settled todo path s s0 (goal : Scanner -> Prop) l :
  later s0 s -> goal s -> invariant [path_key path] todo s l -> examined path (findings (report s)) l ->
  progress todo s0 goal (Ok s) l.
Proof. intros Hs Hg Hi Hx. exists s. split; [done|]. split; [by eapply settle|done]. Qed.

Lemma located_genuine path text ds l :
  Event (ReadToEnd path) (Ok text) ∈ l -> Forall (fun d => d ∈ candidates text) ds ->
  Forall (genuine l) (map (located path text) ds).
Proof.
  intros Hr Hds. apply Forall_map, Forall_forall. intros d Hd. rewrite Forall_forall in Hds. exists text, d. by split_and!; [|apply Hds|].
Qed.
Lemma scan_text_wp todo path text s0 s l :
  invariant [path_key path] todo s l -> later s0 s -> path_key path ∈ seen_files s ->
  (files_scanned (report s) < max_files limits)%nat -> is_regular path l -> Event (ReadToEnd path) (Ok text) ∈ l ->
  os_wp (scan_text ask limits path text s) (progress todo s0 (fun s' => path_key path ∈ seen_files s')) l.
Proof.
  intros Hi Hs0 Hk Hf Hr Hin. unfold scan_text. ask_step.
  set (P := fun l' => invariant [path_key path] todo s l' /\ is_regular path l' /\ Event (ReadToEnd path) (Ok text) ∈ l').
  assert (HP : closed_under (@plain) P).
  { intros A c a l' Hc (Hi' & Hr' & Hin'). split; [by apply invariant_event|]. split; [by apply is_regular_event|by right]. }
  eapply os_wp_mono; [by apply (detect_wp (interrupted ask limits) P); [intros l' Hl'; apply interrupted_wp|]|].
  intros r l' ((Hi' & Hr' & Hin') & ds & unfinished & -> & Hd & Hc). ask_step.
  rewrite (locate_map path text 0 1 ds); [|done|by apply Forall_forall; lia|apply Hd].
  assert (Hgen : Forall (genuine l') (map (located path text) ds)) by (apply located_genuine, Hd; done).
  pose proof Hi' as [[] _].
  assert (Hinv : invariant [path_key path] todo
    (set_findings (findings (report s) ++ map (located path text) ds) (mark_incomplete unfinished (count_scanned s))) l').
  { apply (invariant_report limits _ todo s); cbn; try done.
    - pose proof (detected_length _ _ _ Hd) as Hlen. cbn in Hlen. rewrite length_app, length_map. lia.
    - by intros [? _]%orb_false_iff.
    - intros f Hf'. apply elem_of_app. by left.
    - by apply Forall_app. }
  eexists. split; [done|]. split; [|split; [|done]].
  - eapply settle; [exact Hinv|]. cbn. intros [_ Hu]%orb_false_iff. destruct Hr' as (m & Hm & Hreg). exists m. split; [done|].
    right. right. exists text. split; [done|]. right. right. exists ds. split; [by apply Hc|].
    intros d Hd'. apply elem_of_app. right. by apply list_elem_of_fmap_2.
  - etransitivity; [exact Hs0|]. split; [done..| |done]. cbn. by intros ->.
Qed.

(** A file that is being examined. *)
Record visiting (todo : pending) (path : string) (s0 s : Scanner) (l : log) : Prop := {
  visiting_invariant : invariant [path_key path] todo s l;
  visiting_later : later s0 s;
  visiting_seen : path_key path ∈ seen_files s;
  visiting_files : (files_scanned (report s) < max_files limits)%nat;
  visiting_regular : is_regular path l;
}.
Abbreviation seen path := (fun s => path_key path ∈ seen_files s) (only parsing).
Lemma visiting_skipped todo path s0 s l :
  visiting todo path s0 s l -> examined path (findings (report s)) l -> progress todo s0 (seen path) (Ok (skip s)) l.
Proof.
  intros [Hi Hs Hk _ _] Hx. apply (settled todo path); [etransitivity; [done|apply later_skip]|done|by apply invariant_skip|done].
Qed.
Lemma scan_bytes_wp todo path s0 s b l :
  visiting todo path s0 s l -> Event (ReadToEnd path) (Ok b) ∈ l ->
  zlen b <= max_total_bytes limits - total_bytes s ->
  os_wp (scan_bytes ask limits path b s) (progress todo s0 (seen path)) l.
Proof.
  intros Hv Hin Hb. unfold scan_bytes. set (s1 := add_bytes (zlen b) s).
  assert (Hv1 : visiting todo path s0 s1 l).
  { destruct Hv as [Hi Hs Hk Hf Hr]. split; [|by destruct Hs|done..]. pose proof Hi as [[] _].
    apply (invariant_report limits _ todo s); try done. cbn. unfold saturating_add. pose proof (zlen_nonneg b). lia. }
  destruct Hv1 as [Hi1 Hs1 Hk1 Hf1 [m [Hm Hreg]]] eqn:Heq. pose proof Hv1 as Hv2. clear Heq.
  case_bool_decide as Hnul; [|destruct (is_utf8 b) eqn:Hutf].
  - ask_step. apply (visiting_skipped todo path); [done|]. exists m. split; [done|]. right. right. exists b. split; [done|by left].
  - apply scan_text_wp; try done. by exists m.
  - ask_step. apply (visiting_skipped todo path); [done|]. exists m. split; [done|]. right. right. exists b. split; [done|].
    right. left. intros Hv'. apply is_utf8_true in Hv'. congruence.
Qed.
Lemma read_file_wp todo path s0 s l :
  visiting todo path s0 s l -> Event (OpenRegular path) (Ok true) ∈ l -> path_key path ∉ read_keys l ->
  os_wp (read_file ask limits path s) (progress todo s0 (seen path)) l.
Proof.
  intros Hv Ho Hnew. unfold read_file. ask_step. apply os_wp_perform. intros answer _. cbv beta iota.
  assert (Hv1 : visiting todo path s0 s (Event (ReadToEnd path) answer :: l)).
  { destruct Hv as [[Hs Hi] Hs0 Hk Hf Hr]. split; [|done..|by apply is_regular_event]. split.
    - apply sound_event; [by split_and!| |done]. intros k Hk'. apply list_elem_of_singleton in Hk' as ->. done.
    - intros Hn. apply complete_event; [done|by apply Hi]. }
  pose proof Hv1 as [Hi1 Hs1 Hk1 Hf1 Hr1]. destruct answer as [content|]; [|ask_step; by eapply progress_skip_incomplete].
  set (cap := Z.min _ _). destruct (Z.ltb_spec cap (zlen (take (Z.to_nat (saturating_add u64_max cap 1)) content))) as [|Hle];
    [ask_step; by eapply progress_skip_incomplete|].
  assert (Hb : 0 <= total_bytes s <= max_total_bytes limits) by (by destruct Hi1 as [[] _]).
  assert (Hcap : 0 <= cap < u64_max) by (unfold cap, saturating_sub; lia).
  assert (Hall : take (Z.to_nat (saturating_add u64_max cap 1)) content = content).
  { apply take_ge. unfold saturating_add in *. unfold zlen in Hle. rewrite length_take in Hle. lia. }
  rewrite Hall in *. apply scan_bytes_wp; [done|by left|]. unfold cap, saturating_sub in Hle. lia.
Qed.
Lemma open_file_wp todo path s0 s l :
  visiting todo path s0 s l -> path_key path ∉ read_keys l ->
  os_wp (open_file ask limits path s) (progress todo s0 (seen path)) l.
Proof.
  intros Hv Hnew. unfold open_file. ask_step. apply os_wp_perform. intros answer _. cbv beta iota.
  assert (Hv1 : visiting todo path s0 s (Event (OpenRegular path) answer :: l)).
  { destruct Hv as [[Hs Hi] Hs0 Hk Hf Hr]. split; [|done..|by apply is_regular_event]. split.
    - apply sound_event; [done| |done]. intros k Hk'. by apply not_elem_of_nil in Hk'.
    - intros Hn. apply complete_event; [done|by apply Hi]. }
  pose proof Hv1 as [Hi1 Hs1 Hk1 Hf1 Hr1]. destruct answer as [[]|].
  - apply read_file_wp; [done|by left|done].
  - ask_step. apply (visiting_skipped todo path); [done|]. destruct Hr1 as (m & Hm & Hreg). exists m. split; [done|].
    right. left. by left.
  - ask_step. by eapply progress_skip_incomplete.
Qed.
Lemma invariant_see_file todo path s l : invariant [] todo s l -> invariant [path_key path] todo (see_file path s) l.
Proof.
  intros [[] Hi]. split; [split; try done; cbn; intros k Hk; right; auto|]. intros Hn. destruct (Hi Hn) as [Hf Hl He]. split; [|done|].
  - cbn. intros k Hk. apply elem_of_cons in Hk as [->|Hk]; [left; by apply list_elem_of_singleton|]. right.
    by destruct (Hf k Hk) as [Hx%not_elem_of_nil|Hx].
  - intros d entries entry Hin Hent. destruct (He d entries entry Hin Hent) as [(name & kind & -> & Hx)|Hx]; [left|by right].
    exists name, kind. split; [done|]. destruct kind; try done. by right.
Qed.
Lemma scan_file_wp todo path s l :
  invariant [] todo s l -> os_wp (scan_file ask limits path s) (progress todo s (seen path)) l.
Proof.
  intros Hi. unfold scan_file. case_bool_decide as Hk; [by ask_step; apply progress_stays|].
  set (s1 := see_file path s). assert (Hi1 : invariant [path_key path] todo s1 l) by (by apply invariant_see_file).
  assert (Hs1 : later s s1) by (split; try done; cbn; intros k Hin; by right).
  assert (Hk1 : path_key path ∈ seen_files s1) by by left.
  assert (Hnew : path_key path ∉ read_keys l) by (intros Hr; apply Hk; by apply Hi in Hr).
  destruct (Nat.leb_spec (max_files limits) (files_scanned (report s1))) as [|Hf]; [ask_step; by eapply progress_skip_incomplete|].
  ask_step. apply os_wp_perform. intros answer _. cbv beta iota.
  apply (invariant_event limits _ todo s1 l (SymlinkMetadata path) answer I) in Hi1.
  destruct answer as [m|]; [|ask_step; by eapply progress_skip_incomplete].
  case_bool_decide as Hreg; cbn [negb].
  - assert (Hv : visiting todo path s s1 (Event (SymlinkMetadata path) (Ok m) :: l)).
    { split; try done. exists m. split; [by left|done]. }
    destruct (too_large limits (meta_length m) s1); [ask_step; by eapply progress_skip_incomplete|]. by apply open_file_wp.
  - ask_step. apply (settled todo path); [by etransitivity; [|apply later_skip]|done|by apply invariant_skip|].
    exists m. split; [by left|by left].
Qed.

(** *** Directories *)
Lemma progress_later todo s0 s (goal : Scanner -> Prop) r l : later s0 s -> progress todo s goal r l -> progress todo s0 goal r l.
Proof. intros Hs (s' & -> & Hi & Hs' & Hg). exists s'. split_and!; [done|done|by etransitivity|done]. Qed.
Lemma progress_goal todo s (goal goal' : Scanner -> Prop) r l :
  (forall s', goal s' -> goal' s') -> progress todo s goal r l -> progress todo s goal' r l.
Proof. intros Hg (s' & -> & Hi & Hs & Hs'). exists s'. split_and!; auto. Qed.
Lemma progress_unlisted todo s s0 (goal : Scanner -> Prop) l :
  later s0 s -> sound limits s l -> progress todo s0 goal (Ok (mark_incomplete true s)) l.
Proof.
  intros Hs Hso. eexists. split; [done|]. split; [split; [by destruct Hso; split|]; cbn; by rewrite orb_true_r|].
  split; [etransitivity; [done|apply later_mark]|]. cbn. by rewrite orb_true_r.
Qed.
Lemma discharge todo d entry s l :
  invariant [] ((d, entry) :: todo) s l -> (incomplete (report s) = false -> entry_done s d entry) -> invariant [] todo s l.
Proof.
  intros [Hs Hi] Hd. split; [done|]. intros Hn. destruct (Hi Hn) as [Hf Hl He]. split; [done..|].
  intros d' entries entry' Hin Hent. destruct (He d' entries entry' Hin Hent) as [Hx|Hx]; [by left|].
  apply elem_of_cons in Hx as [[= -> ->]|Hx]; [left; by apply Hd|by right].
Qed.
Lemma discharged todo d entry s (goal : Scanner -> Prop) r l :
  (forall s', goal s' -> entry_done s' d entry) ->
  progress ((d, entry) :: todo) s goal r l -> progress todo s (fun _ => True) r l.
Proof.
  intros Hd (s' & -> & Hi & Hs & Hg). exists s'. split; [done|]. split; [|done]. eapply discharge; [done|]. auto.
Qed.
Lemma invariant_count_entry except todo s l :
  (entries_seen s < max_entries limits)%nat -> invariant except todo s l -> invariant except todo (count_entry s) l.
Proof. intros He Hi. pose proof Hi as [[] _]. apply (invariant_report limits except todo s); done. Qed.

Section entries.
Context (walk_below : string -> Scanner -> Asks scan_call Scanner) (directory : string).
Context (Hwalk : forall todo path s l, invariant [] todo s l ->
  os_wp (walk_below path s) (progress todo s (fun s' => path_key path ∈ seen_directories s')) l).

Lemma walk_entry_wp todo entry s l :
  invariant [] ((directory, entry) :: todo) s l ->
  os_wp (match entry with
         | Err _ | Ok (_, Err _) => mret (mark_incomplete true s)
         | Ok (name, Ok kind) =>
           let path := join directory name in
           match kind with
           | Symlink => mret (skip s)
           | Directory => if ignored_directory name then mret s else walk_below path s
           | RegularFile => scan_file ask limits path s
           | OtherKind => mret (skip s)
           end
         end) (progress todo s (fun _ => True)) l.
Proof.
  intros Hi. destruct entry as [[name [kind|]]|];
    [|ask_step; by eapply progress_incomplete|ask_step; by eapply progress_incomplete].
  assert (Hskip : entry_done s directory (Ok (name, Ok kind)) -> progress todo s (fun _ => True) (Ok (skip s)) l).
  { intros Hd. exists (skip s). split; [done|]. split; [|by split; [apply later_skip|]]. apply invariant_skip. by eapply discharge. }
  destruct kind; cbv zeta.
  - eapply os_wp_mono; [by apply scan_file_wp|]. intros r l'. apply discharged. intros s' Hs'. by exists name, RegularFile.
  - destruct (ignored_directory name) eqn:Hig.
    + ask_step. exists s. split; [done|]. split; [|done]. eapply discharge; [done|]. intros _. exists name, Directory. by split; [|left].
    + eapply os_wp_mono; [by apply Hwalk|]. intros r l'. apply discharged. intros s' Hs'. exists name, Directory. by split; [|right].
  - ask_step. apply Hskip. by exists name, Symlink.
  - ask_step. apply Hskip. by exists name, OtherKind.
Qed.
Lemma walk_entries_wp todo entries s l :
  invariant [] (map (pair directory) entries ++ todo) s l ->
  os_wp (walk_entries ask limits walk_below directory entries s) (progress todo s (fun _ => True)) l.
Proof.
  revert s l. induction entries as [|entry entries IH]; intros s l Hi; cbn [walk_entries].
  - ask_step. by apply progress_stays.
  - cbn [map app] in Hi. ask_step. eapply stopped_wp; [exact Hi| |].
    2: { intros l' Hi'. cbv beta iota. ask_step. by eapply progress_incomplete. }
    intros l1 Hi1 Hx. cbv beta iota. destruct (Nat.leb_spec (max_entries limits) (entries_seen s)) as [|He].
    { ask_step. by eapply progress_incomplete. }
    apply (invariant_count_entry _ _ _ _ He) in Hi1. ask_step. eapply os_wp_mono; [by apply walk_entry_wp|].
    intros r l2 (s' & -> & Hi' & Hs' & _). eapply os_wp_mono; [by apply IH|]. intros r l3. apply progress_later.
    by etransitivity; [|exact Hs'].
Qed.
End entries.

Definition listing_of (e : call_event scan_call) : option (string * result unit (list (result unit (string * result unit file_kind)))) :=
  match e with
  | Event c a => match c in scan_call A return A -> _ with ReadDir d => fun a => Some (d, a) | _ => fun _ => None end a
  end.
Lemma invariant_listed todo d entries s l :
  invariant [] todo s l ->
  invariant [] (map (pair d) entries ++ todo) (see_directory d s) (Event (ReadDir d) (Ok entries) :: l).
Proof.
  intros [Hs Hi]. split.
  - apply sound_event; [done|by intros k Hk%not_elem_of_nil|by destruct Hs].
  - intros Hn. destruct (Hi Hn) as [Hf Hl He]. split.
    + intros k Hk. destruct (Hf k Hk) as [Hx|(path & Hp & Hx)]; [by left|right]. exists path. split; [done|]. by apply examined_event.
    + cbn. intros k Hk. apply elem_of_cons in Hk as [->|Hk]; [by exists d, entries; split; [|left]|].
      destruct (Hl k Hk) as (d' & entries' & Hd & Hin). exists d', entries'. split; [done|by right].
    + intros d' entries' entry Hin Hent. apply elem_of_cons in Hin as [Hin|Hin].
      * right. apply elem_of_app. left. apply (f_equal listing_of) in Hin. cbn in Hin. simplify_eq. by apply list_elem_of_fmap_2.
      * destruct (He d' entries' entry Hin Hent) as [(name & kind & -> & Hx)|Hx].
        { left. exists name, kind. split; [done|]. destruct kind; try done. destruct Hx; [by left|right; by right]. }
        right. apply elem_of_app. by right.
Qed.
Lemma walk_wp fuel depth todo directory s l :
  (max_depth limits + 2 <= fuel + depth)%nat -> (depth <= S (max_depth limits))%nat -> invariant [] todo s l ->
  os_wp (walk ask limits fuel depth directory s) (progress todo s (fun s' => path_key directory ∈ seen_directories s')) l.
Proof.
  revert depth todo directory s l. induction fuel as [|fuel IH]; intros depth todo directory s l Hf Hd Hi; [lia|].
  cbn [walk]. case_bool_decide as Hk; [by ask_step; apply progress_stays|].
  ask_step. eapply stopped_wp; [exact Hi| |]; clear Hi; intros l1 Hi; cbv beta iota.
  2: { ask_step. by eapply progress_incomplete. }
  intros _. destruct (Nat.ltb_spec (max_depth limits) depth) as [|Hdepth]; [ask_step; by eapply progress_incomplete|].
  ask_step. apply os_wp_perform. intros m _. cbv beta iota.
  apply (invariant_event limits _ todo s l1 (SymlinkMetadata directory) m I) in Hi.
  destruct (match m with Ok m => _ | Err _ => false end); [|ask_step; by eapply progress_incomplete].
  ask_step. apply os_wp_perform. intros entries _. cbv beta iota.
  assert (Hs1 : later s (see_directory directory s)) by (split; try done; cbn; intros k Hin; by right).
  destruct entries as [entries|].
  - eapply os_wp_mono.
    + apply (walk_entries_wp (walk ask limits fuel (S depth))); [|by apply invariant_listed].
      intros todo' path s' l' Hi'. apply IH; [lia|lia|done].
    + intros r l' (s' & -> & Hi' & Hs' & _). exists s'. split; [done|]. split; [done|]. split; [by etransitivity|].
      intros _. apply (later_directories _ _ Hs'). by left.
  - ask_step. apply progress_unlisted; [done|]. destruct Hi as [Hso _].
    apply sound_event; [done|by intros k Hk'%not_elem_of_nil|by destruct Hso].
Qed.

(** *** Roots *)
Lemma safe_candidate_wp except todo s path parts safe l (Q : LResult (string * bool) -> log -> Prop) :
  invariant except todo s l -> (forall p b l', invariant except todo s l' -> Q (Ok (p, b)) l') ->
  os_wp (safe_candidate ask path parts safe) Q l.
Proof.
  revert path l. induction parts as [|part parts IH]; intros path l Hi HQ; cbn [safe_candidate]; [by ask_step; apply HQ|].
  ask_step. apply os_wp_perform. intros m _. cbv beta iota.
  apply (invariant_event limits _ todo s l (SymlinkMetadata (join path part)) m I) in Hi.
  destruct (match m with Ok m => _ | Err _ => false end); [by ask_step; apply HQ|by apply IH].
Qed.
Lemma scan_priority_wp todo root relative s l :
  invariant [] todo s l -> os_wp (scan_priority ask limits root relative s) (progress todo s (fun _ => True)) l.
Proof.
  intros Hi. unfold scan_priority. ask_step. apply os_wp_perform. intros m _. cbv beta iota zeta.
  apply (invariant_event limits _ todo s l (SymlinkMetadata root) m I) in Hi.
  ask_step. apply (safe_candidate_wp [] todo s); [done|]. clear Hi. intros candidate safe l1 Hi. cbv beta iota.
  destruct safe; [|by ask_step; apply progress_stays]. ask_step. apply os_wp_perform. intros regular _. cbv beta iota.
  apply (invariant_event limits _ todo s l1 (IsRegularFile candidate) regular I) in Hi.
  destruct regular; [|by ask_step; apply progress_stays]. eapply os_wp_mono; [by apply scan_file_wp|].
  intros r l'. by apply progress_goal.
Qed.
Lemma priority_loop_wp todo root ps s l :
  invariant [] todo s l -> os_wp (priority_loop ask limits root ps s) (progress todo s (fun _ => True)) l.
Proof.
  revert s l. induction ps as [|p ps IH]; intros s l Hi; cbn [priority_loop]; [by ask_step; apply progress_stays|].
  ask_step. eapply stopped_wp; [exact Hi| |]; clear Hi; intros l1 Hi; cbv beta iota.
  2: { ask_step. by eapply progress_incomplete. }
  intros _. ask_step. eapply os_wp_mono; [by apply scan_priority_wp|]. intros r l2 (s' & -> & Hi' & Hs' & _).
  eapply os_wp_mono; [by apply IH|]. intros r l3. by apply progress_later.
Qed.

(** A loop over the roots, each of which reaches its goal. *)
Lemma later_true s s' : later s s' -> incomplete (report s') = false -> incomplete (report s) = false.
Proof. intros Hs Hn. destruct (incomplete (report s)) eqn:He; [|done]. apply (later_incomplete _ _ Hs) in He. congruence. Qed.
Lemma priority_roots_wp todo roots s l :
  invariant [] todo s l ->
  os_wp (priority_roots ask limits roots s)
    (progress todo s (fun _ => forall root, root ∈ roots -> is_absolute root = true)) l.
Proof.
  revert s l. induction roots as [|root roots IH]; intros s l Hi; cbn [priority_roots].
  { ask_step. apply progress_stays; [done|]. by intros root Hr%not_elem_of_nil. }
  assert (Hroot : os_wp (if is_absolute root then priority_files ask limits root s else mret (mark_incomplete true s))
    (progress todo s (fun _ => is_absolute root = true)) l).
  { destruct (is_absolute root) eqn:Habs; [|ask_step; by eapply progress_incomplete].
    eapply os_wp_mono; [by apply priority_loop_wp|]. intros r l'. by apply progress_goal. }
  ask_step. eapply os_wp_mono; [exact Hroot|]. intros r l1 (s1 & -> & Hi1 & Hs1 & Hg1).
  eapply os_wp_mono; [by apply IH|]. intros r l2 (s2 & -> & Hi2 & Hs2 & Hg2).
  exists s2. split; [done|]. split; [done|]. split; [by etransitivity|]. intros Hn root' Hr. apply elem_of_cons in Hr as [->|Hr].
  - by apply Hg1, (later_true _ s2).
  - by apply Hg2.
Qed.
Lemma walk_roots_wp todo roots s l :
  invariant [] todo s l ->
  os_wp (walk_roots ask limits roots s)
    (progress todo s (fun s' => forall root, root ∈ roots -> is_absolute root = true -> path_key root ∈ seen_directories s')) l.
Proof.
  revert s l. induction roots as [|root roots IH]; intros s l Hi; cbn [walk_roots].
  { ask_step. apply progress_stays; [done|]. by intros root Hr%not_elem_of_nil. }
  assert (Hroot : os_wp (if is_absolute root then walk ask limits (walk_fuel limits) 0 root s else mret s)
    (progress todo s (fun s' => is_absolute root = true -> path_key root ∈ seen_directories s')) l).
  { destruct (is_absolute root) eqn:Habs; [|by ask_step; apply progress_stays].
    eapply os_wp_mono; [apply walk_wp; [unfold walk_fuel; lia|lia|exact Hi]|]. intros r l'. by apply progress_goal. }
  ask_step. eapply os_wp_mono; [exact Hroot|]. intros r l1 (s1 & -> & Hi1 & Hs1 & Hg1).
  eapply os_wp_mono; [by apply IH|]. intros r l2 (s2 & -> & Hi2 & Hs2 & Hg2).
  exists s2. split; [done|]. split; [done|]. split; [by etransitivity|]. intros Hn root' Hr Habs. apply elem_of_cons in Hr as [->|Hr].
  - apply (later_directories _ _ Hs2), Hg1; [by apply (later_true _ s2)|done].
  - by apply Hg2.
Qed.
Lemma distinct_roots_keys roots extra k :
  k ∈ path_key <$> roots \/ k ∈ path_key <$> extra -> k ∈ path_key <$> distinct_roots roots extra.
Proof.
  revert roots. induction extra as [|root extra IH]; intros roots Hk; cbn [distinct_roots].
  - destruct Hk as [Hk|Hk]; [done|by apply not_elem_of_nil in Hk].
  - apply IH. case_bool_decide as Hin.
    + destruct Hk as [Hk|Hk]; [by left|]. cbn in Hk. apply elem_of_cons in Hk as [->|Hk]; [by left|by right].
    + rewrite fmap_app, elem_of_app. destruct Hk as [Hk|Hk]; [by left; left|]. cbn in Hk.
      apply elem_of_cons in Hk as [->|Hk]; [left; right; by apply list_elem_of_singleton|by right].
Qed.

(** The whole report. *)
Definition exhaustive (home : string) (extra : list string) (rep : ScanReport) (l : log) : Prop :=
  exists s, report s = rep /\ complete [] [] s l /\
    forall root, root ∈ home :: extra -> is_absolute root = true /\ path_key root ∈ seen_directories s.
Lemma new_scanner_invariant roots l :
  careful l -> read_keys l = [] -> (forall d a, Event (ReadDir d) a ∉ l) ->
  invariant [] [] (set_roots roots new_scanner) l.
Proof.
  intros Hc Hr Hd. split.
  - split; cbn; try lia; [done|by rewrite Hr; intros k Hk%not_elem_of_nil|done].
  - intros _. split; [by intros k Hk%not_elem_of_nil..|]. intros d entries entry Hin. by apply Hd in Hin.
Qed.

(** What the answer of the whole scan says. *)
Definition reported (home : string) (extra : list string) (r : LResult (option ScanReport)) (l : log) : Prop :=
  careful l /\ exists o, r = Ok o /\ forall rep, o = Some rep ->
    (files_scanned rep <= max_files limits)%nat /\ (length (findings rep) <= max_findings limits)%nat /\
    Forall (genuine l) (findings rep) /\ (incomplete rep = false -> exhaustive home extra rep l).
Lemma scan_user_files_wp home extra :
  os_wp (scan_user_files ask limits home extra) (reported home extra) [].
Proof.
  assert (Hno : forall l, careful l -> reported home extra (Ok None) l) by (intros l Hl; split; [done|]; by exists None).
  unfold scan_user_files. ask_step. destruct (is_absolute home) eqn:Habs; [|do 2 ask_step; by apply Hno].
  ask_step. apply os_wp_perform. intros m _. cbv beta iota. ask_step.
  destruct (match m with Ok m => _ | Err _ => false end); [|by ask_step; apply Hno].
  set (roots := distinct_roots [home] extra). set (l1 := [Event (SymlinkMetadata home) m]).
  assert (Hi : invariant [] [] (set_roots roots new_scanner) l1).
  { apply new_scanner_invariant; [done|done|]. intros d a Hin. apply list_elem_of_singleton in Hin. done. }
  ask_step. eapply os_wp_mono; [by apply priority_roots_wp|]. intros r l2 (s2 & -> & Hi2 & Hs2 & Hg2).
  ask_step. eapply os_wp_mono; [by apply walk_roots_wp|]. intros r l3 (s3 & -> & Hi3 & Hs3 & Hg3). ask_step.
  destruct Hi3 as [[] Hc]. split; [done|]. exists (Some (report s3)). split; [done|]. intros rep [= <-].
  split_and!; [done..|]. intros Hn. exists s3. split; [done|]. split; [by apply Hc|]. intros root Hr.
  assert (Hk : path_key root ∈ path_key <$> roots).
  { apply distinct_roots_keys. apply elem_of_cons in Hr as [->|Hr]; [left; by left|right; by apply list_elem_of_fmap_2]. }
  apply list_elem_of_fmap in Hk as (root' & Hk & Hr'). specialize (Hg2 (later_true _ _ Hs3 Hn) root' Hr').
  rewrite Hk. split; [|by apply Hg3]. injection Hk as Habs' _. by rewrite Habs'.
Qed.
End operations.

Section properties.
Context (ask : forall A, scan_call A -> list (call_event scan_call) -> A).
Context `{DetectionCrates}.

(** C24. A report that does not say that it is incomplete has left nothing out: every root was
    listed, and every directory in a listed directory unless it is one of the ignored
    names; every regular file in them, and every credential file that was looked at,
    is not text, or every candidate in it is covered by a reported finding. *)
Theorem complete_report_is_exhaustive limits home extra :
  0 <= max_total_bytes limits < u64_max -> 0 <= max_file_bytes limits < u64_max ->
  os_wp (scan_user_files ask limits home extra)
    (fun r l => forall rep, r = Ok (Some rep) -> incomplete rep = false -> exhaustive home extra rep l) [].
Proof.
  intros Ht Hf. eapply os_wp_mono; [by apply scan_user_files_wp|].
  intros r l (_ & o & -> & Ho) rep [= ->] Hn. by apply Ho.
Qed.
End properties.

(** ** An example *)

(** A home with one directory, which has one file. *)
Definition example_scan_answer {A} (c : scan_call A) : A :=
  match c with
  | Cancelled => false
  | Elapsed => 1
  | SymlinkMetadata path =>
    if bool_decide (path = "/home/u") || bool_decide (path = "/home/u/project") then
      Ok {| meta_kind := Directory; meta_length := 0 |}
    else if bool_decide (path = "/home/u/project/notes") then Ok {| meta_kind := RegularFile; meta_length := 8 |}
    else Err tt
  | IsRegularFile _ => false
  | ReadDir path =>
    if bool_decide (path = "/home/u") then Ok [Ok ("project", Ok Directory); Ok ("link", Ok Symlink)]
    else Ok [Ok ("notes", Ok RegularFile)]
  | OpenRegular _ => Ok true
  | ReadToEnd _ => Ok (bytes_of "ghp_1234")
  end.
Definition example_scan_ask A (c : scan_call A) (l : list (call_event scan_call)) : A := example_scan_answer c.
Example example_report :
  (scan_user_files (H := example_crates) example_scan_ask default_limits "/home/u" [] []).1 = Some (Ok (Some {|
    findings := [{| finding_path := "/home/u/project/notes"; finding_line := 1; finding_rule := TokenPattern |}];
    files_scanned := 1; skipped_files := 1; incomplete := false; scan_roots := ["/home/u"] |})).
Proof. vm_compute. reflexivity. Qed.

Lemma complete_report_is_exhaustive_witness :
  os_wp (scan_user_files (H := example_crates) example_scan_ask default_limits "/home/u" [])
    (fun r l => forall rep, r = Ok (Some rep) -> incomplete rep = false -> @exhaustive example_crates "/home/u" [] rep l) [].
Proof. apply (@complete_report_is_exhaustive example_scan_ask example_crates); by vm_compute. Defined.
