(* ===== verification/ScanBounds.v ===== *)
(** * The limits of the scan

    Every limit of [ScanLimits] as a bound on what the log of a scan may show: the
    size of the files and their sum, the number of files, of entries and of findings,
    the depth of the directories and the time. *)

From S2P Require Import Prelude Errors Utf8 Text Paths Runner Calls Commands Detection DetectionProperties Scan ScanProperties.
Local Open Scope Z_scope.

Section bounds.
Context `{DetectionCrates}.
Context (limits : ScanLimits).
Abbreviation log := (list (call_event scan_call)) (only parsing).
Implicit Types l : log.

(** ** What a log shows *)

(** Directories that were listed and files that were opened. *)
Definition is_operation {A} (c : scan_call A) : nat :=
  match c with ReadDir _ | OpenRegular _ => 1 | _ => 0 end.
Fixpoint operations l : nat :=
  match l with [] => 0 | Event c _ :: l => is_operation c + operations l end.

(** The flag and then the clock were looked at, after every listing and every reading,
    and said that the scan was neither cancelled nor out of time. *)
Fixpoint on_time l : Prop :=
  match l with
  | [] => False
  | Event c a :: older =>
    match c in scan_call A return A -> Prop with
    | Elapsed => fun elapsed => elapsed < max_duration limits /\ exists before, older = Event Cancelled false :: before
    | SymlinkMetadata _ => fun _ => on_time older
    | IsRegularFile _ => fun _ => on_time older
    | _ => fun _ => False
    end a
  end.

(** A directory at most [max_depth] names below a root. *)
Definition within_depth (roots : list string) (directory : string) : Prop :=
  exists root names, root ∈ roots /\ (length names <= max_depth limits)%nat /\ directory = foldl join root names.

Context (roots : list string).
Definition bounded_call {A} (c : scan_call A) l : Prop :=
  match c with
  | ReadDir directory => on_time l /\ within_depth roots directory
  | OpenRegular path =>
    on_time l /\ exists m older, l = Event (SymlinkMetadata path) (Ok m) :: older /\
      meta_length m <= max_file_bytes limits /\ meta_length m <= max_total_bytes limits
  | ReadToEnd path => exists older, l = Event (OpenRegular path) (Ok true) :: older
  | _ => True
  end.
Fixpoint bounded l : Prop :=
  match l with [] => True | Event c _ :: l => bounded_call c l /\ bounded l end.

(** The files whose content counts: each was read whole, once, and is not too large; their
    sum is not too large; those that are text were scanned, and the findings are theirs. *)
Definition is_text (b : bytes) : bool := negb (bool_decide (zb 0 ∈ b)) && is_utf8 b.
Definition sum_bytes (files : list (string * bytes)) : Z := foldr (fun f n => zlen f.2 + n) 0 files.
Definition file_keys (files : list (string * bytes)) : list (bool * list bytes) := (fun f => path_key f.1) <$> files.
Record accounted (files : list (string * bytes)) (rep : ScanReport) l : Prop := {
  ac_read : Forall (fun f => Event (ReadToEnd f.1) (Ok f.2) ∈ l /\ zlen f.2 <= max_file_bytes limits) files;
  ac_once : NoDup (file_keys files);
  ac_total : sum_bytes files <= max_total_bytes limits;
  ac_scanned : files_scanned rep = length (List.filter (fun f => is_text f.2) files);
  ac_findings : Forall (fun x => exists f d, f ∈ files /\ d ∈ candidates f.2 /\ x = located f.1 f.2 d) (findings rep);
}.

(** ** The invariant

    [credit] is what may be done beyond one operation for each entry that was counted, and
    [fresh] are files that do not count yet. *)
Record charged (files : list (string * bytes)) (fresh : list (bool * list bytes)) (s : Scanner) l : Prop := {
  ch_accounted : accounted files (report s) l;
  ch_seen : forall k, k ∈ file_keys files -> k ∈ seen_files s;
  ch_fresh : forall k, k ∈ fresh -> k ∉ file_keys files;
  ch_bytes : sum_bytes files = total_bytes s;
}.
Record budgeted (fresh : list (bool * list bytes)) (credit : Z) (s : Scanner) l : Prop := {
  bd_bounded : bounded l;
  bd_operations : Z.of_nat (operations l) <= Z.of_nat (entries_seen s) + credit;
  bd_entries : (entries_seen s <= max_entries limits)%nat;
  bd_charged : exists files, charged files fresh s l;
}.
Definition fine (credit : Z) (r : LResult Scanner) l : Prop := exists s, r = Ok s /\ budgeted [] credit s l.

Lemma accounted_event files rep l e : accounted files rep l -> accounted files rep (e :: l).
Proof.
  intros [Hr Ho Ht Hs Hf]. split; [|done..]. eapply Forall_impl; [exact Hr|]. intros f [Hin Hz]. split; [by right|done].
Qed.
Lemma charged_event files fresh s l e : charged files fresh s l -> charged files fresh s (e :: l).
Proof. intros [Ha Hs Hf Hb]. split; [by apply accounted_event|done..]. Qed.
Lemma budgeted_event fresh credit s l {A} (c : scan_call A) a :
  bounded_call c l -> budgeted fresh credit s l -> budgeted fresh (credit + Z.of_nat (is_operation c)) s (Event c a :: l).
Proof.
  intros Hc [Hb Ho He [files Hf]]. split; [by split|cbn [operations]; lia|done|]. exists files. by apply charged_event.
Qed.
Lemma budgeted_plain fresh credit s : closed_under (@plain) (budgeted fresh credit s).
Proof.
  intros A c a l Hc Hb. replace credit with (credit + Z.of_nat (is_operation c)) by (destruct c; cbn in *; try done; lia).
  apply budgeted_event; [by destruct c|done].
Qed.
Lemma budgeted_same fresh fresh' credit s s' l :
  budgeted fresh credit s l -> entries_seen s' = entries_seen s -> total_bytes s' = total_bytes s ->
  files_scanned (report s') = files_scanned (report s) -> findings (report s') = findings (report s) ->
  (forall k, k ∈ seen_files s -> k ∈ seen_files s') -> (forall k, k ∈ fresh' -> k ∈ fresh \/ k ∉ seen_files s) ->
  budgeted fresh' credit s' l.
Proof.
  intros [Hb Ho He (files & [[Hr Hn Ht Hs Hf] Hk Hfr Hby])] Hes Htb Hfs Hfi Hsub Hfresh.
  split; [done|by rewrite Hes|by rewrite Hes|]. exists files. split; [split| | |by rewrite Htb].
  - done.
  - done.
  - done.
  - by rewrite Hfs.
  - by rewrite Hfi.
  - intros k Hin. by apply Hsub, Hk.
  - intros k Hin Hin'. destruct (Hfresh k Hin) as [?|Hno]; [by apply (Hfr k)|by apply Hno, Hk].
Qed.
Lemma fine_same fresh credit s s' l :
  budgeted fresh credit s l -> entries_seen s' = entries_seen s -> total_bytes s' = total_bytes s ->
  files_scanned (report s') = files_scanned (report s) -> findings (report s') = findings (report s) ->
  (forall k, k ∈ seen_files s -> k ∈ seen_files s') -> fine credit (Ok s') l.
Proof.
  intros Hb ? ? ? ? ?. exists s'. split; [done|]. eapply budgeted_same; [done..|]. by intros k Hk%not_elem_of_nil.
Qed.
Lemma budgeted_more fresh credit credit' s l : credit <= credit' -> budgeted fresh credit s l -> budgeted fresh credit' s l.
Proof. intros Hc [Hb Ho He Hf]. split; [done|lia|done..]. Qed.
Lemma fine_more credit credit' r l : credit <= credit' -> fine credit r l -> fine credit' r l.
Proof. intros Hc (s & -> & Hb). exists s. split; [done|by eapply budgeted_more]. Qed.
End bounds.

(** ** The operations *)
Section operations.
Context (ask : forall A, scan_call A -> list (call_event scan_call) -> A).
Context `{DetectionCrates}.
Context (limits : ScanLimits) (Hlimits : 0 <= max_total_bytes limits < u64_max /\ 0 <= max_file_bytes limits < u64_max).
Context (roots : list string).
Abbreviation log := (list (call_event scan_call)) (only parsing).
Abbreviation budgeted := (budgeted limits roots) (only parsing).
Abbreviation fine := (fine limits roots) (only parsing).
Abbreviation on_time := (on_time limits) (only parsing).

Lemma interrupted_on_time (P : log -> Prop) l :
  closed_under (@plain) P -> P l ->
  os_wp (interrupted ask limits) (fun r l' => P l' /\ exists b, r = Ok b /\ (b = false -> on_time l')) l.
Proof.
  intros HP Hl. unfold interrupted. ask_step. apply os_wp_perform. intros c _. cbv beta iota.
  assert (Hl' : P (Event Cancelled c :: l)) by (by apply HP). destruct c; [ask_step; split; [done|by eexists]|].
  ask_step. apply os_wp_perform. intros elapsed _. cbv beta iota. ask_step. split; [by apply HP|].
  eexists. split; [done|]. intros Hle%Z.leb_gt. split; [done|by eexists].
Qed.
Lemma stopped_on_time credit s l (Q : LResult (Scanner * bool) -> log -> Prop) :
  budgeted [] credit s l ->
  (forall l', budgeted [] credit s l' -> on_time l' -> Q (Ok (s, false)) l') ->
  (forall l', fine credit (Ok (mark_incomplete true s)) l' -> Q (Ok (mark_incomplete true s, true)) l') ->
  os_wp (stopped ask limits s) Q l.
Proof.
  intros Hb Hgo Hstop. unfold stopped. ask_step.
  eapply os_wp_mono; [apply (interrupted_on_time (budgeted [] credit s)); [apply budgeted_plain|done]|].
  intros r l' (Hb' & b & -> & Ht). ask_step. destruct (b || exhausted limits s) eqn:Hx; [apply Hstop; by eapply fine_same|].
  apply orb_false_iff in Hx as [-> _]. by apply Hgo; [|apply Ht].
Qed.

(** *** A file *)
Lemma scan_text_fine path text credit s l files :
  budgeted [] credit s l -> charged limits files [path_key path] s l -> path_key path ∈ seen_files s ->
  Event (ReadToEnd path) (Ok text) ∈ l -> zlen text <= max_file_bytes limits ->
  zlen text + total_bytes s <= max_total_bytes limits -> is_text text = true ->
  os_wp (scan_text ask limits path text (add_bytes (zlen text) s)) (fine credit) l.
Proof.
  intros Hb Hch Hseen Hin Hfile Htot Htext. unfold scan_text. ask_step.
  set (P := fun l' => budgeted [] credit s l' /\ charged limits files [path_key path] s l' /\ Event (ReadToEnd path) (Ok text) ∈ l').
  assert (HP : closed_under (@plain) P).
  { intros A c a l' Hc (Hb' & Hch' & Hin'). split_and!; [by apply budgeted_plain|by apply charged_event|by right]. }
  eapply os_wp_mono; [apply (detect_wp (interrupted ask limits) P); [intros l' Hl'; by apply interrupted_wp|done]|].
  intros r l' (([Hbo Hop He _] & [[Hr Hn Ht Hs Hf] Hk Hfr Hby] & Hin') & ds & unfinished & -> & Hd & _). ask_step.
  rewrite (locate_map path text 0 1 ds); [|done|by apply Forall_forall; lia|apply Hd].
  eexists. split; [done|]. split; [done..|]. exists ((path, text) :: files).
  assert (Hsum : total_bytes (add_bytes (zlen text) s) = zlen text + total_bytes s).
  { cbn. unfold saturating_add. pose proof (zlen_nonneg text). lia. }
  split; [split| | |].
  - by apply Forall_cons.
  - apply NoDup_cons. split; [|done]. apply Hfr. by left.
  - cbn [sum_bytes foldr snd]. fold (sum_bytes files). by rewrite Hby.
  - cbn [report files_scanned mark_incomplete set_findings with_report count_scanned add_bytes].
    cbn [List.filter snd]. rewrite Htext. cbn [length]. by rewrite Hs.
  - cbn [report findings set_findings mark_incomplete with_report count_scanned add_bytes]. apply Forall_app. split.
    + eapply Forall_impl; [exact Hf|]. intros x (f & d & Hff & Hdd & ->). exists f, d. split_and!; [by right|done..].
    + apply Forall_map, Forall_forall. intros d Hdin. exists (path, text), d. split_and!; [by left| |done].
      destruct Hd as [_ _ _ Hall]. rewrite Forall_forall in Hall. by apply Hall.
  - cbn. intros k Hk'. apply elem_of_cons in Hk' as [->|Hk']; [done|by apply Hk].
  - by intros k Hk'%not_elem_of_nil.
  - cbn [sum_bytes foldr snd]. fold (sum_bytes files). rewrite Hby. by rewrite <- Hsum.
Qed.
Lemma scan_bytes_fine path b credit s l :
  budgeted [path_key path] credit s l -> path_key path ∈ seen_files s ->
  Event (ReadToEnd path) (Ok b) ∈ l -> zlen b <= max_file_bytes limits ->
  zlen b + total_bytes s <= max_total_bytes limits ->
  os_wp (scan_bytes ask limits path b s) (fine credit) l.
Proof.
  intros Hb Hseen Hin Hfile Htot. pose proof Hb as [Hbo Hop He (files & Hch)].
  assert (Hb' : budgeted [] credit s l).
  { eapply budgeted_same; [done..|]. by intros k Hk%not_elem_of_nil. }
  unfold scan_bytes. destruct (is_text b) eqn:Htext.
  - pose proof Htext as [Hz Hu]%andb_true_iff. apply negb_true_iff in Hz. rewrite Hz, Hu. by apply scan_text_fine with files.
  - assert (Hskip : fine credit (Ok (skip (add_bytes (zlen b) s))) l).
    { eexists. split; [done|]. split; [done..|]. exists ((path, b) :: files). destruct Hch as [[Hr Hn Ht Hs Hf] Hk Hfr Hby].
      assert (Hsum : total_bytes (add_bytes (zlen b) s) = zlen b + total_bytes s).
      { cbn. unfold saturating_add. pose proof (zlen_nonneg b). lia. }
      split; [split| | |].
      - by apply Forall_cons.
      - apply NoDup_cons. split; [|done]. apply Hfr. by left.
      - cbn [sum_bytes foldr snd]. fold (sum_bytes files). by rewrite Hby.
      - cbn [List.filter snd]. by rewrite Htext.
      - eapply Forall_impl; [exact Hf|]. intros x (f & d & Hff & Hdd & ->). exists f, d. split_and!; [by right|done..].
      - cbn. intros k Hk'. apply elem_of_cons in Hk' as [->|Hk']; [done|by apply Hk].
      - by intros k Hk'%not_elem_of_nil.
      - cbn [sum_bytes foldr snd]. fold (sum_bytes files). rewrite Hby. by rewrite <- Hsum. }
    apply andb_false_iff in Htext as [Hz%negb_false_iff|Hu].
    + rewrite Hz. by ask_step.
    + rewrite Hu. case_bool_decide; by ask_step.
Qed.
Lemma read_file_fine path credit s l :
  budgeted [path_key path] credit s l -> path_key path ∈ seen_files s ->
  (exists older, l = Event (OpenRegular path) (Ok true) :: older) ->
  os_wp (read_file ask limits path s) (fine credit) l.
Proof.
  intros Hb Hseen Hopen. unfold read_file. ask_step. apply os_wp_perform. intros answer _. cbv beta iota.
  apply (budgeted_event limits roots _ _ s l (ReadToEnd path) answer Hopen) in Hb.
  cbn [is_operation Z.of_nat] in Hb. rewrite Z.add_0_r in Hb.
  destruct answer as [content|]; [|ask_step; by eapply fine_same].
  set (cap := Z.min _ _). destruct (Z.ltb_spec cap (zlen (take (Z.to_nat (saturating_add u64_max cap 1)) content))) as [|Hle];
    [ask_step; by eapply fine_same|].
  assert (Ht : 0 <= total_bytes s <= max_total_bytes limits).
  { destruct Hb as [_ _ _ (files & [[_ _ Ht _ _] _ _ Hby])]. rewrite <- Hby. split; [|done].
    clear. induction files as [|f files IH]; cbn; [lia|]. pose proof (zlen_nonneg f.2). unfold sum_bytes in IH. lia. }
  assert (Hcap : 0 <= cap < u64_max) by (unfold cap, saturating_sub; lia).
  assert (Hall : take (Z.to_nat (saturating_add u64_max cap 1)) content = content).
  { apply take_ge. unfold saturating_add in *. unfold zlen in Hle. rewrite length_take in Hle. lia. }
  rewrite Hall in *. apply scan_bytes_fine; [done|done|by left|..]; unfold cap, saturating_sub in Hle; lia.
Qed.
Lemma scan_file_fine path credit s l :
  budgeted [] credit s l -> on_time l -> os_wp (scan_file ask limits path s) (fine (credit + 1)) l.
Proof.
  intros Hb Htime. apply (budgeted_more _ _ _ _ (credit + 1)) in Hb as Hb1; [|lia].
  unfold scan_file. case_bool_decide as Hk; [ask_step; by eapply fine_same|].
  destruct (Nat.leb_spec (max_files limits) (files_scanned (report (see_file path s)))) as [|_].
  { ask_step. eapply fine_same; [done..|]. cbn. intros k Hin. by right. }
  ask_step. apply os_wp_perform. intros answer _. cbv beta iota.
  assert (Hb2 : budgeted [path_key path] credit (see_file path s) (Event (SymlinkMetadata path) answer :: l)).
  { apply budgeted_plain; [done|]. eapply budgeted_same; [exact Hb|done..| |].
    - cbn. intros k Hin. by right.
    - intros k ->%list_elem_of_singleton. by right. }
  apply (budgeted_more _ _ _ _ (credit + 1)) in Hb2 as Hb3; [|lia].
  destruct answer as [m|]; [|ask_step; by eapply fine_same].
  case_bool_decide as Hreg; cbn [negb]; [|ask_step; by eapply fine_same].
  destruct (too_large limits (meta_length m) (see_file path s)) eqn:Hlarge; [ask_step; by eapply fine_same|].
  unfold too_large in Hlarge. apply orb_false_iff in Hlarge as [Hfile%Z.ltb_ge Htot%Z.ltb_ge].
  unfold open_file. ask_step. apply os_wp_perform. intros answer _. cbv beta iota.
  assert (Hb4 : budgeted [path_key path] (credit + 1) (see_file path s)
    (Event (OpenRegular path) answer :: Event (SymlinkMetadata path) (Ok m) :: l)).
  { apply (budgeted_event limits roots _ credit _ _ (OpenRegular path) answer); [|done]. split; [done|].
    exists m, l. split_and!; [done|done|]. unfold saturating_add in Htot.
    assert (0 <= total_bytes (see_file path s)); [|lia].
    destruct Hb2 as [_ _ _ (files & [_ _ _ <-])]. clear. induction files as [|f files IH]; cbn; [lia|].
    pose proof (zlen_nonneg f.2). unfold sum_bytes in IH. lia. }
  destruct answer as [[]|].
  - apply read_file_fine; [done|by left|by eexists].
  - ask_step. by eapply fine_same.
  - ask_step. by eapply fine_same.
Qed.

(** *** Directories *)
Lemma walk_entries_fine (walk : string -> Scanner -> Asks scan_call Scanner) directory entries :
  (forall name credit s l, budgeted [] credit s l -> on_time l ->
     os_wp (walk (join directory name) s) (fine (credit + 1)) l) ->
  forall credit s l, budgeted [] credit s l -> os_wp (walk_entries ask limits walk directory entries s) (fine credit) l.
Proof.
  intros Hwalk. induction entries as [|entry entries IH]; intros credit s l Hb; cbn [walk_entries]; [by ask_step; eapply fine_same|].
  ask_step. eapply stopped_on_time; [exact Hb| |]; clear Hb l; intros l Hb; cbv beta iota.
  2: { by ask_step. }
  intros Htime. destruct (Nat.leb_spec (max_entries limits) (entries_seen s)) as [|Hlt]; [ask_step; by eapply fine_same|].
  assert (Hc : budgeted [] (credit - 1) (count_entry s) l).
  { destruct Hb as [Hbo Hop He (files & [Ha Hse Hfr Hby])]. split; [done|cbn; lia|cbn; lia|]. exists files. by split. }
  assert (Hc' : budgeted [] credit (count_entry s) l) by (by eapply budgeted_more; [|exact Hc]; lia).
  assert (Hone : forall m : Asks scan_call Scanner,
    os_wp m (fine credit) l ->
    os_wp (m ≫= walk_entries ask limits walk directory entries) (fine credit) l).
  { intros m Hm. ask_step. eapply os_wp_mono; [exact Hm|]. intros r l' (s' & -> & Hb'). by apply IH. }
  apply Hone. destruct entry as [[name [kind|]]|]; [|ask_step; by eapply fine_same..].
  destruct kind.
  - replace credit with (credit - 1 + 1) by lia. by apply scan_file_fine.
  - destruct (ignored_directory name); [ask_step; by eapply fine_same|].
    replace credit with (credit - 1 + 1) by lia. by apply Hwalk.
  - ask_step. by eapply fine_same.
  - ask_step. by eapply fine_same.
Qed.
Lemma walk_fine fuel root names directory credit s l :
  (max_depth limits + 2 <= fuel + length names)%nat -> (length names <= S (max_depth limits))%nat ->
  root ∈ roots -> directory = foldl join root names -> budgeted [] credit s l ->
  os_wp (walk ask limits fuel (length names) directory s) (fine (credit + 1)) l.
Proof.
  revert names directory credit s l. induction fuel as [|fuel IH]; intros names directory credit s l Hf Hd Hroot -> Hb; [lia|].
  apply (budgeted_more _ _ _ _ (credit + 1)) in Hb as Hb1; [|lia].
  cbn [walk]. case_bool_decide as Hk; [ask_step; by eapply fine_same|].
  ask_step. eapply stopped_on_time; [exact Hb| |]; clear Hb Hb1 l; intros l Hb; cbv beta iota.
  2: { ask_step. eapply fine_more; [|exact Hb]. lia. }
  intros Htime. apply (budgeted_more _ _ _ _ (credit + 1)) in Hb as Hb1; [|lia].
  destruct (Nat.ltb_spec (max_depth limits) (length names)) as [|Hdepth]; [ask_step; by eapply fine_same|].
  ask_step. apply os_wp_perform. intros m _. cbv beta iota.
  apply (budgeted_plain limits roots _ credit s _ (SymlinkMetadata (foldl join root names)) m l I) in Hb.
  apply (budgeted_plain limits roots _ (credit + 1) s _ (SymlinkMetadata (foldl join root names)) m l I) in Hb1.
  destruct (match m with Ok m => _ | Err _ => false end); [|ask_step; by eapply fine_same].
  ask_step. apply os_wp_perform. intros entries _. cbv beta iota.
  assert (Hb2 : budgeted [] (credit + 1) (see_directory (foldl join root names) s)
    (Event (ReadDir (foldl join root names)) entries :: Event (SymlinkMetadata (foldl join root names)) m :: l)).
  { apply (budgeted_event limits roots _ credit _ _ (ReadDir (foldl join root names)) entries).
    - split; [done|]. by exists root, names.
    - eapply budgeted_same; [exact Hb|done..|]. intros k Hk'. by left. }
  destruct entries as [entries|]; [|ask_step; by eapply fine_same].
  apply walk_entries_fine; [|done]. intros name credit' s' l' Hb' _.
  replace (S (length names)) with (length (names ++ [name])) by (rewrite length_app; cbn; lia).
  apply IH; [rewrite length_app; cbn; lia|rewrite length_app; cbn; lia|done| |done].
  by rewrite foldl_app.
Qed.

(** *** Roots *)
Lemma safe_candidate_fine credit s path parts safe l (Q : LResult (string * bool) -> log -> Prop) :
  budgeted [] credit s l -> on_time l -> (forall p b l', budgeted [] credit s l' -> on_time l' -> Q (Ok (p, b)) l') ->
  os_wp (safe_candidate ask path parts safe) Q l.
Proof.
  revert path l. induction parts as [|part parts IH]; intros path l Hb Ht HQ; cbn [safe_candidate]; [by ask_step; apply HQ|].
  ask_step. apply os_wp_perform. intros m _. cbv beta iota.
  apply (budgeted_plain limits roots _ credit s _ (SymlinkMetadata (join path part)) m l I) in Hb.
  destruct (match m with Ok m => _ | Err _ => false end); [by ask_step; apply HQ|by apply IH].
Qed.
Lemma scan_priority_fine credit root relative s l :
  budgeted [] credit s l -> on_time l -> os_wp (scan_priority ask limits root relative s) (fine (credit + 1)) l.
Proof.
  intros Hb Ht. unfold scan_priority. ask_step. apply os_wp_perform. intros m _. cbv beta iota zeta.
  apply (budgeted_plain limits roots _ credit s _ (SymlinkMetadata root) m l I) in Hb.
  ask_step. apply (safe_candidate_fine credit s); [done|done|]. clear Hb Ht l. intros candidate safe l Hb Ht. cbv beta iota.
  assert (Hstay : forall l, budgeted [] credit s l -> fine (credit + 1) (Ok s) l).
  { intros l' Hb'. exists s. split; [done|]. eapply budgeted_more; [|done]. lia. }
  destruct safe; [|by ask_step; apply Hstay]. ask_step. apply os_wp_perform. intros regular _. cbv beta iota.
  apply (budgeted_plain limits roots _ credit s _ (IsRegularFile candidate) regular l I) in Hb.
  destruct regular; [by apply scan_file_fine|by ask_step; apply Hstay].
Qed.
Lemma priority_loop_fine root ps credit s l :
  budgeted [] credit s l -> os_wp (priority_loop ask limits root ps s) (fine (credit + Z.of_nat (length ps))) l.
Proof.
  revert credit s l. induction ps as [|p ps IH]; intros credit s l Hb; cbn [priority_loop].
  { ask_step. cbn. rewrite Z.add_0_r. by eapply fine_same. }
  ask_step. eapply stopped_on_time; [exact Hb| |]; clear Hb l; intros l Hb; cbv beta iota.
  2: { ask_step. eapply fine_more; [|exact Hb]. lia. }
  intros Htime. ask_step. eapply os_wp_mono; [by apply scan_priority_fine|]. intros r l' (s' & -> & Hb').
  eapply os_wp_mono; [by apply IH|]. intros r l2. apply fine_more. cbn [length]. lia.
Qed.

(** A loop over the roots, each of which costs [cost]. *)
Lemma priority_roots_fine rs credit s l :
  budgeted [] credit s l ->
  os_wp (priority_roots ask limits rs s) (fine (credit + Z.of_nat (length rs * length PRIORITY))) l.
Proof.
  revert credit s l. induction rs as [|root rs IH]; intros credit s l Hb; cbn [priority_roots].
  { ask_step. cbn. rewrite Z.add_0_r. by eapply fine_same. }
  ask_step. eapply (os_wp_mono _ (fine (credit + Z.of_nat (length PRIORITY)))).
  - destruct (is_absolute root); [by apply priority_loop_fine|]. ask_step. eapply fine_more; [|by eapply fine_same]. lia.
  - intros r l' (s' & -> & Hb'). eapply os_wp_mono; [by apply IH|]. intros r l2. apply fine_more. cbn [length]. lia.
Qed.
Lemma walk_roots_fine rs credit s l :
  (forall root, root ∈ rs -> root ∈ roots) -> budgeted [] credit s l ->
  os_wp (walk_roots ask limits rs s) (fine (credit + Z.of_nat (length rs))) l.
Proof.
  intros Hrs. revert credit s l. induction rs as [|root rs IH]; intros credit s l Hb; cbn [walk_roots].
  { ask_step. cbn. rewrite Z.add_0_r. by eapply fine_same. }
  ask_step. eapply (os_wp_mono _ (fine (credit + 1))).
  - destruct (is_absolute root).
    + apply (walk_fine (walk_fuel limits) root [] root); [unfold walk_fuel; cbn; lia|cbn; lia|apply Hrs; by left|done|done].
    + ask_step. eapply fine_more; [|by eapply fine_same]. lia.
  - intros r l' (s' & -> & Hb'). eapply os_wp_mono; [apply IH; [|done]; intros root' Hr; apply Hrs; by right|].
    intros r l2. apply fine_more. cbn [length]. lia.
Qed.
Lemma distinct_roots_sub rs extra root : root ∈ distinct_roots rs extra -> root ∈ rs ++ extra.
Proof.
  revert rs. induction extra as [|x extra IH]; intros rs Hr; cbn [distinct_roots] in Hr; [by rewrite app_nil_r|].
  apply IH in Hr. case_bool_decide; set_solver.
Qed.
Lemma distinct_roots_length rs extra : (length (distinct_roots rs extra) <= length rs + length extra)%nat.
Proof.
  revert rs. induction extra as [|x extra IH]; intros rs; cbn [distinct_roots length]; [lia|].
  etransitivity; [apply IH|]. case_bool_decide; rewrite ?length_app; cbn; lia.
Qed.
Lemma scan_user_files_fine home extra :
  (forall root, root ∈ home :: extra -> root ∈ roots) ->
  os_wp (scan_user_files ask limits home extra) (fun r l =>
    bounded limits roots l /\
    (operations l <= max_entries limits + length (home :: extra) * (1 + length PRIORITY))%nat /\
    forall rep, r = Ok (Some rep) -> exists files, accounted limits files rep l) [].
Proof.
  intros Hroots. unfold scan_user_files. ask_step. destruct (is_absolute home) eqn:Habs.
  2: { do 2 ask_step. split_and!; [done|cbn; lia|done]. }
  ask_step. apply os_wp_perform. intros m _. cbv beta iota. ask_step.
  destruct (match m with Ok m => _ | Err _ => false end).
  2: { ask_step. split_and!; [done|cbn; lia|done]. }
  set (rs := distinct_roots [home] extra). set (l1 := [Event (SymlinkMetadata home) m]).
  assert (Hrs : forall root, root ∈ rs -> root ∈ roots) by (intros root Hr%distinct_roots_sub; by apply Hroots).
  assert (Hlen : (length rs <= length (home :: extra))%nat) by (pose proof (distinct_roots_length [home] extra); cbn; done).
  assert (Hb : budgeted [] 0 (set_roots rs new_scanner) l1).
  { split; [by split|done|cbn; lia|]. exists []. split; [split; cbn|..]; try done; try lia; [constructor|by intros k Hk%not_elem_of_nil..]. }
  ask_step. eapply os_wp_mono; [by apply (priority_roots_fine rs)|]. intros r l2 (s2 & -> & Hb2).
  ask_step. eapply os_wp_mono; [by apply walk_roots_fine|]. intros r l3 (s3 & -> & [Hbo Hop He (files & Hf)]). ask_step.
  split; [done|]. split.
  - set (p := length PRIORITY) in *. set (n := length (home :: extra)) in *. nia.
  - intros rep [= <-]. exists files. apply Hf.
Qed.
End operations.

Section properties.
Context (ask : forall A, scan_call A -> list (call_event scan_call) -> A).
Context `{DetectionCrates}.

(** C33. The scan stays within every one of its limits, whatever the file system, the clock and
    the cancellation flag answer, and it ends. Each file it opens was seen just before as a
    regular file, no symbolic link, of at most [max_file_bytes] and [max_total_bytes]; each
    directory it lists is at most [max_depth] names below a root; before each listing and
    each opening it looked at the flag and at the clock, which showed less than
    [max_duration]; the listings and openings together are at most [max_entries], besides
    one listing and the credential files of each root; no file is read twice. The files whose
    content it looked at have at most [max_file_bytes] each and [max_total_bytes] together;
    it scanned the text files among them, at most [max_files], and reports at most
    [max_findings] findings, each a candidate in one of them, at the line where it starts. *)
Theorem scan_stays_in_bounds limits home extra :
  0 <= max_total_bytes limits < u64_max -> 0 <= max_file_bytes limits < u64_max ->
  os_wp (scan_user_files ask limits home extra)
    (fun r l => careful l /\ bounded limits (home :: extra) l /\
       (operations l <= max_entries limits + length (home :: extra) * (1 + length PRIORITY))%nat /\
       exists o, r = Ok o /\ forall rep, o = Some rep ->
         (files_scanned rep <= max_files limits)%nat /\ (length (findings rep) <= max_findings limits)%nat /\
         exists files, accounted limits files rep l) [].
Proof.
  intros Ht Hf. pose proof (scan_user_files_wp ask limits (conj Ht Hf) home extra) as Hr.
  pose proof (scan_user_files_fine ask limits (conj Ht Hf) (home :: extra) home extra (fun _ Hin => Hin)) as Hb.
  unfold os_wp in *. destruct (scan_user_files ask limits home extra []) as [[r|] l]; [|done].
  destruct Hr as (Hc & o & -> & Ho), Hb as (Hb & Hop & Hfiles). split_and!; [done..|]. exists o. split; [done|].
  intros rep ->. destruct (Ho rep eq_refl) as (? & ? & _). split_and!; [done..|by apply Hfiles].
Qed.
End properties.

Lemma scan_stays_in_bounds_witness :
  os_wp (scan_user_files (H := example_crates) example_scan_ask default_limits "/home/u" [])
    (fun r l => careful l /\ @bounded default_limits ["/home/u"] l /\
       (operations l <= max_entries default_limits + length ["/home/u"] * (1 + length PRIORITY))%nat /\
       exists o, r = Ok o /\ forall rep, o = Some rep ->
         (files_scanned rep <= max_files default_limits)%nat /\ (length (findings rep) <= max_findings default_limits)%nat /\
         exists files, @accounted example_crates default_limits files rep l) [].
Proof. apply (@scan_stays_in_bounds example_scan_ask example_crates); by vm_compute. Defined.
