(* ===== verification/Lifetime.v ===== *)
(** * Lifetime: [crates/ladon-app/src/approval_lifetime.rs]

    How long an approval lasts: the choices of the approval window and the times of
    day that the user types.  A [SystemTime] is its nanoseconds since the epoch.
    [localtime_r] and [mktime] are the C library's: parameters. *)

From S2P Require Import Prelude Errors Time Utf8 Model Grants Broker Approval.
Local Open Scope Z_scope.

(** [libc::tm]. *)
Record tm := {
  tm_sec : Z; tm_min : Z; tm_hour : Z; tm_mday : Z; tm_mon : Z; tm_year : Z; tm_isdst : Z;
}.
Class LocalTime := {
  localtime : Z -> option tm;
  mktime : tm -> Z * tm;
}.
Definition set_time (day hour minute : Z) (t : tm) : tm :=
  {| tm_sec := 0; tm_min := minute; tm_hour := hour; tm_mday := tm_mday t + day; tm_mon := tm_mon t;
     tm_year := tm_year t; tm_isdst := -1 |}.

(** ** The choices *)
Inductive ApprovalLifetime : Set := ThirtyMinutes | EndOfDay | SessionLifetime.
Definition label (l : ApprovalLifetime) : string :=
  match l with
  | ThirtyMinutes => "30 minutes"
  | EndOfDay => "Until end of day"
  | SessionLifetime => "Until session ends"
  end.
Inductive UnattendedLifetime : Set := UnattendedThirtyMinutes | TwoHours | EightHours | TwelveHours | Custom.
Definition deadline_at (l : UnattendedLifetime) (now : SystemTime) : LResult SystemTime :=
  seconds ← match l with
            | UnattendedThirtyMinutes => Ok (30 * 60)
            | TwoHours => Ok (2 * 3600)
            | EightHours => Ok (8 * 3600)
            | TwelveHours => Ok (12 * 3600)
            | Custom => Err InvalidRequest
            end;
  ok_or (time_checked_add now (from_secs seconds)) InvalidRequest.

Section lifetime.
Context `{LocalTime}.

(** [local_time]; [as_secs] of the time since the epoch fits a [time_t]. *)
Definition seconds_since_epoch (now : SystemTime) : LResult Z :=
  elapsed ← ok_or (duration_since now 0) InvalidRequest;
  let seconds := elapsed / 10 ^ 9 in
  reject_if (2 ^ 63 - 1 <? seconds) InvalidRequest;;
  Ok seconds.
Definition local_time (now : SystemTime) : LResult tm :=
  timestamp ← seconds_since_epoch now; ok_or (localtime timestamp) InvalidRequest.

(** [local_deadline_at]: a time of day, today or tomorrow. *)
Definition two_digits (a b : byte) : option Z :=
  if in_range 0x30 0x39 a && in_range 0x30 0x39 b then Some ((bz a - 0x30) * 10 + (bz b - 0x30)) else None.
Definition time_of_day (value : string) : LResult (Z * Z) :=
  match bytes_of value with
  | [h1; h2; c; m1; m2] =>
    reject_if (negb (bool_decide (c = ":"%char))) InvalidRequest;;
    hour ← ok_or (two_digits h1 h2) InvalidRequest;
    minute ← ok_or (two_digits m1 m2) InvalidRequest;
    reject_if ((24 <=? hour) || (60 <=? minute)) InvalidRequest;;
    Ok (hour, minute)
  | _ => Err InvalidRequest
  end.
Definition DAY : Z := 24 * 3600.
Fixpoint search_days (tries : nat) (day hour minute : Z) (local : tm) (now : SystemTime) : LResult SystemTime :=
  match tries with
  | O => Err InvalidRequest
  | S tries =>
    let '(timestamp, candidate) := mktime (set_time day hour minute local) in
    reject_if (negb (tm_hour candidate =? hour) || negb (tm_min candidate =? minute)) InvalidRequest;;
    reject_if (timestamp <? 0) InvalidRequest;;
    deadline ← ok_or (time_checked_add 0 (from_secs timestamp)) InvalidRequest;
    if (0 <? deadline - now) && (deadline - now <=? from_secs DAY) then Ok deadline
    else search_days tries (day + 1) hour minute local now
  end.
Definition local_deadline_at (value : string) (now : SystemTime) : LResult SystemTime :=
  '(hour, minute) ← time_of_day value;
  local ← local_time now;
  search_days 2 0 hour minute local now.

(** [until_local_day_end_at] and [local_day_end]. *)
Definition until_local_day_end_at (now : SystemTime) : LResult Duration :=
  elapsed ← ok_or (duration_since now 0) InvalidRequest;
  local ← local_time now;
  let '(midnight, _) := mktime (set_time 1 0 0 local) in
  reject_if (midnight <? 0) InvalidRequest;;
  ok_or (if elapsed <=? from_secs midnight then Some (from_secs midnight - elapsed) else None) InvalidRequest.
Definition local_day_end (now : SystemTime) : LResult SystemTime :=
  remaining ← until_local_day_end_at now; Ok (now + remaining).

(** [format_local_time]: [{:04}] counts the sign. *)
Definition padded (width : nat) (n : Z) : bytes :=
  let digits := decimal (Z.abs n) in
  let sign := if n <? 0 then bytes_of "-" else [] in
  sign ++ replicate (width - length sign - length digits) "0"%char ++ digits.
Definition format_local_time (now : SystemTime) : string :=
  match local_time now with
  | Ok t => string_of (padded 4 (tm_year t + 1900) ++ bytes_of "-" ++ padded 2 (tm_mon t + 1) ++ bytes_of "-"
      ++ padded 2 (tm_mday t) ++ bytes_of " " ++ padded 2 (tm_hour t) ++ bytes_of ":" ++ padded 2 (tm_min t)
      ++ bytes_of ":" ++ padded 2 (tm_sec t) ++ bytes_of " local")
  | Err _ => "Unavailable"
  end.
End lifetime.

(** [ApprovalLifetime::approve]. *)
Section approve.
Context {C : Type} `{MonotonicClock C} `{LocalTime}.
Definition approve (l : ApprovalLifetime) (cancelled : gset Token) (id : Uuid) (now : SystemTime) : M (C := C) unit :=
  match l with
  | ThirtyMinutes => approve_for cancelled id (from_secs (30 * 60))
  | EndOfDay => deadline ← lift (local_day_end now); approve_until cancelled id deadline
  | SessionLifetime => approve_session cancelled id
  end.
End approve.

(** ** What a deadline promises *)

(** A zone with a constant offset from UTC: the day of an instant starts a whole number of
    days from the epoch, and [mktime] finds the times of that day and of the next. *)
Definition day_start (offset t : Z) : Z := t - (t + offset) mod DAY.
Class FixedZone `{LocalTime} (offset : Z) := {
  localtime_defined t : 0 <= t < 2 ^ 62 -> is_Some (localtime t);
  mktime_finds t local k h m : 0 <= t < 2 ^ 62 -> localtime t = Some local -> 0 <= k <= 1 -> 0 <= h < 24 -> 0 <= m < 60 ->
    exists found, mktime (set_time k h m local) = (day_start offset t + k * DAY + h * 3600 + m * 60, found) /\
      tm_hour found = h /\ tm_min found = m;
}.

Section deadlines.
Context `{LocalTime}.

Lemma in_range_iff lo hi x : in_range lo hi x = true <-> lo <= bz x <= hi.
Proof. unfold in_range. by rewrite andb_true_iff, !Z.leb_le. Qed.
Lemma two_digits_Some a b n : two_digits a b = Some n -> 0 <= n < 100.
Proof.
  unfold two_digits. destruct (in_range 0x30 0x39 a && in_range 0x30 0x39 b) eqn:Hr; [|done]. intros [= <-].
  apply andb_true_iff in Hr as [Ha%in_range_iff Hb%in_range_iff]. lia.
Qed.
Lemma time_of_day_Ok value hour minute : time_of_day value = Ok (hour, minute) -> 0 <= hour < 24 /\ 0 <= minute < 60.
Proof.
  unfold time_of_day. intros Ht. destruct (bytes_of value) as [|h1 [|h2 [|c [|m1 [|m2 [|]]]]]]; try done.
  inv_ok. bool_hyps. repeat match goal with H : two_digits _ _ = Some _ |- _ => apply two_digits_Some in H end. lia.
Qed.
Lemma search_days_Ok tries day hour minute local now deadline :
  search_days tries day hour minute local now = Ok deadline ->
  0 < deadline - now <= from_secs DAY /\
  exists k timestamp found, mktime (set_time k hour minute local) = (timestamp, found) /\ tm_hour found = hour /\
    tm_min found = minute /\ deadline = from_secs timestamp.
Proof.
  revert day. induction tries as [|tries IH]; intros day; cbn [search_days]; [done|].
  destruct (mktime _) as [timestamp found] eqn:Hm. intros Hs.
  apply bind_Ok in Hs as (? & Hr1%reject_if_Ok & Hs). apply bind_Ok in Hs as (? & Hr2%reject_if_Ok & Hs).
  apply bind_Ok in Hs as (d & Hd%ok_or_Ok & Hs). bool_hyps.
  destruct (_ && _) eqn:Hin; [|by apply IH in Hs]. injection Hs as <-. bool_hyps. split; [lia|].
  exists day, timestamp, found. split_and!; [done|lia|lia|].
  unfold time_checked_add in Hd. destruct (_ <=? _); [|done]. by injection Hd as <-.
Qed.

(** A deadline that the user typed is later than now, at most 24 hours away, and at the
    typed time of day on the wall clock, whatever the time zone does. *)
Theorem typed_deadline_is_close value now deadline :
  local_deadline_at value now = Ok deadline ->
  0 < deadline - now <= from_secs DAY /\
  exists hour minute found timestamp, time_of_day value = Ok (hour, minute) /\ deadline = from_secs timestamp /\
    tm_hour found = hour /\ tm_min found = minute /\ exists asked, mktime asked = (timestamp, found).
Proof.
  unfold local_deadline_at. intros Hd. apply bind_Ok in Hd as ([hour minute] & Ht & Hd). apply bind_Ok in Hd as (local & _ & Hd).
  apply search_days_Ok in Hd as [Hin (k & timestamp & found & Hm & Hh & Hmin & ->)]. split; [done|].
  exists hour, minute, found, timestamp. split_and!; [done..|]. by eexists.
Qed.

Context (offset : Z) `{!FixedZone offset}.
Lemma day_start_spec t : day_start offset t <= t < day_start offset t + DAY.
Proof. unfold day_start. pose proof (Z.mod_pos_bound (t + offset) DAY ltac:(unfold DAY; lia)). lia. Qed.
Lemma local_time_defined now :
  0 <= now < from_secs (2 ^ 62) ->
  exists local, local_time now = Ok local /\ localtime (now / 10 ^ 9) = Some local /\ 0 <= now / 10 ^ 9 < 2 ^ 62.
Proof.
  intros Hn. unfold from_secs in Hn.
  assert (Ht : 0 <= now / 10 ^ 9 < 2 ^ 62) by (split; [apply Z.div_pos; lia|apply Z.div_lt_upper_bound; lia]).
  destruct (localtime_defined _ Ht) as [local Hl]. exists local. split_and!; [|done|lia..].
  unfold local_time, seconds_since_epoch, duration_since. rewrite (proj2 (Z.leb_le 0 now)) by lia. cbn [ok_or mbind result_bind].
  rewrite Z.sub_0_r, (proj2 (Z.ltb_ge (2 ^ 63 - 1) (now / 10 ^ 9))) by lia.
  change (ok_or (localtime (now / 10 ^ 9)) InvalidRequest = Ok local). by rewrite Hl.
Qed.

Lemma search_days_step tries k hour minute local now timestamp found :
  mktime (set_time k hour minute local) = (timestamp, found) -> tm_hour found = hour -> tm_min found = minute ->
  0 <= timestamp < 2 ^ 63 ->
  search_days (S tries) k hour minute local now =
    if (0 <? from_secs timestamp - now) && (from_secs timestamp - now <=? from_secs DAY) then Ok (from_secs timestamp)
    else search_days tries (k + 1) hour minute local now.
Proof.
  intros Hm <- <- Ht. cbn [search_days]. rewrite Hm, !Z.eqb_refl, (proj2 (Z.ltb_ge timestamp 0)) by lia.
  unfold time_checked_add. rewrite Z.add_0_l. unfold from_secs. rewrite Z.div_mul by lia. by rewrite (proj2 (Z.leb_le timestamp _)) by lia.
Qed.

(** C37. Where the zone has a constant offset, every time of day that is written HH:MM is
    accepted, and the deadline is the next instant with that wall-clock time: today if it is
    still to come, else tomorrow. *)
Theorem typed_deadline_is_next value now hour minute :
  time_of_day value = Ok (hour, minute) -> from_secs DAY <= now < from_secs (2 ^ 60) ->
  let today := from_secs (day_start offset (now / 10 ^ 9) + hour * 3600 + minute * 60) in
  local_deadline_at value now = Ok (if now <? today then today else today + from_secs DAY).
Proof.
  intros Ht Hn today. pose proof (time_of_day_Ok _ _ _ Ht) as [Hh Hm]. unfold local_deadline_at. rewrite Ht. cbn [mbind].
  destruct (local_time_defined now) as (local & Hl & Hlocal & Hb); [unfold from_secs, DAY in *; lia|].
  rewrite Hl. cbn [mbind result_bind]. clear Hl Ht.
  assert (Hmk : forall k, 0 <= k <= 1 -> exists found,
    mktime (set_time k hour minute local) = (day_start offset (now / 10 ^ 9) + k * DAY + hour * 3600 + minute * 60, found) /\
    tm_hour found = hour /\ tm_min found = minute) by (intros k Hk; by apply mktime_finds).
  pose proof (day_start_spec (now / 10 ^ 9)) as Hday. pose proof (Z.div_mod now (10 ^ 9) ltac:(lia)) as Hdiv.
  pose proof (Z.mod_pos_bound now (10 ^ 9) ltac:(lia)) as Hmod.
  set (start := day_start offset (now / 10 ^ 9)) in *. clearbody start.
  assert (Hday1 : 86400 <= now / 10 ^ 9 < 2 ^ 60).
  { unfold from_secs, DAY in Hn. split; [apply Z.div_le_lower_bound; lia|apply Z.div_lt_upper_bound; lia]. }
  destruct (Hmk 0 ltac:(lia)) as (f0 & Hf0 & Hh0 & Hm0), (Hmk 1 ltac:(lia)) as (f1 & Hf1 & Hh1 & Hm1).
  unfold today, from_secs, DAY in *. clear today Hmk Hlocal Hb.
  erewrite search_days_step by (done || lia). erewrite search_days_step by (done || lia). unfold from_secs, DAY.
  destruct (Z.ltb_spec now ((start + hour * 3600 + minute * 60) * 10 ^ 9)) as [Hlt|Hge].
  - rewrite (proj2 (Z.ltb_lt 0 _)) by lia. rewrite (proj2 (Z.leb_le _ _)) by lia. cbn [andb]. f_equal. lia.
  - rewrite (proj2 (Z.ltb_ge 0 _)) by lia. cbn [andb]. rewrite (proj2 (Z.ltb_lt 0 _)) by lia.
    rewrite (proj2 (Z.leb_le _ _)) by lia. cbn [andb]. f_equal. lia.
Qed.

(** Where the zone has a constant offset, the end of the day is the next midnight on the wall
    clock, more than now and at most 24 hours away. *)
Theorem day_end_is_midnight now :
  from_secs DAY <= now < from_secs (2 ^ 60) ->
  local_day_end now = Ok (from_secs (day_start offset (now / 10 ^ 9) + DAY)) /\
  now < from_secs (day_start offset (now / 10 ^ 9) + DAY) <= now + from_secs DAY.
Proof.
  intros Hn. unfold local_day_end, until_local_day_end_at.
  destruct (local_time_defined now) as (local & Hl & Hlocal & Hb); [unfold from_secs, DAY in *; lia|].
  destruct (mktime_finds _ _ 1 0 0 Hb Hlocal ltac:(lia) ltac:(lia) ltac:(lia)) as (found & Hm & _).
  pose proof (day_start_spec (now / 10 ^ 9)) as Hday. pose proof (Z.div_mod now (10 ^ 9) ltac:(lia)) as Hdiv.
  pose proof (Z.mod_pos_bound now (10 ^ 9) ltac:(lia)) as Hmod.
  set (start := day_start offset (now / 10 ^ 9)) in *. clearbody start. unfold from_secs, DAY in *.
  unfold duration_since. rewrite (proj2 (Z.leb_le 0 now)) by lia. cbn [ok_or mbind result_bind]. rewrite Hl. cbn [mbind result_bind].
  rewrite Hm, (proj2 (Z.ltb_ge _ 0)) by lia. cbn [reject_if mbind result_bind]. rewrite (proj2 (Z.leb_le _ _)) by lia.
  cbn [ok_or mbind result_bind]. split; [f_equal; lia|lia].
Qed.
End deadlines.

(** ** Examples: UTC, with days counted from the epoch *)
Definition utc : LocalTime := {|
  localtime t := Some {| tm_sec := t mod 60; tm_min := t / 60 mod 60; tm_hour := t / 3600 mod 24; tm_mday := t / DAY;
                         tm_mon := 0; tm_year := 70; tm_isdst := 0 |};
  mktime x := (tm_mday x * DAY + tm_hour x * 3600 + tm_min x * 60 + tm_sec x, x);
|}.
Lemma utc_fixed : @FixedZone utc 0.
Proof.
  split; [by eexists|]. intros t local k h m Ht [= <-] Hk Hh Hm. exists (set_time k h m {| tm_sec := t mod 60;
    tm_min := t / 60 mod 60; tm_hour := t / 3600 mod 24; tm_mday := t / DAY; tm_mon := 0; tm_year := 70; tm_isdst := 0 |}).
  split; [|by split]. unfold mktime, utc, set_time. cbn. f_equal. unfold day_start. rewrite (Z.add_0_r t).
  pose proof (Z.div_mod t DAY ltac:(unfold DAY; lia)). unfold DAY in *. lia.
Qed.
Lemma typed_deadline_is_close_witness :
  let now := from_secs 1800000000 in
  exists deadline, local_deadline_at (H := utc) "12:30" now = Ok deadline /\ 0 < deadline - now <= from_secs DAY.
Proof.
  eexists. split; [vm_compute; reflexivity|].
  eapply (@typed_deadline_is_close utc "12:30" (from_secs 1800000000)). vm_compute. reflexivity.
Defined.
Lemma typed_deadline_is_next_witness :
  local_deadline_at (H := utc) "06:30" (from_secs 1800000000) = Ok (from_secs (1799971200 + 6 * 3600 + 30 * 60 + DAY)).
Proof.
  rewrite (@typed_deadline_is_next utc 0 utc_fixed "06:30" (from_secs 1800000000) 6 30);
    [reflexivity|reflexivity|vm_compute; by split].
Defined.
Lemma day_end_is_midnight_witness : local_day_end (H := utc) (from_secs 1800000000) = Ok (from_secs (1799971200 + DAY)).
Proof.
  destruct (@day_end_is_midnight utc 0 utc_fixed (from_secs 1800000000)) as [-> _]; [vm_compute; by split|]. reflexivity.
Defined.
