(* ===== verification/Gui.v ===== *)
(** * Gui: programs of the user interface

    A program of the interface reads and changes the fields of its object and
    makes calls, like those of [Calls], of which nothing is assumed: a widget that
    is drawn is a call that answers what the user did with it in this frame.  Such
    a program has no errors and no loops of its own, so that it always ends. *)

From S2P Require Import Prelude Errors Calls.

Definition Gui (S : Type) (Call : Type -> Type) (A : Type) : Type :=
  S -> list (call_event Call) -> A * S * list (call_event Call).

Section gui.
Context {S : Type} {Call : Type -> Type}.
Abbreviation log := (list (call_event Call)) (only parsing).
Abbreviation Gui := (Gui S Call) (only parsing).
Context (ask : forall A, Call A -> log -> A).
Arguments ask {A}.

#[export] Instance gui_ret : MRet Gui := fun A a s l => (a, s, l).
#[export] Instance gui_bind : MBind Gui := fun A B f m s l => let '(a, s, l) := m s l in f a s l.
Definition gets {T} (f : S -> T) : Gui T := fun s l => (f s, s, l).
Definition modifies (f : S -> S) : Gui unit := fun s l => (tt, f s, l).
Definition gui_call {A} (c : Call A) : Gui A := fun s l => let a := ask c l in (a, s, Event c a :: l).

(** The [?] operator on an answer. *)
Definition try {A B} (m : Gui (LResult A)) (k : A -> Gui (LResult B)) : Gui (LResult B) :=
  r ← m; match r with Ok a => k a | Err e => mret (Err e) end.

(** A loop that keeps a value, and a widget that is drawn only sometimes. *)
Fixpoint gui_fold {A B} (f : A -> B -> Gui B) (l : list A) (b : B) : Gui B :=
  match l with [] => mret b | a :: l => b ← f a b; gui_fold f l b end.
Definition each {A} (f : A -> Gui unit) (l : list A) : Gui unit := gui_fold (fun a _ => f a) l tt.
Definition only_if (b : bool) (m : Gui bool) : Gui bool := if b then m else mret false.

(** ** What holds when the program has ended *)
Definition gui_wp {A} (m : Gui A) (Q : A -> S -> log -> Prop) (s : S) (l : log) : Prop :=
  let '(a, s', l') := m s l in Q a s' l'.

Lemma gui_wp_bind {A B} (m : Gui A) (k : A -> Gui B) Q s l :
  gui_wp m (fun a => gui_wp (k a) Q) s l -> gui_wp (m ≫= k) Q s l.
Proof. unfold gui_wp, mbind, gui_bind. by destruct (m s l) as [[a s'] l']. Qed.
Lemma gui_wp_ret {A} (a : A) (Q : A -> S -> log -> Prop) s l : Q a s l -> gui_wp (mret a) Q s l.
Proof. done. Qed.
Lemma gui_wp_gets {T} (f : S -> T) (Q : T -> S -> log -> Prop) s l : Q (f s) s l -> gui_wp (gets f) Q s l.
Proof. done. Qed.
Lemma gui_wp_modifies f (Q : unit -> S -> log -> Prop) s l : Q tt (f s) l -> gui_wp (modifies f) Q s l.
Proof. done. Qed.
Lemma gui_wp_call {A} (c : Call A) (Q : A -> S -> log -> Prop) s l :
  (forall a, a = ask c l -> Q a s (Event c a :: l)) -> gui_wp (gui_call c) Q s l.
Proof. intros Hq. by apply Hq. Qed.
Lemma gui_wp_mono {A} (m : Gui A) (Q Q' : A -> S -> log -> Prop) s l :
  gui_wp m Q s l -> (forall a s' l', Q a s' l' -> Q' a s' l') -> gui_wp m Q' s l.
Proof. unfold gui_wp. destruct (m s l) as [[a s'] l']. auto. Qed.
Lemma gui_wp_true {A} (m : Gui A) s l : gui_wp m (fun _ _ _ => True) s l.
Proof. unfold gui_wp. by destruct (m s l) as [[a s'] l']. Qed.
Lemma gui_wp_skip {A B} (m : Gui A) (k : A -> Gui B) Q s l :
  (forall a s' l', gui_wp (k a) Q s' l') -> gui_wp (m ≫= k) Q s l.
Proof. intros Hk. apply gui_wp_bind. eapply gui_wp_mono; [apply gui_wp_true|]. auto. Qed.
Lemma gui_wp_and {A} (m : Gui A) (Q Q' : A -> S -> log -> Prop) s l :
  gui_wp m Q s l -> gui_wp m Q' s l -> gui_wp m (fun a s' l' => Q a s' l' /\ Q' a s' l') s l.
Proof. unfold gui_wp. by destruct (m s l) as [[a s'] l']. Qed.
Lemma gui_wp_try {A B} (m : Gui (LResult A)) (k : A -> Gui (LResult B)) Q s l :
  gui_wp m (fun r => match r with Ok a => gui_wp (k a) Q | Err e => Q (Err e) end) s l -> gui_wp (try m k) Q s l.
Proof.
  intros Hm. apply gui_wp_bind. eapply gui_wp_mono; [exact Hm|]. intros [a|e] s' l'; [done|]. apply gui_wp_ret.
Qed.

(** ** What a program keeps *)
Definition gui_keeps {A} (I : S -> log -> Prop) (m : Gui A) : Prop := forall s l, I s l -> gui_wp m (fun _ => I) s l.

Lemma gui_keeps_bind {A B} I (m : Gui A) (k : A -> Gui B) :
  gui_keeps I m -> (forall a, gui_keeps I (k a)) -> gui_keeps I (m ≫= k).
Proof. intros Hm Hk s l Hi. apply gui_wp_bind. eapply gui_wp_mono; [by apply Hm|]. intros a s' l' Hi'. by apply Hk. Qed.
Lemma keeps_try {A B} I (m : Gui (LResult A)) (k : A -> Gui (LResult B)) :
  gui_keeps I m -> (forall a, gui_keeps I (k a)) -> gui_keeps I (try m k).
Proof. intros Hm Hk. apply gui_keeps_bind; [done|]. intros [a|e]; [apply Hk|by intros s l Hi]. Qed.
Lemma gui_keeps_ret {A} I (a : A) : gui_keeps I (mret a).
Proof. by intros s l Hi. Qed.
Lemma keeps_gets {T} I (f : S -> T) : gui_keeps I (gets f).
Proof. by intros s l Hi. Qed.
Lemma keeps_modifies (I : S -> log -> Prop) f : (forall s l, I s l -> I (f s) l) -> gui_keeps I (modifies f).
Proof. intros Hf s l Hi. by apply Hf. Qed.
Lemma gui_keeps_call {A} (I : S -> log -> Prop) (c : Call A) :
  (forall s a l, I s l -> I s (Event c a :: l)) -> gui_keeps I (gui_call c).
Proof. intros Hc s l Hi. by apply Hc. Qed.
Lemma keeps_and {A} (I J : S -> log -> Prop) (m : Gui A) :
  gui_keeps I m -> gui_keeps J m -> gui_keeps (fun s l => I s l /\ J s l) m.
Proof. intros Hi Hj s l [HI HJ]. apply gui_wp_and; [by apply Hi|by apply Hj]. Qed.
Lemma keeps_fold {A B} I (f : A -> B -> Gui B) (l : list A) b :
  (forall a b, a ∈ l -> gui_keeps I (f a b)) -> gui_keeps I (gui_fold f l b).
Proof.
  revert b. induction l as [|a l IH]; intros b Hf; [apply gui_keeps_ret|]. apply gui_keeps_bind; [by apply Hf, list_elem_of_here|].
  intros b'. apply IH. intros a' b'' Ha. by apply Hf, list_elem_of_further.
Qed.
Lemma keeps_each {A} I (f : A -> Gui unit) (l : list A) : (forall a, a ∈ l -> gui_keeps I (f a)) -> gui_keeps I (each f l).
Proof. intros Hf. unfold each. apply keeps_fold. intros a _. apply Hf. Qed.
Lemma keeps_only_if I b (m : Gui bool) : gui_keeps I m -> gui_keeps I (only_if b m).
Proof. intros Hm. destruct b; [exact Hm|apply gui_keeps_ret]. Qed.

Lemma keeps_when (P : Prop) `{!Decision P} {A} (I : S -> log -> Prop) (m : Gui A) :
  gui_keeps I m -> gui_keeps (fun s l => P -> I s l) m.
Proof.
  intros Hm s l Hi. destruct (decide P) as [Hp|Hp].
  - eapply gui_wp_mono; [by apply Hm, Hi|]. auto.
  - eapply gui_wp_mono; [apply gui_wp_true|]. by intros a s' l' _ Hp'.
Qed.

(** A part of the program that keeps what the rest needs. *)
Lemma gui_wp_keeps_bind {A B} (I : S -> log -> Prop) (m : Gui A) (k : A -> Gui B) Q s l :
  gui_keeps I m -> I s l -> (forall a s' l', I s' l' -> gui_wp (k a) Q s' l') -> gui_wp (m ≫= k) Q s l.
Proof. intros Hm Hi Hk. apply gui_wp_bind. eapply gui_wp_mono; [by apply Hm|]. auto. Qed.
End gui.
#[global] Arguments gui_wp : simpl never.

(** ** Logs

    What every call of a log satisfies, given the calls before it, and what holds of
    some call. *)
Section logs.
Context {Call : Type -> Type}.
Abbreviation log := (list (call_event Call)) (only parsing).

Fixpoint every_call (P : forall A, Call A -> A -> log -> Prop) (l : log) : Prop :=
  match l with [] => True | Event c a :: l => P _ c a l /\ every_call P l end.
Fixpoint some_call (P : forall A, Call A -> A -> log -> Prop) (l : log) : Prop :=
  match l with [] => False | Event c a :: l => P _ c a l \/ some_call P l end.

Lemma some_call_suffix P l l' : l `suffix_of` l' -> some_call P l -> some_call P l'.
Proof. intros [k ->] Hs. induction k as [|[A c a] k IH]; [done|]. by right. Qed.
Lemma some_call_mono (P Q : forall A, Call A -> A -> log -> Prop) l :
  (forall A c a l', P A c a l' -> Q A c a l') -> some_call P l -> some_call Q l.
Proof. intros Hpq. induction l as [|[A c a] l IH]; [done|]. intros [Hp|Hs]; [left; auto|right; auto]. Qed.
Lemma every_call_suffix P l l' : l `suffix_of` l' -> every_call P l' -> every_call P l.
Proof. intros [k ->] He. induction k as [|[A c a] k IH]; [done|]. by apply IH; destruct He. Qed.
End logs.

Create HintDb gui_keeps.
#[export] Hint Resolve gui_keeps_bind keeps_try gui_keeps_ret keeps_gets keeps_fold keeps_each keeps_only_if : gui_keeps.

(** Runs a program call by call. *)
Ltac gui_step :=
  lazymatch goal with
  | |- gui_wp (_ ≫= _) _ _ _ => apply gui_wp_bind
  | |- gui_wp (try _ _) _ _ _ => apply gui_wp_try
  | |- gui_wp (mret _) _ _ _ => apply gui_wp_ret
  | |- gui_wp (gets _) _ _ _ => apply gui_wp_gets
  | |- gui_wp (modifies _) _ _ _ => apply gui_wp_modifies
  | |- gui_wp (gui_call _ _) _ _ _ => apply gui_wp_call; intros ? _
  end; cbv beta iota.
