(* ===== verification/Desktop.v ===== *)
(** * Desktop: the state of [crates/ladon-app/src/desktop.rs]

    The window of the application as an object: its locks, the local
    authentication it waits for, the buffers the user types into, and what it asks
    of the broker, the vault controller, Touch ID and the clock.  Layout, colours
    and texts that never change are not modelled.  [egui], Touch ID and the
    clipboard are calls with arbitrary answers, as are the broker and the
    controller, which other threads change between two calls. *)

From coqutil Require Import Datatypes.RecordSettersUsingExistingGetters.
From S2P Require Import Prelude Errors Time Utf8 Text Model Vault Paths Calls Grants Approval UnlockRequests Editor.
From S2P Require Import SessionAuth Controller BrokerHandle Detection Scan Lifetime Gui.
Local Open Scope Z_scope.

(** [enum DesktopLockState]. *)
Inductive DesktopLockState : Set := DesktopActive | DesktopLocking (epoch : Z) | DesktopLocked (epoch : Z).
#[export] Instance DesktopLockState_eq_dec : EqDecision DesktopLockState.
Proof. solve_decision. Defined.
#[export] Instance VaultUiPhase_eq_dec : EqDecision VaultUiPhase.
Proof. solve_decision. Defined.

(** [struct SessionEditor], [struct UnattendedConsent] of [agent_broker.rs] and
    [struct UnattendedConfirmation]. *)
Record SessionEditor := { editor_connection : option Uuid; editor_name : string; editor_note : string }.
Record UnattendedConsent := { consent_context : UnattendedContext; consent_secrets : list SecretMetadata }.
Record UnattendedConfirmation := {
  consent : UnattendedConsent;
  captured_at : SystemTime;
  lifetime : UnattendedLifetime;
  typed_time : string;
}.

(** [enum TouchIdTarget] and [struct PendingTouchId]; an attempt is known by its number. *)
Inductive TouchIdTarget : Type :=
| TouchUnattended (x : UnattendedConsent) (deadline : SystemTime)
| TouchAppUnlock (vault : Uuid) (epoch : Z)
| TouchSecret (a : LocalAuthAttempt) (vault : Uuid)
| TouchApproval (approval vault : Uuid) (l : ApprovalLifetime).
Record PendingTouchId := { authentication : nat; target : TouchIdTarget }.

(** [enum DetailAction], [enum SelectedActionSet], [enum DeleteAction],
    [enum ConfirmationAction], [enum AppUnlockStart], [enum ApprovalAction] and
    [struct Notice]. *)
Inductive DetailAction : Set := ActShow | ActHide | ActEdit | ActSave | ActCancel.
#[export] Instance DetailAction_eq_dec : EqDecision DetailAction.
Proof. solve_decision. Defined.
Inductive SelectedActionSet : Set := SetUnlock | SetHidden | SetRevealed | SetEditing.
Inductive DeleteAction : Set := DeleteRequest | DeleteConfirm | DeleteCancel.
Inductive ConfirmationAction : Set := ByTouchId | ByPin.
#[export] Instance ConfirmationAction_eq_dec : EqDecision ConfirmationAction.
Proof. solve_decision. Defined.
Inductive AppUnlockStart : Set := StartTouchId | StartPin | StartHardLock.
#[export] Instance AppUnlockStart_eq_dec : EqDecision AppUnlockStart.
Proof. solve_decision. Defined.
Inductive ApprovalAction : Set := ApproveBy (method : ConfirmationAction) | DenyRequest.
Record Notice := { notice_text : string; danger : bool }.
#[export] Instance NavigationTarget_eq_dec : EqDecision NavigationTarget.
Proof. solve_decision. Defined.

(** [struct LadonDesktop], with the fields of its [DesktopUtilities]; a lock attempt is
    known by its epoch and a scan by its number. *)
Record LadonDesktop := {
  has_broker : bool;
  agent_grants : list AgentGrantView;
  agent_sessions : list AgentSessionView;
  session_editors : gmap Uuid SessionEditor;
  unattended_confirmation : option UnattendedConfirmation;
  agent_command_active : bool;
  agent_grants_session : option Uuid;
  agent_grants_error_shown : bool;
  passphrase : string;
  confirmation : string;
  session_pin : string;
  session_pin_confirmation : string;
  local_pin : string;
  session_confirmation : option SessionConfirmation;
  desktop_lock : DesktopLockState;
  desktop_lock_epoch : Z;
  pending_app_lock : option Z;
  app_unlock_pin_visible : bool;
  pending_touch_id : option PendingTouchId;
  focused_approval : option Uuid;
  draft : AddSecretDraft;
  add_form_error : option AddDraftValidationError;
  notice : option Notice;
  detail : SecretDetailState;
  unlock_confirmation : bool;
  discard_confirmation : bool;
  pending_delete : option SecretId;
  last_phase : VaultUiPhase;
  manager_window_active : bool;
  has_tray : bool;
  quitting : bool;
  scan_open : bool;
  scan_task : option nat;
  scan_report : option ScanReport;
  scan_error : bool;
  focused_unlock : option Uuid;
  focus_auth_input : bool;
}.

(** [LadonDesktop::new], of which [last_phase] is the phase of the new controller. *)
Definition desktop_new (phase : VaultUiPhase) (tray : bool) : LadonDesktop := {|
  has_broker := true; agent_grants := []; agent_sessions := []; session_editors := ∅; unattended_confirmation := None;
  agent_command_active := false; agent_grants_session := None; agent_grants_error_shown := false; passphrase := "";
  confirmation := ""; session_pin := ""; session_pin_confirmation := ""; local_pin := ""; session_confirmation := None;
  desktop_lock := DesktopActive; desktop_lock_epoch := 0; pending_app_lock := None; app_unlock_pin_visible := false;
  pending_touch_id := None; focused_approval := None; draft := draft_new; add_form_error := None; notice := None;
  detail := detail_new; unlock_confirmation := false; discard_confirmation := false; pending_delete := None;
  last_phase := phase; manager_window_active := false; has_tray := tray; quitting := false; scan_open := false;
  scan_task := None; scan_report := None; scan_error := false; focused_unlock := None; focus_auth_input := false |}.

(** ** The calls *)

(** [enum TrayAction] of [tray.rs] and the commands to the window. *)
Inductive TrayAction : Set := TrayOpen | TrayLockApp | TrayLockVault | TrayQuit.
Inductive ViewportCommand : Set :=
| CloseWindow | CancelClose | SetVisible (b : bool) | SetMinimized (b : bool) | FocusWindow | InnerSize (width height : Z).

(** A field of text answers what the user left in it; [submitted] is Enter. *)
Record Typed := { typed : string; submitted : bool; changed : bool }.

Inductive DesktopCall : Type -> Type :=
(* [VaultController], under its mutex *)
| ControllerPhase : DesktopCall (LResult VaultUiPhase)
| ControllerSession : DesktopCall (LResult (option Uuid))
| ControllerContext : DesktopCall (option (VaultUiPhase * option Uuid))
| ControllerRemaining : DesktopCall (LResult (option Duration))
| ControllerSecrets : DesktopCall (LResult (list SecretMetadata))
| ControllerCanContinue : DesktopCall (LResult bool)
| ControllerCreate (passphrase confirmation : string) : DesktopCall (LResult unit)
| ControllerUnlock (passphrase : string) : DesktopCall (LResult unit)
| ControllerRestore : DesktopCall (LResult unit)
| ControllerContinue : DesktopCall (LResult unit)
| ControllerAdd (d : AddSecretDraft) : DesktopCall (LResult SecretId * AddSecretDraft)
| ControllerLoad (id : SecretId) : DesktopCall (LResult (Uuid * EditSecretDraft))
| ControllerActivity : DesktopCall (LResult unit)
| ControllerLock : DesktopCall (LResult unit)
| ControllerAutoLock : DesktopCall (LResult bool)
(* [LocalBrokerHandle] *)
| BrokerGrants : DesktopCall (LResult (list AgentGrantView))
| BrokerSessions : DesktopCall (LResult (list AgentSessionView))
| BrokerRunActive : DesktopCall (LResult bool)
| BrokerRevokeGrant (client : Uuid) (id : SecretId) : DesktopCall (LResult unit)
| BrokerRevokeGrants : DesktopCall (LResult unit)
| BrokerRevokeSession (client : Uuid) : DesktopCall (LResult unit)
| BrokerAnnotate (client connection : Uuid) (name note : string) : DesktopCall (LResult unit)
| BrokerSnapshot (client : Uuid) : DesktopCall (LResult UnattendedConsent)
| BrokerGrantUnattended (x : UnattendedConsent) (deadline : SystemTime) : DesktopCall (LResult unit)
| BrokerUpdate (d : EditSecretDraft) : DesktopCall (LResult unit)
| BrokerDelete (id : SecretId) : DesktopCall (LResult unit)
| BrokerLockVault : DesktopCall (LResult unit)
| BrokerBeginLock (automatic : bool) : DesktopCall (LResult Z)
| AppLockResult (epoch : Z) : DesktopCall (option (LResult unit))
| BrokerUnlockApp (epoch : Z) : DesktopCall (LResult unit)
| BrokerAutoLock : DesktopCall (LResult bool)
| BrokerPendingUnlock : DesktopCall (LResult (option PendingUnlock))
| BrokerResolveUnlock (id : Uuid) (allow : bool) : DesktopCall (LResult unit)
| BrokerExternalLock : DesktopCall (LResult (option Z))
| BrokerAcknowledge (request : Z) : DesktopCall (LResult unit)
| BrokerExternalInProgress : DesktopCall (LResult bool)
| BrokerPending : DesktopCall (LResult (option PendingApproval))
| BrokerConnected (client : Uuid) : DesktopCall (LResult bool)
| BrokerApproveFor (id : Uuid) (d : Duration) : DesktopCall (LResult unit)
| BrokerApproveUntil (id : Uuid) (deadline : SystemTime) : DesktopCall (LResult unit)
| BrokerApproveSession (id : Uuid) : DesktopCall (LResult unit)
| BrokerDeny (id : Uuid) : DesktopCall (LResult unit)
(* Touch ID, the clipboard, the threads and the system *)
| TouchAvailable : DesktopCall bool
| TouchSpawn (reason : string) : DesktopCall (LResult nat)
| TouchResult (attempt : nat) : DesktopCall (option (LResult unit))
| TouchCancel (attempt : nat) : DesktopCall unit
| CopyText (value : bytes) : DesktopCall bool
| ScanSpawn (home : string) (extra_roots : list string) : DesktopCall (option nat)
| ScanResult (task : nat) : DesktopCall (option (option ScanReport))
| ScanCancel (task : nat) : DesktopCall unit
| SystemNow : DesktopCall SystemTime
| DrawSalt : DesktopCall (option bytes)
| EnvVar (name : string) : DesktopCall (option string)
| TrayEvents : DesktopCall (list TrayAction)
| Viewport (c : ViewportCommand) : DesktopCall unit
| FocusApplication : DesktopCall unit
| CloseRequested : DesktopCall bool
(* Widgets *)
| Label (text : string) : DesktopCall unit
| Button (label : string) : DesktopCall bool
| Row (label : string) (details : list string) : DesktopCall bool
| Opened (title : string) : DesktopCall bool
| PasswordField (hint value : string) : DesktopCall Typed
| ValueField (hint value : string) : DesktopCall Typed
| TextField (hint value : string) : DesktopCall Typed
| ReadOnlyValue (value : string) : DesktopCall unit
| StoredLifetime (request : Uuid) : DesktopCall (option ApprovalLifetime)
| StoreLifetime (request : Uuid) (l : ApprovalLifetime) : DesktopCall unit.

Abbreviation log := (list (call_event DesktopCall)) (only parsing).
Abbreviation Desk := (Gui LadonDesktop DesktopCall).

(** ** Helpers *)
Definition app_unlock_start (touch_id_available pin_configured : bool) : AppUnlockStart :=
  match touch_id_available, pin_configured with
  | true, _ => StartTouchId
  | false, true => StartPin
  | false, false => StartHardLock
  end.
Definition can_finish_session_setup (touch_id_available pin_configured : bool) : bool := touch_id_available || pin_configured.
Definition confirmation_actions (touch_id_available pin_configured : bool) : list ConfirmationAction :=
  (if touch_id_available then [ByTouchId] else []) ++ (if pin_configured then [ByPin] else []).
Definition selected_action_set (authorized : bool) (m : DetailMode) : SelectedActionSet :=
  match authorized, m with
  | _, Editing _ _ => SetEditing
  | false, _ => SetUnlock
  | true, Hidden => SetHidden
  | true, Revealed _ => SetRevealed
  end.
Definition manager_rendering_allowed (phase : VaultUiPhase) (lock : DesktopLockState) : bool :=
  bool_decide (phase = PhaseUnlocked) && bool_decide (lock = DesktopActive).
Definition window_size (manager_active : bool) : Z * Z := if manager_active then (640, 420) else (500, 380).

(** [struct FieldNameSummary] and [summarize_field_names]. *)
Record FieldNameSummary := { primary : option string; additional_count : nat; additional_hover : string }.
Fixpoint join_lines (l : list string) : string :=
  match l with [] => "" | [s] => s | s :: l => string_of (bytes_of s ++ [zb 10] ++ bytes_of (join_lines l)) end.
Definition summarize_field_names (names : list string) : FieldNameSummary := {|
  primary := head names; additional_count := length names - 1; additional_hover := join_lines (tail names) |}.

(** [copyable_text], [set_clipboard_notice] and the notices of results. *)
Definition copyable_text (v : EditableValue) : option string :=
  match v with EditText text => Some text | EditBinary _ _ => None end.
Definition plain_notice (text : string) : Notice := {| notice_text := text; danger := false |}.
Definition danger_notice (text : string) : Notice := {| notice_text := text; danger := true |}.
Definition set_clipboard_notice (text : string) (n : option Notice) : option Notice :=
  match n with Some {| danger := true |} => n | _ => Some (plain_notice text) end.
Definition notice_of (r : LResult unit) (success : string) : Notice :=
  match r with Ok _ => plain_notice success | Err e => danger_notice (safe_message e) end.

(** [format_grant_remaining], [format_remaining] and [short_session_id]. *)
Definition minutes_and_seconds (d : Duration) : bytes :=
  let seconds := d / 10 ^ 9 in padded 2 (seconds / 60) ++ bytes_of ":" ++ padded 2 (seconds mod 60).
Definition format_grant_remaining (d : Duration) : string := string_of (minutes_and_seconds d).
Definition format_remaining (d : Duration) : string := string_of (bytes_of "locks in " ++ minutes_and_seconds d).
Definition short_session_id `{TextCrates} (id : Uuid) : string := string_of (take 8 (bytes_of (uuid_display id))).

(** [add_form_error_text]. *)
Definition add_form_error_text (e : AddDraftValidationError) : string :=
  let detail :=
    match e with
    | MissingName _ => "enter a name or remove this field"
    | InvalidName _ => "start with a letter; then use letters, numbers, _ or -"
    | DuplicateName _ => "this name is already used"
    | ValueTooLarge _ => "value exceeds 1 MiB"
    end in
  string_of (bytes_of "Field " ++ decimal (Z.of_nat (field_index e) + 1) ++ bytes_of ": " ++ bytes_of detail).

(** [UnattendedConfirmation::deadline]. *)
Definition confirmed_deadline `{LocalTime} (c : UnattendedConfirmation) : LResult SystemTime :=
  match lifetime c with
  | Custom => local_deadline_at (typed_time c) (captured_at c)
  | l => deadline_at l (captured_at c)
  end.

(** [update_focused_approval]: the new focus and PIN, and whether it changed. *)
Definition update_focused_approval (next focused : option Uuid) (pin : string) : bool * option Uuid * string :=
  if bool_decide (focused = next) then (false, focused, pin) else (true, next, "").

(** [TouchIdAttempt::start] and the reasons of [touch_id.rs]. *)
Definition APP_UNLOCK_REASON : string := "Unlock Ladon on this device".
Definition AGENT_SESSION_REASON : string :=
  "Allow this agent session to use the displayed Ladon secrets for 30 minutes".
Definition secret_reason (name : string) : string :=
  string_of (bytes_of "Unlock Ladon secret “" ++ bytes_of (sanitize_untrusted name) ++ bytes_of "” for viewing and editing").

Definition pin_rejected (remaining_attempts : Z) : Notice :=
  danger_notice (string_of (bytes_of "PIN rejected; " ++ decimal remaining_attempts ++ bytes_of " attempts remain")).
Definition has_configured_pin (s : LadonDesktop) : bool :=
  match session_confirmation s with Some c => has_pin c | None => false end.

Section desktop.
Context (ask : forall A, DesktopCall A -> log -> A).
Context (argon2id : Z -> Z -> Z -> Z -> bytes -> bytes -> option bytes).
Context `{LocalTime, TextCrates}.
Abbreviation call := (gui_call ask).

(** [with_controller] and the [ok_or(LadonError::EndpointUnavailable)] of every use of the
    broker. *)
Definition vault_session_id : Desk (LResult Uuid) :=
  r ← call ControllerSession; mret (id ← r; ok_or id VaultLocked).
Definition with_broker {A} (m : Desk (LResult A)) : Desk (LResult A) :=
  b ← gets has_broker; if (b : bool) then m else mret (Err EndpointUnavailable).
Definition current_phase : Desk VaultUiPhase :=
  r ← call ControllerPhase; mret (match r with Ok phase => phase | Err _ => PhaseLocked end).

Definition clear_pin : Desk unit := modifies (fun s => s <| local_pin := "" |>).
Definition set_notice (n : Notice) : Desk unit := modifies (fun s => s <| notice := Some n |>).
Definition notice_from (r : LResult unit) (success : string) : Desk unit := set_notice (notice_of r success).

(** An attempt that is dropped is cancelled, like a scan. *)
Definition drop_touch_id : Desk unit :=
  p ← gets pending_touch_id;
  match p with Some p => call (TouchCancel (authentication p)) | None => mret tt end;;
  modifies (fun s => s <| pending_touch_id := None |>).
Definition drop_scan_task : Desk unit :=
  t ← gets scan_task;
  match t with Some t => call (ScanCancel t) | None => mret tt end;;
  modifies (fun s => s <| scan_task := None |>).

Definition touch_start (reason : string) : Desk (LResult nat) :=
  if bool_decide (reason = "") then mret (Err InvalidRequest) else call (TouchSpawn reason).
Definition wait_for_touch (reason : string) (t : TouchIdTarget) : Desk unit :=
  started ← touch_start reason;
  match started with
  | Ok attempt => modifies (fun s => s <| pending_touch_id := Some {| authentication := attempt; target := t |} |>)
  | Err e => notice_from (Err e) ""
  end.

(** [verify_pin] of the session's confirmation with what was typed, which is cleared. *)
Definition verify_local_pin : Desk (LResult PinVerification) :=
  c ← gets session_confirmation;
  pin ← gets local_pin;
  let '(r, c) :=
    match c with
    | None => (Err ApprovalAuthenticationFailed, None)
    | Some c => let '(r, c) := verify_pin argon2id pin c in (r, Some c)
    end in
  modifies (fun s => s <| session_confirmation := c |> <| local_pin := "" |>);;
  mret r.
Definition record_touch_success : Desk unit :=
  modifies (fun s => s <| session_confirmation ::= fmap record_touch_id_success |>).

(** ** Clearing *)
Definition clear_unlock_fields : Desk unit := modifies (fun s => s <| passphrase := "" |> <| confirmation := "" |>).
Definition clear_agent_grants : Desk unit :=
  modifies (fun s => s <| agent_grants := [] |> <| agent_sessions := [] |> <| session_editors := ∅ |>
    <| agent_command_active := false |> <| agent_grants_session := None |> <| agent_grants_error_shown := false |>).
Definition clear_sensitive_buffers : Desk unit :=
  drop_scan_task;;
  modifies (fun s => s <| scan_report := None |> <| scan_open := false |>);;
  clear_unlock_fields;;
  modifies (fun s => s <| session_pin := "" |> <| session_pin_confirmation := "" |> <| local_pin := "" |>
    <| app_unlock_pin_visible := false |>);;
  drop_touch_id;;
  modifies (fun s => s <| focused_approval := None |> <| unattended_confirmation := None |> <| session_editors := ∅ |>
    <| draft := draft_new |> <| detail ::= clear_for_vault_lock |> <| unlock_confirmation := false |>
    <| discard_confirmation := false |> <| pending_delete := None |> <| add_form_error := None |>).
Definition clear_for_app_lock : Desk unit :=
  clear_agent_grants;; clear_sensitive_buffers;; modifies (fun s => s <| notice := None |>).
Definition clear_sensitive_state : Desk unit :=
  clear_for_app_lock;;
  modifies (fun s => s <| session_confirmation := None |> <| pending_app_lock := None |> <| desktop_lock := DesktopActive |>).

(** ** Locking *)
Definition finish_immediate_lock (r : LResult unit) : Desk unit :=
  clear_sensitive_state;;
  match r with Ok _ => modifies (fun s => s <| notice := None |>) | Err e => notice_from (Err e) "" end.
Definition lock_vault : Desk (LResult unit) :=
  b ← gets has_broker; if (b : bool) then call BrokerLockVault else call ControllerLock.
Definition lock_immediately : Desk unit := r ← lock_vault; finish_immediate_lock r.

Definition begin_interface_lock (touch_id_available automatic : bool) : Desk unit :=
  configured ← gets has_configured_pin;
  if negb (touch_id_available || configured) then lock_immediately
  else
    attempt ← with_broker (call (BrokerBeginLock automatic));
    match attempt with
    | Ok epoch =>
      modifies (fun s => s <| desktop_lock_epoch := epoch |> <| desktop_lock := DesktopLocking epoch |>
        <| pending_app_lock := Some epoch |>);;
      clear_for_app_lock
    | Err _ => lock_immediately
    end.
Definition lock_app_with_touch_id_availability (touch_id_available : bool) : Desk unit :=
  lock ← gets desktop_lock;
  if bool_decide (lock = DesktopActive) then begin_interface_lock touch_id_available false
  else
    revoked ← with_broker (call BrokerRevokeGrants);
    if is_ok revoked then clear_for_app_lock else lock_immediately.
Definition lock_app : Desk unit := available ← call TouchAvailable; lock_app_with_touch_id_availability available.

Definition finish_app_lock_result (epoch : Z) (r : LResult unit) : Desk unit :=
  s ← gets id;
  if is_ok r && (bool_decide (desktop_lock s = DesktopLocking epoch) && (desktop_lock_epoch s =? epoch))
  then modifies (fun s => s <| desktop_lock := DesktopLocked epoch |>) else lock_immediately.
Definition process_app_lock_result : Desk unit :=
  attempt ← gets pending_app_lock;
  match attempt with
  | None => mret tt
  | Some epoch =>
    completion ← call (AppLockResult epoch);
    match completion with
    | None => mret tt
    | Some r => modifies (fun s => s <| pending_app_lock := None |>);; finish_app_lock_result epoch r
    end
  end.

(** [synchronize_phase]. *)
Definition synchronize_phase (phase : VaultUiPhase) : Desk unit :=
  last ← gets last_phase;
  (if bool_decide (last = PhaseUnlocked) && negb (bool_decide (phase = PhaseUnlocked)) then
     b ← gets has_broker;
     (if (b : bool) then
        r ← call BrokerExternalInProgress;
        if match r with Ok in_progress => in_progress | Err _ => true end then mret tt
        else call BrokerRevokeGrants;; mret tt
      else mret tt);;
     clear_sensitive_state
   else mret tt);;
  modifies (fun s => s <| last_phase := phase |>).

(** [finish_auto_lock] and [handle_idle_timeout]. *)
Definition finish_auto_lock (auto_locked : bool) : Desk unit :=
  if auto_locked then
    clear_sensitive_state;; set_notice (plain_notice "Vault locked after 30 minutes without secret activity")
  else mret tt.
Definition handle_idle_timeout : Desk unit :=
  s ← gets id;
  if bool_decide (is_Some (session_confirmation s)) then
    if bool_decide (desktop_lock s = DesktopActive) then
      available ← call TouchAvailable; begin_interface_lock available true
    else mret tt
  else
    r ← (if has_broker s then call BrokerAutoLock else call ControllerAutoLock);
    finish_auto_lock (match r with Ok locked => locked | Err _ => false end).

(** [process_external_lock]. *)
Definition process_external_lock : Desk unit :=
  pending ← with_broker (call BrokerExternalLock);
  match pending with
  | Ok (Some request) =>
    clear_sensitive_state;;
    modifies (fun s => s <| last_phase := PhaseLocked |>);;
    r ← with_broker (call (BrokerAcknowledge request));
    match r with Ok _ => mret tt | Err e => notice_from (Err e) "" end
  | Ok None => mret tt
  | Err e => notice_from (Err e) ""
  end.

(** ** Unlocking the interface *)

(** [current_app_unlock_context], which reads phase and session under one lock. *)
Definition current_app_unlock_context : Desk (option (Uuid * Z)) :=
  s ← gets id;
  match desktop_lock s with
  | DesktopLocked epoch =>
    if negb (desktop_lock_epoch s =? epoch) then mret None
    else
      c ← call ControllerContext;
      mret (match c with
            | Some (PhaseUnlocked, Some vault) => Some (vault, epoch)
            | _ => None
            end)
  | _ => mret None
  end.
Definition app_unlock_context_matches (vault : Uuid) (epoch : Z) : Desk bool :=
  c ← current_app_unlock_context; mret (bool_decide (c = Some (vault, epoch))).
Definition reject_stale_app_unlock : Desk unit :=
  drop_touch_id;; clear_pin;;
  set_notice (danger_notice "Authentication expired because the app lock context changed").

Definition finish_app_unlock (vault : Uuid) (epoch : Z) : Desk unit :=
  drop_touch_id;; clear_pin;;
  matches ← app_unlock_context_matches vault epoch;
  if negb matches then reject_stale_app_unlock
  else
    r ← with_broker (call (BrokerUnlockApp epoch));
    match r with
    | Ok _ =>
      call ControllerActivity;;
      modifies (fun s => s <| desktop_lock := DesktopActive |> <| app_unlock_pin_visible := false |>);;
      set_notice (plain_notice "App unlocked")
    | Err e => notice_from (Err e) ""
    end.
Definition finish_app_unlock_touch_id (vault : Uuid) (epoch : Z) : Desk unit :=
  clear_pin;;
  matches ← app_unlock_context_matches vault epoch;
  c ← gets session_confirmation;
  if negb matches then reject_stale_app_unlock
  else match c with
       | None => reject_stale_app_unlock
       | Some _ => record_touch_success;; finish_app_unlock vault epoch
       end.

Definition use_app_unlock_pin : Desk unit :=
  drop_touch_id;; clear_pin;; modifies (fun s => s <| app_unlock_pin_visible := true |> <| notice := None |>).
Definition begin_app_unlock_with (touch_id_available : bool) : Desk AppUnlockStart :=
  configured ← gets has_configured_pin;
  let start := app_unlock_start touch_id_available configured in
  match start with
  | StartTouchId =>
    pending ← gets pending_touch_id;
    match pending with
    | Some _ => mret tt
    | None =>
      c ← current_app_unlock_context;
      match c with
      | None => reject_stale_app_unlock
      | Some (vault, epoch) =>
        modifies (fun s => s <| app_unlock_pin_visible := false |> <| local_pin := "" |>);;
        wait_for_touch APP_UNLOCK_REASON (TouchAppUnlock vault epoch)
      end
    end
  | StartPin => use_app_unlock_pin
  | StartHardLock => lock_immediately
  end;;
  mret start.
Definition begin_app_unlock : Desk AppUnlockStart := available ← call TouchAvailable; begin_app_unlock_with available.

(** What every prompt for the PIN does with the answer of [verify_pin]. *)
Definition after_pin (r : LResult PinVerification) (accepted : Desk unit) : Desk unit :=
  match r with
  | Ok PinAccepted => accepted
  | Ok (PinRejected n) => set_notice (pin_rejected n)
  | Ok LockVault => lock_immediately
  | Err e => notice_from (Err e) ""
  end.
Definition authenticate_app_pin_for_context (vault : Uuid) (epoch : Z) : Desk unit :=
  matches ← app_unlock_context_matches vault epoch;
  if negb matches then reject_stale_app_unlock
  else drop_touch_id;; r ← verify_local_pin; after_pin r (finish_app_unlock vault epoch).
Definition authenticate_app_pin : Desk unit :=
  c ← current_app_unlock_context;
  match c with
  | None => reject_stale_app_unlock
  | Some (vault, epoch) => authenticate_app_pin_for_context vault epoch
  end.

(** ** Agent access *)
Definition refresh_agent_grants : Desk unit :=
  lock ← gets desktop_lock;
  if negb (bool_decide (lock = DesktopActive)) then clear_agent_grants
  else
    r ← try vault_session_id (fun session =>
      known ← gets agent_grants_session;
      (if bool_decide (known = Some session) then mret tt
       else clear_agent_grants;; modifies (fun s => s <| agent_grants_session := Some session |>));;
      with_broker (try (call BrokerGrants) (fun grants => try (call BrokerSessions) (fun sessions =>
        try (call BrokerRunActive) (fun running => mret (Ok (grants, sessions, running)))))));
    shown ← gets agent_grants_error_shown;
    match r with
    | Ok (grants, sessions, running) =>
      modifies (fun s => s
        <| session_editors ::= filter (fun kv => Exists (fun v => session_client v = kv.1) sessions) |>
        <| agent_sessions := sessions |> <| agent_grants := grants |> <| agent_command_active := running |>
        <| agent_grants_error_shown := false |>)
    | Err VaultLocked => clear_agent_grants
    | Err e => if (shown : bool) then mret tt
               else notice_from (Err e) "";; modifies (fun s => s <| agent_grants_error_shown := true |>)
    end.
Definition revoke_agent_grant (client : Uuid) (id : SecretId) : Desk unit :=
  r ← with_broker (call (BrokerRevokeGrant client id));
  notice_from r "Agent access revoked";;
  if is_ok r then refresh_agent_grants else mret tt.
Definition revoke_all_agent_grants : Desk unit :=
  r ← with_broker (call BrokerRevokeGrants);
  (if is_ok r then clear_agent_grants else mret tt);;
  notice_from r "Agent access revoked".
Definition active_session_count (s : LadonDesktop) : nat :=
  size (list_to_set (view_client <$> agent_grants s) ∪ list_to_set (session_client <$> agent_sessions s) : gset Uuid).

(** [reject_stale_authentication]. *)
Definition reject_stale_authentication : Desk unit :=
  drop_touch_id;;
  phase ← current_phase;
  synchronize_phase phase;;
  modifies (fun s => s <| unlock_confirmation := false |> <| local_pin := "" |>);;
  set_notice (danger_notice "Authentication expired because the selected context changed").

Definition begin_unattended_confirmation (client : Uuid) : Desk unit :=
  s ← gets id;
  if negb (bool_decide (desktop_lock s = DesktopActive)) || bool_decide (is_Some (pending_touch_id s)) then mret tt
  else
    r ← with_broker (call (BrokerSnapshot client));
    clear_pin;;
    match r with
    | Ok x =>
      now ← call SystemNow;
      modifies (fun s => s <| unattended_confirmation := Some {|
        consent := x; captured_at := now; lifetime := UnattendedThirtyMinutes; typed_time := "" |} |>)
    | Err e => notice_from (Err e) ""
    end.
Definition finish_authenticated_unattended (x : UnattendedConsent) (deadline : SystemTime) (touch_id : bool) : Desk unit :=
  modifies (fun s => s <| unattended_confirmation := None |> <| local_pin := "" |>);;
  lock ← gets desktop_lock;
  r ← (if bool_decide (lock = DesktopActive) then with_broker (call (BrokerGrantUnattended x deadline))
       else mret (Err ApprovalCancelled));
  (if is_ok r then (if touch_id then record_touch_success else mret tt);; refresh_agent_grants else mret tt);;
  notice_from r "Unattended access granted until the confirmed deadline".
Definition authenticate_unattended (method : ConfirmationAction) : Desk unit :=
  c ← gets unattended_confirmation;
  match c with
  | None => mret tt
  | Some c =>
    let x := consent c in
    now ← (if is_ok (confirmed_deadline c) then call SystemNow else mret 0);
    match confirmed_deadline c with
    | Ok deadline =>
      if negb (now <? deadline) then notice_from (Err InvalidRequest) ""
      else
        lock ← gets desktop_lock;
        session ← (if bool_decide (lock = DesktopActive) then vault_session_id else mret (Err VaultLocked));
        if negb (bool_decide (ok session = Some (context_vault (consent_context x)))) then
          reject_stale_authentication;; modifies (fun s => s <| unattended_confirmation := None |>)
        else
          match method with
          | ByTouchId =>
            pending ← gets pending_touch_id;
            if bool_decide (is_Some pending) then mret tt
            else wait_for_touch AGENT_SESSION_REASON (TouchUnattended x deadline)
          | ByPin =>
            r ← verify_local_pin; after_pin r (finish_authenticated_unattended x deadline false)
          end
    | Err _ => notice_from (Err InvalidRequest) ""
    end
  end.

(** ** Secrets *)
Definition finish_applied_navigation : Desk unit :=
  drop_touch_id;;
  modifies (fun s => s <| unlock_confirmation := false |> <| discard_confirmation := false |> <| local_pin := "" |>
    <| pending_delete := None |> <| add_form_error := None |> <| notice := None |>).
Definition navigate (t : NavigationTarget) : Desk unit :=
  d ← gets detail;
  modifies (fun s => s <| detail ::= fun d => (request_navigation t d).2 |>);;
  match (request_navigation t d).1 with
  | Applied => finish_applied_navigation
  | ConfirmDiscard => modifies (fun s => s <| discard_confirmation := true |>)
  end.
Definition finish_discard_navigation : Desk bool :=
  d ← gets detail;
  modifies (fun s => s <| detail ::= fun d => (discard_pending_navigation d).2 |>);;
  finish_applied_navigation;;
  mret (bool_decide (pending_navigation d = Some NavClose)).

(** What PIN and Touch ID do with a confirmed secret. *)
Definition accept_secret (a : LocalAuthAttempt) (captured : Uuid) (touch_id : bool) : Desk unit :=
  session ← vault_session_id;
  d ← gets detail;
  let '(accepted, d) :=
    if bool_decide (ok session = Some captured) then accept_authentication a captured d else (false, d) in
  if (accepted : bool) then
    modifies (fun s => s <| detail := d |>);;
    (if touch_id then record_touch_success else mret tt);;
    modifies (fun s => s <| unlock_confirmation := false |>);;
    (if touch_id then clear_pin else mret tt);;
    set_notice (plain_notice "Secret unlocked for this selection")
  else reject_stale_authentication.
Definition finish_selected_touch_id (a : LocalAuthAttempt) (captured : Uuid) : Desk unit := accept_secret a captured true.
Definition authenticate_selected_secret (method : ConfirmationAction) (name : string) : Desk unit :=
  session ← vault_session_id;
  match session with
  | Err _ => synchronize_phase PhaseLocked
  | Ok captured =>
    d ← gets detail;
    match authentication_attempt captured d with
    | None => modifies (fun s => s <| unlock_confirmation := false |> <| local_pin := "" |>)
    | Some a =>
      match method with
      | ByTouchId =>
        pending ← gets pending_touch_id;
        if bool_decide (is_Some pending) then mret tt else wait_for_touch (secret_reason name) (TouchSecret a captured)
      | ByPin =>
        drop_touch_id;; r ← verify_local_pin; after_pin r (accept_secret a captured false)
      end
    end
  end.

Definition handle_sensitive_operation_error (e : LadonError) : Desk unit :=
  phase ← current_phase; synchronize_phase phase;; notice_from (Err e) "".
Definition update_secret (d : EditSecretDraft) : Desk (LResult unit) := with_broker (call (BrokerUpdate d)).
Definition delete_secret (id : SecretId) : Desk (LResult unit) := with_broker (call (BrokerDelete id)).
Definition open_selected (editing : bool) : Desk unit :=
  d ← gets detail;
  match selected d with
  | None => mret tt
  | Some id =>
    r ← call (ControllerLoad id);
    match r with
    | Ok (session, loaded) =>
      match begin_with_draft session loaded editing d with
      | Ok d => modifies (fun s => s <| detail := d |>)
      | Err _ => set_notice (danger_notice "The selected secret changed before it could be opened")
      end
    | Err e => handle_sensitive_operation_error e
    end
  end.
Definition handle_detail_action (a : DetailAction) : Desk unit :=
  match a with
  | ActShow => open_selected false
  | ActEdit => open_selected true
  | ActHide | ActCancel => modifies (fun s => s <| detail ::= drop_sensitive_mode |>)
  | ActSave =>
    d ← gets detail;
    r ← match mode d with Editing edited _ => update_secret edited | _ => mret (Err InvalidRequest) end;
    match r with
    | Ok _ => modifies (fun s => s <| detail ::= drop_sensitive_mode |>);; set_notice (plain_notice "Secret changes saved locally")
    | Err e => handle_sensitive_operation_error e
    end
  end.
Definition handle_add_result (r : LResult SecretId) : Desk unit :=
  match r with
  | Ok _ => modifies (fun s => s <| add_form_error := None |>);; set_notice (plain_notice "Secret saved locally")
  | Err e => handle_sensitive_operation_error e
  end.
Definition handle_delete_result (r : LResult unit) : Desk unit :=
  match r with
  | Ok _ =>
    drop_touch_id;;
    modifies (fun s => s <| detail ::= navigate_now NavAdd |> <| unlock_confirmation := false |> <| local_pin := "" |>);;
    set_notice (plain_notice "Secret deleted")
  | Err e => handle_sensitive_operation_error e
  end.

(** ** Approvals *)

(** [ApprovalLifetime::approve]. *)
Definition approve_request (l : ApprovalLifetime) (id : Uuid) : Desk (LResult unit) :=
  match l with
  | ThirtyMinutes => call (BrokerApproveFor id (from_secs (30 * 60)))
  | EndOfDay =>
    now ← call SystemNow;
    match local_day_end now with Ok deadline => call (BrokerApproveUntil id deadline) | Err e => mret (Err e) end
  | SessionLifetime => call (BrokerApproveSession id)
  end.
Definition approved_notice (l : ApprovalLifetime) : string :=
  match l with
  | ThirtyMinutes => "Agent access allowed for 30 minutes"
  | EndOfDay => "Agent access allowed until end of day"
  | SessionLifetime => "Agent access allowed until session ends"
  end.
Definition finish_authenticated_approval (id session : Uuid) (touch_id_succeeded : bool) (l : ApprovalLifetime) : Desk unit :=
  current ← vault_session_id;
  pending ← with_broker (call BrokerPending);
  let exact_request_is_pending :=
    match pending with
    | Ok (Some p) => bool_decide (approval_id p = id) && bool_decide (approval_vault p = session)
    | _ => false
    end in
  if negb (bool_decide (ok current = Some session)) || negb exact_request_is_pending then reject_stale_authentication
  else
    r ← with_broker (approve_request l id);
    (if is_ok r && touch_id_succeeded then record_touch_success else mret tt);;
    clear_pin;;
    notice_from r (approved_notice l).
Definition authenticate_pending_approval (method : ConfirmationAction) (p : PendingApproval) (l : ApprovalLifetime) : Desk unit :=
  session ← vault_session_id;
  if negb (bool_decide (ok session = Some (approval_vault p))) then reject_stale_authentication
  else
    match method with
    | ByTouchId =>
      pending ← gets pending_touch_id;
      if bool_decide (is_Some pending) then mret tt
      else wait_for_touch AGENT_SESSION_REASON (TouchApproval (approval_id p) (approval_vault p) l)
    | ByPin =>
      drop_touch_id;;
      r ← verify_local_pin;
      after_pin r (finish_authenticated_approval (approval_id p) (approval_vault p) false l)
    end.
Definition cancel_stale_approval_touch_id (current : option (Uuid * Uuid)) : Desk unit :=
  pending ← gets pending_touch_id;
  match target <$> pending with
  | Some (TouchApproval id session _) => if bool_decide (current = Some (id, session)) then mret tt else drop_touch_id
  | _ => mret tt
  end.

(** [process_touch_id_result]: the attempt is dropped at the end. *)
Definition finish_touch_id (t : TouchIdTarget) (r : LResult unit) : Desk unit :=
  match r, t with
  | Ok _, TouchUnattended x deadline => finish_authenticated_unattended x deadline true
  | Ok _, TouchAppUnlock vault epoch => finish_app_unlock_touch_id vault epoch
  | Ok _, TouchSecret a vault => finish_selected_touch_id a vault
  | Ok _, TouchApproval id session l => finish_authenticated_approval id session true l
  | Err ApprovalCancelled, _ => mret tt
  | Err e, _ => notice_from (Err e) ""
  end.
Definition process_touch_id_result : Desk unit :=
  pending ← gets pending_touch_id;
  match pending with
  | None => mret tt
  | Some p =>
    result ← call (TouchResult (authentication p));
    match result with
    | None => mret tt
    | Some r =>
      modifies (fun s => s <| pending_touch_id := None |> <| local_pin := "" |>);;
      finish_touch_id (target p) r;;
      call (TouchCancel (authentication p))
    end
  end.

(** [on_exit]. *)
Definition on_exit : Desk unit := process_external_lock;; lock_vault;; clear_sensitive_state.
End desktop.
