(* ===== verification/DesktopViews.v ===== *)
(** * DesktopViews: what [crates/ladon-app/src/desktop.rs] draws

    The views of the window and the frame, [update], that draws them.  A view is a
    program that draws its widgets in order and acts on what the user did with
    them.  Only widgets that show data or that the user acts on are drawn here. *)

From coqutil Require Import Datatypes.RecordSettersUsingExistingGetters.
From S2P Require Import Prelude Errors Time Utf8 Text Model Vault Paths Runner Calls Grants Approval UnlockRequests Editor SessionAuth.
From S2P Require Import Controller BrokerHandle Detection Scan Lifetime Gui Desktop.
Local Open Scope Z_scope.

(** ** The clipboard and text fields

    [sensitive_text_edit] hides the copy and cut events from the widget and puts them
    back where they were; the widget may remove all events of an input method. *)
Inductive EguiEvent : Set := EventCopy | EventCut | EventIme (n : nat) | EventOther (n : nat).
#[export] Instance EguiEvent_eq_dec : EqDecision EguiEvent.
Proof. solve_decision. Defined.
Definition is_clipboard_event (e : EguiEvent) : bool := match e with EventCopy | EventCut => true | _ => false end.
Definition is_ime_event (e : EguiEvent) : bool := match e with EventIme _ => true | _ => false end.
Fixpoint hide_clipboard_events (index preceding_ime_events : nat) (events : list EguiEvent) :
    list EguiEvent * list (nat * nat * EguiEvent) :=
  match events with
  | [] => ([], [])
  | e :: events =>
    let '(kept, hidden) :=
      hide_clipboard_events (S index) (preceding_ime_events + if is_ime_event e then 1 else 0)%nat events in
    if is_clipboard_event e then (kept, (index, preceding_ime_events, e) :: hidden) else (e :: kept, hidden)
  end.
Definition insert_event (index : nat) (e : EguiEvent) (events : list EguiEvent) : list EguiEvent :=
  let i := Nat.min index (length events) in take i events ++ e :: drop i events.
Definition restore_clipboard_events (hidden : list (nat * nat * EguiEvent)) (events : list EguiEvent) : list EguiEvent :=
  let ime_events_removed := negb (existsb is_ime_event events) in
  fold_left (fun events h =>
    let '(index, preceding_ime_events, e) := h in
    insert_event (if ime_events_removed then index - preceding_ime_events else index)%nat e events) hidden events.
Definition sensitive_text_edit (widget : list EguiEvent -> list EguiEvent) (events : list EguiEvent) : list EguiEvent :=
  let '(kept, hidden) := hide_clipboard_events 0 0 events in restore_clipboard_events hidden (widget kept).

(** ** Text of the views *)
Definition add_text (a b : string) : string := string_of (bytes_of a ++ bytes_of b).
Definition number (n : nat) : string := string_of (decimal (Z.of_nat n)).
Definition secrets_text (n : nat) : string := add_text (number n) " likely unencrypted secrets".
Definition rule_text (r : ExposureRule) : string :=
  match r with
  | CredentialAssignment => "Credential assignment"
  | PrivateKeyHeader => "Private key"
  | TokenPattern => "Token format"
  | ConnectionString => "Connection password"
  | HighEntropyValue => "Unusual value — review needed"
  end.
Definition finding_text (f : ScanFinding) : string :=
  add_text (sanitize_untrusted (finding_path f)) (add_text ":" (add_text (number (finding_line f))
    (add_text " — " (rule_text (finding_rule f))))).
Definition MASK : string := "••••••••".
Definition binary_text (value : bytes) : string := add_text "Binary · " (add_text (string_of (decimal (zlen value))) " bytes").

(** The clicks of a session's or a grant's buttons, of which the last counts. *)
Record AccessClicks := {
  clicked_allow : option Uuid;
  clicked_session : option Uuid;
  clicked_save : option (Uuid * Uuid * string * string);
  clicked_grant : option (Uuid * SecretId);
}.
Definition no_clicks : AccessClicks :=
  {| clicked_allow := None; clicked_session := None; clicked_save := None; clicked_grant := None |}.

(** The editor of a session; one of another connection is replaced. *)
Definition new_editor (d : SessionDetails) : SessionEditor :=
  {| editor_connection := Some (connection_id d); editor_name := user_name d; editor_note := note d |}.
Definition current_editor (id : Uuid) (d : SessionDetails) (editors : gmap Uuid SessionEditor) : SessionEditor :=
  match editors !! id with
  | Some e => if bool_decide (editor_connection e = Some (connection_id d)) then e else new_editor d
  | None => new_editor d
  end.
Definition session_status (v : AgentSessionView) : string :=
  if session_running v then "Running" else if session_waiting v then "Waiting for approval" else "Idle".
Definition UNATTENDED_CHOICES : list (UnattendedLifetime * string) :=
  [(UnattendedThirtyMinutes, "30 min"); (TwoHours, "2 hours"); (EightHours, "8 hours"); (TwelveHours, "12 hours");
   (Custom, "Local HH:MM")]%string.

(** [scalar_count] of the command of an approval. *)
Definition scalars (s : string) : Z := zlen (chars (bytes_of s)).
Definition is_long_command (v : PendingRequestView) : bool :=
  (400 <? scalars (view_executable v) + scalars (view_directory v)
          + fold_right Z.add 0 (scalars <$> view_arguments v))
  || (6 <? zlen (view_arguments v) + 2).

Section views.
Context (ask : forall A, DesktopCall A -> log -> A).
Context (argon2id : Z -> Z -> Z -> Z -> bytes -> bytes -> option bytes).
Context `{LocalTime, TextCrates}.
Abbreviation call := (gui_call ask).
Abbreviation label text := (call (Label text)).
Abbreviation button text := (call (Button text)).

(** ** Fields of text *)
Definition edit_passphrase (hint : string) : Desk Typed :=
  v ← gets passphrase; r ← call (PasswordField hint v); modifies (fun s => s <| passphrase := typed r |>);; mret r.
Definition edit_confirmation (hint : string) : Desk unit :=
  v ← gets confirmation; r ← call (PasswordField hint v); modifies (fun s => s <| confirmation := typed r |>).
Definition edit_session_pin (hint : string) : Desk unit :=
  v ← gets session_pin; r ← call (PasswordField hint v); modifies (fun s => s <| session_pin := typed r |>).
Definition edit_session_pin_confirmation (hint : string) : Desk unit :=
  v ← gets session_pin_confirmation; r ← call (PasswordField hint v);
  modifies (fun s => s <| session_pin_confirmation := typed r |>).
Definition edit_local_pin : Desk Typed :=
  v ← gets local_pin; r ← call (PasswordField "Session PIN" v); modifies (fun s => s <| local_pin := typed r |>);; mret r.
Definition show_notice : Desk unit :=
  n ← gets notice; match n with Some n => label (notice_text n) | None => mret tt end.

(** ** The window and the tray *)
Definition viewport (c : ViewportCommand) : Desk unit := call (Viewport c).
Definition focus_window : Desk unit :=
  viewport (SetVisible true);; viewport (SetMinimized false);; viewport FocusWindow;; call FocusApplication.
Definition tray_action (a : TrayAction) : Desk unit :=
  match a with
  | TrayOpen => focus_window
  | TrayLockApp => lock_app ask
  | TrayLockVault => lock_immediately ask
  | TrayQuit => lock_immediately ask;; modifies (fun s => s <| quitting := true |>);; viewport CloseWindow
  end.
(** [process_tray]: the events that are waiting, and the request to close. *)
Definition process_tray : Desk unit :=
  tray ← gets has_tray;
  (if (tray : bool) then actions ← call TrayEvents; each tray_action actions else mret tt);;
  quits ← gets quitting;
  closing ← only_if (negb quits && tray) (call CloseRequested);
  if (closing : bool) then viewport CancelClose;; lock_app ask;; viewport (SetVisible false) else mret tt.
Definition synchronize_window_size (manager_active : bool) : Desk unit :=
  active ← gets manager_window_active;
  if bool_decide (active = manager_active) then mret tt
  else
    modifies (fun s => s <| manager_window_active := manager_active |>);;
    viewport (InnerSize (window_size manager_active).1 (window_size manager_active).2).

(** ** The search for unencrypted secrets *)
Definition start_exposure_scan : Desk unit :=
  home ← call (EnvVar "HOME");
  home ← match home with Some h => mret (Some h) | None => call (EnvVar "USERPROFILE") end;
  modifies (fun s => s <| scan_report := None |> <| scan_error := false |>);;
  match home with
  | Some path =>
    if is_absolute path then
      codex ← call (EnvVar "CODEX_HOME");
      claude ← call (EnvVar "CLAUDE_CONFIG_DIR");
      worker ← call (ScanSpawn path (omap id [codex; claude]));
      match worker with
      | Some task => modifies (fun s => s <| scan_task := Some task |>)
      | None => modifies (fun s => s <| scan_error := true |>)
      end
    else modifies (fun s => s <| scan_error := true |>)
  | None => modifies (fun s => s <| scan_error := true |>)
  end.
Definition show_scan_report (r : ScanReport) : Desk unit :=
  let uncertain := length (List.filter (fun f => bool_decide (finding_rule f = HighEntropyValue)) (findings r)) in
  label (secrets_text (length (findings r) - uncertain));;
  (if (0 <? uncertain)%nat then label (add_text (number uncertain) " additional unusual values need review") else mret tt);;
  label (add_text (number (files_scanned r)) (add_text " text files checked · "
    (add_text (number (skipped_files r)) " files skipped")));;
  (if incomplete r then label "Partial scan: cancelled, unreadable paths or a scan limit reached." else mret tt);;
  coverage ← call (Opened "Scan coverage");
  (if (coverage : bool) then each (fun root => label (sanitize_untrusted root)) (scan_roots r) else mret tt);;
  each (fun f => label (finding_text f)) (findings r).
Definition show_exposure_scan : Desk unit :=
  clicked ← button "Find unencrypted secrets";
  (if (clicked : bool) then
     modifies (fun s => s <| scan_open := true |>);;
     task ← gets scan_task;
     match task with None => start_exposure_scan | Some _ => mret tt end
   else mret tt);;
  task ← gets scan_task;
  result ← match task with Some t => call (ScanResult t) | None => mret None end;
  match result with
  | Some r =>
    drop_scan_task ask;;
    modifies (fun s => s <| scan_error := negb (bool_decide (is_Some r)) |> <| scan_report := r |>)
  | None => mret tt
  end;;
  open ← gets scan_open;
  if negb open then mret tt
  else
    task ← gets scan_task;
    match task with
    | Some t => cancel ← button "Cancel"; if (cancel : bool) then call (ScanCancel t) else mret tt
    | None => mret tt
    end;;
    report ← gets scan_report;
    match report with Some r => show_scan_report r | None => mret tt end;;
    still_open ← call (Opened "Unencrypted secrets on this device");
    modifies (fun s => s <| scan_open := still_open |>);;
    if (still_open : bool) then mret tt else drop_scan_task ask.

(** ** Views before the manager *)
Definition show_first_run : Desk unit :=
  edit_passphrase "Passphrase (12+ characters)";;
  edit_confirmation "Repeat passphrase";;
  clicked ← button "Create vault";
  (if (clicked : bool) then
     s ← gets id;
     r ← call (ControllerCreate (passphrase s) (confirmation s));
     clear_unlock_fields;; notice_from r "Vault created on this device"
   else mret tt);;
  show_notice.
Definition show_locked : Desk unit :=
  field ← edit_passphrase "Master password";
  modifies (fun s => s <| focus_auth_input := false |>);;
  clicked ← button "Unlock";
  (if clicked || submitted field then
     s ← gets id;
     r ← call (ControllerUnlock (passphrase s));
     clear_unlock_fields;; notice_from r "Vault unlocked"
   else mret tt);;
  show_notice.
Definition show_recovery : Desk unit :=
  restore ← button "Restore authenticated backup";
  (if (restore : bool) then r ← call ControllerRestore; notice_from r "Backup restored" else mret tt);;
  can_continue ← call ControllerCanContinue;
  continue ← only_if (match can_continue with Ok b => b | Err _ => false end) (button "Continue with current vault");
  (if (continue : bool) then r ← call ControllerContinue; notice_from r "Current vault kept" else mret tt);;
  show_notice.

(** [show_session_auth_setup]; a valid PIN draws a salt. *)
Definition set_session_pin : Desk unit :=
  s ← gets id;
  let usable := bool_decide (session_pin s = session_pin_confirmation s) && valid_pin (session_pin s) in
  salt ← (if usable then call DrawSalt else mret None);
  match SessionPin_new argon2id salt (session_pin s) (session_pin_confirmation s) with
  | Ok pin =>
    modifies (fun s => s <| session_confirmation := Some (with_pin pin) |>);;
    set_notice (plain_notice "PIN set for this app session; five wrong attempts require the master password")
  | Err e => notice_from (Err e) ""
  end;;
  modifies (fun s => s <| session_pin := "" |> <| session_pin_confirmation := "" |>).
Definition show_session_auth_setup : Desk unit :=
  touch_id_available ← call TouchAvailable;
  continue ← only_if (can_finish_session_setup touch_id_available false) (button "Continue with Touch ID");
  (if (continue : bool) then
     modifies (fun s => s <| session_pin := "" |> <| session_pin_confirmation := "" |>
       <| session_confirmation := Some touch_id_only |>);;
     set_notice (plain_notice "Touch ID will confirm protected actions")
   else mret tt);;
  edit_session_pin "PIN (4–12 digits)";;
  edit_session_pin_confirmation "Repeat PIN";;
  clicked ← button "Set PIN and continue";
  (if (clicked : bool) then set_session_pin else mret tt);;
  show_notice.

(** [show_app_locked]; [show_app_locking] has only constant text. *)
Definition show_app_locked : Desk unit :=
  modifies (fun s => s <| focus_auth_input := false |>);;
  available ← call TouchAvailable;
  configured ← gets has_configured_pin;
  (if negb available && configured then modifies (fun s => s <| app_unlock_pin_visible := true |>) else mret tt);;
  pin_visible ← gets app_unlock_pin_visible;
  unlock ← only_if (negb pin_visible) (button "Unlock");
  (if (unlock : bool) then begin_app_unlock ask;; mret tt else mret tt);;
  s ← gets id;
  use_pin ← only_if (has_configured_pin s && negb (app_unlock_pin_visible s)) (button "Use PIN instead");
  (if (use_pin : bool) then use_app_unlock_pin ask else mret tt);;
  pin_visible ← gets app_unlock_pin_visible;
  (if (pin_visible : bool) then
     field ← edit_local_pin;
     clicked ← button "Unlock with PIN";
     if clicked || submitted field then authenticate_app_pin ask argon2id else mret tt
   else mret tt);;
  show_notice;;
  clicked ← button "Lock vault completely";
  if (clicked : bool) then lock_immediately ask else mret tt.
Definition show_lock_overlay (phase : VaultUiPhase) : Desk unit :=
  lock ← gets desktop_lock;
  match phase, lock with
  | PhaseLocked, _ => show_locked
  | PhaseUnlocked, DesktopLocked _ => show_app_locked
  | _, _ => mret tt
  end.

(** ** The list of secrets *)
Definition selected_metadata : Desk (option SecretMetadata) :=
  d ← gets detail;
  match selected d with
  | None => mret None
  | Some id =>
    r ← call ControllerSecrets;
    mret (l ← ok r; List.find (fun m => bool_decide (meta_id m = id)) l)
  end.
Definition show_secret_row (m : SecretMetadata) : Desk unit :=
  let summary := summarize_field_names (field_names m) in
  clicked ← call (Row (meta_name m) (option_list (primary summary) ++
    (if (0 <? additional_count summary)%nat
     then [add_text "+" (number (additional_count summary)); additional_hover summary] else [])));
  if (clicked : bool) then navigate ask (NavSecret (meta_id m)) else mret tt.
Definition show_secret_navigation : Desk unit :=
  clicked ← call (Row "+ New secret" []);
  (if (clicked : bool) then navigate ask NavAdd else mret tt);;
  r ← call ControllerSecrets;
  each show_secret_row (default [] (ok r)).
Definition show_secret_rail : Desk unit :=
  r ← call ControllerRemaining;
  label (format_remaining (default 0 (remaining ← ok r; remaining)));;
  count ← gets active_session_count;
  clicked ← call (Row (add_text "Active sessions (" (add_text (number count) ")")) []);
  (if (clicked : bool) then navigate ask NavSessions else mret tt);;
  show_secret_navigation.

(** ** Adding a secret *)
Definition set_draft_field (i : nat) (f : DraftField) (d : AddSecretDraft) : AddSecretDraft :=
  {| secret_name := secret_name d; draft_fields := <[i := f]> (draft_fields d) |}.
Definition show_draft_field (i : nat) (f : DraftField) (acc : bool * option nat) : Desk (bool * option nat) :=
  let '(any_changed, remove_index) := acc in
  name ← call (TextField "field_name" (draft_name f));
  value ← call (ValueField "Secret value" (draft_value f));
  modifies (fun s => s <| draft ::= set_draft_field i {| draft_name := typed name; draft_value := typed value |} |>);;
  remove ← only_if (0 <? i)%nat (button "×");
  error ← gets add_form_error;
  match error with
  | Some e => if bool_decide (field_index e = i) then label (add_form_error_text e) else mret tt
  | None => mret tt
  end;;
  mret (any_changed || changed name || changed value, if (remove : bool) then Some i else remove_index).
Definition clear_form_error : Desk unit := modifies (fun s => s <| add_form_error := None |> <| notice := None |>).
Definition save_new_secret : Desk unit :=
  d ← gets draft;
  match validate_fields d with
  | None =>
    r ← call (ControllerAdd d);
    modifies (fun s => s <| draft := r.2 |>);;
    handle_add_result ask r.1
  | Some e => modifies (fun s => s <| add_form_error := Some e |> <| notice := None |>)
  end.
Definition show_add_workspace : Desk unit :=
  d ← gets draft;
  name ← call (TextField "e.g. production-api" (secret_name d));
  modifies (fun s => s <| draft := {| secret_name := typed name; draft_fields := draft_fields d |} |>);;
  '(any_changed, remove_index) ← gui_fold (fun f => show_draft_field f.1 f.2) (imap pair (draft_fields d)) (changed name, None);
  d ← gets draft;
  let '(removed, d) := match remove_index with Some i => remove_field i d | None => (false, d) end in
  modifies (fun s => s <| draft := d |>);;
  (if any_changed || removed then clear_form_error else mret tt);;
  add ← only_if (can_add_field d) (button "+ Add field");
  (if (add : bool) then modifies (fun s => s <| draft ::= add_field |>);; clear_form_error else mret tt);;
  save ← button "Save secret";
  if (save : bool) then save_new_secret else mret tt.

(** ** The selected secret *)
Definition mask_fields (m : SecretMetadata) : Desk unit := each (fun name => label name;; label MASK) (field_names m).

(** The buttons above the fields: what to do with the values and with the secret. *)
Definition show_primary_actions (actions : SelectedActionSet) : Desk (option DetailAction) :=
  match actions with
  | SetUnlock =>
    clicked ← button "Unlock this secret";
    (if (clicked : bool) then modifies (fun s => s <| unlock_confirmation := true |> <| local_pin := "" |>) else mret tt);;
    mret None
  | SetHidden =>
    show ← button "Show"; edit ← button "Edit";
    mret (if (edit : bool) then Some ActEdit else if (show : bool) then Some ActShow else None)
  | SetRevealed =>
    hide ← button "Hide"; edit ← button "Edit";
    mret (if (edit : bool) then Some ActEdit else if (hide : bool) then Some ActHide else None)
  | SetEditing => mret None
  end.
Definition show_delete_actions (id : SecretId) : Desk (option DeleteAction) :=
  pending ← gets pending_delete;
  if bool_decide (pending = Some id) then
    cancel ← button "Cancel"; delete ← button "Delete";
    mret (if (delete : bool) then Some DeleteConfirm else if (cancel : bool) then Some DeleteCancel else None)
  else
    delete ← button "Delete"; mret (if (delete : bool) then Some DeleteRequest else None).

(** [copy_value_button]: the value to copy. *)
Definition copy_value_button (v : EditableValue) (request : option bytes) : Desk (option bytes) :=
  match copyable_text v with
  | None => mret request
  | Some text => clicked ← button "Copy"; mret (if (clicked : bool) then Some (bytes_of text) else request)
  end.
Definition show_revealed_field (f : EditableField) (request : option bytes) : Desk (option bytes) :=
  label (editable_name f);;
  match editable_value f with
  | EditText value => call (ReadOnlyValue value);; copy_value_button (editable_value f) request
  | EditBinary value _ => label (binary_text value);; mret request
  end.

(** The fields of the draft that is edited: the draft, whether it changed, the field to
    remove and the value to copy. *)
Record EditState := { edit_fields : list EditableField; edit_dirty : bool; edit_remove : option nat; edit_copy : option bytes }.
Definition edit_value (v : EditableValue) : Desk (EditableValue * bool) :=
  match v with
  | EditText value => r ← call (ValueField "secret value" value); mret (EditText (typed r), changed r)
  | EditBinary value _ => label (binary_text value);; mret (v, false)
  end.
Definition show_edited_field (can_remove : bool) (i : nat) (f : EditableField) (e : EditState) : Desk EditState :=
  name ← call (TextField "field_name" (editable_name f));
  '(value, value_changed) ← edit_value (editable_value f);
  copy ← copy_value_button value (edit_copy e);
  remove ← only_if can_remove (button "×");
  mret {| edit_fields := edit_fields e ++ [{| editable_name := typed name; editable_value := value |}];
          edit_dirty := edit_dirty e || changed name || value_changed;
          edit_remove := if (remove : bool) then Some i else edit_remove e; edit_copy := copy |}.
Definition show_editor (d : EditSecretDraft) (dirty : bool) : Desk (option DetailAction * option bytes) :=
  name ← call (TextField "" (draft_secret_name d));
  e ← gui_fold (fun f => show_edited_field (1 <? length (editable_fields d))%nat f.1 f.2) (imap pair (editable_fields d))
        {| edit_fields := []; edit_dirty := dirty || changed name; edit_remove := None; edit_copy := None |};
  let d := {| draft_id := draft_id d; draft_secret_name := typed name; editable_fields := edit_fields e |} in
  let '(removed, d) := match edit_remove e with Some i => remove_editable_field i d | None => (false, d) end in
  add ← button "Add field";
  let d := if (add : bool) then add_text_field d else d in
  modifies (fun s => s <| detail ::= set_mode (Editing d (edit_dirty e || removed || add)) |>);;
  save ← button "Save changes";
  cancel ← button "Cancel";
  mret (if (cancel : bool) then Some ActCancel else if (save : bool) then Some ActSave else None, edit_copy e).

Definition copy_requested (value : option bytes) : Desk unit :=
  match value with
  | None => mret tt
  | Some value =>
    copied ← call (CopyText value);
    modifies (fun s => s <| notice ::=
      set_clipboard_notice (if (copied : bool) then "Copied" else "Clipboard is unavailable") |>)
  end.
Definition handle_delete_action (id : SecretId) (a : option DeleteAction) : Desk unit :=
  match a with
  | Some DeleteRequest =>
    modifies (fun s => s <| pending_delete := Some id |>);; set_notice (danger_notice "Delete this secret permanently?")
  | Some DeleteConfirm =>
    r ← delete_secret ask id; modifies (fun s => s <| pending_delete := None |>);; handle_delete_result ask r
  | Some DeleteCancel => modifies (fun s => s <| pending_delete := None |>)
  | None => mret tt
  end.
Definition show_selected_fields (authorized : bool) (m : SecretMetadata) (shown : DetailMode) :
    Desk (option DetailAction * option bytes) :=
  if negb authorized then mask_fields m;; mret (None, None)
  else match shown with
       | Hidden => mask_fields m;; mret (None, None)
       | Revealed d => copy ← gui_fold show_revealed_field (editable_fields d) None; mret (None, copy)
       | Editing d dirty => show_editor d dirty
       end.
Definition show_selected_workspace (m : SecretMetadata) : Desk unit :=
  session ← vault_session_id ask;
  s ← gets id;
  let authorized := match session with Ok vault => is_authorized vault (detail s) | Err _ => false end in
  let editing := match mode (detail s) with Editing _ _ => true | _ => false end in
  action ← (if editing then mret None else show_primary_actions (selected_action_set authorized (mode (detail s))));
  delete ← (if editing then mret None else show_delete_actions (meta_id m));
  '(edit_action, copy) ← show_selected_fields authorized m (mode (detail s));
  copy_requested copy;;
  handle_delete_action (meta_id m) delete;;
  match (match edit_action with Some a => Some a | None => action end) with
  | Some a => handle_detail_action ask a
  | None => mret tt
  end.

(** [secret_confirmation_controls], [show_secret_confirmation] and
    [show_discard_confirmation]. *)
Definition secret_confirmation_controls (actions : list ConfirmationAction) : Desk (option ConfirmationAction * bool) :=
  (if bool_decide (ByPin ∈ actions) then edit_local_pin;; mret tt else mret tt);;
  touch ← only_if (bool_decide (ByTouchId ∈ actions)) (button "Touch ID");
  pin ← only_if (bool_decide (ByPin ∈ actions)) (button "PIN");
  cancel ← button "Cancel";
  mret (if (pin : bool) then Some ByPin else if (touch : bool) then Some ByTouchId else None, cancel).
Definition available_actions : Desk (list ConfirmationAction) :=
  touch_id_available ← call TouchAvailable;
  configured ← gets has_configured_pin;
  mret (confirmation_actions touch_id_available configured).
Definition show_secret_confirmation (m : SecretMetadata) : Desk unit :=
  actions ← available_actions;
  '(action, cancel) ← secret_confirmation_controls actions;
  show_notice;;
  if (cancel : bool) then
    drop_touch_id ask;; modifies (fun s => s <| unlock_confirmation := false |> <| local_pin := "" |>)
  else match action with
       | Some a => authenticate_selected_secret ask argon2id a (meta_name m)
       | None => mret tt
       end.
Definition show_discard_confirmation : Desk unit :=
  continue_editing ← button "Continue editing";
  discard ← button "Discard changes";
  if (continue_editing : bool) then
    modifies (fun s => s <| detail ::= cancel_pending_navigation |> <| discard_confirmation := false |>)
  else if (discard : bool) then
    closing ← finish_discard_navigation ask; if (closing : bool) then viewport CloseWindow else mret tt
  else mret tt.

(** ** Agent access *)
Definition expiration_text (g : AgentGrantView) : string :=
  match view_expires_at g with
  | Some t => format_local_time t
  | None => if view_expires_with_session g then "Until session ends"
            else add_text (format_grant_remaining (view_remaining g)) " remaining"
  end.
Definition show_session_grant (client : Uuid) (g : AgentGrantView) (c : AccessClicks) : Desk AccessClicks :=
  label (sanitize_untrusted (view_name g));;
  label (expiration_text g);;
  revoke ← button "Revoke";
  mret (if (revoke : bool) then {| clicked_allow := clicked_allow c; clicked_session := clicked_session c;
    clicked_save := clicked_save c; clicked_grant := Some (client, view_secret g) |} else c).
Definition show_session_editor (client : Uuid) (d : SessionDetails) (c : AccessClicks) : Desk AccessClicks :=
  opened ← call (Opened "Local alias and note");
  if negb opened then mret c
  else
    editors ← gets session_editors;
    let e := current_editor client d editors in
    name ← call (TextField "Your session name" (editor_name e));
    note ← call (TextField "Your note" (editor_note e));
    modifies (fun s => s <| session_editors ::= <[client := {| editor_connection := editor_connection e;
      editor_name := typed name; editor_note := typed note |}]> |>);;
    save ← button "Save alias and note";
    mret (if (save : bool) then {| clicked_allow := clicked_allow c; clicked_session := clicked_session c;
      clicked_save := Some (client, connection_id d, typed name, typed note); clicked_grant := clicked_grant c |} else c).
Definition show_agent_session (v : AgentSessionView) (c : AccessClicks) : Desk AccessClicks :=
  let d := session_details v in
  let client := session_client v in
  modifies (fun s => s <| session_editors ::= fun m => <[client := current_editor client d m]> m |>);;
  label (sanitize_untrusted (if bool_decide (user_name d = "") then reported_name d else user_name d));;
  label (add_text (sanitize_untrusted (reported_name d)) " (reported)");;
  label (short_session_id client);;
  label (session_status v);;
  (if bool_decide (session_directory d = "") then mret tt
   else label (add_text "Project: " (sanitize_untrusted (session_directory d))));;
  label (add_text "Last activity: " (format_local_time (last_activity d)));;
  label (sanitize_untrusted (last_action d));;
  c ← show_session_editor client d c;
  c ← gui_fold (show_session_grant client) (session_grants v) c;
  pending ← gets pending_touch_id;
  allow ← only_if (negb (bool_decide (is_Some pending))) (button "Allow all current secrets…");
  revoke ← button "Revoke session";
  mret {| clicked_allow := if (allow : bool) then Some client else clicked_allow c;
          clicked_session := if (revoke : bool) then Some client else clicked_session c;
          clicked_save := clicked_save c; clicked_grant := clicked_grant c |}.

(** [show_legacy_agent_access]: the grants of clients without a connection. *)
Definition is_connected (sessions : list AgentSessionView) (client : Uuid) : bool :=
  existsb (fun v => bool_decide (session_client v = client)) sessions.
Definition show_legacy_grant (client : Uuid) (g : AgentGrantView) (revoke : option (Uuid * SecretId)) :
    Desk (option (Uuid * SecretId)) :=
  label (sanitize_untrusted (view_name g));;
  label (if view_expires_with_session g then "Until session ends"
         else add_text (format_grant_remaining (view_remaining g)) " remaining");;
  clicked ← button "Revoke";
  mret (if (clicked : bool) then Some (client, view_secret g) else revoke).
Definition show_legacy_client (grants : list AgentGrantView) (sessions : list AgentSessionView) (g : AgentGrantView)
    (acc : gset Uuid * option (Uuid * SecretId)) : Desk (gset Uuid * option (Uuid * SecretId)) :=
  let '(shown, revoke) := acc in
  let client := view_client g in
  if is_connected sessions client || bool_decide (client ∈ shown) then mret acc
  else
    label (sanitize_untrusted (view_label g));;
    label (short_session_id client);;
    revoke ← gui_fold (show_legacy_grant client) (List.filter (fun g => bool_decide (view_client g = client)) grants) revoke;
    mret ({[client]} ∪ shown, revoke).
Definition show_legacy_agent_access : Desk unit :=
  s ← gets id;
  '(_, revoke) ← gui_fold (show_legacy_client (agent_grants s) (agent_sessions s)) (agent_grants s) (∅, None);
  revoke_all ← only_if (negb (is_empty (agent_grants s)) || agent_command_active s) (button "Revoke all");
  match revoke with Some (client, id) => revoke_agent_grant ask client id | None => mret tt end;;
  if (revoke_all : bool) then revoke_all_agent_grants ask else mret tt.
Definition show_other_access (s : LadonDesktop) : Desk unit :=
  if existsb (fun g => negb (is_connected (agent_sessions s) (view_client g))) (agent_grants s)
  then show_legacy_agent_access
  else
    all ← only_if (negb (is_empty (agent_grants s)) || agent_command_active s) (button "Revoke all");
    if (all : bool) then revoke_all_agent_grants ask else mret tt.
Definition show_agent_access : Desk unit :=
  s ← gets id;
  if is_empty (agent_sessions s) then show_legacy_agent_access
  else
    c ← gui_fold show_agent_session (agent_sessions s) no_clicks;
    show_other_access s;;
    match clicked_save c with
    | Some (client, connection, name, note) =>
      r ← with_broker (call (BrokerAnnotate client connection name note));
      notice_from r "Session alias and note saved";; refresh_agent_grants ask
    | None => mret tt
    end;;
    match clicked_session c with
    | Some client =>
      r ← with_broker (call (BrokerRevokeSession client));
      notice_from r "Session access revoked";; refresh_agent_grants ask
    | None => mret tt
    end;;
    match clicked_grant c with Some (client, id) => revoke_agent_grant ask client id | None => mret tt end;;
    match clicked_allow c with Some client => begin_unattended_confirmation ask client | None => mret tt end.

(** [show_unattended_confirmation]. *)
Definition choose_lifetime (choice : UnattendedLifetime * string) : Desk unit :=
  clicked ← button choice.2;
  if (clicked : bool) then
    modifies (fun s => s <| unattended_confirmation ::= fmap (fun c => {|
      consent := consent c; captured_at := captured_at c; lifetime := choice.1; typed_time := typed_time c |}) |>)
  else mret tt.
Definition edit_deadline : Desk unit :=
  c ← gets unattended_confirmation;
  match c with
  | Some {| lifetime := Custom; typed_time := time |} =>
    r ← call (TextField "HH:MM within the next 24 hours" time);
    modifies (fun s => s <| unattended_confirmation ::= fmap (fun c => {|
      consent := consent c; captured_at := captured_at c; lifetime := lifetime c; typed_time := typed r |}) |>)
  | _ => mret tt
  end.
Definition confirm_unattended (actions : list ConfirmationAction) (enabled : bool) : Desk (option ConfirmationAction) :=
  touch ← only_if (enabled && bool_decide (ByTouchId ∈ actions)) (button "Confirm with Touch ID");
  pin ← only_if (enabled && bool_decide (ByPin ∈ actions)) (edit_local_pin;; button "Confirm with PIN");
  mret (if (pin : bool) then Some ByPin else if (touch : bool) then Some ByTouchId else None).
Definition show_unattended_confirmation : Desk unit :=
  c ← gets unattended_confirmation;
  match c with
  | None => mret tt
  | Some c =>
    actions ← available_actions;
    pending ← gets pending_touch_id;
    let busy := bool_decide (is_Some pending) in
    label (sanitize_untrusted (context_label (consent_context (consent c))));;
    label (short_session_id (context_client (consent_context (consent c))));;
    label (number (length (consent_secrets (consent c))));;
    each (fun m => label (sanitize_untrusted (meta_name m))) (consent_secrets (consent c));;
    (if busy then mret tt else each choose_lifetime UNATTENDED_CHOICES;; edit_deadline);;
    chosen ← gets unattended_confirmation;
    let deadline := match chosen with Some c => confirmed_deadline c | None => Err InvalidRequest end in
    match deadline with Ok t => label (add_text "Expires: " (format_local_time t)) | Err _ => mret tt end;;
    action ← confirm_unattended actions (negb busy && is_ok deadline);
    show_notice;;
    cancel ← button "Cancel";
    if (cancel : bool) then
      modifies (fun s => s <| unattended_confirmation := None |>);; drop_touch_id ask;; clear_pin
    else match action with
         | Some method => authenticate_unattended ask argon2id method
         | None => mret tt
         end
  end.

(** ** Requests of agents *)

(** [approval_lifetime_picker]: a choice that is remembered for the request. *)
Definition pick (enabled : bool) (choice current : ApprovalLifetime) : Desk ApprovalLifetime :=
  clicked ← only_if enabled (button (Lifetime.label choice));
  mret (if (clicked : bool) then choice else current).
Definition approval_lifetime_picker (request : Uuid) (session_connected authenticating : bool) : Desk ApprovalLifetime :=
  stored ← call (StoredLifetime request);
  let l := default ThirtyMinutes stored in
  let l := match l with SessionLifetime => if session_connected then l else ThirtyMinutes | _ => l end in
  l ← pick (negb authenticating) ThirtyMinutes l;
  l ← pick (negb authenticating) EndOfDay l;
  l ← pick (negb authenticating && session_connected) SessionLifetime l;
  call (StoreLifetime request l);;
  mret l.
Definition show_approval_command (v : PendingRequestView) : Desk unit :=
  label (view_executable v);;
  opened ← (if is_long_command v then call (Opened "Show full command") else mret true);
  (if (opened : bool) then each (fun a => label a) (view_arguments v) else mret tt);;
  label (add_text "in " (view_directory v)).
Definition focus_approval (next : option Uuid) : Desk bool :=
  s ← gets id;
  let '(moved, focused, pin) := update_focused_approval next (focused_approval s) (local_pin s) in
  modifies (fun s => s <| focused_approval := focused |> <| local_pin := pin |>);;
  mret moved.
Definition deny_request (id : Uuid) : Desk unit :=
  drop_touch_id ask;; clear_pin;;
  r ← with_broker (call (BrokerDeny id));
  notice_from r "Agent request denied".

(** The window of an approval: the choices of the user, of which allowing all current
    secrets comes first. *)
Definition show_approval_window (p : PendingApproval) (actions : list ConfirmationAction) :
    Desk (option ApprovalAction * ApprovalLifetime * bool) :=
  let view := view_from_approval p (from_secs (2 * 60)) in
  connected ← with_broker (call (BrokerConnected (approval_client p)));
  let session_connected := match connected with Ok b => b | Err _ => false end in
  label (add_text "Reported client: " (Editor.view_label view));;
  each (fun nf => label nf.1;; each (fun f => label f) nf.2) (view_secrets view);;
  show_approval_command view;;
  pending ← gets pending_touch_id;
  l ← approval_lifetime_picker (approval_id p) session_connected (bool_decide (is_Some pending));
  touch ← only_if (bool_decide (ByTouchId ∈ actions)) (button "Confirm with Touch ID");
  pin ← only_if (bool_decide (ByPin ∈ actions)) (edit_local_pin;; button "Confirm with PIN");
  unattended ← only_if (session_connected && negb (bool_decide (is_Some pending))) (button "Allow all current secrets…");
  deny ← button "Deny";
  show_notice;;
  mret (if (deny : bool) then Some DenyRequest else if (pin : bool) then Some (ApproveBy ByPin)
        else if (touch : bool) then Some (ApproveBy ByTouchId) else None, l, unattended).
Definition show_pending_approval : Desk unit :=
  c ← gets unattended_confirmation;
  if bool_decide (is_Some c) then mret tt
  else
    r ← with_broker (call BrokerPending);
    match r with
    | Ok (Some p) =>
      cancel_stale_approval_touch_id ask (Some (approval_id p, approval_vault p));;
      moved ← focus_approval (Some (approval_id p));
      (if (moved : bool) then focus_window else mret tt);;
      actions ← available_actions;
      '(action, l, unattended) ← show_approval_window p actions;
      if (unattended : bool) then begin_unattended_confirmation ask (approval_client p)
      else match action with
           | Some (ApproveBy method) => authenticate_pending_approval ask argon2id method p l
           | Some DenyRequest => deny_request (approval_id p)
           | None => mret tt
           end
    | Ok None => cancel_stale_approval_touch_id ask None;; focus_approval None;; mret tt
    | Err e => cancel_stale_approval_touch_id ask None;; focus_approval None;; notice_from (Err e) ""
    end.

(** [show_unlock_request]. *)
Definition deny_unlock (id : Uuid) : Desk unit :=
  with_broker (call (BrokerResolveUnlock id false));;
  modifies (fun s => s <| local_pin := "" |> <| passphrase := "" |>);;
  drop_touch_id ask.
Definition show_unlock_request : Desk unit :=
  r ← with_broker (call BrokerPendingUnlock);
  match r with
  | Ok (Some p) =>
    focused ← gets focused_unlock;
    (if bool_decide (focused = Some (unlock_id p)) then mret tt
     else
       modifies (fun s => s <| focused_unlock := Some (unlock_id p) |> <| scan_open := false |> <| focus_auth_input := true |>);;
       viewport (InnerSize 600 540);; focus_window);;
    s ← gets id;
    phase ← (if bool_decide (desktop_lock s = DesktopActive) && bool_decide (is_Some (session_confirmation s))
             then current_phase ask else mret PhaseLocked);
    if bool_decide (phase = PhaseUnlocked) then with_broker (call (BrokerResolveUnlock (unlock_id p) true));; mret tt
    else
      label (add_text "Reported client: " (sanitize_untrusted (unlock_label p)));;
      label (unlock_purpose p);;
      deny ← button "Deny request";
      if (deny : bool) then deny_unlock (unlock_id p) else mret tt
  | _ => modifies (fun s => s <| focused_unlock := None |>)
  end.

(** ** The manager and the frame *)
Definition show_manager_header (m : option SecretMetadata) : Desk unit :=
  d ← gets detail;
  match navigation_target d, m with
  | NavSessions, _ => mret tt
  | _, Some m => label (meta_name m);; label (add_text "ID: " (uuid_display (meta_id m)))
  | _, None => mret tt
  end;;
  lock ← button "Lock app";
  if (lock : bool) then lock_app ask else mret tt.
Definition show_workspace (m : option SecretMetadata) : Desk unit :=
  d ← gets detail;
  match navigation_target d, m with
  | NavSessions, _ => show_agent_access
  | _, Some m => show_selected_workspace m
  | _, None => show_add_workspace
  end;;
  show_notice.
Definition show_confirmations : Desk unit :=
  s ← gets id;
  (if unlock_confirmation s then
     m ← selected_metadata;
     match m with
     | Some m => show_secret_confirmation m
     | None => modifies (fun s => s <| unlock_confirmation := false |> <| local_pin := "" |>)
     end
   else mret tt);;
  s ← gets id;
  if discard_confirmation s then show_discard_confirmation else mret tt.
Definition show_unlocked : Desk bool :=
  show_secret_rail;;
  m ← selected_metadata;
  show_manager_header m;;
  show_workspace m;;
  phase ← current_phase ask;
  lock ← gets desktop_lock;
  if negb (manager_rendering_allowed phase lock) then
    synchronize_window_size false;; show_lock_overlay phase;; mret false
  else show_confirmations;; mret true.

(** The first part of [update], before anything is drawn: the phase of the frame. *)
Definition begin_frame : Desk VaultUiPhase :=
  process_tray;;
  process_external_lock ask;;
  r ← call ControllerRemaining;
  (if match r with Ok (Some d) => d =? 0 | _ => false end then handle_idle_timeout ask else mret tt);;
  process_app_lock_result ask;;
  process_touch_id_result ask;;
  phase ← call ControllerPhase;
  match phase with
  | Ok phase => synchronize_phase ask phase
  | Err _ => clear_sensitive_buffers ask;; modifies (fun s => s <| session_confirmation := None |>)
  end;;
  refresh_agent_grants ask;;
  mret (match phase with Ok phase => phase | Err _ => PhaseLocked end).

(** The request to close the window when there is no tray. *)
Definition process_close_request (phase : VaultUiPhase) : Desk unit :=
  s ← gets id;
  closing ← only_if (negb (has_tray s) && manager_rendering_allowed phase (desktop_lock s)) (call CloseRequested);
  if (closing : bool) then
    d ← gets detail;
    modifies (fun s => s <| detail ::= fun d => (request_navigation NavClose d).2 |>);;
    match (request_navigation NavClose d).1 with
    | ConfirmDiscard => viewport CancelClose;; modifies (fun s => s <| discard_confirmation := true |>)
    | Applied => mret tt
    end
  else mret tt.
Definition show_unlocked_phase : Desk unit :=
  s ← gets id;
  match desktop_lock s, session_confirmation s with
  | DesktopLocking _, _ => mret tt
  | DesktopLocked _, _ => show_app_locked
  | DesktopActive, None => show_session_auth_setup
  | DesktopActive, Some _ =>
    drawn ← show_unlocked;
    if (drawn : bool) then show_pending_approval;; show_unattended_confirmation else mret tt
  end.
Definition draw_frame (phase : VaultUiPhase) : Desk unit :=
  s ← gets id;
  synchronize_window_size (manager_rendering_allowed phase (desktop_lock s) && bool_decide (is_Some (session_confirmation s)));;
  process_close_request phase;;
  show_exposure_scan;;
  show_unlock_request;;
  match phase with
  | PhaseFirstRun => show_first_run
  | PhaseLocked => show_locked
  | PhaseRecoveryRequired => show_recovery
  | PhaseUnlocked => show_unlocked_phase
  end.

(** [update]. *)
Definition update : Desk unit := phase ← begin_frame; draw_frame phase.

(** [eframe] draws frames until the window is closed. *)
Fixpoint frames (n : nat) : Desk unit := match n with O => mret tt | S n => update;; frames n end.
End views.
