(* ===== verification/DesktopInvariant.v ===== *)
(** * DesktopInvariant: what every operation of the window keeps

    The calls that were made are the evidence for what is asked later: the dialog that
    was drawn for exactly this target, with its texts and its lifetime, and the choice made
    in it; Touch ID's answer to the attempt that was started for it, or the PIN that was
    typed there and is the one the user set; the request and the vault session that were
    read again.  [inv] says that the state of the window is backed by such evidence and
    that every call was made [careful]ly; every operation of [Desktop] keeps it. *)

From coqutil Require Import Datatypes.RecordSettersUsingExistingGetters.
From S2P Require Import Prelude Errors Time Utf8 Text Model Vault Paths Calls Grants Approval UnlockRequests Editor SessionAuth.
From S2P Require Import Controller BrokerHandle Detection Scan Lifetime Gui Desktop DesktopViews.
Local Open Scope Z_scope.

(** ** Evidence in the log *)
Abbreviation call_property := (forall A, DesktopCall A -> A -> log -> Prop) (only parsing).

(** The calls that an authentication allows, each of which uses it up. *)
Definition privileged {A} (c : DesktopCall A) : bool :=
  match c with
  | BrokerApproveFor _ _ | BrokerApproveUntil _ _ | BrokerApproveSession _ | BrokerGrantUnattended _ _
  | BrokerUnlockApp _ => true
  | _ => false
  end.

(** A call since the last privileged one. *)
Fixpoint some_recent (P : call_property) (l : log) : Prop :=
  match l with
  | [] => False
  | Event c a :: l => if privileged c then False else P _ c a l \/ some_recent P l
  end.

(** The attempt that Touch ID was last asked for, its reason, and the log before. *)
Fixpoint latest_spawn (l : log) : option (nat * string * log) :=
  match l with
  | [] => None
  | Event c a :: l =>
    match c in DesktopCall A return A -> option (nat * string * log) with
    | TouchSpawn reason => fun r => match r with Ok attempt => Some (attempt, reason, l) | Err _ => latest_spawn l end
    | _ => fun _ => latest_spawn l
    end a
  end.

(** Answers that were seen. *)
Definition shown_pending (id vault : Uuid) : call_property := fun A c a _ =>
  match c in DesktopCall A return A -> Prop with
  | BrokerPending => fun r => exists p, r = Ok (Some p) /\ approval_id p = id /\ approval_vault p = vault
  | _ => fun _ => False
  end a.
Definition shown_consent (x : UnattendedConsent) : call_property := fun A c a _ =>
  match c in DesktopCall A return A -> Prop with BrokerSnapshot _ => fun r => r = Ok x | _ => fun _ => False end a.
Definition session_seen (vault : Uuid) : call_property := fun A c a _ =>
  match c in DesktopCall A return A -> Prop with ControllerSession => fun r => r = Ok (Some vault) | _ => fun _ => False end a.
Definition lock_finished (epoch : Z) : call_property := fun A c a _ =>
  match c in DesktopCall A return A -> Prop with AppLockResult e => fun r => e = epoch /\ r = Some (Ok tt) | _ => fun _ => False end a.

(** The vault that was open with the last call, which read the phase with it. *)
Definition open_vault (vault : Uuid) (l : log) : Prop :=
  match l with
  | Event c a :: _ =>
    match c in DesktopCall A return A -> Prop with
    | ControllerContext => fun r => r = Some (PhaseUnlocked, Some vault)
    | _ => fun _ => False
    end a
  | [] => False
  end.

(** What was shown before a target was confirmed. *)
Definition subject (t : TouchIdTarget) (l : log) : Prop :=
  match t with
  | TouchUnattended x _ => some_call (shown_consent x) l
  | TouchAppUnlock _ epoch => some_call (lock_finished epoch) l
  | TouchSecret a vault => attempt_vault a = vault /\ some_call (session_seen vault) l
  | TouchApproval id vault _ => some_call (shown_pending id vault) l
  end.

(** *** Choices in a dialog

    A dialog is drawn from a call that answers what it is about, and what the user
    did in it was answered after it, before another dialog or another frame began. *)
Definition marks {A} (c : DesktopCall A) : bool :=
  match c with
  | ControllerRemaining | ControllerSecrets | BrokerPending | BrokerSnapshot _ | StoreLifetime _ _ => true
  | _ => false
  end.
Fixpoint undisturbed (P : call_property) (l : log) : Prop :=
  match l with
  | [] => False
  | Event c a :: l => P _ c a l \/ marks c = false /\ undisturbed P l
  end.
Definition labelled (text : string) : call_property := fun A c _ _ =>
  match c with Label shown => shown = text | _ => False end.
Definition drawn (l : log) (text : string) : Prop := undisturbed (labelled text) l.

(** What the dialog of a request, of an unattended grant and of a secret shows. *)
Definition pending_is (p : PendingApproval) : call_property := fun A c a _ =>
  match c in DesktopCall A return A -> Prop with BrokerPending => fun r => r = Ok (Some p) | _ => fun _ => False end a.
Definition request_texts `{TextCrates} (v : PendingRequestView) : list string :=
  add_text "Reported client: " (Editor.view_label v) :: (view_secrets v ≫= (fun nf => nf.1 :: nf.2)) ++
  [view_executable v; add_text "in " (view_directory v)].
Definition consent_texts `{TextCrates} (x : UnattendedConsent) : list string :=
  sanitize_untrusted (context_label (consent_context x)) :: short_session_id (context_client (consent_context x)) ::
  number (length (consent_secrets x)) :: ((fun m => sanitize_untrusted (meta_name m)) <$> consent_secrets x).
Definition lists_secret (id : SecretId) (r : LResult (list SecretMetadata)) : Prop :=
  exists metas, r = Ok metas /\ Exists (fun m => meta_id m = id) metas.

(** The dialog of a target begins with this call. *)
Definition dialog_of `{LocalTime, TextCrates} (t : TouchIdTarget) : call_property := fun A c a l =>
  match t, c in DesktopCall A return A -> Prop with
  | TouchApproval id vault lifetime, StoreLifetime request chosen => fun _ =>
    request = id /\ chosen = lifetime /\ exists p, undisturbed (pending_is p) l /\ approval_id p = id /\ approval_vault p = vault /\
    Forall (drawn l) (request_texts (view_from_approval p (from_secs (2 * 60))))
  | TouchUnattended x deadline, Label text => fun _ =>
    text = add_text "Expires: " (format_local_time deadline) /\ Forall (drawn l) (consent_texts x)
  | TouchSecret attempt _, ControllerSecrets => lists_secret (attempt_secret attempt)
  | TouchAppUnlock _ _, TouchAvailable => fun _ => True
  | _, _ => fun _ => False
  end a.
Definition touch_button (t : TouchIdTarget) : string :=
  match t with
  | TouchApproval _ _ _ | TouchUnattended _ _ => "Confirm with Touch ID"
  | TouchSecret _ _ => "Touch ID"
  | TouchAppUnlock _ _ => "Unlock"
  end.
Definition pin_button (t : TouchIdTarget) : string :=
  match t with
  | TouchApproval _ _ _ | TouchUnattended _ _ => "Confirm with PIN"
  | TouchSecret _ _ => "PIN"
  | TouchAppUnlock _ _ => "Unlock with PIN"
  end.

(** The user clicked the button for Touch ID in the dialog of [t], or the button for the
    PIN (Enter in its field, for the interface) after typing [text] there. *)
Definition touch_clicked `{LocalTime, TextCrates} (t : TouchIdTarget) : call_property := fun A c a l =>
  match c in DesktopCall A return A -> Prop with
  | Button b => fun clicked => b = touch_button t /\ clicked = true /\ undisturbed (dialog_of t) l
  | _ => fun _ => False
  end a.
Definition typed_pin `{LocalTime, TextCrates} (t : TouchIdTarget) (text : string) : call_property := fun A c a l =>
  match c in DesktopCall A return A -> Prop with
  | PasswordField h _ => fun r => h = "Session PIN" /\ typed r = text /\ undisturbed (dialog_of t) l
  | _ => fun _ => False
  end a.
Definition entered_pin `{LocalTime, TextCrates} (t : TouchIdTarget) (text : string) : call_property := fun A c a l =>
  match c in DesktopCall A return A -> Prop with
  | PasswordField _ _ => fun r => submitted r = true /\ (exists vault epoch, t = TouchAppUnlock vault epoch) /\ typed_pin t text A c a l
  | Button b => fun clicked => b = pin_button t /\ clicked = true /\ undisturbed (typed_pin t text) l
  | _ => fun _ => False
  end a.
Definition touch_choice `{LocalTime, TextCrates} (t : TouchIdTarget) (l : log) : Prop := undisturbed (touch_clicked t) l.
Definition pin_choice `{LocalTime, TextCrates} (t : TouchIdTarget) (text : string) (l : log) : Prop :=
  undisturbed (entered_pin t text) l.

(** How Touch ID was asked for a target. *)
Definition asked_for `{LocalTime, TextCrates} (t : TouchIdTarget) (reason : string) (l : log) : Prop :=
  subject t l /\ touch_choice t l /\
  match t with
  | TouchAppUnlock vault _ => reason = APP_UNLOCK_REASON /\ open_vault vault l
  | TouchSecret _ _ => exists name, reason = secret_reason name
  | TouchUnattended _ _ | TouchApproval _ _ _ => reason = AGENT_SESSION_REASON
  end.

(** A fact of the log before, and no privileged call since. *)
Fixpoint recently (P : log -> Prop) (l : log) : Prop :=
  P l \/ match l with [] => False | Event c _ :: l => privileged c = false /\ recently P l end.

Section evidence.
Context (argon2id : Z -> Z -> Z -> Z -> bytes -> bytes -> option bytes).
Context `{LocalTime, TextCrates}.

(** A successful answer of the last attempt. *)
Definition touch_succeeded (t : TouchIdTarget) : call_property := fun A c a l =>
  match c in DesktopCall A return A -> Prop with
  | TouchResult attempt => fun r =>
    r = Some (Ok tt) /\ exists reason before, latest_spawn l = Some (attempt, reason, before) /\ asked_for t reason before
  | _ => fun _ => False
  end a.

(** A PIN that the user set, typing it twice, and one that was typed into a prompt. *)
Definition typed_into (hint text : string) : call_property := fun A c a _ =>
  match c in DesktopCall A return A -> Prop with
  | PasswordField h _ => fun r => h = hint /\ typed r = text
  | _ => fun _ => False
  end a.
Definition pin_set (p : SessionPin) : call_property := fun A c a l =>
  match c in DesktopCall A return A -> Prop with
  | DrawSalt => fun salt => exists text, SessionPin_new argon2id salt text text = Ok p /\
      some_call (typed_into "PIN (4–12 digits)" text) l /\ some_call (typed_into "Repeat PIN" text) l
  | _ => fun _ => False
  end a.
Definition pin_chosen (t : TouchIdTarget) (l : log) : Prop :=
  exists p text, pin_choice t text l /\ some_call (pin_set p) l /\ verify argon2id p text = Ok tt.

(** The user confirmed [t] in its dialog, with Touch ID or with the PIN, and it was not
    used since. *)
Definition confirmed (t : TouchIdTarget) (l : log) : Prop :=
  some_recent (touch_succeeded t) l \/ subject t l /\ recently (pin_chosen t) l.

(** A selected secret that the user confirmed at some time. *)
Definition secret_confirmed (a : LocalAuthAttempt) (l : log) : Prop :=
  exists before, before `suffix_of` l /\ confirmed (TouchSecret a (attempt_vault a)) before.
Definition unlocked_secret (id : SecretId) (l : log) : Prop :=
  exists a, attempt_secret a = id /\ secret_confirmed a l.

(** The request and the session were read again just before, the clock perhaps since. *)
Definition just_checked (id vault : Uuid) (l : log) : Prop :=
  exists p base, (l = base \/ exists t, l = Event SystemNow t :: base) /\ approval_id p = id /\ approval_vault p = vault /\
    exists rest, base = Event BrokerPending (Ok (Some p)) :: Event ControllerSession (Ok (Some vault)) :: rest.
Definition loaded (d : EditSecretDraft) : call_property := fun A c a _ =>
  match c in DesktopCall A return A -> Prop with
  | ControllerLoad _ => fun r => exists vault, r = Ok (vault, d)
  | _ => fun _ => False
  end a.

(** What is asked of the broker and the controller, and what is shown, was confirmed. *)
Definition approval_confirmed (id : Uuid) (lifetime : ApprovalLifetime) (l : log) : Prop :=
  exists vault, just_checked id vault l /\ confirmed (TouchApproval id vault lifetime) l.
(** The end of the day of the last call, which read the clock. *)
Definition end_of_this_day (deadline : SystemTime) (l : log) : Prop :=
  match l with
  | Event c a :: _ =>
    match c in DesktopCall A return A -> Prop with SystemNow => fun now => local_day_end now = Ok deadline | _ => fun _ => False end a
  | [] => False
  end.
Definition careful : call_property := fun A c _ l =>
  match c with
  | BrokerApproveFor id d => d = from_secs (30 * 60) /\ approval_confirmed id ThirtyMinutes l
  | BrokerApproveUntil id deadline => approval_confirmed id EndOfDay l /\ end_of_this_day deadline l
  | BrokerApproveSession id => approval_confirmed id SessionLifetime l
  | BrokerGrantUnattended x deadline => confirmed (TouchUnattended x deadline) l
  | BrokerUnlockApp epoch => exists vault, open_vault vault l /\ confirmed (TouchAppUnlock vault epoch) l
  | ControllerLoad id => unlocked_secret id l
  | BrokerUpdate d => unlocked_secret (draft_id d) l
  | ReadOnlyValue value => exists d, some_call (loaded d) l /\ unlocked_secret (draft_id d) l /\
      Exists (fun f => editable_value f = EditText value) (editable_fields d)
  | ValueField hint _ => hint = "secret value"%string -> exists id, unlocked_secret id l
  | CopyText _ => exists id, unlocked_secret id l
  | _ => True
  end.

(** ** The invariant *)

(** A call that no evidence and no obligation depends on. *)
Definition ordinary {A} (c : DesktopCall A) : bool :=
  match c with
  | BrokerApproveFor _ _ | BrokerApproveUntil _ _ | BrokerApproveSession _ | BrokerGrantUnattended _ _ | BrokerUnlockApp _
  | ControllerLoad _ | BrokerUpdate _ | ReadOnlyValue _ | CopyText _ | TouchSpawn _ => false
  | ValueField hint _ => negb (bool_decide (hint = "secret value"%string))
  | _ => true
  end.

(** The draft of the secret that is shown, and what a locked interface holds. *)
Definition mode_draft (m : DetailMode) : option EditSecretDraft :=
  match m with Hidden => None | Revealed d | Editing d _ => Some d end.
Record blank (s : LadonDesktop) : Prop := {
  blank_grants : agent_grants s = [];
  blank_sessions : agent_sessions s = [];
  blank_editors : session_editors s = ∅;
  blank_unattended : unattended_confirmation s = None;
  blank_mode : mode (detail s) = Hidden;
  blank_selected : selected (detail s) = None;
  blank_navigation : navigation_target (detail s) = NavAdd;
  blank_authorized : detail_authorized (detail s) = None;
  blank_pins : session_pin s = "" /\ session_pin_confirmation s = "";
  blank_discard : discard_confirmation s = false;
}.
Record inv (s : LadonDesktop) (l : log) : Prop := {
  inv_careful : every_call careful l;
  inv_confirmation c p : session_confirmation s = Some c -> pin c = Some p -> some_call (pin_set p) l;
  inv_touch p : pending_touch_id s = Some p ->
    exists reason before, latest_spawn l = Some (authentication p, reason, before) /\ asked_for (target p) reason before;
  inv_unattended c : unattended_confirmation s = Some c -> some_call (shown_consent (consent c)) l;
  inv_authorized a : detail_authorized (detail s) = Some a -> secret_confirmed a l;
  inv_draft d : mode_draft (mode (detail s)) = Some d -> unlocked_secret (draft_id d) l;
  inv_revealed d : mode (detail s) = Revealed d -> some_call (loaded d) l;
  inv_locked epoch : desktop_lock s = DesktopLocked epoch -> some_call (lock_finished epoch) l;
}.

(** *** Evidence lasts *)
Lemma undisturbed_event P {A} (c : DesktopCall A) a l : marks c = false -> undisturbed P l -> undisturbed P (Event c a :: l).
Proof. by right. Qed.
Lemma suffix_event (l : log) e : l `suffix_of` e :: l.
Proof. by exists [e]. Qed.
Lemma some_call_event P (l : log) e : some_call P l -> some_call P (e :: l).
Proof. apply some_call_suffix, suffix_event. Qed.
Lemma secret_confirmed_suffix a l l' : l `suffix_of` l' -> secret_confirmed a l -> secret_confirmed a l'.
Proof. intros Hs (before & Hb & Hc). exists before. split; [by trans l|done]. Qed.
Lemma unlocked_secret_suffix id l l' : l `suffix_of` l' -> unlocked_secret id l -> unlocked_secret id l'.
Proof. intros Hs (a & Ha & Hc). exists a. split; [done|by eapply secret_confirmed_suffix]. Qed.

Lemma latest_spawn_ordinary {A} (c : DesktopCall A) a l : (forall r, existT A c <> existT _ (TouchSpawn r)) -> latest_spawn (Event c a :: l) = latest_spawn l.
Proof. intros Hc. destruct c; try done. by destruct (Hc reason). Qed.

Lemma inv_event_careful {A} (c : DesktopCall A) a s l :
  (forall r, existT A c <> existT _ (TouchSpawn r)) -> careful A c a l -> inv s l -> inv s (Event c a :: l).
Proof.
  intros Hn Hc []. constructor; eauto using some_call_event, secret_confirmed_suffix, unlocked_secret_suffix, suffix_event.
  - by split.
  - intros p Hp. rewrite latest_spawn_ordinary by done. eauto.
Qed.
Lemma inv_event {A} (c : DesktopCall A) a s l : ordinary c = true -> inv s l -> inv s (Event c a :: l).
Proof.
  intros Ho. apply inv_event_careful; [intros r Hr; by simplify_eq Hr; destruct c|]. destruct c; try done. cbn in *.
  by bool_hyps.
Qed.

(** *** Evidence until the next privileged call *)
Lemma some_recent_event P {A} (c : DesktopCall A) a l : privileged c = false -> some_recent P l -> some_recent P (Event c a :: l).
Proof. intros Hp Hr. cbn. rewrite Hp. by right. Qed.
Lemma subject_suffix t l l' : l `suffix_of` l' -> subject t l -> subject t l'.
Proof. intros Hs. destruct t; cbn; intros; destruct_and?; split_and?; eauto using some_call_suffix. Qed.
Lemma recently_event P {A} (c : DesktopCall A) a l : privileged c = false -> recently P l -> recently P (Event c a :: l).
Proof. by right. Qed.
Lemma recently_now P l : P l -> recently P l.
Proof. destruct l as [|[A c a] l]; by left. Qed.
Lemma confirmed_event {A} t (c : DesktopCall A) a l : privileged c = false -> confirmed t l -> confirmed t (Event c a :: l).
Proof.
  intros Hp [Ht|[Hs He]]; [left; by apply some_recent_event|right; split; [|by apply recently_event]].
  eapply subject_suffix; [apply suffix_event|done].
Qed.
End evidence.

(** ** Every operation keeps the invariant *)

(** The invariant with a fact of the log: while the lock is being set, at any time, or
    while the interface is active. *)
Inductive moment : Set := Loosely | Always | WhileActive.
Definition kept argon2id `{LocalTime, TextCrates} (m : moment) (F : log -> Prop) (s : LadonDesktop) (l : log) : Prop :=
  inv argon2id s l /\ (m <> Loosely -> desktop_lock s <> DesktopActive -> blank s) /\
  (m = WhileActive -> desktop_lock s = DesktopActive) /\ F l.

(** A fact that lasts, and one that lasts until the next privileged call. *)
Definition lasting (F : log -> Prop) : Prop := forall l l', l `suffix_of` l' -> F l -> F l'.
Definition enduring (F : log -> Prop) : Prop :=
  forall A (c : DesktopCall A) a l, privileged c = false -> F l -> F (Event c a :: l).

Lemma lasting_enduring F : lasting F -> enduring F.
Proof. intros Hf A c a l _. apply Hf, suffix_event. Qed.
Lemma enduring_and F G : enduring F -> enduring G -> enduring (fun l => F l /\ G l).
Proof. intros Hf Hg A c a l Hp []. eauto. Qed.
Lemma some_call_enduring P : enduring (some_call P).
Proof. intros A c a l _. apply some_call_event. Qed.
Lemma subject_enduring t : enduring (subject t).
Proof. intros A c a l _. apply subject_suffix, suffix_event. Qed.
Lemma ordinary_unprivileged {A} (c : DesktopCall A) : ordinary c = true -> privileged c = false.
Proof. by destruct c. Qed.
Lemma kept_event argon2id `{LocalTime, TextCrates} {A} m F (c : DesktopCall A) a s l :
  enduring F -> ordinary c = true -> kept argon2id m F s l -> kept argon2id m F s (Event c a :: l).
Proof.
  intros Hf Ho (Hi & Hb & Ha & Hl). split_and!; [by apply inv_event|done|done|]. by apply Hf; [apply ordinary_unprivileged|].
Qed.
Lemma keeps_ordinary ask argon2id `{LocalTime, TextCrates} {A} m F (c : DesktopCall A) :
  enduring F -> ordinary c = true -> gui_keeps (kept argon2id m F) (gui_call ask c).
Proof. intros HF Ho. apply gui_keeps_call. intros s a l. by apply kept_event. Qed.
Lemma kept_active argon2id `{LocalTime, TextCrates} m F s l : kept argon2id m F s l -> desktop_lock s = DesktopActive -> kept argon2id WhileActive F s l.
Proof. intros (Hi & Hb & _ & Hf) Ha. by split_and!. Qed.
Lemma kept_weaken argon2id `{LocalTime, TextCrates} m F s l : kept argon2id WhileActive F s l -> kept argon2id m F s l.
Proof. intros (Hi & Hb & Ha & Hf). split_and!; [done|by intros _; apply Hb|by intros _; apply Ha|done]. Qed.
Lemma keeps_while_active argon2id `{LocalTime, TextCrates} {A} m F (p : Desk A) s l :
  gui_keeps (kept argon2id WhileActive F) p -> desktop_lock s = DesktopActive -> kept argon2id m F s l ->
  gui_wp p (fun _ => kept argon2id m F) s l.
Proof.
  intros Hp Ha Hk. eapply gui_wp_mono; [by apply Hp; eapply kept_active|]. intros a s' l'. apply kept_weaken.
Qed.
Lemma keeps_with_broker {A} I (m : Desk (LResult A)) : gui_keeps I m -> gui_keeps I (with_broker m).
Proof. intros Hm. apply gui_keeps_bind; [apply keeps_gets|]. intros []; [done|apply gui_keeps_ret]. Qed.

Lemma gui_wp_with_broker {A} (m : Desk (LResult A)) (Q : LResult A -> LadonDesktop -> log -> Prop) s l :
  gui_wp m Q s l -> Q (Err EndpointUnavailable) s l -> gui_wp (with_broker m) Q s l.
Proof. intros Hm Hq. unfold with_broker. gui_step. gui_step. by destruct (has_broker s). Qed.

(** Changes of fields, and programs made of them and of ordinary calls. *)
Create HintDb desktop.
Ltac solve_blank :=
  let Hm := fresh in let Hl := fresh in
  intros Hm Hl;
  first [solve [exfalso; apply Hl; cbn; auto] |
  match goal with
  | Hb : _ -> desktop_lock ?s <> DesktopActive -> blank ?s |- _ => specialize (Hb Hm Hl); destruct Hb; constructor; cbn; auto
  | _ => constructor; cbn; auto
  end].
Ltac solve_kept H :=
  destruct H as ([] & ? & ? & ?); split_and!;
  [constructor; cbn; try done; eauto|try done; solve_blank|cbn; auto|done].
Ltac solve_modifies := let H := fresh in apply keeps_modifies; intros ? ? H; solve_kept H.
Ltac keep_step :=
  lazymatch goal with
  | |- gui_keeps _ (mret _) => apply gui_keeps_ret
  | |- gui_keeps _ (gets _) => apply keeps_gets
  | |- gui_keeps _ (modifies _) => solve [solve_modifies]
  | |- gui_keeps _ (gui_call _ _) => solve [apply keeps_ordinary; [assumption|reflexivity]]
  | |- gui_keeps _ (_ ≫= _) => apply gui_keeps_bind; [|intros ?]
  | |- gui_keeps _ (try _ _) => apply keeps_try; [|intros ?]
  | |- gui_keeps _ (with_broker _) => apply keeps_with_broker
  | |- gui_keeps _ (gui_fold _ _ _) => apply keeps_fold; intros ? ? _
  | |- gui_keeps _ (each _ _) => apply keeps_each; intros ? _
  | |- gui_keeps _ (only_if _ _) => apply keeps_only_if
  | |- gui_keeps _ (match ?x with _ => _ end) => destruct x
  end.
Ltac keep := repeat first [solve [auto 2 with desktop nocore] | keep_step].
(** The rest of a program, of which nothing but the invariant is known. *)
Ltac keep_rest :=
  match goal with
  | |- gui_wp ?p (fun _ => ?I) _ _ => let Hrest := fresh in assert (Hrest : gui_keeps I p) by keep; apply Hrest; assumption
  end.

Ltac run_gui :=
  repeat first [gui_step | match goal with |- gui_wp (match ?x with _ => _ end) _ _ _ => destruct x eqn:? end].

Section operations.
Context (ask : forall A, DesktopCall A -> log -> A).
Context (argon2id : Z -> Z -> Z -> Z -> bytes -> bytes -> option bytes).
Context `{LocalTime, TextCrates}.
Abbreviation inv := (inv argon2id).
Abbreviation call := (gui_call ask).

Lemma refresh_keeps_active F : enduring F -> gui_keeps (kept argon2id WhileActive F) (refresh_agent_grants ask).
Proof. intros HF. unfold refresh_agent_grants, vault_session_id, clear_agent_grants, notice_from, set_notice. keep. Qed.

Section keeping.
Context (m : moment) (F : log -> Prop) (HF : enduring F).
Abbreviation K := (kept argon2id m F).

Lemma vault_session_id_keeps : gui_keeps K (vault_session_id ask).
Proof. unfold vault_session_id. keep. Qed.
Lemma current_phase_keeps : gui_keeps K (current_phase ask).
Proof. unfold current_phase. keep. Qed.
Lemma clear_pin_keeps : gui_keeps K clear_pin.
Proof. unfold clear_pin. keep. Qed.
Lemma set_notice_keeps n : gui_keeps K (set_notice n).
Proof. unfold set_notice. keep. Qed.
Lemma notice_from_keeps r success : gui_keeps K (notice_from r success).
Proof. apply set_notice_keeps. Qed.
Lemma drop_touch_id_keeps : gui_keeps K (drop_touch_id ask).
Proof. unfold drop_touch_id. keep. Qed.
Lemma drop_scan_task_keeps : gui_keeps K (drop_scan_task ask).
Proof. unfold drop_scan_task. keep. Qed.
Hint Resolve vault_session_id_keeps current_phase_keeps clear_pin_keeps set_notice_keeps notice_from_keeps
  drop_touch_id_keeps drop_scan_task_keeps : desktop.

Lemma clear_agent_grants_keeps : gui_keeps K clear_agent_grants.
Proof. unfold clear_agent_grants. keep. Qed.
Lemma clear_unlock_fields_keeps : gui_keeps K clear_unlock_fields.
Proof. unfold clear_unlock_fields. keep. Qed.
Hint Resolve clear_agent_grants_keeps clear_unlock_fields_keeps : desktop.
Lemma clear_sensitive_buffers_keeps : gui_keeps K (clear_sensitive_buffers ask).
Proof. unfold clear_sensitive_buffers. keep. Qed.
Hint Resolve clear_sensitive_buffers_keeps : desktop.
Lemma clear_for_app_lock_keeps : gui_keeps K (clear_for_app_lock ask).
Proof. unfold clear_for_app_lock. keep. Qed.
Hint Resolve clear_for_app_lock_keeps : desktop.
Lemma clear_sensitive_state_keeps : gui_keeps K (clear_sensitive_state ask).
Proof. unfold clear_sensitive_state. keep. Qed.
Hint Resolve clear_sensitive_state_keeps : desktop.
Lemma lock_vault_keeps : gui_keeps K (lock_vault ask).
Proof. unfold lock_vault. keep. Qed.
Lemma finish_immediate_lock_keeps r : gui_keeps K (finish_immediate_lock ask r).
Proof. unfold finish_immediate_lock. keep. Qed.
Hint Resolve lock_vault_keeps finish_immediate_lock_keeps : desktop.
Lemma lock_immediately_keeps : gui_keeps K (lock_immediately ask).
Proof. unfold lock_immediately. keep. Qed.
Hint Resolve lock_immediately_keeps : desktop.
Lemma synchronize_phase_keeps phase : gui_keeps K (synchronize_phase ask phase).
Proof. unfold synchronize_phase. keep. Qed.
Hint Resolve synchronize_phase_keeps : desktop.
Lemma finish_auto_lock_keeps locked : gui_keeps K (finish_auto_lock ask locked).
Proof. unfold finish_auto_lock. keep. Qed.
Lemma process_external_lock_keeps : gui_keeps K (process_external_lock ask).
Proof. unfold process_external_lock. keep. Qed.
Hint Resolve finish_auto_lock_keeps process_external_lock_keeps : desktop.

Lemma reject_stale_app_unlock_keeps : gui_keeps K (reject_stale_app_unlock ask).
Proof. unfold reject_stale_app_unlock. keep. Qed.
Lemma reject_stale_authentication_keeps : gui_keeps K (reject_stale_authentication ask).
Proof. unfold reject_stale_authentication. keep. Qed.
Lemma current_app_unlock_context_keeps : gui_keeps K (current_app_unlock_context ask).
Proof. unfold current_app_unlock_context. keep. Qed.
Lemma record_touch_success_keeps : gui_keeps K record_touch_success.
Proof.
  apply keeps_modifies. intros s l ([] & Hb & Ha & Hf). split_and!; [|solve_blank|done|done].
  constructor; cbn; try done. intros c p Hc Hp. destruct (session_confirmation s) as [c'|] eqn:Hs; [|done].
  injection Hc as <-. by eapply inv_confirmation0.
Qed.
Hint Resolve reject_stale_app_unlock_keeps reject_stale_authentication_keeps current_app_unlock_context_keeps
  record_touch_success_keeps : desktop.

Lemma use_app_unlock_pin_keeps : gui_keeps K (use_app_unlock_pin ask).
Proof. unfold use_app_unlock_pin. keep. Qed.
Lemma refresh_agent_grants_keeps : gui_keeps K (refresh_agent_grants ask).
Proof.
  intros s l Hk. destruct (decide (desktop_lock s = DesktopActive)) as [Ha|Ha].
  - by apply keeps_while_active; [apply refresh_keeps_active| |].
  - unfold refresh_agent_grants. gui_step. gui_step. rewrite bool_decide_eq_false_2 by done. by apply clear_agent_grants_keeps.
Qed.
Hint Resolve use_app_unlock_pin_keeps refresh_agent_grants_keeps : desktop.
Lemma revoke_agent_grant_keeps client id : gui_keeps K (revoke_agent_grant ask client id).
Proof. unfold revoke_agent_grant. keep. Qed.
Lemma revoke_all_agent_grants_keeps : gui_keeps K (revoke_all_agent_grants ask).
Proof. unfold revoke_all_agent_grants. keep. Qed.
Hint Resolve revoke_agent_grant_keeps revoke_all_agent_grants_keeps : desktop.

Lemma finish_applied_navigation_keeps : gui_keeps K (finish_applied_navigation ask).
Proof. unfold finish_applied_navigation. keep. Qed.
Lemma handle_sensitive_operation_error_keeps e : gui_keeps K (handle_sensitive_operation_error ask e).
Proof. unfold handle_sensitive_operation_error. keep. Qed.
Hint Resolve finish_applied_navigation_keeps handle_sensitive_operation_error_keeps : desktop.
Lemma handle_add_result_keeps r : gui_keeps K (handle_add_result ask r).
Proof. unfold handle_add_result. keep. Qed.
Lemma handle_delete_result_keeps r : gui_keeps K (handle_delete_result ask r).
Proof. unfold handle_delete_result. keep. Qed.
Lemma delete_secret_keeps id : gui_keeps K (delete_secret ask id).
Proof. unfold delete_secret. keep. Qed.
Lemma cancel_stale_keeps current : gui_keeps K (cancel_stale_approval_touch_id ask current).
Proof. unfold cancel_stale_approval_touch_id. keep. Qed.
Lemma show_notice_keeps : gui_keeps K (show_notice ask).
Proof. unfold show_notice. keep. Qed.
Lemma focus_window_keeps : gui_keeps K (focus_window ask).
Proof. unfold focus_window, viewport. keep. Qed.
Lemma viewport_keeps c : gui_keeps K (viewport ask c).
Proof. unfold viewport. keep. Qed.
Lemma edit_local_pin_keeps : gui_keeps K (edit_local_pin ask).
Proof. unfold edit_local_pin. keep. Qed.
Lemma available_actions_keeps : gui_keeps K (available_actions ask).
Proof. unfold available_actions. keep. Qed.
End keeping.
#[local] Hint Resolve vault_session_id_keeps current_phase_keeps clear_pin_keeps set_notice_keeps notice_from_keeps
  drop_touch_id_keeps drop_scan_task_keeps clear_agent_grants_keeps clear_unlock_fields_keeps clear_sensitive_buffers_keeps
  clear_for_app_lock_keeps clear_sensitive_state_keeps lock_vault_keeps finish_immediate_lock_keeps lock_immediately_keeps
  synchronize_phase_keeps finish_auto_lock_keeps process_external_lock_keeps reject_stale_app_unlock_keeps
  reject_stale_authentication_keeps current_app_unlock_context_keeps record_touch_success_keeps use_app_unlock_pin_keeps
  refresh_agent_grants_keeps revoke_agent_grant_keeps revoke_all_agent_grants_keeps finish_applied_navigation_keeps
  handle_sensitive_operation_error_keeps handle_add_result_keeps handle_delete_result_keeps delete_secret_keeps
  cancel_stale_keeps show_notice_keeps focus_window_keeps viewport_keeps edit_local_pin_keeps available_actions_keeps : desktop.

(** *** Locking *)
Record cleared (s : LadonDesktop) : Prop := {
  cleared_blank : blank s;
  cleared_pin : local_pin s = "";
  cleared_passphrase : passphrase s = "" /\ confirmation s = "";
  cleared_touch : pending_touch_id s = None;
  cleared_draft : draft s = draft_new;
  cleared_scan : scan_task s = None /\ scan_report s = None;
  cleared_delete : pending_delete s = None;
  cleared_focus : focused_approval s = None;
  cleared_error : add_form_error s = None;
  cleared_prompts : unlock_confirmation s = false /\ app_unlock_pin_visible s = false /\ scan_open s = false;
}.
Lemma clear_for_app_lock_spec s l :
  gui_wp (clear_for_app_lock ask) (fun _ s' _ => cleared s' /\ desktop_lock s' = desktop_lock s /\
    session_confirmation s' = session_confirmation s) s l.
Proof.
  unfold clear_for_app_lock, clear_agent_grants, clear_sensitive_buffers, drop_scan_task, drop_touch_id, clear_unlock_fields.
  run_gui; by repeat split.
Qed.
Lemma clear_sensitive_state_spec s l :
  gui_wp (clear_sensitive_state ask) (fun _ s' _ => cleared s' /\ desktop_lock s' = DesktopActive /\ session_confirmation s' = None) s l.
Proof.
  unfold clear_sensitive_state. gui_step. eapply gui_wp_mono; [apply clear_for_app_lock_spec|].
  intros _ s' l' ([[]] & _ & _). gui_step. destruct_and!. by repeat split.
Qed.

Section locking.
Context (F : log -> Prop) (HF : enduring F).
Abbreviation K := (kept argon2id Always F).

Lemma begin_interface_lock_keeps available automatic : gui_keeps K (begin_interface_lock ask available automatic).
Proof.
  intros s l Hk. unfold begin_interface_lock, with_broker. gui_step. gui_step.
  destruct (negb _); [by apply lock_immediately_keeps|]. eapply (gui_wp_keeps_bind K); [keep|done|].
  intros [epoch|e] s1 l1 Hk1; [|by apply lock_immediately_keeps]. gui_step. gui_step.
  assert (Hl : kept argon2id Loosely F (s1 <| desktop_lock_epoch := epoch |> <| desktop_lock := DesktopLocking epoch |>
    <| pending_app_lock := Some epoch |>) l1) by (destruct Hk1 as ([] & _ & _ & Hf); split_and!; [by constructor|done..]).
  eapply gui_wp_mono; [apply gui_wp_and; [apply clear_for_app_lock_spec|by apply clear_for_app_lock_keeps]|].
  intros _ s2 l2 ([[Hb] _] & Hi & _ & _ & Hf). by split_and!.
Qed.
Lemma lock_app_keeps : gui_keeps K (lock_app ask).
Proof.
  unfold lock_app, lock_app_with_touch_id_availability. pose proof begin_interface_lock_keeps. keep.
Qed.
Lemma handle_idle_timeout_keeps : gui_keeps K (handle_idle_timeout ask).
Proof. unfold handle_idle_timeout. pose proof begin_interface_lock_keeps. keep. Qed.
Lemma process_app_lock_result_keeps : gui_keeps K (process_app_lock_result ask).
Proof.
  intros s l Hk. unfold process_app_lock_result. gui_step. gui_step.
  destruct (pending_app_lock s) as [epoch|]; [|done]. gui_step. gui_step.
  assert (Hk1 : K s (Event (AppLockResult epoch) a :: l)) by by apply kept_event.
  destruct a as [r|]; [|done]. gui_step. gui_step. unfold finish_app_lock_result. gui_step. gui_step.
  assert (Hk2 : K (s <| pending_app_lock := None |>) (Event (AppLockResult epoch) (Some r) :: l)) by solve_kept Hk1.
  destruct r as [[]|e]; [|by apply lock_immediately_keeps]. cbn [is_ok andb].
  destruct (bool_decide (_ = DesktopLocking epoch)) eqn:Hl; [|by apply lock_immediately_keeps].
  cbn [andb]. destruct (_ =? epoch); [|by apply lock_immediately_keeps]. gui_step. bool_hyps. cbn in Hl.
  destruct Hk2 as ([] & Hb & _ & Hf). split_and!; [|intros _ _; destruct Hb; [done|by cbn; rewrite Hl|by constructor]|done|done].
  constructor; try done. cbn. intros e [= <-]. by left.
Qed.
End locking.
#[local] Hint Resolve begin_interface_lock_keeps lock_app_keeps handle_idle_timeout_keeps process_app_lock_result_keeps : desktop.

(** *** Typed PINs *)
(** The user chose in the dialog of [t] how to confirm it. *)
Definition picked (t : TouchIdTarget) (method : ConfirmationAction) (s : LadonDesktop) (l : log) : Prop :=
  match method with ByTouchId => touch_choice t l | ByPin => pin_choice t (local_pin s) l end.

Definition app_picked (method : ConfirmationAction) (s : LadonDesktop) (l : log) : Prop :=
  forall vault epoch, picked (TouchAppUnlock vault epoch) method s l.
Definition secret_picked (method : ConfirmationAction) (s : LadonDesktop) (l : log) : Prop :=
  forall captured a, authentication_attempt captured (detail s) = Some a -> picked (TouchSecret a captured) method s l.
Definition unattended_picked (method : ConfirmationAction) (s : LadonDesktop) (l : log) : Prop :=
  forall c deadline, unattended_confirmation s = Some c -> confirmed_deadline c = Ok deadline ->
    picked (TouchUnattended (consent c) deadline) method s l.

Lemma picked_event t method {A} (c : DesktopCall A) a s l : marks c = false -> picked t method s l -> picked t method s (Event c a :: l).
Proof. intros Hm. destruct method; by apply undisturbed_event. Qed.
Lemma picked_call t method {A} (c : DesktopCall A) : marks c = false -> gui_keeps (picked t method) (call c).
Proof. intros Hm. apply gui_keeps_call. intros s a l. by apply picked_event. Qed.
Lemma edit_local_pin_typed t s l :
  undisturbed (dialog_of t) l ->
  gui_wp (edit_local_pin ask) (fun r s' l' => undisturbed (typed_pin t (local_pin s')) l' /\ detail s' = detail s /\
    unattended_confirmation s' = unattended_confirmation s /\
    ((exists vault epoch, t = TouchAppUnlock vault epoch) -> submitted r = true -> picked t ByPin s' l')) s l.
Proof. intros Hd. unfold edit_local_pin. run_gui. split_and!; [by left|done..|]. intros Hv Hr. by left. Qed.

Lemma verify_local_pin_spec m F s l :
  kept argon2id m F s l ->
  gui_wp (verify_local_pin argon2id) (fun r s' l' => kept argon2id m F s' l' /\ l' = l /\
    (r = Ok PinAccepted -> exists p, some_call (pin_set argon2id p) l /\ verify argon2id p (local_pin s) = Ok tt)) s l.
Proof.
  intros Hk. unfold verify_local_pin. do 4 gui_step. destruct (session_confirmation s) as [c|] eqn:Hs.
  - destruct (verify_pin argon2id (local_pin s) c) as [r c'] eqn:Hv. gui_step. gui_step. gui_step.
    assert (Hp : pin c' = pin c /\ (r = Ok PinAccepted -> exists p, pin c = Some p /\ verify argon2id p (local_pin s) = Ok tt)).
    { unfold verify_pin in Hv. destruct (pin c) as [p|] eqn:Hpin; [|by injection Hv as <- <-].
      destruct (verify argon2id p (local_pin s)) as [[]|[]] eqn:Hver; injection Hv as <- <-; split; try done.
      - eauto.
      - by case_match. }
    destruct Hp as [Hpin Hacc]. destruct Hk as (Hi & Hb & Ha & Hf). split; [|split; [done|]].
    + split; [|split; [cbn; intros Hm Hl; destruct (Hb Hm Hl); by constructor|done]].
      destruct Hi. constructor; try done. cbn. intros ? p [= <-] Hp. rewrite Hpin in Hp. eauto.
    + intros Hr. destruct (Hacc Hr) as (p & Hp & Hver). exists p. split; [|done]. by eapply (inv_confirmation _ _ _ Hi).
  - do 3 gui_step. split; [solve_kept Hk|by split].
Qed.
Lemma after_pin_keeps m F r accepted s l :
  enduring F -> kept argon2id m F s l -> (r = Ok PinAccepted -> gui_wp accepted (fun _ => kept argon2id m F) s l) ->
  gui_wp (after_pin ask r accepted) (fun _ => kept argon2id m F) s l.
Proof.
  intros HF Hk Ha. destruct r as [[|n|]|e]; [by apply Ha| | |]; cbn [after_pin].
  - by apply set_notice_keeps.
  - by apply lock_immediately_keeps.
  - by apply notice_from_keeps.
Qed.

(** A fact for the rest of a program, and back. *)
Lemma kept_with m (F G : log -> Prop) s l : kept argon2id m F s l -> G l -> kept argon2id m (fun l => F l /\ G l) s l.
Proof. intros (Hi & Hb & Ha & Hf) Hg. split; [done|]. split; [done|]. split; [done|]. by split. Qed.
Lemma kept_without m (F G : log -> Prop) s l : kept argon2id m (fun l => F l /\ G l) s l -> kept argon2id m F s l /\ G l.
Proof. intros (Hi & Hb & Ha & Hf & Hg). split; [|done]. split; [done|]. split; [done|]. by split. Qed.

(** A PIN that was typed just before and is accepted. *)
Section pin_prompt.
Context (m : moment) (F G : log -> Prop) (HF : enduring F) (HG : enduring G) (accepted : Desk unit) (t : TouchIdTarget).
Context (Haccepted : forall s l, kept argon2id m F s l -> G l -> recently (pin_chosen argon2id t) l ->
  gui_wp accepted (fun _ => kept argon2id m F) s l).

Lemma pin_prompt_keeps s l :
  kept argon2id m F s l -> G l -> picked t ByPin s l ->
  gui_wp (r ← verify_local_pin argon2id; after_pin ask r accepted) (fun _ => kept argon2id m F) s l.
Proof.
  intros Hk Hg Hp. gui_step. eapply gui_wp_mono; [by apply verify_local_pin_spec|].
  intros r s1 l1 (Hk1 & -> & Hr). apply after_pin_keeps; [done..|].
  intros Hacc. destruct (Hr Hacc) as (p & Hs & Hv). apply Haccepted; [done..|]. apply recently_now. by exists p, (local_pin s).
Qed.
Lemma fresh_pin_prompt_keeps s l :
  kept argon2id m F s l -> G l -> picked t ByPin s l ->
  gui_wp (drop_touch_id ask;; r ← verify_local_pin argon2id; after_pin ask r accepted) (fun _ => kept argon2id m F) s l.
Proof.
  intros Hk Hg Hp. eapply (gui_wp_keeps_bind (fun s l => kept argon2id m (fun l => F l /\ G l) s l /\ picked t ByPin s l)).
  - apply keeps_and; [by apply drop_touch_id_keeps, enduring_and|]. unfold drop_touch_id.
    apply gui_keeps_bind; [apply keeps_gets|]. intros p. apply gui_keeps_bind; [|by intros ?; apply keeps_modifies].
    destruct p; [by apply picked_call|apply gui_keeps_ret].
  - split; [by apply kept_with|done].
  - intros _ s1 l1 [[Hk1 Hg1]%kept_without Hp1]. by apply pin_prompt_keeps.
Qed.
End pin_prompt.

(** *** Asking Touch ID *)
Lemma wait_for_touch_keeps m F reason t s l :
  enduring F -> kept argon2id m F s l -> pending_touch_id s = None -> asked_for t reason l ->
  gui_wp (wait_for_touch ask reason t) (fun _ => kept argon2id m F) s l.
Proof.
  intros HF Hk Hn Ha. unfold wait_for_touch, touch_start. gui_step. destruct (bool_decide (reason = "")).
  - gui_step. by apply notice_from_keeps.
  - gui_step. destruct Hk as ([] & Hb & Hact & Hf).
    assert (Hk : kept argon2id m F s (Event (TouchSpawn reason) a :: l)).
    { split_and!; [|done|done|by apply HF]. constructor; eauto using some_call_event, secret_confirmed_suffix, unlocked_secret_suffix, suffix_event.
      - by split.
      - intros p Hp. congruence. }
    destruct a as [attempt|e]; [|by apply notice_from_keeps]. gui_step.
    destruct Hk as ([] & _ & _ & Hf'). split_and!; [|intros Hm Hl; destruct (Hb Hm Hl); by constructor|done|done].
    constructor; try done. cbn. intros p [= <-]. cbn. eauto.
Qed.

(** *** Unlocking the interface *)
Lemma current_app_unlock_context_spec m F s l :
  enduring F -> kept argon2id m F s l ->
  gui_wp (current_app_unlock_context ask) (fun c s' l' => kept argon2id m F s' l' /\ s' = s /\
    (forall t method, picked t method s l -> picked t method s l') /\
    forall vault epoch, c = Some (vault, epoch) -> open_vault vault l' /\ some_call (lock_finished epoch) l') s l.
Proof.
  intros HF Hk. unfold current_app_unlock_context. gui_step. gui_step. cbn.
  destruct (desktop_lock s) as [|epoch|epoch] eqn:Hl; [by gui_step|by gui_step|].
  destruct (negb _); [by gui_step|]. gui_step. gui_step. gui_step. split; [by apply kept_event|]. split; [done|].
  split; [by intros t method; apply picked_event|]. intros vault epoch' Hc. destruct a as [[[] [v|]]|]; try done. injection Hc as -> <-. split; [done|].
  right. by eapply (inv_locked _ _ _ (proj1 Hk)).
Qed.
Lemma context_matches_spec m F vault epoch s l :
  enduring F -> kept argon2id m F s l ->
  gui_wp (app_unlock_context_matches ask vault epoch) (fun c s' l' => kept argon2id m F s' l' /\ s' = s /\
    (forall t method, picked t method s l -> picked t method s l') /\ (c = true -> open_vault vault l' /\ some_call (lock_finished epoch) l')) s l.
Proof.
  intros HF Hk. unfold app_unlock_context_matches. gui_step. eapply gui_wp_mono; [by apply current_app_unlock_context_spec|].
  intros c s' l' (Hk' & -> & Hp & Hc). gui_step. do 3 (split; [done|]). intros Hd. bool_hyps. by apply Hc.
Qed.

Lemma kept_careful m F {A} (c : DesktopCall A) a s l :
  lasting F -> (forall r, existT A c <> existT _ (TouchSpawn r)) -> careful argon2id A c a l -> kept argon2id m F s l ->
  kept argon2id m F s (Event c a :: l).
Proof.
  intros HF Hn Hc (Hi & Hb & Ha & Hf). split_and!; [by apply inv_event_careful|done|done|]. by apply (HF l); [apply suffix_event|].
Qed.
Lemma confirmed_enduring t : enduring (confirmed argon2id t).
Proof. intros A c a l. apply confirmed_event. Qed.

Lemma touch_subject t l : some_recent (touch_succeeded t) l -> exists before, subject t before.
Proof.
  induction l as [|[A c a] l IH]; [done|]. cbn. destruct (privileged c); [done|]. intros [Ht|Hr]; [|by apply IH].
  destruct c; try done. destruct Ht as (_ & reason & before & _ & Hs & _). by exists before.
Qed.
Lemma confirmed_secret_vault a vault l : confirmed argon2id (TouchSecret a vault) l -> vault = attempt_vault a.
Proof. intros [[before [Hv _]]%touch_subject|[[Hv _] _]]; done. Qed.

Lemma begin_unattended_confirmation_keeps m F client :
  enduring F -> gui_keeps (kept argon2id m F) (begin_unattended_confirmation ask client).
Proof.
  intros HF s l Hk. unfold begin_unattended_confirmation. gui_step. gui_step. cbn.
  destruct (bool_decide (desktop_lock s = DesktopActive)) eqn:Ha; cbn [negb orb]; [|done].
  destruct (bool_decide (is_Some _)); [exact Hk|]. bool_hyps.
  gui_step. apply gui_wp_with_broker; [gui_step|].
  - unfold clear_pin. gui_step. gui_step. assert (Hk1 : kept argon2id m F s (Event (BrokerSnapshot client) a :: l)) by by apply kept_event.
    destruct a as [x|e]; [|apply notice_from_keeps; solve_kept Hk1]. gui_step. gui_step. gui_step.
    assert (Hk2 : kept argon2id m F s (Event SystemNow a :: Event (BrokerSnapshot client) (Ok x) :: l)) by by apply kept_event.
    destruct Hk2 as ([] & Hb & Hact & Hf). split_and!; [|by intros _ Hl; destruct Hl|done|done].
    constructor; try done. cbn. intros c [= <-]. right. by left.
  - unfold clear_pin. gui_step. gui_step. apply notice_from_keeps. solve_kept Hk.
Qed.

Section authenticated.
Context (F : log -> Prop) (HF : lasting F).
Abbreviation K := (kept argon2id Always F).
Let HE : enduring F := lasting_enduring F HF.
Let HC t : enduring (fun l => F l /\ confirmed argon2id t l) := enduring_and _ _ HE (confirmed_enduring t).

Lemma finish_app_unlock_keeps vault epoch s l :
  K s l -> confirmed argon2id (TouchAppUnlock vault epoch) l -> gui_wp (finish_app_unlock ask vault epoch) (fun _ => K) s l.
Proof.
  intros Hk Hc. pose proof (kept_with _ _ _ _ _ Hk Hc) as Hk1. unfold finish_app_unlock.
  eapply gui_wp_keeps_bind; [eapply (drop_touch_id_keeps Always), HC|exact Hk1|]. intros _ s1 l1 Hk2.
  eapply gui_wp_keeps_bind; [eapply clear_pin_keeps|exact Hk2|]. intros _ s2 l2 Hk3.
  gui_step. eapply gui_wp_mono; [eapply context_matches_spec; [apply HC|exact Hk3]|]. intros matches s3 l3 (Hk4 & -> & _ & Hm).
  apply kept_without in Hk4 as [Hk5 Hc3].
  destruct matches; cbn [negb]; [|by apply reject_stale_app_unlock_keeps]. destruct (Hm eq_refl) as [Hv _].
  unfold with_broker. gui_step. gui_step. gui_step. destruct (has_broker s2); [|gui_step; by apply notice_from_keeps].
  gui_step. assert (Hk6 : K s2 (Event (BrokerUnlockApp epoch) a :: l3)).
  { apply kept_careful; [done..| |done]. by exists vault. }
  destruct a as [[]|e]; [|by apply notice_from_keeps]. revert Hk6. generalize (Event (BrokerUnlockApp epoch) (Ok ()) :: l3). intros l4 Hk6.
  clear -HE Hk6. revert s2 l4 Hk6. change (gui_keeps K (call ControllerActivity;; modifies (fun s => s <| desktop_lock := DesktopActive |>
    <| app_unlock_pin_visible := false |>);; set_notice (plain_notice "App unlocked"))). keep.
Qed.
Lemma finish_app_unlock_touch_id_keeps vault epoch s l :
  K s l -> confirmed argon2id (TouchAppUnlock vault epoch) l ->
  gui_wp (finish_app_unlock_touch_id ask vault epoch) (fun _ => K) s l.
Proof.
  intros Hk Hc. pose proof (kept_with _ _ _ _ _ Hk Hc) as Hk1. unfold finish_app_unlock_touch_id.
  eapply gui_wp_keeps_bind; [eapply clear_pin_keeps|exact Hk1|]. intros _ s1 l1 Hk2.
  gui_step. eapply gui_wp_mono; [eapply context_matches_spec; [apply HC|exact Hk2]|]. intros matches s2 l2 (Hk3 & -> & _ & _).
  pose proof (proj1 (kept_without _ _ _ _ _ Hk3)) as Hk4.
  gui_step. gui_step. destruct matches; cbn [negb]; [|by apply reject_stale_app_unlock_keeps].
  destruct (session_confirmation s1); [|by apply reject_stale_app_unlock_keeps].
  eapply gui_wp_keeps_bind; [eapply record_touch_success_keeps|exact Hk3|]. intros _ s3 l3 Hk5.
  by apply kept_without in Hk5 as []; apply finish_app_unlock_keeps.
Qed.

(** The PIN, typed for the interface. *)
Lemma authenticate_app_pin_keeps s l :
  K s l -> app_picked ByPin s l -> gui_wp (authenticate_app_pin ask argon2id) (fun _ => K) s l.
Proof.
  intros Hk Hp. unfold authenticate_app_pin. gui_step. eapply gui_wp_mono; [by apply current_app_unlock_context_spec|].
  intros c s1 l1 (Hk1 & -> & Hp1 & Hc).
  destruct c as [[vault epoch]|]; [|by apply reject_stale_app_unlock_keeps]. specialize (Hp1 _ _ (Hp vault epoch)). specialize (Hc vault epoch eq_refl) as [Hv Hl].
  unfold authenticate_app_pin_for_context. gui_step. eapply gui_wp_mono; [by apply context_matches_spec|].
  intros matches s2 l2 (Hk2 & -> & Hp2 & Hm). specialize (Hp2 _ _ Hp1).
  destruct matches; cbn [negb]; [|by apply reject_stale_app_unlock_keeps]. destruct (Hm eq_refl) as [_ Hl2].
  eapply (fresh_pin_prompt_keeps _ _ (some_call (lock_finished epoch))); [done|apply some_call_enduring| |done..].
  intros s3 l3 Hk3 Hl3 He. apply finish_app_unlock_keeps; [done|]. right. by split.
Qed.

Lemma begin_app_unlock_keeps s l :
  K s l -> app_picked ByTouchId s l -> gui_wp (begin_app_unlock ask) (fun _ => K) s l.
Proof.
  intros Hk Hp. unfold begin_app_unlock. do 2 gui_step. assert (Hk0 : K s (Event TouchAvailable a :: l)) by by apply kept_event.
  assert (Hp0 : app_picked ByTouchId s (Event TouchAvailable a :: l)) by by intros ? ?; apply picked_event.
  clear Hk Hp. unfold begin_app_unlock_with. gui_step. gui_step.
  gui_step. eapply (gui_wp_mono _ (fun _ => K)); [|by intros _ s1 l1 Hk1; gui_step].
  revert Hk0 Hp0. generalize (Event TouchAvailable a :: l). intros l0 Hk Hp.
  destruct (app_unlock_start a (has_configured_pin s)); [|by apply use_app_unlock_pin_keeps|by apply lock_immediately_keeps]. gui_step. gui_step. destruct (pending_touch_id s) eqn:Hn; [done|].
  gui_step. eapply gui_wp_mono; [by apply current_app_unlock_context_spec|]. intros c s1 l1 (Hk1 & -> & Hp1 & Hc).
  destruct c as [[vault epoch]|]; [|by apply reject_stale_app_unlock_keeps]. specialize (Hc vault epoch eq_refl) as [Hv Hl].
  gui_step. gui_step. apply wait_for_touch_keeps; [done|solve_kept Hk1|done|]. split_and!; [done|by apply (Hp1 _ ByTouchId)|done..].
Qed.

(** *** Secrets *)
Lemma vault_session_id_spec m G s l :
  enduring G -> kept argon2id m G s l ->
  gui_wp (vault_session_id ask) (fun r s' l' => kept argon2id m G s' l' /\ s' = s /\ (forall t method, picked t method s l -> picked t method s l') /\
    exists a, l' = Event ControllerSession a :: l /\ r = (id ← a; ok_or id VaultLocked)) s l.
Proof.
  intros HG Hk. unfold vault_session_id. gui_step. gui_step. gui_step. split; [by apply kept_event|].
  split; [done|]. split; [by intros t method; apply picked_event|]. by exists a.
Qed.
Lemma session_answer (a : LResult (option Uuid)) v : (id ← a; ok_or id VaultLocked) = Ok v -> a = Ok (Some v).
Proof. intros Hs. destruct a as [[x|]|e]; [|done..]. by injection Hs as ->. Qed.

Lemma accept_secret_keeps a captured touch_id s l :
  K s l -> captured = attempt_vault a -> confirmed argon2id (TouchSecret a captured) l ->
  gui_wp (accept_secret ask a captured touch_id) (fun _ => K) s l.
Proof.
  intros Hk -> Hc. pose proof (kept_with _ _ _ _ _ Hk Hc) as Hk1. unfold accept_secret. gui_step.
  eapply gui_wp_mono; [eapply vault_session_id_spec; [apply HC|exact Hk1]|].
  intros r s1 l1 ([Hk2 Hc2]%kept_without & -> & _ & _). gui_step. gui_step.
  destruct (bool_decide (ok r = _)); [|by apply reject_stale_authentication_keeps]. unfold accept_authentication.
  destruct (bool_decide (authentication_attempt _ _ = _)) eqn:Ha; [|by apply reject_stale_authentication_keeps].
  bool_hyps. gui_step. gui_step.
  assert (Hs : K (s <| detail := set_authorized (Some a) (detail s) |>) l1).
  { destruct Hk2 as ([] & Hb & Hact & Hf). split_and!; [|intros Hm Hl; exfalso|done|done].
    - constructor; try done. cbn. intros a' [= <-]. exists l1. by split.
    - cbn in Hl. destruct (Hb Hm Hl). unfold authentication_attempt in Ha. by rewrite blank_selected0 in Ha. }
  keep_rest.
Qed.
Lemma authenticate_selected_secret_keeps method name s l :
  K s l -> secret_picked method s l -> gui_wp (authenticate_selected_secret ask argon2id method name) (fun _ => K) s l.
Proof.
  intros Hk Hp. unfold authenticate_selected_secret. gui_step. eapply gui_wp_mono; [by eapply (vault_session_id_spec _ F)|].
  intros r s1 l1 (Hk1 & -> & Hp1 & (a & -> & ->)). destruct (id ← a; _) as [captured|e] eqn:Ha; [|by apply synchronize_phase_keeps].
  apply session_answer in Ha as ->. gui_step. gui_step. destruct (authentication_attempt captured (detail s)) as [t|] eqn:Ht.
  - assert (Hv : attempt_vault t = captured) by (unfold authentication_attempt in Ht; destruct (selected _); by simplify_eq/=).
    assert (Hs : subject (TouchSecret t captured) (Event ControllerSession (Ok (Some captured)) :: l)) by (split; [done|by left]).
    specialize (Hp1 _ _ (Hp _ _ Ht)). destruct method.
    + gui_step. gui_step. destruct (pending_touch_id s) eqn:Hn; [done|]. apply wait_for_touch_keeps; [done..|].
      split_and!; [done..|]. by eexists.
    + eapply (fresh_pin_prompt_keeps _ _ (subject (TouchSecret t captured))); [done|apply subject_enduring| |done..].
      intros s2 l2 Hk2 Hs2 He. apply accept_secret_keeps; [done..|]. right. by split.
  - keep_rest.
Qed.

(** The selected secret was unlocked. *)
Definition selection_unlocked (s : LadonDesktop) (l : log) : Prop :=
  forall id, selected (detail s) = Some id -> unlocked_secret argon2id id l.
Lemma open_selected_keeps editing s l : K s l -> selection_unlocked s l -> gui_wp (open_selected ask editing) (fun _ => K) s l.
Proof.
  intros Hk Hu. unfold open_selected. gui_step. gui_step. destruct (selected (detail s)) as [id|] eqn:Hsel; [|done].
  gui_step. gui_step. assert (Hk1 : K s (Event (ControllerLoad id) a :: l)) by (apply kept_careful; [done..|by apply Hu|done]).
  destruct a as [[session d]|e]; [|by apply handle_sensitive_operation_error_keeps].
  unfold begin_with_draft. rewrite Hsel. destruct (bool_decide (draft_id d = id)) eqn:Hd; cbn [negb]; [|by apply set_notice_keeps].
  destruct (authorization_for_current_selection _ _); [|by apply set_notice_keeps]. bool_hyps. gui_step.
  assert (Hid : unlocked_secret argon2id (draft_id d) (Event (ControllerLoad id) (Ok (session, d)) :: l))
    by (rewrite Hd; eapply unlocked_secret_suffix; [apply suffix_event|by apply Hu]).
  destruct Hk1 as ([] & Hb & Hact & Hf). split_and!; [|intros Hm Hl; exfalso|done|done].
  - constructor; try done; cbn.
    + intros d' Hd'. destruct editing; by simplify_eq/=.
    + intros d' Hd'. destruct editing; simplify_eq/=. left. by exists session.
  - cbn in Hl. destruct (Hb Hm Hl). congruence.
Qed.
Lemma handle_detail_action_keeps action s l :
  K s l -> (action = ActShow \/ action = ActEdit -> selection_unlocked s l) ->
  gui_wp (handle_detail_action ask action) (fun _ => K) s l.
Proof.
  intros Hk Hu. destruct action; [apply open_selected_keeps; auto| |apply open_selected_keeps; auto| |].
  - cbn [handle_detail_action]. gui_step. solve_kept Hk.
  - cbn [handle_detail_action]. gui_step. gui_step. gui_step.
    destruct (mode (detail s)) as [|d|d dirty] eqn:Hm; [by gui_step; apply handle_sensitive_operation_error_keeps..|].
    unfold update_secret, with_broker. gui_step. gui_step.
    destruct (has_broker s); [|by gui_step; apply handle_sensitive_operation_error_keeps]. gui_step.
    assert (Hk1 : K s (Event (BrokerUpdate d) a :: l)).
    { apply kept_careful; [done..| |done]. eapply (inv_draft _ _ _ (proj1 Hk)). by rewrite Hm. }
    destruct a as [[]|e]; [|by apply handle_sensitive_operation_error_keeps].
    keep_rest.
  - cbn [handle_detail_action]. gui_step. solve_kept Hk.
Qed.

(** *** Approvals *)
Lemma approve_request_keeps l id vault s lg :
  K s lg -> just_checked id vault lg -> (forall t, lg <> Event SystemNow t :: tail lg) -> confirmed argon2id (TouchApproval id vault l) lg ->
  gui_wp (with_broker (approve_request ask l id)) (fun _ => K) s lg.
Proof.
  intros Hk Hj Hn Hc. assert (Ha : approval_confirmed argon2id id l lg) by by exists vault.
  assert (Hnow : forall t, approval_confirmed argon2id id l (Event SystemNow t :: lg)).
  { intros t. exists vault. split; [|by apply confirmed_event]. destruct Hj as (p & base & [->|[t' ->]] & Hp); [|by destruct (Hn t')].
    exists p, base. split; [right; by exists t|done]. }
  unfold with_broker. gui_step. gui_step. destruct (has_broker s); [|by gui_step]. unfold approve_request. destruct l.
  - gui_step. by apply kept_careful.
  - gui_step. gui_step. assert (Hk1 : K s (Event SystemNow a :: lg)) by by apply kept_event.
    destruct (local_day_end a) as [deadline|e] eqn:Hd; gui_step; [|done]. apply kept_careful; [done..|by split|done].
  - gui_step. by apply kept_careful.
Qed.
Lemma finish_authenticated_approval_keeps id session touch_id l s lg :
  K s lg -> confirmed argon2id (TouchApproval id session l) lg ->
  gui_wp (finish_authenticated_approval ask id session touch_id l) (fun _ => K) s lg.
Proof.
  intros Hk Hc. pose proof (kept_with _ _ _ _ _ Hk Hc) as Hk1. unfold finish_authenticated_approval. gui_step.
  eapply gui_wp_mono; [eapply vault_session_id_spec; [apply HC|exact Hk1]|].
  intros r s1 l1 ([Hk2 Hc2]%kept_without & -> & _ & a & -> & ->). gui_step.
  apply gui_wp_with_broker; [gui_step|rewrite orb_true_r; by apply reject_stale_authentication_keeps].
  assert (Hk3 : K s (Event BrokerPending a0 :: Event ControllerSession a :: lg)) by by apply kept_event.
  destruct (_ || _) eqn:Hok; [by apply reject_stale_authentication_keeps|]. bool_hyps.
  destruct a0 as [[p|]|e]; [|done..]. bool_hyps.
  assert (Ha : a = Ok (Some session)).
  { apply session_answer. by destruct (id0 ← a; ok_or id0 VaultLocked); simplify_eq/=. }
  subst a. gui_step. eapply gui_wp_mono.
  - apply (approve_request_keeps _ _ session); [done| |done|by apply confirmed_event].
    exists p, (Event BrokerPending (Ok (Some p)) :: Event ControllerSession (Ok (Some session)) :: lg).
    split; [by left|]. split; [done|]. split; [done|]. by exists lg.
  - intros r s2 l2 Hrest. keep_rest.
Qed.
Lemma authenticate_pending_approval_keeps method p l s lg :
  K s lg -> some_call (shown_pending (approval_id p) (approval_vault p)) lg ->
  picked (TouchApproval (approval_id p) (approval_vault p) l) method s lg ->
  gui_wp (authenticate_pending_approval ask argon2id method p l) (fun _ => K) s lg.
Proof.
  intros Hk Hs Hp. set (t := TouchApproval (approval_id p) (approval_vault p) l).
  pose proof (kept_with _ _ (subject t) _ _ Hk Hs) as Hk1. unfold authenticate_pending_approval. gui_step.
  eapply gui_wp_mono; [eapply vault_session_id_spec; [apply enduring_and; [exact HE|apply subject_enduring]|exact Hk1]|].
  intros r s1 l1 ([Hk2 Hs2]%kept_without & -> & Hp1 & _). destruct (negb _); [by apply reject_stale_authentication_keeps|].
  specialize (Hp1 _ _ Hp). destruct method.
  - gui_step. gui_step. destruct (pending_touch_id s) eqn:Hn; [done|]. by apply wait_for_touch_keeps.
  - eapply (fresh_pin_prompt_keeps _ _ (subject t)); [done|apply subject_enduring| |done..].
    intros s2 l2 Hk3 Hs3 He. apply finish_authenticated_approval_keeps; [done|]. right. by split.
Qed.

(** *** Unattended access *)
Lemma finish_authenticated_unattended_keeps x deadline touch_id s l :
  K s l -> confirmed argon2id (TouchUnattended x deadline) l ->
  gui_wp (finish_authenticated_unattended ask x deadline touch_id) (fun _ => K) s l.
Proof.
  intros Hk Hc. unfold finish_authenticated_unattended. do 4 gui_step.
  set (s1 := s <| unattended_confirmation := None |> <| local_pin := "" |>).
  assert (Hk1 : K s1 l) by solve_kept Hk. gui_step.
  eapply (gui_wp_mono _ (fun _ => K)).
  - destruct (bool_decide _); [|by gui_step]. apply gui_wp_with_broker; [gui_step|done].
    apply kept_careful; done.
  - intros r s2 l2 Hrest. keep_rest.
Qed.
Lemma authenticate_unattended_keeps method s l :
  K s l -> unattended_picked method s l -> gui_wp (authenticate_unattended ask argon2id method) (fun _ => K) s l.
Proof.
  intros Hk Hp. unfold authenticate_unattended. gui_step. gui_step. destruct (unattended_confirmation s) as [c|] eqn:Hc; [|done].
  specialize (Hp c).
  destruct (confirmed_deadline c) as [deadline|e] eqn:Hdl; cbn [is_ok]; gui_step; gui_step; [|by apply notice_from_keeps].
  set (t := TouchUnattended (consent c) deadline).
  assert (Hk1 : K s (Event SystemNow a :: l)) by by apply kept_event.
  assert (Hs : subject t (Event SystemNow a :: l)) by (apply some_call_event; by eapply (inv_unattended _ _ _ (proj1 Hk))).
  assert (Hp1 : picked t method s (Event SystemNow a :: l)) by by apply picked_event, Hp.
  revert Hk1 Hs Hp1. generalize (Event SystemNow a :: l). clear -HF HE HC Hc. intros l Hk Hs Hp. clear Hc.
  destruct (negb (a <? deadline)); [by apply notice_from_keeps|]. gui_step. gui_step. gui_step.
  pose proof (kept_with _ _ (subject t) _ _ Hk Hs) as Hk1.
  apply (gui_wp_mono _ (fun _ s' l' => (K s' l' /\ subject t l') /\ s' = s /\ picked t method s l')).
  - destruct (bool_decide _); [|by gui_step]. eapply gui_wp_mono.
    + eapply vault_session_id_spec; [apply enduring_and; [exact HE|apply subject_enduring]|exact Hk1].
    + intros r s' l' (Hk2%kept_without & -> & Hp2 & _). split; [done|]. split; [done|by apply Hp2].
  - intros r s' l' ([Hk2 Hs2] & -> & Hp2). destruct (negb _).
    + keep_rest.
    + destruct method.
      * gui_step. gui_step. destruct (pending_touch_id s) eqn:Hn; [done|]. by apply wait_for_touch_keeps.
      * eapply (pin_prompt_keeps _ _ (subject t)); [done| |done..].
        intros s3 l3 Hk3 Hs3 He. apply finish_authenticated_unattended_keeps; [done|]. right. by split.
Qed.
(** *** Answers of Touch ID *)
Lemma process_touch_id_result_keeps : gui_keeps K (process_touch_id_result ask).
Proof.
  intros s l Hk. unfold process_touch_id_result. gui_step. gui_step. destruct (pending_touch_id s) as [p|] eqn:Hp; [|done].
  gui_step. gui_step. assert (Hk1 : K s (Event (TouchResult (authentication p)) a :: l)) by by apply kept_event.
  destruct a as [r|]; [|done]. gui_step. gui_step. gui_step.
  set (s1 := s <| pending_touch_id := None |> <| local_pin := "" |>).
  assert (Hk2 : K s1 (Event (TouchResult (authentication p)) (Some r) :: l)) by solve_kept Hk1.
  eapply (gui_wp_mono _ (fun _ => K)); [|intros _ s2 l2 Hk3; gui_step; by apply kept_event].
  assert (Hc : r = Ok tt -> confirmed argon2id (target p) (Event (TouchResult (authentication p)) (Some r) :: l)).
  { intros ->. left. left. split; [done|]. by eapply (inv_touch _ _ _ (proj1 Hk)). }
  clearbody s1. revert Hk2 Hc. generalize (Event (TouchResult (authentication p)) (Some r) :: l). clear -HE HF HC. intros l Hk Hc.
  unfold finish_touch_id. destruct r as [[]|e].
  - specialize (Hc eq_refl). destruct (target p) as [x deadline|vault epoch|t vault|id session lifetime].
    + by apply finish_authenticated_unattended_keeps.
    + by apply finish_app_unlock_touch_id_keeps.
    + apply accept_secret_keeps; [done|by eapply confirmed_secret_vault|done].
    + by apply finish_authenticated_approval_keeps.
  - destruct e; try exact Hk; by apply notice_from_keeps.
Qed.
End authenticated.
#[local] Hint Resolve begin_unattended_confirmation_keeps process_touch_id_result_keeps : desktop.
End operations.

#[export] Hint Resolve vault_session_id_keeps current_phase_keeps clear_pin_keeps set_notice_keeps notice_from_keeps
  drop_touch_id_keeps drop_scan_task_keeps clear_agent_grants_keeps clear_unlock_fields_keeps
  clear_sensitive_buffers_keeps clear_for_app_lock_keeps clear_sensitive_state_keeps lock_vault_keeps
  finish_immediate_lock_keeps lock_immediately_keeps synchronize_phase_keeps finish_auto_lock_keeps
  process_external_lock_keeps reject_stale_app_unlock_keeps reject_stale_authentication_keeps
  current_app_unlock_context_keeps record_touch_success_keeps use_app_unlock_pin_keeps refresh_agent_grants_keeps
  revoke_agent_grant_keeps revoke_all_agent_grants_keeps finish_applied_navigation_keeps
  handle_sensitive_operation_error_keeps handle_add_result_keeps handle_delete_result_keeps delete_secret_keeps
  cancel_stale_keeps show_notice_keeps focus_window_keeps viewport_keeps edit_local_pin_keeps available_actions_keeps
  begin_interface_lock_keeps lock_app_keeps handle_idle_timeout_keeps process_app_lock_result_keeps
  begin_unattended_confirmation_keeps process_touch_id_result_keeps : desktop.
