(* ===== verification/DesktopDialogs.v ===== *)
(** * DesktopDialogs: what a dialog of the window shows before it is answered

    A choice counts as one in a dialog when the dialog was drawn before it, with its
    texts and its lifetime, and nothing else began in between ([undisturbed]).  These
    lemmas follow each dialog from its first label to the answer: what it answers was
    [picked] for the target that it showed. *)

From coqutil Require Import Datatypes.RecordSettersUsingExistingGetters.
From S2P Require Import Prelude Errors Time Utf8 Text Model Vault Paths Calls Grants Approval UnlockRequests Editor SessionAuth.
From S2P Require Import Controller BrokerHandle Detection Scan Lifetime Gui Desktop DesktopViews DesktopInvariant.
Local Open Scope Z_scope.

Section dialogs.
Context (ask : forall A, DesktopCall A -> log -> A).
Context `{LocalTime, TextCrates}.
Abbreviation call := (gui_call ask).

(** ** Parts of a dialog *)

(** Nothing else began since the log was [l]. *)
Definition unmarked (l l' : log) : Prop := forall P, undisturbed P l -> undisturbed P l'.
#[export] Instance unmarked_preorder : PreOrder unmarked.
Proof. split; [by intros l P|]. intros l1 l2 l3 H1 H2 P Hp. by apply H2, H1. Qed.
Lemma unmarked_event {A} (c : DesktopCall A) a l l' : marks c = false -> unmarked l l' -> unmarked l (Event c a :: l').
Proof. intros Hm Hl P Hp. apply undisturbed_event; [done|by apply Hl]. Qed.
Lemma unmarked_drawn l l' texts : unmarked l l' -> Forall (drawn l) texts -> Forall (drawn l') texts.
Proof. intros Hl Ht. eapply Forall_impl; [done|]. intros text. apply Hl. Qed.
Lemma unmarked_picked t method s s' l l' :
  unmarked l l' -> local_pin s' = local_pin s -> picked t method s l -> picked t method s' l'.
Proof. intros Hl Hp. destruct method; cbn; [apply Hl|]. rewrite Hp. apply Hl. Qed.

Lemma unmarked_call {A} (c : DesktopCall A) l : marks c = false -> gui_keeps (fun (_ : LadonDesktop) => unmarked l) (call c).
Proof. intros Hm. apply gui_keeps_call. intros s a l'. by apply unmarked_event. Qed.
Ltac keep_unmarked :=
  repeat first [keep_step | apply unmarked_call; reflexivity | apply keeps_modifies; intros ? ? Hs; exact Hs].

(** The same, and the state is as it was. *)
Definition silent (s : LadonDesktop) (l : log) (s' : LadonDesktop) (l' : log) : Prop := s' = s /\ unmarked l l'.
Lemma silent_call {A} (c : DesktopCall A) s l : marks c = false -> gui_keeps (silent s l) (call c).
Proof. intros Hm. apply gui_keeps_call. intros s' a l' [-> Hl]. split; [done|]. by apply unmarked_event. Qed.
Ltac keep_silent := repeat first [keep_step | apply silent_call; reflexivity].

(** A part that draws these labels, and nothing else begins. *)
Definition shows (m : Desk unit) (texts : list string) : Prop :=
  forall s l, gui_wp m (fun _ s' l' => s' = s /\ unmarked l l' /\ Forall (drawn l') texts) s l.
Lemma shows_label text : shows (call (Label text)) [text].
Proof.
  intros s l. gui_step. split; [done|]. split; [by apply unmarked_event|]. by repeat constructor.
Qed.
Lemma shows_nothing : shows (mret tt) [].
Proof. intros s l. gui_step. by split. Qed.
Lemma shows_bind (m : Desk unit) (k : unit -> Desk unit) t1 t2 :
  shows m t1 -> (forall u, shows (k u) t2) -> shows (m ≫= k) (t1 ++ t2).
Proof.
  intros Hm Hk s l. gui_step. eapply gui_wp_mono; [apply Hm|]. intros u s1 l1 (-> & Hu1 & Ht1).
  eapply gui_wp_mono; [apply Hk|]. intros _ s2 l2 (-> & Hu2 & Ht2). split; [done|]. split; [by etrans|].
  apply Forall_app. split; [by eapply unmarked_drawn|done].
Qed.
Lemma shows_each {X} (f : X -> Desk unit) (texts : X -> list string) xs :
  (forall x, shows (f x) (texts x)) -> shows (each f xs) (xs ≫= texts).
Proof.
  intros Hf. unfold each. induction xs as [|x xs IH]; [apply shows_nothing|]. change (shows (f x ≫= fun u => gui_fold (fun a _ => f a) xs u) (texts x ++ (xs ≫= texts))).
  apply shows_bind; [done|]. by intros [].
Qed.
Lemma shows_each_label {X} (f : X -> string) xs : shows (each (fun x => call (Label (f x))) xs) (f <$> xs).
Proof.
  assert (He : f <$> xs = xs ≫= fun x => [f x]) by (induction xs as [|x xs IH]; [done|]; cbn; by f_equal).
  rewrite He. apply shows_each. intros x. apply shows_label.
Qed.

(** *** The buttons *)
Lemma touch_button_picked t b s l :
  undisturbed (dialog_of t) l ->
  gui_wp (only_if b (call (Button (touch_button t)))) (fun r s' l' => s' = s /\ unmarked l l' /\ (r = true -> picked t ByTouchId s' l')) s l.
Proof.
  intros Hd. destruct b; cbn [only_if]; gui_step; [|done]. split; [done|]. split; [by apply unmarked_event|]. intros ->. by left.
Qed.
Lemma pin_button_picked t s l :
  undisturbed (typed_pin t (local_pin s)) l ->
  gui_wp (call (Button (pin_button t))) (fun r s' l' => s' = s /\ unmarked l l' /\ (r = true -> picked t ByPin s' l')) s l.
Proof. intros Hd. gui_step. split; [done|]. split; [by apply unmarked_event|]. intros ->. by left. Qed.
Lemma edit_local_pin_unmarked l : gui_keeps (fun (_ : LadonDesktop) => unmarked l) (edit_local_pin ask).
Proof. unfold edit_local_pin. keep_unmarked. Qed.

(** What the dialog leaves of the state, and what was chosen in it. *)
Definition chosen (t : TouchIdTarget) (s : LadonDesktop) (touch pin : bool) (s' : LadonDesktop) (l' : log) : Prop :=
  detail s' = detail s /\ unattended_confirmation s' = unattended_confirmation s /\
  (touch = true -> picked t ByTouchId s' l') /\ (pin = true -> picked t ByPin s' l').

Lemma pin_prompt_chosen t b touch s l :
  undisturbed (dialog_of t) l -> (touch = true -> picked t ByTouchId s l) ->
  gui_wp (only_if b (edit_local_pin ask;; call (Button (pin_button t)))) (fun pin => chosen t s touch pin) s l.
Proof.
  intros Hd Ht. destruct b; cbn [only_if]; [|by gui_step]. gui_step.
  eapply gui_wp_mono; [apply gui_wp_and; [by apply edit_local_pin_typed|by eapply (edit_local_pin_unmarked l)]|].
  intros r s1 l1 [(Hp & Hdt & Hun & _) Hu1]. eapply gui_wp_mono; [by apply pin_button_picked|].
  intros pin s2 l2 (-> & Hu2 & Hpin). split_and!; [done..| |done]. intros Htouch%Ht.
  change (touch_choice t l2). by apply Hu2, Hu1.
Qed.
Lemma confirm_chosen {A} t b1 b2 (k : bool -> bool -> Desk A) Q s l :
  undisturbed (dialog_of t) l ->
  (forall touch pin s' l', chosen t s touch pin s' l' -> gui_wp (k touch pin) Q s' l') ->
  gui_wp (touch ← only_if b1 (call (Button (touch_button t)));
    pin ← only_if b2 (edit_local_pin ask;; call (Button (pin_button t))); k touch pin) Q s l.
Proof.
  intros Hd Hk. gui_step. eapply gui_wp_mono; [by apply touch_button_picked|].
  intros touch s1 l1 (-> & Hu & Ht). gui_step. eapply gui_wp_mono; [by apply pin_prompt_chosen, Ht; apply Hu|].
  intros pin s2 l2. apply Hk.
Qed.
(** The same beside what the program keeps. *)
Lemma kept_shown_then {A} (I : LadonDesktop -> log -> Prop) m texts (k : unit -> Desk A) Q s l :
  shows m texts -> gui_keeps I m -> I s l ->
  (forall l', I s l' -> unmarked l l' -> Forall (drawn l') texts -> gui_wp (k tt) Q s l') -> gui_wp (m ≫= k) Q s l.
Proof.
  intros Hm Hi Hs Hk. gui_step. eapply gui_wp_mono; [apply gui_wp_and; [by apply Hi|apply Hm]|].
  intros [] s' l' (Hs' & -> & Hu & Ht). by apply Hk.
Qed.
Lemma unchosen t s touch pin s1 l1 s2 l2 :
  silent s1 l1 s2 l2 -> chosen t s touch pin s1 l1 -> chosen t s touch pin s2 l2.
Proof. intros [-> Hu] (Hd & Hun & Ht & Hp). split_and!; [done..| |]; intros Hc; (eapply unmarked_picked; [exact Hu|done|auto]). Qed.
Lemma silent_chosen {A} t s touch pin (m : Desk A) : (forall s l, gui_keeps (silent s l) m) -> gui_keeps (chosen t s touch pin) m.
Proof.
  intros Hm s1 l1 Hc. eapply gui_wp_mono; [by apply (Hm s1 l1)|]. intros a s2 l2 Hs. exact (unchosen _ _ _ _ _ _ _ _ Hs Hc).
Qed.

(** ** A request of an agent *)
Definition window_texts (p : PendingApproval) : list string := request_texts (view_from_approval p (from_secs (2 * 60))).
Definition approval_target (p : PendingApproval) (l : ApprovalLifetime) : TouchIdTarget :=
  TouchApproval (approval_id p) (approval_vault p) l.

Lemma show_approval_command_shows v :
  shows (show_approval_command ask v) [view_executable v; add_text "in " (view_directory v)].
Proof.
  apply (shows_bind _ _ [_] [_]); [apply shows_label|]. intros _ s l.
  apply (gui_wp_keeps_bind (silent s l)); [keep_silent|done|]. intros opened s1 l1 [-> Hu1].
  apply (gui_wp_keeps_bind (silent s l)); [keep_silent|done|]. intros _ s2 l2 [-> Hu2].
  eapply gui_wp_mono; [apply shows_label|]. intros _ s3 l3 (-> & Hu3 & Ht). split_and!; [done|by etrans|done].
Qed.
Lemma secrets_shown (secrets : list (string * list string)) :
  shows (each (fun nf => call (Label nf.1);; each (fun f => call (Label f)) nf.2) secrets) (secrets ≫= fun nf => nf.1 :: nf.2).
Proof.
  apply shows_each. intros [name fields]. apply (shows_bind _ _ [_] fields); [apply shows_label|]. intros _.
  rewrite <- (list_fmap_id fields) at 2. apply (shows_each_label id).
Qed.
Lemma shown_then {A} m texts (k : unit -> Desk A) Q s l :
  shows m texts -> (forall l', unmarked l l' -> Forall (drawn l') texts -> gui_wp (k tt) Q s l') -> gui_wp (m ≫= k) Q s l.
Proof.
  intros Hm Hk. gui_step. eapply gui_wp_mono; [apply Hm|]. intros [] s' l' (-> & Hu & Ht). by apply Hk.
Qed.
(** The lifetime that the picker leaves is that of the dialog. *)
Lemma picker_begins p connected authenticating s l :
  undisturbed (pending_is p) l -> Forall (drawn l) (window_texts p) ->
  gui_wp (approval_lifetime_picker ask (approval_id p) connected authenticating)
    (fun chosen s' l' => s' = s /\ undisturbed (dialog_of (approval_target p chosen)) l') s l.
Proof.
  intros Hp Ht. unfold approval_lifetime_picker, pick.
  do 4 (apply (gui_wp_keeps_bind (silent s l)); [keep_silent|done|]; intros ? ? ? [-> ?]).
  do 2 gui_step. split; [done|]. left. split; [done|]. split; [done|]. exists p. split_and!; [eauto|done..|].
  by eapply unmarked_drawn.
Qed.
Lemma show_approval_window_picked p actions s l :
  undisturbed (pending_is p) l ->
  gui_wp (show_approval_window ask p actions) (fun r s' l' => forall method,
    r.1.1 = Some (ApproveBy method) -> picked (approval_target p r.1.2) method s' l') s l.
Proof.
  intros Hp. unfold show_approval_window.
  apply (gui_wp_keeps_bind (silent s l)); [unfold with_broker; keep_silent|done|]. intros connected s1 l1 [-> Hu1].
  eapply shown_then; [apply shows_label|]. intros l2 Hu2 Ht2.
  eapply shown_then; [apply secrets_shown|]. intros l3 Hu3 Ht3.
  eapply shown_then; [apply show_approval_command_shows|]. intros l4 Hu4 Ht4. do 3 gui_step.
  eapply gui_wp_mono; [apply (picker_begins p)|].
  - by apply Hu4, Hu3, Hu2, Hu1.
  - unfold window_texts, request_texts. apply Forall_cons. split; [by apply Hu4, Hu3, (Forall_inv Ht2)|].
    apply Forall_app. split; [by eapply unmarked_drawn|done].
  - intros chosen_lifetime s5 l5 [-> Hd]. apply (confirm_chosen (approval_target p chosen_lifetime)); [done|].
    intros touch pin s6 l6 Hc.
    do 3 (eapply gui_wp_keeps_bind; [apply silent_chosen; intros ? ?; unfold show_notice; keep_silent|exact Hc|];
      clear Hc; intros ? ? ? Hc).
    gui_step. destruct Hc as (_ & _ & Ht & Hpin). intros method. cbn. destruct a0; [done|].
    destruct pin; [intros [= <-]; auto|]. destruct touch; [intros [= <-]; auto|done].
Qed.

(** ** The selected secret *)
Lemma controls_detail actions d : gui_keeps (fun s _ => detail s = d) (secret_confirmation_controls ask actions).
Proof.
  unfold secret_confirmation_controls, edit_local_pin.
  repeat first [keep_step | apply gui_keeps_call; intros ? ? ? Hd; exact Hd | apply keeps_modifies; intros ? ? Hd; exact Hd].
Qed.
Lemma controls_picked a vault actions s l (t := TouchSecret a vault) :
  undisturbed (dialog_of t) l ->
  gui_wp (secret_confirmation_controls ask actions)
    (fun r s' l' => forall method, r.1 = Some method -> picked t method s' l') s l.
Proof.
  intros Hd. unfold secret_confirmation_controls. gui_step.
  apply (gui_wp_mono _ (fun _ s' l' => unmarked l l' /\
    (bool_decide (ByPin ∈ actions) = true -> undisturbed (typed_pin t (local_pin s')) l'))).
  { destruct (bool_decide (ByPin ∈ actions)); gui_step; [|done].
    eapply gui_wp_mono; [apply gui_wp_and; [by apply edit_local_pin_typed|by eapply (edit_local_pin_unmarked l)]|].
    intros r s1 l1 [(Hp & _) Hu]. by gui_step. }
  intros _ s1 l1 (Hu1 & Hp). gui_step. eapply gui_wp_mono; [apply (touch_button_picked t); by apply Hu1|].
  intros touch s2 l2 (-> & Hu2 & Ht). gui_step.
  apply (gui_wp_mono _ (fun pin s' l' => s' = s1 /\ unmarked l2 l' /\ (pin = true -> picked t ByPin s' l'))).
  { destruct (bool_decide (ByPin ∈ actions)); cbn [only_if]; [|by gui_step]. apply (pin_button_picked t). apply Hu2. auto. }
  intros pin s3 l3 (-> & Hu3 & Hpin). do 3 gui_step. intros method. cbn.
  destruct pin; [intros [= <-]; apply picked_event; auto|]. destruct touch; [intros [= <-]|done]. apply picked_event; [done|].
  apply (unmarked_picked t ByTouchId s1 s1 l2); auto.
Qed.
(** The dialog is drawn after the secrets were listed with the selected one. *)
Lemma selected_metadata_lists s l :
  gui_wp (selected_metadata ask) (fun r s' l' => s' = s /\ (is_Some r -> forall captured a,
    authentication_attempt captured (detail s) = Some a -> undisturbed (dialog_of (TouchSecret a captured)) l')) s l.
Proof.
  unfold selected_metadata, authentication_attempt. do 2 gui_step. destruct (selected (detail s)) as [id|].
  - do 2 gui_step. split; [done|]. intros [m Hm] captured a' Ha. injection Ha as <-. left. cbn.
    destruct a as [metas|e]; [|done]. exists metas. split; [done|]. apply List.find_some in Hm as [Hin Hid]. bool_hyps.
    apply Exists_exists. exists m. split; [by apply list_elem_of_In|done].
  - gui_step. split; [done|]. by intros [].
Qed.
Lemma gui_wp_forall {X A} (m : Desk A) (Q : X -> A -> LadonDesktop -> log -> Prop) s l :
  (forall x, gui_wp m (Q x) s l) -> gui_wp m (fun a s' l' => forall x, Q x a s' l') s l.
Proof. unfold gui_wp. by destruct (m s l) as [[a s'] l']. Qed.
Lemma gui_wp_impl {A} (P : Prop) (m : Desk A) (Q : A -> LadonDesktop -> log -> Prop) s l :
  (P -> gui_wp m Q s l) -> gui_wp m (fun a s' l' => P -> Q a s' l') s l.
Proof. unfold gui_wp. by destruct (m s l) as [[a s'] l']. Qed.

(** The dialog of the selected secret is drawn. *)
Definition secret_dialog (s : LadonDesktop) (l : log) : Prop := forall captured a,
  authentication_attempt captured (detail s) = Some a -> undisturbed (dialog_of (TouchSecret a captured)) l.
Lemma secret_controls_picked actions s l :
  secret_dialog s l ->
  gui_wp (secret_confirmation_controls ask actions)
    (fun r s' l' => forall method, r.1 = Some method -> secret_picked method s' l') s l.
Proof.
  intros Hd. eapply gui_wp_mono; [apply gui_wp_and; [by eapply (controls_detail actions (detail s))|]|].
  - apply (gui_wp_forall _ (fun captured r s' l' => forall a, authentication_attempt captured (detail s) = Some a ->
      forall method, r.1 = Some method -> picked (TouchSecret a captured) method s' l')). intros captured.
    apply gui_wp_forall. intros a. apply gui_wp_impl. intros Ha. by apply controls_picked, Hd.
  - intros r s' l' [Hdt Hall] method Hr captured a Ha. rewrite Hdt in Ha. by eapply Hall.
Qed.

(** ** An unattended grant *)
Definition unattended_dialog (s : LadonDesktop) (l : log) : Prop := forall c deadline,
  unattended_confirmation s = Some c -> confirmed_deadline c = Ok deadline ->
  undisturbed (dialog_of (TouchUnattended (consent c) deadline)) l.
Lemma confirm_unattended_picked actions enabled s l :
  unattended_dialog s l ->
  (enabled = true -> exists c deadline, unattended_confirmation s = Some c /\ confirmed_deadline c = Ok deadline) ->
  gui_wp (confirm_unattended ask actions enabled)
    (fun r s' l' => forall method, r = Some method -> unattended_picked method s' l') s l.
Proof.
  intros Hd Hok. unfold confirm_unattended. destruct enabled; cbn [andb only_if]; [|by repeat gui_step].
  destruct (Hok eq_refl) as (c & d & Hc & Hconf).
  apply (confirm_chosen (TouchUnattended (consent c) d)); [by apply Hd|]. intros touch pin s1 l1 (_ & Hun & Ht & Hp). gui_step.
  intros method Hm c' d' Hc' Hd'. rewrite Hun, Hc in Hc'. injection Hc' as <-. rewrite Hconf in Hd'. injection Hd' as <-.
  destruct pin; [injection Hm as <-; auto|]. destruct touch; [injection Hm as <-; auto|done].
Qed.
(** The label that ends what the dialog says. *)
Lemma deadline_begins x s l (deadline := match unattended_confirmation s with Some c => confirmed_deadline c | None => Err InvalidRequest end) :
  (forall c, unattended_confirmation s = Some c -> consent c = x) -> Forall (drawn l) (consent_texts x) ->
  gui_wp (match deadline with Ok t => call (Label (add_text "Expires: " (format_local_time t))) | Err _ => mret tt end)
    (fun _ s' l' => s' = s /\ unattended_dialog s' l') s l.
Proof.
  intros Hx Ht. unfold unattended_dialog. subst deadline. destruct (unattended_confirmation s) as [c|] eqn:Hc; [|gui_step; split; [done|by rewrite Hc]].
  destruct (confirmed_deadline c) as [t|e] eqn:Hd; gui_step; (split; [done|]); intros c' d Hc' Hd'; simplify_eq; [|congruence].
  left. split; [congruence|]. by rewrite (Hx c).
Qed.

(** ** The locked interface *)
Definition app_dialog (l : log) : Prop := forall vault epoch, undisturbed (dialog_of (TouchAppUnlock vault epoch)) l.
Lemma app_dialog_begins l a : app_dialog (Event TouchAvailable a :: l).
Proof. intros vault epoch. by left. Qed.
Lemma app_dialog_unmarked l l' : unmarked l l' -> app_dialog l -> app_dialog l'.
Proof. intros Hu Hd vault epoch. by apply Hu. Qed.
Lemma app_touch_picked b s l :
  app_dialog l ->
  gui_wp (only_if b (call (Button "Unlock"))) (fun clicked s' l' => silent s l s' l' /\ (clicked = true -> app_picked ByTouchId s' l')) s l.
Proof.
  intros Hd. destruct b; cbn [only_if]; gui_step; [|by repeat split].
  split; [split; [done|by apply unmarked_event]|]. intros -> vault epoch. by left.
Qed.
Lemma app_pin_picked s l :
  app_dialog l ->
  gui_wp (edit_local_pin ask) (fun field s1 l1 => (submitted field = true -> app_picked ByPin s1 l1) /\
    gui_wp (call (Button "Unlock with PIN")) (fun clicked s2 l2 => clicked || submitted field = true -> app_picked ByPin s2 l2) s1 l1) s l.
Proof.
  intros Hd. apply (gui_wp_mono _ (fun field s1 l1 => forall vault epoch,
    undisturbed (typed_pin (TouchAppUnlock vault epoch) (local_pin s1)) l1 /\
    (submitted field = true -> picked (TouchAppUnlock vault epoch) ByPin s1 l1))).
  - apply gui_wp_forall. intros vault. apply gui_wp_forall. intros epoch.
    eapply gui_wp_mono; [apply (edit_local_pin_typed _ (TouchAppUnlock vault epoch)), Hd|]. intros r s1 l1 (Ht & _ & _ & Hs).
    split; [done|]. apply Hs. eauto.
  - intros field s1 l1 Hp. split; [intros Hs vault epoch; by apply Hp|].
    gui_step. intros Hor vault epoch. destruct (Hp vault epoch) as [Ht Hs]. destruct a.
    + left. by split_and!.
    + apply picked_event; [done|]. by apply Hs.
Qed.
Lemma app_unmarked l :
  gui_keeps (fun (_ : LadonDesktop) => unmarked l) (begin_app_unlock ask) /\
  gui_keeps (fun (_ : LadonDesktop) => unmarked l) (use_app_unlock_pin ask).
Proof.
  unfold begin_app_unlock, begin_app_unlock_with, use_app_unlock_pin, current_app_unlock_context, reject_stale_app_unlock,
    wait_for_touch, touch_start, lock_immediately, lock_vault, finish_immediate_lock, clear_sensitive_state, clear_for_app_lock,
    clear_agent_grants, clear_sensitive_buffers, drop_scan_task, drop_touch_id, clear_unlock_fields, clear_pin, notice_from, set_notice.
  split; keep_unmarked.
Qed.

(** ** What follows a dialog *)
Lemma show_notice_silent s l : gui_wp (show_notice ask) (fun _ => silent s l) s l.
Proof. assert (Hk : gui_keeps (silent s l) (show_notice ask)) by (unfold show_notice; keep_silent). by apply Hk. Qed.
Lemma available_actions_silent s l : gui_wp (available_actions ask) (fun _ => silent s l) s l.
Proof. assert (Hk : gui_keeps (silent s l) (available_actions ask)) by (unfold available_actions; keep_silent). by apply Hk. Qed.
Lemma silent_picked t method s s' l l' : silent s l s' l' -> picked t method s l -> picked t method s' l'.
Proof. intros [-> Hu]. by apply unmarked_picked. Qed.
Lemma silent_secret_picked method s s' l l' : silent s l s' l' -> secret_picked method s l -> secret_picked method s' l'.
Proof. intros Hs Hp captured a Ha. eapply silent_picked; [done|]. apply Hp. by destruct Hs as [-> _]. Qed.
Lemma silent_unattended_picked method s s' l l' :
  silent s l s' l' -> unattended_picked method s l -> unattended_picked method s' l'.
Proof. intros Hs Hp c d Hc Hd. eapply silent_picked; [done|]. apply Hp; [|done]. by destruct Hs as [-> _]. Qed.
Lemma silent_secret_dialog s s' l l' : silent s l s' l' -> secret_dialog s l -> secret_dialog s' l'.
Proof. intros [-> Hu] Hd captured a Ha. apply Hu. by apply Hd. Qed.
Lemma silent_now {A} (c : DesktopCall A) a s l : marks c = false -> silent s l s (Event c a :: l).
Proof. intros Hm. split; [done|]. by apply unmarked_event. Qed.
End dialogs.

Ltac keep_unmarked :=
  repeat first [keep_step | apply unmarked_call; reflexivity | apply keeps_modifies; intros ? ? Hs; exact Hs].
