(* ===== verification/ClipboardProperties.v ===== *)
(** * ClipboardProperties: the copy and cut events of the field that shows a secret

    [sensitive_text_edit] takes the copy and cut events away from the widget and puts
    them back for the rest of the window: the widget sees none of them, and nobody
    else can tell. *)

From S2P Require Import Prelude Gui Desktop DesktopViews.

(** Events without those of an input method. *)
Abbreviation without_ime := (List.filter (fun e => negb (is_ime_event e))).
Abbreviation ime_count e := (if is_ime_event e then 1 else 0)%nat.
Abbreviation restore at_index :=
  (fold_left (fun events h => let '(index, preceding_ime_events, e) := h in insert_event (at_index index preceding_ime_events) e events)).

Lemma insert_event_app (p q : list EguiEvent) e : insert_event (length p) e (p ++ q) = p ++ e :: q.
Proof. unfold insert_event. rewrite length_app, Nat.min_l by lia. by rewrite take_app_length, drop_app_length. Qed.

(** The widget is given no clipboard event, and every other one. *)
Lemma kept_events index pre events :
  (hide_clipboard_events index pre events).1 = List.filter (fun e => negb (is_clipboard_event e)) events.
Proof.
  revert index pre. induction events as [|e events IH]; intros index pre; [done|]. cbn.
  specialize (IH (S index) (pre + ime_count e)%nat).
  destruct (hide_clipboard_events _ _ events) as [kept hidden]. cbn in IH. subst. by destruct e.
Qed.

(** Behind what is already restored, of the length that is counted, the rest follows. *)
Lemma restore_hidden events index pre p :
  length p = index ->
  restore (fun index _ => index) (hide_clipboard_events index pre events).2 (p ++ (hide_clipboard_events index pre events).1) =
    p ++ events.
Proof.
  revert index pre p. induction events as [|e events IH]; intros index pre p Hp; [done|]. cbn.
  specialize (IH (S index) (pre + ime_count e)%nat (p ++ [e])).
  destruct (hide_clipboard_events _ _ events) as [kept hidden]. cbn [fst snd] in IH.
  rewrite <- !app_assoc in IH. cbn in IH. rewrite length_app in IH. cbn in IH.
  destruct (is_clipboard_event e); cbn; [|apply IH; lia]. rewrite <- Hp, insert_event_app. apply IH. lia.
Qed.
Lemma restore_without_ime events index pre p :
  (length p = index - pre)%nat -> (pre <= index)%nat ->
  restore (fun index pre => index - pre)%nat (hide_clipboard_events index pre events).2
    (p ++ without_ime (hide_clipboard_events index pre events).1) = p ++ without_ime events.
Proof.
  revert index pre p. induction events as [|e events IH]; intros index pre p Hp Hle; [done|]. cbn.
  pose proof (IH (S index) (pre + ime_count e)%nat (p ++ without_ime [e])) as IHe.
  destruct (hide_clipboard_events _ _ events) as [kept hidden]. cbn [fst snd] in IHe.
  rewrite <- !app_assoc in IHe. rewrite length_app in IHe.
  destruct e as [| |n|n]; cbn in IHe |- *; try (apply IHe; lia).
  all: rewrite <- Hp, insert_event_app; apply IHe; lia.
Qed.
Lemma no_ime_hidden events index pre :
  existsb is_ime_event (hide_clipboard_events index pre events).1 = false -> without_ime events = events.
Proof.
  rewrite kept_events. induction events as [|e events IH]; [done|]. cbn. destruct e; cbn; intros Hi; try done; by rewrite IH.
Qed.
Lemma without_ime_none events : existsb is_ime_event (without_ime events) = false.
Proof. induction events as [|e events IH]; [done|]. cbn. destruct (is_ime_event e) eqn:He; [done|]. cbn. by rewrite He. Qed.
Lemma restore_is_restore hidden events :
  restore_clipboard_events hidden events =
    if existsb is_ime_event events then restore (fun index _ => index) hidden events
    else restore (fun index pre => index - pre)%nat hidden events.
Proof. unfold restore_clipboard_events. by destruct (existsb is_ime_event events). Qed.

(** A field that shows a secret hides the copy and cut events from its widget and
    gives them back to the window in their places: if the widget leaves the other
    events alone, the events are what they were, and if it removes those of an input
    method, exactly these are missing. *)
Theorem clipboard_events_survive events :
  Forall (fun e => is_clipboard_event e = false) (hide_clipboard_events 0 0 events).1 /\
  sensitive_text_edit (fun shown => shown) events = events /\
  sensitive_text_edit without_ime events = without_ime events.
Proof.
  split; [|split].
  - rewrite kept_events. apply List.Forall_forall. intros e [_ He]%List.filter_In. by apply negb_true_iff.
  - unfold sensitive_text_edit. pose proof (restore_hidden events 0 0 [] eq_refl) as Hall.
    pose proof (restore_without_ime events 0 0 [] eq_refl (le_n 0)) as Hnone. pose proof (no_ime_hidden events 0 0) as Hno.
    pose proof (kept_events 0 0 events) as Hk.
    destruct (hide_clipboard_events 0 0 events) as [kept hidden]. cbn in *. rewrite restore_is_restore.
    destruct (existsb is_ime_event kept) eqn:Hi; [exact Hall|]. rewrite (Hno eq_refl) in Hnone. rewrite <- Hnone. f_equal.
    clear -Hi. induction kept as [|e kept IH]; [done|]. cbn in *. destruct (is_ime_event e); [done|]. cbn. f_equal. by apply IH.
  - unfold sensitive_text_edit. pose proof (restore_without_ime events 0 0 [] eq_refl (le_n 0)) as Hnone.
    destruct (hide_clipboard_events 0 0 events) as [kept hidden]. cbn in *. by rewrite restore_is_restore, without_ime_none.
Qed.
