(* ===== verification/DesktopProperties.v ===== *)
(** * DesktopProperties: what the window does only for the user who unlocked it

    Whatever the broker, the controller, Touch ID and the user's clicks answer, in
    any number of frames: an approval, an unattended grant and an unlock of the
    interface are asked of the broker only after the user confirmed exactly that, with
    its lifetime, in the dialog that showed it, and a secret is read or shown only
    after its selection was confirmed. *)

From coqutil Require Import Datatypes.RecordSettersUsingExistingGetters.
From S2P Require Import Prelude Errors Time Utf8 Text Model Vault Paths Calls Grants Approval UnlockRequests Editor SessionAuth.
From S2P Require Import Controller BrokerHandle Detection Scan Lifetime Gui Desktop DesktopViews DesktopInvariant DesktopDialogs.
Local Open Scope Z_scope.

Section operations.
Context (ask : forall A, DesktopCall A -> log -> A).
Context (argon2id : Z -> Z -> Z -> Z -> bytes -> bytes -> option bytes).
Context `{LocalTime, TextCrates}.
Abbreviation call := (gui_call ask).
Abbreviation kept := (kept argon2id).
Abbreviation selection_unlocked := (selection_unlocked argon2id).

(** *** Views *)
Section views.
Context (m : moment) (F : log -> Prop) (HF : enduring F).
Abbreviation K := (kept m F).

Lemma synchronize_window_size_keeps active : gui_keeps K (synchronize_window_size ask active).
Proof. unfold synchronize_window_size. keep. Qed.
Lemma start_exposure_scan_keeps : gui_keeps K (start_exposure_scan ask).
Proof. unfold start_exposure_scan. keep. Qed.
Hint Resolve synchronize_window_size_keeps start_exposure_scan_keeps : desktop.
Lemma show_exposure_scan_keeps : gui_keeps K (show_exposure_scan ask).
Proof. unfold show_exposure_scan, show_scan_report. keep. Qed.
Lemma edit_passphrase_keeps hint : gui_keeps K (edit_passphrase ask hint).
Proof. unfold edit_passphrase. keep. Qed.
Hint Resolve edit_passphrase_keeps : desktop.
Lemma show_first_run_keeps : gui_keeps K (show_first_run ask).
Proof. unfold show_first_run, edit_confirmation. keep. Qed.
Lemma show_locked_keeps : gui_keeps K (show_locked ask).
Proof. unfold show_locked. keep. Qed.
Lemma show_recovery_keeps : gui_keeps K (show_recovery ask).
Proof. unfold show_recovery. keep. Qed.
Lemma show_unlock_request_keeps : gui_keeps K (show_unlock_request ask).
Proof. unfold show_unlock_request, deny_unlock. keep. Qed.
Lemma show_legacy_agent_access_keeps : gui_keeps K (show_legacy_agent_access ask).
Proof. unfold show_legacy_agent_access, show_legacy_client, show_legacy_grant. keep. Qed.
Hint Resolve show_legacy_agent_access_keeps : desktop.
Lemma show_other_access_keeps s : gui_keeps K (show_other_access ask s).
Proof. unfold show_other_access. keep. Qed.
Lemma selected_metadata_keeps : gui_keeps K (selected_metadata ask).
Proof. unfold selected_metadata. keep. Qed.
Lemma show_draft_field_keeps i f acc : gui_keeps K (show_draft_field ask i f acc).
Proof. unfold show_draft_field. keep. Qed.
Hint Resolve show_draft_field_keeps : desktop.
Lemma show_add_workspace_keeps : gui_keeps K (show_add_workspace ask).
Proof. unfold show_add_workspace, clear_form_error, save_new_secret. keep. Qed.
Lemma show_approval_window_keeps p actions : gui_keeps K (show_approval_window ask p actions).
Proof. unfold show_approval_window, show_approval_command, approval_lifetime_picker, pick. keep. Qed.
Lemma focus_approval_keeps next : gui_keeps K (focus_approval next).
Proof. unfold focus_approval. keep. Qed.
End views.
#[local] Hint Resolve synchronize_window_size_keeps start_exposure_scan_keeps show_exposure_scan_keeps show_first_run_keeps
  show_locked_keeps show_recovery_keeps show_unlock_request_keeps show_legacy_agent_access_keeps show_other_access_keeps
  selected_metadata_keeps show_add_workspace_keeps show_approval_window_keeps focus_approval_keeps : desktop.

(** **** While the interface is active *)
Section active.
Context (F : log -> Prop) (HF : enduring F).
Abbreviation K := (kept WhileActive F).

Lemma keeps_detail (f : SecretDetailState -> SecretDetailState) :
  (forall d, detail_authorized (f d) = None \/ detail_authorized (f d) = detail_authorized d) ->
  (forall d, mode (f d) = Hidden \/ mode (f d) = mode d) -> gui_keeps K (modifies (fun s => s <| detail ::= f |>)).
Proof.
  intros Ha Hm. apply keeps_modifies. intros s l ([] & Hb & Hact & Hf). specialize (Ha (detail s)). specialize (Hm (detail s)).
  split_and!; [|intros _ Hl; by destruct Hl; apply Hact|done|done].
  constructor; try done; cbn.
  - intros a Hs. destruct Ha as [Ha|Ha]; rewrite Ha in Hs; [done|auto].
  - intros d Hs. destruct Hm as [Hm|Hm]; rewrite Hm in Hs; [done|auto].
  - intros d Hs. destruct Hm as [Hm|Hm]; rewrite Hm in Hs; [done|auto].
Qed.
Lemma navigation_keeps_detail t : gui_keeps K (modifies (fun s => s <| detail ::= fun d => (request_navigation t d).2 |>)).
Proof. apply keeps_detail; intros d; unfold request_navigation; destruct (mode d) as [| |? []] eqn:Hm; cbn; auto. Qed.
Lemma discard_keeps_detail : gui_keeps K (modifies (fun s => s <| detail ::= fun d => (discard_pending_navigation d).2 |>)).
Proof. apply keeps_detail; intros d; unfold discard_pending_navigation; destruct (pending_navigation d); cbn; auto. Qed.
Hint Resolve navigation_keeps_detail discard_keeps_detail : desktop.

Lemma navigate_keeps t : gui_keeps K (navigate ask t).
Proof. unfold navigate. keep. Qed.
Lemma finish_discard_navigation_keeps : gui_keeps K (finish_discard_navigation ask).
Proof. unfold finish_discard_navigation. keep. Qed.
Lemma process_close_request_keeps phase : gui_keeps K (process_close_request ask phase).
Proof. unfold process_close_request. keep. Qed.
Hint Resolve navigate_keeps finish_discard_navigation_keeps : desktop.
Lemma show_secret_rail_keeps : gui_keeps K (show_secret_rail ask).
Proof. unfold show_secret_rail, show_secret_navigation, show_secret_row. keep. Qed.
Lemma show_discard_confirmation_keeps : gui_keeps K (show_discard_confirmation ask).
Proof. unfold show_discard_confirmation. keep. Qed.
Lemma show_agent_access_keeps : gui_keeps K (show_agent_access ask).
Proof.
  unfold show_agent_access, show_agent_session, show_session_editor, show_session_grant.
  pose proof begin_unattended_confirmation_keeps. keep.
Qed.
End active.
#[local] Hint Resolve show_secret_rail_keeps show_discard_confirmation_keeps show_agent_access_keeps : desktop.

(** **** The selected secret *)
Definition some_secret (l : log) : Prop := exists id, unlocked_secret argon2id id l.
Lemma unlocked_enduring id : enduring (unlocked_secret argon2id id).
Proof. intros A c a l _. apply unlocked_secret_suffix, suffix_event. Qed.
Lemma keeps_careful m F {A} (c : DesktopCall A) :
  lasting F -> (forall r, existT A c <> existT _ (TouchSpawn r)) -> (forall a l, F l -> careful argon2id A c a l) ->
  gui_keeps (kept m F) (call c).
Proof. intros HF Hn Hc. apply gui_keeps_call. intros s a l Hk. apply kept_careful; [done..|apply Hc, Hk|done]. Qed.

Section values.
Context (m : moment) (F : log -> Prop) (HF : lasting F).
Let HE : enduring F := lasting_enduring F HF.
Abbreviation K := (kept m F).

Lemma copy_value_button_keeps v request : gui_keeps K (copy_value_button ask v request).
Proof. unfold copy_value_button. keep. Qed.
Hint Resolve copy_value_button_keeps : desktop.
Lemma copy_requested_keeps value : (value <> None -> forall l, F l -> some_secret l) -> gui_keeps K (copy_requested ask value).
Proof.
  intros Hs. unfold copy_requested. destruct value as [value|]; [|keep]. apply gui_keeps_bind; [|intros ?; keep].
  apply keeps_careful; [done..|]. intros ? l Hf. by apply Hs.
Qed.
Lemma show_revealed_field_keeps d f request :
  (forall l, F l -> some_call (loaded d) l /\ unlocked_secret argon2id (draft_id d) l) -> f ∈ editable_fields d ->
  gui_keeps K (show_revealed_field ask f request).
Proof.
  intros Hd Hf. unfold show_revealed_field. apply gui_keeps_bind; [keep|]. intros _.
  destruct (editable_value f) as [value|value hint] eqn:Hv; [|keep]. apply gui_keeps_bind; [|intros ?; keep].
  apply keeps_careful; [done..|]. intros ? l Hl. exists d. destruct (Hd l Hl). split; [done|]. split; [done|].
  apply Exists_exists. by exists f.
Qed.
Lemma show_edited_field_keeps can_remove i f e :
  (forall l, F l -> some_secret l) -> gui_keeps K (show_edited_field ask can_remove i f e).
Proof.
  intros Hs. unfold show_edited_field, edit_value. apply gui_keeps_bind; [keep|]. intros name.
  apply gui_keeps_bind; [|intros [value changed]; keep]. destruct (editable_value f); [|keep]. apply gui_keeps_bind; [|intros ?; keep].
  apply keeps_careful; [done..|]. intros ? l Hl _. by apply Hs.
Qed.
End values.

Lemma show_editor_keeps F d dirty :
  lasting F -> (forall l, F l -> unlocked_secret argon2id (draft_id d) l) ->
  gui_keeps (kept WhileActive F) (show_editor ask d dirty).
Proof.
  intros HF Hd. pose proof (lasting_enduring F HF) as HE. unfold show_editor. apply gui_keeps_bind; [keep|]. intros name.
  apply gui_keeps_bind; [apply keeps_fold; intros [i f] e _; apply show_edited_field_keeps; [done|]; intros l Hl; eexists; by apply Hd|].
  intros e. set (d1 := {| draft_id := draft_id d |}).
  assert (Hr : draft_id (match edit_remove e with Some i => remove_editable_field i d1 | None => (false, d1) end).2 = draft_id d).
  { destruct (edit_remove e); [|done]. unfold remove_editable_field. by destruct (_ || _). }
  destruct (match edit_remove e with Some i => remove_editable_field i d1 | None => (false, d1) end) as [removed d2]. cbn in Hr.
  apply gui_keeps_bind; [keep|]. intros add. apply gui_keeps_bind; [|intros _; keep]. apply keeps_modifies. intros s l ([] & Hb & Hact & Hf).
  split_and!; [|intros _ Hl; by destruct Hl; apply Hact|done|done]. constructor; try done. cbn. intros d' [= <-].
  assert (Hid : draft_id (if add then add_text_field d2 else d2) = draft_id d) by by destruct add. rewrite Hid. by apply Hd.
Qed.

(** Deleting the secret leaves the selection as it was, or nothing selected. *)
Lemma selection_call {A} (c : DesktopCall A) : gui_keeps selection_unlocked (call c).
Proof. apply gui_keeps_call. intros s a l Hs id Hid. eapply unlocked_secret_suffix; [apply suffix_event|by apply Hs]. Qed.
Ltac keep_selection :=
  repeat first [keep_step | apply selection_call | apply keeps_modifies; intros ? ? Hs ? Hid; solve [by apply Hs|done]].
Lemma handle_delete_action_selection id a : gui_keeps selection_unlocked (handle_delete_action ask id a).
Proof.
  unfold handle_delete_action, delete_secret, handle_delete_result, handle_sensitive_operation_error, current_phase,
    synchronize_phase, clear_sensitive_state, clear_for_app_lock, clear_agent_grants, clear_sensitive_buffers,
    clear_unlock_fields, drop_touch_id, drop_scan_task, notice_from, set_notice. keep_selection.
Qed.
Lemma handle_delete_action_keeps m F id a : enduring F -> gui_keeps (kept m F) (handle_delete_action ask id a).
Proof. intros HF. unfold handle_delete_action. keep. Qed.
#[local] Hint Resolve handle_delete_action_keeps : desktop.

Section workspace.
Context (F : log -> Prop) (HF : lasting F).
Abbreviation K := (kept Always F).
Let HE : enduring F := lasting_enduring F HF.

(** What is done after the fields were drawn. *)
Lemma finish_workspace_keeps m delete copy (action : option DetailAction) s l :
  K s l -> (copy <> None -> some_secret l) ->
  (action = Some ActShow \/ action = Some ActEdit -> selection_unlocked s l) ->
  gui_wp (copy_requested ask copy;; handle_delete_action ask (meta_id m) delete;;
    match action with Some a => handle_detail_action ask a | None => mret tt end) (fun _ => K) s l.
Proof.
  intros Hk Hc Hu. set (G l := F l /\ (copy <> None -> some_secret l)).
  assert (HG : lasting G).
  { intros l1 l2 Hs [Hf Hc']. split; [by eapply HF|]. intros Hn. destruct (Hc' Hn) as [id Hid]. exists id. by eapply unlocked_secret_suffix. }
  set (U s l := action = Some ActShow \/ action = Some ActEdit -> selection_unlocked s l).
  assert (HU : forall A (p : Desk A), gui_keeps selection_unlocked p -> gui_keeps U p) by (intros A p; apply keeps_when, _).
  assert (Hcopy : gui_keeps selection_unlocked (copy_requested ask copy)).
  { unfold copy_requested. destruct copy; [|apply gui_keeps_ret]. apply gui_keeps_bind; [apply selection_call|].
    intros copied. apply keeps_modifies. by intros s1 l1 Hs1 id Hid; apply Hs1. }
  eapply (gui_wp_keeps_bind (fun s l => kept Always G s l /\ U s l)); [|split; [by apply kept_with|done]|].
  { apply keeps_and; [|by apply HU]. apply copy_requested_keeps; [done|]. by intros Hn l1 [_ Hl]; apply Hl. }
  intros _ s1 l1 [[Hk1 _]%kept_without Hu1].
  eapply (gui_wp_keeps_bind (fun s l => K s l /\ U s l)); [|done|].
  { apply keeps_and; [by apply handle_delete_action_keeps|]. apply HU, handle_delete_action_selection. }
  intros _ s2 l2 [Hk2 Hu2]. destruct action as [a|]; [|done].
  apply handle_detail_action_keeps; [done..|]. intros Ha. apply Hu2. destruct Ha as [->| ->]; auto.
Qed.

Lemma show_primary_actions_locked actions s l :
  gui_wp (show_primary_actions ask actions) (fun r _ _ => match actions with SetUnlock | SetEditing => r = None | _ => True end) s l.
Proof.
  destruct actions; cbn [show_primary_actions]; [|eapply gui_wp_mono; [apply gui_wp_true|done]..|by gui_step].
  apply gui_wp_skip. intros clicked s1 l1. apply gui_wp_skip. intros _ s2 l2. by gui_step.
Qed.
Lemma show_editor_actions d dirty s l :
  gui_wp (show_editor ask d dirty) (fun r _ _ => r.1 <> Some ActShow /\ r.1 <> Some ActEdit) s l.
Proof.
  unfold show_editor. do 2 (apply gui_wp_skip; intros ? ? ?). destruct (match edit_remove _ with Some _ => _ | None => _ end).
  do 4 (apply gui_wp_skip; intros ? ? ?). gui_step. by destruct a3, a4.
Qed.

(** Drawing leaves the view of the secret as it is. *)
Ltac keep_view :=
  repeat first [keep_step | apply gui_keeps_call; intros ? ? ? Hd; exact Hd | apply keeps_modifies; intros ? ? Hd; exact Hd].
Lemma show_primary_actions_view d actions : gui_keeps (fun s _ => detail s = d) (show_primary_actions ask actions).
Proof. unfold show_primary_actions. keep_view. Qed.
Lemma show_delete_actions_view d id : gui_keeps (fun s _ => detail s = d) (show_delete_actions ask id).
Proof. unfold show_delete_actions. keep_view. Qed.

(** What is known of a view that is drawn. *)
Definition view_known (authorized : bool) (d : SecretDetailState) (l : log) : Prop :=
  F l /\ (authorized = true -> forall id, selected d = Some id -> unlocked_secret argon2id id l) /\
  (forall d0, mode_draft (mode d) = Some d0 -> unlocked_secret argon2id (draft_id d0) l) /\
  (forall d0, mode d = Revealed d0 -> some_call (loaded d0) l).
Lemma view_known_lasting authorized d : lasting (view_known authorized d).
Proof.
  intros l l' Hs (Hf & Ha & Hm & Hr). split_and!; [by eapply HF| | |].
  - intros Hauth id Hid. eapply unlocked_secret_suffix; [done|by apply Ha].
  - intros d0 Hd. eapply unlocked_secret_suffix; [done|by apply Hm].
  - intros d0 Hd. eapply some_call_suffix; [done|by apply Hr].
Qed.
Lemma view_is_known (r : LResult Uuid) s l :
  K s l ->
  kept Always (view_known (match r with Ok vault => is_authorized vault (detail s) | Err _ => false end) (detail s)) s l.
Proof.
  intros (Hi & Hb & Hact & Hf). split; [done|]. split; [done|]. split; [done|]. split_and!; [done| |apply Hi|apply Hi].
  destruct r as [vault|e]; [|done]. intros Ha id Hid. unfold is_authorized in Ha. bool_hyps. destruct Ha as [a Ha].
  unfold authorization_for_current_selection in Ha.
  destruct (detail_authorized (detail s)) as [a'|] eqn:Hd; [|done]. cbn in Ha.
  destruct (_ && _) eqn:Hc; [|done]. bool_hyps. injection Ha as ->. exists a. split; [congruence|]. by eapply inv_authorized.
Qed.

(** What the buttons and the fields leave for the rest. *)
Definition drawn_view (authorized : bool) (d : SecretDetailState) (s : LadonDesktop) (l : log) : Prop :=
  kept Always (view_known authorized d) s l /\ detail s = d.
Lemma show_actions_keep (authorized : bool) d m :
  gui_keeps (drawn_view authorized d) (show_primary_actions ask (selected_action_set authorized m)) /\
  forall id, gui_keeps (drawn_view authorized d) (show_delete_actions ask id).
Proof.
  assert (HG : enduring (view_known authorized d)) by apply lasting_enduring, view_known_lasting.
  split; [|intros id]; apply keeps_and; auto using show_primary_actions_view, show_delete_actions_view;
    [unfold show_primary_actions|unfold show_delete_actions]; keep.
Qed.
Lemma mask_fields_keep authorized d m : gui_keeps (drawn_view authorized d) (mask_fields ask m).
Proof.
  assert (HG : enduring (view_known authorized d)) by apply lasting_enduring, view_known_lasting.
  unfold mask_fields. apply keeps_and; [keep|keep_view].
Qed.
Lemma revealed_fields_keep authorized d d0 :
  mode d = Revealed d0 ->
  gui_keeps (drawn_view authorized d) (gui_fold (show_revealed_field ask) (editable_fields d0) None).
Proof.
  intros Hm. apply keeps_and; [|unfold show_revealed_field, copy_value_button; keep_view].
  apply keeps_fold. intros f request Hf. apply (show_revealed_field_keeps _ _ (view_known_lasting _ _) d0); [|done].
  intros l (_ & _ & Hd & Hr). split; [by apply Hr|]. apply Hd. by rewrite Hm.
Qed.

Lemma known_keeps authorized d s l : kept Always (view_known authorized d) s l -> K s l.
Proof. intros (Hi & Hb & Ha & Hf & _). by split_and!. Qed.
Lemma drawn_selection d s l : drawn_view true d s l -> selection_unlocked s l.
Proof. intros [(_ & _ & _ & _ & Hs & _) <-] id Hid. by apply Hs. Qed.
Lemma drawn_secret authorized d d0 s l : mode_draft (mode d) = Some d0 -> kept Always (view_known authorized d) s l -> some_secret l.
Proof. intros Hm (_ & _ & _ & _ & _ & Hd & _). eexists. by apply Hd. Qed.

Lemma finish_drawn_keeps authorized d m delete copy action s l :
  drawn_view authorized d s l -> (copy <> None -> is_Some (mode_draft (mode d))) ->
  (action = Some ActShow \/ action = Some ActEdit -> authorized = true) ->
  gui_wp (copy_requested ask copy;; handle_delete_action ask (meta_id m) delete;;
    match action with Some a => handle_detail_action ask a | None => mret tt end) (fun _ => K) s l.
Proof.
  intros Hv Hc Ha. apply finish_workspace_keeps; [by eapply known_keeps, Hv| |].
  - intros [d0 Hd]%Hc. by eapply drawn_secret, Hv.
  - intros ->%Ha. by eapply drawn_selection.
Qed.
Lemma show_fields_keep authorized d m s l :
  (forall d0 dirty, mode d <> Editing d0 dirty) -> drawn_view authorized d s l ->
  gui_wp (show_selected_fields ask authorized m (mode d)) (fun r s l => drawn_view authorized d s l /\ r.1 = None /\
    (r.2 <> None -> is_Some (mode_draft (mode d)))) s l.
Proof.
  intros Hne Hv. unfold show_selected_fields.
  assert (Hmask : gui_wp (mask_fields ask m;; mret (None, None) : Desk (option DetailAction * option bytes))
    (fun r s l => drawn_view authorized d s l /\ r.1 = None /\ (r.2 <> None -> is_Some (mode_draft (mode d)))) s l).
  { eapply gui_wp_keeps_bind; [apply mask_fields_keep|done|]. intros _ s1 l1 Hv1. by gui_step. }
  destruct authorized; [|done]. destruct (mode d) as [|d0|d0 dirty] eqn:Hm; [done| |by destruct (Hne d0 dirty)].
  eapply gui_wp_keeps_bind; [by apply revealed_fields_keep|done|]. intros copy s1 l1 Hv1. gui_step. by eauto.
Qed.

(** The editor is drawn only while the interface is active. *)
Lemma show_edited_keep authorized d d0 dirty m s l :
  mode d = Editing d0 dirty -> drawn_view authorized d s l ->
  gui_wp (show_selected_fields ask authorized m (Editing d0 dirty)) (fun r s l => kept Always (view_known authorized d) s l /\
    r.1 <> Some ActShow /\ r.1 <> Some ActEdit) s l.
Proof.
  intros Hm [Hk Hd]. unfold show_selected_fields. destruct authorized; cbn [negb].
  - apply gui_wp_and; [|apply show_editor_actions]. apply keeps_while_active; [| |done].
    + apply show_editor_keeps; [apply view_known_lasting|]. intros l1 (_ & _ & Hu & _). apply Hu. by rewrite Hm.
    + destruct Hk as (_ & Hb & _). destruct (decide (desktop_lock s = DesktopActive)) as [Ha|Ha]; [done|].
      destruct (Hb ltac:(done) Ha). congruence.
  - eapply gui_wp_keeps_bind; [eapply mask_fields_keep|by split|]. intros _ s1 l1 [Hk1 _]. by gui_step.
Qed.

Lemma show_selected_workspace_keeps m : gui_keeps K (show_selected_workspace ask m).
Proof.
  intros s l Hk. unfold show_selected_workspace. gui_step. eapply gui_wp_mono; [by eapply vault_session_id_spec|].
  intros r s1 l1 (Hk1%(view_is_known r) & -> & _). gui_step. gui_step. change (id s) with s.
  set (authorized := match r with Ok vault => _ | Err _ => _ end) in *. clearbody authorized. clear r Hk.
  assert (Hv : drawn_view authorized (detail s) s l1) by done. remember (detail s) as d eqn:Hd.
  destruct (show_actions_keep authorized d (mode d)) as [Hp Hq].
  assert (He : (exists d0 dirty, mode d = Editing d0 dirty) \/ (forall d0 dirty, mode d <> Editing d0 dirty)) by (destruct (mode d); eauto).
  destruct He as [(d0 & dirty & Hm)|Hne].
  - rewrite Hm. do 2 (gui_step; gui_step). gui_step. eapply gui_wp_mono; [by apply show_edited_keep|].
    intros [action copy] s2 l2 (Hk2 & Hs & He). cbn in Hs, He.
    replace (match action with Some a => Some a | None => None end) with action by by destruct action.
    apply finish_workspace_keeps; [by eapply known_keeps| |by intros []].
    intros _. eapply drawn_secret, Hk2. by rewrite Hm.
  - assert (Hif : (match mode d with Editing _ _ => true | _ => false end) = false) by (destruct (mode d); naive_solver).
    rewrite Hif. gui_step. eapply gui_wp_mono; [apply gui_wp_and; [by apply Hp|apply show_primary_actions_locked]|].
    intros action s2 l2 [Hv2 Ha]. eapply gui_wp_keeps_bind; [apply Hq|done|]. intros delete s3 l3 Hv3.
    gui_step. eapply gui_wp_mono; [by apply show_fields_keep|]. intros [edit_action copy] s4 l4 (Hv4 & He & Hc). cbn in He, Hc.
    subst edit_action. eapply finish_drawn_keeps; [done..|].
    destruct authorized; [done|]. unfold selected_action_set in Ha. destruct (mode d); [subst; by intros []..|naive_solver].
Qed.

(** **** Prompts *)
Lemma button_keeps text : gui_keeps K (call (Button text)).
Proof. keep. Qed.
Lemma maybe_button_keeps b text : gui_keeps K (only_if b (call (Button text))).
Proof. keep. Qed.
Lemma controls_keep actions : gui_keeps K (secret_confirmation_controls ask actions).
Proof. unfold secret_confirmation_controls. keep. Qed.
Lemma show_secret_confirmation_keeps m s l :
  K s l -> secret_dialog s l -> gui_wp (show_secret_confirmation ask argon2id m) (fun _ => K) s l.
Proof.
  intros Hk Hd. unfold show_secret_confirmation. gui_step.
  eapply gui_wp_mono; [apply gui_wp_and; [by apply (available_actions_keeps ask argon2id Always F HE)|apply available_actions_silent]|].
  intros actions s1 l1 [Hk1 Hs1]. gui_step.
  eapply gui_wp_mono; [apply gui_wp_and; [by apply controls_keep|by eapply secret_controls_picked, silent_secret_dialog]|].
  intros [action cancel] s2 l2 [Hk2 Hp]. cbn [fst] in Hp. gui_step.
  eapply gui_wp_mono; [apply gui_wp_and; [by apply (show_notice_keeps ask argon2id Always F HE)|apply show_notice_silent]|].
  intros _ s3 l3 [Hk3 Hs3]. destruct cancel; [keep_rest|]. destruct action as [method|]; [|done].
  apply authenticate_selected_secret_keeps; [done..|]. eapply silent_secret_picked; [done|by apply Hp].
Qed.
Lemma show_confirmations_keeps : gui_keeps K (show_confirmations ask argon2id).
Proof.
  assert (Hsecret : gui_keeps K (m ← selected_metadata ask;
    match m with
    | Some m => show_secret_confirmation ask argon2id m
    | None => modifies (fun s => s <| unlock_confirmation := false |> <| local_pin := "" |>)
    end)).
  { intros s l Hk. gui_step. eapply gui_wp_mono; [apply gui_wp_and; [by apply selected_metadata_keeps|apply selected_metadata_lists]|].
    intros [m|] s1 l1 (Hk1 & -> & Hl); [|keep_rest]. apply show_secret_confirmation_keeps; [done|]. exact (Hl (mk_is_Some _ _ eq_refl)). }
  unfold show_confirmations. apply gui_keeps_bind; [keep|]. intros s0.
  apply gui_keeps_bind; [destruct (unlock_confirmation s0); [exact Hsecret|keep]|]. intros _ s l Hk. gui_step. gui_step.
  change (id s) with s. destruct (discard_confirmation s) eqn:Hd; [|done].
  apply keeps_while_active; [by apply show_discard_confirmation_keeps| |done].
  destruct (decide (desktop_lock s = DesktopActive)) as [Ha|Ha]; [done|]. destruct Hk as (_ & Hb & _).
  destruct (Hb ltac:(done) Ha). congruence.
Qed.

Lemma app_pin_prompt_keeps s l :
  K s l -> app_dialog l ->
  gui_wp (field ← edit_local_pin ask; clicked ← call (Button "Unlock with PIN");
    if clicked || submitted field then authenticate_app_pin ask argon2id else mret tt) (fun _ => K) s l.
Proof.
  intros Hk Hd. gui_step.
  eapply gui_wp_mono; [apply gui_wp_and; [by apply (edit_local_pin_keeps ask argon2id Always F HE)|by apply app_pin_picked]|].
  intros field s1 l1 (Hk1 & _ & Hb). gui_step.
  eapply gui_wp_mono; [apply gui_wp_and; [by apply (button_keeps "Unlock with PIN")|exact Hb]|].
  intros clicked s2 l2 [Hk2 Hp]. destruct (_ || _); [|done]. by apply authenticate_app_pin_keeps, Hp.
Qed.
Lemma show_app_locked_keeps : gui_keeps K (show_app_locked ask argon2id).
Proof.
  unfold show_app_locked. apply gui_keeps_bind; [keep|]. intros _ s l Hk. gui_step. gui_step.
  assert (Hd : K s (Event TouchAvailable a :: l) /\ app_dialog (Event TouchAvailable a :: l))
    by (split; [by apply kept_event|by apply app_dialog_begins]).
  revert Hd. generalize (Event TouchAvailable a :: l). clear Hk l. intros l Hd. set (J := fun (s : LadonDesktop) l => K s l /\ app_dialog l).
  assert (HJ : forall A (p : Desk A), gui_keeps K p -> (forall l, gui_keeps (fun _ => unmarked l) p) -> gui_keeps J p).
  { intros A p Hp Hu s1 l1 [Hk1 Hd1]. eapply gui_wp_mono; [apply gui_wp_and; [by apply Hp|by apply (Hu l1)]|].
    intros x s2 l2 [Hk2 Hu2]. split; [done|]. by eapply app_dialog_unmarked. }
  do 2 gui_step. eapply (gui_wp_keeps_bind J); [apply HJ; [keep|intros ?; keep_unmarked]|done|]. intros _ s1 l1 [Hk1 Hd1].
  do 2 gui_step. gui_step.
  eapply gui_wp_mono; [apply gui_wp_and; [by apply (maybe_button_keeps _ "Unlock")|by apply app_touch_picked]|]. intros unlock s2 l2 (Hk2 & [-> Hu2] & Ht2).
  gui_step. apply (gui_wp_mono _ (fun _ => J)).
  { destruct unlock; [|split; [done|by eapply app_dialog_unmarked]]. gui_step.
    eapply gui_wp_mono; [apply gui_wp_and; [by apply begin_app_unlock_keeps, Ht2|by apply (proj1 (app_unmarked ask l1))]|].
    intros _ s3 l3 [Hk3 Hu3]. gui_step. split; [done|]. by eapply app_dialog_unmarked. }
  intros _ s3 l3 Hd3. do 2 gui_step.
  eapply (gui_wp_keeps_bind J); [apply HJ; [keep|intros ?; keep_unmarked]|done|]. intros use_pin s4 l4 Hd4.
  eapply (gui_wp_keeps_bind J); [|done|].
  { destruct use_pin; [|apply HJ; [keep|intros ?; keep_unmarked]].
    apply HJ; [by apply use_app_unlock_pin_keeps|intros l5; apply app_unmarked]. }
  intros _ s5 l5 [Hk5 Hd5]. do 2 gui_step. gui_step. apply (gui_wp_mono _ (fun _ => K)).
  { destruct (app_unlock_pin_visible s5); [by apply app_pin_prompt_keeps|done]. }
  intros _ s6 l6 Hk6. keep_rest.
Qed.
Lemma show_lock_overlay_keeps phase : gui_keeps K (show_lock_overlay ask argon2id phase).
Proof. unfold show_lock_overlay. pose proof show_app_locked_keeps. keep. Qed.

(** **** Setting the PIN *)
Definition first_pin (s : LadonDesktop) (l : log) : Prop := some_call (typed_into "PIN (4–12 digits)" (session_pin s)) l.
Definition both_pins (s : LadonDesktop) (l : log) : Prop :=
  first_pin s l /\ some_call (typed_into "Repeat PIN" (session_pin_confirmation s)) l.

Lemma set_session_pin_keeps s l :
  kept WhileActive F s l -> both_pins s l -> gui_wp (set_session_pin ask argon2id) (fun _ => kept WhileActive F) s l.
Proof.
  intros Hk [Hp Hr]. unfold set_session_pin. gui_step. gui_step. change (id s) with s. gui_step.
  apply (gui_wp_mono _ (fun salt s' l' => s' = s /\ kept WhileActive F s l' /\
    forall p, SessionPin_new argon2id salt (session_pin s) (session_pin_confirmation s) = Ok p -> some_call (pin_set argon2id p) l')).
  - destruct (bool_decide (session_pin s = session_pin_confirmation s)) eqn:He; cbn [andb];
      [|gui_step; split; [done|]; split; [done|]].
    + bool_hyps. destruct (valid_pin (session_pin s)) eqn:Hv; gui_step; split; try done;
        [split; [by apply kept_event|]|split; [done|]].
      * intros p Hnew. left. exists (session_pin s). rewrite <- He in Hnew, Hr. by split_and!.
      * intros p Hnew. unfold SessionPin_new in Hnew. by rewrite Hv, orb_true_r in Hnew.
    + intros p Hnew. unfold SessionPin_new in Hnew. by rewrite He in Hnew.
  - intros salt s' l' (-> & Hk1 & Hset). gui_step.
    destruct (SessionPin_new _ _ _ _) as [p|e] eqn:Hnew.
    + gui_step. gui_step. specialize (Hset p eq_refl).
      assert (Hk2 : kept WhileActive F (s <| session_confirmation := Some (with_pin p) |>) l').
      { destruct Hk1 as ([] & Hb & Ha & Hf). split_and!; [|intros _ Hl; by destruct Hl; apply Ha|done|done].
        constructor; try done. cbn. intros c p' [= <-] [= <-]. done. }
      revert Hk2. generalize (s <| session_confirmation := Some (with_pin p) |>). clear -HE. intros s Hk.
      unfold set_notice. do 2 gui_step. solve_kept Hk.
    + unfold notice_from, set_notice. do 2 gui_step. solve_kept Hk1.
Qed.
Lemma touch_only_keeps :
  gui_keeps (kept WhileActive F) (modifies (fun s => s <| session_pin := "" |> <| session_pin_confirmation := "" |>
    <| session_confirmation := Some touch_id_only |>)).
Proof.
  apply keeps_modifies. intros s l ([] & Hb & Ha & Hf). split_and!; [|intros _ Hl; by destruct Hl; apply Ha|done|done].
  constructor; try done. cbn. by intros c p [= <-].
Qed.
Lemma show_session_auth_setup_keeps : gui_keeps (kept WhileActive F) (show_session_auth_setup ask argon2id).
Proof.
  pose proof touch_only_keeps. unfold show_session_auth_setup. apply gui_keeps_bind; [keep|]. intros available.
  apply gui_keeps_bind; [keep|]. intros continue. apply gui_keeps_bind; [keep|]. intros _ s l Hk.
  unfold edit_session_pin, edit_session_pin_confirmation. do 6 gui_step.
  do 7 gui_step. match goal with |- gui_wp _ _ ?s' ?l' => set (s1 := s'); set (l1 := l') end.
  assert (Hk1 : kept WhileActive F s1 l1).
  { assert (Hk1 : kept WhileActive F s l1) by by do 2 (apply kept_event; [done..|]).
    destruct Hk1 as ([] & Hb & Ha & Hf). split_and!; [by constructor|intros _ Hl; by destruct Hl; apply Ha|done|done]. }
  assert (Hp : both_pins s1 l1) by (split; [right; left|left]; done). clearbody s1 l1. gui_step.
  assert (Hk2 : kept WhileActive F s1 (Event (Button "Set PIN and continue") a1 :: l1)) by by apply kept_event.
  gui_step. eapply (gui_wp_mono _ (fun _ => kept WhileActive F)); [|by intros ? ? ? ?; apply show_notice_keeps].
  destruct a1; [|by gui_step]. apply set_session_pin_keeps; [done|]. destruct Hp. split; by apply some_call_event.
Qed.

(** **** Unattended access *)
Lemma consent_kept m G (f : UnattendedConfirmation -> UnattendedConfirmation) :
  (forall c, consent (f c) = consent c) ->
  gui_keeps (kept m G) (modifies (fun s => s <| unattended_confirmation ::= fmap f |>)).
Proof.
  intros Hc. apply keeps_modifies. intros s l ([] & Hb & Ha & Hf). split_and!; [| |done|done].
  - constructor; try done. cbn. intros c Hu. destruct (unattended_confirmation s) as [u|]; [|done].
    injection Hu as <-. rewrite Hc. by apply inv_unattended.
  - intros Hm Hl. destruct (Hb Hm Hl). constructor; try done. cbn. by rewrite blank_unattended.
Qed.
Lemma choose_lifetime_keeps choice : gui_keeps K (choose_lifetime ask choice).
Proof.
  unfold choose_lifetime. apply gui_keeps_bind; [keep|]. intros []; [|keep]. by apply consent_kept.
Qed.
Lemma edit_deadline_keeps : gui_keeps K (edit_deadline ask).
Proof.
  unfold edit_deadline. apply gui_keeps_bind; [keep|]. intros [[x at_time [] time]|]; try apply gui_keeps_ret.
  apply gui_keeps_bind; [keep|]. intros r. by apply consent_kept.
Qed.
Lemma confirm_unattended_keeps actions enabled : gui_keeps K (confirm_unattended ask actions enabled).
Proof. unfold confirm_unattended. keep. Qed.
(** The choices of a lifetime keep the consent that the dialog is about. *)
Definition consent_is (x : UnattendedConsent) (s : LadonDesktop) : Prop :=
  forall c, unattended_confirmation s = Some c -> consent c = x.
Lemma choices_keep_consent x l :
  gui_keeps (fun s l' => consent_is x s /\ unmarked l l') (each (choose_lifetime ask) UNATTENDED_CHOICES;; edit_deadline ask).
Proof.
  assert (Hset : forall f : UnattendedConfirmation -> UnattendedConfirmation, (forall c, consent (f c) = consent c) ->
    gui_keeps (fun s (_ : log) => consent_is x s) (modifies (fun s => s <| unattended_confirmation ::= fmap f |>))).
  { intros f Hf. apply keeps_modifies. intros s l' Hx c. cbn. destruct (unattended_confirmation s) as [u|] eqn:Hu; [|done].
    intros [= <-]. rewrite Hf. by apply Hx. }
  apply keeps_and; [|unfold choose_lifetime, edit_deadline; keep_unmarked].
  unfold choose_lifetime, edit_deadline.
  repeat first [keep_step | apply gui_keeps_call; intros ? ? ? Hx; exact Hx | by apply Hset].
Qed.
Lemma finish_unattended_dialog_keeps action s l :
  K s l -> (forall method, action = Some method -> unattended_picked method s l) ->
  gui_wp (show_notice ask;; cancel ← call (Button "Cancel");
    if (cancel : bool) then
      modifies (fun s => s <| unattended_confirmation := None |>);; drop_touch_id ask;; clear_pin
    else match action with Some method => authenticate_unattended ask argon2id method | None => mret tt end)
    (fun _ => K) s l.
Proof.
  intros Hk Hp. gui_step.
  eapply gui_wp_mono; [apply gui_wp_and; [by apply (show_notice_keeps ask argon2id Always F HE)|apply show_notice_silent]|].
  intros _ s1 l1 [Hk1 Hs1]. gui_step. gui_step. assert (Hk2 : K s1 (Event (Button "Cancel") a :: l1)) by by apply kept_event.
  destruct a; [keep_rest|]. destruct action as [method|]; [|done]. apply authenticate_unattended_keeps; [done..|].
  eapply silent_unattended_picked; [by apply silent_now|]. eapply silent_unattended_picked; [done|by apply Hp].
Qed.
Lemma show_unattended_confirmation_keeps : gui_keeps K (show_unattended_confirmation ask argon2id).
Proof.
  pose proof choose_lifetime_keeps. pose proof edit_deadline_keeps. unfold show_unattended_confirmation.
  intros s l Hk. gui_step. gui_step. destruct (unattended_confirmation s) as [c|] eqn:Hc; [|done].
  eapply (gui_wp_keeps_bind (fun s' l' => K s' l' /\ s' = s)); [apply keeps_and; [keep|unfold available_actions]|done|].
  { repeat first [keep_step | apply gui_keeps_call; intros ? ? ? Hs; exact Hs]. }
  intros actions s0 l0 [Hk0 ->]. do 2 gui_step.
  eapply (kept_shown_then K); [apply shows_label|keep|done|]. intros l1 Hk1 Hu1 Ht1.
  eapply (kept_shown_then K); [apply shows_label|keep|done|]. intros l2 Hk2 Hu2 Ht2.
  eapply (kept_shown_then K); [apply shows_label|keep|done|]. intros l3 Hk3 Hu3 Ht3.
  eapply (kept_shown_then K); [apply (shows_each_label _ (fun m => sanitize_untrusted (meta_name m)))|keep|done|]. intros l4 Hk4 Hu4 Ht4.
  assert (Ht : Forall (drawn l4) (consent_texts (consent c))).
  { repeat (apply Forall_cons; split); [by apply Hu4, Hu3, Hu2, (Forall_inv Ht1)|by apply Hu4, Hu3, (Forall_inv Ht2)|
      by apply Hu4, (Forall_inv Ht3)|done]. }
  eapply (gui_wp_keeps_bind (fun s' l' => K s' l' /\ consent_is (consent c) s' /\ unmarked l4 l')).
  { destruct (bool_decide _); [by intros ? ? ?|]. apply keeps_and; [keep|apply choices_keep_consent]. }
  { split; [done|]. split; [|done]. intros c' Hc'. congruence. }
  intros _ s5 l5 (Hk5 & Hx & Hu5). do 2 gui_step. gui_step.
  eapply gui_wp_mono; [apply gui_wp_and; [|by eapply deadline_begins, unmarked_drawn]|].
  { assert (Hkeep : gui_keeps K (match match unattended_confirmation s5 with Some c => confirmed_deadline c | None => Err InvalidRequest end with
      | Ok t => call (Label (add_text "Expires: " (format_local_time t))) | Err _ => mret tt end)) by keep. by apply Hkeep. }
  intros _ s6 l6 (Hk6 & -> & Hd6). gui_step.
  eapply gui_wp_mono; [apply gui_wp_and; [by apply confirm_unattended_keeps|apply confirm_unattended_picked; [done|]]|].
  { intros He. bool_hyps. destruct (unattended_confirmation s5) as [c'|]; [|done]. destruct (confirmed_deadline c') eqn:Hd; [|done]. eauto. }
  intros action s7 l7 [Hk7 Hp]. by apply finish_unattended_dialog_keeps.
Qed.

(** **** Requests of agents *)
Lemma lasting_and G G' : lasting G -> lasting G' -> lasting (fun l => G l /\ G' l).
Proof. intros Hg Hg' l l' Hs []. split; [by eapply Hg|by eapply Hg']. Qed.
Lemma show_request_keeps p s l :
  K s l -> undisturbed (pending_is p) l -> some_call (shown_pending (approval_id p) (approval_vault p)) l ->
  gui_wp (cancel_stale_approval_touch_id ask (Some (approval_id p, approval_vault p));;
      moved ← focus_approval (Some (approval_id p));
      (if (moved : bool) then focus_window ask else mret tt);;
      actions ← available_actions ask;
      '(action, l, unattended) ← show_approval_window ask p actions;
      if (unattended : bool) then begin_unattended_confirmation ask (approval_client p)
      else match action with
           | Some (ApproveBy method) => authenticate_pending_approval ask argon2id method p l
           | Some DenyRequest => deny_request ask (approval_id p)
           | None => mret tt
           end) (fun _ => K) s l.
Proof.
  intros Hk Hd Hp. set (G l := F l /\ some_call (shown_pending (approval_id p) (approval_vault p)) l).
  assert (HG : lasting G) by (apply lasting_and; [done|intros l1 l2; apply some_call_suffix]).
  pose proof (lasting_enduring G HG) as HGE.
  apply (gui_wp_mono _ (fun _ => kept Always G)); [|by intros _ s' l' [? _]%kept_without].
  set (J := fun s' l' => kept Always G s' l' /\ unmarked l l').
  assert (Hj : J s l) by by split; [apply kept_with|].
  assert (Hkeeps : forall A (m : Desk A), gui_keeps (kept Always G) m -> gui_keeps (fun _ => unmarked l) m -> gui_keeps J m)
    by by intros; apply keeps_and.
  eapply (gui_wp_keeps_bind J); [apply Hkeeps; [keep|]|exact Hj|].
  { unfold cancel_stale_approval_touch_id, drop_touch_id. keep_unmarked. }
  intros _ s1 l1 Hj1. eapply (gui_wp_keeps_bind J); [apply Hkeeps; [keep|]|exact Hj1|].
  { unfold focus_approval. keep_unmarked. }
  intros moved s2 l2 Hj2. eapply (gui_wp_keeps_bind J); [apply Hkeeps; [keep|]|exact Hj2|].
  { unfold focus_window, viewport. keep_unmarked. }
  intros _ s3 l3 Hj3. eapply (gui_wp_keeps_bind J); [apply Hkeeps; [keep|]|exact Hj3|].
  { unfold available_actions. keep_unmarked. }
  intros actions s4 l4 [Hk4 Hu4]. gui_step.
  eapply gui_wp_mono; [apply gui_wp_and; [by apply show_approval_window_keeps|apply show_approval_window_picked; by apply Hu4]|].
  intros [[action lifetime] unattended] s5 l5 [Hk5 Hpick]. cbn in Hpick.
  destruct unattended; [by apply begin_unattended_confirmation_keeps|].
  destruct action as [[method|]|]; [| |done].
  - apply authenticate_pending_approval_keeps; [done..| |by apply Hpick]. apply (proj2 (proj2 (proj2 Hk5))).
  - unfold deny_request. keep_rest.
Qed.
Lemma show_pending_approval_keeps : gui_keeps K (show_pending_approval ask argon2id).
Proof.
  intros s l Hk. unfold show_pending_approval. gui_step. gui_step. destruct (bool_decide _); [done|]. gui_step.
  apply gui_wp_with_broker; [gui_step|].
  - assert (Hk1 : K s (Event BrokerPending a :: l)) by by apply kept_event.
    destruct a as [[p|]|e]; [|keep_rest..]. apply show_request_keeps; [done|by left|]. left. by exists p.
  - keep_rest.
Qed.

(** **** The frame *)
Lemma show_workspace_keeps m : gui_keeps K (show_workspace ask m).
Proof.
  intros s l Hk. unfold show_workspace. gui_step. gui_step.
  assert (Hs : navigation_target (detail s) = NavSessions -> desktop_lock s = DesktopActive).
  { intros Hn. destruct (decide (desktop_lock s = DesktopActive)) as [Ha|Ha]; [done|]. destruct Hk as (_ & Hb & _).
    destruct (Hb ltac:(done) Ha). congruence. }
  gui_step. eapply (gui_wp_mono _ (fun _ => K)).
  - pose proof show_selected_workspace_keeps as Hw.
    destruct (navigation_target (detail s)), m; try (by apply Hw); try (by apply show_add_workspace_keeps).
    all: apply keeps_while_active; [by apply show_agent_access_keeps|by apply Hs|done].
  - intros _ s1 l1 Hk1. keep_rest.
Qed.
Lemma show_manager_header_keeps m : gui_keeps K (show_manager_header ask m).
Proof. unfold show_manager_header. keep. Qed.
Lemma show_unlocked_keeps s l :
  K s l -> desktop_lock s = DesktopActive -> gui_wp (show_unlocked ask argon2id) (fun _ => K) s l.
Proof.
  intros Hk Ha. unfold show_unlocked. pose proof show_manager_header_keeps. pose proof show_workspace_keeps.
  pose proof show_lock_overlay_keeps. pose proof show_confirmations_keeps. gui_step.
  eapply (gui_wp_mono _ (fun _ => K)); [apply keeps_while_active; [by apply show_secret_rail_keeps|done..]|].
  intros _ s1 l1 Hk1. keep_rest.
Qed.
Lemma show_unlocked_phase_keeps : gui_keeps K (show_unlocked_phase ask argon2id).
Proof.
  intros s l Hk. unfold show_unlocked_phase. gui_step. gui_step. change (id s) with s.
  pose proof show_app_locked_keeps. pose proof show_pending_approval_keeps. pose proof show_unattended_confirmation_keeps.
  destruct (desktop_lock s) eqn:Hl; [|keep_rest..]. destruct (session_confirmation s) as [c|].
  - gui_step. eapply (gui_wp_mono _ (fun _ => K)); [by apply show_unlocked_keeps|]. intros drawn s1 l1 Hk1. keep_rest.
  - apply keeps_while_active; [apply show_session_auth_setup_keeps|done..].
Qed.

Lemma tray_action_keeps a : gui_keeps K (tray_action ask a).
Proof. unfold tray_action. keep. Qed.
Lemma process_tray_keeps : gui_keeps K (process_tray ask).
Proof. unfold process_tray. pose proof tray_action_keeps. keep. Qed.
Lemma begin_frame_keeps : gui_keeps K (begin_frame ask).
Proof.
  unfold begin_frame. pose proof process_tray_keeps.
  keep.
Qed.
Lemma process_close_request_always phase : gui_keeps K (process_close_request ask phase).
Proof.
  intros s l Hk. destruct (manager_rendering_allowed phase (desktop_lock s)) eqn:Hm.
  - unfold manager_rendering_allowed in Hm. bool_hyps. by apply keeps_while_active; [apply process_close_request_keeps| |].
  - unfold process_close_request. do 3 gui_step. change (id s) with s. rewrite Hm, andb_false_r. cbn [only_if]. by do 2 gui_step.
Qed.
Lemma draw_frame_keeps phase : gui_keeps K (draw_frame ask argon2id phase).
Proof.
  unfold draw_frame. pose proof process_close_request_always. pose proof show_unlocked_phase_keeps. keep.
Qed.
Lemma update_keeps : gui_keeps K (update ask argon2id).
Proof. apply gui_keeps_bind; [apply begin_frame_keeps|]. intros phase. apply draw_frame_keeps. Qed.
Lemma on_exit_keeps : gui_keeps K (on_exit ask).
Proof. unfold on_exit. keep. Qed.
Lemma frames_keeps n : gui_keeps K (frames ask argon2id n).
Proof. induction n; [apply gui_keeps_ret|]. apply gui_keeps_bind; [apply update_keeps|done]. Qed.
End workspace.

Lemma new_is_kept phase tray : kept Always (fun _ => True) (desktop_new phase tray) [].
Proof. split_and!; [by constructor|by intros _ []|done|done]. Qed.
Lemma frames_are_kept phase tray n :
  gui_wp (frames ask argon2id n) (fun _ => kept Always (fun _ => True)) (desktop_new phase tray) [].
Proof. apply frames_keeps; [|apply new_is_kept]. by intros l l'. Qed.

End operations.

(** C13. Whatever the broker, the controller, Touch ID, the clock and the user answer, in
    any number of frames and when the program ends, the window is careful with what it asks.
    The broker is asked to approve a request for thirty minutes, until the end of the day
    that the clock just showed, or until the session ends, only after the user confirmed
    this request of this vault with this lifetime and after the request and the vault
    session were read again; an unattended grant only after its consent and its deadline were
    confirmed, and an unlock of the interface only for the lock that the broker finished.
    The user confirms by clicking the button for Touch ID in the dialog that shows exactly
    that, to which Touch ID then answers the one attempt that was started for it, or by
    typing there the PIN that was set and clicking its button (or, for the interface,
    pressing Enter); a confirmation is used once.  A secret is loaded, updated, shown or
    copied only after its selection was confirmed in this way. *)
Theorem desktop_is_careful ask argon2id `{LocalTime, TextCrates} phase tray n :
  gui_wp (frames ask argon2id n;; on_exit ask) (fun _ _ l => every_call (careful argon2id) l) (desktop_new phase tray) [].
Proof.
  gui_step. eapply gui_wp_mono; [apply frames_are_kept|]. intros ? s l Hk.
  eapply gui_wp_mono; [by eapply on_exit_keeps, Hk|]. by intros _ s' l' [[] _].
Qed.
