(* ===== verification/DesktopLocks.v ===== *)
(** * DesktopLocks: what a locked interface holds, shows and refuses

    Locking clears the window in any state, and nothing brings the cleared fields back
    before the interface is active again; nothing of the manager is drawn in a frame
    that is not unlocked; and an interface that was locked before the session's
    confirmation was set up stays locked until the vault itself locks. *)

From coqutil Require Import Datatypes.RecordSettersUsingExistingGetters.
From S2P Require Import Prelude Errors Time Utf8 Text Model Vault Paths Calls Grants Approval UnlockRequests Editor SessionAuth.
From S2P Require Import Controller BrokerHandle Detection Scan Lifetime Gui Desktop DesktopViews DesktopInvariant DesktopDialogs.
From S2P Require Import DesktopProperties.
Local Open Scope Z_scope.

Create HintDb hidden.

Section operations.
Context (ask : forall A, DesktopCall A -> log -> A).
Context (argon2id : Z -> Z -> Z -> Z -> bytes -> bytes -> option bytes).
Context `{LocalTime, TextCrates}.
Abbreviation call := (gui_call ask).

(** ** Locking and leaving *)

(** A call that was made since the log was [l]. *)
Definition asked_since {A} (c : DesktopCall A) (l l' : log) : Prop := exists a l1, l `suffix_of` l1 /\ Event c a :: l1 `suffix_of` l'.
Definition vault_lock_asked (s : LadonDesktop) (l l' : log) : Prop :=
  if has_broker s then asked_since BrokerLockVault l l' else asked_since ControllerLock l l'.

Lemma asked_since_now {A} (c : DesktopCall A) a l : asked_since c l (Event c a :: l).
Proof. by exists a, l. Qed.
Lemma asked_since_suffix {A} (c : DesktopCall A) l l' l'' : l' `suffix_of` l'' -> asked_since c l l' -> asked_since c l l''.
Proof. intros Hs (a & l1 & Hl & Hl'). exists a, l1. split; [done|by trans l']. Qed.
Lemma asked_since_event {A B} (c : DesktopCall A) (c' : DesktopCall B) a l l' :
  asked_since c (Event c' a :: l) l' -> asked_since c l l'.
Proof. intros (x & l1 & Hl & Hl'). exists x, l1. split; [|done]. trans (Event c' a :: l); [apply suffix_event|done]. Qed.

(** Every program only adds to the log, and none loses its broker. *)
Definition after (s : LadonDesktop) (l : log) (s' : LadonDesktop) (l' : log) : Prop :=
  l `suffix_of` l' /\ has_broker s' = has_broker s.
Lemma after_now s l : after s l s l.
Proof. by split; [exists []|]. Qed.
Lemma after_call {A} (c : DesktopCall A) s l : gui_keeps (after s l) (call c).
Proof. apply gui_keeps_call. intros s1 a l1 [Hs Hb]. split; [|done]. trans l1; [exact Hs|apply suffix_event]. Qed.
Ltac keep_after := repeat first [assumption | keep_step | apply after_call | apply keeps_modifies; intros ? ? Hs; exact Hs].
Lemma clear_sensitive_state_after s l : gui_keeps (after s l) (clear_sensitive_state ask).
Proof.
  unfold clear_sensitive_state, clear_for_app_lock, clear_agent_grants, clear_sensitive_buffers, clear_unlock_fields,
    drop_touch_id, drop_scan_task. keep_after.
Qed.
Lemma process_external_lock_after s l : gui_keeps (after s l) (process_external_lock ask).
Proof. pose proof (clear_sensitive_state_after s l). unfold process_external_lock, notice_from, set_notice. keep_after. Qed.

(** A complete lock: everything is cleared and the vault was asked to lock. *)
Definition locked_completely (s : LadonDesktop) (l : log) (s' : LadonDesktop) (l' : log) : Prop :=
  cleared s' /\ session_confirmation s' = None /\ vault_lock_asked s l l'.
Definition locked_interface (s' : LadonDesktop) : Prop := cleared s' /\ desktop_lock s' <> DesktopActive.

Lemma lock_vault_spec s l : gui_wp (lock_vault ask) (fun _ s' l' => s' = s /\ vault_lock_asked s l l') s l.
Proof.
  unfold lock_vault, vault_lock_asked. gui_step. gui_step.
  destruct (has_broker s); gui_step; (split; [done|apply asked_since_now]).
Qed.
Lemma clear_after_lock s l s1 l1 :
  vault_lock_asked s l l1 ->
  gui_wp (clear_sensitive_state ask) (fun _ s' l' => locked_completely s l s' l') s1 l1.
Proof.
  intros Ha. eapply gui_wp_mono; [apply gui_wp_and; [apply clear_sensitive_state_spec|apply clear_sensitive_state_after, after_now]|].
  intros _ s2 l2 [(Hc & _ & Hn) [Hs _]]. split; [done|]. split; [done|]. unfold vault_lock_asked in *.
  destruct (has_broker s); by eapply asked_since_suffix.
Qed.
Lemma cleared_notice n s : cleared s -> cleared (s <| notice := n |>).
Proof. intros [[]]. by constructor; [constructor|..]. Qed.
Lemma lock_immediately_spec s l : gui_wp (lock_immediately ask) (fun _ s' l' => locked_completely s l s' l') s l.
Proof.
  unfold lock_immediately. gui_step. eapply gui_wp_mono; [apply lock_vault_spec|]. intros r s1 l1 [-> Ha].
  unfold finish_immediate_lock. gui_step. eapply gui_wp_mono; [by apply clear_after_lock|].
  intros _ s2 l2 (Hc & Hn & Hl). destruct r; unfold notice_from, set_notice; gui_step.
  all: by split; [apply cleared_notice|].
Qed.

Lemma locked_completely_later s l l1 s1 s' l' :
  after s l s1 l1 -> locked_completely s1 l1 s' l' -> locked_completely s l s' l'.
Proof.
  intros [Hs Hb] (Hc & Hn & Ha). split; [done|]. split; [done|]. unfold vault_lock_asked in *. rewrite Hb in Ha.
  destruct (has_broker s); destruct Ha as (a & l2 & Hl & Hl'); exists a, l2; (split; [by trans l1|done]).
Qed.
Lemma begin_interface_lock_spec available automatic s l :
  gui_wp (begin_interface_lock ask available automatic)
    (fun _ s' l' => locked_interface s' \/ locked_completely s l s' l') s l.
Proof.
  assert (Hnow : forall s1 l1, after s l s1 l1 ->
    gui_wp (lock_immediately ask) (fun _ s' l' => locked_interface s' \/ locked_completely s l s' l') s1 l1).
  { intros s1 l1 Hs. eapply gui_wp_mono; [apply lock_immediately_spec|]. intros ? s2 l2 Hl. right.
    by eapply locked_completely_later. }
  unfold begin_interface_lock, with_broker. gui_step. gui_step. destruct (negb _); [by apply Hnow, after_now|]. gui_step. gui_step. gui_step.
  destruct (has_broker s) eqn:Hb; gui_step; [|by apply Hnow, after_now].
  destruct a as [epoch|e]; [|apply Hnow; by split; [apply suffix_event|]]. gui_step. gui_step.
  eapply gui_wp_mono; [apply clear_for_app_lock_spec|]. intros _ s1 l1 (Hc & Hl & _). left. split; [done|]. by rewrite Hl.
Qed.
(** "Lock app" clears everything in any state, and leaves either an interface that
    is locked (or being locked) or a vault that the broker (the controller, when there
    is no broker) was asked to lock since, with no session confirmation left. *)
Lemma lock_app_spec s l :
  gui_wp (lock_app ask) (fun _ s' l' => locked_interface s' \/ locked_completely s l s' l') s l.
Proof.
  unfold lock_app, lock_app_with_touch_id_availability. gui_step. gui_step. gui_step. gui_step.
  assert (Hs1 : after s l s (Event TouchAvailable a :: l)) by (split; [apply suffix_event|done]).
  destruct (bool_decide (desktop_lock s = DesktopActive)) eqn:Ha.
  - eapply gui_wp_mono; [apply begin_interface_lock_spec|]. intros _ s' l' [Hi|Hc]; [by left|right]. by eapply locked_completely_later.
  - bool_hyps. unfold with_broker. gui_step. gui_step. gui_step.
    apply (gui_wp_mono _ (fun _ s' l' => s' = s /\ after s l s' l')).
    { destruct (has_broker s); gui_step; (split; [done|]); [|done]. destruct Hs1. split; [|done]. by apply suffix_cons_r. }
    intros r s2 l2 [-> Hs2]. destruct (is_ok r).
    + eapply gui_wp_mono; [apply clear_for_app_lock_spec|]. intros _ s3 l3 (Hc & Hl & _). left. split; [done|congruence].
    + eapply gui_wp_mono; [apply lock_immediately_spec|]. intros ? s3 l3 Hc. right. by eapply locked_completely_later.
Qed.

(** *** What was cleared stays so *)

(** Fields that only the manager fills. *)
Record hidden (s : LadonDesktop) : Prop := {
  hidden_delete : pending_delete s = None;
  hidden_focus : focused_approval s = None;
  hidden_draft : draft s = draft_new;
  hidden_error : add_form_error s = None;
  hidden_prompt : unlock_confirmation s = false;
}.
Definition stays_hidden (s s' : LadonDesktop) : Prop := hidden s -> hidden s'.
Definition hidden_in (s : LadonDesktop) (_ : log) : Prop := hidden s.

Lemma hidden_call {A} (c : DesktopCall A) : gui_keeps hidden_in (call c).
Proof. by apply gui_keeps_call. Qed.
Lemma keeps_stays_hidden {A} (m : Desk A) s l : gui_keeps hidden_in m -> gui_wp m (fun _ s' _ => stays_hidden s s') s l.
Proof.
  intros Hm. specialize (Hm s l). unfold gui_wp, stays_hidden in *. destruct (m s l) as [[a s'] l']. exact Hm.
Qed.
Ltac keep_hidden :=
  repeat first [solve [auto 1 with hidden nocore] | keep_step | apply hidden_call
    | apply keeps_modifies; intros ? ? []; constructor; solve [assumption|reflexivity]].
Lemma clear_sensitive_state_hidden : gui_keeps hidden_in (clear_sensitive_state ask).
Proof.
  unfold clear_sensitive_state, clear_for_app_lock, clear_agent_grants, clear_sensitive_buffers, clear_unlock_fields,
    drop_touch_id, drop_scan_task. keep_hidden.
Qed.
Lemma clear_for_app_lock_hidden : gui_keeps hidden_in (clear_for_app_lock ask).
Proof.
  unfold clear_for_app_lock, clear_agent_grants, clear_sensitive_buffers, clear_unlock_fields, drop_touch_id, drop_scan_task.
  keep_hidden.
Qed.
Lemma drop_touch_id_hidden : gui_keeps hidden_in (drop_touch_id ask).
Proof. unfold drop_touch_id. keep_hidden. Qed.
Hint Resolve clear_sensitive_state_hidden clear_for_app_lock_hidden drop_touch_id_hidden : hidden.
Lemma lock_immediately_hidden : gui_keeps hidden_in (lock_immediately ask).
Proof. unfold lock_immediately, lock_vault, finish_immediate_lock, notice_from, set_notice. keep_hidden. Qed.
Lemma synchronize_phase_hidden phase : gui_keeps hidden_in (synchronize_phase ask phase).
Proof. unfold synchronize_phase. keep_hidden. Qed.
Lemma refresh_agent_grants_hidden : gui_keeps hidden_in (refresh_agent_grants ask).
Proof. unfold refresh_agent_grants, vault_session_id, clear_agent_grants, notice_from, set_notice. keep_hidden. Qed.
Hint Resolve lock_immediately_hidden synchronize_phase_hidden refresh_agent_grants_hidden : hidden.
Lemma begin_interface_lock_hidden available automatic : gui_keeps hidden_in (begin_interface_lock ask available automatic).
Proof. unfold begin_interface_lock. keep_hidden. Qed.
Hint Resolve begin_interface_lock_hidden : hidden.
Lemma process_tray_hidden : gui_keeps hidden_in (process_tray ask).
Proof.
  unfold process_tray, tray_action, lock_app, lock_app_with_touch_id_availability, focus_window, viewport. keep_hidden.
Qed.
Lemma reject_stale_hidden : gui_keeps hidden_in (reject_stale_app_unlock ask) /\ gui_keeps hidden_in (reject_stale_authentication ask).
Proof. split; unfold reject_stale_app_unlock, reject_stale_authentication, current_phase, clear_pin, set_notice; keep_hidden. Qed.
Lemma process_touch_id_result_hidden : gui_keeps hidden_in (process_touch_id_result ask).
Proof.
  destruct reject_stale_hidden.
  unfold process_touch_id_result, finish_touch_id, finish_authenticated_unattended, finish_app_unlock_touch_id, finish_app_unlock,
    app_unlock_context_matches, current_app_unlock_context, finish_selected_touch_id, accept_secret, vault_session_id,
    finish_authenticated_approval, vault_session_id, approve_request, record_touch_success, clear_pin, notice_from, set_notice.
  keep_hidden.
Qed.
Hint Resolve process_tray_hidden process_touch_id_result_hidden : hidden.
Lemma begin_frame_hidden : gui_keeps hidden_in (begin_frame ask).
Proof.
  unfold begin_frame, process_external_lock, handle_idle_timeout, finish_auto_lock, process_app_lock_result, finish_app_lock_result,
    clear_sensitive_buffers, drop_scan_task, clear_unlock_fields, notice_from, set_notice. keep_hidden.
Qed.
End operations.

(** When the program ends, in any state, the vault was asked to lock and everything
    was cleared. *)
Theorem exit_locks ask s l : gui_wp (on_exit ask) (fun _ s' l' => locked_completely s l s' l') s l.
Proof.
  unfold on_exit. apply (gui_wp_keeps_bind (after s l)).
  - apply process_external_lock_after.
  - apply after_now.
  - intros _ s1 l1 Hs. gui_step. eapply gui_wp_mono; [apply lock_vault_spec|]. intros r s2 l2 [-> Ha].
    eapply gui_wp_mono; [by apply clear_after_lock|]. intros ? s3 l3. by apply locked_completely_later.
Qed.

(** ** What is drawn while the manager is not *)

(** Calls of the manager and of its dialogs: they show or change what is in the vault. *)
Definition manager_call {A} (c : DesktopCall A) : bool :=
  match c with
  | ControllerSecrets | ControllerLoad _ | ControllerAdd _ | BrokerPending | BrokerSnapshot _ | BrokerUpdate _ | BrokerDelete _
  | BrokerAnnotate _ _ _ _ | BrokerApproveFor _ _ | BrokerApproveUntil _ _ | BrokerApproveSession _ | BrokerGrantUnattended _ _
  | BrokerDeny _ | ReadOnlyValue _ | ValueField _ _ | CopyText _ | Row _ _ => true
  | _ => false
  end.
(** The calls that were made since the log was [l], each with the log before it. *)
Inductive extends (P : call_property) (l : log) : log -> Prop :=
| extends_now : extends P l l
| extends_event A (c : DesktopCall A) a l' : extends P l l' -> P A c a l' -> extends P l (Event c a :: l').

(** The call just before. *)
Definition just_clicked (text : string) (l : log) : Prop :=
  match l with
  | Event c a :: _ => match c in DesktopCall A return A -> Prop with Button b => fun r => b = text /\ r = true | _ => fun _ => False end a
  | [] => False
  end.
Definition just_read (phase : VaultUiPhase) (l : log) : Prop :=
  match l with
  | Event c a :: _ => match c in DesktopCall A return A -> Prop with ControllerPhase => fun r => r = Ok phase | _ => fun _ => False end a
  | [] => False
  end.

(** What may be asked while the manager is not drawn. *)
Definition locked_call (lock : DesktopLockState) (c : option SessionConfirmation) : call_property := fun A d _ l =>
  manager_call d = false /\
  match d with
  | BrokerResolveUnlock _ true => lock = DesktopActive /\ is_Some c /\ just_read PhaseUnlocked l
  | BrokerResolveUnlock _ false => just_clicked "Deny request" l
  | _ => True
  end.
Definition plain_call {A} (c : DesktopCall A) : bool :=
  negb (manager_call c) && match c with BrokerResolveUnlock _ _ => false | _ => true end.
Lemma plain_locked lock c {A} (d : DesktopCall A) a l : plain_call d = true -> locked_call lock c A d a l.
Proof. intros Hd. unfold plain_call in Hd. bool_hyps. split; [done|]. by destruct d. Qed.

Section quiet.
Context (ask : forall A, DesktopCall A -> log -> A).
Context (argon2id : Z -> Z -> Z -> Z -> bytes -> bytes -> option bytes).
Context `{LocalTime, TextCrates}.
Context (l : log) (lock : DesktopLockState) (c : option SessionConfirmation).

Definition quiet (_ : LadonDesktop) (l' : log) : Prop := extends (locked_call lock c) l l'.
Definition still (s : LadonDesktop) (_ : log) : Prop := desktop_lock s = lock /\ session_confirmation s = c.

Lemma quiet_call {A} (d : DesktopCall A) : plain_call d = true -> gui_keeps quiet (gui_call ask d).
Proof. intros Hd. apply gui_keeps_call. intros s a l1 Hq. constructor; [done|]. by apply plain_locked. Qed.
Lemma still_call {A} (d : DesktopCall A) : gui_keeps still (gui_call ask d).
Proof. by apply gui_keeps_call. Qed.
Ltac keep_quiet :=
  repeat first [keep_step | apply quiet_call; reflexivity | apply still_call
    | apply keeps_modifies; let Hm := fresh in intros ? ? Hm; exact Hm].
Ltac unfold_locks :=
  unfold lock_immediately, lock_vault, finish_immediate_lock, clear_sensitive_state, clear_for_app_lock, clear_agent_grants,
    clear_sensitive_buffers, drop_scan_task, drop_touch_id, clear_unlock_fields, clear_pin, notice_from, set_notice.
Ltac unfold_views :=
  unfold synchronize_window_size, viewport, process_close_request, show_exposure_scan, start_exposure_scan, show_scan_report,
    show_unlock_request, focus_window, deny_unlock, current_phase, show_first_run, show_locked, show_recovery, show_notice,
    edit_passphrase, edit_confirmation, show_session_auth_setup, edit_session_pin, edit_session_pin_confirmation, set_session_pin,
    show_notice.

Lemma show_app_locked_quiet : gui_keeps quiet (show_app_locked ask argon2id).
Proof.
  unfold show_app_locked, begin_app_unlock, begin_app_unlock_with, use_app_unlock_pin, authenticate_app_pin,
    authenticate_app_pin_for_context, app_unlock_context_matches, current_app_unlock_context, reject_stale_app_unlock,
    verify_local_pin, wait_for_touch, touch_start, edit_local_pin, show_notice.
  unfold_locks. unfold after_pin, finish_app_unlock, app_unlock_context_matches, current_app_unlock_context,
    reject_stale_app_unlock, lock_immediately. unfold_locks. keep_quiet.
Qed.

(** The request of an agent to unlock is shown and can be denied; it is allowed only
    when everything is unlocked. *)
Lemma resolve_quiet (id : Uuid) (allow : bool) s l1 :
  quiet s l1 -> (if allow then lock = DesktopActive /\ is_Some c /\ just_read PhaseUnlocked l1 else just_clicked "Deny request" l1) ->
  gui_wp (with_broker (gui_call ask (BrokerResolveUnlock id allow))) (fun _ => quiet) s l1.
Proof.
  intros Hq Ha. apply gui_wp_with_broker; [|done]. gui_step. constructor; [done|]. split; [done|]. by destruct allow.
Qed.
Definition both (s : LadonDesktop) (l' : log) : Prop := quiet s l' /\ still s l'.
Lemma show_unlock_request_quiet : gui_keeps both (show_unlock_request ask).
Proof.
  assert (Hkeep : forall A (m : Desk A), gui_keeps quiet m -> gui_keeps still m -> gui_keeps both m) by (intros; by apply keeps_and).
  unfold show_unlock_request. apply gui_keeps_bind; [apply Hkeep; keep_quiet|]. intros [[p|]|e]; try by apply Hkeep; keep_quiet.
  apply gui_keeps_bind; [apply Hkeep; keep_quiet|]. intros focused.
  apply gui_keeps_bind; [apply Hkeep; unfold viewport, focus_window, viewport; keep_quiet|]. intros _ s l1 [Hq Hs]. gui_step. gui_step. change (id s) with s.
  pose proof Hs as [Hl Hc]. rewrite Hl, Hc. gui_step.
  apply (gui_wp_mono _ (fun phase s' l' => s' = s /\ quiet s l' /\
    (phase = PhaseUnlocked -> lock = DesktopActive /\ is_Some c /\ just_read PhaseUnlocked l'))).
  { destruct (bool_decide (lock = DesktopActive)) eqn:Ha; cbn [andb]; [|by gui_step].
    destruct (bool_decide (is_Some c)) eqn:Hsome; [|by gui_step]. bool_hyps. unfold current_phase. gui_step. do 2 gui_step.
    split; [done|]. split; [by constructor|]. intros Hp. destruct a as [phase|]; [|done]. by subst. }
  intros phase s2 l2 (-> & Hq2 & Hp). destruct (bool_decide (phase = PhaseUnlocked)) eqn:Hphase.
  - bool_hyps. gui_step. eapply gui_wp_mono; [apply gui_wp_and; [by apply resolve_quiet, Hp|]|].
    { assert (Hk : gui_keeps still (with_broker (gui_call ask (BrokerResolveUnlock (unlock_id p) true)))) by keep_quiet. by apply Hk. }
    intros ? s3 l3 Hb. by gui_step.
  - do 3 gui_step. do 3 gui_step. assert (Hq3 : quiet s (Event (Button "Deny request") a1 :: Event (Label (unlock_purpose p)) a0 ::
      Event (Label (add_text "Reported client: " (sanitize_untrusted (unlock_label p)))) a :: l2)) by by repeat (constructor; [|done]).
    destruct a1; [|done]. unfold deny_unlock. gui_step. eapply gui_wp_mono; [apply gui_wp_and; [by apply resolve_quiet|]|].
    { assert (Hk : gui_keeps still (with_broker (gui_call ask (BrokerResolveUnlock (unlock_id p) false)))) by keep_quiet. by apply Hk. }
    intros ? s3 l3 Hb. assert (Hrest : gui_keeps both (modifies (fun s => s <| local_pin := "" |> <| passphrase := "" |>);; drop_touch_id ask))
      by (apply Hkeep; unfold drop_touch_id; keep_quiet). by apply Hrest.
Qed.

(** What is drawn in every frame, before the view of the phase. *)
Lemma every_frame_quiet phase active :
  gui_keeps both (synchronize_window_size ask active) /\ gui_keeps both (process_close_request ask phase) /\
  gui_keeps both (show_exposure_scan ask) /\ gui_keeps both (show_unlock_request ask).
Proof. split_and!; [..|apply show_unlock_request_quiet]; apply keeps_and; unfold_views; unfold_locks; keep_quiet. Qed.
Lemma other_phases_quiet :
  gui_keeps quiet (show_first_run ask) /\ gui_keeps quiet (show_locked ask) /\ gui_keeps quiet (show_recovery ask) /\
  gui_keeps quiet (show_session_auth_setup ask argon2id).
Proof. split_and!; unfold_views; unfold_locks; keep_quiet. Qed.
End quiet.

(** C15. The manager and its dialogs are drawn only in an unlocked frame: unless the phase
    of the frame is Unlocked, the interface is active and the session's confirmation
    was set up, drawing the frame makes no call that lists, loads, shows, copies, adds,
    changes or deletes secrets, nor one that shows, approves or denies an agent's
    request for secrets, whatever the user does.  The request of an agent to unlock
    Ladon is shown then too; it is denied only right after "Deny request" was clicked,
    and allowed only when the interface is active, the session's confirmation was set
    up and the phase, read again just before, is Unlocked. *)
Theorem manager_is_drawn_only_unlocked ask argon2id `{LocalTime, TextCrates} phase s l :
  (phase = PhaseUnlocked /\ desktop_lock s = DesktopActive /\ is_Some (session_confirmation s)) \/
  gui_wp (draw_frame ask argon2id phase)
    (fun _ _ l' => extends (locked_call (desktop_lock s) (session_confirmation s)) l l') s l.
Proof.
  assert (Hd : (phase = PhaseUnlocked /\ desktop_lock s = DesktopActive /\ is_Some (session_confirmation s)) \/
    (phase <> PhaseUnlocked \/ desktop_lock s <> DesktopActive \/ session_confirmation s = None)).
  { destruct phase; try (right; left; congruence). destruct (desktop_lock s); try (right; right; left; congruence).
    destruct (session_confirmation s); [by left; eauto|by right; right; right]. }
  destruct Hd as [Hd|Hd]; [by left|right]. unfold draw_frame. gui_step. gui_step. change (id s) with s.
  destruct (other_phases_quiet ask argon2id l (desktop_lock s) (session_confirmation s)) as (Hfirst & Hlocked & Hrecovery & Hsetup).
  pose proof (every_frame_quiet ask l (desktop_lock s) (session_confirmation s) phase
    (manager_rendering_allowed phase (desktop_lock s) && bool_decide (is_Some (session_confirmation s)))) as (Hw & Hc & He & Hu).
  assert (Hs : both l (desktop_lock s) (session_confirmation s) s l) by by split; [constructor|].
  eapply gui_wp_keeps_bind; [exact Hw|exact Hs|intros _ s1 l1 Hs1]. eapply gui_wp_keeps_bind; [exact Hc|done|intros _ s2 l2 Hs2].
  eapply gui_wp_keeps_bind; [exact He|done|intros _ s3 l3 Hs3]. eapply gui_wp_keeps_bind; [exact Hu|done|].
  intros _ s4 l4 [Hq [Hl Hn]]. destruct phase; [by apply Hfirst|by apply Hlocked|by apply Hrecovery|].
  unfold show_unlocked_phase. gui_step. gui_step. change (id s4) with s4. rewrite Hl, Hn.
  destruct (desktop_lock s); [|by gui_step|by apply show_app_locked_quiet].
  destruct (session_confirmation s); [|by apply Hsetup]. by destruct Hd as [Hd|[Hd|Hd]].
Qed.

(** ** What a locked interface holds *)
Section locked_frame.
Context (ask : forall A, DesktopCall A -> log -> A).
Context (argon2id : Z -> Z -> Z -> Z -> bytes -> bytes -> option bytes).
Context `{LocalTime, TextCrates}.

Ltac keep_hidden :=
  repeat first [solve [auto 1 with hidden nocore] | keep_step | apply hidden_call
    | apply keeps_modifies; let Hm := fresh in intros ? ? Hm; destruct Hm; constructor; solve [assumption|reflexivity]].
Hint Resolve clear_sensitive_state_hidden clear_for_app_lock_hidden drop_touch_id_hidden lock_immediately_hidden : hidden.
Lemma every_frame_hidden phase active :
  gui_keeps hidden_in (synchronize_window_size ask active) /\ gui_keeps hidden_in (process_close_request ask phase) /\
  gui_keeps hidden_in (show_exposure_scan ask) /\ gui_keeps hidden_in (show_unlock_request ask).
Proof.
  split_and!; unfold synchronize_window_size, viewport, process_close_request, show_exposure_scan, start_exposure_scan,
    show_scan_report, drop_scan_task, show_unlock_request, focus_window, viewport, deny_unlock, current_phase; keep_hidden.
Qed.
Lemma other_phases_hidden :
  gui_keeps hidden_in (show_first_run ask) /\ gui_keeps hidden_in (show_locked ask) /\ gui_keeps hidden_in (show_recovery ask).
Proof.
  split_and!; unfold show_first_run, show_locked, show_recovery, show_notice, edit_passphrase, edit_confirmation,
    clear_unlock_fields, notice_from, set_notice; keep_hidden.
Qed.
Lemma show_app_locked_hidden : gui_keeps hidden_in (show_app_locked ask argon2id).
Proof.
  destruct (reject_stale_hidden ask).
  unfold show_app_locked, begin_app_unlock, begin_app_unlock_with, use_app_unlock_pin, authenticate_app_pin,
    authenticate_app_pin_for_context, after_pin, finish_app_unlock, app_unlock_context_matches, current_app_unlock_context,
    verify_local_pin, wait_for_touch, touch_start, edit_local_pin, show_notice, clear_pin, notice_from, set_notice.
  keep_hidden.
Qed.

(** Drawing a frame that began with the interface locked. *)
Lemma draw_locked_hidden phase s l :
  desktop_lock s <> DesktopActive -> gui_wp (draw_frame ask argon2id phase) (fun _ s' _ => stays_hidden s s') s l.
Proof.
  intros Hlock. destruct other_phases_hidden as (Hfirst & Hlocked & Hrecovery). unfold draw_frame. gui_step. gui_step. change (id s) with s.
  set (active := manager_rendering_allowed phase (desktop_lock s) && bool_decide (is_Some (session_confirmation s))).
  destruct (every_frame_hidden phase active) as (Hw & Hc & He & Hu).
  destruct (every_frame_quiet ask l (desktop_lock s) (session_confirmation s) phase active) as (Bw & Bc & Be & Bu).
  set (I := fun s' l' => stays_hidden s s' /\ both l (desktop_lock s) (session_confirmation s) s' l').
  assert (HI : forall (m : Desk unit), gui_keeps hidden_in m -> gui_keeps (both l (desktop_lock s) (session_confirmation s)) m -> gui_keeps I m).
  { intros m Hh Hb s1 l1 [Hs1 Hb1]. eapply gui_wp_mono; [apply gui_wp_and; [by apply (keeps_stays_hidden m s1 l1)|by apply Hb]|].
    intros _ s2 l2 [Hs2 Hb2]. split; [|done]. intros Hh1. by apply Hs2, Hs1. }
  assert (Hs : I s l) by (split; [by intros ?|by split; [constructor|]]).
  eapply (gui_wp_keeps_bind I); [by apply HI|exact Hs|intros _ s1 l1 Hs1].
  eapply (gui_wp_keeps_bind I); [by apply HI|exact Hs1|intros _ s2 l2 Hs2].
  eapply (gui_wp_keeps_bind I); [by apply HI|exact Hs2|intros _ s3 l3 Hs3].
  eapply (gui_wp_keeps_bind I); [by apply HI|exact Hs3|intros _ s4 l4 (Hh & _ & Hl & _)].
  assert (Hlast : forall m : Desk unit, gui_keeps hidden_in m -> gui_wp m (fun _ s' _ => stays_hidden s s') s4 l4).
  { intros m Hm. eapply gui_wp_mono; [by apply (keeps_stays_hidden m s4 l4)|]. intros ? s5 l5 Hs5 Hh0. exact (Hs5 (Hh Hh0)). }
  destruct phase; [by apply Hlast..|]. unfold show_unlocked_phase. gui_step. gui_step. change (id s4) with s4. rewrite Hl.
  destruct (desktop_lock s); [done|by gui_step|]. apply Hlast, show_app_locked_hidden.
Qed.
End locked_frame.

(** C14. A locked interface holds nothing of the vault.  After any number of frames, a
    window whose interface is not active has no grants, sessions or session notes, no
    secret in view, selected or confirmed, no consent, no typed session PIN and no
    question about changes; and it counts as locked only after the broker finished the lock
    of the same epoch.  Locking the interface, by "Lock app" or by the idle timeout, and
    a complete lock leave in any state, besides, no typed PIN or passphrase, no
    attempt of Touch ID, no new secret or message about its form, no deletion, no
    request in focus, no prompt and no scan; and beginning a frame, and drawing a frame
    that began with the interface locked, leave no deletion, request in focus, new secret,
    message about its form or prompt where there was none. *)
Theorem locked_interface_is_blank argon2id `{LocalTime, TextCrates} ask :
  (forall phase tray n, gui_wp (frames ask argon2id n)
    (fun _ s l => match desktop_lock s with
                  | DesktopActive => True
                  | DesktopLocking _ => blank s
                  | DesktopLocked epoch => blank s /\ some_call (lock_finished epoch) l
                  end) (desktop_new phase tray) []) /\
  (forall s l, gui_wp (lock_app ask) (fun _ s' _ => cleared s') s l /\ gui_wp (lock_immediately ask) (fun _ s' _ => cleared s') s l /\
    forall available automatic, gui_wp (begin_interface_lock ask available automatic) (fun _ s' _ => cleared s') s l) /\
  forall s l, gui_wp (begin_frame ask) (fun _ s' _ => stays_hidden s s') s l /\
    forall phase, desktop_lock s = DesktopActive \/ gui_wp (draw_frame ask argon2id phase) (fun _ s' _ => stays_hidden s s') s l.
Proof.
  split; [|split].
  - intros phase tray n. eapply gui_wp_mono; [apply frames_are_kept|]. intros _ s l (Hi & Hb & _). specialize (Hb ltac:(done)).
    destruct (desktop_lock s) as [|epoch|epoch] eqn:Hl; [done|by apply Hb|]. split; [by apply Hb|]. by eapply inv_locked.
  - intros s l. split; [|split; [|intros available automatic]]; (eapply gui_wp_mono; [
      first [apply lock_app_spec|apply lock_immediately_spec|apply begin_interface_lock_spec]|]); intros ? s' l'.
    + by intros [[]|[]].
    + by intros [].
    + by intros [[]|[]].
  - intros s l. split; [by apply keeps_stays_hidden, begin_frame_hidden|]. intros phase.
    destruct (decide (desktop_lock s = DesktopActive)); [by left|right]. by apply draw_locked_hidden.
Qed.

(** ** A lock before the session's confirmation was set up *)

(** The user chooses "Lock app" in the tray while the vault is locked. *)
Definition early_lock_answers (A : Type) (c : DesktopCall A) (_ : log) : A :=
  match c in DesktopCall A return A with
  | TrayEvents => [TrayLockApp]
  | TouchAvailable => true
  | BrokerBeginLock _ => Ok 1
  | AppLockResult _ => Some (Ok tt)
  | ControllerPhase => Ok PhaseLocked
  | BrokerExternalLock => Ok None
  | ControllerAdd d => (Err Busy, d)
  | ControllerSession | ControllerRemaining | ControllerSecrets | ControllerCanContinue | ControllerCreate _ _
  | ControllerUnlock _ | ControllerRestore | ControllerContinue | ControllerLoad _ | ControllerActivity | ControllerLock
  | ControllerAutoLock | BrokerGrants | BrokerSessions | BrokerRunActive | BrokerRevokeGrant _ _ | BrokerRevokeGrants
  | BrokerRevokeSession _ | BrokerAnnotate _ _ _ _ | BrokerSnapshot _ | BrokerGrantUnattended _ _ | BrokerUpdate _
  | BrokerDelete _ | BrokerLockVault | BrokerUnlockApp _ | BrokerAutoLock | BrokerPendingUnlock | BrokerResolveUnlock _ _
  | BrokerAcknowledge _ | BrokerExternalInProgress | BrokerPending | BrokerConnected _ | BrokerApproveFor _ _
  | BrokerApproveUntil _ _ | BrokerApproveSession _ | BrokerDeny _ | TouchSpawn _ => Err Busy
  | ControllerContext | TouchResult _ | ScanSpawn _ _ | ScanResult _ | DrawSalt | EnvVar _ | StoredLifetime _ => None
  | CopyText _ | CloseRequested | Button _ | Row _ _ | Opened _ => false
  | PasswordField _ v | ValueField _ v | TextField _ v => {| typed := v; submitted := false; changed := false |}
  | SystemNow => 0
  | TouchCancel _ | ScanCancel _ | Viewport _ | FocusApplication | Label _ | ReadOnlyValue _ | StoreLifetime _ _ => tt
  end.

(** The vault is locked, or was found to be. *)
Definition vault_locks : call_property := fun A c a _ =>
  match c in DesktopCall A return A -> Prop with
  | BrokerLockVault | ControllerLock => fun _ => True
  | BrokerExternalLock => fun r => exists request, r = Ok (Some request)
  | BrokerAutoLock | ControllerAutoLock => fun r => r = Ok true
  | ControllerPhase => fun r => r <> Ok PhaseUnlocked
  | _ => fun _ => False
  end a.
Definition vault_locked_since (l l' : log) : Prop :=
  exists A (c : DesktopCall A) a l1, l `suffix_of` l1 /\ Event c a :: l1 `suffix_of` l' /\ vault_locks A c a l1.
Definition unlocks_app {A} (c : DesktopCall A) : bool := match c with BrokerUnlockApp _ => true | _ => false end.
Definition no_unlock : log -> log -> Prop := extends (fun A c _ _ => unlocks_app c = false).
Definition locked_early (s : LadonDesktop) : Prop := desktop_lock s <> DesktopActive /\ session_confirmation s = None.

Section early.
Context (ask : forall A, DesktopCall A -> log -> A).
Context (argon2id : Z -> Z -> Z -> Z -> bytes -> bytes -> option bytes).
Context `{LocalTime, TextCrates}.
Abbreviation call := (gui_call ask).

(** Every one of the next [n] frames, until one in which the vault was locked and the
    interface cleared with it. *)
Fixpoint stays_locked (n : nat) (s : LadonDesktop) (l : log) : Prop :=
  match n with
  | O => True
  | S n => gui_wp (update ask argon2id) (fun _ s' l' => no_unlock l l' /\
      (locked_early s' /\ stays_locked n s' l' \/ desktop_lock s' = DesktopActive /\ vault_locked_since l l')) s l
  end.

Section frame.
Context (l0 : log).
Definition early (s : LadonDesktop) (l : log) : Prop :=
  session_confirmation s = None /\ no_unlock l0 l /\ (desktop_lock s = DesktopActive -> vault_locked_since l0 l).
Definition over (_ : LadonDesktop) (l : log) : Prop := no_unlock l0 l /\ vault_locked_since l0 l.

Lemma no_unlock_suffix l : no_unlock l0 l -> l0 `suffix_of` l.
Proof. induction 1 as [|A c a l' _ [k ->] _]; [done|]. by exists (Event c a :: k). Qed.
Lemma locked_since_event {A} (c : DesktopCall A) a l : vault_locked_since l0 l -> vault_locked_since l0 (Event c a :: l).
Proof. intros (B & d & b & l1 & H1 & H2 & H3). exists B, d, b, l1. split_and!; [done|by apply suffix_cons_r|done]. Qed.
Lemma locked_since_now {A} (c : DesktopCall A) a l : no_unlock l0 l -> vault_locks A c a l -> vault_locked_since l0 (Event c a :: l).
Proof. intros Hn Hv. exists A, c, a, l. split_and!; [by apply no_unlock_suffix|done|done]. Qed.
Lemma early_event {A} (c : DesktopCall A) a s l : unlocks_app c = false -> early s l -> early s (Event c a :: l).
Proof. intros Hc (Hn & Hu & Hl). split_and!; [done|by constructor|]. intros Ha. by apply locked_since_event, Hl. Qed.
Lemma early_call {A} (c : DesktopCall A) : unlocks_app c = false -> gui_keeps early (call c).
Proof. intros Hc. apply gui_keeps_call. intros s a l. by apply early_event. Qed.
Lemma over_call {A} (c : DesktopCall A) : unlocks_app c = false -> gui_keeps over (call c).
Proof. intros Hc. apply gui_keeps_call. intros s a l [Hn Hl]. split; [by constructor|by apply locked_since_event]. Qed.
Create HintDb early.
Ltac keep_early :=
  repeat first [solve [auto 1 with early nocore] | keep_step | apply early_call; reflexivity
    | apply keeps_modifies; let H1 := fresh in let H2 := fresh in let H3 := fresh in
      intros ? ? (H1 & H2 & H3); split; [cbn; try rewrite H1; reflexivity|split; [exact H2|cbn; solve [exact H3|discriminate]]]].
Ltac keep_over := repeat first [keep_step | apply over_call; reflexivity | apply keeps_modifies; let Hm := fresh in intros ? ? Hm; exact Hm].

(** What clears everything is run after the vault was locked. *)
Lemma clear_sensitive_state_early s l : over s l -> gui_wp (clear_sensitive_state ask) (fun _ s' l' => early s' l' /\ over s' l') s l.
Proof.
  intros Ho. assert (Hk : gui_keeps over (clear_sensitive_state ask)).
  { unfold clear_sensitive_state, clear_for_app_lock, clear_agent_grants, clear_sensitive_buffers, clear_unlock_fields,
      drop_touch_id, drop_scan_task. keep_over. }
  eapply gui_wp_mono; [apply gui_wp_and; [by apply clear_sensitive_state_spec|by apply Hk]|].
  intros _ s' l' [(_ & _ & Hc) [Hn Hl]]. by split_and!.
Qed.
Lemma drop_touch_id_early : gui_keeps early (drop_touch_id ask).
Proof. unfold drop_touch_id. keep_early. Qed.
Lemma clear_sensitive_buffers_early : gui_keeps early (clear_sensitive_buffers ask).
Proof. unfold clear_sensitive_buffers, clear_unlock_fields, drop_touch_id, drop_scan_task. keep_early. Qed.
Hint Resolve drop_touch_id_early clear_sensitive_buffers_early : early.
Lemma clear_for_app_lock_early : gui_keeps early (clear_for_app_lock ask).
Proof. unfold clear_for_app_lock, clear_agent_grants. keep_early. Qed.
Hint Resolve clear_for_app_lock_early : early.
Lemma lock_immediately_early : gui_keeps early (lock_immediately ask).
Proof.
  intros s l (Hn & Hu & _). unfold lock_immediately, lock_vault. do 3 gui_step.
  apply (gui_wp_mono _ (fun _ => over)).
  { destruct (has_broker s); gui_step; (split; [by constructor|by apply locked_since_now]). }
  intros r s1 l1 Ho. unfold finish_immediate_lock. gui_step. eapply gui_wp_mono; [by apply clear_sensitive_state_early|].
  intros _ s2 l2 [He _]. assert (Hrest : gui_keeps early (match r with
    | Ok _ => modifies (fun s => s <| notice := None |>) | Err e => notice_from (Err e) "" end)).
  { unfold notice_from, set_notice. keep_early. }
  by apply Hrest.
Qed.
Hint Resolve lock_immediately_early : early.
Lemma synchronize_phase_early phase s l :
  early s l -> (phase <> PhaseUnlocked -> vault_locked_since l0 l) -> gui_wp (synchronize_phase ask phase) (fun _ => early) s l.
Proof.
  intros He Hp. unfold synchronize_phase. gui_step. gui_step. gui_step.
  apply (gui_wp_mono _ (fun _ => early)); [|intros _ s1 l1 Hk; gui_step; exact Hk].
  destruct (bool_decide (last_phase s = PhaseUnlocked) && _) eqn:Hc; [|done]. bool_hyps.
  assert (Ho : over s l) by (split; [apply He|by apply Hp]).
  eapply (gui_wp_mono _ (fun _ s' l' => early s' l' /\ over s' l')); [|by intros ? ? ? []].
  gui_step. gui_step. gui_step. apply (gui_wp_mono _ (fun _ => over)); [|intros _ s1 l1 Ho1; by apply clear_sensitive_state_early].
  assert (Hk : gui_keeps over (if has_broker s then
    r ← call BrokerExternalInProgress;
    (if match r with Ok in_progress => in_progress | Err _ => true end then mret tt else call BrokerRevokeGrants;; mret tt)
    else mret tt)) by keep_over. by apply Hk.
Qed.
Lemma reject_stale_early :
  gui_keeps early (reject_stale_app_unlock ask) /\ gui_keeps early (reject_stale_authentication ask).
Proof.
  split; [unfold reject_stale_app_unlock, clear_pin, set_notice; keep_early|].
  unfold reject_stale_authentication. apply gui_keeps_bind; [keep_early|]. intros _ s l He.
  unfold current_phase. do 3 gui_step. gui_step. gui_step. eapply gui_wp_mono.
  - apply synchronize_phase_early; [by apply early_event|]. intros Hp. apply locked_since_now; [apply He|]. by intros ->.
  - intros ? s1 l1 He1. assert (Hrest : gui_keeps early (modifies (fun s => s <| unlock_confirmation := false |> <| local_pin := "" |>);;
      set_notice (danger_notice "Authentication expired because the selected context changed"))) by (unfold set_notice; keep_early).
    by apply Hrest.
Qed.
Lemma record_touch_success_early : gui_keeps early record_touch_success.
Proof. apply keeps_modifies. intros s l (Hn & Hu & Hl). split_and!; [by cbn; rewrite Hn|done|done]. Qed.
(** Without a confirmation, Touch ID's success and the PIN are refused. *)
Lemma finish_app_unlock_touch_id_early vault epoch : gui_keeps early (finish_app_unlock_touch_id ask vault epoch).
Proof.
  intros s l He. unfold finish_app_unlock_touch_id. eapply (gui_wp_keeps_bind early); [unfold clear_pin; keep_early|done|].
  intros _ s1 l1 He1. eapply (gui_wp_keeps_bind early); [|done|].
  { unfold app_unlock_context_matches, current_app_unlock_context. keep_early. }
  intros matches s2 l2 He2. do 2 gui_step. pose proof He2 as [-> _]. destruct matches; by apply reject_stale_early.
Qed.
Lemma verify_local_pin_early s l : early s l -> gui_wp (verify_local_pin argon2id) (fun r s' l' => early s' l' /\ is_ok r = false) s l.
Proof. intros (Hn & Hu & Hl). unfold verify_local_pin. do 4 gui_step. rewrite Hn. by do 3 gui_step. Qed.
Lemma refused_pin_early r accepted s l : early s l -> is_ok r = false -> gui_wp (after_pin ask r accepted) (fun _ => early) s l.
Proof.
  intros He Hr. destruct r as [|e]; [done|]. cbn [after_pin]. unfold notice_from, set_notice.
  assert (Hrest : gui_keeps early (modifies (fun s => s <| notice := Some (notice_of (Err e) "") |>))) by keep_early. by apply Hrest.
Qed.
Lemma authenticate_app_pin_early : gui_keeps early (authenticate_app_pin ask argon2id).
Proof.
  destruct reject_stale_early as [Hrej _]. unfold authenticate_app_pin, authenticate_app_pin_for_context.
  apply gui_keeps_bind; [unfold current_app_unlock_context; keep_early|]. intros [[vault epoch]|]; [|exact Hrej].
  apply gui_keeps_bind; [unfold app_unlock_context_matches, current_app_unlock_context; keep_early|]. intros []; [|exact Hrej].
  apply gui_keeps_bind; [keep_early|]. intros _ s l He. gui_step. eapply gui_wp_mono; [by apply verify_local_pin_early|].
  intros r s1 l1 [He1 Hr]. by apply refused_pin_early.
Qed.
Hint Resolve record_touch_success_early finish_app_unlock_touch_id_early authenticate_app_pin_early : early.

Lemma process_touch_id_result_early : gui_keeps early (process_touch_id_result ask).
Proof.
  destruct reject_stale_early as [_ Hrej].
  unfold process_touch_id_result, finish_touch_id, finish_authenticated_unattended, finish_selected_touch_id, accept_secret,
    finish_authenticated_approval, vault_session_id, approve_request, refresh_agent_grants, vault_session_id, clear_agent_grants,
    clear_pin, notice_from, set_notice. keep_early.
Qed.
Lemma handle_idle_timeout_early : gui_keeps early (handle_idle_timeout ask).
Proof.
  intros s l He. pose proof He as (Hn & Hu & _). unfold handle_idle_timeout. gui_step. gui_step. change (id s) with s. rewrite Hn. cbn. gui_step.
  apply (gui_wp_mono _ (fun r s' l' => early s' l' /\ (r = Ok true -> over s' l'))).
  - destruct (has_broker s); gui_step; (split; [by apply early_event|]); intros ->; (split; [by constructor|by apply locked_since_now]).
  - intros r s1 l1 [He1 Ho]. unfold finish_auto_lock. destruct r as [[]|e]; [|done..]. gui_step.
    eapply gui_wp_mono; [by apply clear_sensitive_state_early, Ho|]. intros _ s2 l2 [He2 _].
    assert (Hrest : gui_keeps early (set_notice (plain_notice "Vault locked after 30 minutes without secret activity")))
      by (unfold set_notice; keep_early). by apply Hrest.
Qed.
Lemma process_external_lock_early : gui_keeps early (process_external_lock ask).
Proof.
  intros s l He. unfold process_external_lock. gui_step.
  apply (gui_wp_mono _ (fun r s' l' => early s' l' /\ (forall n, r = Ok (Some n) -> over s' l'))).
  - apply gui_wp_with_broker; [|done]. gui_step. split; [by apply early_event|]. intros n ->.
    destruct He as (_ & Hu & _). split; [by constructor|]. apply locked_since_now; [done|]. by exists n.
  - intros r s1 l1 [He1 Ho]. destruct r as [[n|]|e]; [|done|].
    + gui_step. eapply gui_wp_mono; [by apply clear_sensitive_state_early, (Ho n)|]. intros _ s2 l2 [He2 _].
      assert (Hrest : gui_keeps early (modifies (fun s => s <| last_phase := PhaseLocked |>);;
        r ← with_broker (call (BrokerAcknowledge n)); match r with Ok _ => mret tt | Err e => notice_from (Err e) "" end))
        by (unfold notice_from, set_notice; keep_early). by apply Hrest.
    + assert (Hrest : gui_keeps early (notice_from (Err e) "")) by (unfold notice_from, set_notice; keep_early). by apply Hrest.
Qed.
Hint Resolve process_touch_id_result_early handle_idle_timeout_early process_external_lock_early : early.
Lemma begin_frame_early : gui_keeps early (begin_frame ask).
Proof.
  intros s l He. unfold begin_frame.
  eapply (gui_wp_keeps_bind early); [|exact He|].
  { unfold process_tray, tray_action, lock_app, lock_app_with_touch_id_availability, begin_interface_lock, focus_window, viewport. keep_early. }
  intros _ s1 l1 He1. eapply (gui_wp_keeps_bind early); [keep_early|exact He1|]. intros _ s2 l2 He2.
  eapply (gui_wp_keeps_bind early); [keep_early|exact He2|]. intros remaining s3 l3 He3.
  eapply (gui_wp_keeps_bind early); [keep_early|exact He3|]. intros _ s4 l4 He4.
  eapply (gui_wp_keeps_bind early); [unfold process_app_lock_result, finish_app_lock_result; keep_early|exact He4|]. intros _ s5 l5 He5.
  eapply (gui_wp_keeps_bind early); [keep_early|exact He5|]. intros _ s6 l6 He6. do 2 gui_step. gui_step.
  apply (gui_wp_mono _ (fun _ => early)).
  - destruct a as [phase|e].
    + apply synchronize_phase_early; [by apply early_event|]. intros Hp. apply locked_since_now; [apply He6|]. by intros [= ->].
    + assert (Hrest : gui_keeps early (clear_sensitive_buffers ask;; modifies (fun s => s <| session_confirmation := None |>))) by keep_early.
      apply Hrest. by apply early_event.
  - intros _ s7 l7 He7. revert s7 l7 He7. match goal with |- forall s l, _ -> gui_wp ?m _ _ _ => change (gui_keeps early m) end.
    unfold refresh_agent_grants, vault_session_id, clear_agent_grants, notice_from, set_notice. keep_early.
Qed.
(** *** Drawing *)
Lemma every_view_early phase active :
  gui_keeps early (synchronize_window_size ask active) /\ gui_keeps early (process_close_request ask phase) /\
  gui_keeps early (show_exposure_scan ask) /\ gui_keeps early (show_unlock_request ask).
Proof.
  split_and!; unfold synchronize_window_size, viewport, process_close_request, show_exposure_scan, start_exposure_scan,
    show_scan_report, drop_scan_task, show_unlock_request, focus_window, viewport, deny_unlock, current_phase; keep_early.
Qed.
Lemma other_phases_early :
  gui_keeps early (show_first_run ask) /\ gui_keeps early (show_locked ask) /\ gui_keeps early (show_recovery ask).
Proof.
  split_and!; unfold show_first_run, show_locked, show_recovery, show_notice, edit_passphrase, edit_confirmation,
    clear_unlock_fields, notice_from, set_notice; keep_early.
Qed.
Lemma show_app_locked_early : gui_keeps early (show_app_locked ask argon2id).
Proof.
  destruct reject_stale_early.
  unfold show_app_locked, begin_app_unlock, begin_app_unlock_with, use_app_unlock_pin, current_app_unlock_context,
    wait_for_touch, touch_start, edit_local_pin, show_notice, clear_pin, notice_from, set_notice. keep_early.
Qed.
(** The setup of the confirmation is drawn only while the interface is active. *)
Definition reopened (s : LadonDesktop) (l : log) : Prop := desktop_lock s = DesktopActive /\ over s l.
Lemma show_session_auth_setup_reopened : gui_keeps reopened (show_session_auth_setup ask argon2id).
Proof.
  unfold show_session_auth_setup, edit_session_pin, edit_session_pin_confirmation, set_session_pin, show_notice, notice_from, set_notice.
  repeat first [keep_step | apply gui_keeps_call; intros ? ? ? [Hm1 Hm2]; split; [exact Hm1|];
      destruct Hm2; split; [constructor; [assumption|reflexivity]|by apply locked_since_event]
    | apply keeps_modifies; let Hm := fresh in intros ? ? Hm; exact Hm].
Qed.
Lemma draw_frame_early phase s l :
  early s l -> gui_wp (draw_frame ask argon2id phase) (fun _ s' l' => early s' l' \/ reopened s' l') s l.
Proof.
  intros He. destruct other_phases_early as (Hfirst & Hlocked & Hrecovery). unfold draw_frame. gui_step. gui_step. change (id s) with s.
  destruct (every_view_early phase (manager_rendering_allowed phase (desktop_lock s) && bool_decide (is_Some (session_confirmation s))))
    as (Hw & Hc & Hx & Hu).
  eapply (gui_wp_keeps_bind early); [exact Hw|exact He|intros _ s1 l1 He1].
  eapply (gui_wp_keeps_bind early); [exact Hc|exact He1|intros _ s2 l2 He2].
  eapply (gui_wp_keeps_bind early); [exact Hx|exact He2|intros _ s3 l3 He3].
  eapply (gui_wp_keeps_bind early); [exact Hu|exact He3|intros _ s4 l4 He4].
  assert (Hleft : forall m : Desk unit, gui_keeps early m -> gui_wp m (fun _ s' l' => early s' l' \/ reopened s' l') s4 l4).
  { intros m Hm. eapply gui_wp_mono; [by apply Hm|]. by left. }
  destruct phase; [by apply Hleft..|]. unfold show_unlocked_phase. gui_step. gui_step. change (id s4) with s4.
  pose proof He4 as (Hn & Hnu & Hl). rewrite Hn.
  destruct (desktop_lock s4) eqn:Hlock; [|by apply Hleft, gui_keeps_ret|by apply Hleft, show_app_locked_early].
  eapply gui_wp_mono; [apply show_session_auth_setup_reopened; split; [done|split; [done|by apply Hl]]|]. by right.
Qed.
End frame.

Lemma frame_stays s l :
  locked_early s -> gui_wp (update ask argon2id) (fun _ s' l' => no_unlock l l' /\
    (locked_early s' \/ desktop_lock s' = DesktopActive /\ vault_locked_since l l')) s l.
Proof.
  intros [Hl Hc]. unfold update. gui_step. eapply gui_wp_mono; [apply (begin_frame_early l)|].
  { split; [done|]. split; [constructor|done]. }
  intros phase s1 l1 He1. eapply gui_wp_mono; [by apply (draw_frame_early l)|].
  intros _ s2 l2 [(Hn & Hu & Hv)|(Ha & Hu & Hv)]; (split; [done|]); [|by right].
  destruct (decide (desktop_lock s2 = DesktopActive)) as [Hd|Hd]; [right; auto|by left].
Qed.
Lemma frames_stay n s l : locked_early s -> stays_locked n s l.
Proof.
  revert s l. induction n as [|n IH]; intros s l Hs; [done|]. cbn [stays_locked].
  eapply gui_wp_mono; [by apply frame_stays|]. intros _ s' l' [Hu [Hs'|Hs']]; (split; [done|]); [left; auto|by right].
Qed.
End early.

(** C39. An interface that was locked before the session's confirmation was set up, which
    "Lock app" in the tray does at any time, stays locked: whatever the user, Touch ID,
    the broker and the controller answer, in any number of frames, the broker is not
    asked to unlock the interface and no confirmation is set up, until a frame that ends
    with the interface active because it was cleared with the vault, which was asked to
    lock, locked by itself or from outside, or no longer read as unlocked in that frame;
    and each success of Touch ID for the interface is refused as stale. *)
Theorem early_lock_refuses_touch_id argon2id `{LocalTime, TextCrates} :
  gui_wp (frames early_lock_answers argon2id 1)
    (fun _ s _ => desktop_lock s = DesktopLocked 1 /\ session_confirmation s = None) (desktop_new PhaseLocked true) [] /\
  forall ask s l,
    desktop_lock s = DesktopActive \/ is_Some (session_confirmation s) \/
    (forall n, stays_locked ask argon2id n s l) /\
    (forall vault epoch, gui_wp (finish_app_unlock_touch_id ask vault epoch)
        (fun _ s' l' => desktop_lock s' = desktop_lock s /\ session_confirmation s' = None /\
          notice s' = Some (danger_notice "Authentication expired because the app lock context changed")) s l).
Proof.
  split; [by vm_compute|].
  intros ask s l. destruct (decide (desktop_lock s = DesktopActive)) as [Ha|Ha]; [by left|right].
  destruct (session_confirmation s) as [c|] eqn:Hc; [left; by eexists|right].
  split; [intros n; by apply frames_stay|]. intros vault epoch.
  unfold finish_app_unlock_touch_id, clear_pin, app_unlock_context_matches, current_app_unlock_context,
    reject_stale_app_unlock, drop_touch_id, clear_pin, set_notice.
  repeat first [gui_step | match goal with |- gui_wp (match ?x with _ => _ end) _ _ _ => destruct x eqn:? end].
  all: first [by split_and! | cbn in *; congruence].
Qed.
