(* ===== verification/BrokerShutdown.v ===== *)
(** * BrokerShutdown: the start and the end of the broker

    [LocalBrokerHandle::start_inner], the accept loop of its thread, the [Drop] of
    the handle and the requests that the handle forwards to one coordinator, all of
    [crates/ladon-app/src/agent_broker.rs]. *)

From S2P Require Import Prelude Errors Time Utf8 Text Model Cbor CborReference Codec Crypto Vault Store Redact Json.
From S2P Require Import Protocol Runner Paths Calls Os ProcessTree RunFiles Supervisor Grants Approval.
From S2P Require Import ApprovalInvariant Runs UnlockRequests UiLocks Editor Controller Workers.
From S2P Require Import AgentBroker BrokerThreads BrokerHandle Endpoint.
Local Open Scope Z_scope.

(** ** The accept loop

    What the thread asks of the flag, of the threads of the connections and of the
    server, whose [TryAccept] is [Endpoint.try_accept].  [SpawnServe] is
    [thread::spawn], which panics when there is no thread: its answer is [None].
    [JoinWorker] is [JoinHandle::join], which returns when the thread has ended, with its
    service and its session: [None] is a join that never returns. *)
Inductive accept_call : Type -> Type :=
| StopRequested : accept_call bool
| IsFinished (worker : Z) : accept_call bool
| JoinWorker (worker : Z) : accept_call (option unit)
| TryAccept : accept_call (LResult (option Socket))
| SpawnServe (connection : Socket) : accept_call (option Z)
| DropConnection (connection : Socket) : accept_call unit
| AcceptSleep : accept_call unit
| CancelActiveRun : accept_call unit
| DropServer : accept_call unit.
Abbreviation accept_log := (list (call_event accept_call)) (only parsing).

Definition MAX_CONNECTION_WORKERS : nat := Z.to_nat (MAX_TRACKED_SESSIONS + 8).

(** [Vec::swap_remove]: the last element takes the place of the removed one. *)
Definition swap_remove {A} (index : nat) (l : list A) : list A :=
  match l !! (length l - 1)%nat with
  | Some x => take (length l - 1) (<[index := x]> l)
  | None => l
  end.

Section accept.
Context (ask : forall A, accept_call A -> accept_log -> A).
Abbreviation Accept := (Asks accept_call) (only parsing).
Abbreviation perform := (perform ask) (only parsing).

(** The threads that have ended are joined; [fuel] bounds the rounds. *)
Fixpoint reap (fuel index : nat) (workers : list Z) : Accept (list Z) :=
  match workers !! index with
  | None => mret workers
  | Some worker =>
    match fuel with
    | O => out_of_fuel
    | S fuel =>
      finished ← perform (IsFinished worker);
      if (finished : bool) then blocking ask (JoinWorker worker);; reap fuel index (swap_remove index workers)
      else reap fuel (S index) workers
    end
  end.
Definition accept_one (workers : list Z) : Accept (list Z) :=
  answer ← perform TryAccept;
  match answer with
  | Ok (Some connection) =>
    if (length workers <? MAX_CONNECTION_WORKERS)%nat then
      spawned ← perform (SpawnServe connection);
      match spawned with
      | Some worker => mret (workers ++ [worker])
      | None => os_err ProcessFailure
      end
    else perform AcceptSleep;; perform (DropConnection connection);; mret workers
  | Ok None | Err _ => perform AcceptSleep;; mret workers
  end.
Fixpoint accept_loop (fuel : nat) (workers : list Z) : Accept (list Z) :=
  match fuel with
  | O => out_of_fuel
  | S fuel =>
    stop ← perform StopRequested;
    if (stop : bool) then mret workers
    else
      workers ← reap (length workers) 0 workers;
      workers ← accept_one workers;
      accept_loop fuel workers
  end.
Fixpoint join_all (workers : list Z) : Accept unit :=
  match workers with
  | [] => mret tt
  | worker :: workers => blocking ask (JoinWorker worker);; join_all workers
  end.

(** The thread: a panic unwinds it, and the server that it owns is dropped either way. *)
Definition accept_thread (fuel : nat) : Accept unit :=
  on_error (perform DropServer) (
    workers ← accept_loop fuel [];
    perform CancelActiveRun;;
    join_all workers);;
  perform DropServer.

(** *** What a log shows: the threads that were started, those that were joined, and the
    answers of the flag *)
Definition started_in (e : call_event accept_call) : list Z :=
  match e with
  | Event c a =>
    match c in accept_call A return A -> list Z with
    | SpawnServe _ => fun a => match a with Some w => [w] | None => [] end
    | _ => fun _ => []
    end a
  end.
Definition joined_in (e : call_event accept_call) : list Z :=
  match e with
  | Event c a =>
    match c in accept_call A return A -> list Z with
    | JoinWorker w => fun a => match a with Some _ => [w] | None => [] end
    | _ => fun _ => []
    end a
  end.
Definition asks_stop (e : call_event accept_call) : bool :=
  match e with Event c _ => match c with StopRequested => true | _ => false end end.
Definition started (l : accept_log) : list Z := l ≫= started_in.
Definition joined (l : accept_log) : list Z := l ≫= joined_in.
Definition polls (l : accept_log) : nat := length (List.filter asks_stop l).

(** At every moment at most so many of the started threads are not yet joined. *)
Fixpoint within_workers (l : accept_log) : Prop :=
  match l with
  | [] => True
  | e :: older => (length (started l) <= length (joined l) + MAX_CONNECTION_WORKERS)%nat /\ within_workers older
  end.

(** [workers] are the threads that are started and not joined. *)
Record serving (workers : list Z) (l : accept_log) : Prop := {
  serving_live : started l ≡ₚ joined l ++ workers;
  serving_few : (length workers <= MAX_CONNECTION_WORKERS)%nat;
  serving_within : within_workers l;
}.
End accept.

Lemma swap_remove_perm {A} index (l : list A) w : l !! index = Some w -> l ≡ₚ w :: swap_remove index l.
Proof.
  intros Hw. unfold swap_remove. destruct l as [|x l _] using rev_ind; [done|].
  rewrite length_app, Nat.add_sub, lookup_app_r, Nat.sub_diag by done. cbn. apply lookup_app_Some in Hw as [Hw|[Hi Hw]].
  - pose proof (lookup_lt_Some _ _ _ Hw) as Hi. rewrite insert_app_l by done.
    rewrite take_app_length' by by rewrite length_insert.
    rewrite <- (take_drop_middle l index w Hw) at 1. rewrite (insert_take_drop l index x Hi). solve_Permutation.
  - apply list_lookup_singleton_Some in Hw as [Hw ->]. rewrite insert_app_r_alt by done.
    rewrite take_app_length' by done. by rewrite Permutation_app_comm.
Qed.
Lemma swap_remove_length {A} index (l : list A) w : l !! index = Some w -> length l = S (length (swap_remove index l)).
Proof. intros Hw. by rewrite (swap_remove_perm index l w Hw) at 1. Qed.

Lemma serving_next workers workers' e l :
  serving workers l -> started_in e ++ workers ≡ₚ joined_in e ++ workers' ->
  (length workers' <= MAX_CONNECTION_WORKERS)%nat -> serving workers' (e :: l).
Proof.
  intros [Hl Hf Hw] He Hf'. unfold started, joined in *.
  assert (Hp : started (e :: l) ≡ₚ joined (e :: l) ++ workers').
  { unfold started, joined. cbn. rewrite Hl, <- app_assoc, (Permutation_app_comm (started_in e)), <- !app_assoc.
    rewrite (Permutation_app_comm workers), He. solve_Permutation. }
  split; [done..|]. cbn [within_workers]. split; [|done]. rewrite Hp, length_app. lia.
Qed.
Lemma serving_same workers e l :
  serving workers l -> started_in e = [] -> joined_in e = [] -> serving workers (e :: l).
Proof. intros Hs Hsp Hj. eapply serving_next; [done|by rewrite Hsp, Hj|by apply Hs]. Qed.

Section accept_wp.
Context (ask : forall A, accept_call A -> accept_log -> A).

(** The loop goes on with these threads, after as many looks at the flag as before. *)
Definition goes_on (n : nat) (workers : list Z) (l : accept_log) : Prop := serving workers l /\ polls l = n.
Definition spawn_failed (l : accept_log) : Prop := exists c l0, l = Event (SpawnServe c) None :: l0.

Lemma goes_on_same n workers e l :
  goes_on n workers l -> started_in e = [] -> joined_in e = [] -> asks_stop e = false -> goes_on n workers (e :: l).
Proof. intros [Hs Hn] Hsp Hj Ha. split; [by apply serving_same|]. unfold polls. cbn. by rewrite Ha. Qed.
Lemma goes_on_joined n workers workers' w l :
  goes_on n workers l -> workers ≡ₚ w :: workers' -> goes_on n workers' (Event (JoinWorker w) (Some tt) :: l).
Proof.
  intros [Hs Hn] Hp. split; [|done]. eapply serving_next; [done|exact Hp|].
  pose proof (serving_few _ _ Hs) as Hf. apply Permutation_length in Hp. cbn in Hp. lia.
Qed.

(** The join of a thread that was just seen to have ended returns. *)
Definition finished_join : Prop := forall w l, ask _ (JoinWorker w) (Event (IsFinished w) true :: l) <> None.
Context (Hfinished : finished_join).

Lemma reap_wp fuel index workers n l :
  (length workers <= fuel + index)%nat -> goes_on n workers l ->
  os_wp (reap ask fuel index workers) (fun r l' => exists workers', r = Ok workers' /\ goes_on n workers' l') l.
Proof.
  revert index workers l. induction fuel as [|fuel IH]; intros index workers l Hf Hs; cbn [reap];
    destruct (workers !! index) as [w|] eqn:Hw; try by (apply os_wp_ret; eauto).
  - apply lookup_lt_Some in Hw. lia.
  - ask_step. ask_step. destruct a.
    + ask_step. apply os_wp_blocking; [|apply Hfinished]. intros [] _. apply IH.
      * pose proof (swap_remove_length _ _ _ Hw). lia.
      * eapply goes_on_joined; [by apply goes_on_same|by apply swap_remove_perm].
    + apply IH; [lia|by apply goes_on_same].
Qed.

Lemma accept_one_wp workers n l :
  goes_on n workers l ->
  os_wp (accept_one ask workers) (fun r l' =>
    match r with Ok workers' => goes_on n workers' l' | Err _ => within_workers l' /\ spawn_failed l' end) l.
Proof.
  intros Hs. unfold accept_one. ask_step. ask_step.
  assert (Hidle : forall e, goes_on n workers (Event TryAccept a :: l) -> asks_stop e = false -> started_in e = [] ->
    joined_in e = [] -> goes_on n workers (e :: Event TryAccept a :: l)) by (intros; by apply goes_on_same).
  assert (Hs' : goes_on n workers (Event TryAccept a :: l)) by by apply goes_on_same.
  destruct a as [[c|]|e]; [|by repeat ask_step; apply Hidle..].
  destruct (Nat.ltb_spec (length workers) MAX_CONNECTION_WORKERS) as [Hlt|Hge].
  - ask_step. ask_step. destruct a as [w|]; ask_step.
    + destruct Hs' as [Hs' Hn]. split; [|done]. eapply serving_next; [done|cbn; by rewrite Permutation_app_comm|].
      rewrite length_app. cbn. lia.
    + split; [|by do 2 eexists]. destruct (serving_same workers (Event (SpawnServe c) None) _ (proj1 Hs')); done.
  - repeat ask_step. by repeat apply goes_on_same.
Qed.

(** Joins that returned, of these threads one after the other. *)
Definition joins_of (ws : list Z) : accept_log := reverse ((fun w => Event (JoinWorker w) (Some tt)) <$> ws).

(** The threads that are left are joined in their order; the join of one of them may not
    return. *)
Definition stuck_join (before : accept_log) (workers : list Z) (l : accept_log) : Prop :=
  exists done w rest, workers = done ++ w :: rest /\ l = Event (JoinWorker w) None :: joins_of done ++ before /\
    ask _ (JoinWorker w) (joins_of done ++ before) = None.
Lemma joins_of_cons w ws : joins_of (w :: ws) = joins_of ws ++ [Event (JoinWorker w) (Some tt)].
Proof. unfold joins_of. by rewrite fmap_cons, reverse_cons. Qed.

Lemma join_all_ends workers n l :
  goes_on n workers l ->
  os_ends (fun l' => within_workers l' /\ stuck_join l workers l') (join_all ask workers)
    (fun r l' => r = Ok tt /\ goes_on n [] l' /\ l' = joins_of workers ++ l) l.
Proof.
  revert l. induction workers as [|w workers IH]; intros l Hs; cbn [join_all]; [by apply os_ends_wp, os_wp_ret|].
  apply os_ends_bind, os_ends_blocking.
  - intros []. assert (Hs' : goes_on n workers (Event (JoinWorker w) (Some tt) :: l)) by by eapply goes_on_joined.
    specialize (IH _ Hs'). unfold os_ends in *. destruct (join_all ask workers _) as [[r|] l'].
    + destruct IH as (-> & Hn & ->). split_and!; [done..|]. by rewrite joins_of_cons, <- app_assoc.
    + destruct IH as (Hw & done & w' & rest & -> & -> & Hn). split; [done|]. exists (w :: done), w', rest.
      rewrite joins_of_cons, <- app_assoc. by split_and!.
  - intros Hn. split; [|by exists [], w, workers]. destruct Hs as [Hs _].
    split; [|apply Hs]. destruct (serving_same _ (Event (JoinWorker w) None) _ Hs) as [_ _ [Hw _]]; done.
Qed.

(** The flag is set after [n] looks at it, for good. *)
Context (n : nat) (Hflag : forall l, (n <= polls l)%nat -> ask bool StopRequested l = true).

Lemma accept_loop_wp fuel workers l :
  (n < fuel + polls l)%nat -> (polls l <= n)%nat -> serving workers l ->
  os_wp (accept_loop ask fuel workers) (fun r l' =>
    match r with
    | Ok workers' => serving workers' l' /\ exists l0, l' = Event StopRequested true :: l0
    | Err _ => within_workers l' /\ spawn_failed l'
    end) l.
Proof.
  revert workers l. induction fuel as [|fuel IH]; intros workers l Hf Hl Hs; cbn [accept_loop]; [lia|].
  ask_step. apply os_wp_perform. intros stop Hstop.
  assert (Hs' : serving workers (Event StopRequested stop :: l)) by by apply serving_same.
  assert (Hp : polls (Event StopRequested stop :: l) = S (polls l)) by done.
  destruct stop; [apply os_wp_ret; eauto|].
  destruct (decide (n <= polls l)%nat) as [Hn|Hn]; [by rewrite Hflag in Hstop|].
  ask_step. eapply os_wp_mono; [by apply reap_wp; [lia|split]|]. intros r l1 (workers1 & -> & Hs1).
  ask_step. eapply os_wp_mono; [by apply accept_one_wp|]. intros [workers2|e] l2 H2; [|done].
  destruct H2 as [Hs2 Hp2]. apply IH; [rewrite Hp2; lia..|done].
Qed.

(** How the thread comes to its end: it saw the flag, cancelled the run and joined every
    thread it had started and not yet joined, and dropped the server. *)
Definition ended (l : accept_log) : Prop := exists workers l0,
  l = Event DropServer tt :: joins_of workers ++ Event CancelActiveRun tt :: Event StopRequested true :: l0 /\
  started l0 ≡ₚ joined l0 ++ workers /\ started l ≡ₚ joined l.

(** The start of a thread panicked: the server is dropped and nobody is joined. *)
Definition panicked (l : accept_log) : Prop := exists c l0,
  l = Event DropServer tt :: Event (SpawnServe c) None :: l0.

(** It saw the flag, cancelled the run and waits for a thread that does not end. *)
Definition waiting (l : accept_log) : Prop := exists workers l0,
  started l0 ≡ₚ joined l0 ++ workers /\
  stuck_join (Event CancelActiveRun tt :: Event StopRequested true :: l0) workers l.

(** Every thread that serves a connection ends. *)
Definition joins_return : Prop := forall w l, ask _ (JoinWorker w) l <> None.

(** C17. The end of the broker's thread: once the handle has set the flag, the accept loop
    returns after at most one more round and cancels the run; then it only joins, each
    thread that it ever started for a connection and had not joined yet, in their order and
    each exactly once, and at the end drops the server with its socket.  It always comes to
    that end if those threads end; otherwise it waits for ever in the join of one of them.
    The one exception is a panic of [thread::spawn], which drops the server at once and
    joins nobody.  At every moment no more than the allowed number of these threads was
    started and not yet joined. *)
Theorem accept_thread_ends :
  let '(answer, l) := accept_thread ask (S n) [] in
  within_workers l /\
  match answer with
  | Some (Ok _) => ended l
  | Some (Err _) => panicked l
  | None => waiting l
  end /\
  (joins_return -> is_Some answer).
Proof.
  assert (Hnil : serving [] []) by (split; [done|cbn; lia|done]).
  assert (Hw : os_ends (fun l => within_workers l /\ waiting l) (accept_thread ask (S n))
    (fun r l => within_workers l /\ match r with Ok _ => ended l | Err _ => panicked l end) []).
  { pose proof (accept_loop_wp (S n) [] [] ltac:(cbn; lia) ltac:(cbn; lia) Hnil) as Hl.
    unfold os_ends, accept_thread, on_error, mbind, os_bind, perform, os_err. unfold os_wp in Hl.
    destruct (accept_loop ask (S n) [] []) as [[[workers|e]|] l]; [| |done]; cbv beta iota.
    - destruct Hl as [Hs [l0 ->]].
      set (before := Event CancelActiveRun tt :: Event StopRequested true :: l0).
      assert (Hb : goes_on (polls before) workers before) by (split; [by apply serving_same|done]).
      pose proof (join_all_ends workers _ before Hb) as Hj.
      assert (H0 : started l0 ≡ₚ joined l0 ++ workers) by apply Hs.
      destruct (ask _ CancelActiveRun _). fold before. unfold os_ends in Hj.
      destruct (join_all ask workers before) as [[r|] l']; [|destruct Hj; split; [done|by exists workers, l0]].
      destruct Hj as (-> & [Hs' _] & ->). destruct (ask _ DropServer _).
      apply (serving_same _ (Event DropServer tt)) in Hs'; [|done..].
      split; [apply Hs'|]. exists workers, l0. split_and!; [done..|]. by rewrite (serving_live _ _ Hs'), app_nil_r.
    - destruct Hl as [Hw (c & l0 & ->)]. destruct (ask _ DropServer _).
      split; [by split; [apply Hw|]|]. by exists c, l0. }
  unfold os_ends in Hw. destruct (accept_thread ask (S n) []) as [[r|] l]; destruct Hw as [Hwi Hr]; (split; [done|]).
  - by destruct r.
  - split; [done|]. intros Hj. destruct Hr as (workers & l0 & _ & done & w & rest & _ & _ & Hn). by apply Hj in Hn.
Qed.
End accept_wp.

(** Two connections, of which the first has ended when the flag is set. *)
Definition example_accept (A : Type) (c : accept_call A) (l : accept_log) : A :=
  match c in accept_call A return A with
  | StopRequested => (2 <=? polls l)%nat
  | IsFinished w => bool_decide (w = 0)
  | TryAccept => Ok (Some 5)
  | SpawnServe _ => Some (Z.of_nat (length (started l)))
  | JoinWorker _ => Some tt
  | DropConnection _ | AcceptSleep | CancelActiveRun | DropServer => tt
  end.
Example accept_thread_ends_witness :
  let '(answer, l) := accept_thread example_accept 3 [] in answer = Some (Ok tt) /\ joined l = [1; 0] /\ ended l.
Proof.
  assert (Hflag : forall l, (2 <= polls l)%nat -> example_accept bool StopRequested l = true).
  { intros l Hl. by apply Nat.leb_le. }
  assert (Hfinished : finished_join example_accept) by (intros w l; discriminate).
  split; [reflexivity|]. split; [reflexivity|].
  exact (proj1 (proj2 (accept_thread_ends example_accept Hfinished 2 Hflag))).
Defined.

(** ** The handle *)

(** The server that [start_inner] opens, and the state that the threads then share. *)
Definition open_server (ask : forall A, ipc_call A -> list (call_event ipc_call) -> A) (effective_uid : Z)
    (endpoint : string) : Asks ipc_call LocalServer :=
  server ← bind ask effective_uid endpoint;
  on_error (drop_server ask effective_uid server) (set_nonblocking ask server true);;
  mret server.
Definition start_state {C} `{MonotonicClock C} (clock : C) (controller : VaultController) (start : Instant) : Broker C := {|
  approval := coordinator_new clock DEFAULT_GRANT_LIFETIME; threads := threads_new; ui := ui_threads_new;
  broker_controller := controller; shutting_down := false; supervisor_running := false; now := start; launched := [] |}.

Section handle.
Context {C : Type} `{MonotonicClock C}.
Context (has_ui : bool).
Abbreviation Broker := (Broker C).
Abbreviation Worker := (@Worker Broker (option approval_op)).

(** [disconnect], the store to the flag, and [close_client_sessions], which sets the flags
    of the connections. *)
Definition disconnect_ui : Worker unit :=
  critical None (fun b => (Ok tt, set_ui {| locks := disconnect (locks (ui b)); ui_roles := ui_roles (ui b) |} b)).
Definition shut_down (b : Broker) : Broker :=
  {| approval := approval b; threads := threads b; ui := ui b; broker_controller := broker_controller b;
     shutting_down := true; supervisor_running := supervisor_running b; now := now b; launched := launched b |}.
Definition cancel_all (tokens : gset Token) (s : Runs) : Runs := set_fold cancel s tokens.
Definition close_sessions (b : Broker) : LResult unit * Broker :=
  match close_client_sessions (flags b) (approval b) with
  | (Ok tokens, s) => (Ok tt, set_runs (cancel_all tokens (run_state b)) (set_approval s b))
  | (Err e, s) => (Err e, set_approval s b)
  end.

(** [Drop for LocalBrokerHandle]; whether the thread of the accept loop has ended is seen in
    the state. *)
Definition drop_handle (accept_ended : Broker -> bool) (t : nat) : Worker unit :=
  (if has_ui then disconnect_ui else mret tt);;
  critical None (fun b => (Ok tt, shut_down b));;
  catch (critical None close_sessions);;
  catch (coordinate (fun _ => cancel_pending));;
  catch (coordinate (fun _ => revoke_all));;
  catch (cancel_active_run_and_wait t);;
  await None (fun b => (if accept_ended b then Some (Ok tt) else None, b)).

(** The requests of the user interface that one coordinator answers. *)
Definition change_ui (f : UiLocks -> LResult UiLocks) : Worker unit :=
  critical None (fun b =>
    match f (locks (ui b)) with
    | Ok u => (Ok tt, set_ui {| locks := u; ui_roles := ui_roles (ui b) |} b)
    | Err e => (Err e, b)
    end).
Definition look_ui {A} (absent : A) (f : UiLocks -> A) : Worker A :=
  if has_ui then look (fun b => f (locks (ui b))) else mret absent.
Definition pending_external_lock : Worker (option Z) := look_ui None pending_lock.
Definition acknowledge_external_lock (request_id : Z) : Worker unit :=
  if has_ui then change_ui (acknowledge request_id) else worker_err InvalidRequest.
Definition external_lock_in_progress : Worker bool := look_ui false request_in_progress.
Definition handle_pending_unlock : Worker (option PendingUnlock) :=
  look_ui None (fun u => pending_unlock (unlock_requests u)).
Definition handle_resolve_unlock (id : Uuid) (allow : bool) : Worker unit :=
  if has_ui then
    change_ui (fun u => r ← resolve_unlock id allow (unlock_requests u); Ok (set_unlock_requests r u))
  else worker_err EndpointUnavailable.
Definition pending_approval : Worker (option PendingApproval) := coordinate pending_request.
Definition approve (id : Uuid) : Worker unit := coordinate (fun c => Approval.approve c id).
Definition approve_for (id : Uuid) (lifetime : Duration) : Worker unit :=
  coordinate (fun c => Approval.approve_for c id lifetime).
Definition approve_until (id : Uuid) (deadline : SystemTime) : Worker unit :=
  coordinate (fun c => Approval.approve_until c id deadline).
Definition approve_session (id : Uuid) : Worker unit := coordinate (fun c => Approval.approve_session c id).
Definition deny (id : Uuid) : Worker unit := coordinate (fun c => Approval.deny c id).
Definition handle_session_connected (client : Uuid) : Worker bool :=
  coordinate (fun c => client_session_connected c client).
Definition set_session_annotation (client connection : Uuid) (name note : string) : Worker unit :=
  coordinate (fun c => set_session_annotation_checked c client (Some connection) name note).
Definition agent_run_active : Worker bool := look (fun b => has_active_run (run_state b)).
End handle.

(** ** What the drop leaves behind *)
Section drop.
Context {C : Type} `{MonotonicClock C}.
Context `{TextCratesLaws, RedactCrates}.
Context (has_ui : bool) (accept_ended : Broker C -> bool) (t : nat).
Abbreviation Broker := (Broker C).
#[local] Abbreviation Kept := (Kept (others t)).
#[local] Abbreviation hoare := (hoare (others t)).
#[local] Abbreviation Trace := (list (option approval_op * Broker)).
#[local] Abbreviation Worker := (@Worker Broker (option approval_op)).

(** No client is connected and none can be; nothing is granted, unless the revisions are
    exhausted; no run is left and none can start; the thread of the accept loop has ended. *)
Definition sessions_ended (b : Broker) : Prop :=
  sessions_closed (approval b) = true /\ client_sessions (approval b) = ∅.
Definition access_gone (b : Broker) : Prop :=
  deadlines (grants (approval b)) = ∅ \/ u64_max <= revision (approval b).
Definition quiet (b : Broker) : Prop :=
  running_run (run_state b) = None /\ roles (threads b) !! t = Some (Blocking EveryRun).
Definition loop_ended (b : Broker) : Prop := accept_ended b = true.

(** *** The sections *)
Lemma purge_all (s : ApprovalState C) l :
  client_sessions (fold_left purge_client l s) = foldr delete (client_sessions s) (rev l) /\
  sessions_closed (fold_left purge_client l s) = sessions_closed s.
Proof.
  revert s. induction l as [|c l IH]; intros s; [done|]. cbn. destruct (IH (purge_client s c)) as [-> ->].
  rewrite foldr_app. cbn. unfold purge_client, decide_if. by repeat case_match.
Qed.
Lemma delete_all (m : gmap Uuid Token) (l : list Uuid) : (forall k, k ∈ dom m -> k ∈ l) -> foldr delete m l = ∅.
Proof.
  intros Hl. apply map_eq. intros k. rewrite lookup_empty. destruct (decide (k ∈ l)) as [Hk|Hk].
  - clear Hl. induction l as [|x l IH]; [by apply elem_of_nil in Hk|]. cbn.
    destruct (decide (k = x)) as [->|Hn]; [by rewrite lookup_delete_eq|].
    rewrite lookup_delete_ne by done. apply IH. by apply elem_of_cons in Hk as [].
  - assert (Hm : m !! k = None) by (apply not_elem_of_dom; naive_solver).
    clear Hl Hk. induction l as [|x l IH]; [done|]. cbn. by rewrite lookup_delete_None; right.
Qed.
Lemma close_ends (b : Broker) : exists tokens s,
  close_client_sessions (flags b) (approval b) = (Ok tokens, s) /\ client_sessions s = ∅ /\ sessions_closed s = true /\
  (forall client token, client_sessions (approval b) !! client = Some token -> token ∈ tokens).
Proof.
  unfold close_client_sessions, purge_disconnected_clients, mbind, modify, get. cbn. do 2 eexists. split; [reflexivity|].
  match goal with |- context [fold_left purge_client ?l ?s] => destruct (purge_all s l) as [-> ->] end.
  assert (Ht : forall client token, client_sessions (approval b) !! client = Some token ->
    token ∈ session_tokens (set_closed true (approval b))).
  { intros client token Hc. unfold session_tokens. apply elem_of_list_to_set, list_elem_of_fmap.
    exists (client, token). split; [done|]. by apply elem_of_map_to_list. }
  split_and!; [|done|exact Ht]. apply delete_all. intros client [token Hc]%elem_of_dom. cbn in Hc.
  rewrite list_elem_of_In, <- in_rev, <- list_elem_of_In. unfold disconnected. apply list_elem_of_fmap. exists (client, token). split; [done|].
  apply list_elem_of_filter. split; [|by apply elem_of_map_to_list]. cbn. apply elem_of_union. right. by eapply Ht.
Qed.

Lemma cancel_all_keeps tokens (w : Threads) :
  exclusive w -> exclusive {| Runs.runs := cancel_all tokens (Runs.runs w); roles := roles w |}.
Proof.
  intros He. unfold cancel_all. apply (set_fold_ind_L (fun s _ => exclusive {| Runs.runs := s; roles := roles w |})).
  - by destruct w.
  - intros token X s _ Hs. exact (exclusive_step _ _ (step_cancel {| Runs.runs := s; roles := roles w |} token) Hs).
Qed.
Lemma cancel_all_flags tokens (s : Runs) : cancelled_tokens (cancel_all tokens s) = tokens ∪ cancelled_tokens s.
Proof.
  unfold cancel_all. apply (set_fold_ind_L (fun r X => cancelled_tokens r = X ∪ cancelled_tokens s)); [set_solver|].
  intros token X r _ Hr. cbn. rewrite Hr. set_solver.
Qed.

(** Every client that was connected finds its flag set. *)
Lemma close_sets_flags (b : Broker) client token :
  client_sessions (approval b) !! client = Some token -> token ∈ flags (close_sessions b).2.
Proof.
  intros Hc. destruct (close_ends b) as (tokens & s & Hclose & _ & _ & Ht). unfold close_sessions. rewrite Hclose.
  unfold flags, run_state. cbn. rewrite cancel_all_flags. apply elem_of_union. left. by eapply Ht.
Qed.

(** The last state of an execution with a step is in its trace. *)
Lemma executes_seen {A} (p : prog A) (b : Broker) tr a b' :
  executes (others t) p b tr a b' -> tr = [] /\ b' = b \/ exists l, (l, b') ∈ tr.
Proof.
  induction 1 as [|p l s s' tr a b' Ho Hr IH|p p' l s s' tr a b' Hadv Hr IH]; [by left|..];
    right; (destruct IH as [[-> ->]|[l' Hl]]; [exists l; left|exists l'; by right]).
Qed.
Lemma close_hoare F :
  Grows F ->
  hoare (holding t None F) (critical None close_sessions)
    (fun _ => holding t None (fun tr => F tr /\ visited sessions_ended tr)) (fun _ _ _ => False).
Proof.
  intros HF. apply hoare_critical; [apply _..|]. intros before b (He & Hr & Hb).
  destruct (close_ends b) as (tokens & s & Hclose & Hs & Hc & _). unfold close_sessions. rewrite Hclose. cbn.
  split_and!; [by apply cancel_all_keeps|done|by apply grows_app|]. by apply visited_last.
Qed.

Lemma revoke_all_gone (s : ApprovalState C) :
  wp revoke_all (fun _ s => deadlines (grants s) = ∅) (fun s' => u64_max <= revision s') s.
Proof.
  unfold revoke_all, next_revision. apply wp_bind, wp_bind, wp_get, wp_bind. unfold lift, checked_add, wp.
  destruct (Z.leb_spec (revision s + 1) u64_max); cbn; [done|lia].
Qed.
Lemma revoke_hoare F :
  Grows F ->
  hoare (holding t None (fun tr => F tr /\ visited sessions_ended tr)) (catch (coordinate (fun _ => revoke_all)))
    (fun _ => holding t None (fun tr => F tr /\ visited_then sessions_ended access_gone tr)) (fun _ _ _ => False).
Proof.
  intros HF.
  set (gone := fun tr : Trace => F tr /\ visited_then sessions_ended access_gone tr).
  eapply (hoare_catch _ _ _ (fun _ => holding t None gone) (fun _ => holding t None gone)); [apply _| |by intros []].
  apply holding_section; [apply _..| |]; intros *; [by destruct (revoke_all _)|].
  intros [Hb Hv]. pose proof (revoke_all_gone (approval b)) as Hw. unfold wp in Hw.
  destruct (revoke_all _) as [[a|e] s]; (split; [by apply grows_app|]); apply visited_then_last; try done;
    [by left|by right].
Qed.

(** The wait for the run: its block is reached in a state without one. *)
Lemma cancel_pending_answers (s : ApprovalState C) : wp cancel_pending (fun _ _ => True) (fun _ => False) s.
Proof.
  unfold cancel_pending. apply wp_bind, wp_get. destruct (pending s); [|by apply wp_ret].
  apply wp_bind, wp_modify. unfold prune_client_labels. by apply wp_bind, wp_query, wp_modify.
Qed.
Lemma cancel_pending_hoare r F :
  Grows F ->
  hoare (holding t r F) (coordinate (fun _ => cancel_pending)) (fun _ => holding t r F) (fun _ _ _ => False).
Proof.
  intros HF. apply hoare_critical; [apply _..|]. intros before b (He & Hr & Hb).
  pose proof (cancel_pending_answers (approval b)) as Hw. unfold wp in Hw.
  destruct (cancel_pending _) as [[a|e] s]; [|done]. cbn. split_and!; [done..|by apply grows_app].
Qed.
Lemma start_block_quiet F X :
  Grows F ->
  hoare (holding t None (fun tr => F tr /\ visited X tr)) (start_block t every_run)
    (fun p => holding t (Some (Blocking p)) (fun tr => F tr /\ visited_then X quiet tr)) (fun _ _ _ => False).
Proof.
  intros HF before b tr r b' HP Hr.
  pose proof (start_block_hoare t every_run _ (fun tr => F tr /\ visited X tr) _ every_run_begins before b tr r b' HP Hr) as Hh.
  destruct r as [p|e]; [|exact Hh]. destruct Hh as (He & Hrole & -> & Hf & _). split_and!; [done..|].
  destruct (executes_seen _ _ _ _ _ Hr) as [[-> _]|[l Hl]]; [by inversion Hr|].
  apply list_elem_of_split in Hl as (tr1 & tr2 & ->). exists (before ++ tr1), (l, b'), tr2.
  split; [by rewrite app_assoc|]. destruct HP as (_ & _ & _ & x & Hx & HX).
  split; [exists x; split; [apply elem_of_app; by left|done]|]. split; [|done]. cbn.
  destruct (running_run (run_state b')) as [a|] eqn:Ha; [|done].
  by pose proof (all_guarded _ He _ _ _ Hrole Ha).
Qed.

(** Access is gone after the sessions ended, and the broker was quiet after that. *)
Definition drained (tr : Trace) : Prop :=
  visited_then sessions_ended access_gone tr /\ visited_then access_gone quiet tr.

Lemma wait_hoare :
  hoare (holding t None (visited_then sessions_ended access_gone)) (catch (cancel_active_run_and_wait t))
    (fun _ => holding t None drained) (fun _ _ _ => False).
Proof.
  set (gone := fun tr : Trace => visited_then sessions_ended access_gone tr /\ visited access_gone tr).
  apply (hoare_mono _ _ (holding t None gone) _ _ (fun _ => holding t None drained) _ (fun _ _ _ => False)); [| |done|done].
  2: { intros before b. apply holding_mono. intros Hv. split; [done|].
       destruct Hv as (tr1 & x & tr2 & -> & _ & Hx). exists x. split; [|done]. apply elem_of_app. right. by left. }
  eapply (hoare_catch _ _ _ (fun _ => holding t None drained) (fun _ _ _ => False)); [apply _| |by intros []].
  unfold cancel_active_run_and_wait, with_block.
  eapply hoare_bind; [apply _|apply (cancel_pending_hoare None gone); apply _|intros []].
  eapply hoare_bind; [apply _|apply start_block_quiet; apply _|intros p].
  eapply (hoare_bind _ _ _ _ (fun r => holding t (Some (Blocking p)) (fun tr => r = Ok tt /\ drained tr))); [apply _| |intros r].
  - eapply (hoare_catch _ _ _ (fun _ => holding t (Some (Blocking p)) drained) (fun _ _ _ => False)); [apply _| |].
    + apply (hoare_answer _ (Ok tt)); [apply _|done].
    + intros [[]|e] before b; [|done]. by apply holding_mono.
  - eapply hoare_bind; [apply _|apply drop_block_hoare; apply _|intros []].
    intros before b tr a b' (He & Hn & -> & Hd) Hr.
    apply (hoare_answer _ (Ok tt) (holding t None drained) (fun _ => holding t None drained) (fun _ _ _ => False) _ (fun _ _ H => H) before b tr a b'); done.
Qed.

Lemma drop_hoare :
  hoare (holding t None (fun _ => True)) (drop_handle has_ui accept_ended t)
    (fun _ => holding t None (fun tr => drained tr /\ visited loop_ended tr)) (fun _ _ _ => False).
Proof.
  unfold drop_handle.
  eapply (hoare_bind _ _ _ _ (fun _ => holding t None (fun _ => True))); [apply _| |intros []].
  { destruct has_ui; [|apply (hoare_answer _ (Ok tt)); [apply _|done]].
    eapply hoare_mono; [apply (holding_section t None (fun _ => True) (fun _ _ => True) (fun _ _ => False)); [apply _..|done|done]|done..|].
    by intros ? ? ? (_ & _ & []). }
  eapply (hoare_bind _ _ _ _ (fun _ => holding t None (fun _ => True))); [apply _| |intros []].
  { apply hoare_critical; [apply _..|done]. }
  eapply (hoare_bind _ _ _ _ (fun _ => holding t None (fun tr => True /\ visited sessions_ended tr))); [apply _| |intros r1].
  { eapply (hoare_catch _ _ _ (fun _ => holding t None (fun tr => True /\ visited sessions_ended tr)) (fun _ _ _ => False));
      [apply _|apply (close_hoare (fun _ => True)); apply _|by intros []]. }
  eapply hoare_bind; [apply _|apply coordinate_catch_hoare; apply _|intros r2].
  eapply hoare_bind; [apply _|apply (revoke_hoare (fun _ => True)); apply _|intros r3].
  eapply hoare_bind; [apply _| |intros r4].
  { eapply hoare_mono; [apply wait_hoare| |done|done]. intros before b. apply holding_mono. by intros []. }
  apply hoare_await; [apply _..|]. intros before b (He & Hr & Hd). destruct (accept_ended b) eqn:Ha; cbn.
  - split_and!; [done..|by apply grows_app|]. by apply visited_last.
  - by split_and!; [..|apply grows_app].
Qed.

(** The flag is never taken back. *)
Definition shut (_ : Trace) (b : Broker) : Prop := shutting_down b = true.
#[export] Instance shut_kept : Kept shut.
Proof. intros before l b b' Hb Ho. by destruct Ho. Qed.
Lemma shut_section {A} l (f : Broker -> LResult A * Broker) :
  (forall b, shutting_down (f b).2 = shutting_down b) -> sections shut (critical l f).
Proof. intros Hf. split; [|done]. intros before b Hb. unfold shut in *. specialize (Hf b). destruct (f b); cbn in *; congruence. Qed.
Lemma shut_coordinate {A} (m : gset Token -> @M C A) : sections shut (coordinate m).
Proof. apply shut_section. intros b. by destruct (m _ _). Qed.
Lemma shut_start_block begin : sections shut (start_block t begin).
Proof.
  apply sections_worker_bind; [split; [|done]|intros p; split; [|done]]; intros before b Hb.
  - by destruct (begin _) as [[]|].
  - by destruct (waits _ _).
Qed.
Lemma shut_wait : sections shut (cancel_active_run_and_wait t).
Proof.
  apply sections_worker_bind; [apply shut_coordinate|intros []]. apply sections_worker_bind; [apply shut_start_block|intros p].
  apply sections_worker_bind; [by apply sections_catch|intros r]. apply sections_worker_bind; [by apply shut_section|done].
Qed.
Lemma drop_shut :
  hoare (fun _ _ => True) (drop_handle has_ui accept_ended t) (fun _ => shut) (fun _ _ _ => True).
Proof.
  unfold drop_handle.
  eapply (hoare_bind _ _ _ _ (fun _ _ _ => True)); [by intros ? **|by intros ? ? ? [] **|intros []].
  eapply (hoare_bind _ _ _ _ (fun _ => shut)); [by intros ? **| |intros []].
  { apply hoare_critical; [by intros ? **|apply _|by intros ? **|done]. }
  eapply hoare_mono; [apply (sections_hoare _ shut)|done|done|done]; [apply _|].
  repeat (apply sections_worker_bind; [|intros ?]).
  - apply sections_catch, shut_section. intros b. unfold close_sessions. by destruct (close_client_sessions _ _) as [[]].
  - apply sections_catch, shut_coordinate.
  - apply sections_catch, shut_coordinate.
  - apply sections_catch, shut_wait.
  - split; [|done]. intros before b Hb. by destruct (accept_ended b).
Qed.

(** C16. Dropping the handle ends everything, in this order, in every execution among any steps
    of the other threads: the broker is shut down for good; there is a moment at which no
    client session is open and none can be opened; later one without any grant (unless the
    counter of revisions is exhausted); later one at which no run is left and the worker's
    block lets none start; and the thread of the accept loop has ended. *)
Theorem drop_ends_everything b tr answer b' :
  reachable (threads b) -> roles (threads b) !! t = None ->
  executes (others t) (drop_handle has_ui accept_ended t) b tr answer b' ->
  answer = Ok tt /\ shutting_down b' = true /\
  visited_then sessions_ended access_gone tr /\ visited_then access_gone quiet tr /\ visited loop_ended tr.
Proof.
  intros He%exclusive_reachable Ht Hr. pose proof (drop_hoare [] b tr answer b') as Hd.
  pose proof (drop_shut [] b tr answer b' I Hr) as Hs.
  destruct answer as [[]|e]; cbn in Hd; [|by destruct Hd; [split_and!|]].
  destruct Hd as (_ & _ & [Hg Hq] & Hl); [by split_and!|done|]. by split_and!.
Qed.
End drop.

(** The handle is dropped while thread 1 runs a request, which ends in between. *)
Lemma example_drop : exists tr b',
  executes (others 2) (drop_handle true (fun _ => true) 2) (example_revoking) tr (Ok tt) b'.
Proof.
  do 2 eexists. unfold drop_handle.
  do 7 (eapply executes_own; [reflexivity|]).
  eapply executes_others; [apply others_runs; [by apply (step_finish _ 1 7%nat 3)|reflexivity]|].
  do 3 (eapply executes_own; [reflexivity|]). apply executes_answer.
Qed.
Example drop_ends_everything_witness : exists tr b',
  executes (others 2) (drop_handle true (fun _ => true) 2) example_revoking tr (Ok tt) b' /\
  visited_then access_gone (quiet 2) tr.
Proof.
  destruct example_drop as (tr & b' & Hr). exists tr, b'. split; [exact Hr|].
  apply (drop_ends_everything true (fun _ => true) 2 example_revoking tr (Ok tt) b'); [|reflexivity|exact Hr].
  apply (rtc_l _ _ example_started); [apply (step_start threads_new 1 7 3); reflexivity|].
  apply rtc_once, (step_context example_started 1 7 3 [5]); reflexivity.
Defined.
