(* ===== verification/Startup.v ===== *)
(** * Startup: [InstanceLock] and [acquire_runtime] of [crates/ladon-app/src/desktop.rs]

    One process at a time uses the vault: the lock on a file beside it, and the
    cleanup of what an earlier process left behind, which runs under the lock. *)

From S2P Require Import Prelude Errors Time Model Paths Calls Os RunFiles.
Local Open Scope Z_scope.

(** The answer of [flock]. *)
Inductive LockAnswer : Set := LockTaken | LockWouldBlock | LockFailed.
#[export] Instance LockAnswer_eq_dec : EqDecision LockAnswer.
Proof. solve_decision. Defined.

(** The calls of the lock and, for the cleanup, those of the operating system. *)
Inductive startup_call : Type -> Type :=
| CreateParents (path : string) : startup_call (Io unit)
| CloseParent (path : string) (mode : Z) : startup_call (Io unit)
| OpenLockFile (path : string) (mode : Z) : startup_call (Io Z)
| LockFile (file : Z) : startup_call LockAnswer
| UnlockFile (file : Z) : startup_call unit
| CloseLockFile (file : Z) : startup_call unit
| OfOs {A} (c : os_call A) : startup_call A.
Abbreviation startup_log := (list (call_event startup_call)) (only parsing).

Definition of_os_event (e : call_event os_call) : call_event startup_call :=
  match e with Event c a => Event (OfOs c) a end.
Definition of_os_log (l : log) : startup_log := of_os_event <$> l.

Section startup.
Context `{TextCrates}.
Context (ask : forall A, startup_call A -> startup_log -> A).
Context (euid : Z).
Abbreviation Startup := (Asks startup_call) (only parsing).
Abbreviation perform := (perform ask) (only parsing).
Abbreviation or_error := (or_error ask) (only parsing).

(** A program of the operating system's calls, after the calls so far. *)
Definition os_ask (l : startup_log) (A : Type) (c : os_call A) (l' : log) : A :=
  ask A (OfOs c) (of_os_log l' ++ l).
Definition with_os {A} (m : (forall A, os_call A -> log -> A) -> Os A) : Startup A := fun l =>
  let '(r, l') := m (os_ask l) [] in (r, of_os_log l' ++ l).

Definition storage_failure (e : IoError) : LadonError := StorageFailure.

(** [lock_instance_file], [InstanceLock::acquire] with its modes [0o700] and [0o600], and
    [Drop for InstanceLock], after which the file is closed. *)
Definition lock_instance_file (file : Z) : Startup unit :=
  answer ← perform (LockFile file);
  match answer with
  | LockTaken => mret tt
  | LockWouldBlock => os_err AlreadyRunning
  | LockFailed => os_err StorageFailure
  end.
Definition acquire_instance (vault_path : string) : Startup Z :=
  parent ← os_lift (ok_or (path_parent vault_path) StorageFailure);
  or_error storage_failure (CreateParents parent);;
  or_error storage_failure (CloseParent parent 0x1C0);;
  file ← or_error storage_failure (OpenLockFile (join parent ".instance.lock") 0x180);
  on_error (perform (CloseLockFile file)) (lock_instance_file file);;
  mret file.
Definition drop_instance (file : Z) : Startup unit :=
  perform (UnlockFile file);;
  perform (CloseLockFile file).

(** [acquire_runtime]: the lock is dropped when the cleanup fails. *)
Definition acquire_runtime (vault_path temp_root : string) : Startup Z :=
  file ← acquire_instance vault_path;
  on_error (drop_instance file) (with_os (fun ask => cleanup_stale_temp_directories_in ask euid temp_root));;
  mret file.

(** ** What a log shows *)

(** The lock file that is locked, by the latest calls. *)
Fixpoint holds_lock (l : startup_log) : option Z :=
  match l with
  | [] => None
  | Event c a :: older =>
    match c in startup_call A return A -> option Z with
    | LockFile file => fun a => match a with LockTaken => Some file | _ => holds_lock older end
    | UnlockFile _ | CloseLockFile _ => fun _ => None
    | _ => fun _ => holds_lock older
    end a
  end.
Definition is_os (e : call_event startup_call) : bool :=
  match e with Event c _ => match c with OfOs _ => true | _ => false end end.

(** Nothing of an earlier process was touched before the lock was taken. *)
Fixpoint only_locked (l : startup_log) : Prop :=
  match l with
  | [] => True
  | e :: older => (is_os e = true -> is_Some (holds_lock older)) /\ only_locked older
  end.

(** The calls of the cleanup alone. *)
Fixpoint os_part (l : startup_log) : log :=
  match l with
  | [] => []
  | Event c a :: older =>
    match c in startup_call A return A -> log with
    | OfOs c => fun a => Event c a :: os_part older
    | _ => fun _ => os_part older
    end a
  end.

(** The file that was opened last, and was not closed since. *)
Fixpoint kept_file (l : startup_log) : option Z :=
  match l with
  | [] => None
  | Event c a :: older =>
    match c in startup_call A return A -> option Z with
    | OpenLockFile _ _ => fun answer => ok answer
    | CloseLockFile _ => fun _ => None
    | _ => fun _ => kept_file older
    end a
  end.

(** The parent directory of the vault is made, then closed to other users, then the
    file [.instance.lock] in it is opened for this user alone, and this is the file
    that is locked, unlocked and closed. *)
Fixpoint beside_vault (vault_path : string) (l : startup_log) : Prop :=
  match l with
  | [] => True
  | Event c a :: older =>
    match c with
    | CreateParents p => path_parent vault_path = Some p /\ older = []
    | CloseParent p mode =>
      path_parent vault_path = Some p /\ mode = 0x1C0 /\ older = [Event (CreateParents p) (Ok tt)]
    | OpenLockFile path mode =>
      exists parent, path_parent vault_path = Some parent /\ path = join parent ".instance.lock" /\
        mode = 0x180 /\
        older = [Event (CloseParent parent 0x1C0) (Ok tt); Event (CreateParents parent) (Ok tt)]
    | LockFile file | UnlockFile file | CloseLockFile file => kept_file older = Some file
    | OfOs _ => True
    end /\ beside_vault vault_path older
  end.
Lemma of_os_part l' l : os_part (of_os_log l' ++ l) = l' ++ os_part l.
Proof. induction l' as [|[A c a] l' IH]; [done|]. exact (f_equal (cons (Event c a)) IH). Qed.
Lemma of_os_holds l' l : holds_lock (of_os_log l' ++ l) = holds_lock l.
Proof. induction l' as [|[A c a] l' IH]; [done|]. exact IH. Qed.
Lemma of_os_only l' l : only_locked l -> is_Some (holds_lock l) -> only_locked (of_os_log l' ++ l).
Proof.
  intros Hl Hs. induction l' as [|[A c a] l' IH]; [done|]. split; [intros _; by rewrite of_os_holds|exact IH].
Qed.

Lemma of_os_open l' l : kept_file (of_os_log l' ++ l) = kept_file l.
Proof. induction l' as [|[A c a] l' IH]; [done|]. exact IH. Qed.
Lemma of_os_beside vault_path l' l : beside_vault vault_path l -> beside_vault vault_path (of_os_log l' ++ l).
Proof. intros Hl. induction l' as [|[A c a] l' IH]; [done|]. by split. Qed.

(** The cleanup always answers. *)
Lemma cleanup_answers ask' root : answers (cleanup_stale_temp_directories_in ask' euid root).
Proof.
  unfold cleanup_stale_temp_directories_in.
  assert (Hs : forall path, answers (stale_directory ask' euid path)).
  { intros path. unfold stale_directory. repeat (case_match || apply answers_bind || intros || auto with os_keeps). }
  assert (Hl : forall entries, answers (cleanup_loop ask' euid root entries)).
  { induction entries as [|[name|e] entries IH]; cbn [cleanup_loop]; auto with os_keeps.
    apply answers_bind; [|done]. case_match; auto with os_keeps. apply answers_bind; [done|].
    intros []; auto with os_keeps. }
  unfold prepare_temporary_root. repeat (case_match || apply answers_bind || intros || auto with os_keeps).
Qed.

Lemma os_wp_with_os {A} (m : (forall A, os_call A -> log -> A) -> Os A) (Q : LResult A -> startup_log -> Prop) l :
  answers (m (os_ask l)) -> (forall r, Q r (of_os_log (m (os_ask l) []).2 ++ l)) -> os_wp (with_os m) Q l.
Proof.
  intros Ha HQ. specialize (Ha []). unfold os_wp, with_os.
  destruct (m (os_ask l) []) as [[r|] l']; [apply HQ|by destruct Ha].
Qed.

(** What is known of a log before the cleanup. *)
Record before_cleanup (vault_path : string) (r : LResult Z) (l : startup_log) : Prop := {
  bc_only : only_locked l;
  bc_os : os_part l = [];
  bc_lock : holds_lock l = match r with Ok file => Some file | Err _ => None end;
  bc_open : kept_file l = match r with Ok file => Some file | Err _ => None end;
  bc_beside : beside_vault vault_path l;
}.
Lemma acquire_instance_wp vault_path : os_wp (acquire_instance vault_path) (before_cleanup vault_path) [].
Proof.
  unfold acquire_instance, lock_instance_file. ask_step.
  apply os_wp_lift. destruct (path_parent vault_path) as [parent|] eqn:Hp; cbn [ok_or]; [|by split].
  ask_step. ask_step; [|split; cbn; naive_solver]. destruct a.
  ask_step. ask_step; [|split; cbn; naive_solver]. destruct a.
  ask_step. ask_step; [|split; cbn; naive_solver].
  ask_step. ask_step. ask_step. ask_step.
  match goal with a : LockAnswer |- _ => destruct a end; repeat ask_step; split; cbn; naive_solver.
Qed.

(** C19. Only the process that holds the lock cleans up: whatever the operating system
    answers, the start makes the parent directory of the vault, closes it to other users,
    opens [.instance.lock] in it with mode 0600 and locks exactly that file, all before
    it touches anything of an earlier process; it then removes only private run directories
    of this user; it succeeds only while it holds that lock on the file it answers, and a
    start that fails keeps neither the lock nor the file. *)
Theorem runtime_is_exclusive vault_path temp_root :
  os_wp (acquire_runtime vault_path temp_root) (fun r l =>
    beside_vault vault_path l /\ only_locked l /\ removals_justified euid temp_root (os_part l) /\
    holds_lock l = match r with Ok file => Some file | Err _ => None end /\
    kept_file l = match r with Ok file => Some file | Err _ => None end) [].
Proof.
  unfold acquire_runtime, drop_instance. ask_step. eapply os_wp_mono; [apply acquire_instance_wp|].
  intros [file|e] l [Hl Hp Hh Hop Hb]; [|by rewrite Hp]. ask_step. ask_step. apply os_wp_with_os; [apply cleanup_answers|].
  set (m := cleanup_stale_temp_directories_in (os_ask l) euid temp_root).
  assert (Hr : removals_justified euid temp_root (os_part (of_os_log (m []).2 ++ l))).
  { rewrite of_os_part, Hp, app_nil_r. apply cleanup_removes_only_runs. }
  assert (Ho : only_locked (of_os_log (m []).2 ++ l)) by (apply of_os_only; [done|by rewrite Hh]).
  assert (Hv : beside_vault vault_path (of_os_log (m []).2 ++ l)) by by apply of_os_beside.
  assert (Hf : kept_file (of_os_log (m []).2 ++ l) = Some file) by by rewrite of_os_open.
  intros [[]|e]; repeat ask_step; [by rewrite of_os_holds|]. cbn. by rewrite Hf.
Qed.
End startup.
