(* ===== verification/TouchId.v ===== *)
(** * TouchId: the worker of [crates/ladon-app/src/touch_id.rs]

    The thread that asks macOS for a fingerprint and waits for the reply, for the
    cancellation of the attempt and for its deadline.  The framework, the flag, the
    channel of the reply and the clock are calls. *)

From S2P Require Import Prelude Errors Time Calls.
Local Open Scope Z_scope.

(** An [Instant] is its nanoseconds since some start. *)
Abbreviation Instant := Z (only parsing).

(** What a wait for the reply ends with. *)
Inductive ReplyAnswer : Set := Replied (success : bool) | ReplyTimeout | ReplyDisconnected.

Inductive touch_call : Type -> Type :=
| CanEvaluatePolicy : touch_call (result unit unit)
| ForbidReuse : touch_call unit
| ForbidFallback : touch_call unit
| EvaluatePolicy (reason : string) : touch_call unit
| AttemptCancelled : touch_call bool
| TouchNow : touch_call Instant
| AwaitReply (wait : Duration) : touch_call ReplyAnswer
| InvalidateContext : touch_call unit.
Abbreviation touch_log := (list (call_event touch_call)) (only parsing).

(** In nanoseconds. *)
Definition AUTHENTICATION_TIMEOUT : Duration := 60 * 1000000000.
Definition REPLY_SLICE : Duration := 20 * 1000000.

Section touch_id.
Context (ask : forall A, touch_call A -> touch_log -> A).
Abbreviation Touch := (Asks touch_call) (only parsing).
Abbreviation perform := (perform ask) (only parsing).
Abbreviation or_error := (or_error ask) (only parsing).

(** The loop of [platform::authenticate], and the function. *)
Fixpoint await_reply (fuel : nat) (deadline : Instant) : Touch unit :=
  match fuel with
  | O => out_of_fuel
  | S fuel =>
    cancelled ← perform AttemptCancelled;
    if (cancelled : bool) then perform InvalidateContext;; os_err ApprovalCancelled
    else
      now ← perform TouchNow;
      if deadline <=? now then perform InvalidateContext;; os_err ApprovalAuthenticationFailed
      else
        answer ← perform (AwaitReply (Z.min REPLY_SLICE (Z.max 0 (deadline - now))));
        match answer with
        | Replied true => mret tt
        | Replied false | ReplyDisconnected => os_err ApprovalAuthenticationFailed
        | ReplyTimeout => await_reply fuel deadline
        end
  end.
Definition authenticate (fuel : nat) (reason : string) : Touch unit :=
  if bool_decide (reason = "") then os_err InvalidRequest
  else
    or_error (fun _ => TouchIdUnavailable) CanEvaluatePolicy;;
    perform ForbidReuse;;
    perform ForbidFallback;;
    perform (EvaluatePolicy reason);;
    start ← perform TouchNow;
    await_reply fuel (start + AUTHENTICATION_TIMEOUT).

(** ** What a log shows *)

(** What the clock shows at least: time does not go back, and a wait that timed out has
    taken its time. *)
Fixpoint clock_at_least (l : touch_log) : option Instant :=
  match l with
  | [] => None
  | Event c a :: older =>
    match c in touch_call A return A -> option Instant with
    | TouchNow => fun now => Some now
    | AwaitReply wait => fun answer =>
      match answer with ReplyTimeout => (fun t => t + wait) <$> clock_at_least older | _ => clock_at_least older end
    | _ => fun _ => clock_at_least older
    end a
  end.
Definition clock_runs : Prop := forall l t, clock_at_least l = Some t -> t <= ask Instant TouchNow l.

(** The prompt is never left open: it was not shown, it was answered, or it was taken back. *)
Definition is_evaluation (e : call_event touch_call) : bool :=
  match e with Event c _ => match c with EvaluatePolicy _ => true | _ => false end end.
Definition prompt_closed (l : touch_log) : Prop :=
  existsb is_evaluation l = false \/
  exists l0, l = Event InvalidateContext tt :: l0 \/
    exists wait answer, l = Event (AwaitReply wait) answer :: l0 /\ answer <> ReplyTimeout.

(** The evaluation for this reason, which can neither reuse an earlier one nor fall back to a
    password, of an attempt that was not seen cancelled since; and the finger accepted. *)
Definition saw_cancellation (e : call_event touch_call) : bool :=
  match e with
  | Event c a =>
    match c in touch_call A return A -> bool with AttemptCancelled => fun cancelled => cancelled | _ => fun _ => false end a
  end.
Definition shown (reason : string) (l : touch_log) : Prop :=
  [Event (EvaluatePolicy reason) tt; Event ForbidFallback tt; Event ForbidReuse tt;
   Event CanEvaluatePolicy (Ok tt)] `suffix_of` l /\ existsb saw_cancellation l = false.
Definition confirmed (reason : string) (l : touch_log) : Prop :=
  exists wait waited, l = Event (AwaitReply wait) (Replied true) :: waited /\ shown reason waited.

(** The clock when the evaluation had been asked for: its first reading. *)
Fixpoint start_of (l : touch_log) : option Instant :=
  match l with
  | [] => None
  | Event c a :: older =>
    match c in touch_call A return A -> option Instant with
    | TouchNow => fun now => Some (default now (start_of older))
    | _ => fun _ => start_of older
    end a
  end.

(** Every wait for the reply begins right after a look at the cancellation and at the clock,
    is one slice at most, and ends by the deadline. *)
Fixpoint in_time (l : touch_log) : Prop :=
  match l with
  | [] => True
  | Event c a :: older =>
    match c with
    | AwaitReply wait =>
      exists now start before, older = Event TouchNow now :: Event AttemptCancelled false :: before /\
        start_of before = Some start /\ now < start + AUTHENTICATION_TIMEOUT /\
        0 < wait <= REPLY_SLICE /\ now + wait <= start + AUTHENTICATION_TIMEOUT
    | _ => True
    end /\ in_time older
  end.

Lemma shown_next reason l e : saw_cancellation e = false -> shown reason l -> shown reason (e :: l).
Proof. intros He [Hs Hc]. split; [by apply suffix_cons_r|]. cbn. by rewrite He. Qed.
Lemma closed_by_invalidation a l : prompt_closed (Event InvalidateContext a :: l).
Proof. destruct a. right. exists l. by left. Qed.
Lemma closed_by_reply wait answer l : answer <> ReplyTimeout -> prompt_closed (Event (AwaitReply wait) answer :: l).
Proof. intros Ha. right. exists l. right. by exists wait, answer. Qed.

(** *** The worker *)
Definition honest (reason : string) (r : LResult unit) (l : touch_log) : Prop :=
  in_time l /\ match r with Ok _ => confirmed reason l | Err _ => prompt_closed l end.

(** The evaluation is open, and every wait so far was in time. *)
Record waiting (reason : string) (deadline : Instant) (l : touch_log) : Prop := {
  wt_shown : shown reason l;
  wt_start : start_of l = Some (deadline - AUTHENTICATION_TIMEOUT);
  wt_time : in_time l;
}.

Lemma await_round fuel deadline reason t l :
  clock_runs -> waiting reason deadline l -> clock_at_least l = Some t ->
  (forall now wait l', t <= now < deadline -> wait = Z.min REPLY_SLICE (deadline - now) -> waiting reason deadline l' ->
     clock_at_least l' = Some (now + wait) -> os_wp (await_reply fuel deadline) (honest reason) l') ->
  os_wp (await_reply (S fuel) deadline) (honest reason) l.
Proof.
  intros Hclock [Hs Hst Htime] Ht Hnext. cbn [await_reply]. ask_step. ask_step.
  destruct a; [repeat ask_step; split; [done|apply closed_by_invalidation]|].
  ask_step. apply os_wp_perform. intros now Hnow.
  assert (Hn : t <= now) by (rewrite Hnow; by apply Hclock). clear Hnow.
  set (seen := Event TouchNow now :: Event AttemptCancelled false :: l).
  assert (Hs' : shown reason seen) by (do 2 (apply shown_next; [done|]); done).
  destruct (Z.leb_spec deadline now) as [Hle|Hgt].
  { repeat ask_step; split; [done|apply closed_by_invalidation]. }
  rewrite Z.max_r by lia. set (wait := Z.min REPLY_SLICE (deadline - now)).
  assert (Htime' : forall answer, in_time (Event (AwaitReply wait) answer :: seen)).
  { intros answer. split; [|done]. exists now, (deadline - AUTHENTICATION_TIMEOUT), l.
    unfold wait, REPLY_SLICE. split_and!; [done|done|lia..]. }
  ask_step. ask_step. destruct a as [[]| |].
  - ask_step. split; [done|]. by do 2 eexists.
  - ask_step. split; [done|]. by apply closed_by_reply.
  - apply (Hnext now wait); [lia|done| |done]. split; [by apply shown_next| |done].
    cbn. by rewrite Hst.
  - ask_step. split; [done|]. by apply closed_by_reply.
Qed.
Lemma await_reply_wp fuel deadline reason t l :
  clock_runs -> waiting reason deadline l -> clock_at_least l = Some t -> deadline <= t + Z.of_nat fuel * REPLY_SLICE ->
  os_wp (await_reply (S fuel) deadline) (honest reason) l.
Proof.
  intros Hclock. revert t l. induction fuel as [|fuel IH]; intros t l Hs Ht Hd; eapply await_round; eauto.
  - lia.
  - intros now wait l' Hn -> Hs' Ht'. apply (IH (now + Z.min REPLY_SLICE (deadline - now))); [done..|].
    unfold REPLY_SLICE in *. lia.
Qed.

(** C18. Touch ID is honest and ends within its deadline: with a clock that runs, the worker
    always answers; it never waits for the reply beyond 60 seconds after it asked macOS, and
    looks at the cancellation and the clock before every wait of at most 20 milliseconds; it
    says that the user confirmed only when macOS accepted the finger for exactly this reason,
    in an evaluation without reuse and without a password, of an attempt that was not seen
    cancelled; otherwise the prompt is not left open. *)
Theorem touch_id_is_honest reason :
  clock_runs -> os_wp (authenticate 3001 reason) (honest reason) [].
Proof.
  intros Hclock. unfold authenticate. case_bool_decide; [by ask_step; split; [|left]|].
  ask_step. ask_step; [|by split; [|left]]. do 4 (ask_step; ask_step).
  destruct a, a0, a1, a2. apply (await_reply_wp 3000 _ reason a3); [done| |done|].
  - split; [|cbn; f_equal; lia|done]. split; [by exists [Event TouchNow a3]|done].
  - unfold AUTHENTICATION_TIMEOUT, REPLY_SLICE. lia.
Qed.
End touch_id.

(** The finger is accepted at the second look. *)
Definition example_touch (A : Type) (c : touch_call A) (l : touch_log) : A :=
  match c in touch_call A return A with
  | CanEvaluatePolicy => Ok tt
  | AttemptCancelled => false
  | TouchNow => default 5 (clock_at_least l)
  | AwaitReply _ => if (length l <? 9)%nat then ReplyTimeout else Replied true
  | ForbidReuse | ForbidFallback | EvaluatePolicy _ | InvalidateContext => tt
  end.
Example touch_id_is_honest_witness :
  clock_runs example_touch /\ (authenticate example_touch 3001 "Unlock" []).1 = Some (Ok tt) /\
  os_wp (authenticate example_touch 3001 "Unlock") (honest "Unlock") [].
Proof.
  assert (Hclock : clock_runs example_touch) by (intros l t Ht; cbn; by rewrite Ht).
  split; [exact Hclock|]. split; [reflexivity|]. exact (touch_id_is_honest example_touch "Unlock" Hclock).
Defined.
